(* ===== verification/_CoqProject ===== *)
-Q . S2P
Prelude.v
GoStrings.v
GoErrors.v
GoTime.v
LogCode.v
GoAny.v
Types.v
Buffer.v
Headers.v
ConsumerApi.v
SubscribeOptions.v
Strategies.v
Subscriber.v
Walk.v
AtLeastOnce.v
Accounts.v
Lifecycle.v
GoText.v
Script.v
RWMutex.v
GoMath.v
GoFloat.v
Kfk.v
ConsumerDriver.v
OffsetSafety.v
PubDriver.v
ProducerHandle.v
PubOptions.v
PublisherConfig.v
Delivery.v
Writer.v
Publisher.v
PubInvariants.v
PubSafety.v
PubProgress.v
PubStack.v
StackRefines.v
StackProgress.v
PubNew.v
Retry.v
RetryWalk.v
RetrySafety.v
Backoff.v
PubSession.v
RetryEnd.v
EndToEnd.v
Facade.v
PlayHandler.v
PlayFate.v
PlayConsumer.v
PlayProducer.v
PlayEnd.v
