(* ===== verification/Prelude.v ===== *)
(** * easykafka-go in Rocq

    A shallow embedding of the library's Go code, with the theorems that make it
    correct.  File names of the program are under src/.

    ** The program

    A _subscriber_ (subscribe/) polls a Kafka consumer, gives each record, or a
    batch of them, to the application's handler, hands a failure to an error
    strategy, and stores the offset of what was resolved.  A _publisher_ (publish/)
    queues records in librdkafka and settles a delivery for each when its report
    comes.  The two meet in the _retry strategy_ (internal/subscribe/strategy): it
    writes a failed record to a retry topic or a dead-letter topic through a
    publisher, and answers the subscriber once the broker has acknowledged it.
    Both sides talk to confluent-kafka-go through a driver of their own
    (internal/subscribe/subscribedriver, internal/publish/publishdriver).

    ** How it is modelled

    Pure functions are Rocq functions.  Code that calls out is in the state monad
    [ST] of this file, over a world [W] that holds whatever is outside: a call is a
    function of the world that returns a result and the world it leaves, so any
    answer of the broker, the clock and the application is covered, and may depend
    on everything that happened before.  An error is a [goerr] (GoErrors.v), with
    the wrapping and identity that [errors.Is] looks at; a panic of application
    code is an outcome of its call.  Goroutines that share memory, in publisher.go
    and producer.go, are a step function over the goroutines' program counters,
    driven by a schedule; a theorem about reachable states holds for every schedule.
    Machine integers are [Z] with [wrap64] and [wrap32] where the code can overflow;
    float64 is the SpecFloat of the standard library.  The order a Go map is ranged
    over is the parameter [GoRange], of which only [GoRangeLaws] is known.

    Two histories are kept next to the state for the sake of the theorems, and no step
    reads them: the reports librdkafka has sent ([Publisher.reported]), and the events
    its client has emitted ([PubStack.emitted]).  They are appended to by librdkafka's
    own steps only.  An outcome is compared with the first report of the record, and
    "the broker has acknowledged the record" ([PubSession.acknowledged]) means that the
    client's first event about it is a delivery report without an error.

    ** The files

    Go, as the code uses it:
    - Prelude.v (this file): integers, the monad and its Hoare-style [post], maps.
    - GoStrings.v, GoTime.v, GoErrors.v, GoAny.v: strconv, strings and sort; time
      and RFC 3339; errors; values of type any.
    - GoMath.v, GoFloat.v: math.Pow with Frexp and Ldexp, and facts on binary64.
    - GoText.v: UTF-8 validity, strings.TrimSpace, Cut and Split.
    - RWMutex.v: sync.RWMutex over a map of goroutines.

    The subscriber:
    - LogCode.v: internal/logcode/logcode.go.
    - Types.v, ConsumerApi.v: internal/subscribe/types/types.go; the driver's and
      the strategies' interfaces.
    - Buffer.v: internal/subscribe/batch/batch.go.
    - Headers.v: internal/subscribe/metadata (headers.go, context.go, wait.go).
    - Strategies.v: skip.go and fail_fast.go of internal/subscribe/strategy.
    - SubscribeOptions.v, Subscriber.v: subscribe/options.go and subscriber.go.
      [Subscriber.Start] is the method Start; [run] is the loop of either mode.
    - Facade.v: subscribe/metadata.go, handler.go, strategy.go.
    - Walk.v: what a property has to do with each outside call to hold of a run.
    - AtLeastOnce.v: the abstract machine of polls, verdicts and stores, and the
      simulation of [Start] by it.  Accounts.v: what an accepted trace says of each
      record, since the last revocation; and of each record ever polled, where the
      broker hands over again what was revoked unstored ([redelivers], a law on the
      polls of a run, of which a run with a revocation is an example there).
    - Lifecycle.v: what starts, returns, stops and stores.

    The consumer driver:
    - Kfk.v, ConsumerDriver.v: the types of confluent-kafka-go, and
      internal/subscribe/subscribedriver/consumer.go over a client that is the class
      [KfkConsumer].
    - OffsetSafety.v: the class [OffsetLaws], what a consumer promises about the
      offsets it commits; the driver is an instance.

    The publisher:
    - PubDriver.v: event.go, errors.go, config.go and managed_keys.go of
      internal/publish/publishdriver, and the answer of producer.go's TopicPartitions.
    - ProducerHandle.v: producer.go, its lock, its calls and its Close, interleaved.
    - PubOptions.v, PublisherConfig.v: publish/options.go and partitioner.go;
      internal/subscribe/strategy/publisher_config.go.
    - Delivery.v, Writer.v: publish/delivery.go and errors.go; topic.go, codec.go
      and writer.go.
    - Publisher.v: publish/publisher.go from [enqueue] on: the goroutines that
      enqueue, the report goroutine, and [Close], interleaved.
    - PubInvariants.v, PubSafety.v, PubProgress.v: its invariants, what follows from
      them, and that it comes to rest.
    - PubStack.v: the publisher on producer.go instead of the interface Publisher.v
      puts in its place: every call a method of ProducerHandle.v under its lock, every
      event through the goroutine translate.  StackRefines.v: it refines Publisher.v.
    - StackProgress.v: that this comes to rest too.
    - PubNew.v: [publish.New] with the producer it makes, and [Ping].

    The retry strategy:
    - Retry.v: internal/subscribe/strategy/retry.go, over the class [PublisherLaws],
      what it relies on of its publisher.  RetryWalk.v: what its calls keep.
    - RetrySafety.v, Backoff.v: configuration, exclusive use, the ladder of
      attempts; the delay.
    - PubSession.v: the publisher of PubStack.v behind the calls of the strategy,
      an instance of [PublisherLaws].
    - RetryEnd.v: the subscriber with the retry strategy.
    - EndToEnd.v: the subscriber, the consumer driver, the retry strategy and the
      publisher in one world.

    The playground (examples/playground), a consumer and a producer that try the
    library out:
    - Script.v: internal/script/script.go, the scripts in its payloads.
    - PlayHandler.v: cmd/consumer/handler.go, both handlers.
    - PlayFate.v: such a script on the retry ladder of RetrySafety.v.
    - PlayConsumer.v: cmd/consumer/main.go, from the flags to the two subscribers
      and their end.
    - PlayProducer.v: cmd/producer/main.go, from the arguments to the records.
    - PlayEnd.v: the consumers in the world of EndToEnd.v.

    ** What the theorems show

    - Nothing is lost.  [EndToEnd.committed_not_lost]: up to an offset the group has
      committed, each record delivered since the last revocation was accepted by the
      handler or has an acknowledged copy on the retry or dead-letter topic; and each
      record ever polled, under [redelivers].  It rests on the refinement of [Start]
      ([AtLeastOnce], [Accounts]), on the driver's hold on the offset store ([OffsetSafety]), on
      the retry strategy ([Retry], [RetryEnd]) and on the publisher's settlement of
      each record ([PubInvariants], [PubSession]).
    - Records are settled exactly once, as their first report says, before [Close]
      returns; nothing is enqueued after it; fatal errors are permanent ([PubSafety]).
    - Publisher.v is what producer.go makes of librdkafka: the publisher on its
      producer goes through its states only ([StackRefines]), by a simulation with
      stuttering.  What is shown of Publisher.v is therefore shown of the two together.
    - No deadlock: every send and every [Close] of a publisher returns, on the
      interface ([PubProgress]) and on the producer with its own lock
      ([StackProgress]), every call of a producer does, none on a destroyed client
      ([ProducerHandle]), and [Start] does once its context has ended ([Lifecycle]).
    - A configuration that is accepted is valid, in any order of options, and gives
      librdkafka what the options say ([SubscribeOptions], [PubOptions],
      [PublisherConfig], [ConsumerDriver], [PubDriver], [PubNew], [RetrySafety]).
    - What is written is read back: retry headers, their order on the wire, the
      attempt count ([Headers], [RetrySafety]).
    - The batch buffer is a queue ([Buffer]); a batch stores the highest offset of
      each partition ([Lifecycle]).
    - The retry delay stays within its bounds, for a multiplier that is a number and
      delays below 104 days, and is exact by default ([Backoff]).
    - The playground does what its scripts say: what is typed is what is parsed
      ([PlayProducer]), every payload that parses is well typed ([Script]), batch
      mode agrees with single mode ([PlayHandler]), the [k]-th delivery of a message
      carries out its [k]-th token ([PlayFate]), the flags make two consumers that
      fit together and stop together ([PlayConsumer]), and what they have committed
      was ok by its script or is on the retry or dead-letter topic ([PlayEnd]).

    Not everything holds: a positive auto-commit interval below a millisecond turns
    commits off ([ConsumerDriver.short_interval_disables_commits]); a NaN multiplier
    is accepted ([Backoff.nan_multiplier]); a failed [NewRetryStrategy] gives an
    interface that is not nil ([Facade.failed_strategy_not_nil]); a playground
    record whose wait is interrupted uses up an attempt
    ([PlayFate.interrupted_uses_attempt]), and one with a negative attempt header
    makes its handler panic ([PlayHandler.play_handle]).

    ** Fuel and bounds

    [Start] takes fuel, one unit for each iteration of its loop, since a subscriber
    runs until it is cancelled; its result is [None] only when the fuel runs out.
    The safety theorems hold of the trace for any fuel, and
    [Lifecycle.Start_returns] gives the fuel that is enough.  [Pow] takes fuel for
    the 64 bits of its exponent.  Parsing and formatting of decimals takes the
    length of the number.  The bounds on durations in [Backoff] are those below
    which a float64 holds every nanosecond.

    ** Not modelled

    - confluent-kafka-go and librdkafka: classes of operations ([KfkConfig],
      [KfkConsumer], [KfkProducer]), with what is documented of them as laws
      ([KfkConfigLaws], [KfkOffsetLaws], [KfkProducerLaws], [KfkCodesDistinct]).  Under Publisher.v it
      is the [publishdriver.Producer] interface, as producer.go documents it; under
      PubStack.v it is confluent-kafka-go, which counts a record as outstanding from
      [Produce] to its report, and answers a call while the caller holds the lock.
    - The logger: a trace of levels and codes.  Message texts and other fields are
      left out, and so is which logger a line goes to; which one a configuration or the
      retry strategy holds is modelled ([Types.Logger]).
    - A batch handler that replaces or reorders the pointers in the slice that [Items]
      returns: its writes go through the items.
    - json.Marshal, and the text of a float64 in an error message: parameters.
    - A call that never returns has no result in the model: in PubSession.v a
      schedule that does not let a call return gives it the error [blocked], from
      which nothing is concluded.  There always is a schedule that lets it return
      ([PubSession.call_returns], [PubSession.wait_returns]), but for a [Wait] for a
      record that librdkafka held when it was closed.
    - Reports that come during a call of the strategy are steps of that call; the
      time at which goroutines are scheduled is not modelled.
    - The flag package and signal handling of the playground's commands: their
      models start from the values of the flags and from a context.  In
      PlayConsumer.v the order in which the two [Start]s return is a parameter;
      their steps in between are not interleaved with each other, except as what
      their worlds may do.
    - The stack traces logged with a panic and the goroutine leak checks. *)
From Stdlib Require Import Ascii.
From stdpp Require Export base list strings gmap fin_maps sorting.

Declare Scope go_scope.
Delimit Scope go_scope with go.
#[global] Open Scope Z_scope.

Create HintDb ek discriminated.
Create Rewrite HintDb ek.

(** ** Go integers

    An [int] is 64 bits wide on the platforms the library supports, like
    [int64] and [time.Duration]; an [int32] has 32 bits.  A value is a [Z] and
    the wrap-around is written out with [wrap]. *)
Definition wrap (w z : Z) : Z := (z + 2 ^ (w - 1)) mod 2 ^ w - 2 ^ (w - 1).
Definition wrap64 (z : Z) : Z := wrap 64 z.
Definition wrap32 (z : Z) : Z := wrap 32 z.
Definition in_int64 (z : Z) : bool := bool_decide (- 2 ^ 63 ≤ z < 2 ^ 63).
Definition in_int32 (z : Z) : bool := bool_decide (- 2 ^ 31 ≤ z < 2 ^ 31).

Lemma wrap64_id z : - 2 ^ 63 ≤ z < 2 ^ 63 → wrap64 z = z.
Proof. intros. unfold wrap64, wrap. rewrite Z.mod_small; lia. Qed.
Lemma wrap64_range z : - 2 ^ 63 ≤ wrap64 z < 2 ^ 63.
Proof.
  unfold wrap64, wrap. pose proof (Z.mod_pos_bound (z + 2 ^ (64 - 1)) (2 ^ 64)). lia.
Qed.
Lemma wrap32_id z : - 2 ^ 31 ≤ z < 2 ^ 31 → wrap32 z = z.
Proof. intros. unfold wrap32, wrap. rewrite Z.mod_small; lia. Qed.

#[export] Hint Rewrite wrap64_id wrap32_id using lia : ek.

(** ** Byte slices: [None] is the nil slice, [Some s] holds the bytes of [s]. *)
Abbreviation bytes := (option string).

(** ** State passing

    [ST S A] is a computation that reads and writes a state [S]; it is a monad
    through stdpp's [MRet] and [MBind], so [x ← m; k] and [m ;; k] are its
    notation. *)
Definition ST (S A : Type) : Type := S → A * S.
#[global] Instance ST_ret S : MRet (ST S) := λ A x s, (x, s).
#[global] Instance ST_bind S : MBind (ST S) := λ A B f m s, let '(x, s') := m s in f x s'.
Definition get {S} : ST S S := λ s, (s, s).
Definition gets {S A} (f : S → A) : ST S A := λ s, (f s, s).
Definition modify {S} (f : S → S) : ST S unit := λ s, (tt, f s).

Fixpoint st_iter {S A} (f : A → ST S unit) (l : list A) : ST S unit :=
  match l with
  | [] => mret tt
  | x :: l => f x ;; st_iter f l
  end.

(** [post m Q s]: the computation [m] run from [s] ends with a result and a
    state that satisfy [Q]. *)
Definition post {S A} (m : ST S A) (Q : A → S → Prop) (s : S) : Prop := Q (m s).1 (m s).2.

Section post.
Context {S : Type}.
Implicit Types s : S.

Lemma post_ret {A} (x : A) (Q : A → S → Prop) s : Q x s → post (mret x) Q s.
Proof. done. Qed.
Lemma post_bind {A B} (m : ST S A) (f : A → ST S B) (Q : B → S → Prop) s :
  post m (λ x, post (f x) Q) s → post (m ≫= f) Q s.
Proof. unfold post, mbind, ST_bind. by destruct (m s). Qed.
Lemma post_gets {A} (f : S → A) (Q : A → S → Prop) s : Q (f s) s → post (gets f) Q s.
Proof. done. Qed.
Lemma post_modify (f : S → S) (Q : unit → S → Prop) s : Q tt (f s) → post (modify f) Q s.
Proof. done. Qed.
Lemma post_mono {A} (m : ST S A) (Q Q' : A → S → Prop) s :
  post m Q s → (∀ x s', Q x s' → Q' x s') → post m Q' s.
Proof. unfold post. naive_solver. Qed.
Lemma post_true {A} (m : ST S A) s : post m (λ _ _, True) s.
Proof. done. Qed.
Lemma post_eq {A} (m : ST S A) s : post m (λ x s', m s = (x, s')) s.
Proof. unfold post. by destruct (m s). Qed.
End post.
#[export] Hint Resolve post_ret post_gets post_modify : ek.

(** One step through a computation: binds, returns, reads and updates. *)
Ltac st_step :=
  match goal with
  | |- post (_ ≫= _) _ _ => apply post_bind
  | |- post (mret _) _ _ => apply post_ret
  | |- post (gets _) _ _ => apply post_gets
  | |- post (modify _) _ _ => apply post_modify
  | |- post (if ?b then _ else _) _ _ => destruct b eqn:?
  | |- post (match ?x with _ => _ end) _ _ => destruct x eqn:?
  end.

(** ** Iterating over a Go map

    [range] visits the entries of a map in an order the language leaves open.
    The order is a parameter of every definition that ranges over a map; the
    law says that each entry is visited exactly once. *)
Class GoRange := go_range :
  ∀ {K : Type} `{Countable K} {A : Type}, gmap K A → list (K * A).
Class GoRangeLaws `{GoRange} : Prop := go_range_perm :
  ∀ {K : Type} `{Countable K} {A : Type} (m : gmap K A), go_range m ≡ₚ map_to_list m.

(** One order a run may take; witnesses evaluate with it. *)
Definition range_canonical : GoRange := λ K _ _ A m, map_to_list m.
Lemma range_canonical_laws : @GoRangeLaws range_canonical.
Proof. by intros K ? ? A m. Qed.

Section go_range.
Context `{GoRangeLaws} `{Countable K} {A : Type}.
Implicit Types m : gmap K A.

Lemma elem_of_go_range m k x : (k, x) ∈ go_range m ↔ m !! k = Some x.
Proof. rewrite go_range_perm. apply elem_of_map_to_list. Qed.
Lemma NoDup_go_range m : NoDup (go_range m).*1.
Proof. rewrite go_range_perm. apply NoDup_fst_map_to_list. Qed.
End go_range.

Lemma is_Some_Some {A} (x : A) : is_Some (Some x) ↔ True.
Proof. by split. Qed.
Lemma is_Some_None {A} : is_Some (@None A) ↔ False.
Proof. split; [by intros []|done]. Qed.

(** Filling a slice from the left, one cell at a time. *)
Lemma take_S_insert {A} (l : list A) (i : nat) x :
  (i < length l)%nat → take (S i) (<[i:=x]> l) = take i l ++ [x].
Proof.
  intros. rewrite (take_S_r _ _ x) by (by apply list_lookup_insert_eq).
  by rewrite take_insert_ge by lia.
Qed.

Lemma same_lookup_length {A B C} (f : A → C) (g : nat → B → C) l l' :
  (∀ i : nat, f <$> l !! i = g i <$> l' !! i) → length l = length l'.
Proof.
  intros Hl. apply Nat.le_antisymm; apply Nat.nlt_ge; intros Hlt;
    [specialize (Hl (length l'))|specialize (Hl (length l))];
    rewrite (lookup_ge_None_2 _ _ (reflexivity _)) in Hl;
    apply lookup_lt_is_Some in Hlt as [? E]; rewrite E in Hl; done.
Qed.
