(* ===== verification/GoStrings.v ===== *)
(** * Go strings and decimal numbers

    The parts of [strconv], [strings] and [fmt] the program uses: decimal
    formatting ([Itoa], [FormatInt(_, 10)]), decimal parsing ([Atoi],
    [ParseInt(_, 10, bits)]), [HasPrefix], [Join], and [%q].  A Go string is its
    sequence of bytes. *)
From S2P Require Import Prelude.
From Stdlib Require Import Ascii.

(** ** Formatting *)

Definition digit_char (d : N) : ascii := ascii_of_N (48 + d).
Definition is_digit (c : ascii) : bool := (48 <=? N_of_ascii c)%N && (N_of_ascii c <=? 57)%N.
Definition digit_val (c : ascii) : N := (N_of_ascii c - 48)%N.

(** The loop of [strconv.formatBits]: least significant digit first, written
    backwards into a buffer. *)
Fixpoint format_digits (fuel : nat) (n : N) (acc : string) : string :=
  match fuel with
  | O => acc
  | S fuel =>
      let acc := String (digit_char (n mod 10)) acc in
      if (n <? 10)%N then acc else format_digits fuel (n / 10)%N acc
  end.
Definition format_uint (n : N) : string := format_digits (S (N.to_nat (N.size n))) n EmptyString.

(** [strconv.FormatInt(z, 10)], and [strconv.Itoa] for an [int]. *)
Definition FormatInt (z : Z) : string :=
  if z <? 0 then String "-" (format_uint (Z.to_N (- z))) else format_uint (Z.to_N z).
Definition Itoa : Z → string := FormatInt.

(** ** Parsing *)

Fixpoint parse_digits (s : string) (n : N) : option N :=
  match s with
  | EmptyString => Some n
  | String c s => if is_digit c then parse_digits s (10 * n + digit_val c)%N else None
  end.
Definition parse_uint (s : string) : option N :=
  match s with EmptyString => None | _ => parse_digits s 0%N end.

(** [strconv.ParseInt(s, 10, bits)].  A syntax error and a value out of range
    are both an error, [None]; the program does not tell them apart. *)
Definition ParseInt (bits : Z) (s : string) : option Z :=
  let '(neg, digits) :=
    match s with
    | String "+" s => (false, s)
    | String "-" s => (true, s)
    | _ => (false, s)
    end in
  n ← parse_uint digits;
  let z := if neg : bool then - Z.of_N n else Z.of_N n in
  if bool_decide (- 2 ^ (bits - 1) ≤ z < 2 ^ (bits - 1)) then Some z else None.
(** [strconv.Atoi]: [ParseInt] at the width of [int]. *)
Definition Atoi : string → option Z := ParseInt 64.

(** ** strings *)

(** [strings.HasPrefix]. *)
Definition HasPrefix (s prefix : string) : bool := String.prefix prefix s.
(** [strings.Join]. *)
Definition Join (l : list string) (sep : string) : string := String.concat sep l.

(** One byte of [strconv.Quote].  A byte of a multi-byte UTF-8 sequence is
    copied, which is what Quote does with a printable character. *)
Definition hex_digit (n : N) : ascii :=
  if (n <? 10)%N then ascii_of_N (48 + n) else ascii_of_N (87 + n).
Definition quote_char (c : ascii) : string :=
  let n := N_of_ascii c in
  let esc (k : ascii) := String "\" (String k EmptyString) in
  if bool_decide (n = 34%N ∨ n = 92%N) then esc c
  else if (n =? 7)%N then esc "a"%char else if (n =? 8)%N then esc "b"%char
  else if (n =? 9)%N then esc "t"%char else if (n =? 10)%N then esc "n"%char
  else if (n =? 11)%N then esc "v"%char else if (n =? 12)%N then esc "f"%char
  else if (n =? 13)%N then esc "r"%char
  else if ((n <? 32) || (n =? 127))%N then
    String "\" (String "x" (String (hex_digit (n / 16)) (String (hex_digit (n mod 16)) EmptyString)))
  else String c EmptyString.
Fixpoint quote_body (s : string) : string :=
  match s with EmptyString => EmptyString | String c s => quote_char c +:+ quote_body s end.
(** [strconv.Quote], and [%q]. *)
Definition Quote (s : string) : string :=
  String "034" (quote_body s +:+ String "034" EmptyString).

(** [fmt]'s [%t] on a bool. *)
Definition newline : string := String "010" EmptyString.

(** ** Lemmas *)

Lemma is_digit_char d : (d < 10)%N → is_digit (digit_char d) = true.
Proof.
  intros Hd. unfold is_digit, digit_char. rewrite N_ascii_embedding by lia.
  apply andb_true_iff; split; apply N.leb_le; lia.
Qed.
Lemma digit_val_char d : (d < 10)%N → digit_val (digit_char d) = d.
Proof. intros Hd. unfold digit_val, digit_char. rewrite N_ascii_embedding; lia. Qed.

(** Number of digits still to come: the weight of what [format_digits] writes. *)
Lemma parse_format_digits fuel : ∀ n acc m,
  (n < 10 ^ N.of_nat fuel)%N → (0 < fuel)%nat →
  ∃ k, parse_digits (format_digits fuel n acc) m = parse_digits acc (m * 10 ^ k + n)%N ∧
       (0 < k)%N.
Proof.
  induction fuel as [|fuel IH]; intros n acc m Hn Hf; [lia|]. simpl.
  assert (n mod 10 < 10)%N as Hmod by (apply N.mod_lt; lia).
  pose proof (N.div_mod n 10 ltac:(lia)) as Hdm.
  destruct (N.ltb_spec n 10).
  - exists 1%N. simpl. rewrite is_digit_char, digit_val_char by done.
    split; [|lia]. f_equal. rewrite N.pow_1_r.
    replace (n mod 10)%N with n by (symmetry; apply N.mod_small; lia). lia.
  - destruct fuel as [|fuel]; [simpl in Hn; lia|].
    destruct (IH (n / 10)%N (String (digit_char (n mod 10)) acc) m) as (k & Hk & Hk0).
    + apply N.Div0.div_lt_upper_bound.
      rewrite Nat2N.inj_succ, N.pow_succ_r' in Hn. lia.
    + lia.
    + exists (N.succ k). rewrite Hk. simpl.
      rewrite is_digit_char, digit_val_char by done. split; [|lia].
      f_equal. rewrite N.pow_succ_r'. lia.
Qed.

Lemma size_pow10 n : (n < 10 ^ N.of_nat (S (N.to_nat (N.size n))))%N.
Proof.
  eapply N.lt_le_trans; [apply N.size_gt|].
  etrans; [apply (N.pow_le_mono_l 2 10); lia|]. apply N.pow_le_mono_r; lia.
Qed.

Lemma format_digits_nonempty fuel : ∀ n acc,
  acc ≠ EmptyString → format_digits fuel n acc ≠ EmptyString.
Proof. induction fuel; simpl; intros n acc ?; [done|]. destruct (_ <? _)%N; [done|]. by apply IHfuel. Qed.

Lemma parse_format_uint n : parse_uint (format_uint n) = Some n.
Proof.
  unfold parse_uint, format_uint.
  destruct (parse_format_digits _ n EmptyString 0 (size_pow10 n)) as (k & Hk & _); [lia|].
  destruct (format_digits _ _ _) eqn:E; [|rewrite Hk; simpl; f_equal; lia].
  simpl in E. destruct (n <? 10)%N; [done|]. by apply format_digits_nonempty in E.
Qed.

(** The first byte of an unsigned number is a digit, so it is no sign. *)
Lemma format_digits_head fuel : ∀ n acc,
  (∃ c s, acc = String c s ∧ is_digit c = true) ∨ (0 < fuel)%nat →
  ∃ c s, format_digits fuel n acc = String c s ∧ is_digit c = true.
Proof.
  induction fuel as [|fuel IH]; intros n acc H; simpl; [destruct H; [done|lia]|].
  assert (is_digit (digit_char (n mod 10)) = true) as Hd.
  { apply is_digit_char, N.mod_lt. lia. }
  destruct (n <? 10)%N; [by eauto|]. apply IH. by eauto.
Qed.

(** [ParseInt] reads back what [FormatInt] wrote, in range of the width asked for. *)
Lemma ParseInt_FormatInt bits z :
  - 2 ^ (bits - 1) ≤ z < 2 ^ (bits - 1) → ParseInt bits (FormatInt z) = Some z.
Proof.
  intros Hz. unfold ParseInt, FormatInt. destruct (Z.ltb_spec z 0).
  - simpl. rewrite parse_format_uint. simpl. rewrite bool_decide_eq_true_2 by lia. f_equal. lia.
  - destruct (format_digits_head (S (N.to_nat (N.size (Z.to_N z)))) (Z.to_N z) EmptyString)
      as (c & s & E & Hc); [right; lia|].
    assert (format_uint (Z.to_N z) = String c s) as E' by done.
    pose proof (parse_format_uint (Z.to_N z)) as Hp. rewrite E' in *.
    destruct (decide (c = "+"%char)) as [->|]; [done|].
    destruct (decide (c = "-"%char)) as [->|]; [done|].
    replace (match String c s with
             | String "+" s0 => (false, s0) | String "-" s0 => (true, s0)
             | _ => (false, String c s) end) with (false, String c s).
    + rewrite Hp. simpl. rewrite bool_decide_eq_true_2 by lia. f_equal. lia.
    + destruct c as [[] [] [] [] [] [] [] []]; done.
Qed.

Lemma ParseInt_range bits s z :
  ParseInt bits s = Some z → - 2 ^ (bits - 1) ≤ z < 2 ^ (bits - 1).
Proof.
  unfold ParseInt. destruct (match s with String "+" _ => _ | _ => _ end) as [neg d].
  intros (n & _ & Hn)%bind_Some. case_bool_decide; [|done]. by simplify_eq.
Qed.
Lemma Atoi_Itoa z : - 2 ^ 63 ≤ z < 2 ^ 63 → Atoi (Itoa z) = Some z.
Proof. intros. by apply ParseInt_FormatInt. Qed.

Lemma prefix_app p s : String.prefix p (p +:+ s) = true.
Proof. induction p as [|c p IH]; [by destruct s|]. simpl. by destruct (ascii_dec c c). Qed.

Lemma FormatInt_nonempty z : FormatInt z ≠ EmptyString.
Proof.
  unfold FormatInt. destruct (z <? 0); [done|].
  destruct (format_digits_head (S (N.to_nat (N.size (Z.to_N z)))) (Z.to_N z) EmptyString)
    as (c & s & E & _); [right; lia|]. unfold format_uint. by rewrite E.
Qed.

(** ** Sorted keys

    [slices.Sorted(maps.Keys(m))]: the keys in byte order. *)
Definition sorted_keys `{GoRange} {A} (m : gmap string A) : list string :=
  merge_sort String.le (go_range m).*1.

Section sorted_keys.
Context `{GoRangeLaws} {A : Type}.
Implicit Types m : gmap string A.

Lemma sorted_keys_perm m : sorted_keys m ≡ₚ (map_to_list m).*1.
Proof. unfold sorted_keys. by rewrite merge_sort_Permutation, go_range_perm. Qed.
Lemma elem_of_sorted_keys m k : k ∈ sorted_keys m ↔ is_Some (m !! k).
Proof.
  rewrite sorted_keys_perm, list_elem_of_fmap. split.
  - intros ([k' x] & -> & Hx%elem_of_map_to_list). by exists x.
  - intros [x Hx]. exists (k, x). by rewrite elem_of_map_to_list.
Qed.
Lemma NoDup_sorted_keys m : NoDup (sorted_keys m).
Proof. rewrite sorted_keys_perm. apply NoDup_fst_map_to_list. Qed.
Lemma sorted_keys_sorted m : StronglySorted String.le (sorted_keys m).
Proof. apply StronglySorted_merge_sort; apply _. Qed.
(** Any list of the same keys, in order, is the same list. *)
Lemma sorted_keys_unique m l : StronglySorted String.le l → NoDup l →
  (∀ k, k ∈ l ↔ is_Some (m !! k)) → l = sorted_keys m.
Proof.
  intros Hs Hnd Hl. eapply (StronglySorted_unique String.le); [done|apply sorted_keys_sorted|].
  apply NoDup_Permutation; [done|apply NoDup_sorted_keys|].
  intros k. by rewrite Hl, elem_of_sorted_keys.
Qed.
End sorted_keys.
