(* ===== verification/GoErrors.v ===== *)
(** * Go error values

    The values an [error] can hold in this program, with [errors.Is],
    [errors.As] for [kfk.Error], [errors.Join], [fmt.Errorf] with [%w], and the
    text each one prints.  A nil [error] is [None].

    [errors.New] returns a fresh pointer, and [errors.Is] compares pointers.  A
    package-level sentinel is [ENew id text] with [id] its qualified name; an
    error built inside a function is compared with nothing, so its [id] is the
    empty string. *)
From S2P Require Import Prelude GoStrings.
From Stdlib Require Import Ascii.

#[warnings="-register-all"]
Inductive goerr : Type :=
  | ENew (id text : string)
  (** [fmt.Errorf] with [%w]: the text is rendered at once, the operands of [%w] are kept. *)
  | EErrorf (msg : string) (wrapped : list goerr)
  (** [errors.Join]: the non-nil operands. *)
  | EJoin (errs : list goerr)
  (** confluent-kafka-go's [kfk.Error], by what its methods Code, IsFatal and Error return. *)
  | EKfk (code : Z) (fatal : bool) (text : string)
  (** [*publishdriver.KafkaError]. *)
  | EKafka (code message : string) (sentinel : option goerr) (fatal disconnected : bool)
  (** [*publish.DeliveryError]. *)
  | EDelivery (topic : string) (partition : Z) (key value : bytes)
      (headers : list (string * bytes)) (code : string) (err : option goerr)
  (** Any other error type: its text, and what its Unwrap method returns. *)
  | ECustom (text : string) (wrapped : list goerr).

(** Structural induction with the induction hypothesis for every wrapped error. *)
Section goerr_ind.
Variable P : goerr → Prop.
Hypothesis HNew : ∀ id text, P (ENew id text).
Hypothesis HErrorf : ∀ msg w, Forall P w → P (EErrorf msg w).
Hypothesis HJoin : ∀ es, Forall P es → P (EJoin es).
Hypothesis HKfk : ∀ c f t, P (EKfk c f t).
Hypothesis HKafka : ∀ c m s f d, from_option P True s → P (EKafka c m s f d).
Hypothesis HDelivery : ∀ t p k v hs c e, from_option P True e → P (EDelivery t p k v hs c e).
Hypothesis HCustom : ∀ t w, Forall P w → P (ECustom t w).

Fixpoint goerr_ind' (e : goerr) : P e :=
  let all := fix all (l : list goerr) : Forall P l :=
    match l with
    | [] => Forall_nil_2 P
    | x :: l => Forall_cons_2 P x l (goerr_ind' x) (all l)
    end in
  let opt (o : option goerr) : from_option P True o :=
    match o return from_option P True o with Some x => goerr_ind' x | None => I end in
  match e with
  | ENew id t => HNew id t
  | EErrorf m w => HErrorf m w (all w)
  | EJoin w => HJoin w (all w)
  | EKfk c f t => HKfk c f t
  | EKafka c m s f d => HKafka c m s f d (opt s)
  | EDelivery t p k v hs c e => HDelivery t p k v hs c e (opt e)
  | ECustom t w => HCustom t w (all w)
  end.
End goerr_ind.

(** What [Unwrap] returns. *)
Definition unwrap (e : goerr) : list goerr :=
  match e with
  | EErrorf _ w | EJoin w | ECustom _ w => w
  | EKafka _ _ s _ _ => option_list s
  | EDelivery _ _ _ _ _ _ e => option_list e
  | ENew _ _ | EKfk _ _ _ => []
  end.

(** [errors.New] inside a function. *)
Definition errors_New (text : string) : goerr := ENew EmptyString text.

(** Whether the error tree of [e] holds the pointer named [id]. *)
Fixpoint has_id (id : string) (e : goerr) : bool :=
  match e with
  | ENew i _ => String.eqb i id
  | EErrorf _ w | EJoin w | ECustom _ w => existsb (has_id id) w
  | EKfk _ _ _ => false
  | EKafka _ _ s _ _ => match s with Some s => has_id id s | None => false end
  | EDelivery _ _ _ _ _ _ e => match e with Some e => has_id id e | None => false end
  end.

(** [errors.Is(err, target)] for a sentinel [target]; false for any other target. *)
Definition errors_Is (err : option goerr) (target : goerr) : bool :=
  match err, target with
  | Some e, ENew (String a id) _ => has_id (String a id) e
  | _, _ => false
  end.

(** [errors.As] for [kfk.Error], also written [errors.AsType[kfk.Error]]: the
    first one in the error tree, in pre-order. *)
Fixpoint as_kfk (e : goerr) : option (Z * bool * string) :=
  let first := fix first (l : list goerr) :=
    match l with
    | [] => None
    | x :: l => match as_kfk x with Some r => Some r | None => first l end
    end in
  match e with
  | EKfk c f t => Some (c, f, t)
  | EErrorf _ w | EJoin w | ECustom _ w => first w
  | ENew _ _ => None
  | EKafka _ _ s _ _ => match s with Some s => as_kfk s | None => None end
  | EDelivery _ _ _ _ _ _ e => match e with Some e => as_kfk e | None => None end
  end.

(** [errors.Join]: nil when every operand is nil. *)
Definition errors_Join (es : list (option goerr)) : option goerr :=
  match omap id es with
  | [] => None
  | l => Some (EJoin l)
  end.

(** [KafkaError.Error]: the sentinel's text, if any, then the message, or the
    code when there is none. *)
Definition KafkaError_Error (code message : string) (sentinel : option string) : string :=
  let message := match message with EmptyString => code | _ => message end in
  match sentinel with
  | None => message
  | Some s => s +:+ ": " +:+ message
  end.
(** [DeliveryError.Error]; [cause] is the text of [Err], if set. *)
Definition DeliveryError_Error (topic : string) (partition : Z) (code : string)
    (cause : option string) : string :=
  let p := if 0 <=? partition then "partition " +:+ Itoa partition else "no partition" in
  "publish: record for " +:+ topic +:+ " (" +:+ p +:+ ") not delivered: " +:+ default code cause.

(** The text of an error: what its [Error] method returns. *)
Fixpoint error_text (e : goerr) : string :=
  match e with
  | ENew _ t | EErrorf t _ | EKfk _ _ t | ECustom t _ => t
  | EJoin es => Join (map error_text es) newline
  | EKafka code message sentinel _ _ =>
      KafkaError_Error code message (match sentinel with Some s => Some (error_text s) | None => None end)
  | EDelivery topic partition _ _ _ code err =>
      DeliveryError_Error topic partition code
        (match err with Some e => Some (error_text e) | None => None end)
  end.

(** The errors of the [context] package. *)
Definition Canceled : goerr := ENew "context.Canceled" "context canceled".
Definition DeadlineExceeded : goerr :=
  ENew "context.DeadlineExceeded" "context deadline exceeded".

(** ** Lemmas *)

Lemma has_id_unwrap id e : has_id id e =
  match e with ENew i _ => String.eqb i id | _ => existsb (has_id id) (unwrap e) end.
Proof. destruct e as [| | | |? ? [] ? ?|? ? ? ? ? ? []|]; simpl; by rewrite ?orb_false_r. Qed.

Lemma errors_Is_nil t : errors_Is None t = false.
Proof. done. Qed.
Lemma errors_Is_errorf msg w t :
  errors_Is (Some (EErrorf msg w)) t = existsb (λ e, errors_Is (Some e) t) w.
Proof.
  destruct t as [[] ?| | | | | |]; try done; simpl; induction w; simpl; congruence.
Qed.
Lemma errors_Is_join es t :
  errors_Is (errors_Join es) t = existsb (λ e, errors_Is e t) es.
Proof.
  unfold errors_Join.
  assert (∀ l, existsb (λ e, errors_Is e t) l = errors_Is (Some (EJoin (omap id l))) t) as Hl.
  { intros l. induction l as [|[e|] l IH]; simpl in *; rewrite ?IH;
      destruct t as [[] ?| | | | | |]; done. }
  rewrite Hl. destruct (omap id es) eqn:E; [|done].
  destruct t as [[] ?| | | | | |]; done.
Qed.
Lemma errors_Is_kafka c m s f d t : errors_Is (Some (EKafka c m s f d)) t = errors_Is s t.
Proof. destruct s, t as [[] ?| | | | | |]; done. Qed.
Lemma errors_Is_delivery t p k v hs c e tg :
  errors_Is (Some (EDelivery t p k v hs c e)) tg = errors_Is e tg.
Proof. destruct e, tg as [[] ?| | | | | |]; done. Qed.

Lemma errors_Join_None es : errors_Join es = None ↔ Forall (λ e, e = None) es.
Proof.
  unfold errors_Join. induction es as [|[e|] es IH]; simpl.
  - by split; [constructor|].
  - split; [done|]. by inversion 1.
  - rewrite IH. split; [by constructor|by inversion 1].
Qed.
#[export] Hint Rewrite errors_Is_errorf errors_Is_kafka errors_Is_delivery errors_Is_nil : ek.
