(* ===== verification/GoTime.v ===== *)
(** * Go times and durations

    [time.Time] as an instant with a zone offset, [time.Duration] as an [int64]
    of nanoseconds, and the RFC 3339 text that [Time.Format] writes and
    [time.Parse] reads.  The calendar is the proleptic Gregorian one. *)
From S2P Require Import Prelude GoStrings.
From Stdlib Require Import Ascii Lia.

(** ** Durations *)
Definition Millisecond : Z := 1000000.
Definition Second : Z := 1000000000.
Definition maxDuration : Z := 2 ^ 63 - 1.
Definition minDuration : Z := - 2 ^ 63.

(** [time.Duration.Milliseconds]: nanoseconds, cut to whole milliseconds. *)
Definition Milliseconds (d : Z) : Z := Z.quot d Millisecond.

(** *** [time.Duration.String] *)

(** [fmtFrac]: the last [prec] digits of [u] after a dot, without trailing
    zeros, and without the dot when they are all zero. *)
Fixpoint fmtFrac (prec : nat) (u : Z) (print : bool) (acc : string) : string * Z :=
  match prec with
  | O => (if print then String "." acc else acc, u)
  | S prec =>
      let print := print || negb (u mod 10 =? 0) in
      fmtFrac prec (u / 10) print (if print then String (digit_char (Z.to_N (u mod 10))) acc else acc)
  end.
Definition Duration_String (d : Z) : string :=
  let u := Z.abs d in
  let text :=
    if u =? 0 then "0s"
    else if u <? Second then
      let '(prec, unit_) :=
        if u <? 1000 then (0%nat, "ns")
        else if u <? Millisecond then (3%nat, "µs")
        else (6%nat, "ms") in
      let '(frac, u) := fmtFrac prec u false unit_ in FormatInt u +:+ frac
    else
      let '(frac, u) := fmtFrac 9 u false "s" in
      let text := FormatInt (u mod 60) +:+ frac in
      if u / 60 =? 0 then text
      else
        let text := FormatInt (u / 60 mod 60) +:+ "m" +:+ text in
        if u / 60 / 60 =? 0 then text else FormatInt (u / 60 / 60) +:+ "h" +:+ text in
  if d <? 0 then "-" +:+ text else text.

(** ** Times

    [unix_ns]: nanoseconds since 1 January 1970 UTC; [zone]: seconds east of
    UTC.  The source never leaves the range of years a [Time] can hold. *)
Record Time := { unix_ns : Z; zone : Z }.

(** The zero [Time], 1 January of year 1, UTC. *)
Definition zero_Time : Time := {| unix_ns := - 62135596800 * Second; zone := 0 |}.
Definition IsZero (t : Time) : bool := unix_ns t =? unix_ns zero_Time.

(** [Time.Sub]: saturates at the ends of [time.Duration]. *)
Definition Sub (t u : Time) : Z :=
  Z.max minDuration (Z.min maxDuration (unix_ns t - unix_ns u)).
(** [Time.Add]. *)
Definition Add (t : Time) (d : Z) : Time := {| unix_ns := unix_ns t + d; zone := zone t |}.

(** ** The calendar *)
Definition isLeap (y : Z) : bool :=
  (y mod 4 =? 0) && (negb (y mod 100 =? 0) || (y mod 400 =? 0)).

(** Days of a common year before month [m] (1-based; 13 is the whole year). *)
Definition daysBefore (m : Z) : Z :=
  nth (Z.to_nat (m - 1)) [0; 31; 59; 90; 120; 151; 181; 212; 243; 273; 304; 334; 365] 0.
Definition daysIn (m y : Z) : Z :=
  if (m =? 2) && isLeap y then 29 else daysBefore (m + 1) - daysBefore m.

(** Days from 1 January of year 0 (or of the year 400 * k the cycle starts at)
    to 1 January of year [y] of the cycle. *)
Definition days_to_year (y : Z) : Z :=
  365 * y + (y + 3) / 4 - (y + 99) / 100 + (y + 399) / 400.
(** The day of the year, from 0. *)
Definition year_day (y m d : Z) : Z :=
  daysBefore m + (if (m >? 2) && isLeap y then 1 else 0) + (d - 1).
(** Days since 1 January of year 0. *)
Definition date_days (y m d : Z) : Z := days_to_year y + year_day y m d.
(** 1 January 1970, in days since 1 January of year 0. *)
Definition epoch_days : Z := 719528.

(** Month and day of a year day, as the [time] package computes them. *)
Definition month_day (leap : bool) (yday : Z) : Z * Z :=
  if leap && (yday =? 59) then (2, 29)
  else
    let day := if leap && (yday >? 59) then yday - 1 else yday in
    let m := day / 31 + 1 in
    if day >=? daysBefore (m + 1) then (m + 1, day - daysBefore (m + 1) + 1)
    else (m, day - daysBefore m + 1).

(** Year of the 400-year cycle, and day of that year, of a day of the cycle:
    centuries, 4-year cycles and years are cut off in turn.  The first century
    of a cycle opens with a leap year, the others do not. *)
Definition cycle_year (d : Z) : Z * Z :=
  let n100 := Z.max 0 (d - 1) / 36524 in
  let d := if n100 =? 0 then d else d - (36524 * n100 + 1) in
  let first_long := n100 =? 0 in
  let n4 := if first_long then d / 1461 else (d + 1) / 1461 in
  let d := if first_long then d - 1461 * n4
           else if n4 =? 0 then d else d - (1461 * n4 - 1) in
  let opens_leap := first_long || negb (n4 =? 0) in
  let n1 := if opens_leap then Z.max 0 (d - 1) / 365 else d / 365 in
  let d := if opens_leap then (if n1 =? 0 then d else d - (365 * n1 + 1)) else d - 365 * n1 in
  (100 * n100 + 4 * n4 + n1, d).

(** Year and day of the year of a day count. *)
Definition days_year (d : Z) : Z * Z :=
  let '(y, yday) := cycle_year (d mod 146097) in (400 * (d / 146097) + y, yday).
Definition days_date (d : Z) : Z * Z * Z :=
  let '(y, yday) := days_year d in
  let '(m, day) := month_day (isLeap y) yday in
  (y, m, day).

(** ** RFC 3339 *)

Definition utod (u : Z) : ascii := digit_char (Z.to_N u).
(** [appendInt]: decimal, padded with zeros on the left to [width] digits. *)
Definition appendInt (x : Z) (width : nat) : string :=
  let u := Z.abs x in
  let digits :=
    if (width =? 2)%nat && (u <? 100) then
      String (utod (u / 10)) (String (utod (u mod 10)) EmptyString)
    else if (width =? 4)%nat && (u <? 10000) then
      String (utod (u / 1000)) (String (utod (u / 100 mod 10))
        (String (utod (u / 10 mod 10)) (String (utod (u mod 10)) EmptyString)))
    else
      let d := format_uint (Z.to_N u) in
      String.string_of_list_ascii (replicate (width - String.length d) "0"%char) +:+ d in
  if x <? 0 then String "-" digits else digits.

(** [t.Format(time.RFC3339)]. *)
Definition Format_RFC3339 (t : Time) : string :=
  let local := unix_ns t / Second + zone t in
  let '(y, m, d) := days_date (local / 86400 + epoch_days) in
  let sec := local mod 86400 in
  let z := Z.quot (zone t) 60 in
  appendInt y 4 +:+ "-" +:+ appendInt m 2 +:+ "-" +:+ appendInt d 2 +:+ "T" +:+
  appendInt (sec / 3600) 2 +:+ ":" +:+ appendInt (sec / 60 mod 60) 2 +:+ ":" +:+
  appendInt (sec mod 60) 2 +:+
  (if zone t =? 0 then "Z"
   else (if z <? 0 then "-" else "+") +:+
        appendInt (Z.abs z / 60) 2 +:+ ":" +:+ appendInt (Z.abs z mod 60) 2).

(** [getnum]: two digits, or one when [fixed] is false. *)
Definition getnum (fixed : bool) (s : string) : option (Z * string) :=
  match s with
  | String a rest =>
      if is_digit a then
        match rest with
        | String b rest' =>
            if is_digit b then Some (10 * Z.of_N (digit_val a) + Z.of_N (digit_val b), rest')
            else if fixed then None else Some (Z.of_N (digit_val a), rest)
        | EmptyString => if fixed then None else Some (Z.of_N (digit_val a), rest)
        end
      else None
  | EmptyString => None
  end.
Definition in_range (lo hi n : Z) : option unit := if (lo <=? n) && (n <=? hi) then Some tt else None.
Definition expect (c : ascii) (s : string) : option string :=
  match s with
  | String c' s => if Ascii.eqb c c' then Some s else None
  | EmptyString => None
  end.
(** A four-digit year. *)
Definition getyear (s : string) : option (Z * string) :=
  '(h, s) ← getnum true s; '(l, s) ← getnum true s; Some (100 * h + l, s).

Fixpoint digits_prefix (s : string) : string * string :=
  match s with
  | String c r => if is_digit c then let '(d, r) := digits_prefix r in (String c d, r) else (EmptyString, s)
  | EmptyString => (EmptyString, s)
  end.
(** Fractional seconds the layout does not name: a comma or a period, then any
    number of digits, of which the first nine count. *)
Definition getfrac (s : string) : Z * string :=
  match s with
  | String c r =>
      let '(d, rest) := digits_prefix r in
      match d with
      | EmptyString => (0, s)
      | _ =>
          if bool_decide (c = "."%char ∨ c = ","%char) then
            let d := String.substring 0 9 d in
            (Z.of_N (default 0%N (parse_uint d)) * 10 ^ (9 - Z.of_nat (String.length d)), rest)
          else (0, s)
      end
  | EmptyString => (0, s)
  end.
(** The zone: [Z], or a sign, hours up to 24 and minutes up to 60. *)
Definition getzone (s : string) : option (Z * string) :=
  match s with
  | String "Z" r => Some (0, r)
  | String sign r =>
      '(hh, r) ← getnum true r; r ← expect ":" r; '(mm, r) ← getnum true r;
      in_range 0 24 hh ;; in_range 0 60 mm ;;
      if Ascii.eqb sign "+" then Some ((hh * 60 + mm) * 60, r)
      else if Ascii.eqb sign "-" then Some (- ((hh * 60 + mm) * 60), r)
      else None
  | EmptyString => None
  end.

(** [time.Parse(time.RFC3339, s)]: [None] is any parse error. *)
Definition Parse_RFC3339 (s : string) : option Time :=
  '(y, s) ← getyear s; s ← expect "-" s;
  '(m, s) ← getnum true s; in_range 1 12 m ;; s ← expect "-" s;
  '(d, s) ← getnum true s; s ← expect "T" s;
  '(hh, s) ← getnum false s; in_range 0 23 hh ;; s ← expect ":" s;
  '(mm, s) ← getnum true s; in_range 0 59 mm ;; s ← expect ":" s;
  '(ss, s) ← getnum true s; in_range 0 59 ss ;;
  let '(nsec, s) := getfrac s in
  '(z, s) ← getzone s;
  match s with
  | EmptyString =>
      in_range 1 (daysIn m y) d ;;
      let secs := (date_days y m d - epoch_days) * 86400 + hh * 3600 + mm * 60 + ss - z in
      Some {| unix_ns := secs * Second + nsec; zone := z |}
  | _ => None
  end.

(** ** The calendar is consistent *)

#[local] Ltac Zify.zify_post_hook ::= Z.to_euclidean_division_equations.

Lemma days_to_year_400 k r : days_to_year (400 * k + r) = 146097 * k + days_to_year r.
Proof.
  unfold days_to_year.
  replace (400 * k + r + 3) with (100 * k * 4 + (r + 3)) by lia.
  replace (400 * k + r + 99) with (4 * k * 100 + (r + 99)) by lia.
  replace (400 * k + r + 399) with (k * 400 + (r + 399)) by lia.
  rewrite !Z.div_add_l by lia. lia.
Qed.
Lemma isLeap_400 k r : isLeap (400 * k + r) = isLeap r.
Proof.
  unfold isLeap.
  replace ((400 * k + r) mod 4) with (r mod 4) by lia.
  replace ((400 * k + r) mod 100) with (r mod 100) by lia.
  by replace ((400 * k + r) mod 400) with (r mod 400) by lia.
Qed.
Definition year_len (y : Z) : Z := if isLeap y then 366 else 365.

Lemma isLeap_cases c q r : 0 ≤ c < 4 → 0 ≤ q < 25 → 0 ≤ r < 4 →
  isLeap (100 * c + 4 * q + r) = (r =? 0) && ((negb (q =? 0)) || (c =? 0)).
Proof.
  intros Hc Hq Hr. unfold isLeap.
  replace ((100 * c + 4 * q + r) mod 4) with r by lia.
  destruct (Z.eqb_spec r 0) as [->|]; [|done]. simpl.
  replace ((100 * c + 4 * q + 0) mod 100) with (4 * q) by (apply (Z.mod_unique_pos _ _ c); lia).
  replace ((100 * c + 4 * q + 0) mod 400) with (100 * c + 4 * q) by (rewrite Z.mod_small; lia).
  destruct (Z.eqb_spec (4 * q) 0), (Z.eqb_spec q 0), (Z.eqb_spec c 0), (Z.eqb_spec (100 * c + 4 * q) 0); simpl; try done; lia.
Qed.

Lemma cycle_year_spec d : 0 ≤ d < 146097 →
  let '(y, yd) := cycle_year d in
  0 ≤ y < 400 ∧ d = days_to_year y + yd ∧ 0 ≤ yd < year_len y.
Proof.
  intros Hd. unfold cycle_year.
  set (c := Z.max 0 (d - 1) / 36524).
  assert (0 ≤ c < 4) as Hc by (subst c; lia).
  set (d1 := if c =? 0 then d else d - (36524 * c + 1)).
  assert (0 ≤ d1 ≤ 36524 ∧ (c ≠ 0 → d1 < 36524) ∧ (c = 0 → d = d1) ∧ (c ≠ 0 → d = d1 + 36524 * c + 1)) as (H1 & H1' & H1a & H1b).
  { subst d1 c. destruct (Z.eqb_spec (Z.max 0 (d - 1) / 36524) 0); lia. }
  clearbody d1 c.
  set (q := if c =? 0 then d1 / 1461 else (d1 + 1) / 1461).
  assert (0 ≤ q < 25) as Hq by (subst q; destruct (Z.eqb_spec c 0); lia).
  set (d2 := if c =? 0 then d1 - 1461 * q else if q =? 0 then d1 else d1 - (1461 * q - 1)).
  set (ol := (c =? 0) || negb (q =? 0)).
  assert (0 ≤ d2 < (if ol then 1461 else 1460) ∧ d = 36524 * c + (if c =? 0 then 0 else 1) + 1461 * q - (if (c =? 0) || (q =? 0) then 0 else 1) + d2) as (H2 & H2a).
  { subst d2 ol q. destruct (Z.eqb_spec c 0); simpl; [lia|].
    destruct (Z.eqb_spec ((d1 + 1) / 1461) 0); simpl; lia. }
  clearbody d2 q.
  set (r := if ol then Z.max 0 (d2 - 1) / 365 else d2 / 365).
  assert (0 ≤ r < 4) as Hr by (subst r; destruct ol; lia).
  set (d3 := if ol then if r =? 0 then d2 else d2 - (365 * r + 1) else d2 - 365 * r).
  assert (d2 = d3 + 365 * r + (if ol && negb (r =? 0) then 1 else 0) ∧ 0 ≤ d3 < (if ol && (r =? 0) then 366 else 365)) as [H3 H3'].
  { subst d3 r. destruct ol; simpl.
    - destruct (Z.eqb_spec (Z.max 0 (d2 - 1) / 365) 0); simpl; lia.
    - lia. }
  clearbody d3 r. split; [lia|]. unfold year_len. rewrite isLeap_cases by done.
  replace ((r =? 0) && (negb (q =? 0) || (c =? 0))) with (ol && (r =? 0)) by (subst ol; destruct (c =? 0), (q =? 0), (r =? 0); done).
  split; [|done]. rewrite H2a, H3. unfold days_to_year. subst ol. clear -Hc Hq Hr.
  destruct (Z.eqb_spec c 0), (Z.eqb_spec q 0), (Z.eqb_spec r 0); simpl; lia.
Qed.

Lemma days_year_spec d :
  let '(y, yd) := days_year d in
  d = days_to_year y + yd ∧ 0 ≤ yd < year_len y.
Proof.
  unfold days_year. pose proof (cycle_year_spec (d mod 146097) ltac:(lia)) as H.
  destruct (cycle_year (d mod 146097)) as [y yd]. destruct H as (_ & H & H').
  rewrite days_to_year_400. unfold year_len in *. rewrite isLeap_400. split; [lia|done].
Qed.

Definition month_day_ok (leap : bool) (yd : Z) : bool :=
  let '(m, d) := month_day leap yd in
  (1 <=? m) && (m <=? 12) && (1 <=? d) &&
  (d <=? (if (m =? 2) && leap then 29 else daysBefore (m + 1) - daysBefore m)) &&
  (daysBefore m + (if (m >? 2) && leap then 1 else 0) + (d - 1) =? yd).
Lemma month_day_check :
  forallb (month_day_ok true) (seqZ 0 366) && forallb (month_day_ok false) (seqZ 0 365) = true.
Proof. vm_compute. reflexivity. Qed.
Lemma month_day_spec (leap : bool) (yd : Z) :
  0 ≤ yd < (if leap then 366 else 365) → month_day_ok leap yd = true.
Proof.
  intros H. pose proof month_day_check as [Ht Hf]%andb_true_iff.
  rewrite forallb_forall in Ht, Hf.
  destruct leap; [apply Ht|apply Hf]; apply list_elem_of_In, elem_of_seqZ; lia.
Qed.

(** [days_date] inverts [date_days], and returns a valid month and day. *)
Lemma days_date_spec d :
  let '(y, m, day) := days_date d in
  date_days y m day = d ∧ 1 ≤ m ≤ 12 ∧ 1 ≤ day ≤ daysIn m y.
Proof.
  unfold days_date. pose proof (days_year_spec d) as H.
  destruct (days_year d) as [y yd]. destruct H as [-> H].
  pose proof (month_day_spec (isLeap y) yd) as Hm. unfold month_day_ok in Hm.
  destruct (month_day (isLeap y) yd) as [m day].
  specialize (Hm H). rewrite !andb_true_iff, !Z.leb_le, Z.eqb_eq in Hm.
  destruct Hm as [[[[? ?] ?] ?] Hyd]. unfold date_days, year_day, daysIn.
  split; [by rewrite Hyd|done].
Qed.

(** ** Parsing what was formatted *)

Lemma app_cons c s t : String c s +:+ t = String c (s +:+ t).
Proof. done. Qed.
Lemma app_nil s : EmptyString +:+ s = s.
Proof. done. Qed.
Lemma app_assoc_str s t u : (s +:+ t) +:+ u = s +:+ (t +:+ u).
Proof. induction s; rewrite ?app_nil, ?app_cons; by rewrite ?IHs. Qed.

Lemma utod_digit u : 0 ≤ u < 10 → is_digit (utod u) = true ∧ Z.of_N (digit_val (utod u)) = u.
Proof. intros. unfold utod. rewrite is_digit_char, digit_val_char by lia. split; [done|lia]. Qed.

Lemma getnum_digits b u v s : 0 ≤ u < 10 → 0 ≤ v < 10 →
  getnum b (String (utod u) (String (utod v) s)) = Some (10 * u + v, s).
Proof.
  intros Hu Hv. destruct (utod_digit u Hu) as [Du Vu], (utod_digit v Hv) as [Dv Vv].
  simpl. by rewrite Du, Dv, Vu, Vv.
Qed.
Lemma getnum_appendInt b n s : 0 ≤ n < 100 → getnum b (appendInt n 2 +:+ s) = Some (n, s).
Proof.
  intros H. unfold appendInt. rewrite Z.abs_eq by lia.
  destruct (Z.ltb_spec n 100); [|lia]. destruct (Z.ltb_spec n 0); [lia|]. cbn [Nat.eqb andb].
  rewrite !app_cons, app_nil, getnum_digits by lia. do 2 f_equal. lia.
Qed.
Lemma getyear_appendInt y s : 0 ≤ y < 10000 → getyear (appendInt y 4 +:+ s) = Some (y, s).
Proof.
  intros H. unfold appendInt. rewrite Z.abs_eq by lia.
  destruct (Z.ltb_spec y 10000); [|lia]. destruct (Z.ltb_spec y 0); [lia|]. cbn [Nat.eqb andb].
  rewrite !app_cons, app_nil. unfold getyear. rewrite getnum_digits by lia. cbn [mbind option_bind].
  rewrite getnum_digits by lia. cbn [mbind option_bind]. do 2 f_equal. lia.
Qed.
Lemma expect_cons c s : expect c (String c s) = Some s.
Proof. simpl. by rewrite Ascii.eqb_refl. Qed.
Lemma in_range_true lo hi n : lo ≤ n ≤ hi → in_range lo hi n = Some tt.
Proof. intros. unfold in_range. by rewrite (proj2 (Z.leb_le _ _)), (proj2 (Z.leb_le _ _)) by lia. Qed.

(** The zone part of the text. *)
Definition format_zone (zone : Z) : string :=
  let z := Z.quot zone 60 in
  if zone =? 0 then "Z"
  else (if z <? 0 then "-" else "+") +:+
       appendInt (Z.abs z / 60) 2 +:+ ":" +:+ appendInt (Z.abs z mod 60) 2.

(** A zone RFC 3339 can express: whole minutes, less than a day. *)
Definition zone_ok (zone : Z) : Prop := zone mod 60 = 0 ∧ -86400 < zone < 86400.

Lemma getfrac_zone z : getfrac (format_zone z) = (0, format_zone z).
Proof.
  unfold format_zone. destruct (z =? 0); [done|].
  assert (∀ c s, c ≠ "."%char → c ≠ ","%char → getfrac (String c s) = (0, String c s)) as Hf.
  { intros c s H1 H2. simpl. destruct (digits_prefix s) as [[] ?]; [done|].
    rewrite bool_decide_eq_false_2 by tauto. done. }
  destruct (_ <? 0); rewrite app_cons; by apply Hf.
Qed.
Lemma getzone_format z : zone_ok z → getzone (format_zone z) = Some (z, EmptyString).
Proof.
  intros [Hm Hz]. unfold format_zone. destruct (Z.eqb_spec z 0) as [->|Hnz]; [done|].
  set (q := Z.quot z 60). assert (z = 60 * q) as Hq by (subst q; lia). clearbody q.
  assert (getnum true (appendInt (Z.abs q mod 60) 2) = Some (Z.abs q mod 60, EmptyString)) as Hmm.
  { rewrite <-(getnum_appendInt true (Z.abs q mod 60) EmptyString) by lia.
    f_equal. induction (appendInt _ 2) as [|? ? IH]; [done|]. rewrite app_cons. by f_equal. }
  destruct (Z.ltb_spec q 0); rewrite app_cons, app_nil; unfold getzone;
    rewrite getnum_appendInt by lia; cbn [mbind option_bind]; rewrite app_cons, expect_cons;
    cbn [mbind option_bind]; rewrite app_nil, Hmm; cbn [mbind option_bind];
    rewrite !in_range_true by lia; cbn [mbind option_bind]; simpl;
    do 2 f_equal; lia.
Qed.

(** The local year of [t]. *)
Definition local_days (t : Time) : Z := (unix_ns t / Second + zone t) / 86400 + epoch_days.
Definition Year (t : Time) : Z := (days_date (local_days t)).1.1.

(** [Parse] reads [Format]'s text back as the same instant, cut to the second. *)
Lemma Parse_Format t : 0 ≤ Year t < 10000 → zone_ok (zone t) →
  Parse_RFC3339 (Format_RFC3339 t) =
    Some {| unix_ns := unix_ns t / Second * Second; zone := zone t |}.
Proof.
  unfold Year, Format_RFC3339. fold (local_days t). set (local := unix_ns t / Second + zone t).
  assert (local_days t = local / 86400 + epoch_days) as Hl by done.
  pose proof (days_date_spec (local_days t)) as Hd.
  destruct (days_date (local_days t)) as [[y m] d]. destruct Hd as (Hd & Hm & Hday).
  simpl. intros Hy Hz. fold (format_zone (zone t)).
  assert (1 ≤ d ≤ 31) as Hd31.
  { unfold daysIn in Hday. destruct ((m =? 2) && isLeap y); [lia|].
    assert (m ∈ seqZ 1 12) as Hin by (apply elem_of_seqZ; lia).
    cut (daysBefore (m + 1) - daysBefore m ≤ 31); [lia|].
    revert Hin. clear. intros Hin. rewrite list_elem_of_In in Hin. simpl in Hin.
    repeat (destruct Hin as [<-|Hin]; [by vm_compute|]). done. }
  assert (0 ≤ local mod 86400 < 86400) as Hs by lia.
  unfold Parse_RFC3339.
  repeat first
    [ rewrite getyear_appendInt by lia | rewrite getnum_appendInt by lia
    | rewrite app_cons, expect_cons, app_nil | rewrite in_range_true by lia
    | progress cbn [mbind option_bind] ].
  rewrite getfrac_zone, getzone_format by done. cbn [mbind option_bind].
  do 2 f_equal.
  rewrite Hd, Hl. subst local. unfold Second. lia.
Qed.
