(* ===== verification/LogCode.v ===== *)
(** * Log codes (internal/logcode/logcode.go)

    The stable codes of the library's notable log lines, and the log line a
    component emits: its level and its code, if it carries one. *)
From S2P Require Import Prelude.

(** The log field that carries the code. *)
Definition Field : string := "ek_code".

Inductive logcode : Type :=
  (* messages lost or written off *)
  | RetryWriteFailed | DLQWriteFailed | DLQMaxAttempts | DLQPermanent | MessageSkipped
  (* the consumer stops *)
  | PollFatal | StoppedByStrategy | OffsetStoreFailed
  (* bugs in application code *)
  | HandlerPanic | FailureWithoutError
  (* commits that failed *)
  | CommitFailed
  (* broker and rebalance trouble *)
  | BrokerDisconnected | BrokerReconnected | KafkaErrorCode | RebalanceFailed | ConsumerCloseFailed
  (* the publish package *)
  | PublishDeliveryFailed | PublishCallbackPanic | PublishUnmatchedReport
  | PublishBrokerDown | PublishBrokerRestored | PublishKafkaError | PublishFatal
  | PublishRecordsPurged.

#[export] Instance logcode_eq_dec : EqDecision logcode.
Proof. solve_decision. Defined.

(** The value of each code. *)
Definition logcode_text (c : logcode) : string :=
  match c with
  | RetryWriteFailed => "EK_RETRY_WRITE_FAILED"
  | DLQWriteFailed => "EK_DLQ_WRITE_FAILED"
  | DLQMaxAttempts => "EK_DLQ_MAX_ATTEMPTS"
  | DLQPermanent => "EK_DLQ_PERMANENT"
  | MessageSkipped => "EK_MESSAGE_SKIPPED"
  | PollFatal => "EK_POLL_FATAL"
  | StoppedByStrategy => "EK_STOPPED_BY_STRATEGY"
  | OffsetStoreFailed => "EK_OFFSET_STORE_FAILED"
  | HandlerPanic => "EK_HANDLER_PANIC"
  | FailureWithoutError => "EK_FAILURE_WITHOUT_ERROR"
  | CommitFailed => "EK_COMMIT_FAILED"
  | BrokerDisconnected => "EK_BROKER_DISCONNECTED"
  | BrokerReconnected => "EK_BROKER_RECONNECTED"
  | KafkaErrorCode => "EK_KAFKA_ERROR"
  | RebalanceFailed => "EK_REBALANCE_FAILED"
  | ConsumerCloseFailed => "EK_CONSUMER_CLOSE_FAILED"
  | PublishDeliveryFailed => "EK_PUBLISH_DELIVERY_FAILED"
  | PublishCallbackPanic => "EK_PUBLISH_CALLBACK_PANIC"
  | PublishUnmatchedReport => "EK_PUBLISH_UNMATCHED_REPORT"
  | PublishBrokerDown => "EK_PUBLISH_BROKER_DOWN"
  | PublishBrokerRestored => "EK_PUBLISH_BROKER_RESTORED"
  | PublishKafkaError => "EK_PUBLISH_KAFKA_ERROR"
  | PublishFatal => "EK_PUBLISH_FATAL"
  | PublishRecordsPurged => "EK_PUBLISH_RECORDS_PURGED"
  end.

Inductive level : Type := Debug_ | Info_ | Warn_ | Error_.

(** One log line: its level, and the value of the [ek_code] field if set. *)
Record log_line : Type := LogLine { log_level : level; log_code : option logcode }.
