(* ===== verification/GoAny.v ===== *)
(** * Values of type [any] in a configuration map

    A [map[string]any] holds integers of any Go width, [float64]s (as JSON
    decoding produces), strings and bools.  A [float64] is IEEE 754 binary64,
    [SpecFloat.spec_float] in the standard library. *)
From S2P Require Import Prelude.
From Corelib Require Import SpecFloat.

Inductive intkind : Type :=
  KInt | KInt8 | KInt16 | KInt32 | KInt64 | KUint | KUint8 | KUint16 | KUint32 | KUint64.

Inductive goany : Type :=
  | AInt (k : intkind) (z : Z)
  | AFloat64 (f : spec_float)
  | AString (s : string)
  | ABool (b : bool)
  (** any other dynamic type, by name *)
  | AOther (typ : string).

Abbreviation configmap := (gmap string goany).
Abbreviation AnInt := (AInt KInt).

(** ** binary64 *)

Definition prec64 : Z := 53.
Definition emax64 : Z := 1024.

(** [float64(z)] for an integer [z]: rounded to nearest, ties to even. *)
Definition float_of_Z (z : Z) : spec_float := binary_normalize prec64 emax64 z 0 false.
Definition float_mul : spec_float → spec_float → spec_float := SFmul prec64 emax64.
Definition float_add : spec_float → spec_float → spec_float := SFadd prec64 emax64.
Definition float_ltb : spec_float → spec_float → bool := SFltb.
(** [x >= y]: false when either is NaN. *)
Definition float_geb (x y : spec_float) : bool := SFleb y x.
Definition float_eqb : spec_float → spec_float → bool := SFeqb.

(** The integer part of a finite float, truncated towards zero. *)
Definition float_trunc (f : spec_float) : option Z :=
  match f with
  | S754_zero _ => Some 0
  | S754_finite s m e =>
      let a := if 0 <=? e then Z.pos m * 2 ^ e else Z.pos m / 2 ^ (- e) in
      Some (if s then - a else a)
  | S754_infinity _ | S754_nan => None
  end.
(** Whether a float is a whole number, [math.Trunc(f) == f]: infinities are. *)
Definition float_whole (f : spec_float) : bool :=
  match f with
  | S754_zero _ | S754_infinity _ => true
  | S754_finite _ m e => (0 <=? e) || (Z.pos m mod 2 ^ (- e) =? 0)
  | S754_nan => false
  end.

(** [int64(f)] for a float the type cannot hold is left to the implementation
    by the Go specification: it is a parameter. *)
Class FloatOverflow := float_overflow : spec_float → Z.
Definition float_to_int64 `{FloatOverflow} (f : spec_float) : Z :=
  match float_trunc f with
  | Some z => if in_int64 z then z else float_overflow f
  | None => float_overflow f
  end.
(** What amd64 does. *)
Definition float_overflow_amd64 : FloatOverflow := λ _, - 2 ^ 63.
