(* ===== verification/Types.v ===== *)
(** * Messages, failures and batches (internal/subscribe/types/types.go)

    The values that pass between the subscriber, the handlers and the error
    strategies.  A [*Message] of the source is a [Message] here, except where it
    may be nil.  A nil map is [None]. *)
From S2P Require Import Prelude GoErrors GoTime GoAny.

(** ** Sentinels *)
Definition ErrPermanent : goerr := ENew "types.ErrPermanent" "permanent failure".
Definition ErrUnspecified : goerr :=
  ENew "types.ErrUnspecified" "handler failed the message without an error".

(** ** Data *)

(** The public metadata representation of a record. *)
Record Message : Type := {
  msg_Topic : string;
  msg_Partition : Z;
  msg_Offset : Z;
  msg_Timestamp : Time;
  msg_Key : bytes;
  msg_Headers : option (gmap string string);
  msg_Payload : bytes;
}.

(** How a handler reports that a message failed. *)
Record Failure : Type := {
  f_Err : option goerr;
  f_Step : Z;
  f_Code : string;
}.

(** One message of a batch and its verdict. *)
Record BatchItem : Type := {
  item_msg : Message;
  item_failure : option Failure;  (* nil until the handler fails this item *)
}.

(** A batch: the backing array, and the pointers into it that [Items] hands
    out.  A pointer is the index of the cell it points to. *)
Record Batch : Type := {
  backing : list BatchItem;
  items : list nat;
}.

(** The position of a record in Kafka. *)
Definition position : Type := string * Z * Z.
Definition pos (m : Message) : position := (msg_Topic m, msg_Partition m, msg_Offset m).

(** ** Operations *)

(** The construction loop: cell [i] receives message [i], pointer [i] is the
    address of cell [i]. *)
Fixpoint fill_batch (i : nat) (msgs : list Message) (b : Batch) : Batch :=
  match msgs with
  | [] => b
  | m :: msgs =>
      fill_batch (S i) msgs
        {| backing := <[i := {| item_msg := m; item_failure := None |}]> (backing b);
           items := <[i := i]> (items b) |}
  end.
Definition zero_Message : Message :=
  {| msg_Topic := EmptyString; msg_Partition := 0; msg_Offset := 0; msg_Timestamp := zero_Time;
     msg_Key := None; msg_Headers := None; msg_Payload := None |}.
Definition zero_item : BatchItem := {| item_msg := zero_Message; item_failure := None |}.
Definition NewBatch (msgs : list Message) : Batch :=
  fill_batch 0 msgs
    {| backing := replicate (length msgs) zero_item; items := replicate (length msgs) 0%nat |}.
(** The subscriber's constructor: the same, over the buffered messages. *)
Definition NewBatchFromBuffer (msgs : list Message) : Batch := NewBatch msgs.

Definition Len (b : Batch) : nat := length (items b).
(** [batch.Items()], each pointer dereferenced. *)
Definition Items (b : Batch) : list BatchItem :=
  omap (λ p, backing b !! p) (items b).
(** [item.Message()], [item.Failed()]. *)
Definition item_Message (it : BatchItem) : Message := item_msg it.
Definition item_Failed (it : BatchItem) : option Failure := item_failure it.
(** [b.Items()[i].Fail(f)]: a write through the [i]-th pointer. *)
Definition Fail (i : nat) (f : Failure) (b : Batch) : Batch :=
  match items b !! i with
  | Some p =>
      {| backing := alter (λ it, {| item_msg := item_msg it; item_failure := Some f |}) p (backing b);
         items := items b |}
  | None => b
  end.

(** ** Handlers

    What a call to user code does: it returns a [*Failure] or panics with a
    value, whose text is all that is used of it.  The key, payload and headers
    of the message it is given are shared with the subscriber; what it leaves
    in them is part of the outcome.  A slice keeps its length, a nil one stays
    nil, and a nil map cannot be written. *)
Inductive outcome : Type :=
  | Returned (f : option Failure)
  | Panicked (text : string).

Record shared_writes : Type := {
  w_Key : string; w_Payload : string; w_Headers : gmap string string;
}.
Definition write_slice (old : bytes) (new : string) : bytes :=
  match old with
  | Some s => if (String.length s =? String.length new)%nat then Some new else Some s
  | None => None
  end.
Definition apply_writes (w : shared_writes) (m : Message) : Message :=
  {| msg_Topic := msg_Topic m; msg_Partition := msg_Partition m; msg_Offset := msg_Offset m;
     msg_Timestamp := msg_Timestamp m;
     msg_Key := write_slice (msg_Key m) (w_Key w);
     msg_Headers := (λ _, w_Headers w) <$> msg_Headers m;
     msg_Payload := write_slice (msg_Payload m) (w_Payload w) |}.

(** One call of a [Handler]. *)
Record handler_call : Type := {
  hc_outcome : outcome;
  hc_writes : option shared_writes;
}.
(** One call of a [BatchHandler]: the [item.Fail] calls it made, in order, the
    writes into shared data, by item, and how it ended. *)
Record batch_call : Type := {
  bc_fails : list (nat * Failure);
  bc_writes : list (nat * shared_writes);
  bc_outcome : outcome;
}.

Definition write_msg (w : option shared_writes) (m : Message) : Message :=
  match w with Some w => apply_writes w m | None => m end.
Definition write_msgs (ws : list (nat * shared_writes)) (msgs : list Message) : list Message :=
  foldl (λ l '(i, w), alter (apply_writes w) i l) msgs ws.
(** The batch after the handler's writes and its [Fail] calls. *)
Definition write_batch (ws : list (nat * shared_writes)) (b : Batch) : Batch :=
  {| backing := foldl (λ l '(i, w),
                  alter (λ it, {| item_msg := apply_writes w (item_msg it);
                                  item_failure := item_failure it |}) i l) (backing b) ws;
     items := items b |}.
Definition fail_all (fs : list (nat * Failure)) (b : Batch) : Batch :=
  foldl (λ b '(i, f), Fail i f b) b fs.

(** ** Error strategies *)

(** Which [zerolog.Logger] it is; [zerolog.Nop()] is the first. *)
Definition Logger : Type := nat.
Definition Nop : Logger := 0%nat.

(** What a strategy is told when the subscriber starts.  The handler is left out: no
    strategy of the library calls it. *)
Record InitConfig : Type := {
  ic_Brokers : list string;
  ic_ConsumerGroup : string;
  ic_KafkaConfig : configmap;
  ic_Logger : Logger;
}.

(** ** Lemmas *)

Definition fresh_item (m : Message) : BatchItem := {| item_msg := m; item_failure := None |}.

(** Pointer [i] of a batch points to cell [i]. *)
Definition batch_ok (b : Batch) : Prop := items b = seq 0 (length (backing b)).

Lemma fill_batch_spec msgs : ∀ i b,
  length (backing b) = (i + length msgs)%nat → length (items b) = (i + length msgs)%nat →
  fill_batch i msgs b =
    {| backing := take i (backing b) ++ map fresh_item msgs;
       items := take i (items b) ++ seq i (length msgs) |}.
Proof.
  induction msgs as [|m msgs IH]; intros i b Hb Hi; simpl.
  - simpl in *. rewrite !app_nil_r, !take_ge by lia. by destruct b.
  - simpl in *. rewrite IH by (simpl; rewrite length_insert; lia). simpl.
    rewrite !take_S_insert by lia. by rewrite <-!app_assoc.
Qed.
Lemma NewBatch_spec msgs :
  NewBatch msgs = {| backing := map fresh_item msgs; items := seq 0 (length msgs) |}.
Proof. unfold NewBatch. by rewrite fill_batch_spec by (simpl; by rewrite length_replicate). Qed.
Lemma NewBatch_ok msgs : batch_ok (NewBatch msgs).
Proof. rewrite NewBatch_spec. unfold batch_ok. simpl. by rewrite length_map. Qed.

Lemma Items_ok b : batch_ok b → Items b = backing b.
Proof.
  unfold batch_ok, Items. intros ->. induction (backing b) as [|it l IH] using rev_ind; [done|].
  rewrite length_app, seq_app, omap_app. simpl. f_equal.
  - rewrite <-IH at 2. apply list_omap_ext, Forall2_same_length_lookup. split; [done|].
    intros i x y Hx Hy. simplify_eq. apply lookup_seq in Hx as [-> ?].
    by rewrite lookup_app_l.
  - by rewrite lookup_app_r, Nat.sub_diag by lia.
Qed.

Lemma Fail_ok i f b : batch_ok b → batch_ok (Fail i f b).
Proof.
  unfold batch_ok, Fail. intros E. destruct (items b !! i); simpl; [|done].
  by rewrite length_alter.
Qed.
Lemma Fail_backing i f b : batch_ok b →
  backing (Fail i f b) = alter (λ it, {| item_msg := item_msg it; item_failure := Some f |}) i (backing b).
Proof.
  unfold batch_ok, Fail. intros ->. destruct (decide (i < length (backing b))%nat).
  - rewrite (proj2 (lookup_seq _ _ _ _)) by (split; [reflexivity|lia]). done.
  - rewrite lookup_seq_ge by lia. simpl.
    apply list_eq. intros j. destruct (decide (i = j)) as [->|].
    + rewrite list_lookup_alter_eq. by rewrite lookup_ge_None_2 by lia.
    + by rewrite list_lookup_alter_ne.
Qed.

(** The verdict a sequence of [Fail] calls leaves on item [i]: the last one. *)
Definition verdict (i : nat) (fs : list (nat * Failure)) (v : option Failure) : option Failure :=
  foldl (λ v '(j, f), if (j =? i)%nat then Some f else v) v fs.

Lemma fail_all_ok fs : ∀ b, batch_ok b → batch_ok (fail_all fs b).
Proof. induction fs as [|[i f] fs IH]; intros b Hb; simpl; [done|]. by apply IH, Fail_ok. Qed.
Lemma fail_all_lookup fs : ∀ b i, batch_ok b →
  backing (fail_all fs b) !! i =
    (λ it, {| item_msg := item_msg it; item_failure := verdict i fs (item_failure it) |}) <$>
      backing b !! i.
Proof.
  induction fs as [|[j f] fs IH]; intros b i Hb.
  - simpl. by destruct (backing b !! i) as [[]|].
  - cbn [fail_all verdict foldl]. fold (fail_all fs (Fail j f b)).
    rewrite IH by (by apply Fail_ok). rewrite Fail_backing by done.
    destruct (Nat.eqb_spec j i) as [->|].
    + rewrite list_lookup_alter_eq. by destruct (backing b !! i).
    + by rewrite list_lookup_alter_ne.
Qed.

Lemma write_batch_ok ws b : batch_ok b → batch_ok (write_batch ws b).
Proof.
  unfold batch_ok, write_batch. simpl. intros ->. f_equal.
  generalize (backing b). induction ws as [|[i w] ws IH]; intros l; simpl; [done|].
  by rewrite <-IH, length_alter.
Qed.
(** A handler's writes reach neither a position nor a verdict. *)
Lemma write_batch_same ws : ∀ b i,
  (λ it, (pos (item_msg it), item_failure it)) <$> backing (write_batch ws b) !! i =
  (λ it, (pos (item_msg it), item_failure it)) <$> backing b !! i.
Proof.
  intros b i. unfold write_batch. simpl. generalize (backing b).
  induction ws as [|[j w] ws IH]; intros l; simpl; [done|]. rewrite IH.
  destruct (decide (j = i)) as [->|].
  - rewrite list_lookup_alter_eq. by destruct (l !! i).
  - by rewrite list_lookup_alter_ne.
Qed.
Lemma write_msgs_pos ws : ∀ msgs, pos <$> write_msgs ws msgs = pos <$> msgs.
Proof.
  unfold write_msgs. induction ws as [|[j w] ws IH]; intros l; simpl; [done|]. rewrite IH.
  apply list_eq. intros i. rewrite !list_lookup_fmap. destruct (decide (j = i)) as [->|].
  - rewrite list_lookup_alter_eq. by destruct (l !! i).
  - by rewrite list_lookup_alter_ne.
Qed.
Lemma write_msg_pos w m : pos (write_msg w m) = pos m.
Proof. by destruct w. Qed.

(** The items of a batch after the handler. *)
Definition handled_items (msgs : list Message) (fs : list (nat * Failure))
    (ws : list (nat * shared_writes)) : list BatchItem :=
  Items (fail_all fs (write_batch ws (NewBatchFromBuffer msgs))).

Lemma handled_items_lookup msgs fs ws i :
  (λ it, (pos (item_Message it), item_Failed it)) <$> handled_items msgs fs ws !! i =
    (λ m, (pos m, verdict i fs None)) <$> msgs !! i.
Proof.
  unfold handled_items, NewBatchFromBuffer.
  assert (batch_ok (write_batch ws (NewBatch msgs))) as Hok by apply write_batch_ok, NewBatch_ok.
  rewrite Items_ok, fail_all_lookup by (by try apply fail_all_ok).
  pose proof (write_batch_same ws (NewBatch msgs) i) as Hw.
  assert (backing (NewBatch msgs) = fresh_item <$> msgs) as Hn by (by rewrite NewBatch_spec).
  rewrite Hn, list_lookup_fmap in Hw.
  destruct (backing (write_batch ws (NewBatch msgs)) !! i), (msgs !! i); simplify_eq/=; unfold pos; congruence.
Qed.
Lemma handled_items_length msgs fs ws : length (handled_items msgs fs ws) = length msgs.
Proof.
  apply (same_lookup_length _ (λ i m, (pos m, verdict i fs None)) _ _ (handled_items_lookup msgs fs ws)).
Qed.

(** The messages after the writes. *)
Lemma handled_items_msgs msgs fs ws i :
  handled_items msgs fs ws !! i =
    (λ m, {| item_msg := m; item_failure := verdict i fs None |}) <$> write_msgs ws msgs !! i.
Proof.
  unfold handled_items, NewBatchFromBuffer.
  assert (batch_ok (write_batch ws (NewBatch msgs))) as Hok by apply write_batch_ok, NewBatch_ok.
  rewrite Items_ok, fail_all_lookup by (by try apply fail_all_ok).
  assert (backing (write_batch ws (NewBatch msgs)) = fresh_item <$> write_msgs ws msgs) as ->.
  { unfold write_batch, write_msgs. cbn [backing]. rewrite NewBatch_spec. cbn [backing].
    change (map fresh_item msgs) with (fresh_item <$> msgs). revert msgs Hok.
    induction ws as [|[j w] ws IH]; intros msgs _; cbn [foldl]; [done|].
    rewrite <-IH by apply write_batch_ok, NewBatch_ok. f_equal. symmetry. apply list_fmap_alter. by apply Forall_true. }
  rewrite list_lookup_fmap. by destruct (write_msgs ws msgs !! i).
Qed.
Lemma write_msgs_kept ws msgs i :
  (λ m, (pos m, msg_Timestamp m)) <$> write_msgs ws msgs !! i = (λ m, (pos m, msg_Timestamp m)) <$> msgs !! i.
Proof.
  revert msgs. unfold write_msgs. induction ws as [|[j w] ws IH]; intros l; simpl; [done|]. rewrite IH.
  destruct (decide (j = i)) as [->|].
  - rewrite list_lookup_alter_eq. by destruct (l !! i).
  - by rewrite list_lookup_alter_ne.
Qed.
Lemma write_msgs_other ws msgs i : i ∉ ws.*1 → write_msgs ws msgs !! i = msgs !! i.
Proof.
  revert msgs. unfold write_msgs. induction ws as [|[j w] ws IH]; intros l Hi; simpl; [done|].
  cbn in Hi. apply not_elem_of_cons in Hi as [Hne Hi]. rewrite IH by done. by rewrite list_lookup_alter_ne.
Qed.

(** ** Properties *)

(** C38 (batch verdicts) The batch read back from a handler has one item per message in
    the original order.  An item's verdict is the last failure recorded for it, or none:
    neither the order of the calls on other items nor an item failed twice changes it.
    Its message is what the handler's writes into key, payload and headers left of the
    one it was made with: the same position and timestamp always, and the same message
    if none of the writes was into that item.  (A handler that replaces or reorders the
    pointers of the slice [Items] returns is not modelled.) *)
Theorem batch_verdicts msgs fs ws i :
  let its := Items (fail_all fs (write_batch ws (NewBatchFromBuffer msgs))) in
  length its = length msgs ∧
  its !! i = (λ m, {| item_msg := m; item_failure := verdict i fs None |}) <$> write_msgs ws msgs !! i ∧
  (λ it, (pos (item_Message it), msg_Timestamp (item_Message it))) <$> its !! i =
    (λ m, (pos m, msg_Timestamp m)) <$> msgs !! i ∧
  (i ∉ ws.*1 → item_Message <$> its !! i = msgs !! i).
Proof.
  cbn zeta. change (Items _) with (handled_items msgs fs ws). rewrite handled_items_msgs.
  split_and!; [apply handled_items_length|done| |].
  - rewrite <-(write_msgs_kept ws msgs i). by destruct (write_msgs ws msgs !! i).
  - intros Hi. rewrite <-(write_msgs_other ws msgs i Hi). by destruct (write_msgs ws msgs !! i).
Qed.

(** ** Witness: an item failed twice, another one written to, a third left alone *)
Module Ex_batch.
Definition message (offset : Z) : Message :=
  {| msg_Topic := "orders"; msg_Partition := 0; msg_Offset := offset; msg_Timestamp := zero_Time;
     msg_Key := Some "k"; msg_Headers := None; msg_Payload := Some "order" |}.
Definition failure (code : string) : Failure := {| f_Err := None; f_Step := 0; f_Code := code |}.
Definition fails : list (nat * Failure) := [(0%nat, failure "a"); (0%nat, failure "b")].
Definition writes : list (nat * shared_writes) :=
  [(1%nat, {| w_Key := "K"; w_Payload := "ORDER"; w_Headers := ∅ |})].
Lemma batch_verdicts_witness :
  let its := Items (fail_all fails (write_batch writes (NewBatchFromBuffer [message 4; message 5; message 6]))) in
  length its = 3%nat ∧
  its !! 0%nat = Some {| item_msg := message 4; item_failure := Some (failure "b") |} ∧
  item_Message <$> its !! 2%nat = Some (message 6).
Proof.
  destruct (batch_verdicts [message 4; message 5; message 6] fails writes 0) as (Hl & H0 & _ & _).
  destruct (batch_verdicts [message 4; message 5; message 6] fails writes 2) as (_ & _ & _ & H2).
  split; [exact Hl|]. split; [exact H0|]. apply H2. intros [=]%list_elem_of_singleton.
Defined.
End Ex_batch.

