(* ===== verification/Buffer.v ===== *)
(** * The batch buffer (internal/subscribe/batch/batch.go)

    Messages polled in batch mode, until the batch is full or its timeout has
    passed since the first one.  The clock is an argument: [now] is what
    [time.Now] returns at the call. *)
From S2P Require Import Prelude GoTime Types.

Record Buffer : Type := {
  messages : list Message;
  batchSize : Z;
  timeout : Z;
  firstAdd : Time;  (* the zero Time means empty *)
}.

Definition NewBuffer (batchSize timeout : Z) : Buffer :=
  {| messages := []; batchSize := batchSize; timeout := timeout; firstAdd := zero_Time |}.

Definition buffer_Add (now : Time) (msg : Message) (b : Buffer) : Buffer :=
  {| messages := messages b ++ [msg]; batchSize := batchSize b; timeout := timeout b;
     firstAdd := if (length (messages b) =? 0)%nat then now else firstAdd b |}.

Definition Ready (b : Buffer) : bool := batchSize b <=? Z.of_nat (length (messages b)).

Definition TimedOut (now : Time) (b : Buffer) : bool :=
  if (length (messages b) =? 0)%nat then false else timeout b <=? Sub now (firstAdd b).

Definition buffer_Len (b : Buffer) : nat := length (messages b).

(** What [Drop] and [Flush] leave behind. *)
Definition buffer_reset (b : Buffer) : Buffer :=
  {| messages := []; batchSize := batchSize b; timeout := timeout b; firstAdd := zero_Time |}.

Definition Drop (b : Buffer) : nat * Buffer := (length (messages b), buffer_reset b).

(** [Flush]: [None] is the nil slice. *)
Definition Flush (b : Buffer) : option (list Message) * Buffer :=
  if (length (messages b) =? 0)%nat then (None, b) else (Some (messages b), buffer_reset b).

(** ** A buffer driven by a poll loop

    The loop adds each polled message and then flushes when the buffer is ready
    or has timed out.  [feed] is that loop over a list of polls: at each poll
    the time, and the message it returned, if any.  It returns the batches
    dispatched and the buffer left. *)
Definition poll_buffer (now : Time) (polled : option Message) (b : Buffer) :
    option (list Message) * Buffer :=
  let b := match polled with Some m => buffer_Add now m b | None => b end in
  if Ready b || TimedOut now b then Flush b else (None, b).
Fixpoint feed (polls : list (Time * option Message)) (b : Buffer) :
    list (list Message) * Buffer :=
  match polls with
  | [] => ([], b)
  | (now, polled) :: polls =>
      let '(out, b) := poll_buffer now polled b in
      let '(batches, b) := feed polls b in
      (option_list out ++ batches, b)
  end.

(** ** Invariant *)

(** Between polls the buffer is not full, and its clock is stopped exactly when
    it is empty. *)
Record buffer_ok (b : Buffer) : Prop := {
  ok_size : 0 < batchSize b;
  ok_len : Z.of_nat (length (messages b)) < batchSize b;
  ok_clock : messages b = [] → firstAdd b = zero_Time;
}.

Lemma NewBuffer_ok size d : 0 < size → buffer_ok (NewBuffer size d).
Proof. by constructor. Qed.
Lemma buffer_reset_ok b : buffer_ok b → buffer_ok (buffer_reset b).
Proof. intros []. by constructor. Qed.

Lemma Flush_spec b :
  Flush b = (match messages b with [] => None | ms => Some ms end,
             match messages b with [] => b | _ => buffer_reset b end).
Proof. unfold Flush. by destruct (messages b). Qed.

Lemma poll_buffer_params now polled b :
  batchSize (poll_buffer now polled b).2 = batchSize b ∧
  timeout (poll_buffer now polled b).2 = timeout b.
Proof.
  unfold poll_buffer. destruct polled; destruct (Ready _ || _); unfold Flush;
    try destruct (length _ =? 0)%nat; done.
Qed.

(** What one poll adds is either still buffered or just dispatched, in order. *)
Lemma poll_buffer_conserves now polled b :
  messages b ++ option_list polled =
    default [] (poll_buffer now polled b).1 ++ messages (poll_buffer now polled b).2.
Proof.
  unfold poll_buffer. destruct polled as [m|]; simpl.
  - destruct (Ready _ || _); [|done]. rewrite Flush_spec. simpl.
    destruct (messages b ++ [m]) eqn:E; [by destruct (messages b)|]. simpl. by rewrite app_nil_r.
  - rewrite app_nil_r. destruct (Ready _ || _); [|done]. rewrite Flush_spec. simpl.
    destruct (messages b) eqn:E; simpl; rewrite ?E, ?app_nil_r; done.
Qed.

Lemma poll_buffer_ok now polled b : buffer_ok b → buffer_ok (poll_buffer now polled b).2.
Proof.
  intros [Hs Hl Hc]. unfold poll_buffer.
  set (b' := match polled with Some m => buffer_Add now m b | None => b end).
  assert (batchSize b' = batchSize b) as Hb by (by destruct polled).
  destruct (Ready b' || TimedOut now b') eqn:E.
  - rewrite Flush_spec. simpl. destruct (messages b') eqn:Em.
    + subst b'. destruct polled; simpl in *; [by destruct (messages b)|]. by constructor.
    + by constructor; simpl; rewrite ?Hb.
  - apply orb_false_iff in E as [E _]. unfold Ready in E. apply Z.leb_gt in E.
    simpl. constructor; [by rewrite Hb|done|].
    subst b'. destruct polled; simpl; [by destruct (messages b)|done].
Qed.

(** A dispatched batch is never empty nor larger than the configured size. *)
Lemma poll_buffer_batch now polled b ms b' :
  buffer_ok b → poll_buffer now polled b = (Some ms, b') →
  ms ≠ [] ∧ Z.of_nat (length ms) ≤ batchSize b ∧ messages b' = [].
Proof.
  intros [Hs Hl Hc]. unfold poll_buffer. destruct (Ready _ || _); [|done].
  rewrite Flush_spec. destruct polled as [m|]; simpl.
  - destruct (messages b ++ [m]) eqn:E; [by destruct (messages b)|].
    intros [= <- <-]. split; [done|]. split; [|done].
    rewrite <-E, length_app. simpl. lia.
  - destruct (messages b) eqn:E; [done|]. intros [= <- <-]. split; [done|].
    split; [|done]. simpl in *. lia.
Qed.

(** ** Properties *)

(** C19 (buffer) Over any sequence of polls and any clock, the buffer neither
    loses, duplicates nor reorders a message: the dispatched batches followed by
    what is still buffered are the messages polled, in poll order; every batch
    has between one message and the configured size; and the buffer is again
    within its bound. *)
Theorem feed_fifo polls : ∀ b,
  buffer_ok b →
  let '(batches, b') := feed polls b in
  concat batches ++ messages b' = messages b ++ omap snd polls ∧
  Forall (λ ms, ms ≠ [] ∧ Z.of_nat (length ms) ≤ batchSize b) batches ∧
  buffer_ok b'.
Proof.
  induction polls as [|[now polled] polls IH]; intros b Hb; simpl.
  { split; [by rewrite app_nil_r|done]. }
  pose proof (poll_buffer_ok now polled b Hb) as Hb'.
  pose proof (poll_buffer_conserves now polled b) as Hc.
  pose proof (poll_buffer_batch now polled b) as Hbatch.
  pose proof (proj1 (poll_buffer_params now polled b)) as Hp.
  destruct (poll_buffer now polled b) as [out b1]. simpl in *.
  specialize (IH b1 Hb'). destruct (feed polls b1) as [batches b'].
  destruct IH as (Hcat & Hall & Hok). split; [|split; [|done]].
  - rewrite concat_app, <-app_assoc, Hcat. transitivity ((messages b ++ option_list polled) ++ omap snd polls).
    + rewrite Hc. destruct out; simpl; by rewrite ?app_nil_r, <-?app_assoc.
    + rewrite <-app_assoc. by destruct polled.
  - rewrite Hp in Hall. destruct out as [ms|]; [|done]. simpl. constructor; [|done].
    edestruct Hbatch as (? & ? & ?); [done..|]. done.
Qed.

(** A message never waits past the timeout for a poll to
    notice: if the buffer is not empty, and [now] is at least the timeout past
    the time the first message came in, the poll dispatches everything. *)
Theorem overdue_batch_dispatched now polled b :
  buffer_ok b → messages b ≠ [] → timeout b ≤ Sub now (firstAdd b) →
  poll_buffer now polled b = (Some (messages b ++ option_list polled), buffer_reset b).
Proof.
  intros Hb Hne Ht. unfold poll_buffer.
  assert (∀ b', messages b' = messages b ++ option_list polled → timeout b' = timeout b →
            firstAdd b' = firstAdd b → TimedOut now b' = true) as Htd.
  { intros b' Hm Hto Hf. unfold TimedOut. rewrite Hm, Hto, Hf.
    destruct (messages b); [done|]. simpl. by apply Z.leb_le. }
  destruct polled as [m|].
  - rewrite (Htd (buffer_Add now m b)), orb_true_r; simpl; try done.
    + rewrite Flush_spec. simpl. by destruct (messages b).
    + by destruct (messages b).
  - rewrite (Htd b), orb_true_r by (simpl; by rewrite ?app_nil_r). rewrite Flush_spec.
    simpl. rewrite app_nil_r. by destruct (messages b).
Qed.

(** ** Witnesses *)

Definition ex_time (s : Z) : Time := {| unix_ns := s * Second; zone := 0 |}.
Definition ex_buffer : Buffer :=
  {| messages := [zero_Message]; batchSize := 3; timeout := 5 * Second; firstAdd := ex_time 100 |}.
Lemma ex_buffer_ok : buffer_ok ex_buffer.
Proof. by constructor; simpl; try lia. Qed.

Lemma feed_fifo_witness :
  buffer_ok ex_buffer ∧
  let '(batches, b') := feed [(ex_time 101, Some zero_Message); (ex_time 102, Some zero_Message);
                              (ex_time 103, Some zero_Message)] ex_buffer in
  concat batches ++ messages b' = messages ex_buffer ++ [zero_Message; zero_Message; zero_Message].
Proof.
  split; [exact ex_buffer_ok|].
  pose proof (feed_fifo [(ex_time 101, Some zero_Message); (ex_time 102, Some zero_Message);
                         (ex_time 103, Some zero_Message)] ex_buffer ex_buffer_ok) as Hf.
  destruct (feed _ _) as [batches b']. exact (proj1 Hf).
Defined.

Lemma overdue_batch_dispatched_witness :
  poll_buffer (ex_time 105) None ex_buffer = (Some [zero_Message], buffer_reset ex_buffer).
Proof.
  exact (overdue_batch_dispatched (ex_time 105) None ex_buffer ex_buffer_ok ltac:(done) ltac:(by vm_compute)).
Defined.
