(* ===== verification/Headers.v ===== *)
(** * Retry headers (internal/subscribe/metadata)

    The headers the library writes on retry and DLQ records and reads back from
    them, the message a handler finds on its context, and the wait for a
    record's retry time. *)
From S2P Require Import Prelude GoStrings GoErrors GoTime GoAny Types.

(** ** Keys *)
Definition HeaderRetryAttempt : string := "easykafka.retry.attempt".
Definition HeaderRetryTime : string := "easykafka.retry.time".
Definition HeaderRetryStep : string := "easykafka.retry.step".
Definition HeaderErrorCode : string := "easykafka.error.code".
Definition HeaderErrorMessage : string := "easykafka.error.message".
Definition HeaderOriginalTopic : string := "easykafka.original.topic".
Definition HeaderOriginalPartition : string := "easykafka.original.partition".
Definition HeaderOriginalOffset : string := "easykafka.original.offset".
Definition HeaderFailedAt : string := "easykafka.failed.at".

Definition library_headers : list string :=
  [HeaderRetryAttempt; HeaderRetryTime; HeaderRetryStep; HeaderErrorCode; HeaderErrorMessage;
   HeaderOriginalTopic; HeaderOriginalPartition; HeaderOriginalOffset; HeaderFailedAt].
Definition isRetryHeader (key : string) : bool := bool_decide (key ∈ library_headers).

(** ** Reading *)

(** [msg.Headers[key]] with its presence; a nil map holds nothing. *)
Definition header_lookup (msg : Message) (key : string) : option string :=
  headers ← msg_Headers msg; headers !! key.
(** [msg.Headers[key]], the empty string when absent. *)
Definition header_get (msg : Message) (key : string) : string :=
  default EmptyString (header_lookup msg key).

Definition GetRetryAttempt (msg : option Message) : Z :=
  default 0 (m ← msg; v ← header_lookup m HeaderRetryAttempt; Atoi v).

Definition GetRetryTime (msg : option Message) : Time :=
  default zero_Time (m ← msg; v ← header_lookup m HeaderRetryTime; Parse_RFC3339 v).

(** Parsed at 32 bits: a value out of range is an error, and reads as no step. *)
Definition GetRetryStep (msg : option Message) : Z :=
  default 0 (m ← msg; v ← header_lookup m HeaderRetryStep; ParseInt 32 v).

Definition GetErrorCode (msg : option Message) : string :=
  default EmptyString (m ← msg; header_lookup m HeaderErrorCode).

Definition GetOriginalTopic (msg : option Message) : string :=
  default EmptyString (m ← msg; header_lookup m HeaderOriginalTopic).

(** ** Writing *)

Definition resolveStep (msg : Message) (f : Failure) : Z :=
  if f_Step f =? 0 then GetRetryStep (Some msg) else f_Step f.

Definition classifyError (err : option goerr) : string :=
  match err with None => EmptyString | Some _ => "HANDLER_ERROR" end.
Definition resolveErrorCode (f : Failure) : string :=
  match f_Code f with EmptyString => classifyError (f_Err f) | code => code end.
Definition errorMessage (err : option goerr) : string :=
  match err with None => EmptyString | Some e => error_text e end.

Definition resolveOriginalHeader (msg : Message) (key current : string) : string :=
  match header_get msg key with EmptyString => current | orig => orig end.
Definition resolveOriginalTopic (msg : Message) : string :=
  resolveOriginalHeader msg HeaderOriginalTopic (msg_Topic msg).

(** The headers a retry and a DLQ record share; [now] is the time of the call.
    The copy of the application's headers ranges over a map into a map, so its
    order is of no consequence. *)
Definition buildFailureHeaders (now : Time) (msg : Message) (attempt : Z) (f : Failure) :
    gmap string string :=
  let headers := filter (λ kv, isRetryHeader kv.1 = false) (default ∅ (msg_Headers msg)) in
  let headers := <[HeaderRetryAttempt := Itoa attempt]> headers in
  let step := resolveStep msg f in
  let headers := if step =? 0 then headers else <[HeaderRetryStep := Itoa step]> headers in
  let headers := <[HeaderErrorCode := resolveErrorCode f]> headers in
  let headers := <[HeaderErrorMessage := errorMessage (f_Err f)]> headers in
  let headers := <[HeaderOriginalTopic := resolveOriginalTopic msg]> headers in
  let headers := <[HeaderOriginalPartition :=
    resolveOriginalHeader msg HeaderOriginalPartition (Itoa (msg_Partition msg))]> headers in
  let headers := <[HeaderOriginalOffset :=
    resolveOriginalHeader msg HeaderOriginalOffset (FormatInt (msg_Offset msg))]> headers in
  <[HeaderFailedAt := Format_RFC3339 now]> headers.

Definition BuildRetryHeaders (now : Time) (msg : Message) (attempt : Z) (retryTime : Time)
    (f : Failure) : gmap string string :=
  <[HeaderRetryTime := Format_RFC3339 retryTime]> (buildFailureHeaders now msg attempt f).

Definition BuildDLQHeaders (now : Time) (msg : Message) (attempt : Z) (f : Failure) :
    gmap string string :=
  buildFailureHeaders now msg attempt f.

(** ** The handler's context *)

(** What a context carries under the library's key. *)
Record Context_ : Type := { ctx_message : option Message }.
Definition WithMessage (ctx : Context_) (msg : Message) : Context_ := {| ctx_message := Some msg |}.
Definition MessageFromContext (ctx : Context_) : option Message := ctx_message ctx.

(** ** Waiting *)

(** [WaitUntilRetryTime] with the clock at [now]: how long it blocks, and what
    it returns.  [race d] is what the select returns when a timer of [d] is up
    against the context: nil if the timer fires, the context's error otherwise. *)
Definition WaitUntilRetryTime (now : Time) (race : Z → option goerr) (msg : option Message) :
    option Z * option goerr :=
  let due := GetRetryTime msg in
  if IsZero due then (None, None)
  else
    let wait := Sub due now in
    if wait <=? 0 then (None, None) else (Some wait, race wait).

(** ** Lemmas *)

Lemma isRetryHeader_false k : isRetryHeader k = false ↔ k ∉ library_headers.
Proof. unfold isRetryHeader. by rewrite bool_decide_eq_false. Qed.

(** The header keys are pairwise distinct. *)
Lemma NoDup_library_headers : NoDup library_headers.
Proof. by apply (bool_decide_unpack _); vm_compute. Qed.

(** A record the library wrote: the message a consumer of the retry topic
    receives has the headers as a non-nil map. *)
Definition with_headers (m : Message) (h : gmap string string) : Message :=
  {| msg_Topic := msg_Topic m; msg_Partition := msg_Partition m; msg_Offset := msg_Offset m;
     msg_Timestamp := msg_Timestamp m; msg_Key := msg_Key m; msg_Headers := Some h;
     msg_Payload := msg_Payload m |}.

(** Look a library key up in the headers written. *)
Ltac header_lookup :=
  unfold BuildRetryHeaders, BuildDLQHeaders, buildFailureHeaders;
  repeat case_match;
  repeat first [ rewrite lookup_insert_eq | rewrite lookup_insert_ne by done ].

Section written.
Context (now : Time) (msg : Message) (attempt : Z) (f : Failure).
Let h := buildFailureHeaders now msg attempt f.

Lemma written_attempt : h !! HeaderRetryAttempt = Some (Itoa attempt).
Proof. subst h. by header_lookup. Qed.
Lemma written_code : h !! HeaderErrorCode = Some (resolveErrorCode f).
Proof. subst h. by header_lookup. Qed.
Lemma written_message : h !! HeaderErrorMessage = Some (errorMessage (f_Err f)).
Proof. subst h. by header_lookup. Qed.
Lemma written_topic : h !! HeaderOriginalTopic = Some (resolveOriginalTopic msg).
Proof. subst h. by header_lookup. Qed.
Lemma written_partition : h !! HeaderOriginalPartition =
  Some (resolveOriginalHeader msg HeaderOriginalPartition (Itoa (msg_Partition msg))).
Proof. subst h. by header_lookup. Qed.
Lemma written_offset : h !! HeaderOriginalOffset =
  Some (resolveOriginalHeader msg HeaderOriginalOffset (FormatInt (msg_Offset msg))).
Proof. subst h. by header_lookup. Qed.
Lemma written_failed_at : h !! HeaderFailedAt = Some (Format_RFC3339 now).
Proof. subst h. by header_lookup. Qed.
Lemma written_no_time : h !! HeaderRetryTime = None.
Proof.
  subst h. header_lookup; apply map_lookup_filter_None; right; intros x _; by vm_compute.
Qed.
Lemma written_step : h !! HeaderRetryStep =
  if resolveStep msg f =? 0 then None else Some (Itoa (resolveStep msg f)).
Proof.
  subst h. header_lookup; [|done].
  apply map_lookup_filter_None; right; intros x _; by vm_compute.
Qed.
Lemma written_app k : k ∉ library_headers → h !! k = header_lookup msg k.
Proof.
  intros Hk. assert (∀ k', k' ∈ library_headers → k' ≠ k) as Hne by set_solver.
  assert (filter (λ kv, isRetryHeader kv.1 = false) (default ∅ (msg_Headers msg)) !! k =
          header_lookup msg k) as Hf.
  { unfold header_lookup. destruct (msg_Headers msg) as [hs|]; cbn [from_option id mbind option_bind];
      [|by rewrite map_filter_empty, lookup_empty].
    destruct (hs !! k) eqn:E.
    - apply map_lookup_filter_Some. split; [done|]. by apply isRetryHeader_false.
    - apply map_lookup_filter_None. by left. }
  subst h. unfold buildFailureHeaders.
  repeat case_match; rewrite !lookup_insert_ne; try done; apply Hne; unfold library_headers; set_solver.
Qed.
End written.
#[export] Hint Rewrite written_attempt written_code written_message written_topic
  written_partition written_offset written_failed_at written_no_time written_step : ek.

Lemma lookup_retry_time now msg attempt t f k : k ≠ HeaderRetryTime →
  BuildRetryHeaders now msg attempt t f !! k = buildFailureHeaders now msg attempt f !! k.
Proof. intros. unfold BuildRetryHeaders. by rewrite lookup_insert_ne. Qed.

(** The step read from any message fits in an [int32]. *)
Lemma GetRetryStep_range msg : - 2 ^ 31 ≤ GetRetryStep msg < 2 ^ 31.
Proof.
  unfold GetRetryStep. destruct (m ← msg; _) as [z|] eqn:E; simpl; [|lia].
  apply bind_Some in E as (m & -> & E). apply bind_Some in E as (v & _ & E).
  by apply ParseInt_range in E.
Qed.
Lemma resolveStep_range msg f :
  - 2 ^ 31 ≤ f_Step f < 2 ^ 31 → - 2 ^ 31 ≤ resolveStep msg f < 2 ^ 31.
Proof. intros. unfold resolveStep. destruct (_ =? _); [apply GetRetryStep_range|done]. Qed.

Lemma resolveOriginalHeader_nonempty msg k cur :
  cur ≠ EmptyString → resolveOriginalHeader msg k cur ≠ EmptyString.
Proof. unfold resolveOriginalHeader. by destruct (header_get msg k). Qed.
Lemma resolveOriginalHeader_present msg k cur v :
  header_lookup msg k = Some v → v ≠ EmptyString → resolveOriginalHeader msg k cur = v.
Proof. unfold resolveOriginalHeader, header_get. intros ->. by destruct v. Qed.

(** ** Properties *)

(** C20 (headers round trip) What the retry strategy writes, a consumer of the
    retry topic reads back: the attempt number, the resume step, the error code
    and the original topic exactly, and the retry time cut to the second, so
    never later than the one computed and less than a second before it. *)
Theorem retry_headers_roundtrip now msg attempt t f m :
  - 2 ^ 63 ≤ attempt < 2 ^ 63 → - 2 ^ 31 ≤ f_Step f < 2 ^ 31 →
  0 ≤ Year t < 10000 → zone_ok (zone t) →
  let received := Some (with_headers m (BuildRetryHeaders now msg attempt t f)) in
  GetRetryAttempt received = attempt ∧
  GetRetryStep received = resolveStep msg f ∧
  GetErrorCode received = resolveErrorCode f ∧
  GetOriginalTopic received = resolveOriginalTopic msg ∧
  unix_ns (GetRetryTime received) = unix_ns t / Second * Second ∧
  unix_ns t - Second < unix_ns (GetRetryTime received) ≤ unix_ns t.
Proof.
  intros Ha Hf Hy Hz received.
  unfold GetRetryAttempt, GetRetryStep, GetErrorCode, GetOriginalTopic, GetRetryTime, received,
    header_lookup. cbn [mbind option_bind msg_Headers with_headers].
  rewrite !lookup_retry_time by done. autorewrite with ek.
  unfold BuildRetryHeaders. rewrite lookup_insert_eq. cbn [mbind option_bind].
  rewrite Atoi_Itoa, Parse_Format by done. cbn [from_option id unix_ns].
  split; [done|]. split.
  { destruct (Z.eqb_spec (resolveStep msg f) 0) as [->|]; [done|]. cbn [mbind option_bind].
    unfold Itoa. by rewrite ParseInt_FormatInt by (by apply (resolveStep_range msg)). }
  do 3 (split; [done|]). unfold Second.
  pose proof (Z.mod_pos_bound (unix_ns t) 1000000000). pose proof (Z.div_mod (unix_ns t) 1000000000).
  lia.
Qed.

(** Once a record has been written to a retry topic, every later
    hop writes the same original topic, partition and offset, whatever topic,
    partition and offset it is consumed at: the position names the source record
    for good. *)
Theorem original_position_kept now1 m1 a1 f1 h1 now2 m2 a2 f2 k :
  msg_Topic m1 ≠ EmptyString →
  (∃ t1, h1 = BuildRetryHeaders now1 m1 a1 t1 f1) ∨ h1 = BuildDLQHeaders now1 m1 a1 f1 →
  k ∈ [HeaderOriginalTopic; HeaderOriginalPartition; HeaderOriginalOffset] →
  buildFailureHeaders now2 (with_headers m2 h1) a2 f2 !! k = h1 !! k ∧ is_Some (h1 !! k).
Proof.
  intros Ht Hh1 Hk.
  assert (∀ k, k ≠ HeaderRetryTime → h1 !! k = buildFailureHeaders now1 m1 a1 f1 !! k) as E.
  { intros k' ?. destruct Hh1 as [[t1 ->]| ->]; [by apply lookup_retry_time|done]. }
  assert (∀ k' cur cur', h1 !! k' = Some (resolveOriginalHeader m1 k' cur) → cur ≠ EmptyString →
            Some (resolveOriginalHeader (with_headers m2 h1) k' cur') = h1 !! k' ∧ is_Some (h1 !! k'))
    as Hkeep.
  { intros k' cur cur' Hl Hne. rewrite Hl. split; [|done]. f_equal.
    apply resolveOriginalHeader_present; [done|by apply resolveOriginalHeader_nonempty]. }
  rewrite !elem_of_cons, elem_of_nil in Hk.
  destruct Hk as [->|[->|[->|[]]]].
  - rewrite written_topic. apply Hkeep with (msg_Topic m1); [|done].
    by rewrite E, written_topic.
  - rewrite written_partition. apply Hkeep with (Itoa (msg_Partition m1)); [|apply FormatInt_nonempty].
    by rewrite E, written_partition.
  - rewrite written_offset. apply Hkeep with (FormatInt (msg_Offset m1)); [|apply FormatInt_nonempty].
    by rewrite E, written_offset.
Qed.

(** A retry or DLQ record carries exactly the
    application headers its source arrived with, unchanged, and of the library's
    own keys all but the retry time and the step are always present: the DLQ
    record has no retry time, and a step is written only if there is one. *)
Theorem application_headers_kept now msg attempt t f k :
  let retry := BuildRetryHeaders now msg attempt t f in
  let dlq := BuildDLQHeaders now msg attempt f in
  (k ∉ library_headers → retry !! k = header_lookup msg k ∧ dlq !! k = header_lookup msg k) ∧
  (k ∈ library_headers →
     (is_Some (dlq !! k) ↔ k ≠ HeaderRetryTime ∧ (k = HeaderRetryStep → resolveStep msg f ≠ 0)) ∧
     (is_Some (retry !! k) ↔ (k = HeaderRetryStep → resolveStep msg f ≠ 0))) ∧
  dlq = delete HeaderRetryTime retry.
Proof.
  intros retry dlq. split; [|split].
  - intros Hk. subst retry. rewrite lookup_retry_time by (intros ->; set_solver).
    by split; apply written_app.
  - intros Hk. subst retry dlq. unfold BuildDLQHeaders.
    assert (is_Some (BuildRetryHeaders now msg attempt t f !! HeaderRetryTime)) as Htime.
    { unfold BuildRetryHeaders. rewrite lookup_insert_eq. done. }
    unfold library_headers in Hk. rewrite !elem_of_cons, elem_of_nil in Hk.
    destruct Hk as [->|[->|[->|[->|[->|[->|[->|[->|[->|[]]]]]]]]]];
      rewrite ?lookup_retry_time by done; autorewrite with ek;
      try (destruct (Z.eqb_spec (resolveStep msg f) 0)); split;
      rewrite ?is_Some_Some, ?is_Some_None; intuition discriminate.
  - subst retry dlq. unfold BuildRetryHeaders, BuildDLQHeaders. apply map_eq. intros i.
    destruct (decide (i = HeaderRetryTime)) as [->|].
    + by rewrite lookup_delete_eq, written_no_time.
    + by rewrite lookup_delete_ne, lookup_insert_ne.
Qed.

(** ** Witnesses *)

Definition ex_message : Message :=
  {| msg_Topic := "orders"; msg_Partition := 3; msg_Offset := 42; msg_Timestamp := zero_Time;
     msg_Key := Some "k"; msg_Headers := Some {["trace" := "abc"]}; msg_Payload := Some "x" |}.
Definition ex_failure : Failure :=
  {| f_Err := Some (errors_New "boom"); f_Step := 2; f_Code := "E1" |}.
Definition ex_now : Time := {| unix_ns := 1700000000123456789; zone := 7200 |}.

Lemma retry_headers_roundtrip_witness :
  GetRetryAttempt (Some (with_headers ex_message (BuildRetryHeaders ex_now ex_message 4 ex_now ex_failure))) = 4.
Proof.
  refine (proj1 (retry_headers_roundtrip ex_now ex_message 4 ex_now ex_failure ex_message _ _ _ _)).
  - lia.
  - simpl. lia.
  - by vm_compute.
  - by vm_compute.
Defined.

Lemma original_position_kept_witness :
  let h1 := BuildRetryHeaders ex_now ex_message 1 ex_now ex_failure in
  buildFailureHeaders ex_now (with_headers ex_message h1) 2 ex_failure !! HeaderOriginalOffset =
    h1 !! HeaderOriginalOffset ∧ is_Some (h1 !! HeaderOriginalOffset).
Proof.
  intros h1.
  apply (original_position_kept ex_now ex_message 1 ex_failure h1 ex_now ex_message 2 ex_failure).
  - done.
  - left. by exists ex_now.
  - by right; right; left.
Defined.
