(* ===== verification/ConsumerApi.v ===== *)
(** * The driver and strategy interfaces of the subscriber

    [subscribedriver.Config] and [subscribedriver.Consumer]
    (internal/subscribe/subscribedriver/consumer.go), and [types.ErrorStrategy],
    [types.Initializable] and [types.LoggerAware] (internal/subscribe/types).

    [W] is the world outside the subscriber: the Kafka client, the broker, the
    clock, the application.  An operation of an interface is a function of the
    world that returns a result and the world it leaves. *)
From S2P Require Import Prelude GoErrors GoAny Types.

(** The partition is no longer assigned: part of the [StoreOffset] contract. *)
Definition ErrPartitionRevoked : goerr :=
  ENew "subscribedriver.ErrPartitionRevoked" "partition no longer assigned".

(** [subscribedriver.Config]. *)
Record DriverConfig : Type := {
  dc_Brokers : list string;
  dc_Topic : string;
  dc_GroupID : string;
  dc_KafkaConfig : configmap;
  dc_CommitInterval : Z;
}.

(** [subscribedriver.Consumer].  [Poll] reports, besides the message and the
    error, how often the function registered with [SetOnRevoke] ran during the
    call: it runs on the polling goroutine, inside [Poll]. *)
Record Consumer (W : Type) : Type := {
  Connect : W → option goerr * W;
  SubscribeToTopic : W → option goerr * W;
  Poll : Z → W → (nat * option Message * option goerr) * W;
  StoreOffset : string → Z → Z → W → option goerr * W;
  CommitStored : W → option goerr * W;
  MaybeCommitStored : W → option goerr * W;
  SetOnRevoke : W → W;
  Close : W → option goerr * W;
}.
Arguments Connect {W}. Arguments SubscribeToTopic {W}. Arguments Poll {W}.
Arguments StoreOffset {W}. Arguments CommitStored {W}. Arguments MaybeCommitStored {W}.
Arguments SetOnRevoke {W}. Arguments Close {W}.

(** [types.ErrorStrategy], with the optional interfaces [Initializable]
    (Initialize and Close) and [LoggerAware] (SetLogger) where implemented. *)
Record ErrorStrategy (W : Type) : Type := {
  es_Name : string;
  es_HandleError : list Message → Failure → W → option goerr * W;
  es_Initializable : option ((InitConfig → W → option goerr * W) * (W → option goerr * W));
  es_LoggerAware : option (Logger → W → W);
}.
Arguments es_Name {W}. Arguments es_HandleError {W}.
Arguments es_Initializable {W}. Arguments es_LoggerAware {W}.

(** [types.Handler] and [types.BatchHandler]: user code.  A handler finds its
    message on the context; the payload is passed besides. *)
Definition Handler (W : Type) : Type := option Message → bytes → W → handler_call * W.
Definition BatchHandler (W : Type) : Type := Batch → W → batch_call * W.
