(* ===== verification/SubscribeOptions.v ===== *)
(** * Subscriber configuration (subscribe/options.go, and New of subscribe/subscriber.go)

    An option changes the configuration or fails; [New] applies the options in
    order, validates, and fills in the defaults. *)
From S2P Require Import Prelude GoStrings GoErrors GoTime GoAny Types ConsumerApi.

Definition ModeSingleMessage : string := "single".
Definition ModeBatch : string := "batch".

Section options.
Context {W : Type} `{GoRange}.
(** The default of [newConsumer]: [subscribedriver.New]. *)
Context (driver_New : DriverConfig → W → (Consumer W + goerr) * W).
(** The default strategy: [strategy.NewSkipStrategy] over the logger. *)
Context (NewSkipStrategy : ErrorStrategy W).

(** [Config].  A nil function or map is [None].  A component reports its log lines in
    the trace of its run; its logger is only handed on. *)
Record Config : Type := mkConfig {
  cfg_Topic : string;
  cfg_Brokers : list string;
  cfg_ConsumerGroup : string;
  cfg_Handler : option (Handler W);
  cfg_BatchHandler : option (BatchHandler W);
  cfg_Mode : string;
  cfg_BatchSize : Z;
  cfg_BatchTimeout : Z;
  cfg_PollTimeout : Z;
  cfg_AutoCommitEvery : Z;
  cfg_ErrorStrategy : option (ErrorStrategy W);
  cfg_KafkaConfig : option configmap;
  cfg_newConsumer : option (DriverConfig → W → (Consumer W + goerr) * W);
  cfg_Logger : Logger;
}.

Definition zero_Config : Config :=
  {| cfg_Topic := EmptyString; cfg_Brokers := []; cfg_ConsumerGroup := EmptyString;
     cfg_Handler := None; cfg_BatchHandler := None; cfg_Mode := EmptyString;
     cfg_BatchSize := 0; cfg_BatchTimeout := 0; cfg_PollTimeout := 0; cfg_AutoCommitEvery := 0;
     cfg_ErrorStrategy := None; cfg_KafkaConfig := None; cfg_newConsumer := None;
     cfg_Logger := Nop |}.

(** The options, with the arguments their constructors take. *)
Inductive Option_ : Type :=
  | OptTopic (topic : string)
  | OptBrokers (brokers : list string)
  | OptConsumerGroup (groupID : string)
  | OptHandler (handler : option (Handler W))
  | OptBatchHandler (handler : option (BatchHandler W))
  | OptErrorStrategy (strategy : option (ErrorStrategy W))
  | OptBatchSize (size : Z)
  | OptBatchTimeout (timeout : Z)
  | OptPollTimeout (timeout : Z)
  | OptAutoCommitEvery (d : Z)
  | OptLogger (logger : Logger)
  | OptKafkaConfig (config : option configmap)
  | OptConsumerFactory (factory : option (DriverConfig → W → (Consumer W + goerr) * W)).

(** The keys the library manages itself, each with the reason. *)
Definition managedKafkaKeys : list (string * string) :=
  [("bootstrap.servers", "managed by WithBrokers");
   ("group.id", "managed by WithConsumerGroup");
   ("enable.auto.commit", "managed by WithAutoCommitEvery");
   ("auto.commit.interval.ms", "managed by WithAutoCommitEvery");
   ("enable.auto.offset.store",
      "managed by the library; offsets are stored only after a message is processed");
   ("partition.assignment.strategy",
      "managed by the library; rebalance handling requires an eager strategy, and a cooperative one would silently drop buffered messages");
   ("group.protocol",
      "managed by the library; rebalance handling requires the classic protocol, whose revokes are eager")].
Definition managed_reason (key : string) : option string :=
  snd <$> find (λ kr, String.eqb kr.1 key) managedKafkaKeys.

(** [WithKafkaConfig]'s walk over the map: the first managed key it meets fails it. *)
Fixpoint reject_managed (entries : list (string * goany)) : option goerr :=
  match entries with
  | [] => None
  | (key, _) :: entries =>
      match managed_reason key with
      | Some reason =>
          Some (errors_New ("kafka config key " +:+ Quote key +:+ " is managed by the library (" +:+
                            reason +:+ ") and cannot be overridden"))
      | None => reject_managed entries
      end
  end.

(** Assignments to one field, or to the fields one option sets together. *)
Definition set_Topic x (c : Config) : Config :=
  mkConfig x (cfg_Brokers c) (cfg_ConsumerGroup c) (cfg_Handler c) (cfg_BatchHandler c)
    (cfg_Mode c) (cfg_BatchSize c) (cfg_BatchTimeout c) (cfg_PollTimeout c)
    (cfg_AutoCommitEvery c) (cfg_ErrorStrategy c) (cfg_KafkaConfig c) (cfg_newConsumer c)
    (cfg_Logger c).
Definition set_Brokers x (c : Config) : Config :=
  mkConfig (cfg_Topic c) x (cfg_ConsumerGroup c) (cfg_Handler c) (cfg_BatchHandler c)
    (cfg_Mode c) (cfg_BatchSize c) (cfg_BatchTimeout c) (cfg_PollTimeout c)
    (cfg_AutoCommitEvery c) (cfg_ErrorStrategy c) (cfg_KafkaConfig c) (cfg_newConsumer c)
    (cfg_Logger c).
Definition set_ConsumerGroup x (c : Config) : Config :=
  mkConfig (cfg_Topic c) (cfg_Brokers c) x (cfg_Handler c) (cfg_BatchHandler c) (cfg_Mode c)
    (cfg_BatchSize c) (cfg_BatchTimeout c) (cfg_PollTimeout c) (cfg_AutoCommitEvery c)
    (cfg_ErrorStrategy c) (cfg_KafkaConfig c) (cfg_newConsumer c)
    (cfg_Logger c).
Definition set_BatchSize x (c : Config) : Config :=
  mkConfig (cfg_Topic c) (cfg_Brokers c) (cfg_ConsumerGroup c) (cfg_Handler c)
    (cfg_BatchHandler c) (cfg_Mode c) x (cfg_BatchTimeout c) (cfg_PollTimeout c)
    (cfg_AutoCommitEvery c) (cfg_ErrorStrategy c) (cfg_KafkaConfig c) (cfg_newConsumer c)
    (cfg_Logger c).
Definition set_BatchTimeout x (c : Config) : Config :=
  mkConfig (cfg_Topic c) (cfg_Brokers c) (cfg_ConsumerGroup c) (cfg_Handler c)
    (cfg_BatchHandler c) (cfg_Mode c) (cfg_BatchSize c) x (cfg_PollTimeout c)
    (cfg_AutoCommitEvery c) (cfg_ErrorStrategy c) (cfg_KafkaConfig c) (cfg_newConsumer c)
    (cfg_Logger c).
Definition set_PollTimeout x (c : Config) : Config :=
  mkConfig (cfg_Topic c) (cfg_Brokers c) (cfg_ConsumerGroup c) (cfg_Handler c)
    (cfg_BatchHandler c) (cfg_Mode c) (cfg_BatchSize c) (cfg_BatchTimeout c) x
    (cfg_AutoCommitEvery c) (cfg_ErrorStrategy c) (cfg_KafkaConfig c) (cfg_newConsumer c)
    (cfg_Logger c).
Definition set_AutoCommitEvery x (c : Config) : Config :=
  mkConfig (cfg_Topic c) (cfg_Brokers c) (cfg_ConsumerGroup c) (cfg_Handler c)
    (cfg_BatchHandler c) (cfg_Mode c) (cfg_BatchSize c) (cfg_BatchTimeout c) (cfg_PollTimeout c)
    x (cfg_ErrorStrategy c) (cfg_KafkaConfig c) (cfg_newConsumer c)
    (cfg_Logger c).
Definition set_ErrorStrategy x (c : Config) : Config :=
  mkConfig (cfg_Topic c) (cfg_Brokers c) (cfg_ConsumerGroup c) (cfg_Handler c)
    (cfg_BatchHandler c) (cfg_Mode c) (cfg_BatchSize c) (cfg_BatchTimeout c) (cfg_PollTimeout c)
    (cfg_AutoCommitEvery c) x (cfg_KafkaConfig c) (cfg_newConsumer c)
    (cfg_Logger c).
Definition set_KafkaConfig x (c : Config) : Config :=
  mkConfig (cfg_Topic c) (cfg_Brokers c) (cfg_ConsumerGroup c) (cfg_Handler c)
    (cfg_BatchHandler c) (cfg_Mode c) (cfg_BatchSize c) (cfg_BatchTimeout c) (cfg_PollTimeout c)
    (cfg_AutoCommitEvery c) (cfg_ErrorStrategy c) x (cfg_newConsumer c)
    (cfg_Logger c).
Definition set_newConsumer x (c : Config) : Config :=
  mkConfig (cfg_Topic c) (cfg_Brokers c) (cfg_ConsumerGroup c) (cfg_Handler c)
    (cfg_BatchHandler c) (cfg_Mode c) (cfg_BatchSize c) (cfg_BatchTimeout c) (cfg_PollTimeout c)
    (cfg_AutoCommitEvery c) (cfg_ErrorStrategy c) (cfg_KafkaConfig c) x
    (cfg_Logger c).
Definition set_Logger x (c : Config) : Config :=
  mkConfig (cfg_Topic c) (cfg_Brokers c) (cfg_ConsumerGroup c) (cfg_Handler c)
    (cfg_BatchHandler c) (cfg_Mode c) (cfg_BatchSize c) (cfg_BatchTimeout c) (cfg_PollTimeout c)
    (cfg_AutoCommitEvery c) (cfg_ErrorStrategy c) (cfg_KafkaConfig c) (cfg_newConsumer c) x.
Definition set_Handler h (c : Config) : Config :=
  mkConfig (cfg_Topic c) (cfg_Brokers c) (cfg_ConsumerGroup c) h (cfg_BatchHandler c)
    ModeSingleMessage (cfg_BatchSize c) (cfg_BatchTimeout c) (cfg_PollTimeout c)
    (cfg_AutoCommitEvery c) (cfg_ErrorStrategy c) (cfg_KafkaConfig c) (cfg_newConsumer c)
    (cfg_Logger c).
Definition set_BatchHandler h (c : Config) : Config :=
  mkConfig (cfg_Topic c) (cfg_Brokers c) (cfg_ConsumerGroup c) (cfg_Handler c) h ModeBatch
    (cfg_BatchSize c) (cfg_BatchTimeout c) (cfg_PollTimeout c) (cfg_AutoCommitEvery c)
    (cfg_ErrorStrategy c) (cfg_KafkaConfig c) (cfg_newConsumer c)
    (cfg_Logger c).

Definition reject {A} (text : string) : A + goerr := inr (errors_New text).

(** *** The options *)

(** [Option]: what applying one does. *)
Definition OptionFunc : Type := Config → Config + goerr.

Definition WithTopic (topic : string) : OptionFunc := λ c,
  if String.eqb topic EmptyString then reject "topic cannot be empty" else inl (set_Topic topic c).
Definition WithBrokers (brokers : list string) : OptionFunc := λ c,
  match brokers with
  | [] => reject "at least one broker must be provided"
  | _ => if existsb (String.eqb EmptyString) brokers then reject "broker address cannot be empty"
         else inl (set_Brokers brokers c)
  end.
Definition WithConsumerGroup (groupID : string) : OptionFunc := λ c,
  if String.eqb groupID EmptyString then reject "consumer group cannot be empty"
  else inl (set_ConsumerGroup groupID c).
Definition WithHandler (handler : option (Handler W)) : OptionFunc := λ c,
  match handler with
  | None => reject "handler cannot be nil"
  | Some _ => inl (set_Handler handler c)
  end.
Definition WithBatchHandler (handler : option (BatchHandler W)) : OptionFunc := λ c,
  match handler with
  | None => reject "batch handler cannot be nil"
  | Some _ =>
      let c := set_BatchHandler handler c in
      let c := if cfg_BatchSize c <=? 0 then set_BatchSize 100 c else c in
      inl (if cfg_BatchTimeout c <=? 0 then set_BatchTimeout (5 * Second) c else c)
  end.
Definition WithErrorStrategy (strategy : option (ErrorStrategy W)) : OptionFunc := λ c,
  match strategy with
  | None => reject "error strategy cannot be nil"
  | Some _ => inl (set_ErrorStrategy strategy c)
  end.
Definition WithBatchSize (size : Z) : OptionFunc := λ c,
  if size <=? 0 then reject "batch size must be positive" else inl (set_BatchSize size c).
Definition WithBatchTimeout (timeout : Z) : OptionFunc := λ c,
  if timeout <=? 0 then reject "batch timeout must be positive" else inl (set_BatchTimeout timeout c).
Definition WithPollTimeout (timeout : Z) : OptionFunc := λ c,
  if timeout <? 10 * Millisecond then reject "poll timeout must be at least 10ms"
  else inl (set_PollTimeout timeout c).
Definition WithAutoCommitEvery (d : Z) : OptionFunc := λ c,
  if d <=? 0 then reject "auto-commit interval must be positive" else inl (set_AutoCommitEvery d c).
Definition WithLogger (logger : Logger) : OptionFunc := λ c, inl (set_Logger logger c).
Definition WithKafkaConfig (config : option configmap) : OptionFunc := λ c,
  match config with
  | None => reject "kafka config cannot be nil"
  | Some m =>
      match reject_managed (go_range m) with
      | Some err => inr err
      | None => inl (set_KafkaConfig (Some m) c)
      end
  end.
Definition WithConsumerFactory (factory : option (DriverConfig → W → (Consumer W + goerr) * W)) :
    OptionFunc := λ c,
  match factory with
  | None => reject "consumer factory cannot be nil"
  | Some _ => inl (set_newConsumer factory c)
  end.

Definition apply_option (o : Option_) : OptionFunc :=
  match o with
  | OptTopic topic => WithTopic topic
  | OptBrokers brokers => WithBrokers brokers
  | OptConsumerGroup groupID => WithConsumerGroup groupID
  | OptHandler handler => WithHandler handler
  | OptBatchHandler handler => WithBatchHandler handler
  | OptErrorStrategy strategy => WithErrorStrategy strategy
  | OptBatchSize size => WithBatchSize size
  | OptBatchTimeout timeout => WithBatchTimeout timeout
  | OptPollTimeout timeout => WithPollTimeout timeout
  | OptAutoCommitEvery d => WithAutoCommitEvery d
  | OptLogger logger => WithLogger logger
  | OptKafkaConfig config => WithKafkaConfig config
  | OptConsumerFactory factory => WithConsumerFactory factory
  end.

Definition Validate (c : Config) : option goerr :=
  if String.eqb (cfg_Topic c) EmptyString then Some (errors_New "topic is required")
  else if (length (cfg_Brokers c) =? 0)%nat then Some (errors_New "at least one broker is required")
  else if String.eqb (cfg_ConsumerGroup c) EmptyString then Some (errors_New "consumer group is required")
  else
    match cfg_Handler c, cfg_BatchHandler c with
    | None, None => Some (errors_New "exactly one of Handler or BatchHandler must be set")
    | Some _, Some _ => Some (errors_New "only one of Handler or BatchHandler can be set")
    | _, _ =>
        if String.eqb (cfg_Mode c) ModeBatch then
          if cfg_BatchSize c <=? 0 then Some (errors_New "batch size must be positive")
          else if cfg_BatchTimeout c <=? 0 then Some (errors_New "batch timeout must be positive")
          else None
        else None
    end.

Definition ApplyDefaults (c : Config) : Config :=
  let c := if cfg_PollTimeout c =? 0 then set_PollTimeout (100 * Millisecond) c else c in
  let c := match cfg_ErrorStrategy c with None => set_ErrorStrategy (Some NewSkipStrategy) c | _ => c end in
  let c := match cfg_KafkaConfig c with None => set_KafkaConfig (Some ∅) c | _ => c end in
  match cfg_newConsumer c with None => set_newConsumer (Some driver_New) c | _ => c end.

(** The loop of [New] over its options. *)
Fixpoint apply_options (options : list Option_) (c : Config) : Config + goerr :=
  match options with
  | [] => inl c
  | opt :: options =>
      match apply_option opt c with
      | inl c => apply_options options c
      | inr err => inr (EErrorf ("invalid option: " +:+ error_text err) [err])
      end
  end.
Definition New (options : list Option_) : Config + goerr :=
  match apply_options options zero_Config with
  | inr err => inr err
  | inl cfg =>
      match Validate cfg with
      | Some err => inr err
      | None => inl (ApplyDefaults cfg)
      end
  end.
End options.

(** Unfold the application of an option that is known. *)
Ltac unfold_option :=
  unfold apply_option, WithTopic, WithBrokers, WithConsumerGroup, WithHandler, WithBatchHandler,
    WithErrorStrategy, WithBatchSize, WithBatchTimeout, WithPollTimeout, WithAutoCommitEvery,
    WithLogger, WithKafkaConfig, WithConsumerFactory in *.

(** ** What the options build *)

(** A configuration [New] hands to a subscriber. *)
Record accepted {W} (c : Config (W:=W)) : Prop := {
  acc_topic : cfg_Topic c ≠ EmptyString;
  acc_brokers : cfg_Brokers c ≠ [] ∧ EmptyString ∉ cfg_Brokers c;
  acc_group : cfg_ConsumerGroup c ≠ EmptyString;
  (** exactly one handler, the one the mode calls, and a real batch in batch mode *)
  acc_mode :
    (cfg_Mode c = ModeSingleMessage ∧ is_Some (cfg_Handler c) ∧ cfg_BatchHandler c = None) ∨
    (cfg_Mode c = ModeBatch ∧ is_Some (cfg_BatchHandler c) ∧ cfg_Handler c = None ∧
     0 < cfg_BatchSize c ∧ 0 < cfg_BatchTimeout c);
  acc_poll : 10 * Millisecond ≤ cfg_PollTimeout c;
  acc_commit : 0 ≤ cfg_AutoCommitEvery c;
  acc_strategy : is_Some (cfg_ErrorStrategy c);
  acc_kafka : ∃ m, cfg_KafkaConfig c = Some m ∧ ∀ k, is_Some (m !! k) → managed_reason k = None;
  acc_factory : is_Some (cfg_newConsumer c);
}.

(** What holds of the configuration while the options are applied. *)
Record building {W} (c : Config (W:=W)) : Prop := {
  bld_brokers : EmptyString ∉ cfg_Brokers c;
  bld_mode : match cfg_Handler c, cfg_BatchHandler c with
             | Some _, None => cfg_Mode c = ModeSingleMessage
             | None, Some _ => cfg_Mode c = ModeBatch
             | _, _ => True
             end;
  bld_poll : cfg_PollTimeout c = 0 ∨ 10 * Millisecond ≤ cfg_PollTimeout c;
  bld_commit : 0 ≤ cfg_AutoCommitEvery c;
  bld_kafka : ∀ m k, cfg_KafkaConfig c = Some m → is_Some (m !! k) → managed_reason k = None;
}.

Section lemmas.
Context {W : Type} `{GoRangeLaws}.
Implicit Types c : Config (W:=W).

Lemma reject_managed_None l : reject_managed l = None ↔ Forall (λ kv, managed_reason kv.1 = None) l.
Proof.
  induction l as [|[k v] l IH]; simpl; [by split; [constructor|]|].
  destruct (managed_reason k) as [r|] eqn:E.
  - split; [done|]. intros Hl. inversion Hl. simplify_eq/=.
  - rewrite IH. split; [by constructor|by inversion 1].
Qed.
Lemma reject_managed_map (m : configmap) :
  reject_managed (go_range m) = None → ∀ k, is_Some (m !! k) → managed_reason k = None.
Proof.
  rewrite reject_managed_None, Forall_forall. intros Hl k [v Hv].
  apply (Hl (k, v)). by apply elem_of_go_range.
Qed.

Lemma empty_unmanaged : ∃ m : configmap,
  Some ∅ = Some m ∧ ∀ k, is_Some (m !! k) → managed_reason k = None.
Proof. exists ∅. split; [done|]. intros k. rewrite lookup_empty. by intros []. Qed.

Lemma zero_building : building (zero_Config (W:=W)).
Proof. constructor; simpl; [set_solver|done|by left|lia|done]. Qed.

Lemma apply_option_building o c c' : building c → apply_option o c = inl c' → building c'.
Proof.
  intros Hc E. destruct o; unfold_option; simpl in E; repeat case_match; simplify_eq/=; try done;
    destruct Hc as [Hb Hm Hp Hc Hk]; constructor; simpl; try assumption; try lia;
    unfold Millisecond in *;
    try (by destruct (cfg_Handler c)); try (by destruct (cfg_BatchHandler c)); try (right; lia).
  - intros Hin. assert (existsb (String.eqb EmptyString) (s :: l) = true) as Hex.
    { apply existsb_exists. exists EmptyString. split; [by apply list_elem_of_In|done]. }
    simpl in Hex. congruence.
  - intros m k [= <-] Hmk. by eapply reject_managed_map.
Qed.

Lemma apply_options_building opts : ∀ c c',
  building c → apply_options opts c = inl c' → building c'.
Proof.
  induction opts as [|o opts IH]; intros c c' Hc; simpl; [by intros [= <-]|].
  destruct (apply_option o c) as [c1|] eqn:E; [|done].
  apply IH. by eapply apply_option_building.
Qed.

(** *** Order of the options *)

(** A result [New] turns into an error: an option failed, or both handlers are set. *)
Definition bad (r : Config (W:=W) + goerr) : Prop :=
  match r with
  | inl c => is_Some (cfg_Handler c) ∧ is_Some (cfg_BatchHandler c)
  | inr _ => True
  end.
Definition same_result (r r' : Config (W:=W) + goerr) : Prop := r = r' ∨ bad r ∧ bad r'.

#[local] Instance same_result_equiv : Equivalence same_result.
Proof.
  split.
  - by left.
  - intros x y [->|[]]; [by left|by right].
  - intros x y z [->|[? ?]] [->|[? ?]]; try (by left); by right.
Qed.

Definition then_apply (opts : list (Option_ (W:=W))) (r : Config (W:=W) + goerr) :
    Config (W:=W) + goerr :=
  match r with inl c => apply_options opts c | inr e => inr e end.

Lemma apply_option_bad o c : bad (inl c) → bad (apply_option o c).
Proof.
  intros [? ?]. destruct o; unfold_option; simpl; repeat case_match; simplify_eq/=; by try split.
Qed.
Lemma apply_options_bad opts : ∀ c, bad (inl c) → bad (apply_options opts c).
Proof.
  induction opts as [|o opts IH]; intros c Hc; simpl; [done|].
  pose proof (apply_option_bad o c Hc). destruct (apply_option o c); [|done]. by apply IH.
Qed.
Lemma then_apply_same opts r r' :
  same_result r r' → same_result (then_apply opts r) (then_apply opts r').
Proof.
  assert (∀ r, bad r → bad (then_apply opts r)) as Hb.
  { intros [c|e]; [apply apply_options_bad|done]. }
  intros [->|[? ?]]; [by left|right; auto].
Qed.

(** Which option it is. *)
Definition option_kind (o : Option_ (W:=W)) : nat :=
  match o with
  | OptTopic _ => 0 | OptBrokers _ => 1 | OptConsumerGroup _ => 2 | OptHandler _ => 3
  | OptBatchHandler _ => 4 | OptErrorStrategy _ => 5 | OptBatchSize _ => 6
  | OptBatchTimeout _ => 7 | OptPollTimeout _ => 8 | OptAutoCommitEvery _ => 9
  | OptLogger _ => 10 | OptKafkaConfig _ => 11 | OptConsumerFactory _ => 12
  end%nat.

(** An option either fails, whatever the configuration, or has this effect. *)
Definition option_effect (o : Option_ (W:=W)) (c : Config (W:=W)) : Config (W:=W) :=
  match o with
  | OptTopic t => set_Topic t c
  | OptBrokers b => set_Brokers b c
  | OptConsumerGroup g => set_ConsumerGroup g c
  | OptHandler h => set_Handler h c
  | OptBatchHandler h =>
      set_BatchSize (if cfg_BatchSize c <=? 0 then 100 else cfg_BatchSize c)
        (set_BatchTimeout (if cfg_BatchTimeout c <=? 0 then 5 * Second else cfg_BatchTimeout c)
           (set_BatchHandler h c))
  | OptErrorStrategy s => set_ErrorStrategy s c
  | OptBatchSize n => set_BatchSize n c
  | OptBatchTimeout d => set_BatchTimeout d c
  | OptPollTimeout d => set_PollTimeout d c
  | OptAutoCommitEvery d => set_AutoCommitEvery d c
  | OptLogger l => set_Logger l c
  | OptKafkaConfig m => set_KafkaConfig m c
  | OptConsumerFactory f => set_newConsumer f c
  end.
Definition option_valid (o : Option_ (W:=W)) : bool :=
  match apply_option o zero_Config with inl _ => true | inr _ => false end.

Lemma apply_option_valid o c : option_valid o = true → apply_option o c = inl (option_effect o c).
Proof.
  unfold option_valid. destruct o, c; unfold_option; simpl; repeat (case_match; simplify_eq/=); try done.
Qed.
Lemma apply_option_invalid o c : option_valid o = false → bad (apply_option o c).
Proof. unfold option_valid. destruct o; unfold_option; simpl; by repeat case_match. Qed.

Lemma option_valid_handler o : option_valid o = true →
  match o with
  | OptHandler h => is_Some h | OptBatchHandler h => is_Some h
  | OptBatchSize n => 0 < n | OptBatchTimeout d => 0 < d
  | _ => True
  end.
Proof. unfold option_valid. destruct o; unfold_option; simpl; repeat case_match; simpl; try done; intros _; lia. Qed.

Lemma option_effect_comm o o' c : option_kind o ≠ option_kind o' →
  option_valid o = true → option_valid o' = true →
  same_result (inl (option_effect o' (option_effect o c))) (inl (option_effect o (option_effect o' c))).
Proof.
  intros Hk Ho%option_valid_handler Ho'%option_valid_handler.
  destruct o, o'; try done; try (by left); simpl in *; try (by right);
    left; unfold set_BatchSize, set_BatchTimeout; simpl;
    repeat (match goal with |- context [?x <=? 0] => destruct (Z.leb_spec x 0) end; try lia); done.
Qed.

Lemma apply_options_invalid opts : ∀ c,
  forallb option_valid opts = false → bad (apply_options opts c).
Proof.
  induction opts as [|o opts IH]; intros c; simpl; [done|].
  destruct (option_valid o) eqn:Ho; simpl.
  - rewrite apply_option_valid by done. apply IH.
  - intros _. pose proof (apply_option_invalid o c Ho). destruct (apply_option o c); [|done].
    by apply apply_options_bad.
Qed.

Lemma apply_option_swap o o' c : option_kind o ≠ option_kind o' →
  same_result (apply_options [o; o'] c) (apply_options [o'; o] c).
Proof.
  intros Hk. destruct (forallb option_valid [o; o']) eqn:Hv.
  - simpl in Hv. apply andb_true_iff in Hv as [Ho Hv]. apply andb_true_iff in Hv as [Ho' _].
    simpl. rewrite (apply_option_valid o c), (apply_option_valid o' c) by done.
    rewrite (apply_option_valid o), (apply_option_valid o') by done.
    by apply option_effect_comm.
  - right. split; apply apply_options_invalid; [done|].
    rewrite <-Hv. simpl. by destruct (option_valid o), (option_valid o').
Qed.

Lemma apply_options_app opts opts' c :
  apply_options (opts ++ opts') c = then_apply opts' (apply_options opts c).
Proof.
  revert c. induction opts as [|o opts IH]; intros c; simpl; [done|].
  by destruct (apply_option o c).
Qed.

Lemma apply_options_perm opts opts' :
  opts ≡ₚ opts' → NoDup (option_kind <$> opts) →
  ∀ c, same_result (apply_options opts c) (apply_options opts' c).
Proof.
  induction 1 as [|o l l' Hp IH|o o' l|l1 l2 l3 H1 IH1 H2 IH2]; intros Hnd c.
  - by left.
  - apply (NoDup_cons _ _) in Hnd as [_ Hnd]. simpl.
    destruct (apply_option o c); [by apply IH|by left].
  - change (o' :: o :: l) with ([o'; o] ++ l). change (o :: o' :: l) with ([o; o'] ++ l).
    rewrite !apply_options_app. apply then_apply_same, apply_option_swap.
    apply (NoDup_cons _ _) in Hnd as [Hni _]. simpl in Hni. set_solver.
  - transitivity (apply_options l2 c); [by apply IH1|]. apply IH2. by rewrite <-H1.
Qed.
End lemmas.

Lemma New_accepts {W} `{GoRangeLaws} driver_New skip (options : list (Option_ (W:=W))) cfg :
  New driver_New skip options = inl cfg → accepted cfg.
Proof.
  unfold New. intros E.
  destruct (apply_options options zero_Config) as [c|] eqn:Ec; [|done].
  destruct (apply_options_building _ _ _ zero_building Ec) as [Hb Hm Hp Hc Hk].
  unfold Validate in E. unfold Millisecond in *.
  destruct (String.eqb_spec (cfg_Topic c) EmptyString) as [|Ht]; [done|].
  destruct (cfg_Brokers c) as [|br brs] eqn:Hbr; [done|]. simpl in E.
  destruct (String.eqb_spec (cfg_ConsumerGroup c) EmptyString) as [|Hg]; [done|].
  unfold ApplyDefaults in E.
  destruct (cfg_Handler c) eqn:Hh, (cfg_BatchHandler c) eqn:Hbh; try done; rewrite Hm in E; simpl in E;
    repeat case_match; simplify_eq/=; constructor; simpl;
    rewrite ?Hbr, ?Hh, ?Hbh; unfold Millisecond; eauto; try lia; try done;
    try (left; split_and!; eauto; done); try (right; split_and!; eauto; lia);
    try apply empty_unmanaged.
Qed.

(** ** Properties *)

(** A subscriber that [New] returns is completely configured, whatever
    options were given in whatever order: the topic, the group and every broker
    address are non-empty; exactly one handler is set, the one its mode calls,
    and in batch mode the size and timeout are positive; the poll timeout is at
    least 10 ms; a strategy and a consumer factory are set; and no key the
    library manages is left in the Kafka configuration. *)
Theorem New_accepted {W} `{GoRangeLaws} driver_New skip (options : list (Option_ (W:=W))) cfg :
  New driver_New skip options = inl cfg → accepted cfg.
Proof. apply New_accepts. Qed.

(** The order of the options does not matter: given each kind
    of option at most once, two orders either both build the same configuration
    or both fail.  In particular a batch size or timeout may come before or after
    the batch handler whose defaults it replaces. *)
Theorem New_option_order {W} `{GoRangeLaws} driver_New skip (options options' : list (Option_ (W:=W))) :
  options ≡ₚ options' → NoDup (option_kind <$> options) →
  match New driver_New skip options, New driver_New skip options' with
  | inl cfg, inl cfg' => cfg = cfg'
  | inr _, inr _ => True
  | _, _ => False
  end.
Proof.
  intros Hp Hnd. unfold New.
  destruct (apply_options_perm _ _ Hp Hnd zero_Config) as [->|[Hb Hb']].
  - destruct (apply_options options' _); [|done]. by destruct (Validate _).
  - assert (∀ c : Config (W:=W), bad (inl c) → is_Some (Validate c)) as Hv.
    { intros c [[h Hh] [h' Hh']]. unfold Validate. rewrite Hh, Hh'. repeat case_match; done. }
    destruct (apply_options options _) as [c|], (apply_options options' _) as [c'|];
      try apply Hv in Hb as [? ->]; try apply Hv in Hb' as [? ->]; done.
Qed.

(** ** Witnesses *)

Module Ex_options.
Definition W : Type := unit.
Definition factory : DriverConfig → W → (Consumer W + goerr) * W := λ _ w, (inr (errors_New "no broker"), w).
Definition skip : ErrorStrategy W :=
  {| es_Name := "skip"; es_HandleError := λ _ _ w, (None, w);
     es_Initializable := None; es_LoggerAware := None |}.
Definition handler : BatchHandler W :=
  λ _ w, ({| bc_fails := []; bc_writes := []; bc_outcome := Returned None |}, w).
Definition options : list (Option_ (W:=W)) :=
  [OptTopic "orders"; OptBrokers ["broker:9092"]; OptConsumerGroup "billing"; OptBatchSize 7;
   OptBatchHandler (Some handler);
   OptKafkaConfig (Some {["auto.offset.reset" := AString "latest"]})].

End Ex_options.
Import Ex_options.

Lemma New_accepted_witness :
  match @New W range_canonical factory skip options with
  | inl cfg => accepted cfg ∧ cfg_BatchSize cfg = 7 ∧ cfg_BatchTimeout cfg = 5 * Second
  | inr _ => False
  end.
Proof.
  destruct (@New W range_canonical factory skip options) as [cfg|e] eqn:E; [|by vm_compute in E].
  split; [exact (@New_accepted W range_canonical range_canonical_laws _ _ _ _ E)|].
  vm_compute in E. injection E as <-. by split.
Defined.

Lemma New_option_order_witness :
  match @New W range_canonical factory skip options,
        @New W range_canonical factory skip (reverse options) with
  | inl cfg, inl cfg' => cfg = cfg'
  | inr _, inr _ => True
  | _, _ => False
  end.
Proof.
  apply (@New_option_order W range_canonical range_canonical_laws).
  - by rewrite reverse_Permutation.
  - by apply (bool_decide_unpack _); vm_compute.
Defined.
