(* ===== verification/Strategies.v ===== *)
(** * Skip and fail-fast (internal/subscribe/strategy/skip.go, fail_fast.go)

    The two strategies that hold no state but their logger.  [log] appends a
    line to the log of the world. *)
From S2P Require Import Prelude GoStrings GoErrors LogCode Types ConsumerApi.

Section strategies.
Context {W : Type} (log : log_line → W → W).

(** [SkipStrategy.HandleError]: one line per message, and nil. *)
Fixpoint skip_HandleError (msgs : list Message) (f : Failure) (w : W) : option goerr * W :=
  match msgs with
  | [] => (None, w)
  | _ :: msgs => skip_HandleError msgs f (log (LogLine Warn_ (Some MessageSkipped)) w)
  end.
Definition NewSkipStrategy : ErrorStrategy W :=
  {| es_Name := "skip"; es_HandleError := skip_HandleError;
     es_Initializable := None; es_LoggerAware := Some (λ _ w, w) |}.

(** [%w] with a nil error prints ["%!w(<nil>)"] and wraps nothing. *)
Definition verb_w (err : option goerr) : string :=
  match err with Some e => error_text e | None => "%!w(<nil>)" end.

(** [FailFastStrategy.HandleError]. *)
Definition failfast_HandleError (msgs : list Message) (failure : Failure) (w : W) :
    option goerr * W :=
  let w := log (LogLine Error_ None) w in
  match msgs with
  | m :: _ =>
      (Some (EErrorf ("fail-fast: handler error on topic=" +:+ msg_Topic m +:+ " partition=" +:+
                      Itoa (msg_Partition m) +:+ " offset=" +:+ FormatInt (msg_Offset m) +:+ ": " +:+
                      verb_w (f_Err failure)) (option_list (f_Err failure))), w)
  | [] => (Some (EErrorf ("fail-fast: handler error: " +:+ verb_w (f_Err failure))
                         (option_list (f_Err failure))), w)
  end.
Definition NewFailFastStrategy : ErrorStrategy W :=
  {| es_Name := "fail-fast"; es_HandleError := failfast_HandleError;
     es_Initializable := None; es_LoggerAware := Some (λ _ w, w) |}.

(** ** Properties *)

Lemma skip_logs msgs f : ∀ w,
  skip_HandleError msgs f w =
    (None, Nat.iter (length msgs) (log (LogLine Warn_ (Some MessageSkipped))) w).
Proof.
  induction msgs as [|m msgs IH]; intros w; simpl; [done|].
  by rewrite IH, Nat.iter_swap.
Qed.
End strategies.

(** Skip resolves every failure, with one log line per
    message; fail-fast resolves none: it always returns an error, and
    [errors.Is] finds in it exactly what it finds in the handler's error. *)
Theorem builtin_verdicts {W} (log : log_line → W → W) msgs f w target :
  (es_HandleError (NewSkipStrategy log) msgs f w).1 = None ∧
  (es_HandleError (NewSkipStrategy log) msgs f w).2 =
    Nat.iter (length msgs) (log (LogLine Warn_ (Some MessageSkipped))) w ∧
  is_Some (es_HandleError (NewFailFastStrategy log) msgs f w).1 ∧
  errors_Is (es_HandleError (NewFailFastStrategy log) msgs f w).1 target =
    errors_Is (f_Err f) target.
Proof.
  cbn [es_HandleError NewSkipStrategy NewFailFastStrategy]. rewrite skip_logs. split_and!; try done.
  - by destruct msgs.
  - destruct msgs; unfold failfast_HandleError; cbn [fst]; rewrite errors_Is_errorf;
      destruct (f_Err f); simpl; by rewrite ?orb_false_r.
Qed.
