(* ===== verification/Subscriber.v ===== *)
(** * The subscriber (subscribe/subscriber.go)

    Start, the two poll loops, the dispatch of messages and batches, and the
    offset stores and commits.  The Kafka consumer, the error strategy, the
    handlers, the clock and the context are arbitrary: each acts on the world
    [W].  A run records what the subscriber did, in order, as a trace of events;
    the trace is the model's own record and no step of the program reads it. *)
From S2P Require Import Prelude GoStrings GoErrors GoTime LogCode GoAny Types Buffer ConsumerApi.
From S2P Require Import SubscribeOptions.

Definition stateCreated : Z := 0.
Definition stateRunning : Z := 1.
Definition stateStopping : Z := 2.
Definition stateStopped : Z := 3.

Definition defaultPollTimeoutMs : Z := 100.

(** What the subscriber did. *)
Inductive event : Type :=
  | EvConnect (err : option goerr)
  | EvSetOnRevoke
  | EvSubscribe (err : option goerr)
  (** a poll: how often partitions were revoked during it, the message, the error *)
  | EvPoll (revokes : nat) (msg : option Message) (err : option goerr)
  (** the handler was called with a message, or the batch handler with a batch *)
  | EvHandled (msg : Message) (call : handler_call)
  | EvBatchHandled (msgs : list Message) (call : batch_call)
  (** the strategy was given these messages with this failure, and answered *)
  | EvStrategy (msgs : list Message) (f : Failure) (err : option goerr)
  | EvStore (topic : string) (partition offset : Z) (err : option goerr)
  | EvMaybeCommit (err : option goerr)
  | EvFinalCommit (err : option goerr)
  | EvClose (err : option goerr)
  | EvInitStrategy (err : option goerr)
  | EvNewConsumer (failed : bool)
  | EvCloseStrategy
  | EvLog (line : log_line).

(** What is outside: [ctx.Done()] closed or not, and [time.Now]. *)
Record Env (W : Type) : Type := {
  ctx_Done : W → bool * W;
  time_Now : W → Time * W;
}.
Arguments ctx_Done {W}. Arguments time_Now {W}.

(** The fields of [Subscriber] that change, whether the consumer has the revoke
    hook, the trace, and the world. *)
Record SubState (W : Type) : Type := mkSubState {
  st_state : Z;
  st_buf : option Buffer;
  st_hook : bool;
  st_trace : list event;
  st_world : W;
}.
Arguments mkSubState {W}. Arguments st_state {W}. Arguments st_buf {W}. Arguments st_hook {W}.
Arguments st_trace {W}. Arguments st_world {W}.

(** How an iteration of a loop ends. *)
Inductive control : Type :=
  | Continue_
  | Break_ (loopErr : option goerr).

(** The text of the runtime error a nil pointer dereference panics with. *)
Definition nil_dereference : string :=
  "runtime error: invalid memory address or nil pointer dereference".

Section subscriber.
Context {W : Type} `{GoRange} (env : Env W).
Context (cfg : Config (W:=W)).
Abbreviation M := (ST (SubState W)).

(** ** Primitive steps *)

Definition emit (e : event) : M unit :=
  modify (λ s, mkSubState (st_state s) (st_buf s) (st_hook s) (st_trace s ++ [e]) (st_world s)).
Definition set_state (x : Z) : M unit :=
  modify (λ s, mkSubState x (st_buf s) (st_hook s) (st_trace s) (st_world s)).
Definition set_buf (b : option Buffer) : M unit :=
  modify (λ s, mkSubState (st_state s) b (st_hook s) (st_trace s) (st_world s)).
Definition set_hook : M unit :=
  modify (λ s, mkSubState (st_state s) (st_buf s) true (st_trace s) (st_world s)).
(** Something outside acts. *)
Definition world {A} (f : W → A * W) : M A := λ s,
  let '(x, w) := f (st_world s) in
  (x, mkSubState (st_state s) (st_buf s) (st_hook s) (st_trace s) w).
Definition log (l : level) (c : option logcode) : M unit := emit (EvLog (LogLine l c)).

(** ** Configuration of the driver *)

Definition driverConfig : DriverConfig :=
  {| dc_Brokers := cfg_Brokers cfg; dc_Topic := cfg_Topic cfg; dc_GroupID := cfg_ConsumerGroup cfg;
     dc_KafkaConfig := default ∅ (cfg_KafkaConfig cfg); dc_CommitInterval := cfg_AutoCommitEvery cfg |}.

Definition pollTimeoutMs : Z :=
  let pollTimeoutMs := Z.quot (cfg_PollTimeout cfg) Millisecond in
  if pollTimeoutMs <? 1 then defaultPollTimeoutMs else pollTimeoutMs.

(** ** Calling the handlers *)

Definition panic_failure (text : string) : Failure :=
  {| f_Err := Some (errors_New ("handler panic: " +:+ text)); f_Step := 0; f_Code := EmptyString |}.

(** What a handler call amounts to, after the recover. *)
Definition recover_ (o : outcome) : M (option Failure) :=
  match o with
  | Returned f => mret f
  | Panicked text => log Error_ (Some HandlerPanic) ;; mret (Some (panic_failure text))
  end.

(** The handler sees a copy of the message on its context; its key, payload
    and headers are shared, so the message comes back as the handler left it. *)
Definition dispatchMessage (msg : Message) : M (option Failure * Message) :=
  call ← match cfg_Handler cfg with
         | Some handler => world (handler (Some msg) (msg_Payload msg))
         | None => mret {| hc_outcome := Panicked nil_dereference; hc_writes := None |}
         end;
  emit (EvHandled msg call) ;;
  failure ← recover_ (hc_outcome call);
  mret (failure, write_msg (hc_writes call) msg).

(** The batch handler works on the batch: the result is the verdict on the
    whole batch and the batch as the handler left it. *)
Definition invokeBatchHandler (msgs : list Message) (polled : Batch) :
    M (option Failure * Batch * list Message) :=
  call ← match cfg_BatchHandler cfg with
         | Some handler => world (handler polled)
         | None => mret {| bc_fails := []; bc_writes := []; bc_outcome := Panicked nil_dereference |}
         end;
  emit (EvBatchHandled msgs call) ;;
  whole ← recover_ (bc_outcome call);
  mret (whole, fail_all (bc_fails call) (write_batch (bc_writes call) polled),
        write_msgs (bc_writes call) msgs).

Definition withReason (f : Failure) : M Failure :=
  match f_Err f with
  | Some _ => mret f
  | None =>
      log Warn_ (Some FailureWithoutError) ;;
      mret {| f_Err := Some ErrUnspecified; f_Step := f_Step f; f_Code := f_Code f |}
  end.

(** [s.config.ErrorStrategy.HandleError(ctx, msgs, s.withReason(f, msgs))]. *)
Definition HandleError_ (strategy : ErrorStrategy W) (msgs : list Message) (f : Failure) :
    M (option goerr) :=
  f ← withReason f;
  err ← world (es_HandleError strategy msgs f);
  emit (EvStrategy msgs f err) ;; mret err.

(** ** The driver *)

Section driver.
Context (strategy : ErrorStrategy W) (driver : Consumer W).

(** The function registered with [SetOnRevoke]. *)
Definition revoke_hook : M unit :=
  buf ← gets st_buf;
  match buf with
  | None => mret tt
  | Some b =>
      let '(dropped, b) := Drop b in
      set_buf (Some b) ;;
      if (0 <? dropped)%nat then log Debug_ None else mret tt
  end.
Fixpoint run_hook (n : nat) : M unit :=
  match n with O => mret tt | S n => revoke_hook ;; run_hook n end.

(** One poll: the hook runs as often as partitions are revoked meanwhile, if
    it is registered. *)
Definition poll : M (option Message * option goerr) :=
  r ← world (Poll driver pollTimeoutMs);
  let '(revokes, msg, err) := r in
  hook ← gets st_hook;
  (if hook : bool then run_hook revokes else mret tt) ;;
  emit (EvPoll revokes msg err) ;;
  mret (msg, err).

Definition storeOffset (topic : string) (partition offset : Z) : M (option goerr) :=
  err ← world (StoreOffset driver topic partition offset);
  emit (EvStore topic partition offset err) ;; mret err.

Definition maybeCommit : M unit :=
  err ← world (MaybeCommitStored driver);
  emit (EvMaybeCommit err) ;;
  match err with
  | Some _ => log Warn_ (Some CommitFailed)
  | None => mret tt
  end.

Definition wrap_err (what : string) (err : goerr) : goerr :=
  EErrorf (what +:+ ": " +:+ error_text err) [err].

(** ** Single-message mode *)

(** The message is accounted for: store its offset and publish the store. *)
Definition finish_message (msg : Message) : M control :=
  err ← storeOffset (msg_Topic msg) (msg_Partition msg) (msg_Offset msg);
  match err with
  | Some e =>
      if errors_Is err ErrPartitionRevoked then log Debug_ None ;; mret Continue_
      else
        log Error_ (Some OffsetStoreFailed) ;; set_state stateStopping ;;
        mret (Break_ (Some (wrap_err "store offset" e)))
  | None => maybeCommit ;; mret Continue_
  end.

Definition single_message (msg : Message) : M control :=
  r ← dispatchMessage msg;
  let '(failure, msg) := r in
  strategyErr ← match failure with
                | Some f => HandleError_ strategy [msg] f
                | None => mret None
                end;
  match strategyErr with
  | Some e =>
      log Error_ (Some StoppedByStrategy) ;; set_state stateStopping ;;
      mret (Break_ (Some (wrap_err "error strategy" e)))
  | None => finish_message msg
  end.

(** The head of either loop, and its poll: [body] gets what was polled. *)
Definition iteration (body : option Message → M control) : M control :=
  state ← gets st_state;
  if negb (state =? stateRunning) then mret (Break_ None)
  else
    done ← world (ctx_Done env);
    if done : bool then set_state stateStopping ;; mret Continue_
    else
      state ← gets st_state;
      if negb (state =? stateRunning) then mret (Break_ None)
      else
        r ← poll;
        let '(msg, err) := r in
        match err with
        | Some e =>
            log Error_ (Some PollFatal) ;; set_state stateStopping ;;
            mret (Break_ (Some (wrap_err "polling error" e)))
        | None => body msg
        end.

Definition single_step : M control :=
  iteration (λ msg, match msg with None => mret Continue_ | Some m => single_message m end).

(** ** Batch mode *)

Fixpoint route_items (its : list BatchItem) : M (option goerr) :=
  match its with
  | [] => mret None
  | item :: its =>
      match item_Failed item with
      | None => route_items its
      | Some failure =>
          err ← HandleError_ strategy [item_Message item] failure;
          match err with Some _ => mret err | None => route_items its end
      end
  end.
Definition routeBatchFailures (msgs : list Message) (polled : Batch) (whole : option Failure) :
    M (option goerr) :=
  match whole with
  | Some whole => HandleError_ strategy msgs whole
  | None => route_items (Items polled)
  end.

(** The highest offset of each topic and partition. *)
Definition raise_highest (highest : gmap (string * Z) Z) (m : Message) : gmap (string * Z) Z :=
  let tp := (msg_Topic m, msg_Partition m) in
  match highest !! tp with
  | Some off => if off <? msg_Offset m then <[tp := msg_Offset m]> highest else highest
  | None => <[tp := msg_Offset m]> highest
  end.
Definition highest_offsets (msgs : list Message) : gmap (string * Z) Z :=
  foldl raise_highest ∅ msgs.

Fixpoint store_all (tps : list (string * Z * Z)) (fatal : option goerr) : M (option goerr) :=
  match tps with
  | [] => mret fatal
  | (topic, partition, offset) :: tps =>
      err ← storeOffset topic partition offset;
      match err with
      | None => store_all tps fatal
      | Some _ =>
          if errors_Is err ErrPartitionRevoked then log Debug_ None ;; store_all tps fatal
          else store_all tps (errors_Join [fatal; err])
      end
  end.
Definition storeHighestOffsetPerPartition (msgs : list Message) : M (option goerr) :=
  store_all (go_range (highest_offsets msgs)) None.

Definition dispatchBatch (msgs : list Message) : M (option goerr) :=
  r ← invokeBatchHandler msgs (NewBatchFromBuffer msgs);
  let '(whole, polled, msgs) := r in
  err ← routeBatchFailures msgs polled whole;
  match err with
  | Some e => log Error_ (Some StoppedByStrategy) ;; mret (Some (wrap_err "error strategy" e))
  | None =>
      fatal ← storeHighestOffsetPerPartition msgs;
      maybeCommit ;;
      match fatal with
      | Some e => log Error_ (Some OffsetStoreFailed) ;; mret (Some (wrap_err "store offset" e))
      | None => mret None
      end
  end.

(** [buf.Add(msg)]: the clock is read for the first message only. *)
Definition buf_Add (b : Buffer) (msg : Message) : M Buffer :=
  if (buffer_Len b =? 0)%nat then
    now ← world (time_Now env); mret (buffer_Add now msg b)
  else mret (buffer_Add zero_Time msg b).
(** [buf.TimedOut()]: the clock is read unless the buffer is empty. *)
Definition buf_TimedOut (b : Buffer) : M bool :=
  if (buffer_Len b =? 0)%nat then mret false
  else now ← world (time_Now env); mret (TimedOut now b).

Definition batch_body (msg : option Message) : M control :=
  buf ← gets st_buf;
  match buf with
  | None => mret (Break_ None) (* unreachable: Start makes the buffer *)
  | Some b =>
      b ← match msg with Some m => buf_Add b m | None => mret b end;
      set_buf (Some b) ;;
      flush ← (if Ready b then mret true else buf_TimedOut b);
      if flush : bool then
        let '(msgs, b) := Flush b in
        set_buf (Some b) ;;
        match msgs with
        | None => mret Continue_
        | Some msgs =>
            err ← dispatchBatch msgs;
            match err with
            | Some _ => set_state stateStopping ;; mret (Break_ err)
            | None => mret Continue_
            end
        end
      else mret Continue_
  end.
Definition batch_step : M control := iteration batch_body.

(** ** The loops

    [runSingleLoop] and [runBatchLoop]; [None] when [fuel] iterations were
    not enough. *)
Fixpoint loop (step : M control) (fuel : nat) : M (option (option goerr)) :=
  match fuel with
  | O => mret None
  | S fuel =>
      c ← step;
      match c with
      | Break_ err => mret (Some err)
      | Continue_ => loop step fuel
      end
  end.
Definition runSingleLoop : nat → M (option (option goerr)) := loop single_step.
Definition runBatchLoop : nat → M (option (option goerr)) := loop batch_step.

Definition is_batch : bool := String.eqb (cfg_Mode cfg) ModeBatch.

Definition connect : M (option goerr) :=
  err ← world (Connect driver); emit (EvConnect err) ;; mret err.
Definition subscribe_ : M (option goerr) :=
  err ← world (SubscribeToTopic driver); emit (EvSubscribe err) ;; mret err.
Definition register_hook : M unit :=
  world (λ w, (tt, SetOnRevoke driver w)) ;; set_hook ;; emit EvSetOnRevoke.
Definition close_driver : M (option goerr) :=
  err ← world (Close driver); emit (EvClose err) ;; mret err.

(** [run]. *)
Definition run (fuel : nat) : M (option (option goerr)) :=
  err ← connect;
  match err with
  | Some e => mret (Some (Some (wrap_err "failed to connect" e)))
  | None =>
      (if is_batch then register_hook else mret tt) ;;
      err ← subscribe_;
      match err with
      | Some e => close_driver ;; mret (Some (Some (wrap_err "failed to subscribe" e)))
      | None =>
          r ← (if is_batch then runBatchLoop fuel else runSingleLoop fuel);
          match r with
          | None => mret None
          | Some loopErr =>
              err ← world (CommitStored driver);
              emit (EvFinalCommit err) ;;
              match err with Some _ => log Warn_ (Some CommitFailed) | None => mret tt end ;;
              err ← close_driver;
              match err with Some _ => log Error_ (Some ConsumerCloseFailed) | None => mret tt end ;;
              mret (Some loopErr)
          end
      end
  end.
End driver.

(** ** Start *)

Definition init_strategy (strategy : ErrorStrategy W) : M (option goerr) :=
  match es_Initializable strategy with
  | None => mret None
  | Some (Initialize, _) =>
      err ← world (Initialize {| ic_Brokers := cfg_Brokers cfg;
                                 ic_ConsumerGroup := cfg_ConsumerGroup cfg;
                                 ic_KafkaConfig := default ∅ (cfg_KafkaConfig cfg);
                                 ic_Logger := cfg_Logger cfg |});
      emit (EvInitStrategy err) ;; mret err
  end.
Definition close_strategy (strategy : ErrorStrategy W) : M unit :=
  match es_Initializable strategy with
  | None => mret tt
  | Some (_, Close) => world Close ;; emit EvCloseStrategy
  end.
Definition set_logger (strategy : ErrorStrategy W) : M unit :=
  match es_LoggerAware strategy with
  | None => mret tt
  | Some SetLogger => world (λ w, (tt, SetLogger (cfg_Logger cfg) w))
  end.

(** What [Start] does once it has claimed the subscriber. *)
Definition start_claimed (strategy : ErrorStrategy W)
    (newConsumer : DriverConfig → W → (Consumer W + goerr) * W) (fuel : nat) :
    M (option (option goerr)) :=
  log Info_ None ;;
  err ← init_strategy strategy;
  match err with
  | Some e => mret (Some (Some (wrap_err "failed to initialize error strategy" e)))
  | None =>
      set_logger strategy ;;
      r ← world (newConsumer driverConfig);
      match r with
      | inr e =>
          emit (EvNewConsumer true) ;; close_strategy strategy ;;
          mret (Some (Some (wrap_err "failed to create kafka consumer" e)))
      | inl driver =>
          emit (EvNewConsumer false) ;;
          (if is_batch then set_buf (Some (NewBuffer (cfg_BatchSize cfg) (cfg_BatchTimeout cfg)))
           else mret tt) ;;
          log Info_ None ;;
          r ← run strategy driver fuel;
          match r with
          | None => mret None
          | Some err => close_strategy strategy ;; log Info_ None ;; mret (Some err)
          end
      end
  end.

(** [Start]; [None] when the fuel ran out, and a nil function panics. *)
Definition Start (fuel : nat) : M (option (option goerr)) :=
  state ← gets st_state;
  if negb (state =? stateCreated) then
    mret (Some (Some (errors_New "subscriber already started or stopped")))
  else
    set_state stateRunning ;;
    match cfg_ErrorStrategy cfg, cfg_newConsumer cfg with
    | Some strategy, Some newConsumer =>
        r ← start_claimed strategy newConsumer fuel;
        match r with
        | None => mret None
        | Some err => set_state stateStopped ;; mret (Some err)
        end
    | _, _ => set_state stateStopped ;; mret None
    end.

(** A subscriber fresh from [New]. *)
Definition created (w : W) : SubState W := mkSubState stateCreated None false [] w.
End subscriber.

(** ** Lemmas *)

Definition msg_tp (m : Message) : string * Z := (msg_Topic m, msg_Partition m).

Lemma lookup_raise_highest h m tp :
  raise_highest h m !! tp =
    if decide (msg_tp m = tp) then Some (from_option (Z.max (msg_Offset m)) (msg_Offset m) (h !! tp))
    else h !! tp.
Proof.
  unfold raise_highest. fold (msg_tp m). destruct (decide (msg_tp m = tp)) as [<-|Hne].
  - destruct (h !! msg_tp m) as [off|] eqn:E; simpl; [|by rewrite lookup_insert_eq].
    destruct (Z.ltb_spec off (msg_Offset m)); rewrite ?lookup_insert_eq, ?E; f_equal; lia.
  - repeat case_match; by rewrite ?lookup_insert_ne.
Qed.

(** [highest_offsets] is the maximum per partition. *)
Lemma highest_offsets_spec msgs tp :
  match highest_offsets msgs !! tp with
  | Some o => (∃ m, m ∈ msgs ∧ msg_tp m = tp ∧ msg_Offset m = o) ∧
              (∀ m, m ∈ msgs → msg_tp m = tp → msg_Offset m ≤ o)
  | None => ∀ m, m ∈ msgs → msg_tp m ≠ tp
  end.
Proof.
  unfold highest_offsets. induction msgs as [|m msgs IH] using rev_ind.
  { simpl. rewrite lookup_empty. by intros m ?%not_elem_of_nil. }
  rewrite foldl_app. cbn [foldl]. rewrite lookup_raise_highest.
  assert (∀ y, y ∈ msgs ++ [m] ↔ y ∈ msgs ∨ y = m) as Hin.
  { intros y. by rewrite elem_of_app, list_elem_of_singleton. }
  destruct (decide (msg_tp m = tp)) as [<-|Hne].
  - destruct (foldl raise_highest ∅ msgs !! msg_tp m) as [off|]; simpl; setoid_rewrite Hin.
    + destruct IH as [(x & Hx & Hxt & Hxo) Hle]. split.
      * destruct (Z.max_spec (msg_Offset m) off) as [[? ->]|[? ->]]; [exists x|exists m]; auto.
      * intros y [Hy| ->] Hyt; [specialize (Hle y Hy Hyt)|]; lia.
    + split; [by exists m; auto|]. intros y [Hy| ->] Hyt; [|lia]. by destruct (IH y Hy).
  - destruct (foldl raise_highest ∅ msgs !! tp) as [off|]; setoid_rewrite Hin.
    + destruct IH as [(x & Hx & Hxt & Hxo) Hle]. split; [by exists x; auto|].
      intros y [Hy| ->] Hyt; [by apply Hle|done].
    + intros y [Hy| ->]; [by apply IH|done].
Qed.

(** ** A concrete subscriber, for the witnesses of the properties

    The context stays open for a number of checks, polls follow a script, the
    broker accepts every store, and the handlers fail odd offsets. *)
Module Ex_subscriber.
Definition W : Type := nat * list (nat * option Message * option goerr).
Definition env : Env W :=
  {| ctx_Done := λ w, match w.1 with O => (true, w) | S n => (false, (n, w.2)) end;
     time_Now := λ w, ({| unix_ns := 1700000000000000000; zone := 0 |}, w) |}.
Definition consumer : Consumer W :=
  {| Connect := λ w, (None, w); SubscribeToTopic := λ w, (None, w);
     Poll := λ _ w, match w.2 with [] => ((0%nat, None, None), w) | p :: ps => (p, (w.1, ps)) end;
     StoreOffset := λ _ _ _ w, (None, w); CommitStored := λ w, (None, w);
     MaybeCommitStored := λ w, (None, w); SetOnRevoke := λ w, w; Close := λ w, (None, w) |}.
Definition message (partition offset : Z) : Message :=
  {| msg_Topic := "orders"; msg_Partition := partition; msg_Offset := offset; msg_Timestamp := zero_Time;
     msg_Key := None; msg_Headers := None; msg_Payload := Some "x" |}.
Definition failure : Failure :=
  {| f_Err := Some (errors_New "bad order"); f_Step := 2; f_Code := "BAD" |}.
Definition handler : Handler W := λ m _ w,
  ({| hc_outcome := Returned (m ← m; if Z.odd (msg_Offset m) then Some failure else None);
      hc_writes := None |}, w).
Definition batch_handler : BatchHandler W := λ b w,
  ({| bc_fails := concat (imap (λ i it, if Z.odd (msg_Offset (item_Message it)) then [(i, failure)] else [])
                            (Items b));
      bc_writes := []; bc_outcome := Returned None |}, w).
Definition skip : ErrorStrategy W :=
  {| es_Name := "skip"; es_HandleError := λ _ _ w, (None, w);
     es_Initializable := None; es_LoggerAware := None |}.
Definition config (batch : bool) : Config (W:=W) :=
  mkConfig "orders" ["broker:9092"] "billing"
    (if batch then None else Some handler) (if batch then Some batch_handler else None)
    (if batch then ModeBatch else ModeSingleMessage) 3 (5 * Second) (100 * Millisecond) 0
    (Some skip) (Some ∅) (Some (λ _ w, (inl consumer, w))) Nop.
(** Four records on two partitions, with a revocation after the first. *)
Definition script : list (nat * option Message * option goerr) :=
  [(0%nat, Some (message 0 6), None); (1%nat, None, None); (0%nat, Some (message 0 6), None);
   (0%nat, Some (message 1 9), None); (0%nat, Some (message 0 7), None)].
Definition w0 : W := (6%nat, script).
End Ex_subscriber.
