(* ===== verification/Walk.v ===== *)
(** * Walking through a run of the subscriber

    What a property of the trace and the world has to do with each outside call to
    hold throughout a run: the clock, the context, the handlers, the strategy and
    the consumer.  The calls of a handler, of a strategy and of [StoreOffset] are
    looked at together with the event they leave. *)
From S2P Require Import Prelude GoErrors GoTime LogCode Types Buffer ConsumerApi SubscribeOptions Subscriber.

(** An event that is not of such a call. *)
Definition unmarked (e : event) : Prop :=
  match e with
  | EvHandled _ _ | EvBatchHandled _ _ | EvStrategy _ _ _ | EvStore _ _ _ _ => False
  | _ => True
  end.

(** The call of a handler. *)
Definition handler_called {W} (cfg : Config (W:=W)) (m : Message) (w : W) : handler_call * W :=
  match cfg_Handler cfg with
  | Some h => h (Some m) (msg_Payload m) w
  | None => ({| hc_outcome := Panicked nil_dereference; hc_writes := None |}, w)
  end.
Definition batch_called {W} (cfg : Config (W:=W)) (msgs : list Message) (w : W) : batch_call * W :=
  match cfg_BatchHandler cfg with
  | Some h => h (NewBatchFromBuffer msgs) w
  | None => ({| bc_fails := []; bc_writes := []; bc_outcome := Panicked nil_dereference |}, w)
  end.

Section property.
Context {W : Type} (P : list event → W → Prop).

Definition steady (w w' : W) : Prop := ∀ tr, P tr w → P tr w'.

Record driver_steady (driver : Consumer W) : Prop := {
  ds_Connect w : steady w (Connect driver w).2;
  ds_Subscribe w : steady w (SubscribeToTopic driver w).2;
  ds_Poll t w : steady w (Poll driver t w).2;
  ds_Commit w : steady w (CommitStored driver w).2;
  ds_MaybeCommit w : steady w (MaybeCommitStored driver w).2;
  ds_SetOnRevoke w : steady w (SetOnRevoke driver w);
  ds_Close w : steady w (Close driver w).2;
  ds_StoreOffset t p o w tr : P tr w →
    P (tr ++ [EvStore t p o (StoreOffset driver t p o w).1]) (StoreOffset driver t p o w).2;
}.
Record application_steady (env : Env W) (cfg : Config (W:=W)) : Prop := {
  as_emit e tr w : unmarked e → P tr w → P (tr ++ [e]) w;
  as_done w : steady w (ctx_Done env w).2;
  as_now w : steady w (time_Now env w).2;
  as_handler m w tr : P tr w → P (tr ++ [EvHandled m (handler_called cfg m w).1]) (handler_called cfg m w).2;
  as_batch ms w tr : P tr w → P (tr ++ [EvBatchHandled ms (batch_called cfg ms w).1]) (batch_called cfg ms w).2;
  as_strategy s ms f w tr : cfg_ErrorStrategy cfg = Some s → P tr w →
    P (tr ++ [EvStrategy ms f (es_HandleError s ms f w).1]) (es_HandleError s ms f w).2;
  as_init s i c : cfg_ErrorStrategy cfg = Some s → es_Initializable s = Some (i, c) →
    (∀ ic w, steady w (i ic w).2) ∧ (∀ w, steady w (c w).2);
  as_logger s l lg w : cfg_ErrorStrategy cfg = Some s → es_LoggerAware s = Some l → steady w (l lg w);
}.
(** It is enough that the handlers leave the property alone, for one that is not
    about them. *)
Lemma handlers_steady cfg :
  (∀ e tr w, match e with EvStrategy _ _ _ | EvStore _ _ _ _ => False | _ => True end → P tr w → P (tr ++ [e]) w) →
  (∀ h m p w, cfg_Handler cfg = Some h → steady w (h m p w).2) →
  (∀ h b w, cfg_BatchHandler cfg = Some h → steady w (h b w).2) →
  (∀ e tr w, unmarked e → P tr w → P (tr ++ [e]) w) ∧
  (∀ m w tr, P tr w → P (tr ++ [EvHandled m (handler_called cfg m w).1]) (handler_called cfg m w).2) ∧
  (∀ ms w tr, P tr w → P (tr ++ [EvBatchHandled ms (batch_called cfg ms w).1]) (batch_called cfg ms w).2).
Proof.
  intros He Hh Hb. split_and!.
  - intros e tr w Hu. apply He. by destruct e.
  - intros m w tr Htr. apply He; [done|]. unfold handler_called. destruct (cfg_Handler cfg) as [h|] eqn:E; [by apply (Hh h)|done].
  - intros ms w tr Htr. apply He; [done|]. unfold batch_called.
    destruct (cfg_BatchHandler cfg) as [h|] eqn:E; [by apply (Hb h)|done].
Qed.
Definition factory_steady (cfg : Config (W:=W)) : Prop :=
  ∀ n w, cfg_newConsumer cfg = Some n →
    steady w (n (driverConfig cfg) w).2 ∧
    ∀ d, (n (driverConfig cfg) w).1 = inl d → driver_steady d.

(** The computation preserves the property. *)
Definition pres {A} (c : ST (SubState W) A) : Prop :=
  ∀ s, P (st_trace s) (st_world s) → P (st_trace (c s).2) (st_world (c s).2).

Lemma pres_ret {A} (x : A) : pres (mret x).
Proof. by intros s. Qed.
Lemma pres_bind {A B} (c : ST (SubState W) A) (f : A → ST (SubState W) B) :
  pres c → (∀ x, pres (f x)) → pres (c ≫= f).
Proof.
  intros Hc Hf s Hs. unfold mbind, ST_bind. specialize (Hc s Hs). destruct (c s) as [x s']. by apply Hf.
Qed.
Lemma pres_gets {A} (f : SubState W → A) : pres (gets f).
Proof. by intros s. Qed.
Lemma pres_set_state x : pres (set_state x).
Proof. by intros s. Qed.
Lemma pres_set_buf b : pres (set_buf b).
Proof. by intros s. Qed.
Lemma pres_set_hook : pres set_hook.
Proof. by intros s. Qed.
Lemma pres_world {A} (f : W → A * W) : (∀ w, steady w (f w).2) → pres (world f).
Proof.
  intros Hf s Hs. unfold world. specialize (Hf (st_world s) _ Hs). by destruct (f (st_world s)).
Qed.
Lemma pres_bind_world {A B} (f : W → A * W) (k : A → ST (SubState W) B) :
  (∀ w, steady w (f w).2) → (∀ x w, (f w).1 = x → pres (k x)) → pres (world f ≫= k).
Proof.
  intros Hf Hk s Hs. pose proof (pres_world f Hf s Hs) as Hw. unfold mbind, ST_bind, world in *.
  specialize (Hk (f (st_world s)).1 (st_world s) eq_refl). destruct (f (st_world s)) as [a w].
  by apply Hk.
Qed.
(** A call, with the event it leaves. *)
Lemma pres_call {A B} (f : W → A * W) (ev : A → event) (k : A → ST (SubState W) B) :
  (∀ w tr, P tr w → P (tr ++ [ev (f w).1]) (f w).2) → (∀ x, pres (k x)) →
  pres (x ← world f; emit (ev x) ;; k x).
Proof.
  intros Hf Hk s Hs. specialize (Hf _ _ Hs). unfold mbind, ST_bind, world, emit, modify.
  destruct (f (st_world s)) as [x w]. by apply Hk.
Qed.
Lemma pres_emitted {B} e (k : ST (SubState W) B) :
  (∀ w tr, P tr w → P (tr ++ [e]) w) → pres k → pres (emit e ;; k).
Proof. intros He Hk s Hs. by apply Hk, He. Qed.
End property.

Create HintDb walk discriminated.
#[export] Hint Resolve pres_ret pres_gets pres_set_state pres_set_buf pres_set_hook : walk.
#[export] Hint Extern 1 (unmarked _) => exact I : walk.
(** Walk through a computation, splitting its branches. *)
Ltac walk_step :=
  repeat (simpl; intros; first
    [ assumption
    | solve [auto with walk]
    | apply pres_bind
    | match goal with |- pres _ (match ?x with _ => _ end) => destruct x eqn:? end
    | apply pres_world ]).

Section run.
Context {W : Type} `{GoRange} (P : list event → W → Prop).
Context (env : Env W) (cfg : Config (W:=W)) (Happ : application_steady P env cfg).

Lemma pres_emit e : unmarked e → pres P (emit e).
Proof. intros He s Hs. by apply (as_emit _ _ _ Happ). Qed.
Lemma pres_log l c : pres P (log l c).
Proof. by apply pres_emit. Qed.
Hint Resolve pres_emit pres_log : walk.
Lemma pres_recover o : pres P (recover_ o).
Proof. unfold recover_. walk_step. Qed.
Hint Resolve pres_recover : walk.

Section driver.
Context (strategy : ErrorStrategy W) (Hst : cfg_ErrorStrategy cfg = Some strategy).
Context (driver : Consumer W) (Hdriver : driver_steady P driver).

Lemma pres_HandleError msgs f : pres P (HandleError_ strategy msgs f).
Proof.
  unfold HandleError_. apply pres_bind; [unfold withReason; walk_step|]. intros f'.
  apply (pres_call P _ (EvStrategy msgs f')); [|walk_step]. intros w tr. by apply (as_strategy _ _ _ Happ).
Qed.
Lemma pres_storeOffset t p o : pres P (storeOffset driver t p o).
Proof.
  apply (pres_call P _ (EvStore t p o)); [|walk_step]. intros w tr. by apply (ds_StoreOffset _ _ Hdriver).
Qed.
Hint Resolve pres_HandleError pres_storeOffset : walk.
Lemma pres_maybeCommit : pres P (maybeCommit driver).
Proof. unfold maybeCommit. walk_step. by apply (ds_MaybeCommit _ _ Hdriver). Qed.
Hint Resolve pres_maybeCommit : walk.
Lemma pres_run_hook n : pres P (run_hook n).
Proof. induction n; simpl; unfold revoke_hook; walk_step. Qed.
Hint Resolve pres_run_hook : walk.
Lemma pres_poll : pres P (poll cfg driver).
Proof. unfold poll. walk_step. by apply (ds_Poll _ _ Hdriver). Qed.
Lemma pres_dispatchMessage msg : pres P (dispatchMessage cfg msg).
Proof.
  unfold dispatchMessage. pose proof (as_handler _ _ _ Happ msg) as Hh. unfold handler_called in Hh.
  destruct (cfg_Handler cfg) as [h|].
  - apply (pres_call P _ (EvHandled msg)); [intros w tr; by apply Hh|walk_step].
  - match goal with |- pres P (mret ?c ≫= ?f) => change (pres P (f c)) end.
    apply pres_emitted; [intros w tr; by apply Hh|walk_step].
Qed.
Lemma pres_invokeBatchHandler msgs : pres P (invokeBatchHandler cfg msgs (NewBatchFromBuffer msgs)).
Proof.
  unfold invokeBatchHandler. pose proof (as_batch _ _ _ Happ msgs) as Hh. unfold batch_called in Hh.
  destruct (cfg_BatchHandler cfg) as [h|].
  - apply (pres_call P _ (EvBatchHandled msgs)); [intros w tr; by apply Hh|walk_step].
  - match goal with |- pres P (mret ?c ≫= ?f) => change (pres P (f c)) end.
    apply pres_emitted; [intros w tr; by apply Hh|walk_step].
Qed.
Hint Resolve pres_dispatchMessage pres_invokeBatchHandler : walk.
Lemma pres_single_message msg : pres P (single_message cfg strategy driver msg).
Proof.
  unfold single_message, finish_message. walk_step.
Qed.
Lemma pres_route_items its : pres P (route_items strategy its).
Proof. induction its; walk_step. Qed.
Lemma pres_store_all tps : ∀ fatal, pres P (store_all driver tps fatal).
Proof. induction tps as [|[[t p] o] tps IH]; walk_step. Qed.
Hint Resolve pres_poll pres_single_message pres_route_items pres_store_all : walk.
Lemma pres_dispatchBatch msgs : pres P (dispatchBatch cfg strategy driver msgs).
Proof.
  unfold dispatchBatch, routeBatchFailures, storeHighestOffsetPerPartition. walk_step.
Qed.
Hint Resolve pres_dispatchBatch : walk.
Lemma pres_batch_body msg : pres P (batch_body env cfg strategy driver msg).
Proof. unfold batch_body, buf_Add, buf_TimedOut. walk_step; by apply (as_now _ _ _ Happ). Qed.
Hint Resolve pres_batch_body : walk.
Lemma pres_loop body fuel : (∀ msg, pres P (body msg)) →
  pres P (loop (iteration env cfg driver body) fuel).
Proof.
  intros Hb. induction fuel as [|fuel IH]; walk_step. unfold iteration. walk_step.
  by apply (as_done _ _ _ Happ).
Qed.
Lemma pres_run fuel : pres P (run env cfg strategy driver fuel).
Proof.
  unfold run, connect, register_hook, subscribe_, close_driver, runBatchLoop, runSingleLoop,
    batch_step, single_step. walk_step.
  all: try (apply pres_loop; walk_step).
  all: first [by apply (ds_Connect _ _ Hdriver) | by apply (ds_SetOnRevoke _ _ Hdriver)
             | by apply (ds_Subscribe _ _ Hdriver) | by apply (ds_Close _ _ Hdriver)
             | by apply (ds_Commit _ _ Hdriver)].
Qed.
End driver.

Lemma pres_close_strategy strategy : cfg_ErrorStrategy cfg = Some strategy →
  pres P (close_strategy strategy).
Proof.
  intros Hst. unfold close_strategy. destruct (es_Initializable strategy) as [[i c]|] eqn:E; walk_step.
  by apply (as_init _ _ _ Happ _ _ _ Hst E).
Qed.

Lemma pres_Start fuel : factory_steady P cfg → pres P (Start env cfg fuel).
Proof.
  intros Hfac.
  unfold Start, start_claimed, init_strategy, set_logger.
  destruct (cfg_ErrorStrategy cfg) as [strategy|] eqn:Hst; [|walk_step].
  destruct (cfg_newConsumer cfg) as [n|] eqn:Hn; [|walk_step].
  pose proof (pres_close_strategy strategy Hst) as Hclose.
  apply pres_bind; [walk_step|]. intros state. destruct (negb _); [walk_step|].
  apply pres_bind; [walk_step|]. intros _. apply pres_bind; [|walk_step].
  apply pres_bind; [walk_step|]. intros _. apply pres_bind.
  { destruct (es_Initializable strategy) as [[i c]|] eqn:E; walk_step.
    by apply (as_init _ _ _ Happ _ _ _ Hst E). }
  intros err. destruct err; [walk_step|]. apply pres_bind.
  { walk_step. intros w0. by eapply (as_logger _ _ _ Happ). }
  intros _. apply pres_bind_world; [intros w; by apply (Hfac n w Hn)|].
  intros [driver|e] w Hd; [|walk_step].
  pose proof (proj2 (Hfac n w Hn) driver Hd) as Hlaws.
  pose proof (pres_run strategy Hst driver Hlaws fuel) as Hrun. walk_step.
Qed.
End run.

(** ** The handlers' calls

    A call in the trace is a call of the handler configured, with the message or the
    batch the event names. *)
Definition from_handler {W} (cfg : Config (W:=W)) (e : event) : Prop :=
  match e with
  | EvHandled m call => ∃ w, call = (handler_called cfg m w).1
  | EvBatchHandled ms call => ∃ w, call = (batch_called cfg ms w).1
  | _ => True
  end.
Lemma Start_from_handlers {W} `{GoRange} (env : Env W) cfg fuel w :
  Forall (from_handler cfg) (st_trace (Start env cfg fuel (created w)).2).
Proof.
  set (P := λ (tr : list event) (_ : W), Forall (from_handler cfg) tr).
  assert (∀ w w', steady P w w') as Hs by (by intros ? ? tr).
  assert (∀ e tr w, from_handler cfg e → P tr w → P (tr ++ [e]) w) as He.
  { intros e tr w' He Htr. apply Forall_app. split; [done|by apply Forall_singleton]. }
  apply (pres_Start P); [| |by apply Forall_nil].
  - constructor; try (intros; apply Hs).
    + intros e tr w' Hu. apply He. by destruct e.
    + intros m w' tr. apply He. by exists w'.
    + intros ms w' tr. apply He. by exists w'.
    + intros s ms f w' tr _. by apply He.
    + intros s i c _ _. split; intros; apply Hs.
  - intros n w' _. split; [apply Hs|]. intros d _. constructor; try (intros; apply Hs).
    intros t p o w0 tr. by apply He.
Qed.
