(* ===== verification/AtLeastOnce.v ===== *)
(** * The subscriber's contract: at-least-once delivery

    An abstract machine that accepts the traces a correct subscriber may leave.
    It knows which delivered records have not been given to a handler yet
    ([sp_fresh]) and which a handler has failed and no strategy has taken over
    ([sp_failed]), and it accepts the store of an offset only when the record at
    that offset was delivered and no record of the partition at or below it is in
    either set.  The refinement theorem says that every trace of [Start], with
    any consumer, strategy, handler, clock and context, is accepted. *)
From stdpp Require Import gmultiset.
From S2P Require Import Prelude GoErrors LogCode Types Buffer ConsumerApi SubscribeOptions Subscriber.

(** ** The machine *)

Inductive phase : Type :=
  | PhStart        (* before the consumer is built *)
  | PhNew          (* built, not connected *)
  | PhConnected
  | PhRunning      (* subscribed: records are polled and handled *)
  | PhStoreFailed  (* an offset could not be stored: nothing more is polled *)
  | PhStopped      (* a poll or the strategy failed: nothing more is stored *)
  | PhFinal        (* the final commit is done, or there is nothing to commit *)
  | PhClosed.      (* the connection is closed, or never was *)

Record Spec : Type := mkSpec {
  sp_phase : phase;
  sp_fresh : gmultiset position;
  sp_failed : gmultiset position;
  sp_seen : gset position;  (* every record delivered since the last revocation *)
}.

Definition spec_init : Spec := mkSpec PhStart ∅ ∅ ∅.
Definition at_phase (ph : phase) (sp : Spec) : Spec := mkSpec ph (sp_fresh sp) (sp_failed sp) (sp_seen sp).

Definition positions (msgs : list Message) : gmultiset position := list_to_set_disj (pos <$> msgs).

(** Which records of a batch the handler failed: all of them if it failed the
    batch or panicked, those it called [Fail] on otherwise. *)
Fixpoint failed_from (i : nat) (msgs : list Message) (fs : list (nat * Failure)) : list Message :=
  match msgs with
  | [] => []
  | m :: msgs =>
      if existsb (λ jf, (jf.1 =? i)%nat) fs then m :: failed_from (S i) msgs fs
      else failed_from (S i) msgs fs
  end.
Definition failed_of_batch (msgs : list Message) (call : batch_call) : list Message :=
  match bc_outcome call with
  | Returned None => failed_from 0 msgs (bc_fails call)
  | _ => msgs
  end.
Definition failed_of_call (m : Message) (call : handler_call) : list Message :=
  match hc_outcome call with Returned None => [] | _ => [m] end.

(** [q] is on the partition and at or below the offset. *)
Definition covers (topic : string) (partition offset : Z) (q : position) : bool :=
  String.eqb q.1.1 topic && (q.1.2 =? partition) && (q.2 <=? offset).

(** The offset may be stored. *)
Definition may_store (topic : string) (partition offset : Z) (sp : Spec) : bool :=
  bool_decide ((topic, partition, offset) ∈ sp_seen sp) &&
  forallb (λ q, negb (covers topic partition offset q)) (elements (sp_fresh sp ⊎ sp_failed sp)).

(** A handler is given records that are fresh; those it fails await a strategy. *)
Definition spec_handled (msgs failed : list Message) (sp : Spec) : option Spec :=
  if bool_decide (positions msgs ⊆ sp_fresh sp) then
    Some (mkSpec PhRunning (sp_fresh sp ∖ positions msgs) (sp_failed sp ⊎ positions failed) (sp_seen sp))
  else None.

Definition spec_poll (revokes : nat) (msg : option Message) (err : option goerr) (sp : Spec) : Spec :=
  let sp := if (0 <? revokes)%nat then mkSpec PhRunning ∅ ∅ ∅ else sp in
  let ph := match err with None => PhRunning | Some _ => PhStopped end in
  match msg with
  | None => at_phase ph sp
  | Some m => mkSpec ph ({[+ pos m +]} ⊎ sp_fresh sp) (sp_failed sp) ({[ pos m ]} ∪ sp_seen sp)
  end.

Definition spec_strategy (msgs : list Message) (f : Failure) (err : option goerr) (sp : Spec) :
    option Spec :=
  if bool_decide (is_Some (f_Err f) ∧ positions msgs ⊆ sp_failed sp) then
    match err with
    | None => Some (mkSpec PhRunning (sp_fresh sp) (sp_failed sp ∖ positions msgs) (sp_seen sp))
    | Some _ => Some (at_phase PhStopped sp)
    end
  else None.

Definition spec_step (sp : Spec) (e : event) : option Spec :=
  match e, sp_phase sp with
  | EvLog _, _ => Some sp
  | EvInitStrategy None, PhStart => Some sp
  | EvInitStrategy (Some _), PhStart => Some (at_phase PhClosed sp)
  | EvNewConsumer failed, PhStart => Some (at_phase (if failed then PhClosed else PhNew) sp)
  | EvConnect err, PhNew =>
      Some (at_phase (match err with None => PhConnected | Some _ => PhClosed end) sp)
  | EvSetOnRevoke, PhConnected => Some sp
  | EvSubscribe err, PhConnected =>
      Some (at_phase (match err with None => PhRunning | Some _ => PhFinal end) sp)
  | EvPoll revokes msg err, PhRunning => Some (spec_poll revokes msg err sp)
  | EvHandled m call, PhRunning => spec_handled [m] (failed_of_call m call) sp
  | EvBatchHandled ms call, PhRunning => spec_handled ms (failed_of_batch ms call) sp
  | EvStrategy ms f err, PhRunning => spec_strategy ms f err sp
  | EvStore t p o err, (PhRunning | PhStoreFailed) as ph =>
      if may_store t p o sp then
        Some (at_phase (match err with
                        | None => ph
                        | Some _ => if errors_Is err ErrPartitionRevoked then ph else PhStoreFailed
                        end) sp)
      else None
  | EvMaybeCommit _, (PhRunning | PhStoreFailed) => Some sp
  | EvFinalCommit _, (PhRunning | PhStoreFailed | PhStopped) => Some (at_phase PhFinal sp)
  | EvClose _, PhFinal => Some (at_phase PhClosed sp)
  | EvCloseStrategy, PhClosed => Some sp
  | _, _ => None
  end.

Definition spec_run (tr : list event) : option Spec :=
  foldl (λ sp e, sp ≫= λ sp, spec_step sp e) (Some spec_init) tr.

Lemma spec_run_snoc tr e : spec_run (tr ++ [e]) = (sp ← spec_run tr; spec_step sp e).
Proof. unfold spec_run. by rewrite foldl_app. Qed.

(** ** Reasoning about a run *)

Section proof.
Context {W : Type} `{GoRangeLaws} (env : Env W) (cfg : Config (W:=W)).
Implicit Types s : SubState W.

(** The run so far is accepted and has led to [sp]; the fields are these. *)
Record at_ (x : Z) (b : option Buffer) (h : bool) (sp : Spec) (s : SubState W) : Prop := {
  at_state : st_state s = x;
  at_buf : st_buf s = b;
  at_hook : st_hook s = h;
  at_spec : spec_run (st_trace s) = Some sp;
}.

Lemma at_sp x b h sp sp' s : at_ x b h sp s → sp = sp' → at_ x b h sp' s.
Proof. by intros ? <-. Qed.
Lemma post_world {A} (f : W → A * W) Q x b h sp s :
  at_ x b h sp s → (∀ a s', at_ x b h sp s' → Q a s') → post (world f) Q s.
Proof.
  intros [] HQ. unfold post, world. destruct (f (st_world s)) as [a w]. simpl. apply HQ.
  by constructor.
Qed.
Lemma post_emit e (Q : unit → SubState W → Prop) x b h sp sp' s :
  at_ x b h sp s → spec_step sp e = Some sp' → (∀ s', at_ x b h sp' s' → Q tt s') →
  post (emit e) Q s.
Proof.
  intros [] Hst HQ. apply post_modify, HQ. constructor; simpl; try done.
  rewrite spec_run_snoc, at_spec0. done.
Qed.
Lemma post_log l c (Q : unit → SubState W → Prop) x b h sp s :
  at_ x b h sp s → (∀ s', at_ x b h sp s' → Q tt s') → post (log l c) Q s.
Proof. intros. by eapply post_emit. Qed.
Lemma post_set_state x' (Q : unit → SubState W → Prop) x b h sp s :
  at_ x b h sp s → (∀ s', at_ x' b h sp s' → Q tt s') → post (set_state x') Q s.
Proof. intros [] HQ. apply post_modify, HQ. by constructor. Qed.
Lemma post_set_buf b' (Q : unit → SubState W → Prop) x b h sp s :
  at_ x b h sp s → (∀ s', at_ x b' h sp s' → Q tt s') → post (set_buf b') Q s.
Proof. intros [] HQ. apply post_modify, HQ. by constructor. Qed.
Lemma post_set_hook (Q : unit → SubState W → Prop) x b h sp s :
  at_ x b h sp s → (∀ s', at_ x b true sp s' → Q tt s') → post set_hook Q s.
Proof. intros [] HQ. apply post_modify, HQ. by constructor. Qed.
Lemma post_gets_at {A} (f : SubState W → A) (Q : A → SubState W → Prop) x b h sp s :
  at_ x b h sp s → (f s = f s → Q (f s) s) → post (gets f) Q s.
Proof. intros _ HQ. by apply HQ. Qed.
End proof.

(** One step of a run, from the assertion in the context. *)
Ltac run_step :=
  lazymatch goal with
  | |- post (_ ≫= _) _ _ => apply post_bind
  | |- post (mret _) _ _ => apply post_ret
  | Hat : at_ _ _ _ _ ?s |- post (world _) _ ?s =>
      eapply (post_world _ _ _ _ _ _ _ Hat); clear dependent s; intros ? s Hat
  | Hat : at_ _ _ _ _ ?s |- post (log _ _) _ ?s =>
      eapply (post_log _ _ _ _ _ _ _ _ Hat); clear dependent s; intros s Hat
  | Hat : at_ _ _ _ _ ?s |- post (set_state _) _ ?s =>
      eapply (post_set_state _ _ _ _ _ _ _ Hat); clear dependent s; intros s Hat
  | Hat : at_ _ _ _ _ ?s |- post (set_buf _) _ ?s =>
      eapply (post_set_buf _ _ _ _ _ _ _ Hat); clear dependent s; intros s Hat
  | Hat : at_ _ _ _ _ ?s |- post set_hook _ ?s =>
      eapply (post_set_hook _ _ _ _ _ _ Hat); clear dependent s; intros s Hat
  | Hat : at_ _ _ _ _ ?s |- post (gets st_state) _ ?s =>
      apply post_gets; rewrite (at_state _ _ _ _ _ Hat)
  | Hat : at_ _ _ _ _ ?s |- post (gets st_buf) _ ?s =>
      apply post_gets; rewrite (at_buf _ _ _ _ _ Hat)
  | Hat : at_ _ _ _ _ ?s |- post (gets st_hook) _ ?s =>
      apply post_gets; rewrite (at_hook _ _ _ _ _ Hat)
  end.
(** An event: leaves the acceptance of the event to prove, if it does not compute. *)
Ltac run_emit :=
  lazymatch goal with
  | Hat : at_ _ _ _ _ ?s |- post (emit _) _ ?s =>
      eapply (post_emit _ _ _ _ _ _ _ _ Hat); [try reflexivity|clear dependent s; intros s Hat]
  end.

(** ** Records and multisets *)

Lemma positions_app ms ms' : positions (ms ++ ms') = positions ms ⊎ positions ms'.
Proof. unfold positions. by rewrite fmap_app, list_to_set_disj_app. Qed.
Lemma positions_nil : positions [] = ∅.
Proof. done. Qed.
Lemma positions_cons m ms : positions (m :: ms) = {[+ pos m +]} ⊎ positions ms.
Proof. done. Qed.
Lemma positions_ext ms ms' : pos <$> ms = pos <$> ms' → positions ms = positions ms'.
Proof. unfold positions. by intros ->. Qed.

(** The items that await a strategy. *)
Definition failed_items (its : list BatchItem) : list Message :=
  omap (λ it, (λ _, item_msg it) <$> item_failure it) its.

Lemma verdict_existsb i fs v :
  is_Some (verdict i fs v) ↔ is_Some v ∨ existsb (λ jf : nat * Failure, (jf.1 =? i)%nat) fs = true.
Proof.
  unfold verdict. revert v. induction fs as [|[j f] fs IH]; intros v; simpl.
  - split; [by left|]. by intros [|].
  - rewrite IH. destruct (j =? i)%nat; simpl; [|done]. split; auto.
Qed.

(** The code and the machine agree on which records of a batch failed. *)
Lemma failed_items_from fs msgs : ∀ i its,
  length its = length msgs →
  (∀ k : nat, (λ it, (pos (item_msg it), item_failure it)) <$> its !! k =
     (λ m, (pos m, verdict (i + k) fs None)) <$> msgs !! k) →
  pos <$> failed_items its = pos <$> failed_from i msgs fs.
Proof.
  induction msgs as [|m msgs IH]; intros i [|it its] Hlen Hl; simpl in *; try done.
  pose proof (Hl 0%nat) as H0. simpl in H0. rewrite Nat.add_0_r in H0.
  pose proof (verdict_existsb i fs None) as Hv.
  assert (pos <$> failed_items its = pos <$> failed_from (S i) msgs fs) as Hrec.
  { apply IH; [lia|]. intros k. specialize (Hl (S k)). by rewrite <-Nat.add_succ_comm in Hl. }
  injection H0 as Ht Hp Ho Hf. unfold failed_items in *. simpl. rewrite Hf.
  destruct (verdict i fs None), (existsb _ fs); simpl.
  - f_equal; [unfold pos; congruence|done].
  - by destruct (proj1 Hv) as [[]|]; eauto.
  - by destruct (proj2 Hv) as [? ?]; [by right|].
  - done.
Qed.
Lemma handled_items_failed msgs fs ws :
  pos <$> failed_items (handled_items msgs fs ws) = pos <$> failed_from 0 msgs fs.
Proof.
  apply failed_items_from; [apply handled_items_length|].
  intros k. apply handled_items_lookup.
Qed.

(** ** The pieces of an iteration *)

Section refine.
Context {W : Type} `{GoRangeLaws} (env : Env W) (cfg : Config (W:=W)).
Context (strategy : ErrorStrategy W) (driver : Consumer W).
Implicit Types s : SubState W.
Abbreviation running fresh failed seen := (mkSpec PhRunning fresh failed seen).

(** The machine can take the final commit from here. *)
Definition finishing (sp : Spec) : Prop :=
  sp_phase sp = PhRunning ∨ sp_phase sp = PhStoreFailed ∨ sp_phase sp = PhStopped.

Lemma post_recover o (Q : option Failure → SubState W → Prop) x b h sp s :
  at_ x b h sp s →
  (∀ f s', at_ x b h sp s' → (f = None ↔ o = Returned None) → Q f s') → post (recover_ o) Q s.
Proof.
  intros Hat HQ. unfold recover_. destruct o as [f|text].
  - run_step. apply HQ; [done|]. split; congruence.
  - repeat run_step. by apply HQ.
Qed.

Lemma post_dispatchMessage msg x b h seen s :
  at_ x b h (running (positions [msg]) ∅ seen) s →
  post (dispatchMessage cfg msg) (λ r s', pos r.2 = pos msg ∧
    at_ x b h (running ∅ (positions (match r.1 with Some _ => [msg] | None => [] end)) seen) s') s.
Proof.
  intros Hat. unfold dispatchMessage. run_step.
  set (mid := λ (call : handler_call) (s : SubState W), at_ x b h (running (positions [msg]) ∅ seen) s).
  apply post_mono with mid.
  { destruct (cfg_Handler cfg); run_step; subst mid; simpl; done. }
  subst mid. clear dependent s. intros call s Hat. simpl in Hat. run_step. run_emit.
  { simpl. unfold spec_handled. rewrite bool_decide_true by done. simpl. done. }
  run_step. eapply post_recover; [exact Hat|]. clear dependent s. intros f s Hat Hf. run_step.
  split; [apply write_msg_pos|]. simpl in *.
  rewrite gmultiset_difference_diag, (left_id_L ∅ (⊎)) in Hat.
  unfold failed_of_call in Hat. destruct f as [f|].
  - destruct (hc_outcome call) as [[]|]; try done. by destruct Hf as [_ Hf]; specialize (Hf eq_refl).
  - by rewrite (proj1 Hf eq_refl) in Hat.
Qed.

Lemma post_HandleError msgs f x b h fresh failed seen s :
  at_ x b h (running fresh failed seen) s → positions msgs ⊆ failed →
  post (HandleError_ strategy msgs f) (λ err s',
    at_ x b h (match err with
               | None => running fresh (failed ∖ positions msgs) seen
               | Some _ => mkSpec PhStopped fresh failed seen
               end) s') s.
Proof.
  intros Hat Hsub. unfold HandleError_. run_step.
  apply post_mono with (λ f s', is_Some (f_Err f) ∧ at_ x b h (running fresh failed seen) s').
  { unfold withReason. destruct (f_Err f) eqn:E; repeat run_step; eauto. }
  clear dependent s. intros f' s [Hf Hat]. run_step. run_step. run_step.
  eapply post_emit; [exact Hat| |].
  { simpl. unfold spec_strategy. rewrite bool_decide_true by done. simpl.
    instantiate (1 := match a with None => _ | Some _ => _ end). by destruct a. }
  clear dependent s. intros s Hat. run_step. by destruct a.
Qed.

Lemma may_store_resolved t p o ph seen :
  (t, p, o) ∈ seen → may_store t p o (mkSpec ph ∅ ∅ seen) = true.
Proof.
  intros. unfold may_store. simpl. rewrite bool_decide_true by done.
  by rewrite (left_id_L ∅ (⊎)), gmultiset_elements_empty.
Qed.

(** Storing the offset of a delivered record, when nothing is unresolved. *)
Lemma post_storeOffset t p o ph x b h seen s :
  ph = PhRunning ∨ ph = PhStoreFailed → (t, p, o) ∈ seen →
  at_ x b h (mkSpec ph ∅ ∅ seen) s →
  post (storeOffset driver t p o) (λ err s',
    at_ x b h (mkSpec (match err with
                       | None => ph
                       | Some _ => if errors_Is err ErrPartitionRevoked then ph else PhStoreFailed
                       end) ∅ ∅ seen) s') s.
Proof.
  intros Hph Hin Hat. unfold storeOffset. run_step. run_step. run_step.
  eapply post_emit; [exact Hat| |].
  { destruct Hph as [-> | ->]; simpl; by rewrite may_store_resolved by done. }
  clear dependent s. intros s Hat. by run_step.
Qed.

Lemma post_maybeCommit ph fresh failed x b h seen s (Q : unit → SubState W → Prop) :
  ph = PhRunning ∨ ph = PhStoreFailed →
  at_ x b h (mkSpec ph fresh failed seen) s →
  (∀ s', at_ x b h (mkSpec ph fresh failed seen) s' → Q tt s') → post (maybeCommit driver) Q s.
Proof.
  intros Hph Hat HQ. unfold maybeCommit. run_step. run_step. run_step.
  eapply post_emit; [exact Hat|by destruct Hph as [-> | ->]|].
  clear dependent s. intros s Hat. destruct a; repeat run_step; by apply HQ.
Qed.

(** After one iteration: the loop goes on with [resolved], is stopping, or is over. *)
Definition stepped (resolved : SubState W → Prop) (c : control) (s : SubState W) : Prop :=
  match c with
  | Continue_ => resolved s
  | Break_ _ => ∃ b h sp, at_ stateStopping b h sp s ∧ finishing sp
  end.

Lemma post_finish_message msg b h seen s :
  pos msg ∈ seen → at_ stateRunning b h (running ∅ ∅ seen) s →
  post (finish_message driver msg) (stepped (at_ stateRunning b h (running ∅ ∅ seen))) s.
Proof.
  intros Hin Hat. unfold finish_message. run_step.
  eapply post_mono; [apply post_storeOffset; [by left|exact Hin|exact Hat]|].
  clear dependent s. intros err s Hat. simpl in Hat. destruct err as [e|].
  - destruct (errors_Is (Some e) ErrPartitionRevoked); repeat run_step; simpl; [done|].
    do 3 eexists. split; [exact Hat|]. right. by left.
  - run_step. eapply post_maybeCommit; [by left|exact Hat|]. clear dependent s. intros s Hat. by run_step.
Qed.

Lemma post_single_message msg b h seen s :
  pos msg ∈ seen → at_ stateRunning b h (running (positions [msg]) ∅ seen) s →
  post (single_message cfg strategy driver msg) (stepped (at_ stateRunning b h (running ∅ ∅ seen))) s.
Proof.
  intros Hin Hat. unfold single_message. run_step.
  eapply post_mono; [apply post_dispatchMessage, Hat|].
  clear dependent s. intros [failure msg'] s [Hpos Hat]. simpl in *. run_step.
  apply post_mono with (λ err s, match err with
    | None => at_ stateRunning b h (running ∅ ∅ seen) s
    | Some _ => at_ stateRunning b h (mkSpec PhStopped ∅ (positions [msg]) seen) s end).
  { destruct failure as [f|]; [|by run_step].
    eapply post_mono; [apply post_HandleError; [exact Hat|]|].
    - by rewrite (positions_ext [msg'] [msg]) by (simpl; congruence).
    - intros err s' Hat'. destruct err; [done|].
      rewrite (positions_ext [msg'] [msg]) in Hat' by (simpl; congruence).
      by rewrite gmultiset_difference_diag in Hat'. }
  clear dependent s. intros err s Hat. destruct err as [e|].
  - repeat run_step. simpl. do 3 eexists. split; [exact Hat|]. right. by right.
  - apply post_finish_message; [by rewrite Hpos|done].
Qed.

(** *** Polling *)

Definition buffered (b : option Buffer) : list Message := from_option messages [] b.

Lemma post_run_hook n : ∀ b h sp s (Q : unit → SubState W → Prop),
  at_ stateRunning b h sp s →
  (∀ b' s', at_ stateRunning b' h sp s' → is_Some b' ↔ is_Some b →
    buffered b' = (if (0 <? n)%nat then [] else buffered b) → Q tt s') →
  post (run_hook n) Q s.
Proof.
  induction n as [|n IH]; intros b h sp s Q Hat HQ; simpl.
  { run_step. by apply (HQ b). }
  run_step.
  apply post_mono with (λ _ s', ∃ b', at_ stateRunning b' h sp s' ∧
                                   (is_Some b' ↔ is_Some b) ∧ buffered b' = []).
  { unfold revoke_hook. run_step. run_step. destruct b as [b|].
    - simpl. run_step. run_step. destruct (0 <? length (messages b))%nat; repeat run_step; by eexists.
    - run_step. by eexists. }
  clear dependent s. intros [] s (b' & Hat & Hb & He). apply (IH b' h sp); [done|].
  intros b'' s' Hat' Hb' He'. apply (HQ b''); [done| |].
  - by rewrite Hb'.
  - rewrite He', He. simpl. by destruct (0 <? n)%nat.
Qed.

Lemma spec_poll_running n msg err ms ms' seen : ms' = (if (0 <? n)%nat then [] else ms) →
  spec_poll n msg err (running (positions ms) ∅ seen) =
    mkSpec (match err with None => PhRunning | Some _ => PhStopped end)
      (positions (option_list msg ++ ms')) ∅
      (list_to_set (pos <$> option_list msg) ∪ (if (0 <? n)%nat then ∅ else seen)).
Proof.
  intros ->. unfold spec_poll. rewrite positions_app.
  assert (∀ m, positions (option_list (Some m)) = {[+ pos m +]}) as Hs
    by (intros; apply (right_id_L ∅ (⊎))).
  assert (∀ m, list_to_set (C:=gset position) (pos <$> option_list (Some m)) = {[pos m]}) as Hs'
    by (intros; apply (right_id_L ∅ (∪))).
  destruct (0 <? n)%nat, msg as [m|]; unfold at_phase; cbn [sp_fresh sp_failed sp_seen];
    rewrite ?positions_nil, ?Hs, ?Hs'; f_equal;
    symmetry; first [apply (left_id_L ∅ (⊎))|apply (left_id_L ∅ (∪))].
Qed.

Lemma post_poll b h seen s :
  h = true ∨ buffered b = [] → (∀ m, m ∈ buffered b → pos m ∈ seen) →
  at_ stateRunning b h (running (positions (buffered b)) ∅ seen) s →
  post (poll cfg driver) (λ r s', ∃ b' seen',
    at_ stateRunning b' h
      (mkSpec (match r.2 with None => PhRunning | Some _ => PhStopped end)
         (positions (option_list r.1 ++ buffered b')) ∅ seen') s' ∧
    (is_Some b' ↔ is_Some b) ∧ (buffered b = [] → buffered b' = []) ∧
    (∀ m, m ∈ option_list r.1 ++ buffered b' → pos m ∈ seen')) s.
Proof.
  intros Hh Hseen Hat. unfold poll. run_step. run_step. destruct a as [[n msg] err].
  run_step. run_step. run_step.
  apply post_mono with (λ _ s', ∃ b',
    at_ stateRunning b' h (running (positions (buffered b)) ∅ seen) s' ∧
    (is_Some b' ↔ is_Some b) ∧ buffered b' = (if (0 <? n)%nat then [] else buffered b)).
  { destruct h.
    - eapply post_run_hook; [exact Hat|]. eauto.
    - run_step. exists b. split_and!; try done. destruct Hh as [|Hb]; [done|].
      rewrite Hb. by destruct (0 <? n)%nat. }
  clear dependent s. intros [] s (b' & Hat & Hb & He). run_step. run_emit. run_step. simpl in *.
  exists b', (list_to_set (pos <$> option_list msg) ∪ (if (0 <? n)%nat then ∅ else seen)).
  split_and!; try done.
  - eapply at_sp; [exact Hat|]. by apply spec_poll_running.
  - intros E. rewrite He, E. by destruct (0 <? n)%nat.
  - intros m [Hm|Hm]%elem_of_app.
    + apply elem_of_union_l, elem_of_list_to_set, list_elem_of_fmap. eauto.
    + apply elem_of_union_r. rewrite He in Hm. destruct (0 <? n)%nat; [by apply not_elem_of_nil in Hm|auto].
Qed.

(** *** Batches *)

Lemma post_route_items its : ∀ x b h seen s,
  at_ x b h (running ∅ (positions (failed_items its)) seen) s →
  post (route_items strategy its) (λ err s', match err with
    | None => at_ x b h (running ∅ ∅ seen) s'
    | Some _ => ∃ failed, at_ x b h (mkSpec PhStopped ∅ failed seen) s'
    end) s.
Proof.
  induction its as [|it its IH]; intros x b h seen s Hat; simpl.
  { run_step. done. }
  unfold item_Failed, item_Message. unfold failed_items in Hat. simpl in Hat.
  destruct (item_failure it) as [f|]; simpl in Hat; [|by apply IH].
  run_step. rewrite positions_cons in Hat.
  eapply post_mono; [apply post_HandleError; [exact Hat|]|].
  { rewrite positions_cons, positions_nil. multiset_solver. }
  clear dependent s. intros err s Hat. destruct err as [e|].
  { run_step. eauto. }
  apply IH. eapply at_sp; [exact Hat|]. f_equal. rewrite positions_cons, positions_nil.
  unfold failed_items. clear. multiset_solver.
Qed.

Lemma post_store_all tps : ∀ fatal ph x b h seen s,
  ph = PhRunning ∨ ph = PhStoreFailed → (fatal = None → ph = PhRunning) →
  (∀ tpo, tpo ∈ tps → tpo ∈ seen) → at_ x b h (mkSpec ph ∅ ∅ seen) s →
  post (store_all driver tps fatal) (λ fatal' s', ∃ ph',
    (ph' = PhRunning ∨ ph' = PhStoreFailed) ∧ (fatal' = None → ph' = PhRunning) ∧
    at_ x b h (mkSpec ph' ∅ ∅ seen) s') s.
Proof.
  induction tps as [|[[t p] o] tps IH]; intros fatal ph x b h seen s Hph Hf Hin Hat; simpl.
  { run_step. eauto. }
  run_step. eapply post_mono; [apply (post_storeOffset t p o ph); [done|apply Hin; by left|exact Hat]|].
  assert (∀ tpo, tpo ∈ tps → tpo ∈ seen) as Hin' by (intros; apply Hin; by right).
  clear dependent s. intros err s Hat. destruct err as [e|]; [|by apply (IH _ ph)].
  destruct (errors_Is (Some e) ErrPartitionRevoked).
  - run_step. run_step. by apply (IH _ ph).
  - apply (IH _ PhStoreFailed); [by right| |done|done].
    intros Hn%errors_Join_None. by apply Forall_inv_tail, Forall_inv in Hn.
Qed.

Lemma highest_in_positions msgs tp o :
  highest_offsets msgs !! tp = Some o → (tp, o) ∈ pos <$> msgs.
Proof.
  intros E. pose proof (highest_offsets_spec msgs tp) as Hs. rewrite E in Hs.
  destruct Hs as [(m & Hm & Htp & Ho) _]. apply list_elem_of_fmap. exists m.
  split; [|done]. unfold pos, msg_tp in *. congruence.
Qed.

(** The handler has spoken: what it failed is what the strategy gets. *)
Definition batch_handled (msgs : list Message) x b h seen
    (r : option Failure * Batch * list Message) (s : SubState W) : Prop :=
  pos <$> r.2 = pos <$> msgs ∧
  ∃ fs ws, r.1.2 = fail_all fs (write_batch ws (NewBatchFromBuffer msgs)) ∧
    at_ x b h (running ∅ (positions (match r.1.1 with
                                     | Some _ => msgs
                                     | None => failed_items (Items r.1.2)
                                     end)) seen) s.
Lemma post_invokeBatchHandler msgs x b h seen s :
  at_ x b h (running (positions msgs) ∅ seen) s →
  post (invokeBatchHandler cfg msgs (NewBatchFromBuffer msgs)) (batch_handled msgs x b h seen) s.
Proof.
  intros Hat. unfold invokeBatchHandler. run_step.
  apply post_mono with (λ (_ : batch_call) s', at_ x b h (running (positions msgs) ∅ seen) s').
  { destruct (cfg_BatchHandler cfg); by run_step. }
  clear dependent s. intros call s Hat. run_step. run_emit.
  { simpl. unfold spec_handled. by rewrite bool_decide_true by done. }
  simpl in Hat. rewrite gmultiset_difference_diag, (left_id_L ∅ (⊎)) in Hat.
  run_step. eapply post_recover; [exact Hat|]. clear dependent s. intros f s Hat Hf. run_step.
  split; simpl; [apply write_msgs_pos|]. exists (bc_fails call), (bc_writes call). split; [done|].
  unfold failed_of_batch in Hat. destruct f as [f|].
  - destruct (bc_outcome call) as [[]|]; try done. by destruct Hf as [_ Hf]; specialize (Hf eq_refl).
  - rewrite (proj1 Hf eq_refl) in Hat.
    pose proof (positions_ext _ _ (handled_items_failed msgs (bc_fails call) (bc_writes call))) as E.
    unfold handled_items in E. by rewrite E.
Qed.
Lemma post_dispatchBatch msgs x b h seen s :
  (∀ m, m ∈ msgs → pos m ∈ seen) → at_ x b h (running (positions msgs) ∅ seen) s →
  post (dispatchBatch cfg strategy driver msgs) (λ err s', match err with
    | None => at_ x b h (running ∅ ∅ seen) s'
    | Some _ => ∃ sp, at_ x b h sp s' ∧ finishing sp
    end) s.
Proof.
  intros Hin Hat. unfold dispatchBatch. run_step.
  (* the handler *)
  eapply post_mono; [by apply (post_invokeBatchHandler msgs x b h seen)|].
  clear dependent s. intros [[whole polled] msgs'] s (Hpos & fs & ws & Hp & Hat). simpl in *.
  assert (positions msgs' = positions msgs) as Hps by (by apply positions_ext).
  (* the strategy *)
  run_step. apply post_mono with (λ err s', match err with
    | None => at_ x b h (running ∅ ∅ seen) s'
    | Some _ => ∃ failed, at_ x b h (mkSpec PhStopped ∅ failed seen) s'
    end).
  { unfold routeBatchFailures. destruct whole as [f|]; [|by apply post_route_items].
    eapply post_mono; [apply post_HandleError; [exact Hat|by rewrite Hps]|].
    intros err s' Hat'. destruct err; [by eauto|]. by rewrite Hps, gmultiset_difference_diag in Hat'. }
  clear dependent s. intros err s Hat. destruct err as [e|].
  { destruct Hat as [failed Hat]. repeat run_step. eexists. split; [exact Hat|]. right. by right. }
  (* the stores and the commit *)
  run_step. eapply post_mono; [apply (post_store_all _ _ PhRunning); [by left|done| |exact Hat]|].
  { intros [tp o] Hin'. apply elem_of_go_range in Hin'.
    apply highest_in_positions in Hin'. rewrite Hpos in Hin'.
    apply list_elem_of_fmap in Hin' as (m & E & Hm). change (tp, o) with ((tp, o) : position) in *.
    rewrite E. by apply Hin. }
  clear dependent s. intros fatal s (ph & Hph & Hf & Hat). run_step.
  eapply post_maybeCommit; [exact Hph|exact Hat|]. clear dependent s. intros s Hat.
  destruct fatal as [e|].
  - repeat run_step. eexists. split; [exact Hat|]. destruct Hph; [by left|by right; left].
  - run_step. by rewrite Hf in Hat.
Qed.

(** *** Iterations and loops *)

(** Between iterations: the buffered records are fresh, nothing else is
    unresolved; or the loop is about to end. *)
Definition between (b_ok : option Buffer → Prop) (h : bool) (s : SubState W) : Prop :=
  (∃ b seen, b_ok b ∧ (∀ m, m ∈ buffered b → pos m ∈ seen) ∧
     at_ stateRunning b h (running (positions (buffered b)) ∅ seen) s) ∨
  (∃ b sp, at_ stateStopping b h sp s ∧ finishing sp).
(** The fuel ran out in the middle of a run. *)
Definition suspended (s : SubState W) : Prop :=
  is_Some (spec_run (st_trace s)) ∧ st_state s ≠ stateCreated.
(** After the loop. *)
Definition ended (s : SubState W) : Prop :=
  ∃ x b h sp, at_ x b h sp s ∧ finishing sp.

Section loop.
Context (b_ok : option Buffer → Prop) (h : bool) (body : option Message → ST (SubState W) control).
Context (Hh : ∀ b, b_ok b → h = true ∨ buffered b = []).
Context (Hok : ∀ b b', b_ok b → is_Some b' ↔ is_Some b → (buffered b = [] → buffered b' = []) → b_ok b').
Context (Hbody : ∀ msg b seen s, b_ok b → (∀ m, m ∈ option_list msg ++ buffered b → pos m ∈ seen) →
  at_ stateRunning b h (running (positions (option_list msg ++ buffered b)) ∅ seen) s →
  post (body msg) (stepped (between b_ok h)) s).

Lemma post_iteration s : between b_ok h s →
  post (iteration env cfg driver body)
    (λ c s, match c with Continue_ => between b_ok h s | Break_ _ => ended s end) s.
Proof.
  unfold iteration, ended.
  intros [(b & seen & Hb & Hin & Hat)|(b & sp & Hat & Hfin)]; run_step; run_step.
  2: { change (stateStopping =? stateRunning) with false. cbn [negb]. run_step. eauto 10. }
  change (stateRunning =? stateRunning) with true. cbn [negb]. run_step. run_step. destruct a.
  { run_step. run_step. run_step. right. do 2 eexists. split; [exact Hat|]. by left. }
  run_step. run_step. change (stateRunning =? stateRunning) with true. cbn [negb]. run_step.
  eapply post_mono; [apply (post_poll b h seen); [by apply Hh|done|exact Hat]|].
  clear dependent s. intros [msg err] s (b' & seen' & Hat & Hs & He & Hin'). simpl in *.
  destruct err as [e|].
  { repeat run_step. do 4 eexists. split; [exact Hat|]. right. by right. }
  eapply post_mono; [eapply Hbody; [by eapply Hok|exact Hin'|exact Hat]|].
  intros [|err] s' Hst; [done|]. destruct Hst as (? & ? & ? & ?). eauto 10.
Qed.

Lemma post_loop fuel : ∀ s, between b_ok h s →
  post (loop (iteration env cfg driver body) fuel)
    (λ r s, match r with Some _ => ended s | None => suspended s end) s.
Proof.
  induction fuel as [|fuel IH]; intros s Hs; simpl.
  - run_step. destruct Hs as [(? & ? & ? & ? & Hat)|(? & ? & Hat & ?)]; unfold suspended; rewrite (at_spec _ _ _ _ _ Hat), (at_state _ _ _ _ _ Hat); done.
  - run_step. eapply post_mono; [apply post_iteration, Hs|].
    intros [|err] s' Hs'; [by apply IH|]. by run_step.
Qed.
End loop.

Lemma post_single_body msg b seen s h : b = None →
  (∀ m, m ∈ option_list msg ++ buffered b → pos m ∈ seen) →
  at_ stateRunning b h (running (positions (option_list msg ++ buffered b)) ∅ seen) s →
  post (match msg with None => mret Continue_ | Some m => single_message cfg strategy driver m end)
    (stepped (between (λ b, b = None) h)) s.
Proof.
  intros -> Hin Hat. destruct msg as [m|].
  - eapply post_mono; [apply post_single_message; [apply Hin; by left|exact Hat]|].
    intros [|err] s' Hs'; simpl in *; [|done]. left. exists None, seen. split_and!; try done.
    by intros ? ?%not_elem_of_nil.
  - run_step. left. by exists None, seen.
Qed.

(** Filling the buffer, and the timeout check. *)
Lemma post_buf_Add bf m x b h sp s (Q : Buffer → SubState W → Prop) :
  at_ x b h sp s →
  (∀ bf' s', at_ x b h sp s' → messages bf' = messages bf ++ [m] → Q bf' s') → post (buf_Add env bf m) Q s.
Proof.
  intros Hat HQ. unfold buf_Add. destruct (_ =? _)%nat; [run_step; run_step|]; run_step; by apply HQ.
Qed.
Lemma post_buf_TimedOut bf x b h sp s (Q : bool → SubState W → Prop) :
  at_ x b h sp s → (∀ t s', at_ x b h sp s' → Q t s') → post (buf_TimedOut env bf) Q s.
Proof.
  intros Hat HQ. unfold buf_TimedOut. destruct (_ =? _)%nat; [|run_step; run_step]; run_step; by apply HQ.
Qed.

Lemma post_batch_body msg b seen s : is_Some b →
  (∀ m, m ∈ option_list msg ++ buffered b → pos m ∈ seen) →
  at_ stateRunning b true (running (positions (option_list msg ++ buffered b)) ∅ seen) s →
  post (batch_body env cfg strategy driver msg) (stepped (between is_Some true)) s.
Proof.
  intros [bf ->] Hin Hat. unfold batch_body. run_step. run_step. run_step.
  apply post_mono with (λ bf' s', messages bf' ≡ₚ option_list msg ++ messages bf ∧
    at_ stateRunning (Some bf) true (running (positions (messages bf')) ∅ seen) s').
  { destruct msg as [m|]; [|by run_step].
    eapply post_buf_Add; [exact Hat|]. intros bf' s' Hat' Hbf'. simpl in *. rewrite Hbf'. split.
    - by rewrite (Permutation_app_comm _ [m]).
    - eapply at_sp; [exact Hat'|]. f_equal. rewrite positions_app, positions_cons, positions_cons, positions_nil.
      simpl. clear. multiset_solver. }
  clear dependent s. intros bf' s [Hp Hat]. run_step. run_step. run_step.
  assert (∀ m, m ∈ messages bf' → pos m ∈ seen) as Hin' by (intros m; rewrite Hp; apply Hin).
  clear dependent msg. clear bf.
  assert (∀ s, at_ stateRunning (Some bf') true (running (positions (messages bf')) ∅ seen) s →
            between is_Some true s) as Hkeep by (intros s' Hs'; left; by exists (Some bf'), seen).
  apply post_mono with (λ _ s', at_ stateRunning (Some bf') true (running (positions (messages bf')) ∅ seen) s').
  { destruct (Ready bf'); [by run_step|]. by eapply post_buf_TimedOut. }
  clear dependent s. intros flush s Hat. destruct flush; [|run_step; by apply Hkeep].
  rewrite Flush_spec. run_step. run_step. destruct (messages bf') as [|m ms] eqn:Em.
  { run_step. apply Hkeep. done. }
  run_step. eapply post_mono; [apply post_dispatchBatch; [exact Hin'|exact Hat]|].
  clear dependent s. intros err s Hat. destruct err as [e|].
  - destruct Hat as (sp & Hat & Hfin). run_step. run_step. run_step. simpl. eauto.
  - run_step. left. exists (Some (buffer_reset bf')), seen. split; [done|]. simpl.
    split; [by intros ? ?%not_elem_of_nil|done].
Qed.

(** *** The run *)

Lemma post_loops (fuel : nat) b h s :
  (if is_batch cfg then is_Some b ∧ h = true else b = None) →
  at_ stateRunning b h (running ∅ ∅ ∅) s → buffered b = [] →
  post (if is_batch cfg then runBatchLoop env cfg strategy driver fuel
        else runSingleLoop env cfg strategy driver fuel)
    (λ r s, match r with Some _ => ended s | None => suspended s end) s.
Proof.
  intros Hmode Hat Hb. unfold runBatchLoop, runSingleLoop, batch_step, single_step.
  assert (∀ m, m ∈ buffered b → pos m ∈ (∅ : gset position)) as Hnone
    by (rewrite Hb; by intros ? ?%not_elem_of_nil).
  assert (at_ stateRunning b h (running (positions (buffered b)) ∅ ∅) s) as Hat' by (by rewrite Hb).
  destruct (is_batch cfg).
  - destruct Hmode as [Hs ->]. apply post_loop with is_Some true.
    + by left.
    + intros b1 b2 H1 H2 _. by apply H2.
    + intros. by eapply post_batch_body.
    + left. by exists b, ∅.
  - apply post_loop with (λ b, b = None) h.
    + intros ? ->. by right.
    + intros b1 b2 -> Hi _. destruct b2; [|done]. by destruct (proj1 Hi ltac:(eauto)).
    + intros. by eapply post_single_body.
    + left. by exists b, ∅.
Qed.

Definition closed (s : SubState W) : Prop := ∃ x b h sp, at_ x b h sp s ∧ sp_phase sp = PhClosed.

Lemma post_close_driver x b h sp s (Q : option goerr → SubState W → Prop) :
  sp_phase sp = PhFinal → at_ x b h sp s → (∀ err s, at_ x b h (at_phase PhClosed sp) s → Q err s) →
  post (close_driver driver) Q s.
Proof.
  intros Hph Hat HQ. unfold close_driver. run_step. run_step. run_step.
  eapply post_emit; [exact Hat|simpl; by rewrite Hph|].
  clear dependent s. intros s Hat. run_step. by apply HQ.
Qed.

Lemma post_run fuel b s :
  (if is_batch cfg then is_Some b else b = None) → buffered b = [] →
  at_ stateRunning b false (mkSpec PhNew ∅ ∅ ∅) s →
  post (run env cfg strategy driver fuel)
    (λ r s, match r with Some _ => closed s | None => suspended s end) s.
Proof.
  intros Hmode Hb Hat. unfold run, closed. run_step. unfold connect. run_step. run_step. run_step.
  run_emit. run_step. destruct a as [e|].
  { run_step. eauto 10. }
  run_step. simpl in Hat. unfold at_phase in Hat. simpl in Hat.
  apply post_mono with (λ _ s, ∃ h, (if is_batch cfg then is_Some b ∧ h = true else b = None) ∧
    at_ stateRunning b h (mkSpec PhConnected ∅ ∅ ∅) s).
  { destruct (is_batch cfg); [|run_step; eauto]. unfold register_hook.
    run_step. run_step. run_step. run_step. run_emit. eauto. }
  clear dependent s. intros [] s (h & Hm & Hat). run_step. unfold subscribe_.
  run_step. run_step. run_step. run_emit. run_step. destruct a as [e|].
  { run_step. eapply post_close_driver; [|exact Hat|]; [done|]. clear dependent s. intros err s Hat.
    run_step. eauto 10. }
  run_step. eapply post_mono; [apply (post_loops fuel b h); [exact Hm|exact Hat|done]|].
  clear dependent s. intros [err|] s Hs; [|by run_step].
  destruct Hs as (x & b1 & h1 & sp & Hat & Hfin). run_step. run_step. run_step.
  eapply post_emit; [exact Hat|simpl; by destruct Hfin as [-> |[-> | ->]]|].
  clear dependent s. intros s Hat. run_step.
  apply post_mono with (λ _ s, at_ x b1 h1 (at_phase PhFinal sp) s).
  { destruct a; run_step; done. }
  clear dependent s. intros [] s Hat. run_step. eapply post_close_driver; [|exact Hat|]; [done|].
  clear dependent s. intros cerr s Hat. run_step. destruct cerr; run_step; run_step; eauto 10.
Qed.
End refine.

Section start.
Context {W : Type} `{GoRangeLaws} (env : Env W) (cfg : Config (W:=W)).

Lemma post_init_strategy strategy (s : SubState W) :
  at_ stateRunning None false spec_init s →
  post (init_strategy cfg strategy) (λ err s,
    at_ stateRunning None false (match err with None => spec_init | Some _ => at_phase PhClosed spec_init end) s) s.
Proof.
  intros Hat. unfold init_strategy. destruct (es_Initializable strategy) as [[Initialize ?]|]; [|by run_step].
  run_step. run_step. run_step. eapply post_emit; [exact Hat| |].
  { simpl. instantiate (1 := match a with None => _ | Some _ => _ end). by destruct a. }
  clear dependent s. intros s Hat. run_step. by destruct a.
Qed.

Lemma post_close_strategy strategy (s : SubState W) : closed s →
  post (close_strategy strategy) (λ _ s, closed s) s.
Proof.
  intros (x & b & h & sp & Hat & Hph). unfold close_strategy, closed.
  destruct (es_Initializable strategy) as [[? Close_]|]; [|run_step; eauto 10].
  run_step. run_step. eapply post_emit; [exact Hat|simpl; by rewrite Hph|].
  clear dependent s. intros s Hat. eauto 10.
Qed.
Lemma post_log_closed l c (s : SubState W) : closed s → post (log l c) (λ _ s, closed s) s.
Proof. intros (x & b & h & sp & Hat & Hph). run_step. unfold closed. eauto 10. Qed.

(** What [Start] leaves is accepted, and a [Start] that returns has closed everything. *)
Definition start_ok (r : option (option goerr)) (s : SubState W) : Prop :=
  match r with Some _ => closed s | None => suspended s end.

Lemma post_start_claimed strategy newConsumer fuel (s : SubState W) :
  at_ stateRunning None false spec_init s →
  post (start_claimed env cfg strategy newConsumer fuel) start_ok s.
Proof.
  intros Hat. unfold start_claimed. run_step. run_step. run_step.
  eapply post_mono; [apply post_init_strategy, Hat|]. clear dependent s. intros err s Hat.
  destruct err as [e|].
  { run_step. simpl. unfold closed. eauto 10. }
  run_step. apply post_mono with (λ (_ : unit) s, at_ stateRunning None false spec_init s).
  { unfold set_logger. destruct (es_LoggerAware strategy); by run_step. }
  clear dependent s. intros [] s Hat. run_step. run_step. destruct a as [driver|e].
  2: { run_step. run_emit. run_step. eapply post_mono; [apply post_close_strategy; unfold closed; by eauto 10|].
       intros [] s' Hs'. by run_step. }
  run_step. run_emit. run_step.
  apply post_mono with (λ (_ : unit) s, ∃ b, (if is_batch cfg then is_Some b else b = None) ∧ buffered b = [] ∧
    at_ stateRunning b false (mkSpec PhNew ∅ ∅ ∅) s).
  { destruct (is_batch cfg); run_step; (eexists; split; [|split; [|exact Hat]]; done). }
  clear dependent s. intros [] s (b & Hm & Hb & Hat). run_step. run_step. run_step.
  eapply post_mono; [apply (post_run env cfg strategy driver fuel b); [exact Hm|exact Hb|exact Hat]|].
  clear dependent s. intros [err|] s Hs; [|by run_step].
  run_step. eapply post_mono; [apply post_close_strategy, Hs|]. intros [] s1 Hs1.
  run_step. eapply post_mono; [apply post_log_closed, Hs1|]. intros [] s2 Hs2. by run_step.
Qed.

Lemma start_accepted fuel w :
  post (Start env cfg fuel) (λ r s, start_ok r s ∧ (is_Some r → st_state s = stateStopped)) (created w).
Proof.
  unfold Start. run_step. apply post_gets. simpl.
  assert (at_ stateCreated None false spec_init (created w)) as Hat by (by constructor).
  generalize dependent (created w). intros s Hat. run_step. run_step.
  destruct (cfg_ErrorStrategy cfg) as [strategy|], (cfg_newConsumer cfg) as [newConsumer|];
    try (run_step; run_step; run_step; simpl; unfold suspended;
         rewrite (at_spec _ _ _ _ _ Hat), (at_state _ _ _ _ _ Hat); split; [done|by intros []]).
  run_step. eapply post_mono; [apply post_start_claimed, Hat|].
  clear dependent s. intros [err|] s Hs; [|run_step; split; [done|by intros []]].
  destruct Hs as (x & b & h & sp & Hat & Hph). run_step. run_step. run_step. unfold start_ok, closed.
  split; [eauto 10|]. intros _. apply (at_state _ _ _ _ _ Hat).
Qed.

Lemma start_trace_accepted fuel w : is_Some (spec_run (st_trace (Start env cfg fuel (created w)).2)).
Proof.
  pose proof (start_accepted fuel w) as Hok. unfold post in Hok.
  destruct (Start env cfg fuel (created w)) as [[err|] s]; simpl in *; destruct Hok as [Hok _]; [|apply Hok].
  destruct Hok as (x & b & h & sp & Hat & _). by rewrite (at_spec _ _ _ _ _ Hat).
Qed.
End start.

(** ** Properties *)

(** C3 (at-least-once, refinement) Every run of [Start] refines the abstract
    machine: whatever the consumer, the strategy, the handler, the clock and the
    context do, in single-message or batch mode, and however far the run has
    come, its trace is accepted.  So a record is given to a handler at most once
    per delivery, a strategy only sees records the handler failed and always with
    an error, an offset is stored only when every record at or below it that was
    delivered since the last revocation is resolved, nothing is stored after the
    strategy has failed, nothing is polled after a store has failed, the final
    commit comes after the last store and before the close; and when [Start]
    returns, the connection is closed. *)
Theorem Start_refines_machine {W} `{GoRangeLaws} (env : Env W) (cfg : Config (W:=W)) fuel w :
  let '(r, s) := Start env cfg fuel (created w) in
  ∃ sp, spec_run (st_trace s) = Some sp ∧ (is_Some r → sp_phase sp = PhClosed).
Proof.
  pose proof (start_accepted env cfg fuel w) as Hok. unfold post in Hok.
  destruct (Start env cfg fuel (created w)) as [[err|] s]; simpl in Hok.
  - destruct Hok as [(x & b & h & sp & Hat & Hph) _]. exists sp. by rewrite (at_spec _ _ _ _ _ Hat).
  - destruct Hok as [[[sp Hsp] _] _]. exists sp. split; [done|by intros []].
Qed.

(** ** Witnesses *)

Lemma Start_refines_machine_witness :
  let '(r, s) := Start Ex_subscriber.env (H:=range_canonical) (Ex_subscriber.config true) 8
                   (created Ex_subscriber.w0) in
  ∃ sp, spec_run (st_trace s) = Some sp ∧ (is_Some r → sp_phase sp = PhClosed).
Proof.
  exact (@Start_refines_machine _ range_canonical range_canonical_laws Ex_subscriber.env
           (Ex_subscriber.config true) 8 Ex_subscriber.w0).
Defined.
