(* ===== verification/Accounts.v ===== *)
(** * What the contract means

    The books of a trace the machine of AtLeastOnce.v accepts: how often each record
    was delivered and resolved, and what a store says of them. *)
From stdpp Require Import gmultiset.
From S2P Require Import Prelude GoErrors LogCode Types Buffer ConsumerApi SubscribeOptions Subscriber AtLeastOnce.

(** ** Deliveries and resolutions *)

(** The records of a batch its handler did not fail. *)
Fixpoint succeeded_from (i : nat) (msgs : list Message) (fs : list (nat * Failure)) : list Message :=
  match msgs with
  | [] => []
  | m :: msgs =>
      if existsb (λ jf, (jf.1 =? i)%nat) fs then succeeded_from (S i) msgs fs
      else m :: succeeded_from (S i) msgs fs
  end.
(** The records an event resolves: a handler returned success for them, or the
    strategy took them over. *)
Definition resolves (e : event) : list Message :=
  match e with
  | EvHandled m call => match hc_outcome call with Returned None => [m] | _ => [] end
  | EvBatchHandled ms call =>
      match bc_outcome call with Returned None => succeeded_from 0 ms (bc_fails call) | _ => [] end
  | EvStrategy ms _ None => ms
  | _ => []
  end.
(** The record an event delivers. *)
Definition delivers (e : event) : list Message :=
  match e with EvPoll _ m _ => option_list m | _ => [] end.

(** How often the record at [q] was delivered, and how often resolved, since
    partitions were last revoked. *)
Definition tally_step (q : position) (dr : nat * nat) (e : event) : nat * nat :=
  let '(d, r) := match e with EvPoll (S _) _ _ => (0, 0)%nat | _ => dr end in
  ((d + multiplicity q (positions (delivers e)))%nat, (r + multiplicity q (positions (resolves e)))%nat).
Definition tally (q : position) (tr : list event) : nat * nat := foldl (tally_step q) (0, 0)%nat tr.
Definition delivered (q : position) (tr : list event) : nat := (tally q tr).1.
Definition resolved (q : position) (tr : list event) : nat := (tally q tr).2.

Lemma failed_succeeded msgs fs : ∀ i,
  positions msgs = positions (failed_from i msgs fs) ⊎ positions (succeeded_from i msgs fs).
Proof.
  induction msgs as [|m msgs IH]; intros i; simpl; [done|].
  rewrite positions_cons, (IH (S i)). destruct (existsb _ fs); rewrite positions_cons; multiset_solver.
Qed.

(** The books of the machine balance. *)
Definition balanced (tr : list event) (sp : Spec) : Prop :=
  (∀ q, delivered q tr = (resolved q tr + multiplicity q (sp_fresh sp ⊎ sp_failed sp))%nat) ∧
  (∀ q, q ∈ sp_seen sp → (0 < delivered q tr)%nat).

Lemma tally_snoc q tr e : tally q (tr ++ [e]) = tally_step q (tally q tr) e.
Proof. unfold tally. by rewrite foldl_app. Qed.

(** An event that delivers and resolves nothing, and moves no record. *)
Lemma balanced_quiet tr sp e sp' :
  (∀ q dr, tally_step q dr e = dr) → sp_fresh sp' = sp_fresh sp → sp_failed sp' = sp_failed sp →
  sp_seen sp' = sp_seen sp → balanced tr sp → balanced (tr ++ [e]) sp'.
Proof.
  intros Ht E1 E2 E3 [Hd Hs]. unfold balanced, delivered, resolved in *.
  setoid_rewrite tally_snoc. setoid_rewrite Ht. by rewrite E1, E2, E3.
Qed.
(** An event that resolves [ok], taken from the books. *)
Lemma balanced_resolve tr sp e sp' ok :
  (∀ q dr, tally_step q dr e = (dr.1, (dr.2 + multiplicity q (positions ok))%nat)) →
  sp_fresh sp ⊎ sp_failed sp = positions ok ⊎ (sp_fresh sp' ⊎ sp_failed sp') →
  sp_seen sp' = sp_seen sp → balanced tr sp → balanced (tr ++ [e]) sp'.
Proof.
  intros Ht E E3 [Hd Hs]. unfold balanced, delivered, resolved in *.
  setoid_rewrite tally_snoc. setoid_rewrite Ht. rewrite E3. split; [|done].
  intros q. simpl. rewrite (Hd q), E, multiplicity_disj_union. lia.
Qed.

Lemma quiet_event e :
  delivers e = [] → resolves e = [] → (∀ n m err, e ≠ EvPoll n m err) → ∀ q dr, tally_step q dr e = dr.
Proof.
  intros Hd Hr Hp q [d r]. unfold tally_step. rewrite Hd, Hr, positions_nil, multiplicity_empty.
  destruct e; rewrite ?Nat.add_0_r; try done. by destruct (Hp revokes msg err).
Qed.
Lemma resolve_event e :
  delivers e = [] → (∀ n m err, e ≠ EvPoll n m err) →
  ∀ q dr, tally_step q dr e = (dr.1, (dr.2 + multiplicity q (positions (resolves e)))%nat).
Proof.
  intros Hd Hp q [d r]. unfold tally_step. rewrite Hd, positions_nil, multiplicity_empty.
  destruct e; rewrite ?Nat.add_0_r; try done. by destruct (Hp revokes msg err).
Qed.

Lemma balanced_handled tr sp msgs failed ok sp' e :
  (∀ q dr, tally_step q dr e = (dr.1, (dr.2 + multiplicity q (positions ok))%nat)) →
  positions msgs = positions failed ⊎ positions ok →
  spec_handled msgs failed sp = Some sp' → balanced tr sp → balanced (tr ++ [e]) sp'.
Proof.
  intros Ht Hp Hsp. unfold spec_handled in Hsp. case_bool_decide as Hsub; [|done]. injection Hsp as <-.
  apply (balanced_resolve _ _ _ _ ok); simpl; [done| |done].
  rewrite (gmultiset_disj_union_difference _ _ Hsub) at 1. rewrite Hp. clear. multiset_solver.
Qed.

Lemma balanced_strategy tr sp msgs f err sp' :
  spec_strategy msgs f err sp = Some sp' → balanced tr sp → balanced (tr ++ [EvStrategy msgs f err]) sp'.
Proof.
  unfold spec_strategy. intros Hsp. case_bool_decide as Hsub; [|done]. destruct Hsub as [_ Hsub].
  destruct err as [e|]; injection Hsp as <-.
  - by apply balanced_quiet; [by apply quiet_event|..].
  - apply (balanced_resolve _ _ _ _ msgs); [by apply resolve_event| |done]. simpl.
    rewrite (gmultiset_disj_union_difference _ _ Hsub) at 1. clear. multiset_solver.
Qed.

Lemma balanced_poll tr sp n msg err :
  balanced tr sp → balanced (tr ++ [EvPoll n msg err]) (spec_poll n msg err sp).
Proof.
  intros [Hd Hs]. unfold balanced, delivered, resolved in *. setoid_rewrite tally_snoc.
  assert (∀ q, let sp1 := if (0 <? n)%nat then mkSpec PhRunning ∅ ∅ ∅ else sp in
    let dr := match n with S _ => (0, 0)%nat | O => tally q tr end in
    dr.1 = (dr.2 + multiplicity q (sp_fresh sp1 ⊎ sp_failed sp1))%nat ∧
    (q ∈ sp_seen sp1 → (0 < dr.1)%nat)) as H1.
  { intros q. destruct n; simpl; [by split; [apply Hd|apply Hs]|].
    rewrite (left_id_L ∅ (⊎)), multiplicity_empty. split; [done|set_solver]. }
  unfold spec_poll. set (sp1 := if (0 <? n)%nat then _ else sp) in *. clearbody sp1. clear Hd Hs.
  assert (∀ q dr, tally_step q dr (EvPoll n msg err) =
    (((match n with S _ => (0, 0)%nat | O => dr end).1 + multiplicity q (positions (option_list msg)))%nat,
     (match n with S _ => (0, 0)%nat | O => dr end).2)) as Ht.
  { intros q [d r]. unfold tally_step. cbn [delivers resolves]. rewrite positions_nil, multiplicity_empty.
    by destruct n; rewrite ?Nat.add_0_r. }
  setoid_rewrite Ht. destruct msg as [m|]; simpl.
  - rewrite positions_cons, positions_nil. split; intros q; destruct (H1 q) as [Hq1 Hq2]; simpl in *;
      rewrite !multiplicity_disj_union, multiplicity_empty in *; [lia|].
    intros [->%elem_of_singleton|Hq]%elem_of_union.
    + rewrite multiplicity_singleton, decide_True by done. lia.
    + specialize (Hq2 Hq). lia.
  - split; intros q; destruct (H1 q) as [Hq1 Hq2]; simpl in *; rewrite positions_nil, multiplicity_empty; [lia|].
    intros Hq. specialize (Hq2 Hq). lia.
Qed.

Lemma balanced_step tr sp e sp' : spec_step sp e = Some sp' → balanced tr sp → balanced (tr ++ [e]) sp'.
Proof.
  intros Hst Hb. destruct sp as [ph fresh failed seen]. unfold spec_step in Hst. simpl in Hst.
  assert (∀ e sp', delivers e = [] → resolves e = [] → (∀ n m err, e ≠ EvPoll n m err) →
    sp_fresh sp' = fresh → sp_failed sp' = failed → sp_seen sp' = seen → balanced (tr ++ [e]) sp') as Hq.
  { intros. eapply balanced_quiet; [by apply quiet_event|..|exact Hb]; done. }
  destruct e, ph; try done;
    try (injection Hst as <-; by apply Hq);
    try (injection Hst as <-; by apply balanced_poll);
    try (by eapply balanced_strategy);
    try (destruct (may_store _ _ _ _); [|done]; injection Hst as <-; by apply Hq);
    try (by destruct err); try (destruct err; injection Hst as <-; by apply Hq).
  - eapply balanced_handled; [by apply resolve_event| |exact Hst|done]. simpl.
    unfold failed_of_call. clear. destruct (hc_outcome call) as [[]|]; rewrite ?positions_nil; multiset_solver.
  - eapply balanced_handled; [by apply resolve_event| |exact Hst|done]. simpl. unfold failed_of_batch.
    clear. destruct (bc_outcome call) as [[]|]; [|apply failed_succeeded|];
      rewrite ?positions_nil; multiset_solver.
Qed.

Lemma balanced_run tr : ∀ sp, spec_run tr = Some sp → balanced tr sp.
Proof.
  induction tr as [|e tr IH] using rev_ind; intros sp.
  - intros [= <-]. split; intros q; simpl.
    + by rewrite (left_id_L ∅ (⊎)), multiplicity_empty.
    + set_solver.
  - rewrite spec_run_snoc. destruct (spec_run tr) as [sp0|]; [|done]. simpl.
    intros Hst. by eapply balanced_step, IH.
Qed.

Lemma spec_run_app tr tr' sp' : spec_run (tr ++ tr') = Some sp' → is_Some (spec_run tr).
Proof.
  revert sp'. induction tr' as [|e tr' IH] using rev_ind; intros sp'; [by rewrite app_nil_r|].
  rewrite app_assoc, spec_run_snoc. destruct (spec_run (tr ++ tr')) eqn:E; [|done]. eauto.
Qed.

(** Every store of a run is of resolved work. *)
Lemma store_is_resolved {W} `{GoRangeLaws} (env : Env W) (cfg : Config (W:=W)) fuel w
    pre topic partition offset err suf :
  st_trace (Start env cfg fuel (created w)).2 = pre ++ EvStore topic partition offset err :: suf →
  (0 < delivered (topic, partition, offset) pre)%nat ∧
  ∀ off, off ≤ offset →
    resolved (topic, partition, off) pre = delivered (topic, partition, off) pre.
Proof.
  intros Htr. destruct (start_trace_accepted env cfg fuel w) as [sp' Hsp'].
  rewrite Htr in Hsp'. change (_ :: suf) with ([EvStore topic partition offset err] ++ suf) in Hsp'.
  rewrite app_assoc in Hsp'. apply spec_run_app in Hsp' as [sp1 Hsp1].
  rewrite spec_run_snoc in Hsp1. destruct (spec_run pre) as [sp|] eqn:Hsp; [|done].
  destruct (balanced_run _ _ Hsp) as [Hd Hs].
  assert (may_store topic partition offset sp = true) as Hmay.
  { simpl in Hsp1. by destruct (sp_phase sp), (may_store topic partition offset sp). }
  apply andb_true_iff in Hmay as [Hin Hall]. apply bool_decide_eq_true in Hin.
  split; [by apply Hs|]. intros off Hoff. set (q := (topic, partition, off) : position).
  change (resolved q pre = delivered q pre). rewrite (Hd q).
  assert (multiplicity q (sp_fresh sp ⊎ sp_failed sp) = 0%nat) as ->; [|lia].
  apply not_elem_of_multiplicity. intros Hq%gmultiset_elem_of_elements%list_elem_of_In.
  rewrite forallb_forall in Hall. specialize (Hall _ Hq). unfold covers in Hall. simpl in Hall.
  rewrite String.eqb_refl, Z.eqb_refl in Hall. simpl in Hall. apply negb_true_iff, Z.leb_gt in Hall. lia.
Qed.

(** ** Records handed over again

    The books start afresh at each revocation.  What goes before it is not forgotten
    if the broker hands over again what was not stored. *)

(** The record at [q] was polled, at any time. *)
Definition polled (q : position) (tr : list event) : Prop := ∃ e m, e ∈ tr ∧ m ∈ delivers e ∧ pos m = q.
(** It was resolved, at any time. *)
Definition settled (q : position) (tr : list event) : Prop := ∃ e m, e ∈ tr ∧ m ∈ resolves e ∧ pos m = q.
(** An offset that covers it was stored, after it had been polled. *)
Definition passed (q : position) (tr : list event) : Prop :=
  ∃ pre o suf, tr = pre ++ EvStore q.1.1 q.1.2 o None :: suf ∧ q.2 ≤ o ∧ polled q pre.

(** Documented behaviour of the group protocol, on the polls of a run: a partition is
    read on from its committed offset.  So a poll does not skip a record of its
    partition that was polled before and that no store has covered since, unless it was
    handed over again after the last revocation, or another member of the group has
    committed past it meanwhile ([elsewhere]). *)
Definition redelivers (elsewhere : position → Prop) (tr : list event) : Prop :=
  ∀ pre e m off suf, tr = pre ++ e :: suf → m ∈ delivers e → off < (pos m).2 →
    let q := ((pos m).1, off) in
    polled q pre → (0 < delivered q (pre ++ [e]))%nat ∨ passed q pre ∨ elsewhere q.

(** Whether a trace is one of these, where no other member commits. *)
Definition polled_messages (tr : list event) : list Message := tr ≫= delivers.
Fixpoint passed_from (q : position) (pre tr : list event) : bool :=
  match tr with
  | [] => false
  | e :: tr =>
      match e with
      | EvStore t p o None => bool_decide (q.1 = (t, p)) && (q.2 <=? o) &&
          existsb (λ m, bool_decide (pos m = q)) (polled_messages pre)
      | _ => false
      end || passed_from q (pre ++ [e]) tr
  end.
Definition handed_over (pre : list event) (e : event) (m m' : Message) : bool :=
  if bool_decide ((pos m').1 = (pos m).1) && ((pos m').2 <? (pos m).2) then
    (0 <? delivered (pos m') (pre ++ [e]))%nat || passed_from (pos m') [] pre
  else true.
Fixpoint redelivers_from (pre tr : list event) : bool :=
  match tr with
  | [] => true
  | e :: tr =>
      forallb (λ m, forallb (handed_over pre e m) (polled_messages pre)) (delivers e) &&
      redelivers_from (pre ++ [e]) tr
  end.

Lemma polled_spec q tr : polled q tr ↔ ∃ m, m ∈ polled_messages tr ∧ pos m = q.
Proof.
  unfold polled, polled_messages. setoid_rewrite list_elem_of_bind. split.
  - intros (e & m & He & Hm & Hp). exists m. split; [|done]. by exists e.
  - intros (m & (e & Hm & He) & Hp). by exists e, m.
Qed.
Lemma passed_from_spec q tr : ∀ pre, passed_from q pre tr = true → passed q (pre ++ tr).
Proof.
  induction tr as [|e tr IH]; intros pre; cbn [passed_from]; [done|].
  intros [He|Hr]%orb_true_iff.
  - destruct e as [| | | | | | |t p o [err|]| | | | | | |]; try done.
    apply andb_true_iff in He as [[Hq%bool_decide_eq_true_1 Ho%Z.leb_le]%andb_true_iff Hp].
    apply existsb_exists in Hp as (m & Hm%list_elem_of_In & Hpos%bool_decide_eq_true_1).
    exists pre, o, tr. rewrite Hq. split_and!; [done..|]. apply polled_spec. by exists m.
  - apply IH in Hr. by rewrite <-app_assoc in Hr.
Qed.
Lemma redelivers_from_spec tr : ∀ pre, redelivers_from pre tr = true →
  ∀ l e m off suf, tr = l ++ e :: suf → m ∈ delivers e → off < (pos m).2 →
    polled ((pos m).1, off) (pre ++ l) →
    (0 < delivered ((pos m).1, off) ((pre ++ l) ++ [e]))%nat ∨ passed ((pos m).1, off) (pre ++ l).
Proof.
  induction tr as [|e0 tr IH]; intros pre; cbn [redelivers_from]; [by intros _ [|] ? ? ? ? [=]|].
  intros [Hc Hr]%andb_true_iff l e m off suf Htr Hm Hoff Hpo. destruct l as [|e1 l]; injection Htr as -> ->.
  - rewrite app_nil_r in *. rewrite forallb_forall in Hc. specialize (Hc m (proj1 (list_elem_of_In _ _) Hm)).
    rewrite forallb_forall in Hc. apply polled_spec in Hpo as (m' & Hm'%list_elem_of_In & Hp').
    specialize (Hc m' Hm'). unfold handed_over in Hc. rewrite Hp' in Hc. cbn [fst snd] in Hc.
    rewrite bool_decide_eq_true_2, (proj2 (Z.ltb_lt _ _) Hoff) in Hc by done. cbn [andb] in Hc.
    apply orb_true_iff in Hc as [Hd%Nat.ltb_lt|Hp]; [by left|right]. by apply passed_from_spec in Hp.
  - specialize (IH _ Hr l e m off suf eq_refl Hm Hoff). rewrite <-!app_assoc in IH. cbn in IH.
    rewrite <-!app_assoc. apply IH. exact Hpo.
Qed.
Lemma redelivers_check tr : redelivers_from [] tr = true → redelivers (λ _, False) tr.
Proof.
  intros Hc pre e m off suf Htr Hm Hoff q Hpo.
  destruct (redelivers_from_spec tr [] Hc pre e m off suf Htr Hm Hoff Hpo) as [?|?]; auto.
Qed.

Lemma polled_app q l k : polled q (l ++ k) ↔ polled q l ∨ polled q k.
Proof.
  unfold polled. setoid_rewrite elem_of_app. split.
  - intros (e & m & [He|He] & Hm); [left|right]; by exists e, m.
  - intros [(e & m & He & Hm)|(e & m & He & Hm)]; exists e, m; split; auto.
Qed.
Lemma settled_weaken q l k : settled q l → settled q (l ++ k).
Proof. intros (e & m & He & Hm). exists e, m. split; [apply elem_of_app; by left|done]. Qed.

Lemma positions_elem q ms : q ∈ positions ms ↔ ∃ m, m ∈ ms ∧ pos m = q.
Proof.
  unfold positions. rewrite elem_of_list_to_set_disj, list_elem_of_fmap. split; intros (m & ? & ?); by exists m.
Qed.
Lemma resolved_settled q tr : (0 < resolved q tr)%nat → settled q tr.
Proof.
  unfold resolved. induction tr as [|e tr IH] using rev_ind; [cbn; lia|]. rewrite tally_snoc.
  destruct (decide (q ∈ positions (resolves e))) as [(m & Hm & Hp)%positions_elem|Hin].
  - intros _. exists e, m. split; [apply elem_of_app; right; by left|done].
  - apply not_elem_of_multiplicity in Hin. unfold tally_step. destruct (tally q tr) as [d r]. cbn in IH.
    intros Hr. apply settled_weaken, IH.
    destruct e as [| | |[]| | | | | | | | | | |]; cbn in *; lia.
Qed.

(** No revocation among [tr]. *)
Definition calm (tr : list event) : Prop := ∀ n m err, EvPoll n m err ∈ tr → n = 0%nat.
Lemma calm_keeps q l k : calm k → (0 < delivered q l)%nat → (0 < delivered q (l ++ k))%nat.
Proof.
  induction k as [|e k IH] using rev_ind; [by rewrite app_nil_r|]. intros Hc Hl.
  assert (0 < delivered q (l ++ k))%nat as Hk.
  { apply IH; [|done]. intros n m err Hin. apply (Hc n m err), elem_of_app. by left. }
  rewrite app_assoc. unfold delivered in *. rewrite tally_snoc. unfold tally_step.
  destruct (tally q (l ++ k)) as [d r]. cbn in *. destruct e as [| | |n m err| | | | | | | | | | |]; cbn; try lia.
  assert (n = 0%nat) as ->; [|cbn; lia]. apply (Hc n m err), elem_of_app. right. by left.
Qed.
(** A record delivered since the last revocation: where it was polled. *)
Lemma delivered_polled q tr : (0 < delivered q tr)%nat →
  ∃ pre e m suf, tr = pre ++ e :: suf ∧ m ∈ delivers e ∧ pos m = q ∧ calm suf.
Proof.
  unfold delivered. induction tr as [|e tr IH] using rev_ind; [cbn; lia|]. rewrite tally_snoc.
  destruct (decide (q ∈ positions (delivers e))) as [(m & Hm & Hp)%positions_elem|Hin].
  - intros _. exists tr, e, m, []. split_and!; [done..|]. by intros n m' err ?%elem_of_nil.
  - apply not_elem_of_multiplicity in Hin. unfold tally_step. destruct (tally q tr) as [d r]. cbn in IH. intros Hd.
    assert (0 < d)%nat as Hd'. { destruct e as [| | |[]| | | | | | | | | | |]; cbn in *; lia. }
    destruct (IH Hd') as (pre & e' & m & suf & -> & Hm & Hp & Hc). exists pre, e', m, (suf ++ [e]).
    split_and!; [by rewrite <-app_assoc|done..|]. intros n m' err [Hi|Hi%list_elem_of_singleton]%elem_of_app; [by eapply Hc|].
    subst e. destruct n; [done|]. cbn in *. lia.
Qed.
(** A record polled since, with no revocation after. *)
Lemma polled_delivered q l k : calm k → polled q k → (0 < delivered q (l ++ k))%nat.
Proof.
  intros Hc (e & m & (k1 & k2 & ->)%list_elem_of_split & Hm & Hp).
  assert (l ++ k1 ++ e :: k2 = (l ++ k1 ++ [e]) ++ k2) as -> by (by rewrite <-!app_assoc).
  apply calm_keeps. { intros n m' err Hin. apply (Hc n m' err), elem_of_app. right. by right. }
  rewrite app_assoc. unfold delivered. rewrite tally_snoc. unfold tally_step.
  assert (multiplicity q (positions (delivers e)) ≠ 0%nat) as Hn.
  { intros Hz%not_elem_of_multiplicity. destruct Hz. apply positions_elem. by exists m. }
  destruct (tally q (l ++ k1)) as [d r]. destruct e as [| | |[]| | | | | | | | | | |]; cbn in *; lia.
Qed.

(** At every store of a run that is handed over again what was not stored, each record
    ever polled at or below the offset has been resolved. *)
Lemma store_settles tr elsewhere : redelivers elsewhere tr →
  (∀ pre t p o err suf, tr = pre ++ EvStore t p o err :: suf →
     (0 < delivered (t, p, o) pre)%nat ∧ ∀ off, off ≤ o → resolved (t, p, off) pre = delivered (t, p, off) pre) →
  ∀ n pre t p o err suf, (length pre < n)%nat → tr = pre ++ EvStore t p o err :: suf →
  ∀ off, off ≤ o → polled (t, p, off) pre → settled (t, p, off) pre ∨ elsewhere (t, p, off).
Proof.
  intros Hre Hst n. induction n as [|n IH]; intros pre t p o err suf Hn Htr off Hoff Hpo; [lia|].
  destruct (Hst pre t p o err suf Htr) as [Hdel Hres].
  assert ((0 < delivered (t, p, off) pre)%nat → settled (t, p, off) pre ∨ elsewhere (t, p, off)) as Hin.
  { intros Hd. left. apply resolved_settled. by rewrite Hres. }
  destruct (decide (off = o)) as [->|Hne]; [by apply Hin|].
  destruct (delivered_polled _ _ Hdel) as (l & e & m & k & -> & Hm & Hp & Hc).
  apply polled_app in Hpo as [Hpo|Hpo].
  - assert (tr = l ++ e :: (k ++ EvStore t p o err :: suf)) as Htr' by (by rewrite Htr, <-app_assoc).
    destruct (Hre l e m off _ Htr' Hm) as [Hd|[(l1 & o' & l2 & El & Ho & Hpl)|He]].
    + rewrite Hp. simpl. lia.
    + by rewrite Hp.
    + apply Hin. assert (l ++ e :: k = (l ++ [e]) ++ k) as -> by (by rewrite <-app_assoc).
      rewrite Hp in Hd. by apply calm_keeps.
    + rewrite Hp in El, Ho, Hpl. cbn in El, Ho, Hpl.
      destruct (IH l1 t p o' None (l2 ++ e :: k ++ EvStore t p o err :: suf)) with (off := off) as [Hs|He]; [|..|by right].
      * subst l. rewrite !length_app in Hn. cbn in Hn. lia.
      * by rewrite Htr', El, <-app_assoc.
      * done.
      * done.
      * left. subst l. rewrite <-app_assoc. by apply settled_weaken.
    + right. by rewrite Hp in He.
  - apply Hin. destruct Hpo as (e' & m' & [->|He']%elem_of_cons & Hm' & Hp').
    + assert (m' = m) as ->; [|congruence]. destruct e as [| | |? [m0|] ?| | | | | | | | | | |]; cbn in *;
        try by apply elem_of_nil in Hm. apply list_elem_of_singleton in Hm, Hm'. congruence.
    + assert (l ++ e :: k = (l ++ [e]) ++ k) as -> by (by rewrite <-app_assoc).
      apply polled_delivered; [done|]. by exists e', m'.
Qed.
(** So in any run of the subscriber. *)
Lemma Start_settles {W} `{GoRangeLaws} (env : Env W) (cfg : Config (W:=W)) fuel w elsewhere
    pre t p o err suf off :
  let tr := st_trace (Start env cfg fuel (created w)).2 in
  redelivers elsewhere tr → tr = pre ++ EvStore t p o err :: suf → off ≤ o → polled (t, p, off) pre →
  settled (t, p, off) pre ∨ elsewhere (t, p, off).
Proof.
  intros tr Hre Htr. eapply (store_settles tr elsewhere Hre); [|by apply Nat.lt_succ_diag_r|exact Htr].
  intros pre' t' p' o' err' suf'. apply store_is_resolved.
Qed.

(** ** Property *)

(** C4 (at-least-once) An offset is stored only for work that is done: at every
    store in any run, the record at that offset has been delivered, and every
    record of its partition at or below it has been resolved as often as it was
    delivered since the last revocation, by a handler that returned success for
    it or by a strategy that returned nil for it.  A handler that fails, fails an
    item or panics resolves nothing. *)
Theorem stored_offsets_are_resolved {W} `{GoRangeLaws} (env : Env W) (cfg : Config (W:=W)) fuel w
    pre topic partition offset err suf :
  st_trace (Start env cfg fuel (created w)).2 = pre ++ EvStore topic partition offset err :: suf →
  (0 < delivered (topic, partition, offset) pre)%nat ∧
  ∀ off, off ≤ offset →
    resolved (topic, partition, off) pre = delivered (topic, partition, off) pre.
Proof. apply store_is_resolved. Qed.

(** ** Witness *)

(** In the batch run above, the store of offset 7 on partition 0 comes after both
    deliveries of offset 6, one of them revoked, and one batch resolved. *)
Lemma stored_offsets_are_resolved_witness :
  let tr := st_trace (Start Ex_subscriber.env (H:=range_canonical) (Ex_subscriber.config true) 8
                        (created Ex_subscriber.w0)).2 in
  ∃ pre suf, tr = pre ++ EvStore "orders" 0 7 None :: suf ∧
    (0 < delivered ("orders", 0, 7)%Z pre)%nat ∧
    ∀ off, off ≤ 7 → resolved ("orders", 0, off) pre = delivered ("orders", 0, off) pre.
Proof.
  intros tr.
  exists (take 15 tr), (drop 16 tr).
  assert (tr = take 15 tr ++ EvStore "orders" 0 7 None :: drop 16 tr) as E by (vm_compute; reflexivity).
  split; [exact E|].
  exact (@stored_offsets_are_resolved _ range_canonical range_canonical_laws Ex_subscriber.env
           (Ex_subscriber.config true) 8 Ex_subscriber.w0 _ _ _ _ _ _ E).
Defined.

(** In that run the broker hands over again what was revoked unstored: offset 6, which
    the handler then resolves before 7 is stored. *)
Example Ex_redelivered :
  let tr := st_trace (Start Ex_subscriber.env (H:=range_canonical) (Ex_subscriber.config true) 8
                        (created Ex_subscriber.w0)).2 in
  redelivers (λ _, False) tr ∧ settled ("orders", 0, 6) (take 15 tr).
Proof.
  intros tr. assert (redelivers (λ _, False) tr) as Hre by (apply redelivers_check; vm_compute; reflexivity).
  split; [exact Hre|].
  assert (tr = take 15 tr ++ EvStore "orders" 0 7 None :: drop 16 tr) as E by (vm_compute; reflexivity).
  destruct (@Start_settles _ range_canonical range_canonical_laws Ex_subscriber.env (Ex_subscriber.config true) 8
              Ex_subscriber.w0 (λ _, False) _ _ _ _ _ _ 6 Hre E) as [Hs|[]]; [lia| |exact Hs].
  apply polled_spec. assert (existsb (λ m, bool_decide (pos m = ("orders", 0, 6))) (polled_messages (take 15 tr)) = true) as Hx
    by (vm_compute; reflexivity).
  apply existsb_exists in Hx as (m & Hm%list_elem_of_In & Hp%bool_decide_eq_true_1). exists m. split; [exact Hm|exact Hp].
Qed.
