(* ===== verification/Lifecycle.v ===== *)
(** * Lifecycle of a subscriber

    A subscriber runs once; it returns when its context is cancelled; what a
    cancelled run does; and what a failing strategy makes [Start] return. *)
From S2P Require Import Prelude GoErrors GoTime LogCode Types Buffer ConsumerApi SubscribeOptions.
From S2P Require Import Strategies Subscriber Walk AtLeastOnce Accounts.

(** ** Termination

    [m w] bounds how often the context can still be found open: a check that
    finds it open lowers [m], and nothing else raises it.  That is what it means
    for the caller to cancel the context eventually. *)
Record cancelled_within {W} (env : Env W) (cfg : Config (W:=W)) (m : W → nat) : Prop := {
  can_done : ∀ w, if (ctx_Done env w).1 then (m (ctx_Done env w).2 ≤ m w)%nat
                  else (m (ctx_Done env w).2 < m w)%nat;
  can_now : ∀ w, (m (time_Now env w).2 ≤ m w)%nat;
  can_handler : ∀ h msg p w, cfg_Handler cfg = Some h → (m (h msg p w).2 ≤ m w)%nat;
  can_batch : ∀ h b w, cfg_BatchHandler cfg = Some h → (m (h b w).2 ≤ m w)%nat;
  can_strategy : ∀ s, cfg_ErrorStrategy cfg = Some s →
    (∀ msgs f w, (m (es_HandleError s msgs f w).2 ≤ m w)%nat) ∧
    (∀ i c, es_Initializable s = Some (i, c) →
       (∀ ic w, (m (i ic w).2 ≤ m w)%nat) ∧ (∀ w, (m (c w).2 ≤ m w)%nat)) ∧
    (∀ l lg w, es_LoggerAware s = Some l → (m (l lg w) ≤ m w)%nat);
  can_new : ∀ n dc w, cfg_newConsumer cfg = Some n → (m (n dc w).2 ≤ m w)%nat;
  can_driver : ∀ n dc w d, cfg_newConsumer cfg = Some n → (n dc w).1 = inl d →
    ∀ w, (m (Connect d w).2 ≤ m w)%nat ∧ (m (SubscribeToTopic d w).2 ≤ m w)%nat ∧
         (∀ t, m (Poll d t w).2 ≤ m w)%nat ∧ (∀ t p o, m (StoreOffset d t p o w).2 ≤ m w)%nat ∧
         (m (CommitStored d w).2 ≤ m w)%nat ∧ (m (MaybeCommitStored d w).2 ≤ m w)%nat ∧
         (m (SetOnRevoke d w) ≤ m w)%nat ∧ (m (Close d w).2 ≤ m w)%nat;
}.

Section termination.
Context {W : Type} `{GoRange} (env : Env W) (cfg : Config (W:=W)) (m : W → nat).
Context (Hcan : cancelled_within env cfg m).

Section driver.
Context (strategy : ErrorStrategy W) (Hstrategy : cfg_ErrorStrategy cfg = Some strategy).
Context (driver : Consumer W).
Context (Hdriver : ∀ w,
  (m (Connect driver w).2 ≤ m w)%nat ∧ (m (SubscribeToTopic driver w).2 ≤ m w)%nat ∧
  (∀ t, m (Poll driver t w).2 ≤ m w)%nat ∧ (∀ t p o, m (StoreOffset driver t p o w).2 ≤ m w)%nat ∧
  (m (CommitStored driver w).2 ≤ m w)%nat ∧ (m (MaybeCommitStored driver w).2 ≤ m w)%nat ∧
  (m (SetOnRevoke driver w) ≤ m w)%nat ∧ (m (Close driver w).2 ≤ m w)%nat).

(** The computation does not raise [m]. *)
Definition keeps {A} (c : ST (SubState W) A) : Prop :=
  ∀ s, (m (st_world (c s).2) ≤ m (st_world s))%nat.
(** [m] is at most [b]. *)
Definition at_most (b : nat) (_ : list event) (w : W) : Prop := (m w ≤ b)%nat.

Lemma at_most_steady b w w' : (m w' ≤ m w)%nat → steady (at_most b) w w'.
Proof. unfold steady, at_most. intros ? _ ?. lia. Qed.
Lemma at_most_application b : application_steady (at_most b) env cfg.
Proof.
  destruct (handlers_steady (at_most b) cfg) as (He & Hh & Hb); try (intros; apply at_most_steady; by apply Hcan); [done|].
  constructor; try done; try (intros; apply at_most_steady; by apply Hcan).
  - intros w. apply at_most_steady. pose proof (can_done _ _ _ Hcan w). destruct (ctx_Done env w) as [[] ?]; simpl in *; lia.
  - intros s ms f w tr Hs. apply (at_most_steady b w). by apply (can_strategy _ _ _ Hcan).
  - intros s i c Hs Hi. destruct (can_strategy _ _ _ Hcan _ Hs) as (_ & Hic & _).
    destruct (Hic i c Hi). by split; intros; apply at_most_steady.
  - intros s l lg w Hs Hl. apply at_most_steady. by apply (can_strategy _ _ _ Hcan s).
Qed.
Lemma at_most_driver b : driver_steady (at_most b) driver.
Proof. constructor; intros; first [apply at_most_steady|apply (at_most_steady b w); [|done]]; by apply Hdriver. Qed.
Lemma keeps_pres {A} (c : ST (SubState W) A) : (∀ b, pres (at_most b) c) → keeps c.
Proof. intros Hc s. exact (Hc (m (st_world s)) s (le_n _)). Qed.
Lemma keeps_single_message msg : keeps (single_message cfg strategy driver msg).
Proof.
  apply keeps_pres. intros b. eapply pres_single_message; [apply at_most_application|done|apply at_most_driver].
Qed.
Lemma keeps_batch_body msg : keeps (batch_body env cfg strategy driver msg).
Proof.
  apply keeps_pres. intros b. eapply pres_batch_body; [apply at_most_application|done|apply at_most_driver].
Qed.

(** How many iterations are left: enough fuel for them ends the loop. *)
Definition left_ (s : SubState W) : nat :=
  if st_state s =? stateRunning then S (S (m (st_world s))) else 1%nat.

(** What an iteration does after the context was found open. *)
Definition after_check (body : option Message → ST (SubState W) control) : ST (SubState W) control :=
  r ← poll cfg driver;
  let '(msg, err) := r in
  match err with
  | Some e =>
      log Error_ (Some PollFatal) ;; set_state stateStopping ;;
      mret (Break_ (Some (wrap_err "polling error" e)))
  | None => body msg
  end.
Lemma iteration_unfold body s :
  iteration env cfg driver body s =
    if st_state s =? stateRunning then
      let s' := (world (ctx_Done env) s).2 in
      if (ctx_Done env (st_world s)).1 then (Continue_, (set_state stateStopping s').2)
      else after_check body s'
    else (Break_ None, s).
Proof.
  unfold iteration, after_check, mbind, ST_bind, gets, world.
  destruct (st_state s =? stateRunning) eqn:Hs; cbn [negb]; [|done].
  destruct (ctx_Done env (st_world s)) as [[|] w]; cbn [fst snd st_state]; [done|].
  by rewrite Hs.
Qed.

Lemma iteration_progress body s : (∀ msg, keeps (body msg)) →
  match (iteration env cfg driver body s).1 with
  | Continue_ => (left_ (iteration env cfg driver body s).2 < left_ s)%nat
  | Break_ _ => True
  end.
Proof.
  intros Hbody. unfold left_. rewrite iteration_unfold.
  destruct (st_state s =? stateRunning) eqn:Hs; [|done].
  pose proof (can_done _ _ _ Hcan (st_world s)) as Hd. unfold world.
  destruct (ctx_Done env (st_world s)) as [[|] w]; cbn [fst snd] in *; [simpl; lia|].
  assert (keeps (after_check body)) as Hk.
  { intros s1. unfold after_check, mbind, ST_bind.
    assert (m (st_world (poll cfg driver s1).2) ≤ m (st_world s1))%nat as Hp.
    { apply (keeps_pres (poll cfg driver)). intros b.
      eapply pres_poll; [apply at_most_application|apply at_most_driver]. }
    destruct (poll cfg driver s1) as [[msg [e|]] s2]; [exact Hp|]. specialize (Hbody msg s2).
    simpl in *. lia. }
  set (s0 := mkSubState _ _ _ _ w). specialize (Hk s0).
  destruct (after_check body s0) as [[|err] s1]; [|done]. simpl in *.
  destruct (st_state s1 =? stateRunning); lia.
Qed.

Lemma loop_returns body fuel : (∀ msg, keeps (body msg)) →
  ∀ s, (left_ s ≤ fuel)%nat → is_Some (loop (iteration env cfg driver body) fuel s).1.
Proof.
  intros Hbody. induction fuel as [|fuel IH]; intros s Hs.
  { unfold left_ in Hs. destruct (_ =? _); lia. }
  cbn [loop]. unfold mbind, ST_bind. pose proof (iteration_progress body s Hbody) as Hp.
  destruct (iteration env cfg driver body s) as [[|err] s']; simpl in *; [|done]. apply IH. lia.
Qed.

Lemma run_returns fuel s :
  st_state s = stateRunning → (S (S (m (st_world s))) ≤ fuel)%nat →
  is_Some (run env cfg strategy driver fuel s).1.
Proof.
  intros Hs Hfuel.
  assert (post (run env cfg strategy driver fuel) (λ r _, is_Some r) s) as Hr; [|exact Hr].
  unfold run. apply post_bind.
  apply post_mono with (λ _ s', st_state s' = stateRunning ∧ (m (st_world s') ≤ m (st_world s))%nat).
  { pose proof (Hdriver (st_world s)) as (Hc & _). unfold connect, post, mbind, ST_bind, world.
    simpl. by destruct (Connect driver (st_world s)). }
  intros [e|] s1 [Hs1 Hm1]; [by eexists|]. apply post_bind.
  apply post_mono with (λ _ s', st_state s' = stateRunning ∧ (m (st_world s') ≤ m (st_world s))%nat).
  { destruct (is_batch cfg); [|done]. pose proof (Hdriver (st_world s1)) as Hc.
    unfold post. simpl. split; [done|]. destruct Hc as (_ & _ & _ & _ & _ & _ & Hc & _). lia. }
  clear s1 Hs1 Hm1. intros [] s1 [Hs1 Hm1]. apply post_bind.
  apply post_mono with (λ _ s', st_state s' = stateRunning ∧ (m (st_world s') ≤ m (st_world s))%nat).
  { pose proof (Hdriver (st_world s1)) as (_ & Hc & _). unfold subscribe_, post, mbind, ST_bind, world.
    simpl. destruct (SubscribeToTopic driver (st_world s1)). simpl in *. split; [done|lia]. }
  clear s1 Hs1 Hm1. intros [e|] s1 [Hs1 Hm1].
  { unfold post, mbind, ST_bind. by destruct (close_driver driver s1). }
  apply post_bind.
  apply post_mono with (λ r _, is_Some r).
  { assert (left_ s1 ≤ fuel)%nat as Hl by (unfold left_; rewrite Hs1; simpl; lia).
    destruct (is_batch cfg); apply loop_returns; try done.
    - apply keeps_batch_body.
    - intros [msg|]; [apply keeps_single_message|by intros ?]. }
  intros r s2 [loopErr ->].
  repeat (apply post_bind; eapply post_mono; [apply post_true|]; intros ? ? _). by eexists.
Qed.
End driver.

(** The subscriber runs, and [m] is at most [k]. *)
Definition runs_within (k : nat) (s : SubState W) : Prop :=
  st_state s = stateRunning ∧ (m (st_world s) ≤ k)%nat.

Lemma within_world {A} (f : W → A * W) k s (Q : A → SubState W → Prop) :
  runs_within k s → (∀ w, (m (f w).2 ≤ m w)%nat) →
  (∀ s', runs_within k s' → Q (f (st_world s)).1 s') → post (world f) Q s.
Proof.
  intros [Hs Hk] Hf HQ. unfold post, world. specialize (Hf (st_world s)).
  destruct (f (st_world s)) as [a w]. simpl in *. apply HQ. split; [done|]. simpl. lia.
Qed.
Lemma within_emit e k s (Q : unit → SubState W → Prop) :
  runs_within k s → (∀ s', runs_within k s' → Q tt s') → post (emit e) Q s.
Proof. intros Hs HQ. apply post_modify, HQ. done. Qed.

Lemma within_init strategy k s : cfg_ErrorStrategy cfg = Some strategy → runs_within k s →
  post (init_strategy cfg strategy) (λ _ s', runs_within k s') s.
Proof.
  intros Hst Hs. unfold init_strategy. destruct (es_Initializable strategy) as [[i c]|] eqn:E; [|done].
  destruct (can_strategy _ _ _ Hcan _ Hst) as (_ & Hi & _). destruct (Hi _ _ E) as [Hi1 _].
  apply post_bind. eapply within_world; [done|apply Hi1|]. intros s' Hs'.
  apply post_bind. by apply (within_emit _ k).
Qed.
Lemma within_logger strategy k s : cfg_ErrorStrategy cfg = Some strategy → runs_within k s →
  post (set_logger cfg strategy) (λ _ s', runs_within k s') s.
Proof.
  intros Hst Hs. unfold set_logger. destruct (es_LoggerAware strategy) as [l|] eqn:E; [|done].
  destruct (can_strategy _ _ _ Hcan _ Hst) as (_ & _ & Hl).
  eapply within_world; [done| |done]. intros w. simpl. by apply Hl.
Qed.

Lemma start_claimed_returns strategy newConsumer fuel k s :
  cfg_ErrorStrategy cfg = Some strategy → cfg_newConsumer cfg = Some newConsumer →
  runs_within k s → (S (S k) ≤ fuel)%nat →
  post (start_claimed env cfg strategy newConsumer fuel) (λ r _, is_Some r) s.
Proof.
  intros Hst Hn Hs Hfuel. unfold start_claimed.
  apply post_bind. apply (within_emit _ k); [done|]. clear s Hs. intros s Hs.
  apply post_bind. eapply post_mono; [by apply (within_init _ k)|].
  clear s Hs. intros [e|] s Hs; [by eexists|].
  apply post_bind. eapply post_mono; [by apply (within_logger _ k)|]. clear s Hs. intros [] s Hs.
  apply post_bind. eapply within_world; [done|intros w; by apply (can_new _ _ _ Hcan)|].
  intros s1 Hs1. destruct (newConsumer (driverConfig cfg) (st_world s)).1 as [driver|e] eqn:Hd.
  2: { repeat (apply post_bind; eapply post_mono; [apply post_true|]; intros ? ? _). by eexists. }
  pose proof (can_driver _ _ _ Hcan _ _ _ _ Hn Hd) as Hdriver. clear s Hs Hd.
  apply post_bind. apply (within_emit _ k); [done|]. clear s1 Hs1. intros s Hs.
  apply post_bind. apply post_mono with (λ _ s', runs_within k s'); [by destruct (is_batch cfg)|].
  clear s Hs. intros [] s Hs. apply post_bind. apply (within_emit _ k); [done|].
  clear s Hs. intros s [Hs Hk]. apply post_bind.
  apply post_mono with (λ r _, is_Some r); [apply run_returns; [exact Hst|exact Hdriver|exact Hs|lia]|].
  intros r s' [err ->].
  repeat (apply post_bind; eapply post_mono; [apply post_true|]; intros ? ? _). by eexists.
Qed.
End termination.

Lemma Start_total {W} `{GoRange} (env : Env W) (cfg : Config (W:=W)) (m : W → nat) fuel w :
  cancelled_within env cfg m → is_Some (cfg_ErrorStrategy cfg) → is_Some (cfg_newConsumer cfg) →
  (m w + 2 ≤ fuel)%nat →
  is_Some (Start env cfg fuel (created w)).1.
Proof.
  intros Hcan [strategy Hst] [newConsumer Hn] Hfuel.
  assert (post (Start env cfg fuel) (λ r _, is_Some r) (created w)) as Hr; [|exact Hr].
  unfold Start. apply post_bind, post_gets. apply post_bind, post_modify. rewrite Hst, Hn.
  apply post_bind. eapply post_mono.
  - apply (start_claimed_returns _ _ _ Hcan _ _ _ (m w)); [done|done|by split|lia].
  - intros r s [err ->]. by eexists.
Qed.

(** ** Properties *)

(** C14 (termination) [Start] returns: if the caller's context is cancelled, in
    the sense that only so many checks can still find it open, then so many
    iterations of the loop and two more are enough, whatever is polled and
    however the handler, the strategy and the broker behave. *)
Theorem Start_returns {W} `{GoRange} (env : Env W) (cfg : Config (W:=W)) (m : W → nat) fuel w :
  cancelled_within env cfg m → is_Some (cfg_ErrorStrategy cfg) → is_Some (cfg_newConsumer cfg) →
  (m w + 2 ≤ fuel)%nat →
  is_Some (Start env cfg fuel (created w)).1.
Proof. apply Start_total. Qed.

(** A subscriber starts at most once: after a [Start], returned
    or still running, another one is refused, does nothing and leaves the
    subscriber as it is; and a [Start] that returns leaves it stopped. *)
Theorem Start_single_use {W} `{GoRangeLaws} (env : Env W) (cfg : Config (W:=W)) fuel fuel' w :
  let '(r, s) := Start env cfg fuel (created w) in
  Start env cfg fuel' s = (Some (Some (errors_New "subscriber already started or stopped")), s) ∧
  (is_Some r → st_state s = stateStopped).
Proof.
  pose proof (start_accepted env cfg fuel w) as Hok. unfold post in Hok.
  destruct (Start env cfg fuel (created w)) as [r s]. simpl in *. destruct Hok as [Hok Hst].
  split; [|done]. assert (st_state s ≠ stateCreated) as Hne.
  { destruct r; simpl in Hok; [by rewrite Hst by eauto|apply Hok]. }
  unfold Start, mbind, ST_bind, gets. by rewrite (proj2 (Z.eqb_neq _ _) Hne).
Qed.

(** ** Storing a batch *)

(** The stores of a stretch of trace: partition, offset, result. *)
Definition stores (evs : list event) : list (string * Z * Z * option goerr) :=
  omap (λ e, match e with EvStore t p o err => Some (t, p, o, err) | _ => None end) evs.
(** A store failure that must stop the consumer. *)
Definition fatal_store (err : option goerr) : bool :=
  match err with None => false | Some _ => negb (errors_Is err ErrPartitionRevoked) end.

Lemma stores_store t p o err evs : stores (EvStore t p o err :: evs) = (t, p, o, err) :: stores evs.
Proof. done. Qed.
Lemma existsb_cons {A} (f : A → bool) x l : existsb f (x :: l) = f x || existsb f l.
Proof. done. Qed.

Section batch_stores.
Context {W : Type} (driver : Consumer W).

Lemma store_all_stores tps : ∀ fatal s,
  let '(r, s') := store_all driver tps fatal s in
  ∃ evs, st_trace s' = st_trace s ++ evs ∧ (stores evs).*1 = tps ∧
    (r = None ↔ fatal = None ∧ existsb (λ st, fatal_store st.2) (stores evs) = false) ∧
    (∀ target, errors_Is r target = errors_Is fatal target ||
       existsb (λ st, fatal_store st.2 && errors_Is st.2 target) (stores evs)).
Proof.
  induction tps as [|[[t p] o] tps IH]; intros fatal s.
  { simpl. exists []. rewrite app_nil_r. split_and!; try done.
    - by split; [intros ->|intros []].
    - intros. by rewrite orb_false_r. }
  cbn [store_all]. unfold storeOffset, mbind, ST_bind, world.
  destruct (StoreOffset driver t p o (st_world s)) as [err w]. cbn.
  set (s0 := mkSubState _ _ _ (st_trace s ++ [EvStore t p o err]) w).
  destruct (fatal_store err) eqn:Hft; pose proof Hft as Hf; unfold fatal_store in Hf.
  - destruct err as [e|]; [|done]. apply negb_true_iff in Hf. rewrite Hf.
    specialize (IH (errors_Join [fatal; Some e]) s0).
    destruct (store_all driver tps (errors_Join [fatal; Some e]) s0) as [r s'].
    destruct IH as (evs & Htr & Hst & Hn & Ht). exists (EvStore t p o (Some e) :: evs). split_and!.
    + rewrite Htr. subst s0. cbn [st_trace]. by rewrite <-app_assoc.
    + simpl. f_equal. exact Hst.
    + rewrite Hn, stores_store, existsb_cons. cbn [snd]. rewrite Hft, errors_Join_None. split; [|by intros []].
      intros [Hall _]. by apply Forall_inv_tail, Forall_inv in Hall.
    + intros target. rewrite Ht, errors_Is_join, stores_store, !existsb_cons. cbn [snd existsb].
      by rewrite Hft, orb_false_r, orb_assoc.
  - assert (∀ s1, st_trace s1 = st_trace s0 ++ (match err with None => [] | Some _ => [EvLog (LogLine Debug_ None)] end) →
      let '(r, s') := store_all driver tps fatal s1 in
      ∃ evs, st_trace s' = st_trace s ++ evs ∧ (stores evs).*1 = (t, p, o) :: tps ∧
        (r = None ↔ fatal = None ∧ existsb (λ st, fatal_store st.2) (stores evs) = false) ∧
        (∀ target, errors_Is r target = errors_Is fatal target ||
           existsb (λ st, fatal_store st.2 && errors_Is st.2 target) (stores evs))) as Hk.
    { intros s1 Hs1. specialize (IH fatal s1). destruct (store_all driver tps fatal s1) as [r s'].
      destruct IH as (evs & Htr & Hst & Hn & Ht).
      exists (EvStore t p o err :: (match err with None => [] | Some _ => [EvLog (LogLine Debug_ None)] end) ++ evs).
      assert (stores (EvStore t p o err :: (match err with None => [] | Some _ => [EvLog (LogLine Debug_ None)] end) ++ evs)
              = (t, p, o, err) :: stores evs) as -> by (by destruct err).
      split_and!.
      - rewrite Htr, Hs1. subst s0. cbn [st_trace]. by rewrite <-!app_assoc.
      - simpl. f_equal. exact Hst.
      - rewrite Hn, existsb_cons. cbn [snd]. by rewrite Hft.
      - intros target. rewrite Ht, existsb_cons. cbn [snd]. by rewrite Hft. }
    destruct err as [e|].
    + apply negb_false_iff in Hf. rewrite Hf. cbn. by apply Hk.
    + apply Hk. by rewrite app_nil_r.
Qed.
End batch_stores.

(** C37 (batch stores) Once a batch is resolved, exactly one offset is stored per
    partition of the batch, its highest, in whatever order the map is walked; a
    failing store does not keep the other partitions from being stored; a revoked
    partition is no failure; and every other failure is reported, [errors.Is]
    finding in the result exactly what it finds in one of them. *)
Theorem batch_stores_highest {W} `{GoRangeLaws} (driver : Consumer W) msgs s :
  let '(r, s') := storeHighestOffsetPerPartition driver msgs s in
  ∃ evs, st_trace s' = st_trace s ++ evs ∧
    NoDup (stores evs).*1.*1 ∧
    (∀ tp o, (tp, o) ∈ (stores evs).*1 ↔
       (∃ m, m ∈ msgs ∧ msg_tp m = tp ∧ msg_Offset m = o) ∧
       (∀ m, m ∈ msgs → msg_tp m = tp → msg_Offset m ≤ o)) ∧
    (r = None ↔ existsb (λ st, fatal_store st.2) (stores evs) = false) ∧
    (∀ target, errors_Is r target =
       existsb (λ st, fatal_store st.2 && errors_Is st.2 target) (stores evs)).
Proof.
  unfold storeHighestOffsetPerPartition.
  pose proof (store_all_stores driver (go_range (highest_offsets msgs)) None s) as Hs.
  destruct (store_all driver _ None s) as [r s']. destruct Hs as (evs & Htr & Hst & Hn & Ht).
  exists evs. split_and!; [done| | | |by intros; rewrite Ht].
  - rewrite Hst. apply NoDup_go_range.
  - intros tp o. rewrite Hst. etransitivity; [apply elem_of_go_range|].
    pose proof (highest_offsets_spec msgs tp) as Hm. split.
    + intros E. by rewrite E in Hm.
    + intros [(m & Hin & Htp & Ho) Hmax]. destruct (highest_offsets msgs !! tp) as [o'|].
      * destruct Hm as [(m' & Hin' & Htp' & Ho') Hmax'].
        specialize (Hmax m' Hin' Htp'). specialize (Hmax' m Hin Htp). f_equal. lia.
      * by destruct (Hm m Hin).
  - rewrite Hn. split; [by intros []|done].
Qed.

(** Cancelling the context stops the loop at its next check, in
    either mode, without an error: nothing more is polled, handled, routed,
    stored or committed by the loop, and a partly filled batch is discarded, not
    dispatched. *)
Theorem cancelled_loop_stops {W} `{GoRange} (env : Env W) (cfg : Config (W:=W)) strategy driver fuel s :
  st_state s = stateRunning → (ctx_Done env (st_world s)).1 = true → (2 ≤ fuel)%nat →
  (if is_batch cfg then runBatchLoop env cfg strategy driver fuel
   else runSingleLoop env cfg strategy driver fuel) s =
  (Some None, mkSubState stateStopping (st_buf s) (st_hook s) (st_trace s) (ctx_Done env (st_world s)).2).
Proof.
  intros Hs Hd Hfuel. destruct fuel as [|[|fuel]]; [lia|lia|].
  assert (∀ body, loop (iteration env cfg driver body) (S (S fuel)) s =
    (Some None, mkSubState stateStopping (st_buf s) (st_hook s) (st_trace s) (ctx_Done env (st_world s)).2)) as Hl.
  { intros body. cbn [loop]. unfold mbind, ST_bind. rewrite iteration_unfold, Hs, Hd.
    change (stateRunning =? stateRunning) with true. cbn [negb].
    unfold world. destruct (ctx_Done env (st_world s)) as [d w]. cbn [snd].
    by rewrite iteration_unfold. }
  unfold runBatchLoop, runSingleLoop, batch_step, single_step. destruct (is_batch cfg); apply Hl.
Qed.

(** The failure a handler call amounts to, with the reason filled in. *)
Definition failure_of (o : outcome) : option Failure :=
  match o with
  | Returned None => None
  | Returned (Some f) =>
      Some {| f_Err := Some (default ErrUnspecified (f_Err f)); f_Step := f_Step f; f_Code := f_Code f |}
  | Panicked text => Some (panic_failure text)
  end.

(** No offset is stored and nothing is committed in this stretch of trace. *)
Definition stores_nothing (evs : list event) : Prop :=
  Forall (λ e, match e with EvStore _ _ _ _ | EvMaybeCommit _ | EvFinalCommit _ => False | _ => True end) evs.

Lemma failfast_HandleError_ {W} (logw : log_line → W → W) m f (s : SubState W) :
  ∃ evs w err,
    HandleError_ (NewFailFastStrategy logw) [m] f s =
      (Some err, mkSubState (st_state s) (st_buf s) (st_hook s) (st_trace s ++ evs) w) ∧
    stores_nothing evs ∧
    ∀ target, errors_Is (Some err) target = errors_Is (Some (default ErrUnspecified (f_Err f))) target.
Proof.
  unfold HandleError_, withReason.
  destruct (f_Err f) as [e|] eqn:E; unfold mbind, ST_bind, world; cbn -[errors_Is]; do 3 eexists.
  - split; [reflexivity|]. split; [by repeat constructor|]. intros target.
    rewrite errors_Is_errorf, E. cbn -[errors_Is]. by rewrite orb_false_r.
  - rewrite <-app_assoc. split; [reflexivity|]. split; [by repeat constructor|]. intros target.
    rewrite errors_Is_errorf. cbn -[errors_Is]. by rewrite orb_false_r.
Qed.

(** Under the fail-fast strategy the first message a handler fails,
    by returning a failure, with or without an error, or by panicking, stops the
    subscriber: no offset is stored or committed for it, and the error [Start]
    returns wraps the handler's, so [errors.Is] finds in it exactly what it finds
    in the handler's error. *)
Theorem failfast_stops {W} `{GoRange} (cfg : Config (W:=W)) logw driver msg s h f :
  cfg_Handler cfg = Some h →
  failure_of (hc_outcome (h (Some msg) (msg_Payload msg) (st_world s)).1) = Some f →
  let '(c, s') := single_message cfg (NewFailFastStrategy logw) driver msg s in
  st_state s' = stateStopping ∧
  (∃ evs, st_trace s' = st_trace s ++ evs ∧ stores_nothing evs) ∧
  ∃ err, c = Break_ (Some err) ∧ ∀ target, errors_Is (Some err) target = errors_Is (f_Err f) target.
Proof.
  intros Hh Hf. unfold single_message, dispatchMessage. rewrite Hh.
  unfold mbind, ST_bind, world. destruct (h (Some msg) (msg_Payload msg) (st_world s)) as [call w].
  cbn [fst] in Hf.
  assert (∀ f0 s0 ws, default ErrUnspecified (f_Err f0) = default ErrUnspecified (f_Err f) → is_Some (f_Err f) →
    (∃ evs, st_trace s0 = st_trace s ++ evs ∧ stores_nothing evs) →
    let '(c, s') := let '(x, s') := HandleError_ (NewFailFastStrategy logw) [write_msg ws msg] f0 s0 in
      match x with
      | Some e => λ s1, (Break_ (Some (wrap_err "error strategy" e)),
          mkSubState stateStopping (st_buf s1) (st_hook s1)
            (st_trace s1 ++ [EvLog (LogLine Error_ (Some StoppedByStrategy))]) (st_world s1))
      | None => finish_message driver (write_msg ws msg)
      end s' in
    st_state s' = stateStopping ∧ (∃ evs, st_trace s' = st_trace s ++ evs ∧ stores_nothing evs) ∧
    ∃ err, c = Break_ (Some err) ∧ ∀ target, errors_Is (Some err) target = errors_Is (f_Err f) target) as Hk.
  { intros f0 s0 ws Hef [e He] (evs0 & Htr & Hn0).
    destruct (failfast_HandleError_ logw (write_msg ws msg) f0 s0) as (evs & w' & err & -> & Hn & Ht).
    cbn [st_state st_trace st_buf st_hook st_world]. split; [done|]. split.
    - exists (evs0 ++ evs ++ [EvLog (LogLine Error_ (Some StoppedByStrategy))]).
      rewrite Htr, <-!app_assoc. split; [done|]. apply Forall_app. split; [done|].
      apply Forall_app. split; [done|by repeat constructor].
    - exists (wrap_err "error strategy" err). split; [done|]. intros target. unfold wrap_err.
      rewrite errors_Is_errorf. cbn [existsb]. by rewrite orb_false_r, Ht, Hef, He. }
  destruct call as [[[f0|]|text] ws]; try done; injection Hf as <-.
  - apply (Hk f0); [done|by eexists|]. eexists. split; [reflexivity|by repeat constructor].
  - apply (Hk (panic_failure text)); [done|by eexists|]. eexists. cbn. rewrite <-app_assoc.
    split; [reflexivity|by repeat constructor].
Qed.

(** The timeout the driver polls with is the configured one in
    whole milliseconds, rounded down: for a configuration [New] accepts it is at
    least 10 and never longer than configured. *)
Theorem poll_timeout_bounds {W} (cfg : Config (W:=W)) :
  accepted cfg → cfg_PollTimeout cfg < 2 ^ 63 →
  10 ≤ pollTimeoutMs cfg < 2 ^ 63 ∧
  pollTimeoutMs cfg * Millisecond ≤ cfg_PollTimeout cfg < (pollTimeoutMs cfg + 1) * Millisecond.
Proof.
  intros [_ _ _ _ Hp _ _ _ _] Hmax. unfold pollTimeoutMs, Millisecond in *.
  rewrite Z.quot_div_nonneg by lia.
  pose proof (Z.div_mod (cfg_PollTimeout cfg) 1000000). pose proof (Z.mod_pos_bound (cfg_PollTimeout cfg) 1000000).
  destruct (Z.ltb_spec (cfg_PollTimeout cfg / 1000000) 1); lia.
Qed.

(** ** Witnesses *)

Lemma ex_cancelled batch : cancelled_within Ex_subscriber.env (Ex_subscriber.config batch) fst.
Proof.
  constructor.
  - by intros [[|n] ps]; simpl; lia.
  - done.
  - by destruct batch; intros ? ? ? ? [= <-].
  - by destruct batch; intros ? ? ? [= <-].
  - intros ? [= <-]. by split_and!.
  - by intros ? ? ? [= <-].
  - intros ? ? ? d [= <-] [= <-] [n ps]. split_and!; try done. intros t. by destruct ps.
Qed.

Lemma Start_returns_witness :
  is_Some (Start Ex_subscriber.env (H:=range_canonical) (Ex_subscriber.config true) 8
             (created Ex_subscriber.w0)).1.
Proof.
  apply (@Start_returns _ range_canonical Ex_subscriber.env (Ex_subscriber.config true) fst).
  - apply ex_cancelled.
  - by eexists.
  - by eexists.
  - by vm_compute; lia.
Defined.

Lemma Start_single_use_witness :
  let '(r, s) := Start Ex_subscriber.env (H:=range_canonical) (Ex_subscriber.config false) 3
                   (created Ex_subscriber.w0) in
  Start Ex_subscriber.env (H:=range_canonical) (Ex_subscriber.config false) 8 s =
    (Some (Some (errors_New "subscriber already started or stopped")), s) ∧
  (is_Some r → st_state s = stateStopped).
Proof.
  exact (@Start_single_use _ range_canonical range_canonical_laws Ex_subscriber.env
           (Ex_subscriber.config false) 3 8 Ex_subscriber.w0).
Defined.

Lemma batch_stores_highest_witness :
  let '(r, s') := storeHighestOffsetPerPartition (H:=range_canonical) Ex_subscriber.consumer
      [Ex_subscriber.message 0 6; Ex_subscriber.message 1 9; Ex_subscriber.message 0 7]
      (created Ex_subscriber.w0) in
  ∃ evs, st_trace s' = evs ∧
    (∀ tp o, (tp, o) ∈ (stores evs).*1 ↔
       (∃ m, m ∈ [Ex_subscriber.message 0 6; Ex_subscriber.message 1 9; Ex_subscriber.message 0 7] ∧
             msg_tp m = tp ∧ msg_Offset m = o) ∧
       (∀ m, m ∈ [Ex_subscriber.message 0 6; Ex_subscriber.message 1 9; Ex_subscriber.message 0 7] →
             msg_tp m = tp → msg_Offset m ≤ o)).
Proof.
  pose proof (@batch_stores_highest _ range_canonical range_canonical_laws Ex_subscriber.consumer
      [Ex_subscriber.message 0 6; Ex_subscriber.message 1 9; Ex_subscriber.message 0 7]
      (created Ex_subscriber.w0)) as Hb.
  destruct (storeHighestOffsetPerPartition _ _ _) as [r s']. destruct Hb as (evs & Htr & _ & Hin & _).
  exists evs. split; [exact Htr|exact Hin].
Defined.

Lemma cancelled_loop_stops_witness :
  let s := mkSubState stateRunning (Some (NewBuffer 3 Second)) true [EvSetOnRevoke]
             (0%nat, Ex_subscriber.script) in
  (runBatchLoop Ex_subscriber.env (H:=range_canonical) (Ex_subscriber.config true) Ex_subscriber.skip
     Ex_subscriber.consumer 2 s).2 =
  mkSubState stateStopping (Some (NewBuffer 3 Second)) true [EvSetOnRevoke] (0%nat, Ex_subscriber.script).
Proof.
  intros s. pose proof (@cancelled_loop_stops _ range_canonical Ex_subscriber.env
    (Ex_subscriber.config true) Ex_subscriber.skip Ex_subscriber.consumer 2 s eq_refl eq_refl (le_n 2)) as E.
  cbn [is_batch] in E. exact (f_equal snd E).
Defined.

Lemma failfast_stops_witness :
  let logw := λ (_ : log_line) (w : Ex_subscriber.W), w in
  let '(c, s') := single_message (Ex_subscriber.config false) (NewFailFastStrategy logw)
      Ex_subscriber.consumer (Ex_subscriber.message 0 7) (created Ex_subscriber.w0) in
  st_state s' = stateStopping.
Proof.
  intros logw.
  pose proof (@failfast_stops _ range_canonical (Ex_subscriber.config false) logw Ex_subscriber.consumer
    (Ex_subscriber.message 0 7) (created Ex_subscriber.w0) Ex_subscriber.handler Ex_subscriber.failure
    eq_refl eq_refl) as Hf.
  destruct (single_message _ _ _ _ _) as [c s']. exact (proj1 Hf).
Defined.

Lemma poll_timeout_bounds_witness :
  accepted (Ex_subscriber.config true) ∧ 10 ≤ pollTimeoutMs (Ex_subscriber.config true).
Proof.
  assert (accepted (Ex_subscriber.config true)) as Ha.
  { constructor; simpl; try done; try (by eexists); unfold Second, Millisecond; try lia.
    - split; [done|]. by intros ?%list_elem_of_singleton.
    - right. split_and!; try done; lia.
    - exists ∅. split; [done|]. intros k. rewrite lookup_empty. by intros []. }
  split; [exact Ha|]. apply (poll_timeout_bounds _ Ha). by vm_compute.
Defined.
