(* ===== verification/GoText.v ===== *)
(** * UTF-8 and splitting of Go strings

    The parts of [unicode/utf8] and [strings] the playground uses: [utf8.Valid],
    [TrimSpace], [Split] and [SplitSeq] at a byte, and [Cut] at a byte.  A string is
    its sequence of bytes. *)
From S2P Require Import Prelude GoStrings GoTime.
From Stdlib Require Import Ascii.

(** ** UTF-8 *)

Definition byte_val (c : ascii) : Z := Z.of_N (N_of_ascii c).
Definition within (lo hi : Z) (c : ascii) : bool := (lo <=? byte_val c) && (byte_val c <=? hi).
Definition continuation : ascii → bool := within 128 191.

(** The well-formed sequences of one, two, three and four bytes: no overlong form,
    no surrogate, nothing past U+10FFFF. *)
Definition utf8_1 (a : ascii) : bool := within 0 127 a.
Definition utf8_2 (a b : ascii) : bool := within 194 223 a && continuation b.
Definition utf8_3 (a b c : ascii) : bool :=
  within 224 239 a &&
  within (if byte_val a =? 224 then 160 else 128) (if byte_val a =? 237 then 159 else 191) b &&
  continuation c.
Definition utf8_4 (a b c d : ascii) : bool :=
  within 240 244 a &&
  within (if byte_val a =? 240 then 144 else 128) (if byte_val a =? 244 then 143 else 191) b &&
  continuation c && continuation d.

(** [utf8.Valid]. *)
Fixpoint utf8_Valid (s : string) : bool :=
  match s with
  | EmptyString => true
  | String a s =>
      if utf8_1 a then utf8_Valid s
      else match s with
      | EmptyString => false
      | String b s =>
          if utf8_2 a b then utf8_Valid s
          else match s with
          | EmptyString => false
          | String c s =>
              if utf8_3 a b c then utf8_Valid s
              else match s with
              | EmptyString => false
              | String d s => utf8_4 a b c d && utf8_Valid s
              end
          end
      end
  end.

(** ** Space *)

(** The code points of a sequence, where [unicode.IsSpace] can hold: it has no
    space of four bytes. *)
Definition rune_1 (a : ascii) : Z := byte_val a.
Definition rune_2 (a b : ascii) : Z := (byte_val a - 192) * 64 + (byte_val b - 128).
Definition rune_3 (a b c : ascii) : Z :=
  (byte_val a - 224) * 4096 + (byte_val b - 128) * 64 + (byte_val c - 128).
(** [unicode.IsSpace]. *)
Definition IsSpace (r : Z) : bool :=
  ((9 <=? r) && (r <=? 13)) || (r =? 32) || (r =? 133) || (r =? 160) || (r =? 5760) ||
  ((8192 <=? r) && (r <=? 8202)) || (r =? 8232) || (r =? 8233) || (r =? 8239) || (r =? 8287) || (r =? 12288).

(** The spaces at the start of a valid string are removed. *)
Fixpoint trim_left (s : string) : string :=
  match s with
  | String a s1 =>
      if utf8_1 a then if IsSpace (rune_1 a) then trim_left s1 else s
      else match s1 with
      | String b s2 =>
          if utf8_2 a b then if IsSpace (rune_2 a b) then trim_left s2 else s
          else match s2 with
          | String c s3 => if utf8_3 a b c && IsSpace (rune_3 a b c) then trim_left s3 else s
          | EmptyString => s
          end
      | EmptyString => s
      end
  | EmptyString => s
  end.
(** [s] is spaces only. *)
Definition blank (s : string) : bool := String.eqb (trim_left s) EmptyString.
(** The spaces at the end are removed: what is left is the text before the first
    place from which there are only spaces. *)
Fixpoint trim_right (s : string) : string :=
  match s with
  | EmptyString => EmptyString
  | String a s1 => if blank s then EmptyString else String a (trim_right s1)
  end.
(** [strings.TrimSpace], of a valid string. *)
Definition TrimSpace (s : string) : string := trim_right (trim_left s).

(** ** Splitting at a byte *)

(** [strings.Cut(s, sep)]: before and after the first [sep], and whether it is
    there; without one, [s] and the empty string. *)
Fixpoint Cut (sep : ascii) (s : string) : string * string * bool :=
  match s with
  | EmptyString => (EmptyString, EmptyString, false)
  | String c s =>
      if Ascii.eqb c sep then (EmptyString, s, true)
      else let '(before, after, found) := Cut sep s in (String c before, after, found)
  end.
(** [strings.Split(s, sep)], and what [strings.SplitSeq] yields. *)
Fixpoint Split (sep : ascii) (s : string) : list string :=
  match s with
  | EmptyString => [EmptyString]
  | String c s =>
      if Ascii.eqb c sep then EmptyString :: Split sep s
      else match Split sep s with
           | [] => [String c EmptyString] (* does not happen *)
           | x :: l => String c x :: l
           end
  end.

(** ** Lemmas *)

(** A string without a byte. *)
Fixpoint lacks (sep : ascii) (s : string) : bool :=
  match s with EmptyString => true | String c s => negb (Ascii.eqb c sep) && lacks sep s end.

Lemma lacks_app sep s t : lacks sep (s +:+ t) = lacks sep s && lacks sep t.
Proof. induction s as [|c s IH]; [done|]. rewrite app_cons. cbn. by rewrite IH, andb_assoc. Qed.

Lemma Cut_lacks sep s : lacks sep s = true → Cut sep s = (s, EmptyString, false).
Proof.
  induction s as [|c s IH]; [done|]. cbn. intros [Hc%negb_true_iff Hs]%andb_true_iff. by rewrite Hc, IH.
Qed.
Lemma Cut_app sep s t : lacks sep s = true → Cut sep (s +:+ String sep t) = (s, t, true).
Proof.
  induction s as [|c s IH]; rewrite ?app_nil, ?app_cons; cbn; [by rewrite Ascii.eqb_refl|].
  intros [Hc%negb_true_iff Hs]%andb_true_iff. by rewrite Hc, IH.
Qed.
(** [Cut] loses nothing. *)
Lemma Cut_inv sep s : let '(before, after, found) := Cut sep s in
  lacks sep before = true ∧
  s = before +:+ (if found then String sep after else EmptyString) ∧ (found = false → after = EmptyString).
Proof.
  induction s as [|c s IH]; [done|]. cbn. destruct (Ascii.eqb_spec c sep) as [->|Hc]; [done|].
  destruct (Cut sep s) as [[before after] found]. destruct IH as (Hl & -> & Ha). rewrite app_cons. cbn.
  rewrite Hl. by rewrite (proj2 (Ascii.eqb_neq c sep) Hc).
Qed.

Lemma Split_ne sep s : Split sep s ≠ [].
Proof. destruct s as [|c s]; [done|]. cbn. destruct (Ascii.eqb c sep); [done|]. by destruct (Split sep s). Qed.
Lemma Split_lacks sep s : lacks sep s = true → Split sep s = [s].
Proof.
  induction s as [|c s IH]; [done|]. cbn. intros [Hc%negb_true_iff Hs]%andb_true_iff. by rewrite Hc, IH.
Qed.
Lemma Split_app sep s t : lacks sep s = true → Split sep (s +:+ String sep t) = s :: Split sep t.
Proof.
  induction s as [|c s IH]; rewrite ?app_nil, ?app_cons; cbn; [by rewrite Ascii.eqb_refl|].
  intros [Hc%negb_true_iff Hs]%andb_true_iff. by rewrite Hc, IH.
Qed.

(** What [Join] puts between two elements. *)
Lemma Join_cons x y l sep : Join (x :: y :: l) sep = x +:+ sep +:+ Join (y :: l) sep.
Proof. done. Qed.
(** [Join] undoes [Split], and [Split] undoes [Join] of parts without the separator. *)
Lemma Join_Split sep s : Join (Split sep s) (String sep EmptyString) = s.
Proof.
  induction s as [|c s IH]; [done|]. cbn [Split]. pose proof (Split_ne sep s) as Hne.
  destruct (Split sep s) as [|x l]; [done|]. destruct (Ascii.eqb_spec c sep) as [->|Hc].
  - rewrite Join_cons, app_nil, app_cons, app_nil. by rewrite IH.
  - destruct l as [|y l]; [cbn in *; by rewrite IH|]. rewrite Join_cons in *. by rewrite app_cons, IH.
Qed.
Lemma Split_Join sep l : l ≠ [] → Forall (λ x, lacks sep x = true) l →
  Split sep (Join l (String sep EmptyString)) = l.
Proof.
  intros Hne Hl. induction Hl as [|x [|y l] Hx Hl IH]; [done| |].
  - by apply Split_lacks.
  - rewrite Join_cons. rewrite app_cons, app_nil, Split_app by done.
    by rewrite IH.
Qed.
Lemma Split_parts sep s : Forall (λ x, lacks sep x = true) (Split sep s).
Proof.
  induction s as [|c s IH]; [by constructor|]. cbn. destruct (Ascii.eqb c sep) eqn:Hc; [by constructor|].
  destruct (Split sep s) as [|x l]; [constructor; [cbn; by rewrite Hc|done]|].
  inversion IH; subst. constructor; [|done]. cbn. by rewrite Hc.
Qed.

(** *** Plain text *)

(** Printable ASCII other than the space: the same in UTF-8, and nothing to trim. *)
Definition plain_char (c : ascii) : bool := within 33 126 c.
Fixpoint plain (s : string) : bool :=
  match s with EmptyString => true | String c s => plain_char c && plain s end.

Lemma plain_app s t : plain (s +:+ t) = plain s && plain t.
Proof. induction s as [|c s IH]; [done|]. rewrite app_cons. cbn. by rewrite IH, andb_assoc. Qed.
Lemma plain_char_utf8 c : plain_char c = true → utf8_1 c = true ∧ IsSpace (rune_1 c) = false.
Proof. unfold plain_char, utf8_1, within, IsSpace, rune_1. lia. Qed.
Lemma plain_Valid s : plain s = true → utf8_Valid s = true.
Proof.
  induction s as [|c s IH]; [done|]. cbn. intros [[Hc _]%plain_char_utf8 Hs]%andb_true_iff. by rewrite Hc, IH.
Qed.
Lemma plain_trim s : plain s = true → TrimSpace s = s.
Proof.
  intros Hs. unfold TrimSpace.
  assert (∀ t, plain t = true → trim_left t = t) as Hl.
  { intros [|c t]; [done|]. cbn. by intros [[-> ->]%plain_char_utf8 _]%andb_true_iff. }
  rewrite Hl by done. induction s as [|c s IH]; [done|]. cbn [trim_right]. unfold blank. rewrite Hl by done.
  cbn in Hs |- *. apply andb_true_iff in Hs as [_ Hs]. by rewrite IH.
Qed.
