(* ===== verification/Script.v ===== *)
(** * Playground scripts (examples/playground/internal/script/script.go)

    A message's payload as one outcome per delivery attempt. *)
From S2P Require Import Prelude GoStrings GoTime GoText GoErrors.
From Stdlib Require Import Ascii.

(** [Kind] is a string; its six values. *)
Definition Kind : Type := string.
Definition Ok : Kind := "ok".
Definition Ko : Kind := "ko".
Definition Perm : Kind := "perm".
Definition Panic : Kind := "panic".
Definition BatchKo : Kind := "batchko".
Definition Nil : Kind := "nil".

Record Outcome : Type := mkOutcome {
  Kind_ : Kind;
  Step : Z;        (* int32 *)
  Code : string;
  Token : string;
}.
Definition Script : Type := list Outcome.

(** *** parseToken *)

(** The loop over the modifiers. *)
Fixpoint parseModifiers (modifiers : list string) (outcome : Outcome) : Outcome + goerr :=
  match modifiers with
  | [] => inl outcome
  | modifier :: modifiers =>
      let '(key, value, ok) := Cut "=" modifier in
      if negb ok || String.eqb value EmptyString then
        inr (EErrorf ("modifier " +:+ Quote modifier +:+ " is not key=value") [])
      else if String.eqb key "step" then
        match ParseInt 32 value with
        | Some step =>
            if step <? 1 then inr (EErrorf ("step " +:+ Quote value +:+ " is not a positive number") [])
            else parseModifiers modifiers (mkOutcome (Kind_ outcome) step (Code outcome) (Token outcome))
        | None => inr (EErrorf ("step " +:+ Quote value +:+ " is not a positive number") [])
        end
      else if String.eqb key "code" then
        parseModifiers modifiers (mkOutcome (Kind_ outcome) (Step outcome) value (Token outcome))
      else inr (EErrorf ("unknown modifier " +:+ Quote key) [])
  end.

Definition is_kind (name : string) (kinds : list Kind) : bool := existsb (String.eqb name) kinds.

Definition parseToken (token : string) : Outcome + goerr :=
  let '(name, modifiers, hasModifiers) := Cut ":" token in
  let outcome := mkOutcome name 0 EmptyString token in
  if is_kind name [Ok; Panic] then
    if hasModifiers then inr (EErrorf (Quote name +:+ " takes no step or code") [])
    else inl outcome
  else if is_kind name [Ko; Perm; BatchKo; Nil] then
    if negb hasModifiers then inl outcome
    else parseModifiers (Split "," modifiers) outcome
  else inr (EErrorf ("unknown token " +:+ Quote name) []).

(** *** Parse *)

Fixpoint parseTokens (i : Z) (tokens : list string) : Script + goerr :=
  match tokens with
  | [] => inl []
  | token :: tokens =>
      match parseToken token with
      | inr err =>
          inr (EErrorf ("token " +:+ Itoa (i + 1) +:+ " " +:+ Quote token +:+ ": " +:+ error_text err) [err])
      | inl outcome =>
          match parseTokens (i + 1) tokens with
          | inr err => inr err
          | inl s => inl (outcome :: s)
          end
      end
  end.

Definition Parse (payload : bytes) : Script + goerr :=
  let payload := default EmptyString payload in
  if negb (utf8_Valid payload) then inr (errors_New "payload is not valid UTF-8")
  else
    let text := TrimSpace payload in
    if String.eqb text EmptyString then inr (errors_New "payload is empty")
    else parseTokens 0 (Split "/" text).

(** [At]: an index out of range panics, with the runtime's text. *)
Definition index_panic (i : Z) : string := "runtime error: index out of range [" +:+ Itoa i +:+ "]".
Definition At (s : Script) (attempt : Z) : Outcome + string :=
  let i := if Z.of_nat (length s) <=? attempt then Z.of_nat (length s) - 1 else attempt in
  if i <? 0 then inr (index_panic i)
  else match s !! Z.to_nat i with Some o => inl o | None => inr (index_panic i) end.

(** ** Lemmas *)

(** Every byte of [s] has the property. *)
Fixpoint all_bytes (p : ascii → bool) (s : string) : bool :=
  match s with EmptyString => true | String c s => p c && all_bytes p s end.
Lemma all_bytes_impl (p q : ascii → bool) s : (∀ c, p c = true → q c = true) →
  all_bytes p s = true → all_bytes q s = true.
Proof.
  intros Hpq. induction s as [|c s IH]; [done|]. cbn. intros [Hc Hs]%andb_true_iff.
  by rewrite (Hpq c Hc), IH.
Qed.
Lemma plain_bytes s : plain s = all_bytes plain_char s.
Proof. induction s as [|c s IH]; [done|]. cbn. by rewrite IH. Qed.
Lemma lacks_bytes sep s : lacks sep s = all_bytes (λ c, negb (Ascii.eqb c sep)) s.
Proof. induction s as [|c s IH]; [done|]. cbn. by rewrite IH. Qed.

Lemma format_digits_bytes fuel : ∀ n acc, all_bytes is_digit acc = true →
  all_bytes is_digit (format_digits fuel n acc) = true.
Proof.
  induction fuel as [|fuel IH]; intros n acc Ha; [done|]. cbn [format_digits].
  assert (all_bytes is_digit (String (digit_char (n mod 10)) acc) = true) as Hc.
  { cbn. rewrite is_digit_char; [done|]. by apply N.mod_lt. }
  destruct (n <? 10)%N; [done|]. by apply IH.
Qed.
Lemma FormatInt_digits z : 0 ≤ z → all_bytes is_digit (FormatInt z) = true.
Proof.
  intros Hz. unfold FormatInt. assert ((z <? 0) = false) as -> by lia. by apply format_digits_bytes.
Qed.
Lemma digit_plain c : is_digit c = true → plain_char c = true.
Proof.
  unfold is_digit, plain_char, within, byte_val. intros [H1%N.leb_le H2%N.leb_le]%andb_true_iff.
  apply andb_true_iff; split; apply Z.leb_le; lia.
Qed.
Lemma digit_not sep c : is_digit sep = false → is_digit c = true → negb (Ascii.eqb c sep) = true.
Proof. intros Hs Hc. destruct (Ascii.eqb_spec c sep); [congruence|done]. Qed.
Lemma FormatInt_plain z : 0 ≤ z → plain (FormatInt z) = true.
Proof. intros Hz. rewrite plain_bytes. eapply all_bytes_impl; [apply digit_plain|by apply FormatInt_digits]. Qed.
Lemma FormatInt_lacks sep z : is_digit sep = false → 0 ≤ z → lacks sep (FormatInt z) = true.
Proof.
  intros Hs Hz. rewrite lacks_bytes. eapply all_bytes_impl; [intros c; by apply digit_not|by apply FormatInt_digits].
Qed.

(** ** Writing scripts *)

(** A token as a person writes it. *)
Record instruction : Type := mkInstruction { i_kind : Kind; i_step : option Z; i_code : option string }.
Definition modifiers_of (i : instruction) : list string :=
  match i_step i with Some n => ["step=" +:+ Itoa n] | None => [] end ++
  match i_code i with Some c => ["code=" +:+ c] | None => [] end.
Definition show (i : instruction) : string :=
  match modifiers_of i with [] => i_kind i | mods => i_kind i +:+ ":" +:+ Join mods "," end.
Definition outcome_of (i : instruction) : Outcome :=
  mkOutcome (i_kind i) (default 0 (i_step i)) (default EmptyString (i_code i)) (show i).
(** What can be written: a step and a code for a failure only, a code that holds
    none of the separators. *)
Definition writable (i : instruction) : Prop :=
  (is_kind (i_kind i) [Ok; Panic] = true ∧ i_step i = None ∧ i_code i = None ∨
   is_kind (i_kind i) [Ko; Perm; BatchKo; Nil] = true) ∧
  (∀ n, i_step i = Some n → 1 ≤ n < 2 ^ 31) ∧
  (∀ c, i_code i = Some c → c ≠ EmptyString ∧ plain c = true ∧ lacks "/" c = true ∧ lacks "," c = true).

Lemma is_kind_spec name kinds : is_kind name kinds = true ↔ name ∈ kinds.
Proof.
  unfold is_kind. rewrite existsb_exists. setoid_rewrite String.eqb_eq. setoid_rewrite <-list_elem_of_In.
  split; [by intros (? & ? & ->)|eauto].
Qed.
(** The names of the kinds are plain and hold no separator. *)
Definition name_ok (name : string) : bool :=
  plain name && lacks "/" name && lacks ":" name && negb (String.eqb name EmptyString).
Lemma kind_ok name : is_kind name [Ok; Panic; Ko; Perm; BatchKo; Nil] = true → name_ok name = true.
Proof.
  intros Hk%is_kind_spec. assert (Forall (λ n, name_ok n = true) [Ok; Panic; Ko; Perm; BatchKo; Nil]) as Hall.
  { repeat constructor. }
  by rewrite Forall_forall in Hall; apply Hall.
Qed.
Lemma writable_kind i : writable i → is_kind (i_kind i) [Ok; Panic; Ko; Perm; BatchKo; Nil] = true.
Proof. intros [[[Hk _]|Hk] _]; apply is_kind_spec; apply is_kind_spec in Hk; rewrite !elem_of_cons in *; tauto. Qed.

(** The modifiers a person writes are read back. *)
Lemma modifier_step n rest o : 1 ≤ n < 2 ^ 31 →
  parseModifiers (("step=" +:+ Itoa n) :: rest) o =
  parseModifiers rest (mkOutcome (Kind_ o) n (Code o) (Token o)).
Proof.
  intros Hn. cbn [parseModifiers]. change ("step=" +:+ Itoa n) with ("step" +:+ String "=" (Itoa n)).
  rewrite Cut_app by done. cbn [negb orb]. unfold Itoa.
  rewrite (proj2 (String.eqb_neq _ _) (FormatInt_nonempty n)).
  change (String.eqb "step" "step") with true. cbn iota.
  rewrite ParseInt_FormatInt by lia. assert ((n <? 1) = false) as -> by lia. done.
Qed.
Lemma modifier_code c rest o : c ≠ EmptyString →
  parseModifiers (("code=" +:+ c) :: rest) o =
  parseModifiers rest (mkOutcome (Kind_ o) (Step o) c (Token o)).
Proof.
  intros Hc. cbn [parseModifiers]. change ("code=" +:+ c) with ("code" +:+ String "=" c).
  rewrite Cut_app by done. cbn [negb orb]. by rewrite (proj2 (String.eqb_neq _ _) Hc).
Qed.
Lemma modifiers_lack i : writable i → Forall (λ m, lacks "," m = true) (modifiers_of i).
Proof.
  intros (_ & Hs & Hc). unfold modifiers_of. apply Forall_app. split.
  - destruct (i_step i) as [n|]; [|done]. constructor; [|done].
    destruct (Hs n eq_refl). rewrite lacks_app. by apply FormatInt_lacks; [|lia].
  - destruct (i_code i) as [c|]; [|done]. constructor; [|done].
    destruct (Hc c eq_refl) as (_ & _ & _ & ?). by rewrite lacks_app.
Qed.
Lemma parse_modifiers_of i t : writable i →
  parseModifiers (modifiers_of i) (mkOutcome (i_kind i) 0 EmptyString t) =
  inl (mkOutcome (i_kind i) (default 0 (i_step i)) (default EmptyString (i_code i)) t).
Proof.
  intros (_ & Hs & Hc). unfold modifiers_of.
  destruct (i_step i) as [n|], (i_code i) as [c|]; cbn [app];
    rewrite ?modifier_step, ?modifier_code by (by first [apply Hs|apply Hc]); done.
Qed.
Lemma parseToken_show i : writable i → parseToken (show i) = inl (outcome_of i).
Proof.
  intros Hw. pose proof (kind_ok _ (writable_kind i Hw)) as [[[_ _]%andb_true_iff Hl]%andb_true_iff _]%andb_true_iff.
  pose proof (parse_modifiers_of i (show i) Hw) as Hp. pose proof (modifiers_lack i Hw) as Hlm.
  pose proof Hw as [Hk _]. unfold parseToken, outcome_of.
  assert (is_kind (i_kind i) [Ko; Perm; BatchKo; Nil] = true → is_kind (i_kind i) [Ok; Panic] = false) as Hdis.
  { intros Hf%is_kind_spec. apply not_true_is_false. rewrite is_kind_spec. revert Hf.
    rewrite !elem_of_cons, !elem_of_nil. by intros [->|[->|[->|[->|[]]]]] [?|[?|[]]]. }
  destruct (modifiers_of i) as [|m mods] eqn:Em.
  - assert (i_step i = None ∧ i_code i = None) as [-> ->].
    { unfold modifiers_of in Em. by destruct (i_step i), (i_code i). }
    unfold show. rewrite Em, Cut_lacks by done. cbn [negb default].
    destruct Hk as [(-> & _)|Hk]; [done|]. by rewrite Hdis, Hk.
  - destruct Hk as [(_ & Hs & Hc)|Hk]; [unfold modifiers_of in Em; by rewrite Hs, Hc in Em|].
    assert (show i = i_kind i +:+ String ":" (Join (m :: mods) ",")) as Es by (unfold show; by rewrite Em).
    rewrite Es at 1. rewrite Cut_app by done. rewrite Hdis, Hk by done. cbn [negb].
    change (Join (m :: mods) ",") with (Join (m :: mods) (String "," EmptyString)). by rewrite Split_Join.
Qed.
Lemma parseTokens_show l : ∀ k, Forall writable l → parseTokens k (show <$> l) = inl (outcome_of <$> l).
Proof.
  induction l as [|i l IH]; intros k Hl; [done|]. apply Forall_cons in Hl as [Hi Hl].
  cbn [fmap list_fmap parseTokens]. by rewrite parseToken_show, IH.
Qed.

(** A written token is plain text without a slash. *)
Lemma Join_bytes (p : ascii → bool) sep l : all_bytes p sep = true →
  Forall (λ x, all_bytes p x = true) l → all_bytes p (Join l sep) = true.
Proof.
  assert (∀ s t, all_bytes p (s +:+ t) = all_bytes p s && all_bytes p t) as Happ.
  { intros s t. induction s as [|c s IH]; [done|]. rewrite app_cons. cbn. by rewrite IH, andb_assoc. }
  intros Hs Hl. induction Hl as [|x [|y l] Hx Hl IH]; [done..|]. by rewrite Join_cons, !Happ, Hx, Hs, IH.
Qed.
Lemma modifiers_plain i : writable i →
  Forall (λ m, plain m = true ∧ lacks "/" m = true) (modifiers_of i).
Proof.
  intros (_ & Hs & Hc). unfold modifiers_of. apply Forall_app. split.
  - destruct (i_step i) as [n|]; [|done]. constructor; [|done]. destruct (Hs n eq_refl).
    rewrite plain_app, lacks_app. split; [by apply FormatInt_plain; lia|by apply FormatInt_lacks; [|lia]].
  - destruct (i_code i) as [c|]; [|done]. constructor; [|done].
    destruct (Hc c eq_refl) as (_ & Hp & Hl & _). rewrite plain_app, lacks_app. by split.
Qed.
Lemma show_plain i : writable i → plain (show i) = true ∧ lacks "/" (show i) = true ∧ show i ≠ EmptyString.
Proof.
  intros Hw.
  pose proof (kind_ok _ (writable_kind i Hw)) as [[[Hp Hl]%andb_true_iff _]%andb_true_iff Hne]%andb_true_iff.
  apply negb_true_iff, String.eqb_neq in Hne. pose proof (modifiers_plain i Hw) as Hm. unfold show.
  destruct (modifiers_of i) as [|m mods]; [done|].
  assert (plain (Join (m :: mods) ",") = true ∧ lacks "/" (Join (m :: mods) ",") = true) as [Hjp Hjl].
  { rewrite plain_bytes, lacks_bytes. split; (apply Join_bytes; [done|]); (eapply Forall_impl; [exact Hm|]);
      intros x [Hx Hy]; by rewrite <-?plain_bytes, <-?lacks_bytes. }
  rewrite !plain_app, !lacks_app, Hp, Hl, Hjp, Hjl. split_and!; [done..|].
  by destruct (i_kind i).
Qed.

(** What [Parse] returns. *)
Definition well_typed (o : Outcome) : Prop :=
  is_kind (Kind_ o) [Ok; Panic; Ko; Perm; BatchKo; Nil] = true ∧ 0 ≤ Step o < 2 ^ 31 ∧
  (is_kind (Kind_ o) [Ok; Panic] = true → Step o = 0 ∧ Code o = EmptyString) ∧
  lacks "/" (Token o) = true ∧ parseToken (Token o) = inl o.

Lemma parseModifiers_spec mods : ∀ o o', parseModifiers mods o = inl o' → 0 ≤ Step o < 2 ^ 31 →
  Kind_ o' = Kind_ o ∧ Token o' = Token o ∧ 0 ≤ Step o' < 2 ^ 31.
Proof.
  induction mods as [|m mods IH]; intros o o'; cbn [parseModifiers]; [by intros [= <-]|].
  destruct (Cut "=" m) as [[key value] ok]. destruct (_ || _); [done|].
  destruct (String.eqb key "step").
  - destruct (ParseInt 32 value) as [n|] eqn:En; [|done]. apply ParseInt_range in En.
    destruct (Z.ltb_spec n 1); [done|]. intros Hp _. apply (IH _ _ Hp). cbn. lia.
  - destruct (String.eqb key "code"); [|done]. intros Hp Ho. by apply (IH _ _ Hp).
Qed.
Lemma parseToken_spec t o : parseToken t = inl o → lacks "/" t = true → Token o = t ∧ well_typed o.
Proof.
  intros Hp Hl. unfold well_typed. cut (Token o = t ∧
    is_kind (Kind_ o) [Ok; Panic; Ko; Perm; BatchKo; Nil] = true ∧ 0 ≤ Step o < 2 ^ 31 ∧
    (is_kind (Kind_ o) [Ok; Panic] = true → Step o = 0 ∧ Code o = EmptyString)).
  { by intros (-> & ? & ? & ?). }
  revert Hp. unfold parseToken. destruct (Cut ":" t) as [[name mods] has].
  destruct (is_kind name [Ok; Panic]) eqn:E1.
  { destruct has; [done|]. intros [= <-]. cbn [Kind_ Step Code Token]. split_and!; try done.
    apply is_kind_spec in E1. apply is_kind_spec. rewrite !elem_of_cons in *. tauto. }
  destruct (is_kind name [Ko; Perm; BatchKo; Nil]) eqn:E2; [|done].
  assert (is_kind name [Ok; Panic; Ko; Perm; BatchKo; Nil] = true) as E3.
  { apply is_kind_spec in E2. apply is_kind_spec. rewrite !elem_of_cons in *. tauto. }
  destruct has; cbn [negb].
  - intros (Hk & Ht & Hs)%parseModifiers_spec; [|done]. cbn in Hk, Ht. rewrite Hk.
    split_and!; try lia; try done. intros; congruence.
  - intros [= <-]. cbn [Kind_ Step Code Token]. split_and!; try done; intros; congruence.
Qed.
Lemma parseTokens_spec tokens : ∀ k s, parseTokens k tokens = inl s →
  Forall (λ t, lacks "/" t = true) tokens → Token <$> s = tokens ∧ Forall well_typed s.
Proof.
  induction tokens as [|t tokens IH]; intros k s; cbn [parseTokens]; [by intros [= <-]|].
  destruct (parseToken t) as [o|] eqn:E; [|done]. destruct (parseTokens (k + 1) tokens) as [s'|] eqn:Es; [|done].
  intros [= <-] [Ht Htokens]%Forall_cons. destruct (parseToken_spec t o E Ht) as [E1 Hw].
  destruct (IH _ _ Es Htokens) as [E2 Hall]. cbn. rewrite E1, E2. by split; [|constructor].
Qed.

Lemma At_spec s k : s ≠ [] → 0 ≤ k → ∃ o, At s k = inl o ∧ o ∈ s ∧
  (k < Z.of_nat (length s) → s !! Z.to_nat k = Some o) ∧ (Z.of_nat (length s) ≤ k → last s = Some o).
Proof.
  intros Hne Hk. unfold At, Script in *. set (i := if _ <=? _ then _ else _).
  assert (0 < length s)%nat by (destruct s; [done|cbn; lia]).
  assert (0 ≤ i < Z.of_nat (length s)) by (subst i; destruct (Z.leb_spec (Z.of_nat (length s)) k); lia).
  assert ((i <? 0) = false) as -> by lia.
  destruct (lookup_lt_is_Some_2 s (Z.to_nat i)) as [o E]; [lia|]. rewrite E. exists o.
  split; [done|]. split; [by eapply list_elem_of_lookup_2|]. split; intros Hlt; subst i.
  - by destruct (Z.leb_spec (Z.of_nat (length s)) k); [lia|].
  - rewrite last_lookup, <-E. f_equal. destruct (Z.leb_spec (Z.of_nat (length s)) k); lia.
Qed.
Lemma At_negative s k : s ≠ [] → k < 0 → At s k = inr (index_panic k).
Proof.
  intros Hne Hk. unfold At, Script in *. assert (0 < length s)%nat by (destruct s; [done|cbn; lia]).
  destruct (Z.leb_spec (Z.of_nat (length s)) k); [lia|]. by assert ((k <? 0) = true) as -> by lia.
Qed.
Lemma Parse_spec payload s : Parse payload = inl s →
  s ≠ [] ∧ Join (Token <$> s) "/" = TrimSpace (default EmptyString payload) ∧ Forall well_typed s.
Proof.
  unfold Parse. destruct (negb _); [done|]. destruct (String.eqb _ _); [done|].
  intros [Et Hw]%parseTokens_spec; [|apply Split_parts]. split_and!; [| |done].
  - intros ->. by apply (Split_ne "/" (TrimSpace (default EmptyString payload))).
  - rewrite Et. apply Join_Split.
Qed.

(** A written script is plain text, and splits into its tokens. *)
Lemma script_text l : Forall writable l →
  Forall (λ t, plain t = true ∧ lacks "/" t = true ∧ t ≠ EmptyString) (show <$> l) ∧
  plain (Join (show <$> l) "/") = true.
Proof.
  intros Hl. assert (Forall (λ t, plain t = true ∧ lacks "/" t = true ∧ t ≠ EmptyString) (show <$> l)) as Ht.
  { apply Forall_fmap. eapply Forall_impl; [exact Hl|]. intros i. apply show_plain. }
  split; [done|]. rewrite plain_bytes. apply Join_bytes; [done|]. eapply Forall_impl; [exact Ht|].
  intros t [Hp _]. by rewrite <-plain_bytes.
Qed.
Lemma Parse_show l : l ≠ [] → Forall writable l →
  Parse (Some (Join (show <$> l) "/")) = inl (outcome_of <$> l).
Proof.
  intros Hne Hl. destruct (script_text l Hl) as [Ht Hp].
  unfold Parse. cbn [from_option id]. rewrite (plain_Valid _ Hp). cbn [negb]. rewrite (plain_trim _ Hp).
  assert (Split "/" (Join (show <$> l) "/") = show <$> l) as Hsplit.
  { apply (Split_Join "/"); [by destruct l|]. eapply Forall_impl; [exact Ht|]. by intros t (_ & ? & _). }
  rewrite Hsplit. destruct (String.eqb_spec (Join (show <$> l) "/") EmptyString) as [E|_];
    [|by apply parseTokens_show].
  exfalso. rewrite E in Hsplit. destruct l as [|i [|]]; [done| |done]. cbn in Hsplit. injection Hsplit as Hi.
  inversion Ht as [|? ? (_ & _ & Hx)]; congruence.
Qed.

(** ** Properties *)

(** What a person writes is what is carried out: a script
    of tokens joined by slashes, each a kind with a step and a code where it is a
    failure, parses to just those outcomes, in order. *)
Theorem script_roundtrip (l : list instruction) : l ≠ [] → Forall writable l →
  Parse (Some (Join (show <$> l) "/")) = inl (outcome_of <$> l).
Proof. apply Parse_show. Qed.

(** C30 (scripts are well typed) A payload that parses gives at least one outcome,
    each of one of the six kinds, with a step that fits an int32 and none, nor a
    code, where the kind takes none; its tokens are the text as written, and parse
    to the outcomes again.  So every attempt of a consumer, counted from zero, has
    an outcome of the script, the last one repeating. *)
Theorem script_well_typed payload s : Parse payload = inl s →
  s ≠ [] ∧ Forall well_typed s ∧ Join (Token <$> s) "/" = TrimSpace (default EmptyString payload) ∧
  ∀ k, 0 ≤ k → ∃ o, At s k = inl o ∧ o ∈ s ∧
    (k < Z.of_nat (length s) → s !! Z.to_nat k = Some o) ∧ (Z.of_nat (length s) ≤ k → last s = Some o).
Proof.
  intros (Hne & Ht & Hw)%Parse_spec. split_and!; [done..|]. intros k Hk. by apply At_spec.
Qed.

(** ** Witnesses *)
Definition ex_script : list instruction :=
  [mkInstruction Ko (Some 2) (Some "DB:down"); mkInstruction Perm None None; mkInstruction Ok None None].
Lemma ex_script_writable : Forall writable ex_script.
Proof.
  repeat apply Forall_cons_2; [..|apply Forall_nil_2]; (split; [by (right + left)|]); split; intros x; cbn;
    intros [= <-]; done.
Qed.
Lemma script_roundtrip_witness :
  Parse (Some "ko:step=2,code=DB:down/perm/ok") = inl (outcome_of <$> ex_script).
Proof.
  apply (script_roundtrip ex_script); [done|]. exact ex_script_writable.
Defined.
Lemma script_well_typed_witness : ∃ s, Parse (Some " ko/ok ") = inl s ∧ length s = 2%nat ∧ Forall well_typed s.
Proof.
  destruct (Parse (Some " ko/ok ")) as [s|] eqn:E; [|vm_compute in E; discriminate E].
  exists s. split; [done|]. split; [vm_compute in E; injection E as <-; reflexivity|].
  exact (proj1 (proj2 (script_well_typed (Some " ko/ok ") s E))).
Defined.
