(* ===== verification/RWMutex.v ===== *)
(** * sync.RWMutex over a set of goroutines

    Which goroutine holds a read or the write lock is read off where it stands;
    a lock can be taken when no other goroutine stands in its way.  A pending
    [Lock] also holds back new readers in Go; leaving that out only adds
    interleavings. *)
From S2P Require Import Prelude.

Inductive holding : Type := NoLock | ReadLock | WriteLock.
#[export] Instance holding_eq_dec : EqDecision holding.
Proof. solve_decision. Defined.

Section rwmutex.
Context {T : Type} (holds : T → holding).
Implicit Types ts : gmap nat T.

(** [RLock] returns when nobody holds the write lock, [Lock] when nobody holds
    either. *)
Definition can_rlock ts : bool := bool_decide (map_Forall (λ _ t, holds t ≠ WriteLock) ts).
Definition can_lock ts : bool := bool_decide (map_Forall (λ _ t, holds t = NoLock) ts).

Definition exclusive ts : Prop := ∀ i j t u, ts !! i = Some t → ts !! j = Some u → i ≠ j →
  holds t = WriteLock → holds u = NoLock.

Lemma can_rlock_spec ts i t : can_rlock ts = true → ts !! i = Some t → holds t ≠ WriteLock.
Proof. unfold can_rlock. intros Hc%bool_decide_eq_true_1 E. exact (Hc i t E). Qed.
Lemma can_lock_spec ts i t : can_lock ts = true → ts !! i = Some t → holds t = NoLock.
Proof. unfold can_lock. intros Hc%bool_decide_eq_true_1 E. exact (Hc i t E). Qed.
Lemma can_lock_rlock ts : can_lock ts = true → can_rlock ts = true.
Proof.
  unfold can_lock, can_rlock. intros Hc%bool_decide_eq_true_1. apply bool_decide_eq_true_2.
  intros j u Ej. rewrite (Hc j u Ej). done.
Qed.
Lemma can_lock_false ts : can_lock ts = false → ∃ i t, ts !! i = Some t ∧ holds t ≠ NoLock.
Proof.
  unfold can_lock. intros Hc%bool_decide_eq_false_1.
  by rewrite map_not_Forall in Hc by apply _.
Qed.

(** How a step of one goroutine may change what it holds. *)
Definition may_hold ts (t t' : T) : Prop :=
  holds t' = NoLock ∨ holds t' = holds t ∨
  holds t' = ReadLock ∧ can_rlock ts = true ∨ holds t' = WriteLock ∧ can_lock ts = true.

Lemma exclusive_insert ts i t t' :
  exclusive ts → ts !! i = Some t → may_hold ts t t' → exclusive (<[i := t']> ts).
Proof.
  intros Hl Et Hh. intros j k u v [[<- <-]|[Hij Ej]]%lookup_insert_Some
    [[<- <-]|[Hik Ek]]%lookup_insert_Some Hjk Hw; try done.
  - destruct Hh as [Hh|[Hh|[[Hh _]|[_ Hr]]]]; try congruence.
    + eapply (Hl i k); [done..|congruence].
    + by eapply can_lock_spec.
  - pose proof (Hl j i u t Ej Et ltac:(done) Hw) as Ht.
    destruct Hh as [Hh|[Hh|[[_ Hr]|[_ Hr]]]]; try congruence.
    + by destruct (can_rlock_spec ts j u Hr Ej).
    + pose proof (can_lock_spec ts j u Hr Ej). congruence.
  - by eapply (Hl j k).
Qed.
(** While a goroutine holds a lock, nobody else holds the write lock. *)
Lemma exclusive_holder ts i j t u : exclusive ts → ts !! i = Some t → ts !! j = Some u → i ≠ j →
  holds u ≠ NoLock → holds t ≠ WriteLock.
Proof. intros Hl Ei Ej Hij Hu Ht. by eapply Hu, (Hl i j). Qed.
End rwmutex.

(** ** Work left

    The steps that goroutines have left between them, given those of each. *)
Section total.
Context {T : Type} (cost : T → nat).
Implicit Types ts : gmap nat T.

Definition total ts : nat := map_fold (λ _ t n, (cost t + n)%nat) 0%nat ts.

Lemma total_delete ts i t : ts !! i = Some t → total ts = (cost t + total (delete i ts))%nat.
Proof.
  intros E. rewrite <-(insert_delete_id ts i t E) at 1. unfold total.
  rewrite map_fold_insert_L; [done| |by rewrite lookup_delete_eq]. intros; lia.
Qed.
Lemma total_insert ts i t t' : ts !! i = Some t →
  (total (<[i := t']> ts) + cost t = total ts + cost t')%nat.
Proof.
  intros E. rewrite (total_delete ts i t E).
  rewrite (total_delete _ i t') by apply lookup_insert_eq.
  rewrite delete_insert_eq. lia.
Qed.
End total.
