(* ===== verification/GoMath.v ===== *)
(** * math.Pow on binary64

    The algorithm of Go's math package for a base that is not negative and a whole
    exponent, which is what the backoff uses; [SpecFloat] does the arithmetic. *)
From S2P Require Import Prelude GoAny.
From Corelib Require Import SpecFloat.

Definition float_one : spec_float := float_of_Z 1.
Definition float_inf : spec_float := S754_infinity false.
Definition float_half : spec_float := S754_finite false (2 ^ 52)%positive (-53).

(** [math.Frexp] of a finite positive float: a fraction of [1/2, 1) and an exponent. *)
Definition Frexp (f : spec_float) : spec_float * Z := SFfrexp prec64 emax64 f.
(** [math.Ldexp]. *)
Definition Ldexp (f : spec_float) (e : Z) : spec_float := SFldexp prec64 emax64 f e.

(** The loop of repeated squaring: [i] is what is left of the exponent.  [fuel]
    is the number of bits of an [int64]. *)
Fixpoint pow_loop (fuel : nat) (i : Z) (x1 : spec_float) (xe : Z) (a1 : spec_float) (ae : Z) :
    spec_float * Z :=
  match fuel with
  | O => (a1, ae)
  | S fuel =>
      if i =? 0 then (a1, ae)
      else if (xe <? - 2 ^ 12) || (2 ^ 12 <? xe) then (a1, ae + xe)
      else
        let '(a1, ae) := if Z.odd i then (float_mul a1 x1, ae + xe) else (a1, ae) in
        let x1 := float_mul x1 x1 in
        let xe := 2 * xe in
        let '(x1, xe) := if float_ltb x1 float_half then (float_add x1 x1, xe - 1) else (x1, xe) in
        pow_loop fuel (i / 2) x1 xe a1 ae
  end.

(** [math.Pow(x, y)], [x] not negative, [y] a whole number. *)
Definition Pow (x y : spec_float) : spec_float :=
  match float_trunc y with
  | None => S754_nan
  | Some n =>
      if (n =? 0) || float_eqb x float_one then float_one
      else if n =? 1 then x
      else
        match x with
        | S754_nan => S754_nan
        | S754_zero _ => if n <? 0 then float_inf else S754_zero false
        | S754_infinity _ => if n <? 0 then S754_zero false else float_inf
        | S754_finite _ _ _ =>
            if 2 ^ 63 <=? Z.abs n then
              if Bool.eqb (float_ltb x float_one) (0 <? n) then S754_zero false else float_inf
            else
              let '(x1, xe) := Frexp x in
              let '(a1, ae) := pow_loop 64 (Z.abs n) x1 xe float_one 0 in
              if n <? 0 then Ldexp (SFdiv prec64 emax64 float_one a1) (- ae) else Ldexp a1 ae
        end
  end.

Example pow_2_10 : Pow (float_of_Z 2) (float_of_Z 10) = float_of_Z 1024.
Proof. reflexivity. Qed.
Example pow_3_4 : Pow (float_of_Z 3) (float_of_Z 4) = float_of_Z 81.
Proof. reflexivity. Qed.
Example pow_2_neg : Pow (float_of_Z 2) (float_of_Z (-1)) = float_half.
Proof. reflexivity. Qed.
Example pow_overflow : Pow (float_of_Z 2) (float_of_Z 5000) = float_inf.
Proof. reflexivity. Qed.
