(* ===== verification/GoFloat.v ===== *)
(** * Facts about binary64 arithmetic

    Rounding and multiplication of floats that are not negative: the results are
    canonical and not NaN, and exact where no bit is lost.  The arithmetic is
    [SpecFloat]'s. *)
From S2P Require Import Prelude GoAny.
From Corelib Require Import SpecFloat.

(** A normal mantissa: 53 bits. *)
Definition normal (m : positive) : Prop := 2 ^ 52 ≤ Z.pos m < 2 ^ 53.
(** A float that is not negative and not NaN, as a float64 is represented. *)
Definition canon (x : spec_float) : Prop :=
  match x with
  | S754_zero s | S754_infinity s => s = false
  | S754_finite s m e => s = false ∧ Z.pos m < 2 ^ 53 ∧ (2 ^ 52 ≤ Z.pos m ∧ -1074 ≤ e ∨ e = -1074)
  | S754_nan => False
  end.

(** ** Digits *)

Definition digits (m : positive) : Z := Z.pos (digits2_pos m).
Lemma digits_spec m : 2 ^ (digits m - 1) ≤ Z.pos m < 2 ^ digits m.
Proof.
  unfold digits. induction m as [m IH|m IH|]; cbn [digits2_pos]; [| |done];
    rewrite Pos2Z.inj_succ; replace (Z.succ (Z.pos (digits2_pos m)) - 1) with (Z.pos (digits2_pos m)) by lia;
    rewrite Z.pow_succ_r by lia;
    assert (2 ^ Z.pos (digits2_pos m) = 2 * 2 ^ (Z.pos (digits2_pos m) - 1))
      by (rewrite <-Z.pow_succ_r by lia; f_equal; lia); lia.
Qed.
Lemma digits_unique m d : 2 ^ (d - 1) ≤ Z.pos m < 2 ^ d → digits m = d.
Proof.
  intros [Hl Hu]. pose proof (digits_spec m) as [Dl Du].
  assert (0 < digits m) by done.
  destruct (Z.lt_trichotomy (digits m) d) as [?|[?|?]]; [|done|].
  - assert (2 ^ digits m ≤ 2 ^ (d - 1)) by (apply Z.pow_le_mono_r; lia). lia.
  - assert (2 ^ d ≤ 2 ^ (digits m - 1)) by (apply Z.pow_le_mono_r; lia). lia.
Qed.
Lemma digits_normal m : normal m ↔ digits m = 53.
Proof.
  split; [intros ?; by apply digits_unique|]. intros E. pose proof (digits_spec m) as Hd. by rewrite E in Hd.
Qed.
Lemma digits_mul_pow (m m' : positive) n : 0 ≤ n → Z.pos m' = Z.pos m * 2 ^ n → digits m' = digits m + n.
Proof.
  intros Hn E. apply digits_unique. rewrite E. pose proof (digits_spec m) as [? ?].
  assert (0 < digits m) by done.
  replace (digits m + n - 1) with (digits m - 1 + n) by lia. rewrite !Z.pow_add_r by lia.
  split; [apply Z.mul_le_mono_nonneg_r|apply Z.mul_lt_mono_pos_r]; lia.
Qed.

(** ** Shifting *)

Lemma iter_pos_nat {A} (f : A → A) n : ∀ x, iter_pos f n x = Nat.iter (Pos.to_nat n) f x.
Proof.
  induction n as [n IH|n IH|]; intros x; cbn [iter_pos]; rewrite ?IH, ?Pos2Nat.inj_xI, ?Pos2Nat.inj_xO; [| |done].
  - rewrite <-Nat.iter_add. replace (S (2 * Pos.to_nat n)) with (Pos.to_nat n + Pos.to_nat n + 1)%nat by lia.
    by rewrite (Nat.iter_add (_ + _) 1).
  - rewrite <-Nat.iter_add. f_equal. lia.
Qed.
Lemma shr_1_m mrs : 0 ≤ shr_m mrs → shr_m (shr_1 mrs) = shr_m mrs / 2.
Proof.
  destruct mrs as [[|[m|m|]|m] r s]; intros Hm; cbn [shr_m shr_1] in *; try done; try lia.
  - rewrite Pos2Z.inj_xI, Z.mul_comm, Z.div_add_l by lia. change (1 / 2) with 0. by rewrite Z.add_0_r.
  - by rewrite Pos2Z.inj_xO, Z.mul_comm, Z.div_mul by lia.
Qed.
Lemma iter_shr_m n : ∀ mrs, 0 ≤ shr_m mrs → shr_m (Nat.iter n shr_1 mrs) = shr_m mrs / 2 ^ Z.of_nat n.
Proof.
  induction n as [|n IH]; intros mrs Hm; [by rewrite Z.div_1_r|]. rewrite Nat.iter_succ, shr_1_m, IH by
    (try done; rewrite IH by done; apply Z.div_pos; lia).
  rewrite Z.div_div by lia. f_equal. by rewrite Nat2Z.inj_succ, Z.pow_succ_r, Z.mul_comm by lia.
Qed.
Lemma shr_spec mrs e n : 0 ≤ shr_m mrs → 0 ≤ n →
  shr_m (shr mrs e n).1 = shr_m mrs / 2 ^ n ∧ (shr mrs e n).2 = e + n.
Proof.
  intros Hm Hn. destruct n as [|n|n]; cbn [shr fst snd]; [|..].
  - by rewrite Z.div_1_r, Z.add_0_r.
  - rewrite iter_pos_nat, iter_shr_m by done. by rewrite positive_nat_Z.
  - lia.
Qed.
Lemma shr_small mrs e n : n ≤ 0 → shr mrs e n = (mrs, e).
Proof. by destruct n. Qed.
(** Shifting zero bits out loses nothing. *)
Lemma shr_exact m m' e n : 0 ≤ n → m' = Z.pos m * 2 ^ n →
  shr (Build_shr_record m' false false) e n = (Build_shr_record (Z.pos m) false false, e + n).
Proof.
  intros Hn ->. destruct n as [|n|n]; [by rewrite Z.mul_1_r, Z.add_0_r| |lia]. cbn [shr]. f_equal.
  rewrite iter_pos_nat. rewrite <-(positive_nat_Z n). clear e Hn. induction (Pos.to_nat n) as [|k IH]; [by rewrite Z.mul_1_r|].
  rewrite Nat.iter_succ_r, Nat2Z.inj_succ, Z.pow_succ_r, Z.mul_assoc, (Z.mul_comm (Z.pos m)), <-Z.mul_assoc by lia.
  assert (∃ q, Z.pos m * 2 ^ Z.of_nat k = Z.pos q) as [q Eq].
  { exists (Z.to_pos (Z.pos m * 2 ^ Z.of_nat k)). rewrite Z2Pos.id; [done|]. apply Z.mul_pos_pos; lia. }
  rewrite Eq in *. exact IH.
Qed.

(** ** Rounding *)

(** The end of [binary_round_aux]: the mantissa, rounded, becomes a float. *)
Definition pack (m e : Z) : spec_float :=
  let '(mrs, e') := shr_fexp prec64 emax64 m e loc_Exact in
  match shr_m mrs with
  | Z0 => S754_zero false
  | Z.pos m => if e' <=? emax64 - prec64 then S754_finite false m e' else S754_infinity false
  | Z.neg _ => S754_nan
  end.
Lemma round_aux_pack m e l :
  binary_round_aux prec64 emax64 false m e l =
    let '(mrs, e') := shr_fexp prec64 emax64 m e l in
    pack (round_nearest_even (shr_m mrs) (loc_of_shr_record mrs)) e'.
Proof.
  unfold binary_round_aux, pack. destruct (shr_fexp prec64 emax64 m e l) as [mrs e'].
  by destruct (shr_fexp prec64 emax64 (round_nearest_even _ _) e' loc_Exact).
Qed.
Lemma round_nearest_cases m l : round_nearest_even m l = m ∨ round_nearest_even m l = m + 1.
Proof. destruct l as [|[]]; cbn; auto. destruct (Z.even m); auto. Qed.

Lemma Zdigits2_pos m : Zdigits2 (Z.pos m) = digits m.
Proof. done. Qed.
Lemma pack_small m e : 0 ≤ m < 2 ^ 53 → -1074 ≤ e → pack m e =
  match m with
  | Z.pos p => if e <=? 971 then S754_finite false p e else S754_infinity false
  | _ => S754_zero false
  end.
Proof.
  intros Hm He. unfold pack, shr_fexp. rewrite shr_small; [destruct m; [done|done|lia]|].
  assert (Zdigits2 m ≤ 53); [|unfold fexp, emin, prec64, emax64; lia].
  destruct m as [|m|m]; [done| |lia]. rewrite Zdigits2_pos. pose proof (digits_spec m) as [Hd _].
  destruct (Z.le_gt_cases (digits m) 53); [done|].
  assert (2 ^ 53 ≤ 2 ^ (digits m - 1)) by (apply Z.pow_le_mono_r; lia). lia.
Qed.
Lemma pack_top e : -1074 ≤ e → pack (2 ^ 53) e =
  if e + 1 <=? 971 then S754_finite false (2 ^ 52)%positive (e + 1) else S754_infinity false.
Proof.
  intros He. unfold pack, shr_fexp, shr_record_of_loc. change (Zdigits2 (2 ^ 53)) with 54.
  replace (fexp prec64 emax64 (54 + e) - e) with 1 by (unfold fexp, emin, prec64, emax64; lia).
  rewrite (shr_exact (2 ^ 52)%positive) by done. done.
Qed.

(** Rounding a mantissa of at least 53 bits, or one below the smallest exponent. *)
Lemma round_aux_canon m e : (53 ≤ digits m ∨ e ≤ -1074) →
  canon (binary_round_aux prec64 emax64 false (Z.pos m) e loc_Exact).
Proof.
  intros Hd. rewrite round_aux_pack. unfold shr_fexp, shr_record_of_loc. rewrite Zdigits2_pos.
  unfold fexp, emin, prec64 at 1 2, emax64 at 1. pose proof (digits_spec m) as [Dl Du].
  set (n := Z.max _ _ - e). assert (0 ≤ n) as Hn by lia.
  assert (Z.pos m / 2 ^ n < 2 ^ 53) as Hu.
  { apply Z.div_lt_upper_bound; [lia|]. rewrite <-Z.pow_add_r by lia.
    assert (2 ^ digits m ≤ 2 ^ (n + 53)) by (apply Z.pow_le_mono_r; lia). lia. }
  assert (2 ^ 52 ≤ Z.pos m / 2 ^ n ∨ e + n = -1074) as Hl.
  { destruct (Z.eq_dec (e + n) (-1074)) as [|Hne]; [by right|left].
    apply Z.div_le_lower_bound; [lia|]. rewrite <-Z.pow_add_r by lia.
    replace (n + 52) with (digits m - 1) by lia. lia. }
  assert (0 ≤ Z.pos m / 2 ^ n) as H0 by (apply Z.div_pos; lia).
  assert (-1074 ≤ e + n) as He by lia.
  destruct (shr _ e n) as [mrs e'] eqn:Es.
  destruct (shr_spec (Build_shr_record (Z.pos m) false false) e n ltac:(done) Hn) as [Em Ee].
  rewrite Es in Em, Ee. cbn [fst snd shr_m] in Em, Ee. subst e'. rewrite Em.
  clear -Hu Hl H0 He. set (q := Z.pos m / 2 ^ n) in *. clearbody q n.
  destruct (Z.eq_dec (round_nearest_even q (loc_of_shr_record mrs)) (2 ^ 53)) as [->|Hne].
  - rewrite pack_top by done. destruct (Z.leb_spec (e + n + 1) 971); cbn; [|done].
    split; [done|]. split; [done|]. left. lia.
  - pose proof (round_nearest_cases q (loc_of_shr_record mrs)) as Hr.
    set (r := round_nearest_even q _) in *. clearbody r.
    rewrite pack_small by lia. destruct r as [|r|r]; [done| |lia].
    destruct (e + n <=? 971); cbn; [|done]. split; [done|]. split; [lia|]. lia.
Qed.
(** A mantissa that is a normal one times a power of two loses nothing. *)
Lemma round_aux_exact m m' e n : normal m → 0 ≤ n → -1074 ≤ e + n ≤ 971 → Z.pos m' = Z.pos m * 2 ^ n →
  binary_round_aux prec64 emax64 false (Z.pos m') e loc_Exact = S754_finite false m (e + n).
Proof.
  intros Hm Hn He E. rewrite round_aux_pack. unfold shr_fexp, shr_record_of_loc. rewrite Zdigits2_pos.
  rewrite (digits_mul_pow m m' n), (proj1 (digits_normal m)) by done.
  replace (fexp prec64 emax64 (53 + n + e) - e) with n by (unfold fexp, emin, prec64, emax64; lia).
  rewrite (shr_exact m) by done. cbn [shr_m loc_of_shr_record round_nearest_even].
  destruct Hm as [? ?]. rewrite pack_small by lia. by rewrite (proj2 (Z.leb_le _ 971)) by lia.
Qed.

(** ** [float_of_Z] and multiplication *)

Lemma pos_iter_xO n m : Z.pos (Pos.iter xO m n) = Z.pos m * 2 ^ Z.pos n.
Proof.
  rewrite Pos2Nat.inj_iter, <-(positive_nat_Z n). induction (Pos.to_nat n) as [|k IH]; [by rewrite Z.mul_1_r|].
  cbn [nat_rect]. rewrite Pos2Z.inj_xO, IH, Nat2Z.inj_succ, Z.pow_succ_r by lia. lia.
Qed.
Lemma round_canon m e : canon (binary_round prec64 emax64 false m e).
Proof.
  unfold binary_round, shl_align. change (Z.pos (digits2_pos m)) with (digits m).
  change (fexp prec64 emax64 (digits m + e)) with (Z.max (digits m + e - 53) (-1074)).
  destruct (Z.max _ _ - e) as [|n|n] eqn:En; [| |]; cbn iota.
  - apply round_aux_canon. lia.
  - apply round_aux_canon. lia.
  - apply round_aux_canon. rewrite (digits_mul_pow m _ (Z.pos n)) by (try done; apply pos_iter_xO). lia.
Qed.
(** An integer below 2^53 is a float. *)
Lemma float_of_Z_exact z : 0 < z < 2 ^ 53 →
  ∃ m e, float_of_Z z = S754_finite false m e ∧ normal m ∧ -52 ≤ e ≤ 0 ∧ Z.pos m = z * 2 ^ (- e).
Proof.
  intros Hz. destruct z as [|p|p]; [lia| |lia]. unfold float_of_Z, binary_normalize, binary_round, shl_align.
  change (Z.pos (digits2_pos p)) with (digits p). pose proof (digits_spec p) as [Dl Du].
  assert (digits p ≤ 53).
  { destruct (Z.le_gt_cases (digits p) 53); [done|].
    assert (2 ^ 53 ≤ 2 ^ (digits p - 1)) by (apply Z.pow_le_mono_r; lia). lia. }
  assert (1 ≤ digits p) by (unfold digits; lia).
  replace (fexp prec64 emax64 (digits p + 0) - 0) with (digits p - 53) by (unfold fexp, emin, prec64, emax64; lia).
  replace (fexp prec64 emax64 (digits p + 0)) with (digits p - 53) by (unfold fexp, emin, prec64, emax64; lia).
  destruct (digits p - 53) as [|n|n] eqn:En; [|lia|].
  - assert (normal p) as Hn by (apply digits_normal; lia).
    exists p, 0. rewrite (round_aux_exact p p 0 0) by (try done; lia). split; [done|]. split; [done|].
    cbn. lia.
  - assert (normal (Pos.iter xO p n)) as Hn.
    { apply digits_normal. rewrite (digits_mul_pow p _ (Z.pos n)) by (try done; apply pos_iter_xO). lia. }
    exists (Pos.iter xO p n), (Z.neg n). rewrite (round_aux_exact _ (Pos.iter xO p n) (Z.neg n) 0) by (try done; lia).
    rewrite Z.add_0_r, pos_iter_xO. split; [done|]. split; [done|]. split; [lia|done].
Qed.

Lemma digits_mul_normal m m' : normal m → 53 ≤ digits (m * m').
Proof.
  intros [Hm _]. destruct (Z.le_gt_cases 53 (digits (m * m'))) as [|Hlt]; [done|].
  pose proof (digits_spec (m * m')) as [_ Du].
  assert (2 ^ digits (m * m') ≤ 2 ^ 52) by (apply Z.pow_le_mono_r; lia).
  rewrite Pos2Z.inj_mul in Du. assert (Z.pos m * 1 ≤ Z.pos m * Z.pos m') by (apply Z.mul_le_mono_nonneg_l; lia). lia.
Qed.
Lemma mul_canon m e y : normal m → canon y → canon (float_mul (S754_finite false m e) y).
Proof.
  intros Hm Hy. unfold float_mul. destruct y as [s|s| |s m' e']; cbn in *; try done; [by subst..|].
  destruct Hy as [-> _]. apply round_aux_canon. left. by apply digits_mul_normal.
Qed.
Lemma digits_mul_two m m' : normal m → normal m' → digits (m * m') = 105 ∨ digits (m * m') = 106.
Proof.
  intros [Hl Hu] [Hl' Hu'].
  assert (2 ^ 104 ≤ Z.pos (m * m') < 2 ^ 106) as [Hl2 Hu2].
  { rewrite Pos2Z.inj_mul. split; [change (2 ^ 104) with (2 ^ 52 * 2 ^ 52)|change (2 ^ 106) with (2 ^ 53 * 2 ^ 53)];
      [apply Z.mul_le_mono_nonneg|apply Z.mul_lt_mono_nonneg]; lia. }
  destruct (Z.le_gt_cases (2 ^ 105) (Z.pos (m * m'))); [right|left]; by apply digits_unique.
Qed.

(** Rounding in the normal range, with how the exponent can grow. *)
Lemma round_aux_normal p e :
  53 ≤ digits p → -1074 ≤ e + digits p - 53 ≤ 970 →
  ∃ m, normal m ∧
    (binary_round_aux prec64 emax64 false (Z.pos p) e loc_Exact = S754_finite false m (e + digits p - 53) ∨
     binary_round_aux prec64 emax64 false (Z.pos p) e loc_Exact = S754_finite false m (e + digits p - 52) ∧
     (2 ^ 53 - 1) * 2 ^ (digits p - 53) ≤ Z.pos p).
Proof.
  intros Hd He. rewrite round_aux_pack. unfold shr_fexp, shr_record_of_loc. rewrite Zdigits2_pos.
  pose proof (digits_spec p) as [Dl Du].
  replace (fexp prec64 emax64 (digits p + e) - e) with (digits p - 53) by (unfold fexp, emin, prec64, emax64; lia).
  set (n := digits p - 53). assert (0 ≤ n) as Hn by lia. assert (0 < 2 ^ n) as Hpow by lia.
  assert (2 ^ 52 ≤ Z.pos p / 2 ^ n < 2 ^ 53) as Hq.
  { split; [apply Z.div_le_lower_bound|apply Z.div_lt_upper_bound]; try done; rewrite <-Z.pow_add_r by lia.
    - by replace (n + 52) with (digits p - 1) by lia.
    - by replace (n + 53) with (digits p) by lia. }
  destruct (shr _ e n) as [mrs e'] eqn:Es.
  destruct (shr_spec (Build_shr_record (Z.pos p) false false) e n ltac:(done) Hn) as [Em Ee].
  rewrite Es in Em, Ee. cbn [fst snd shr_m] in Em, Ee. subst e'. rewrite Em.
  replace (e + digits p - 53) with (e + n) by lia. replace (e + digits p - 52) with (e + n + 1) by lia.
  pose proof (Z.mul_div_le (Z.pos p) (2 ^ n) Hpow) as Hle.
  set (q := Z.pos p / 2 ^ n) in *. pose proof (round_nearest_cases q (loc_of_shr_record mrs)) as Hr.
  set (r := round_nearest_even q _) in *. clearbody q r.
  destruct (Z.eq_dec r (2 ^ 53)) as [->|Hne].
  - exists (2 ^ 52)%positive. split; [done|]. right. rewrite pack_top by lia.
    rewrite (proj2 (Z.leb_le _ 971)) by lia. split; [done|].
    assert (q = 2 ^ 53 - 1) as -> by lia. rewrite Z.mul_comm. done.
  - rewrite pack_small by lia. destruct r as [|r|r]; [lia| |lia]. exists r. split; [unfold normal; lia|].
    left. by rewrite (proj2 (Z.leb_le _ 971)) by lia.
Qed.
Lemma mul_normal m m' e e' : normal m → normal m' → -1000 ≤ e + e' + 53 ≤ 900 →
  ∃ m2 e2, normal m2 ∧ float_mul (S754_finite false m e) (S754_finite false m' e') = S754_finite false m2 e2 ∧
    e + e' + 52 ≤ e2 ≤ e + e' + 54.
Proof.
  intros Hm Hm' He. pose proof (digits_mul_two m m' Hm Hm') as Hd.
  destruct (round_aux_normal (m * m') (e + e')) as (m2 & Hm2 & [E|[E _]]); [lia|lia|..];
    (eexists m2, _; split; [done|]; split; [exact E|lia]).
Qed.
(** The square of a fraction of [1/2, 1) is in [1/4, 1). *)
Lemma square_normal m : normal m → ∃ m', normal m' ∧
  (float_mul (S754_finite false m (-53)) (S754_finite false m (-53)) = S754_finite false m' (-53) ∨
   float_mul (S754_finite false m (-53)) (S754_finite false m (-53)) = S754_finite false m' (-54)).
Proof.
  intros Hm. pose proof (digits_mul_two m m Hm Hm) as Hd.
  destruct (round_aux_normal (m * m) (-53 + -53)) as (m2 & Hm2 & [E|[E Htop]]); [lia|lia|..]; exists m2; (split; [done|]).
  - destruct Hd as [Hd|Hd]; rewrite Hd in E; [by right|by left].
  - destruct Hd as [Hd|Hd]; rewrite Hd in E, Htop; [by left|exfalso]. destruct Hm as [_ Hu].
    rewrite Pos2Z.inj_mul in Htop.
    assert (Z.pos m * Z.pos m ≤ (2 ^ 53 - 1) * (2 ^ 53 - 1)) by (apply Z.mul_le_mono_nonneg; lia). lia.
Qed.
Lemma double_exact m : normal m →
  float_add (S754_finite false m (-54)) (S754_finite false m (-54)) = S754_finite false m (-53).
Proof.
  intros Hm. unfold float_add.
  change (SFadd prec64 emax64 (S754_finite false m (-54)) (S754_finite false m (-54)))
    with (binary_round prec64 emax64 false (m + m) (-54)).
  unfold binary_round, shl_align. change (Z.pos (digits2_pos (m + m))) with (digits (m + m)).
  rewrite (digits_mul_pow m (m + m) 1), (proj1 (digits_normal m)) by (try done; lia).
  change (fexp prec64 emax64 (53 + 1 + -54) - -54) with 1. cbn iota.
  apply (round_aux_exact m (m + m) (-54) 1); try done; lia.
Qed.

Lemma float_trunc_of_Z z : 0 ≤ z < 2 ^ 53 → float_trunc (float_of_Z z) = Some z.
Proof.
  intros Hz. destruct (Z.eq_dec z 0) as [->|Hne]; [done|].
  destruct (float_of_Z_exact z) as (m & e & -> & _ & He & Hm); [lia|]. cbn [float_trunc]. f_equal.
  destruct (Z.leb_spec 0 e).
  - assert (e = 0) as -> by lia. cbn in Hm. lia.
  - rewrite Hm. apply Z.div_mul. lia.
Qed.
(** Comparing normal floats compares what they stand for. *)
Lemma geb_normal m1 e1 m2 e2 : normal m1 → normal m2 → -52 ≤ e1 → -52 ≤ e2 →
  float_geb (S754_finite false m2 e2) (S754_finite false m1 e1) =
    (Z.pos m1 * 2 ^ (e1 + 52) <=? Z.pos m2 * 2 ^ (e2 + 52)).
Proof.
  intros [L1 U1] [L2 U2] He1 He2. unfold float_geb, SFleb, SFcompare.
  destruct (Z.compare_spec e1 e2) as [->|Hlt|Hlt].
  - change (Pos.compare_cont Eq m1 m2) with (Pos.compare m1 m2).
    assert (0 < 2 ^ (e2 + 52)) by lia.
    destruct (Pos.compare_spec m1 m2) as [->|?|?]; symmetry; [apply Z.leb_le; lia|..].
    + apply Z.leb_le, Z.mul_le_mono_nonneg_r; lia.
    + apply Z.leb_gt, Z.mul_lt_mono_pos_r; lia.
  - symmetry. apply Z.leb_le. transitivity (2 ^ 53 * 2 ^ (e1 + 52)); [apply Z.mul_le_mono_nonneg_r; lia|].
    transitivity (2 ^ 52 * 2 ^ (e2 + 52)); [|apply Z.mul_le_mono_nonneg_r; lia].
    rewrite <-!Z.pow_add_r by lia. apply Z.pow_le_mono_r; lia.
  - symmetry. apply Z.leb_gt. eapply Z.lt_le_trans with (2 ^ 53 * 2 ^ (e2 + 52)).
    { apply Z.mul_lt_mono_pos_r; lia. }
    transitivity (2 ^ 52 * 2 ^ (e1 + 52)); [|apply Z.mul_le_mono_nonneg_r; lia].
    rewrite <-!Z.pow_add_r by lia. apply Z.pow_le_mono_r; lia.
Qed.
