(* ===== verification/Kfk.v ===== *)
(** * The parts of confluent-kafka-go both drivers use

    [kfk.ErrorCode] with the codes the drivers tell apart, and [kfk.ConfigMap].
    They are not part of the repository: they are classes, with the documented
    behaviour the drivers rely on as laws. *)
From S2P Require Import Prelude GoStrings GoErrors GoAny.

(** ** Error codes *)
Class KfkCodes := {
  ErrTransport : Z; ErrAllBrokersDown : Z; ErrState : Z; ErrNoOffset : Z;
  ErrFatalCode : Z; ErrMsgTimedOut : Z; ErrPurgeQueue : Z; ErrPurgeInflight : Z;
  ErrQueueFullCode : Z; ErrNoError : Z; ErrUnknownTopicOrPart : Z;
  (** [ErrorCode.String] *)
  code_String : Z → string;
}.
(** The codes are different numbers. *)
Class KfkCodesDistinct `{KfkCodes} : Prop := codes_distinct :
  NoDup [ErrTransport; ErrAllBrokersDown; ErrState; ErrNoOffset; ErrFatalCode; ErrMsgTimedOut;
         ErrPurgeQueue; ErrPurgeInflight; ErrQueueFullCode; ErrNoError; ErrUnknownTopicOrPart].

(** librdkafka's numbers, for the witnesses. *)
Definition codes_librdkafka : KfkCodes :=
  {| ErrTransport := -195; ErrAllBrokersDown := -187; ErrState := -172; ErrNoOffset := -168;
     ErrFatalCode := -150; ErrMsgTimedOut := -192; ErrPurgeQueue := -152; ErrPurgeInflight := -151;
     ErrQueueFullCode := -184; ErrNoError := 0; ErrUnknownTopicOrPart := 3;
     code_String := λ c, "code " +:+ Itoa c |}.

(** ** Configuration *)

(** [kfk.ConfigMap]. *)
Class KfkConfig := {
  ConfigMap : Type;
  empty_ConfigMap : ConfigMap;
  SetKey : string → goany → ConfigMap → ConfigMap + goerr;
}.

(** Documented behaviour of [SetKey]: it sets one key.  A key that starts with
    ["{topic}."] is set on the sub-map of ["default.topic.config"] instead. *)
Definition plain_key (k : string) : Prop :=
  HasPrefix k "{topic}." = false ∧ k ≠ "default.topic.config".
Class KfkConfigLaws `{KfkConfig} := {
  config_get : ConfigMap → string → option goany;
  config_get_empty k : config_get empty_ConfigMap k = None;
  config_get_SetKey k v m m' k' : SetKey k v m = inl m' → plain_key k' →
    config_get m' k' = if String.eqb k k' then Some v else config_get m k';
}.

(** A [fmt.Errorf] that ends in [": %w"]. *)
Definition wrapf (msg : string) (err : goerr) : goerr := EErrorf (msg +:+ ": " +:+ error_text err) [err].

Section set_keys.
Context `{KfkConfig}.
(** [configMap.SetKey], whose error is wrapped with [what] and ends the setting. *)
Definition set_key (what : string) (key : string) (value : goany) (m : ConfigMap + goerr) :
    ConfigMap + goerr :=
  match m with
  | inl m =>
      match SetKey key value m with
      | inl m => inl m
      | inr err => inr (wrapf what err)
      end
  | inr err => inr err
  end.
Fixpoint set_keys (what : string → string) (entries : list (string * goany)) (m : ConfigMap + goerr) :
    ConfigMap + goerr :=
  match entries with
  | [] => m
  | (key, value) :: entries => set_keys what entries (set_key (what key) key value m)
  end.
End set_keys.

(** ** Lemmas *)

Section config.
Context `{KfkConfigLaws} `{GoRangeLaws}.

Definition getk (m : ConfigMap + goerr) (k : string) : option goany :=
  match m with inl m => config_get m k | inr _ => None end.
Definition is_inl {A B} (x : A + B) : Prop := match x with inl _ => True | inr _ => False end.

Lemma set_key_inl what k v m : is_inl (set_key what k v m) → is_inl m.
Proof. by destruct m. Qed.
Lemma set_keys_inl what es : ∀ m, is_inl (set_keys what es m) → is_inl m.
Proof. induction es as [|[k v] es IH]; intros m; simpl; [done|]. intros Hm. by eapply set_key_inl, IH. Qed.

Lemma getk_set_key what k v m k' : is_inl (set_key what k v m) → plain_key k' →
  getk (set_key what k v m) k' = if String.eqb k k' then Some v else getk m k'.
Proof.
  destruct m as [m|]; simpl; [|done]. destruct (SetKey k v m) as [m'|] eqn:E; [|done].
  intros _ Hk. by apply (config_get_SetKey k v m).
Qed.

Lemma getk_set_keys what es : ∀ m k', is_inl (set_keys what es m) → plain_key k' → NoDup es.*1 →
  getk (set_keys what es m) k' =
    match list_find (λ kv, kv.1 = k') es with Some (_, kv) => Some kv.2 | None => getk m k' end.
Proof.
  induction es as [|[k v] es IH]; intros m k' Hm Hk Hnd; simpl; [done|].
  apply (NoDup_cons _ _) in Hnd as [Hni Hnd]. simpl in Hm. rewrite IH by done.
  assert (getk (set_key (what k) k v m) k' = if String.eqb k k' then Some v else getk m k') as Hg.
  { apply getk_set_key; [by eapply set_keys_inl|done]. }
  destruct (decide (k = k')) as [->|Hne].
  - rewrite String.eqb_refl in Hg.
    destruct (list_find (λ kv, kv.1 = k') es) as [[i kv]|] eqn:Ef; [|done].
    apply list_find_Some in Ef as (Ei & <- & _). exfalso. apply Hni.
    apply list_elem_of_fmap. exists kv. split; [done|]. by eapply list_elem_of_lookup_2.
  - rewrite (proj2 (String.eqb_neq k k') Hne) in Hg. rewrite Hg.
    by destruct (list_find (λ kv, kv.1 = k') es) as [[]|].
Qed.
Lemma getk_set_map what (es : gmap string goany) m k' :
  is_inl (set_keys what (go_range es) m) → plain_key k' →
  getk (set_keys what (go_range es) m) k' = match es !! k' with Some v => Some v | None => getk m k' end.
Proof.
  intros Hm Hk. rewrite getk_set_keys by (try done; apply NoDup_go_range).
  destruct (list_find (λ kv, kv.1 = k') (go_range es)) as [[i [k v]]|] eqn:Ef.
  - apply list_find_Some in Ef as (Ei & Ek & _). simpl in Ek. subst k.
    apply list_elem_of_lookup_2, elem_of_go_range in Ei. by rewrite Ei.
  - apply list_find_None in Ef. destruct (es !! k') as [v|] eqn:E; [|done].
    apply elem_of_go_range in E. rewrite Forall_forall in Ef. by destruct (Ef _ E).
Qed.
End config.

(** A concrete configuration map, for the witnesses. *)
Module Ex_config.
Definition set_key_ (k : string) (v : goany) (m : gmap string goany) : gmap string goany + goerr :=
  if HasPrefix k "{topic}." then inl (<["default.topic.config" := AOther "ConfigMap"]> m)
  else inl (<[k := v]> m).
Definition config : KfkConfig :=
  {| ConfigMap := gmap string goany; empty_ConfigMap := ∅; SetKey := set_key_ |}.
Definition laws : @KfkConfigLaws config.
Proof.
  refine (@Build_KfkConfigLaws config (λ (m : gmap string goany) k, m !! k) _ _).
  - intros k. apply lookup_empty.
  - intros k v m m' k' E [Hk' Hd]. simpl in E. unfold set_key_ in E.
    destruct (HasPrefix k "{topic}.") eqn:Hp; injection E as <-.
    + rewrite lookup_insert_ne by congruence. destruct (String.eqb_spec k k') as [->|]; [congruence|done].
    + destruct (String.eqb_spec k k') as [->|]; [by rewrite lookup_insert_eq|by rewrite lookup_insert_ne].
Defined.
End Ex_config.
