(* ===== verification/ConsumerDriver.v ===== *)
(** * The consumer driver (internal/subscribe/subscribedriver/consumer.go)

    The confluent-kafka-go consumer behind the [Consumer] interface.  The client
    is not part of the repository: it is the class [KfkConsumer], whose
    operations act on the world [W].  The rebalance callback runs inside the
    client's Poll and Close, on the goroutine that calls them; so both are split
    at the points where the callback runs. *)
From S2P Require Import Prelude GoStrings GoErrors GoTime LogCode GoAny Types ConsumerApi.
From S2P Require Import SubscribeOptions Kfk.

(** ** The client *)

(** [kfk.Message], with the partition error.  The topic pointer is set on every
    message without an error. *)
Record kfk_Message : Type := {
  km_Topic : string; km_Partition : Z; km_Offset : Z; km_Error : option goerr;
  km_Timestamp : Time; km_Key : bytes; km_Value : bytes; km_Headers : list (string * bytes);
}.
(** What [Poll] returns: a message, a [kfk.Error] (code, fatal, text), the result
    of a background commit, another event. *)
Inductive kfk_Event : Type :=
  | KMessage (m : kfk_Message)
  | KError (code : Z) (fatal : bool) (text : string)
  | KOffsetsCommitted (offsets : nat) (err : option goerr)
  | KOtherEvent.
(** What the rebalance callback is called with. *)
Inductive kfk_Rebalance : Type :=
  | AssignedPartitions (tps : list (string * Z))
  | RevokedPartitions (tps : list (string * Z))
  | OtherRebalance.

(** [kfk.Consumer].  [StoreOffsets] is given one partition
    and returns the error on its entry and the error of the call; [Commit]
    returns the number of partitions committed. *)
Class KfkConsumer `{KfkConfig} (W : Type) := {
  kfk_NewConsumer : ConfigMap → W → option goerr * W;
  kfk_SubscribeTopics : list string → W → option goerr * W;
  kfk_Poll_rebalances : Z → W → list kfk_Rebalance * W;
  kfk_Poll_event : W → option kfk_Event * W;
  kfk_Assign : list (string * Z) → W → option goerr * W;
  kfk_Unassign : W → option goerr * W;
  kfk_StoreOffsets : string → Z → Z → W → (option goerr * option goerr) * W;
  kfk_Commit : W → (nat + goerr) * W;
  kfk_Close_rebalances : W → list kfk_Rebalance * W;
  kfk_Close : W → option goerr * W;
}.

(** ** The driver *)

(** The fields of [consumer] that change: whether it holds a client, whether the
    broker is thought connected, whether a revoke hook is registered.  [revoked]
    counts the runs of the hook. *)
Record consumer_state : Type := mkConsumer {
  kafkaConsumer : bool;
  brokerConnected : bool;
  onRevoke : bool;
  revoked : nat;
}.
Definition new_consumer : consumer_state := mkConsumer false false false 0.

Section driver.
Context {W : Type} `{KfkCodes} `{KfkConsumer W} `{GoRange} (log : log_line → W → W).

(** The world of the driver: its own fields, and the client's. *)
Definition DW : Type := consumer_state * W.
Abbreviation M := (ST DW).

Definition client {A} (f : W → A * W) : M A := λ s, let '(x, w) := f s.2 in (x, (s.1, w)).
Definition logs (l : level) (c : option logcode) : M unit := λ s, (tt, (s.1, log (LogLine l c) s.2)).
Definition set_consumer (f : consumer_state → consumer_state) : M unit := modify (λ s, (f s.1, s.2)).
Definition set_connected (b : bool) : consumer_state → consumer_state :=
  λ c, mkConsumer (kafkaConsumer c) b (onRevoke c) (revoked c).

Definition not_connected : goerr := errors_New "consumer not connected".

(** *** Configuration *)

Definition autoCommit (config : DriverConfig) : bool := 0 <? dc_CommitInterval config.
Definition reconnectDefaults : gmap string goany :=
  {[ "reconnect.backoff.ms" := AnInt 100; "reconnect.backoff.max.ms" := AnInt 10000 ]}.

(** The settings [New] makes before the caller's. *)
Definition base_config (config : DriverConfig) : ConfigMap + goerr :=
  let m := inl empty_ConfigMap in
  let m := set_key "setting bootstrap.servers" "bootstrap.servers" (AString (Join (dc_Brokers config) ",")) m in
  let m := set_key "setting group.id" "group.id" (AString (dc_GroupID config)) m in
  let m := set_key "setting auto.offset.reset" "auto.offset.reset" (AString "earliest") m in
  let m := set_key "setting enable.auto.commit" "enable.auto.commit" (ABool (autoCommit config)) m in
  let m := if autoCommit config
           then set_key "setting auto.commit.interval.ms" "auto.commit.interval.ms"
                  (AnInt (Z.quot (dc_CommitInterval config) Millisecond)) m
           else m in
  let m := set_key "setting enable.auto.offset.store" "enable.auto.offset.store" (ABool false) m in
  let m := set_key "setting partition.assignment.strategy" "partition.assignment.strategy"
             (AString "range,roundrobin") m in
  set_keys (λ key, "setting " +:+ key) (go_range reconnectDefaults) m.
Definition build_config (config : DriverConfig) : ConfigMap + goerr :=
  set_keys (λ key, "setting kafka config " +:+ key) (go_range (dc_KafkaConfig config)) (base_config config).

(** *** Connecting *)

Section consumer.
Context (config : DriverConfig) (configMap : ConfigMap).

Definition consumer_Connect : M (option goerr) :=
  c ← gets fst;
  if kafkaConsumer c then mret (Some (errors_New "consumer already connected"))
  else
    err ← client (kfk_NewConsumer configMap);
    match err with
    | Some e => mret (Some (wrapf "failed to create kafka consumer" e))
    | None =>
        set_consumer (λ c, mkConsumer true true (onRevoke c) (revoked c)) ;;
        logs Info_ None ;; mret None
    end.

Definition consumer_SubscribeToTopic : M (option goerr) :=
  c ← gets fst;
  if kafkaConsumer c then
    err ← client (kfk_SubscribeTopics [dc_Topic config]);
    match err with
    | Some e => mret (Some (wrapf ("failed to subscribe to topic " +:+ dc_Topic config) e))
    | None => logs Info_ None ;; mret None
    end
  else mret (Some not_connected).

(** *** Storing and committing *)

(** [errors.As] finds a [kfk.Error] with this code. *)
Definition is_kfk_code (code : Z) (err : goerr) : bool :=
  match as_kfk err with Some (c, _, _) => c =? code | None => false end.
Definition isNotAssigned (err : goerr) : bool := is_kfk_code ErrState err.
Definition bracket (topic : string) (partition : Z) : string :=
  topic +:+ "[" +:+ Itoa partition +:+ "]".
Definition classifyStoreErr (err : goerr) (topic : string) (partition : Z) : goerr :=
  if isNotAssigned err then
    EErrorf (error_text ErrPartitionRevoked +:+ ": " +:+ bracket topic partition) [ErrPartitionRevoked]
  else wrapf ("failed to store offset for " +:+ bracket topic partition) err.

(** The stored offset is the next one to read. *)
Definition consumer_StoreOffset (topic : string) (partition offset : Z) : M (option goerr) :=
  c ← gets fst;
  if kafkaConsumer c then
    r ← client (kfk_StoreOffsets topic partition (wrap64 (offset + 1)));
    let '(entryErr, storeErr) := r in
    match entryErr with
    | Some e => mret (Some (classifyStoreErr e topic partition))
    | None =>
        match storeErr with
        | Some e => mret (Some (classifyStoreErr e topic partition))
        | None => mret None
        end
    end
  else mret (Some not_connected).

Definition consumer_CommitStored : M (option goerr) :=
  c ← gets fst;
  if kafkaConsumer c then
    r ← client kfk_Commit;
    match r with
    | inr err =>
        if is_kfk_code ErrNoOffset err then logs Debug_ None ;; mret None
        else mret (Some (wrapf "failed to commit stored offsets" err))
    | inl _ => logs Debug_ None ;; mret None
    end
  else mret (Some not_connected).
Definition consumer_MaybeCommitStored : M (option goerr) :=
  if autoCommit config then mret None else consumer_CommitStored.

(** *** Rebalances *)

Definition run_onRevoke : M unit :=
  set_consumer (λ c, mkConsumer (kafkaConsumer c) (brokerConnected c) (onRevoke c)
                       (if onRevoke c then S (revoked c) else revoked c)).

Definition rebalanceCallback (event : kfk_Rebalance) : M (option goerr) :=
  match event with
  | AssignedPartitions tps =>
      logs Info_ None ;;
      err ← client (kfk_Assign tps);
      match err with
      | Some _ => logs Error_ (Some RebalanceFailed) ;; mret err
      | None => mret None
      end
  | RevokedPartitions _ =>
      logs Info_ None ;;
      run_onRevoke ;;
      err ← consumer_CommitStored;
      match err with Some _ => logs Warn_ (Some CommitFailed) | None => mret tt end ;;
      err ← client kfk_Unassign;
      match err with
      | Some _ => logs Error_ (Some RebalanceFailed) ;; mret err
      | None => mret None
      end
  | OtherRebalance => mret None
  end.
(** The client calls back for each event and uses nothing of the result. *)
Definition serve_rebalances : list kfk_Rebalance → M unit :=
  st_iter (λ event, rebalanceCallback event ;; mret tt).

(** *** Polling *)

(** [headers[h.Key] = string(h.Value)], in order. *)
Definition header_map (hs : list (string * bytes)) : gmap string string :=
  foldl (λ m h, <[h.1 := default EmptyString h.2]> m) ∅ hs.
Definition to_Message (m : kfk_Message) : Message :=
  {| msg_Topic := km_Topic m; msg_Partition := km_Partition m; msg_Offset := km_Offset m;
     msg_Timestamp := km_Timestamp m; msg_Key := km_Key m;
     msg_Headers := Some (header_map (km_Headers m)); msg_Payload := km_Value m |}.

Definition translate (ev : option kfk_Event) : M (option Message * option goerr) :=
  match ev with
  | None => mret (None, None)
  | Some (KMessage m) =>
      match km_Error m with
      | Some _ => logs Warn_ (Some KafkaErrorCode) ;; mret (None, None)
      | None =>
          c ← gets fst;
          set_consumer (set_connected true) ;;
          (if brokerConnected c then mret tt else logs Info_ (Some BrokerReconnected)) ;;
          mret (Some (to_Message m), None)
      end
  | Some (KError code fatal text) =>
      if fatal then mret (None, Some (wrapf "fatal kafka error" (EKfk code fatal text)))
      else
        (if (code =? ErrTransport) || (code =? ErrAllBrokersDown) then
           c ← gets fst;
           set_consumer (set_connected false) ;;
           if brokerConnected c then logs Warn_ (Some BrokerDisconnected) else logs Debug_ None
         else logs Warn_ (Some KafkaErrorCode)) ;;
        mret (None, None)
  | Some (KOffsetsCommitted _ err) =>
      match err with Some _ => logs Warn_ (Some CommitFailed) | None => logs Debug_ None end ;;
      mret (None, None)
  | Some KOtherEvent => mret (None, None)
  end.

Definition consumer_Poll (timeoutMs : Z) : M (nat * option Message * option goerr) :=
  c ← gets fst;
  if kafkaConsumer c then
    events ← client (kfk_Poll_rebalances timeoutMs);
    serve_rebalances events ;;
    c' ← gets fst;
    ev ← client kfk_Poll_event;
    r ← translate ev;
    mret ((revoked c' - revoked c)%nat, r.1, r.2)
  else mret (0%nat, None, Some not_connected).

Definition consumer_SetOnRevoke : M unit :=
  set_consumer (λ c, mkConsumer (kafkaConsumer c) (brokerConnected c) true (revoked c)).

Definition consumer_Close : M (option goerr) :=
  c ← gets fst;
  if kafkaConsumer c then
    events ← client kfk_Close_rebalances;
    serve_rebalances events ;;
    err ← client kfk_Close;
    set_consumer (λ c, mkConsumer false (brokerConnected c) (onRevoke c) (revoked c)) ;;
    match err with
    | Some e => mret (Some (wrapf "failed to close kafka consumer" e))
    | None => logs Info_ None ;; mret None
    end
  else mret None.

(** The driver as the subscriber sees it. *)
Definition consumer : Consumer DW :=
  {| Connect := consumer_Connect; SubscribeToTopic := consumer_SubscribeToTopic;
     Poll := consumer_Poll; StoreOffset := consumer_StoreOffset;
     CommitStored := consumer_CommitStored; MaybeCommitStored := consumer_MaybeCommitStored;
     SetOnRevoke := λ s, (consumer_SetOnRevoke s).2; Close := consumer_Close |}.
End consumer.

(** [New]. *)
Definition driver_New (config : DriverConfig) (s : DW) : (Consumer DW + goerr) * DW :=
  match dc_Brokers config with
  | [] => (inr (errors_New "at least one broker is required"), s)
  | _ =>
      if String.eqb (dc_Topic config) EmptyString then (inr (errors_New "topic cannot be empty"), s)
      else if String.eqb (dc_GroupID config) EmptyString then
        (inr (errors_New "group ID cannot be empty"), s)
      else
        match build_config config with
        | inr err => (inr err, s)
        | inl configMap => (inl (consumer config configMap), (new_consumer, s.2))
        end
  end.
End driver.

(** ** Lemmas *)

Section built.
Context `{KfkConfigLaws} `{GoRangeLaws} (config : DriverConfig).

(** What [New] sets for a key before it applies the caller's map, the last
    setting first. *)
Definition base_setting (k : string) : option goany :=
  match reconnectDefaults !! k with
  | Some v => Some v
  | None =>
      if String.eqb "partition.assignment.strategy" k then Some (AString "range,roundrobin")
      else if String.eqb "enable.auto.offset.store" k then Some (ABool false)
      else if autoCommit config && String.eqb "auto.commit.interval.ms" k then
        Some (AnInt (Z.quot (dc_CommitInterval config) Millisecond))
      else if String.eqb "enable.auto.commit" k then Some (ABool (autoCommit config))
      else if String.eqb "auto.offset.reset" k then Some (AString "earliest")
      else if String.eqb "group.id" k then Some (AString (dc_GroupID config))
      else if String.eqb "bootstrap.servers" k then Some (AString (Join (dc_Brokers config) ","))
      else None
  end.

Lemma base_config_get k : is_inl (base_config config) → plain_key k →
  getk (base_config config) k = base_setting k.
Proof.
  intros Hm Hk. unfold base_config, base_setting in *. rewrite getk_set_map by done. apply set_keys_inl in Hm.
  rewrite getk_set_key by done. apply set_key_inl in Hm.
  rewrite getk_set_key by done. apply set_key_inl in Hm.
  destruct (autoCommit config); cbn [andb].
  - rewrite getk_set_key by done. apply set_key_inl in Hm.
    do 4 (rewrite getk_set_key by done; apply set_key_inl in Hm). cbn [getk]. by rewrite config_get_empty.
  - do 4 (rewrite getk_set_key by done; apply set_key_inl in Hm). cbn [getk]. by rewrite config_get_empty.
Qed.
Lemma build_config_get m k : build_config config = inl m → plain_key k →
  config_get m k = match dc_KafkaConfig config !! k with Some v => Some v | None => base_setting k end.
Proof.
  intros Hm Hk. assert (is_inl (build_config config)) as Hb by (by rewrite Hm).
  change (config_get m k) with (getk (inl m) k). rewrite <-Hm. unfold build_config in *.
  rewrite getk_set_map by done. apply set_keys_inl in Hb. by rewrite base_config_get.
Qed.
End built.

(** ** Properties: the configuration *)

(** C34 (consumer configuration) Whatever the caller's Kafka configuration, as long
    as it holds no key the library manages, the consumer is built so that only
    the subscriber stores offsets, with the eager rebalance protocol, with the
    brokers and the group of the options, and committing in the background exactly
    if an interval is set, at that interval in whole milliseconds; every setting of the
    caller's is passed on, except those on the sub-map of default.topic.config, of which
    nothing is said; and what the caller leaves out defaults to earliest and to the
    reconnect backoff of 100 ms to 10 s. *)
Theorem consumer_config_safe `{KfkConfigLaws} `{GoRangeLaws} (config : DriverConfig) (m : ConfigMap) :
  build_config config = inl m →
  (∀ k, is_Some (dc_KafkaConfig config !! k) → managed_reason k = None) →
  config_get m "enable.auto.offset.store" = Some (ABool false) ∧
  config_get m "partition.assignment.strategy" = Some (AString "range,roundrobin") ∧
  config_get m "bootstrap.servers" = Some (AString (Join (dc_Brokers config) ",")) ∧
  config_get m "group.id" = Some (AString (dc_GroupID config)) ∧
  config_get m "enable.auto.commit" = Some (ABool (0 <? dc_CommitInterval config)) ∧
  config_get m "auto.commit.interval.ms" =
    (if 0 <? dc_CommitInterval config then Some (AnInt (Z.quot (dc_CommitInterval config) Millisecond)) else None) ∧
  (∀ k v, plain_key k → dc_KafkaConfig config !! k = Some v → config_get m k = Some v) ∧
  (dc_KafkaConfig config !! "auto.offset.reset" = None →
   config_get m "auto.offset.reset" = Some (AString "earliest")) ∧
  (dc_KafkaConfig config !! "reconnect.backoff.ms" = None →
   config_get m "reconnect.backoff.ms" = Some (AnInt 100)) ∧
  (dc_KafkaConfig config !! "reconnect.backoff.max.ms" = None →
   config_get m "reconnect.backoff.max.ms" = Some (AnInt 10000)).
Proof.
  intros Hm Hun.
  assert (∀ k r, managed_reason k = Some r → dc_KafkaConfig config !! k = None) as Hno.
  { intros k r Hk. destruct (dc_KafkaConfig config !! k) eqn:E; [|done].
    rewrite (Hun k) in Hk by eauto. done. }
  assert (∀ k, plain_key k → config_get m k =
    match dc_KafkaConfig config !! k with Some v => Some v | None => base_setting config k end) as Hg
    by (intros; by apply build_config_get).
  assert (∀ k r, managed_reason k = Some r → plain_key k → config_get m k = base_setting config k) as Hman.
  { intros k r Hr Hk. by rewrite Hg, (Hno _ _ Hr) by done. }
  split_and!.
  - by erewrite Hman by done.
  - by erewrite Hman by done.
  - erewrite Hman by done. unfold base_setting. by destruct (autoCommit config).
  - erewrite Hman by done. unfold base_setting. by destruct (autoCommit config).
  - erewrite Hman by done. unfold base_setting, autoCommit. by destruct (0 <? dc_CommitInterval config).
  - erewrite Hman by done. unfold base_setting, autoCommit. by destruct (0 <? dc_CommitInterval config).
  - intros k v Hk E. by rewrite Hg, E.
  - intros E. rewrite Hg, E by done. unfold base_setting. by destruct (autoCommit config).
  - intros E. by rewrite Hg, E by done.
  - intros E. by rewrite Hg, E by done.
Qed.

(** C39 (sub-millisecond interval) A positive auto-commit interval shorter than a
    millisecond, which [WithAutoCommitEvery] accepts, reaches librdkafka as
    [auto.commit.interval.ms = 0], its value for no background commits, while the
    per-message commits are left to the background: [MaybeCommitStored] then does
    nothing, and offsets are committed at a revocation and at shutdown only. *)
Theorem short_interval_disables_commits {W} `{KfkCodes} `{KfkConsumer W} `{!KfkConfigLaws} `{GoRangeLaws}
    (log : log_line → W → W) (config : DriverConfig) (m : ConfigMap) (s : DW) :
  0 < dc_CommitInterval config < Millisecond →
  build_config config = inl m → dc_KafkaConfig config !! "auto.commit.interval.ms" = None →
  config_get m "auto.commit.interval.ms" = Some (AnInt 0) ∧
  consumer_MaybeCommitStored log config s = (None, s).
Proof.
  intros Hi Hm Hk. assert (autoCommit config = true) as Ha by (unfold autoCommit; lia).
  unfold consumer_MaybeCommitStored. rewrite Ha. split; [|done].
  rewrite (build_config_get config) by done. rewrite Hk. unfold base_setting. rewrite Ha.
  cbn -[Z.quot Millisecond]. by rewrite Z.quot_small by lia.
Qed.

(** ** Properties: the operations *)

(** The last value a header key carries. *)
Fixpoint last_header (hs : list (string * bytes)) (k : string) : option string :=
  match hs with
  | [] => None
  | (k', v) :: hs =>
      match last_header hs k with
      | Some x => Some x
      | None => if String.eqb k' k then Some (default EmptyString v) else None
      end
  end.
Lemma header_map_last hs k : header_map hs !! k = last_header hs k.
Proof.
  unfold header_map.
  assert (∀ m, foldl (λ (m : gmap string string) h, <[h.1 := default EmptyString h.2]> m) m hs !! k =
    match last_header hs k with Some x => Some x | None => m !! k end) as Hm.
  { induction hs as [|[k' v] hs IH]; intros m; simpl; [done|]. rewrite IH.
    destruct (last_header hs k); [done|]. destruct (String.eqb_spec k' k) as [->|].
    - by rewrite lookup_insert_eq.
    - by rewrite lookup_insert_ne. }
  rewrite Hm, lookup_empty. by destruct (last_header hs k).
Qed.

(** On a connected consumer, StoreOffset gives the client the
    offset after the one processed, and its answer is: nil exactly if the client
    reported nothing; the revoked sentinel exactly if the error it reports, the
    one on the partition entry before the one of the call, carries the code
    ErrState; and otherwise an error that wraps the client's.  A disconnected
    consumer is never asked. *)
Theorem StoreOffset_result {W} `{KfkCodes} `{KfkConsumer W} topic partition offset (s : DW (W:=W)) :
  - 2 ^ 63 ≤ offset < 2 ^ 63 - 1 →
  (∀ e, (kfk_StoreOffsets topic partition (offset + 1) s.2).1.1 = Some e ∨
        (kfk_StoreOffsets topic partition (offset + 1) s.2).1.2 = Some e →
        errors_Is (Some e) ErrPartitionRevoked = false) →
  let '(entry, call, w) := kfk_StoreOffsets topic partition (offset + 1) s.2 in
  let reported := match entry with Some e => Some e | None => call end in
  let '(err, s') := consumer_StoreOffset topic partition offset s in
  if kafkaConsumer s.1 then
    s' = (s.1, w) ∧
    (err = None ↔ reported = None) ∧
    (errors_Is err ErrPartitionRevoked = true ↔ ∃ e, reported = Some e ∧ is_kfk_code ErrState e = true) ∧
    (∀ e target, reported = Some e → is_kfk_code ErrState e = false →
       errors_Is err target = errors_Is (Some e) target)
  else s' = s ∧ err = Some not_connected.
Proof.
  intros Ho Hc. unfold consumer_StoreOffset, mbind, ST_bind, gets, client.
  rewrite wrap64_id by lia. cbn [fst snd].
  destruct (kfk_StoreOffsets topic partition (offset + 1) s.2) as [[entry call] w] eqn:E. cbn [fst snd] in Hc.
  destruct (kafkaConsumer s.1); [|done]. cbn [fst snd]. rewrite E.
  assert (∀ e, errors_Is (Some e) ErrPartitionRevoked = false →
    (errors_Is (Some (classifyStoreErr e topic partition)) ErrPartitionRevoked = true ↔
       ∃ e0, Some e = Some e0 ∧ is_kfk_code ErrState e0 = true) ∧
    (∀ e0 target, Some e = Some e0 → is_kfk_code ErrState e0 = false →
       errors_Is (Some (classifyStoreErr e topic partition)) target = errors_Is (Some e0) target)) as Hk.
  { intros e He. unfold classifyStoreErr, isNotAssigned. destruct (is_kfk_code ErrState e) eqn:Es.
    - split; [by split; eauto|]. intros e0 target [= <-]. congruence.
    - unfold wrapf. rewrite errors_Is_errorf. cbn [existsb]. rewrite orb_false_r, He. split.
      + split; [done|]. intros (e0 & [= <-] & ?). congruence.
      + intros e0 target [= <-] _. rewrite errors_Is_errorf. cbn [existsb]. by rewrite orb_false_r. }
  destruct entry as [e|]; [|destruct call as [e|]].
  - split; [done|]. split; [done|]. apply Hk, Hc. by left.
  - split; [done|]. split; [done|]. apply Hk, Hc. by right.
  - split_and!; try done. by split; [|intros (? & ? & ?)].
Qed.

(** What [Poll] hands to the subscriber is a record the client
    delivered without an error, at its own topic, partition and offset, with its
    own key and value, and each header key with the last value it carries; and it
    fails only on a fatal client error, which [errors.As] finds in the error.
    Every other event, a failed background commit or a lost broker included, is
    logged and yields nothing. *)
Theorem Poll_translation {W} `{KfkCodes} `{KfkConsumer W} (log : log_line → W → W) ev (s : DW (W:=W)) :
  let '(msg, err) := (translate log ev s).1 in
  match ev with
  | Some (KMessage km) =>
      err = None ∧
      match km_Error km with
      | Some _ => msg = None
      | None => ∃ m h, msg = Some m ∧ pos m = (km_Topic km, km_Partition km, km_Offset km) ∧
                  msg_Key m = km_Key km ∧ msg_Payload m = km_Value km ∧
                  msg_Headers m = Some h ∧ ∀ k, h !! k = last_header (km_Headers km) k
      end
  | Some (KError code true text) =>
      msg = None ∧ ∃ e, err = Some e ∧ as_kfk e = Some (code, true, text)
  | _ => msg = None ∧ err = None
  end.
Proof.
  unfold translate, mbind, ST_bind.
  destruct s as [c w], ev as [[km|code [|] text|n [e|]|]|]; cbn; try done.
  - destruct (km_Error km); cbn; [done|]. destruct (brokerConnected c); cbn; (split; [done|]);
      do 2 eexists; (split_and!; try done); intros k; apply header_map_last.
  - split; [done|]. eexists. split; [done|]. done.
  - destruct ((code =? ErrTransport) || (code =? ErrAllBrokersDown)); cbn; [|done].
    by destruct (brokerConnected c).
Qed.

(** The transport codes among the lines logged, in order. *)
Definition transport_lines (ls : list log_line) : list logcode :=
  omap (λ l, match log_code l with
             | Some BrokerDisconnected => Some BrokerDisconnected
             | Some BrokerReconnected => Some BrokerReconnected
             | _ => None
             end) ls.
(** Lost, restored, lost, ... [n] times. *)
Fixpoint alternating (n : nat) (lost : bool) : list logcode :=
  match n with
  | O => []
  | S n => (if lost then BrokerDisconnected else BrokerReconnected) :: alternating n (negb lost)
  end.

Lemma alternating_snoc n : ∀ lost,
  alternating n lost ++ [if xorb lost (Nat.odd n) then BrokerDisconnected else BrokerReconnected] =
  alternating (S n) lost.
Proof.
  induction n as [|n IH]; intros lost; [by destruct lost|].
  cbn [alternating]. rewrite <-app_comm_cons. f_equal.
  etransitivity; [|exact (IH (negb lost))]. do 3 f_equal.
  rewrite Nat.odd_succ, <-Nat.negb_odd. by destruct lost, (Nat.odd n).
Qed.

(** Translating an event, with the log lines collected in a list. *)
Definition log_event `{KfkCodes} (ev : option kfk_Event) : ST (consumer_state * list log_line) unit :=
  translate (λ l ls, ls ++ [l]) ev ;; mret tt.

(** One event: nothing changes, or the connection is lost, or restored. *)
Lemma translate_transport `{KfkCodes} ev c ls :
  ∃ c' ls', (log_event ev (c, ls)).2 = (c', ls') ∧
    ((brokerConnected c' = brokerConnected c ∧ transport_lines ls' = transport_lines ls) ∨
     (brokerConnected c = true ∧ brokerConnected c' = false ∧
      transport_lines ls' = transport_lines ls ++ [BrokerDisconnected]) ∨
     (brokerConnected c = false ∧ brokerConnected c' = true ∧
      transport_lines ls' = transport_lines ls ++ [BrokerReconnected])).
Proof.
  assert (∀ l x, transport_lines (ls ++ [LogLine l x]) = transport_lines ls ++ transport_lines [LogLine l x]) as Happ
    by (intros; unfold transport_lines; by rewrite omap_app).
  unfold log_event, translate, mbind, ST_bind.
  destruct ev as [[km|code [|] text|k [e|]|]|]; cbn; try (do 2 eexists; split; [reflexivity|]; by left);
    try (do 2 eexists; split; [reflexivity|]; left; by rewrite Happ, app_nil_r).
  - destruct (km_Error km); cbn.
    { do 2 eexists. split; [reflexivity|]. left. by rewrite Happ, app_nil_r. }
    destruct (brokerConnected c) eqn:Eb; cbn; do 2 eexists; (split; [reflexivity|]); [by left|].
    right. right. by rewrite Happ.
  - destruct ((code =? ErrTransport) || (code =? ErrAllBrokersDown)); cbn.
    2: { do 2 eexists. split; [reflexivity|]. left. by rewrite Happ, app_nil_r. }
    destruct (brokerConnected c) eqn:Eb; cbn; do 2 eexists; (split; [reflexivity|]); rewrite Happ.
    + right. by left.
    + left. by rewrite app_nil_r.
Qed.

(** However the client's events interleave, the log tells outages
    apart: from a connected consumer, the lost and restored lines alternate,
    lost first, one of each per outage; and the consumer counts as connected
    exactly if every loss has been followed by a restoration. *)
Theorem broker_log_alternates `{KfkCodes} (evs : list (option kfk_Event)) c :
  brokerConnected c = true →
  let '(_, (c', ls)) := st_iter log_event evs (c, []) in
  ∃ n, transport_lines ls = alternating n true ∧ brokerConnected c' = Nat.even n.
Proof.
  intros Hc.
  assert (∀ c ls n, transport_lines ls = alternating n true → brokerConnected c = Nat.even n →
    let '(_, (c', ls')) := st_iter log_event evs (c, ls) in
    ∃ n, transport_lines ls' = alternating n true ∧ brokerConnected c' = Nat.even n) as Hk;
    [|by apply (Hk c [] 0%nat)].
  clear c Hc. induction evs as [|ev evs IH]; intros c ls n Hl Hc; cbn [st_iter]; [by exists n|].
  destruct (translate_transport ev c ls) as (c1 & ls1 & E & Hcase).
  unfold mbind at 1, ST_bind at 1. destruct (log_event ev (c, ls)) as [[] s1]. simpl in E. subst s1.
  assert (∀ x, (if xorb true (Nat.odd n) then BrokerDisconnected else BrokerReconnected) = x →
            transport_lines ls ++ [x] = alternating (S n) true) as Hsnoc.
  { intros x <-. by rewrite Hl, alternating_snoc. }
  pose proof (Nat.negb_odd n) as Hodd.
  assert (Nat.even (S n) = negb (Nat.even n)) as Hev by (by rewrite Nat.even_succ, <-Nat.negb_even).
  destruct Hcase as [[E1 E2]|[(E1 & E2 & E3)|(E1 & E2 & E3)]].
  - apply (IH c1 ls1 n); congruence.
  - apply (IH c1 ls1 (S n)); [|rewrite Hev, <-Hc, E1; done]. rewrite E3. apply Hsnoc.
    rewrite <-Hodd in Hc. rewrite E1 in Hc. by destruct (Nat.odd n).
  - apply (IH c1 ls1 (S n)); [|rewrite Hev, <-Hc, E1; done]. rewrite E3. apply Hsnoc.
    rewrite <-Hodd in Hc. rewrite E1 in Hc. by destruct (Nat.odd n).
Qed.

(** ** A concrete client, for the witnesses

    It delivers a script of events, keeps a store and the committed offsets, and
    stores on its own what it delivers unless its configuration says otherwise. *)
Module Ex_kafka.
Record kafka : Type := mkKafka {
  k_script : list (list kfk_Rebalance * option kfk_Event);
  k_stored : gmap (string * Z) Z;
  k_committed : gmap (string * Z) Z;
  k_auto : bool;
  k_ticks : nat;
}.
#[export] Instance codes : KfkCodes := codes_librdkafka.
#[export] Instance config_ : KfkConfig := Ex_config.config.
#[export] Instance config_laws : KfkConfigLaws := Ex_config.laws.
Definition auto_of (m : gmap string goany) : bool :=
  match m !! "enable.auto.offset.store" with Some (ABool false) => false | _ => true end.
Definition store_of (auto : bool) (ev : option kfk_Event) (st : gmap (string * Z) Z) : gmap (string * Z) Z :=
  match ev with
  | Some (KMessage m) => if auto then <[(km_Topic m, km_Partition m) := km_Offset m + 1]> st else st
  | _ => st
  end.
Definition commit (w : kafka) : kafka :=
  mkKafka (k_script w) (k_stored w) (k_stored w ∪ k_committed w) (k_auto w) (k_ticks w).
#[export] Instance client : KfkConsumer kafka :=
  {| kfk_NewConsumer := λ m w, (None, mkKafka (k_script w) (k_stored w) (k_committed w) (auto_of m) (k_ticks w));
     kfk_SubscribeTopics := λ _ w, (None, w);
     kfk_Poll_rebalances := λ _ w, (match k_script w with [] => [] | (r, _) :: _ => r end, w);
     kfk_Poll_event := λ w,
       match k_script w with
       | [] => (None, w)
       | (_, ev) :: s =>
           (ev, mkKafka s (store_of (k_auto w) ev (k_stored w)) (k_committed w) (k_auto w) (k_ticks w))
       end;
     kfk_Assign := λ _ w, (None, w); kfk_Unassign := λ w, (None, w);
     kfk_StoreOffsets := λ t p o w,
       ((None, None), mkKafka (k_script w) (<[(t, p) := o]> (k_stored w)) (k_committed w) (k_auto w) (k_ticks w));
     kfk_Commit := λ w, (inl (size (k_stored w)), commit w);
     kfk_Close_rebalances := λ w, ([], w); kfk_Close := λ w, (None, commit w) |}.
Definition record_ (offset : Z) : kfk_Message :=
  {| km_Topic := "orders"; km_Partition := 0; km_Offset := offset; km_Error := None;
     km_Timestamp := zero_Time; km_Key := None; km_Value := Some "x"; km_Headers := [] |}.
Definition config : DriverConfig :=
  {| dc_Brokers := ["broker:9092"]; dc_Topic := "orders"; dc_GroupID := "billing";
     dc_KafkaConfig := {["client.id" := AString "c1"]}; dc_CommitInterval := 500000 |}.
Definition k0 : kafka :=
  mkKafka [([AssignedPartitions [("orders", 0)]], None); ([], Some (KMessage (record_ 4)));
           ([RevokedPartitions [("orders", 0)]], None)] ∅ ∅ true 4.
End Ex_kafka.
#[local] Existing Instances Ex_kafka.codes Ex_kafka.config_ Ex_kafka.client Ex_kafka.config_laws.

Lemma ex_built :
  match @build_config Ex_config.config range_canonical Ex_kafka.config with inl _ => true | inr _ => false end = true.
Proof. vm_compute. reflexivity. Qed.

Lemma consumer_config_safe_witness :
  match @build_config Ex_config.config range_canonical Ex_kafka.config with
  | inl m => config_get m "enable.auto.offset.store" = Some (ABool false) ∧
             config_get m "client.id" = Some (AString "c1")
  | inr _ => False
  end.
Proof.
  pose proof ex_built as Hb.
  destruct (@build_config Ex_config.config range_canonical Ex_kafka.config) as [m|e] eqn:E;
    [clear Hb|discriminate Hb].
  destruct (@consumer_config_safe Ex_config.config Ex_config.laws
              range_canonical range_canonical_laws Ex_kafka.config m E) as (Hs & _ & _ & _ & _ & _ & Hc & _).
  - intros k [v Hv]. simpl in Hv. destruct (decide (k = "client.id")) as [->|Hne]; [done|].
    by rewrite lookup_singleton_ne in Hv.
  - split; [exact Hs|]. refine (Hc "client.id" (AString "c1") _ _); [by split|apply lookup_singleton_eq].
Defined.

Lemma short_interval_disables_commits_witness :
  0 < dc_CommitInterval Ex_kafka.config < Millisecond ∧
  match @build_config Ex_config.config range_canonical Ex_kafka.config with
  | inl m => config_get m "auto.commit.interval.ms" = Some (AnInt 0)
  | inr _ => False
  end.
Proof.
  assert (0 < dc_CommitInterval Ex_kafka.config < Millisecond) as Hi by (by vm_compute).
  assert (dc_KafkaConfig Ex_kafka.config !! "auto.commit.interval.ms" = None) as Hk
    by (by apply lookup_singleton_ne).
  split; [exact Hi|]. pose proof ex_built as Hb.
  destruct (@build_config Ex_config.config range_canonical Ex_kafka.config) as [m|e] eqn:E;
    [clear Hb|discriminate Hb].
  destruct (@short_interval_disables_commits Ex_kafka.kafka Ex_kafka.codes Ex_config.config Ex_kafka.client
              Ex_config.laws range_canonical range_canonical_laws (λ _ w, w) Ex_kafka.config m
              (new_consumer, Ex_kafka.k0) Hi E Hk) as [Hm _].
  exact Hm.
Defined.

Lemma StoreOffset_result_witness :
  (consumer_StoreOffset "orders" 0 4 (mkConsumer true true false 0, Ex_kafka.k0)).1 = None.
Proof.
  pose proof (@StoreOffset_result _ Ex_kafka.codes Ex_config.config Ex_kafka.client "orders" 0 4
                (mkConsumer true true false 0, Ex_kafka.k0) ltac:(lia) ltac:(intros e [?|?]; done)) as Hr.
  destruct (consumer_StoreOffset "orders" 0 4 _) as [err s']. cbn in Hr.
  destruct Hr as (_ & Hn & _). by apply Hn.
Defined.

Lemma broker_log_alternates_witness :
  let '(_, (c', ls)) := st_iter log_event [Some (KError (-195) false "down"); Some (KError (-195) false "down");
                                           Some (KMessage (Ex_kafka.record_ 1))]
                          (mkConsumer true true false 0, []) in
  ∃ n, transport_lines ls = alternating n true ∧ brokerConnected c' = Nat.even n.
Proof.
  exact (broker_log_alternates
           [Some (KError (-195) false "down"); Some (KError (-195) false "down");
            Some (KMessage (Ex_kafka.record_ 1))] (mkConsumer true true false 0) eq_refl).
Defined.
