(* ===== verification/OffsetSafety.v ===== *)
(** * What reaches the group coordinator

    The Kafka client keeps a store of offsets and commits it: after each message,
    in the background, at a revocation, at shutdown.  A class states what the
    consumer promises the subscriber about it: only [StoreOffset] puts an offset
    there.  Against that interface every offset the client ever holds or commits
    is one the subscriber stored, so, by the at-least-once theorem, one whose
    records are resolved; and the driver keeps the promise, because it turns
    librdkafka's own offset store off. *)
From S2P Require Import Prelude GoErrors GoTime GoAny LogCode Types Buffer ConsumerApi SubscribeOptions.
From S2P Require Import Subscriber Walk AtLeastOnce Accounts Kfk ConsumerDriver.

(** ** The interface *)

Section interface.
Context {W : Type}.
(** Offsets: [offsets w tp o] when the client holds offset [o] of partition [tp]
    in its store, or has committed it. *)
Context (offsets : W → string * Z → Z → Prop) (inv : W → Prop).

(** A step that brings in no offset. *)
Definition quiet (w w' : W) : Prop :=
  inv w → inv w' ∧ ∀ tp o, offsets w' tp o → offsets w tp o.

Lemma quiet_refl w : quiet w w.
Proof. by intros ?. Qed.
Lemma quiet_trans w1 w2 w3 : quiet w1 w2 → quiet w2 w3 → quiet w1 w3.
Proof. intros H1 H2 Hi. destruct (H1 Hi) as [Hi' ?]. destruct (H2 Hi') as [? ?]. eauto. Qed.

(** The consumer's promise. *)
Class OffsetLaws (driver : Consumer W) : Prop := {
  quiet_Connect w : quiet w (Connect driver w).2;
  quiet_Subscribe w : quiet w (SubscribeToTopic driver w).2;
  quiet_Poll t w : quiet w (Poll driver t w).2;
  quiet_Commit w : quiet w (CommitStored driver w).2;
  quiet_MaybeCommit w : quiet w (MaybeCommitStored driver w).2;
  quiet_SetOnRevoke w : quiet w (SetOnRevoke driver w);
  quiet_Close w : quiet w (Close driver w).2;
  StoreOffset_stores t p o w : inv w →
    inv (StoreOffset driver t p o w).2 ∧
    ∀ tp x, offsets (StoreOffset driver t p o w).2 tp x →
      offsets w tp x ∨ tp = (t, p) ∧ x = wrap64 (o + 1);
}.

(** The application leaves the client's offsets alone: the clock, the context,
    the handlers and the strategy. *)
Record application_quiet (env : Env W) (cfg : Config (W:=W)) : Prop := {
  by_done w : quiet w (ctx_Done env w).2;
  by_now w : quiet w (time_Now env w).2;
  by_handler h m p w : cfg_Handler cfg = Some h → quiet w (h m p w).2;
  by_batch h b w : cfg_BatchHandler cfg = Some h → quiet w (h b w).2;
  by_strategy s ms f w : cfg_ErrorStrategy cfg = Some s → quiet w (es_HandleError s ms f w).2;
  by_init s i c ic w : cfg_ErrorStrategy cfg = Some s → es_Initializable s = Some (i, c) →
    quiet w (i ic w).2 ∧ quiet w (c w).2;
  by_logger s l lg w : cfg_ErrorStrategy cfg = Some s → es_LoggerAware s = Some l → quiet w (l lg w);
}.
(** The consumer the factory builds keeps its promise. *)
Definition factory_keeps (cfg : Config (W:=W)) : Prop :=
  ∀ n w, cfg_newConsumer cfg = Some n →
    quiet w (n (driverConfig cfg) w).2 ∧
    ∀ d, (n (driverConfig cfg) w).1 = inl d → OffsetLaws d.

(** ** The invariant of a run *)

(** The subscriber stored offset [x - 1] of partition [tp] in this trace. *)
Definition stored_in (tr : list event) (tp : string * Z) (x : Z) : Prop :=
  ∃ o err, EvStore tp.1 tp.2 o err ∈ tr ∧ x = wrap64 (o + 1).
(** Every offset the client holds was stored by the subscriber. *)
Definition accounted (tr : list event) (w : W) : Prop :=
  inv w ∧ ∀ tp x, offsets w tp x → stored_in tr tp x.

Lemma stored_in_app tr e tp x : stored_in tr tp x → stored_in (tr ++ [e]) tp x.
Proof. intros (o & err & Hin & ->). exists o, err. split; [|done]. apply elem_of_app. by left. Qed.
Lemma accounted_quiet w w' : quiet w w' → steady accounted w w'.
Proof. intros Hq tr [Hi Hs]. destruct (Hq Hi) as [Hi' Ho]. split; [done|]. eauto. Qed.
Lemma accounted_emit e tr w : accounted tr w → accounted (tr ++ [e]) w.
Proof. intros [Hi Hs]. split; [done|]. intros tp x Hx. by apply stored_in_app, Hs. Qed.

Lemma driver_accounted driver : OffsetLaws driver → driver_steady accounted driver.
Proof.
  intros Hd. constructor; try (intros; apply accounted_quiet, Hd).
  intros t p o w tr [Hi Hs]. destruct (StoreOffset_stores t p o w Hi) as [Hi' Ho]. split; [done|].
  intros tp x [Hx|[-> ->]]%Ho; [by apply stored_in_app, Hs|].
  eexists _, _. split; [|done]. apply elem_of_app. right. by apply list_elem_of_singleton.
Qed.
Lemma application_accounted env cfg : application_quiet env cfg → application_steady accounted env cfg.
Proof.
  intros []. destruct (handlers_steady accounted cfg) as (He & Hh & Hb);
    [intros e tr w _; apply accounted_emit|intros; by eauto using accounted_quiet..|].
  constructor; try done; try (intros; by eauto using accounted_quiet).
  - intros s ms f w tr Hs Htr. apply accounted_emit. by eapply accounted_quiet; [apply by_strategy0|].
  - intros s i c Hs Hi. split; [intros ic w|intros w]; apply accounted_quiet.
    + by apply (by_init0 s i c).
    + by apply (by_init0 s i c {| ic_Brokers := []; ic_ConsumerGroup := EmptyString; ic_KafkaConfig := ∅; ic_Logger := Nop |}).
Qed.
Lemma factory_accounted cfg : factory_keeps cfg → factory_steady accounted cfg.
Proof.
  intros Hf n w Hn. destruct (Hf n w Hn) as [Hq Hd]. split; [by apply accounted_quiet|].
  intros d Ed. by apply driver_accounted, Hd.
Qed.
End interface.

Lemma offsets_accounted {W} `{GoRangeLaws} (offsets : W → string * Z → Z → Prop)
    (inv : W → Prop) (env : Env W) (cfg : Config (W:=W)) fuel w t p x :
  application_quiet offsets inv env cfg → factory_keeps offsets inv cfg →
  inv w → (∀ tp o, ¬ offsets w tp o) →
  offsets (st_world (Start env cfg fuel (created w)).2) (t, p) x →
  ∃ o err pre suf,
    x = wrap64 (o + 1) ∧
    st_trace (Start env cfg fuel (created w)).2 = pre ++ EvStore t p o err :: suf ∧
    (0 < delivered (t, p, o) pre)%nat ∧
    ∀ off, off ≤ o → resolved (t, p, off) pre = delivered (t, p, off) pre.
Proof.
  intros Hby Hfac Hi Hnone Hx.
  destruct (pres_Start (accounted offsets inv) env cfg (application_accounted _ _ _ _ Hby) fuel
              (factory_accounted _ _ _ Hfac) (created w)) as [_ Hacc].
  { split; [done|]. intros tp o Ho. by destruct (Hnone tp o). }
  destruct (Hacc (t, p) x Hx) as (o & err & Hin & ->).
  apply list_elem_of_split in Hin as (pre & suf & Htr). exists o, err, pre, suf.
  split; [done|]. split; [done|]. by eapply store_is_resolved.
Qed.

(** ** Properties *)

(** Every offset the Kafka client ever holds in its store
    or commits, at any point of any run, is accounted for: it is one past an
    offset the subscriber stored, the record at that offset was delivered, and
    every record of the partition at or below it had been resolved, by a handler's
    success or by the strategy, as often as it had been delivered since the last
    revocation.  So a restart from the committed offsets replays every record
    whose processing was not finished.  The clock, the context, the handlers and
    the strategy are only required to leave the client's offsets alone. *)
Theorem committed_offsets_resolved {W} `{GoRangeLaws} (offsets : W → string * Z → Z → Prop)
    (inv : W → Prop) (env : Env W) (cfg : Config (W:=W)) fuel w t p x :
  application_quiet offsets inv env cfg → factory_keeps offsets inv cfg →
  inv w → (∀ tp o, ¬ offsets w tp o) →
  offsets (st_world (Start env cfg fuel (created w)).2) (t, p) x →
  ∃ o err pre suf,
    x = wrap64 (o + 1) ∧
    st_trace (Start env cfg fuel (created w)).2 = pre ++ EvStore t p o err :: suf ∧
    (0 < delivered (t, p, o) pre)%nat ∧
    ∀ off, off ≤ o → resolved (t, p, off) pre = delivered (t, p, off) pre.
Proof. apply offsets_accounted. Qed.

(** ** The driver keeps the promise *)

(** What librdkafka documents of its offset store: StoreOffsets stores the offset
    it is given; Commit and the background committer commit what is stored; and
    with [enable.auto.offset.store] off, nothing else stores an offset, Poll in
    particular. *)
Class KfkOffsetLaws {W} `{KfkConsumer W} `{!KfkConfigLaws} (log : log_line → W → W)
    (offsets : W → string * Z → Z → Prop) := {
  (** the client stores the offset of every record it delivers *)
  auto_store : W → Prop;
  law_NewConsumer m w :
    config_get m "enable.auto.offset.store" = Some (ABool false) →
    (kfk_NewConsumer m w).1 = None → ¬ auto_store (kfk_NewConsumer m w).2;
  law_NewConsumer_offsets m w tp o : offsets (kfk_NewConsumer m w).2 tp o → offsets w tp o;
  law_Subscribe ts w : quiet offsets (λ w, ¬ auto_store w) w (kfk_SubscribeTopics ts w).2;
  law_Poll_rebalances t w : quiet offsets (λ w, ¬ auto_store w) w (kfk_Poll_rebalances t w).2;
  law_Poll_event w : quiet offsets (λ w, ¬ auto_store w) w (kfk_Poll_event w).2;
  law_Assign tps w : quiet offsets (λ w, ¬ auto_store w) w (kfk_Assign tps w).2;
  law_Unassign w : quiet offsets (λ w, ¬ auto_store w) w (kfk_Unassign w).2;
  law_Commit w : quiet offsets (λ w, ¬ auto_store w) w (kfk_Commit w).2;
  law_Close_rebalances w : quiet offsets (λ w, ¬ auto_store w) w (kfk_Close_rebalances w).2;
  law_Close w : quiet offsets (λ w, ¬ auto_store w) w (kfk_Close w).2;
  law_log l w : quiet offsets (λ w, ¬ auto_store w) w (log l w);
  law_StoreOffsets t p o w : ¬ auto_store w →
    ¬ auto_store (kfk_StoreOffsets t p o w).2 ∧
    ∀ tp x, offsets (kfk_StoreOffsets t p o w).2 tp x → offsets w tp x ∨ tp = (t, p) ∧ x = o;
}.

Section driver_laws.
Context {W : Type} `{KfkCodes} `{KfkConsumer W} `{!KfkConfigLaws} `{GoRangeLaws}.
Context (log : log_line → W → W) (offsets : W → string * Z → Z → Prop).
Context `{!KfkOffsetLaws log offsets}.

Definition driver_offsets (s : DW (W:=W)) : string * Z → Z → Prop := offsets s.2.
(** While the consumer is connected, its client does not store by itself. *)
Definition driver_inv (s : DW (W:=W)) : Prop := kafkaConsumer s.1 = true → ¬ auto_store s.2.
Abbreviation dquiet := (quiet driver_offsets driver_inv).

Definition calm {A} (c : ST (DW (W:=W)) A) : Prop := ∀ s, dquiet s (c s).2.
(** On a connected consumer only. *)
Definition calm_on {A} (c : ST (DW (W:=W)) A) : Prop :=
  ∀ s, kafkaConsumer s.1 = true → kafkaConsumer (c s).2.1 = true ∧ dquiet s (c s).2.

Lemma on_ret {A} (x : A) : calm_on (mret x).
Proof. intros s Hs. split; [done|apply quiet_refl]. Qed.
Lemma on_bind {A B} (c : ST DW A) (f : A → ST DW B) : calm_on c → (∀ x, calm_on (f x)) → calm_on (c ≫= f).
Proof.
  intros Hc Hf s Hs. unfold mbind, ST_bind. specialize (Hc s Hs). destruct (c s) as [x s'].
  destruct Hc as [Hs' Hq]. destruct (Hf x s' Hs') as [Hs'' Hq']. split; [done|]. by eapply quiet_trans.
Qed.
Lemma on_gets {A} (f : DW → A) : calm_on (gets f).
Proof. intros s Hs. split; [done|apply quiet_refl]. Qed.
Lemma on_set f : (∀ c, kafkaConsumer (f c) = kafkaConsumer c) → calm_on (set_consumer (W:=W) f).
Proof.
  intros Hf s Hs. split; [simpl; by rewrite Hf|]. intros Hi. split; [|done].
  intros _. by apply Hi.
Qed.
Lemma on_client {A} (f : W → A * W) :
  (∀ w, quiet offsets (λ w, ¬ auto_store w) w (f w).2) → calm_on (client f).
Proof.
  intros Hf [c w] Hs. unfold client. cbn [fst snd]. specialize (Hf w). destruct (f w) as [x w']. simpl in *.
  split; [done|]. intros Hi. destruct (Hf (Hi Hs)) as [Hi' Ho]. split; [by intros _|done].
Qed.
Lemma on_logs l c : calm_on (logs log l c).
Proof. intros [st w] Hs. split; [done|]. intros Hi. destruct (law_log (LogLine l c) w (Hi Hs)). split; [by intros _|done]. Qed.
Hint Resolve on_ret on_gets on_logs : core.

Ltac on_step :=
  repeat (simpl; intros; first
    [ assumption | solve [auto] | apply on_bind | apply on_set
    | match goal with |- calm_on (match ?x with _ => _ end) => destruct x eqn:? end
    | apply on_client ]).

Lemma on_CommitStored : calm_on (consumer_CommitStored log).
Proof. unfold consumer_CommitStored. on_step. apply law_Commit. Qed.
Hint Resolve on_CommitStored : core.
Lemma on_rebalance ev : calm_on (rebalanceCallback log ev).
Proof.
  unfold rebalanceCallback, run_onRevoke. on_step; first [apply law_Assign | apply law_Unassign].
Qed.
Hint Resolve on_rebalance : core.
Lemma on_serve evs : calm_on (serve_rebalances log evs).
Proof. unfold serve_rebalances. induction evs as [|ev evs IH]; on_step. Qed.
Hint Resolve on_serve : core.
Lemma on_translate ev : calm_on (translate log ev).
Proof. unfold translate, set_connected. on_step. Qed.
Hint Resolve on_translate : core.

(** An operation that does nothing when not connected. *)
Lemma calm_guarded {A} (c : consumer_state → ST DW A) (d : ST DW A) :
  (∀ x, calm_on (c x)) → (∀ s, (d s).2 = s) →
  calm (c' ← gets fst; if kafkaConsumer c' then c c' else d).
Proof.
  intros Hc Hd s. unfold mbind, ST_bind, gets. destruct (kafkaConsumer s.1) eqn:E.
  - by apply Hc.
  - rewrite Hd. apply quiet_refl.
Qed.

Lemma calm_CommitStored : calm (consumer_CommitStored log).
Proof. unfold consumer_CommitStored. apply (calm_guarded (λ _, _)); [|done]. on_step. apply law_Commit. Qed.

Lemma driver_laws config m :
  config_get m "enable.auto.offset.store" = Some (ABool false) →
  OffsetLaws driver_offsets driver_inv (consumer log config m).
Proof.
  intros Hm. constructor; simpl.
  - intros [c w]. unfold consumer_Connect, mbind, ST_bind, gets, client. cbn [fst snd].
    destruct (kafkaConsumer c) eqn:Ec; [apply quiet_refl|]. cbn [fst snd].
    pose proof (law_NewConsumer m w Hm) as Hn. pose proof (law_NewConsumer_offsets m w) as Ho.
    destruct (kfk_NewConsumer m w) as [[e|] w']; simpl in *.
    + intros _. split; [|done]. unfold driver_inv. simpl. congruence.
    + intros _. destruct (law_log (LogLine Info_ None) w' (Hn eq_refl)) as [Hi Hl].
      split; [by intros _|]. intros tp o Ho'. by apply Ho, Hl.
  - apply (calm_guarded (λ _, _)); [|done]. on_step. apply law_Subscribe.
  - intros t. apply calm_guarded; [|done].
    intros x. on_step; first [apply law_Poll_rebalances | apply law_Poll_event].
  - apply calm_CommitStored.
  - intros s. unfold consumer_MaybeCommitStored. destruct (autoCommit config); [apply quiet_refl|].
    apply calm_CommitStored.
  - intros s. intros Hi. split; [|done]. exact Hi.
  - intros s. unfold consumer_Close, mbind, ST_bind, gets.
    destruct (kafkaConsumer s.1) eqn:E; [|apply quiet_refl].
    assert (calm_on (client kfk_Close_rebalances ≫= (λ ev, serve_rebalances log ev ;; client kfk_Close))) as Hc.
    { on_step; first [apply law_Close_rebalances | apply law_Close]. }
    destruct (Hc s E) as [Hs Hq]. unfold mbind, ST_bind in Hs, Hq.
    destruct (client kfk_Close_rebalances s) as [evs s1]. destruct (serve_rebalances log evs s1) as [[] s2].
    destruct (client kfk_Close s2) as [err s3]. simpl in *. destruct s3 as [c3 w3]. simpl in *.
    intros Hi. destruct (Hq Hi) as [Hi3 Ho3].
    destruct err as [e|]; simpl.
    + split; [by intros ?|done].
    + destruct (law_log (LogLine Info_ None) w3 (Hi3 Hs)) as [Hi4 Ho4]. split; [by intros ?|].
      intros tp o Ho. by apply Ho3, Ho4.
  - intros t p o [c w] Hi. unfold consumer_StoreOffset, mbind, ST_bind, gets, client. cbn [fst snd].
    destruct (kafkaConsumer c) eqn:E; [|split; [done|by left]]. cbn [fst snd].
    destruct (law_StoreOffsets t p (wrap64 (o + 1)) w (Hi E)) as [Hi' Ho].
    destruct (kfk_StoreOffsets t p (wrap64 (o + 1)) w) as [[entry call] w']. simpl in *.
    destruct entry as [e|]; [|destruct call as [e|]]; simpl; (split; [by intros _|done]).
Qed.
End driver_laws.

(** What the driver's [New] builds keeps the promise. *)
Lemma driver_New_keeps {W} `{KfkCodes} `{KfkConsumer W} `{!KfkConfigLaws} `{GoRangeLaws}
    (log : log_line → W → W) (offsets : W → string * Z → Z → Prop) `{!KfkOffsetLaws log offsets}
    (dc : DriverConfig) (s : DW (W:=W)) :
  dc_KafkaConfig dc !! "enable.auto.offset.store" = None →
  quiet (driver_offsets offsets) (driver_inv log offsets) s (driver_New log dc s).2 ∧
  ∀ d, (driver_New log dc s).1 = inl d → OffsetLaws (driver_offsets offsets) (driver_inv log offsets) d.
Proof.
  intros Hdc. unfold driver_New.
  assert (quiet (driver_offsets offsets) (driver_inv log offsets) s (new_consumer, s.2)) as Hq by done.
  pose proof (quiet_refl (driver_offsets offsets) (driver_inv log offsets) s) as Hr.
  destruct (dc_Brokers _); [by split|]. destruct (String.eqb _ _); [by split|].
  destruct (String.eqb _ _); [by split|].
  destruct (build_config dc) as [m|e] eqn:Hb; [|by split].
  split; [exact Hq|]. intros d [= <-]. apply driver_laws.
  rewrite (build_config_get dc m) by done. by rewrite Hdc.
Qed.
(** [New] of the subscribe package accepts no offset store of the caller's. *)
Lemma accepted_offset_store {W} (cfg : Config (W:=W)) : accepted cfg →
  dc_KafkaConfig (driverConfig cfg) !! "enable.auto.offset.store" = None.
Proof.
  intros Hacc. destruct (acc_kafka _ Hacc) as (km & Hkm & Hun). unfold driverConfig. cbn [dc_KafkaConfig].
  rewrite Hkm. cbn [from_option id].
  destruct (km !! "enable.auto.offset.store") eqn:E; [|done].
  by specialize (Hun "enable.auto.offset.store" ltac:(eauto)).
Qed.
Lemma driver_factory_keeps {W} `{KfkCodes} `{KfkConsumer W} `{!KfkConfigLaws} `{GoRangeLaws}
    (log : log_line → W → W) (offsets : W → string * Z → Z → Prop) `{!KfkOffsetLaws log offsets}
    (cfg : Config (W:=DW (W:=W))) :
  accepted cfg → cfg_newConsumer cfg = Some (driver_New log) →
  factory_keeps (driver_offsets offsets) (driver_inv log offsets) cfg.
Proof.
  intros Hacc Hnew n s Hn. rewrite Hnew in Hn. injection Hn as <-.
  by apply driver_New_keeps, accepted_offset_store.
Qed.

(** C2 (end to end) The whole consuming side, from [New] of the subscribe package
    down to librdkafka: for a configuration [New] accepts and the library's own
    driver, every offset librdkafka holds in its store or commits for the group,
    at any point of any run and however the broker behaves, is one past a record
    that was delivered, and every record of its partition at or below it had been
    resolved as often as it had been delivered since the last revocation.  Of
    librdkafka only its documented offset store is used, which needs
    [enable.auto.offset.store] off: the driver's configuration sees to that. *)
Theorem driver_commits_resolved {W} `{KfkCodes} `{KfkConsumer W} `{!KfkConfigLaws} `{GoRangeLaws}
    (log : log_line → W → W) (offsets : W → string * Z → Z → Prop) `{!KfkOffsetLaws log offsets}
    (env : Env (DW (W:=W))) (cfg : Config (W:=DW (W:=W))) fuel w t p x :
  accepted cfg → cfg_newConsumer cfg = Some (driver_New log) →
  application_quiet (driver_offsets offsets) (driver_inv log offsets) env cfg →
  (∀ tp o, ¬ offsets w tp o) →
  offsets (st_world (Start env cfg fuel (created (new_consumer, w))).2).2 (t, p) x →
  ∃ o err pre suf,
    x = wrap64 (o + 1) ∧
    st_trace (Start env cfg fuel (created (new_consumer, w))).2 = pre ++ EvStore t p o err :: suf ∧
    (0 < delivered (t, p, o) pre)%nat ∧
    ∀ off, off ≤ o → resolved (t, p, off) pre = delivered (t, p, off) pre.
Proof.
  intros Hacc Hnew Happ Hnone Hx.
  refine (offsets_accounted (driver_offsets offsets) (driver_inv log offsets) env cfg fuel _ t p x
            Happ _ _ _ Hx); [by apply driver_factory_keeps|done|done].
Qed.

(** ** Witnesses: the concrete client of the driver keeps the laws, and a run on it *)

Module Ex_offsets.
Import Ex_kafka.
Definition offsets (w : kafka) (tp : string * Z) (o : Z) : Prop :=
  k_stored w !! tp = Some o ∨ k_committed w !! tp = Some o.
Definition nolog (l : log_line) (w : kafka) : kafka := w.

Lemma commit_quiet w : quiet offsets (λ w, ¬ k_auto w = true) w (commit w).
Proof.
  intros Hi. split; [done|]. intros tp o [Ho|Ho]; [by left|]. simpl in Ho.
  apply lookup_union_Some_raw in Ho as [Ho|[_ Ho]]; [by left|by right].
Qed.
Lemma poll_quiet (w : kafka) : quiet offsets (λ w, ¬ k_auto w = true) w (kfk_Poll_event w).2.
Proof.
  intros Hi. simpl. destruct (k_script w) as [|[r ev] s]; [done|]. simpl. split; [done|].
  intros tp o [Ho|Ho]; [|by right]. left. simpl in Ho.
  destruct (k_auto w); [by destruct Hi|]. by destruct ev as [[]|].
Qed.
#[export] Instance laws : KfkOffsetLaws nolog offsets.
Proof.
  refine (@Build_KfkOffsetLaws kafka config_ client config_laws nolog offsets (λ w, k_auto w = true) _ _ _ _ _ _ _ _ _ _ _ _).
  - intros m w Hm _. simpl in *. unfold auto_of. by rewrite Hm.
  - done.
  - intros ts w. apply quiet_refl.
  - intros t w. apply quiet_refl.
  - apply poll_quiet.
  - intros tps w. apply quiet_refl.
  - intros w. apply quiet_refl.
  - apply commit_quiet.
  - intros w. apply quiet_refl.
  - apply commit_quiet.
  - intros l w. apply quiet_refl.
  - intros t p o w Hi. split; [done|]. intros tp x [Hx|Hx]; [|by left; right]. simpl in Hx.
    destruct (decide (tp = (t, p))) as [->|Hne].
    + rewrite lookup_insert_eq in Hx. injection Hx as <-. by right.
    + rewrite lookup_insert_ne in Hx by done. left. by left.
Defined.

(** A subscriber on that client: single messages, handled without failure. *)
Definition env : Env (DW (W:=kafka)) :=
  {| ctx_Done := λ s, match k_ticks s.2 with
                      | O => (true, s)
                      | S n => (false, (s.1, mkKafka (k_script s.2) (k_stored s.2) (k_committed s.2) (k_auto s.2) n))
                      end;
     time_Now := λ s, (zero_Time, s) |}.
Definition skip : ErrorStrategy (DW (W:=kafka)) :=
  {| es_Name := "skip"; es_HandleError := λ _ _ s, (None, s); es_Initializable := None; es_LoggerAware := None |}.
Definition handler : Handler (DW (W:=kafka)) :=
  λ _ _ s, ({| hc_outcome := Returned None; hc_writes := None |}, s).
Definition cfg : Config (W:=DW (W:=kafka)) :=
  mkConfig "orders" ["broker:9092"] "billing" (Some handler) None ModeSingleMessage 0 0
    (100 * Millisecond) 0 (Some skip) (Some ∅)
    (Some (@driver_New kafka codes config_ client range_canonical nolog)) Nop.

Lemma cfg_accepted : accepted cfg.
Proof.
  constructor; simpl; try done; try (by eexists); unfold Millisecond; try lia.
  - split; [done|]. by intros ?%list_elem_of_singleton.
  - left. by split_and!.
  - exists ∅. split; [done|]. intros k. rewrite lookup_empty. by intros [].
Qed.
Lemma app_quiet : application_quiet (driver_offsets offsets) (driver_inv nolog offsets) env cfg.
Proof.
  constructor; simpl; try done.
  - intros [c w]. simpl. by destruct (k_ticks w).
  - by intros h m p w [= <-].
  - by intros s ms f w [= <-].
  - by intros s i c ic w [= <-].
  - by intros s l lg w [= <-].
Qed.
Lemma k0_empty : ∀ tp o, ¬ offsets k0 tp o.
Proof. intros tp o [Ho|Ho]; cbn [k0 k_stored k_committed] in Ho; by rewrite lookup_empty in Ho. Qed.
(** After the run, the group's committed offset is 5: record 4 was handled. *)
Definition final : kafka := (st_world (@Start _ range_canonical env cfg 6 (created (new_consumer, k0))).2).2.
Lemma final_committed : bool_decide (k_committed final !! ("orders", 0) = Some 5) = true.
Proof. by vm_compute. Qed.
End Ex_offsets.
#[local] Existing Instances Ex_kafka.codes Ex_kafka.config_ Ex_kafka.client Ex_kafka.config_laws Ex_offsets.laws.

Lemma driver_commits_resolved_witness :
  ∃ o err pre suf, 5 = wrap64 (o + 1) ∧
    st_trace (@Start _ range_canonical Ex_offsets.env Ex_offsets.cfg 6
                (created (new_consumer, Ex_kafka.k0))).2 = pre ++ EvStore "orders" 0 o err :: suf ∧
    (0 < delivered ("orders", 0%Z, o) pre)%nat ∧
    ∀ off, off ≤ o → resolved ("orders", 0%Z, off) pre = delivered ("orders", 0%Z, off) pre.
Proof.
  apply (@driver_commits_resolved Ex_kafka.kafka Ex_kafka.codes Ex_config.config Ex_kafka.client Ex_config.laws
           range_canonical range_canonical_laws Ex_offsets.nolog Ex_offsets.offsets Ex_offsets.laws
           Ex_offsets.env Ex_offsets.cfg 6 Ex_kafka.k0 "orders" 0 5).
  - exact Ex_offsets.cfg_accepted.
  - reflexivity.
  - exact Ex_offsets.app_quiet.
  - exact Ex_offsets.k0_empty.
  - right. exact (bool_decide_eq_true_1 _ Ex_offsets.final_committed).
Defined.

(** The same through the interface. *)
Lemma committed_offsets_resolved_witness :
  ∃ o err pre suf, 5 = wrap64 (o + 1) ∧
    st_trace (@Start _ range_canonical Ex_offsets.env Ex_offsets.cfg 6
                (created (new_consumer, Ex_kafka.k0))).2 = pre ++ EvStore "orders" 0 o err :: suf ∧
    (0 < delivered ("orders", 0%Z, o) pre)%nat ∧
    ∀ off, off ≤ o → resolved ("orders", 0%Z, off) pre = delivered ("orders", 0%Z, off) pre.
Proof.
  apply (@committed_offsets_resolved _ range_canonical range_canonical_laws
           (driver_offsets Ex_offsets.offsets) (driver_inv Ex_offsets.nolog Ex_offsets.offsets)
           Ex_offsets.env Ex_offsets.cfg 6 (new_consumer, Ex_kafka.k0) "orders" 0 5).
  - exact Ex_offsets.app_quiet.
  - apply (@driver_factory_keeps _ Ex_kafka.codes Ex_config.config Ex_kafka.client Ex_config.laws range_canonical
             range_canonical_laws _ _ Ex_offsets.laws _ Ex_offsets.cfg_accepted).
    reflexivity.
  - done.
  - exact Ex_offsets.k0_empty.
  - right. exact (bool_decide_eq_true_1 _ Ex_offsets.final_committed).
Defined.
