(* ===== verification/PubDriver.v ===== *)
(** * The producer driver's values (internal/publish/publishdriver)

    Records, reports and client events, the translation of librdkafka's errors,
    the keys the publisher manages, and the configuration a producer is built
    with (errors.go, event.go, managed_keys.go, config.go, and the Producer
    interface and the metadata request of producer.go). *)
From S2P Require Import Prelude GoStrings GoErrors GoTime GoAny Kfk.

(** ** Sentinels *)
Definition ErrClosed : goerr := ENew "publishdriver.ErrClosed" "publish: publisher is closed".
Definition ErrQueueFull : goerr :=
  ENew "publishdriver.ErrQueueFull" "publish: local producer queue is full".
Definition ErrDeliveryTimeout : goerr :=
  ENew "publishdriver.ErrDeliveryTimeout" "publish: not acknowledged within the delivery timeout".
Definition ErrNotDelivered : goerr :=
  ENew "publishdriver.ErrNotDelivered" "publish: purged before delivery was confirmed".
Definition ErrFatal : goerr := ENew "publishdriver.ErrFatal" "publish: producer failed fatally".

(** ** Records and events *)

(** [Header], a key and a value. *)
Record Header : Type := mkHeader { h_Key : string; h_Value : bytes }.
(** [Record].  A nil value is a tombstone. *)
Record Record_ : Type := mkRecord {
  r_Topic : string; r_Key : bytes; r_Value : bytes; r_Headers : list Header;
}.

(** [KafkaError]; as an [error] it is [EKafka]. *)
Record KafkaError : Type := mkKafkaError {
  ke_Code : string;
  ke_Message : string;
  ke_Sentinel : option goerr;
  ke_Fatal : bool;
  ke_Disconnected : bool;
}.
Definition kafka_err (e : KafkaError) : goerr :=
  EKafka (ke_Code e) (ke_Message e) (ke_Sentinel e) (ke_Fatal e) (ke_Disconnected e).

(** [Event]: a [Report], whose token [any] is a value of [T] when the record came
    from a publisher, or a [ClientError]. *)
Record Report (T : Type) : Type := mkReport {
  rep_Token : T; rep_Partition : Z; rep_Offset : Z; rep_Err : option KafkaError;
}.
Arguments mkReport {T}. Arguments rep_Token {T}. Arguments rep_Partition {T}.
Arguments rep_Offset {T}. Arguments rep_Err {T}.
Inductive Event (T : Type) : Type :=
  | EReport (r : Report T)
  | EClientError (e : KafkaError).
Arguments EReport {T}. Arguments EClientError {T}.

(** confluent-kafka-go's producer events: a [*kfk.Message] by its opaque value,
    partition, offset and partition error, a [kfk.Error], or another event. *)
Inductive kfk_ProducerEvent (T : Type) : Type :=
  | PMessage (opaque : T) (partition offset : Z) (err : option goerr)
  | PError (code : Z) (fatal : bool) (text : string)
  | POther.
Arguments PMessage {T}. Arguments PError {T}. Arguments POther {T}.

(** [DescribeTopics] answers each topic with its name, its number of partitions
    and its error ([kfk.Error]: code, fatal, text). *)
Abbreviation topic_description := (string * nat * (Z * bool * string))%type.

(** ** Translation *)

Section translation.
Context `{KfkCodes}.

Definition TranslateError (err : goerr) : KafkaError :=
  match as_kfk err with
  | None => mkKafkaError EmptyString (error_text err) None false false
  | Some (code, isFatal, text) =>
      let fatal := isFatal || (code =? ErrFatalCode) in
      let sentinel :=
        if code =? ErrMsgTimedOut then Some ErrDeliveryTimeout
        else if (code =? ErrPurgeQueue) || (code =? ErrPurgeInflight) then Some ErrNotDelivered
        else if code =? ErrQueueFullCode then Some ErrQueueFull
        else if fatal then Some ErrFatal
        else None in
      mkKafkaError (code_String code) text sentinel fatal
        ((code =? ErrAllBrokersDown) || (code =? ErrTransport))
  end.

Definition TranslateEvent {T} (event : kfk_ProducerEvent T) : option (Event T) :=
  match event with
  | PMessage opaque partition offset err =>
      Some (EReport (mkReport opaque partition offset (TranslateError <$> err)))
  | PError code fatal text => Some (EClientError (TranslateError (EKfk code fatal text)))
  | POther => None
  end.
(** The goroutine [translate]: what arrives on [reports]. *)
Definition translate_events {T} (events : list (kfk_ProducerEvent T)) : list (Event T) :=
  omap TranslateEvent events.

(** [describeError]. *)
Definition describeError (err : goerr) : goerr :=
  if errors_Is (Some err) DeadlineExceeded || errors_Is (Some err) Canceled then err
  else kafka_err (TranslateError err).

(** *** TopicPartitions *)
Fixpoint description_failures (ds : list topic_description) : list (option goerr) :=
  match ds with
  | [] => []
  | (name, _, (code, fatal, text)) :: ds =>
      if (code =? ErrNoError) || (code =? ErrUnknownTopicOrPart) then description_failures ds
      else Some (wrapf ("topic " +:+ Quote name)
                       (kafka_err (TranslateError (EKfk code fatal text)))) ::
           description_failures ds
  end.
(** The partition counts, in answer order: a later answer for a name wins. *)
Definition partition_counts (ds : list topic_description) : gmap string Z :=
  foldl (λ m d, let '(name, partitions, (code, _, _)) := d in
                if code =? ErrNoError then <[name := Z.of_nat partitions]> m else m) ∅ ds.
Definition TopicPartitions (closed : bool) (topics : list string)
    (DescribeCluster : option goerr) (DescribeTopics : list topic_description + goerr) :
    gmap string Z + goerr :=
  if closed then inr ErrClosed
  else if (length topics =? 0)%nat then
    match DescribeCluster with
    | Some err => inr (wrapf "describing the cluster" (describeError err))
    | None => inl ∅
    end
  else
    match DescribeTopics with
    | inr err => inr (wrapf "describing topics" (describeError err))
    | inl ds =>
        match errors_Join (description_failures ds) with
        | Some err => inr err
        | None => inl (partition_counts ds)
        end
    end.
End translation.

(** ** Managed keys (managed_keys.go) *)

Definition managedKafkaKeys : list (string * string) :=
  [("bootstrap.servers", "managed by WithBrokers");
   ("acks", "managed by WithAcksLeader; the default is acks=all");
   ("request.required.acks",
      "managed by WithAcksLeader; the default is acks=all (request.required.acks is another name for acks)");
   ("enable.idempotence",
      "managed by the library: idempotence is on unless WithoutIdempotence or WithAcksLeader is used");
   ("enable.gapless.guarantee",
      "managed by the library and kept off: it turns a timed-out record into a fatal error");
   ("partitioner", "managed by WithPartitioner");
   ("message.timeout.ms", "managed by WithDeliveryTimeout");
   ("delivery.timeout.ms",
      "managed by WithDeliveryTimeout (delivery.timeout.ms is another name for message.timeout.ms)");
   ("transactional.id", "not supported: the publisher does not use transactions");
   ("default.topic.config",
      "not supported: it would bypass WithAcksLeader, WithPartitioner and WithDeliveryTimeout")].
Definition managedKafkaKeyPrefixes : list (string * string) :=
  [("go.",
      "managed by the library: confluent-kafka-go's own settings decide how delivery reports reach the publisher");
   ("{topic}.",
      "not supported: confluent-kafka-go moves it into default.topic.config, which would bypass WithAcksLeader, WithPartitioner and WithDeliveryTimeout; set the property without the prefix")].

(** [ManagedKeyReason]: the reason, if the key is managed. *)
Definition ManagedKeyReason (key : string) : option string :=
  match find (λ kr, String.eqb kr.1 key) managedKafkaKeys with
  | Some (_, reason) => Some reason
  | None => snd <$> find (λ pr, HasPrefix key pr.1) managedKafkaKeyPrefixes
  end.

(** ** The producer's configuration (config.go) *)

(** [Config]. *)
Record ProducerConfig : Type := mkProducerConfig {
  pc_Brokers : list string;
  pc_KafkaConfig : configmap;
  pc_AcksLeader : bool;
  pc_Idempotence : bool;
  pc_Partitioner : string;
  pc_DeliveryTimeout : Z;
}.

(** The settings the publisher always sets, after the caller's. *)
Definition managed_settings (config : ProducerConfig) : list (string * goany) :=
  [("bootstrap.servers", AString (Join (pc_Brokers config) ","));
   ("acks", AString (if pc_AcksLeader config then "1" else "all"));
   ("enable.idempotence", ABool (pc_Idempotence config));
   ("partitioner", AString (pc_Partitioner config));
   ("message.timeout.ms", AnInt (Milliseconds (pc_DeliveryTimeout config)));
   ("go.delivery.reports", ABool true);
   ("go.delivery.report.fields", AString "none")].

Section build.
Context `{KfkConfig} `{GoRange}.
Definition setting_key (key : string) : string := "setting kafka config key " +:+ Quote key.
(** [ConfigMap]. *)
Definition producer_ConfigMap (config : ProducerConfig) : ConfigMap + goerr :=
  set_keys setting_key (managed_settings config)
    (set_keys setting_key (go_range (pc_KafkaConfig config)) (inl empty_ConfigMap)).
End build.

(** ** Lemmas *)

(** A key the publisher takes from a caller is an ordinary one. *)
Lemma unmanaged_plain k : ManagedKeyReason k = None → plain_key k.
Proof.
  unfold ManagedKeyReason. intros Hk. split; [|by intros ->].
  destruct (find _ managedKafkaKeys) as [[]|]; [done|]. simpl in Hk.
  destruct (HasPrefix k "go."); [done|]. by destruct (HasPrefix k "{topic}.").
Qed.
Lemma unmanaged_not_setting config k : ManagedKeyReason k = None → k ∉ (managed_settings config).*1.
Proof.
  intros Hk Hin. rewrite list_elem_of_In in Hin. cbn in Hin.
  repeat (destruct Hin as [<-|Hin]; [by vm_compute in Hk|]). done.
Qed.
Lemma managed_settings_plain config k : k ∈ (managed_settings config).*1 → plain_key k.
Proof.
  intros Hin. rewrite list_elem_of_In in Hin. cbn in Hin.
  repeat (destruct Hin as [<-|Hin]; [by apply (bool_decide_unpack _); vm_compute|]). done.
Qed.
Lemma managed_settings_NoDup config : NoDup (managed_settings config).*1.
Proof. cbn. apply (bool_decide_unpack _). by vm_compute. Qed.

Section lookups.
Context `{KfkConfigLaws} `{GoRangeLaws}.

Lemma producer_get config m k : producer_ConfigMap config = inl m → plain_key k →
  config_get m k =
    match list_find (λ kv, kv.1 = k) (managed_settings config) with
    | Some (_, kv) => Some kv.2
    | None => pc_KafkaConfig config !! k
    end.
Proof.
  unfold producer_ConfigMap. intros Hm Hk.
  change (config_get m k) with (getk (inl m) k). rewrite <-Hm.
  assert (is_inl (set_keys setting_key (managed_settings config)
    (set_keys setting_key (go_range (pc_KafkaConfig config)) (inl empty_ConfigMap)))) as Hi by by rewrite Hm.
  rewrite getk_set_keys by (try done; apply managed_settings_NoDup).
  destruct (list_find _ _) as [[i kv]|]; [done|].
  apply set_keys_inl in Hi. rewrite getk_set_map by done.
  destruct (pc_KafkaConfig config !! k); [done|]. apply config_get_empty.
Qed.
Lemma producer_get_setting config m k v : producer_ConfigMap config = inl m →
  (k, v) ∈ managed_settings config → config_get m k = Some v.
Proof.
  intros Hm Hin. rewrite (producer_get config) by
    (try done; eapply managed_settings_plain, list_elem_of_fmap; by exists (k, v)).
  destruct (list_find _ _) as [[i [k' v']]|] eqn:Ef.
  - apply list_find_Some in Ef as (Ei & Ek & _). cbn [fst snd] in *. subst k'.
    apply list_elem_of_lookup_2 in Ei. pose proof (managed_settings_NoDup config) as Hnd.
    apply (elem_of_list_to_map_1 (M := gmap string)) in Ei; [|done].
    apply (elem_of_list_to_map_1 (M := gmap string)) in Hin; congruence.
  - apply list_find_None in Ef. rewrite Forall_forall in Ef. by destruct (Ef _ Hin).
Qed.
End lookups.

(** ** Properties *)

(** C22 (sentinels) An error from librdkafka means exactly the sentinel its code
    stands for: [errors.Is] finds ErrDeliveryTimeout for a timed-out record,
    ErrNotDelivered for a purged one, ErrQueueFull for a full queue, and ErrFatal
    for any other fatal error, and no other sentinel of the package.  A fatal flag
    on an error with one of the first four codes is kept in [Fatal], but such an
    error is not ErrFatal. *)
Theorem error_sentinels `{KfkCodesDistinct} err code fatal text :
  as_kfk err = Some (code, fatal, text) →
  let e := TranslateError err in
  let means := errors_Is (Some (kafka_err e)) in
  let own := (code =? ErrMsgTimedOut) || (code =? ErrPurgeQueue) || (code =? ErrPurgeInflight) ||
             (code =? ErrQueueFullCode) in
  means ErrDeliveryTimeout = (code =? ErrMsgTimedOut) ∧
  means ErrNotDelivered = (code =? ErrPurgeQueue) || (code =? ErrPurgeInflight) ∧
  means ErrQueueFull = (code =? ErrQueueFullCode) ∧
  ke_Fatal e = fatal || (code =? ErrFatalCode) ∧
  means ErrFatal = ke_Fatal e && negb own ∧
  means ErrClosed = false.
Proof.
  intros E e means own. subst e means own. unfold TranslateError. rewrite E.
  pose proof codes_distinct as Hd. rewrite !NoDup_cons, !not_elem_of_cons in Hd.
  assert (∀ a b, a ≠ b → (code =? a) = true → (code =? b) = false) as Hne.
  { intros a b Hab Ha%Z.eqb_eq. apply Z.eqb_neq. congruence. }
  destruct (code =? ErrMsgTimedOut) eqn:E1;
    [|destruct (code =? ErrPurgeQueue) eqn:E2;
      [|destruct (code =? ErrPurgeInflight) eqn:E3; [|destruct (code =? ErrQueueFullCode) eqn:E4]]];
    simpl; rewrite ?orb_true_r, ?andb_false_r, ?andb_true_r;
    try (destruct (fatal || _); done);
    (split_and!; try done; symmetry;
     first [apply orb_false_iff; split; eapply Hne; try done; intuition congruence
           |eapply Hne; try done; intuition congruence]).
Qed.

(** A producer that was configured always has the seven
    settings the publisher manages with the publisher's values, whatever the
    caller's map holds; every key of the caller the publisher does not manage has
    the caller's value, and any other key is left to librdkafka. *)
Theorem producer_config_managed `{KfkConfigLaws} `{GoRangeLaws} (config : ProducerConfig) (m : ConfigMap) :
  producer_ConfigMap config = inl m →
  config_get m "bootstrap.servers" = Some (AString (Join (pc_Brokers config) ",")) ∧
  config_get m "acks" = Some (AString (if pc_AcksLeader config then "1" else "all")) ∧
  config_get m "enable.idempotence" = Some (ABool (pc_Idempotence config)) ∧
  config_get m "partitioner" = Some (AString (pc_Partitioner config)) ∧
  config_get m "message.timeout.ms" = Some (AnInt (Milliseconds (pc_DeliveryTimeout config))) ∧
  config_get m "go.delivery.reports" = Some (ABool true) ∧
  config_get m "go.delivery.report.fields" = Some (AString "none") ∧
  (∀ k, ManagedKeyReason k = None → config_get m k = pc_KafkaConfig config !! k).
Proof.
  intros Hm. split_and!;
    try (by eapply producer_get_setting; [done|cbn; repeat first [by left|right]]).
  intros k Hk. rewrite (producer_get config) by (try done; by apply unmanaged_plain).
  destruct (list_find _ _) as [[i kv]|] eqn:Ef; [|done].
  apply list_find_Some in Ef as (Ei & <- & _). destruct (unmanaged_not_setting config _ Hk).
  apply list_elem_of_fmap. exists kv. split; [done|]. by eapply list_elem_of_lookup_2.
Qed.

Section topics.
Context `{KfkCodes}.
Definition description_ok (d : topic_description) : bool :=
  (d.2.1.1 =? ErrNoError) || (d.2.1.1 =? ErrUnknownTopicOrPart).

Lemma description_failures_nil ds :
  errors_Join (description_failures ds) = None ↔ forallb description_ok ds = true.
Proof.
  rewrite errors_Join_None. induction ds as [|[[name n] [[code fatal] text]] ds IH]; simpl.
  { by split; [|constructor]. }
  unfold description_ok at 1. cbn [fst snd]. destruct (_ || _); simpl; [done|].
  split; [|done]. by inversion 1.
Qed.
Lemma partition_counts_lookup ds name : NoDup (ds.*1.*1) → ∀ m : gmap string Z,
  (foldl (λ m d, let '(name, partitions, (code, _, _)) := d in
            if code =? ErrNoError then <[name := Z.of_nat partitions]> m else m) m ds) !! name =
  match list_find (λ d : topic_description, d.1.1 = name) ds with
  | Some (_, (_, partitions, (code, _, _))) =>
      if code =? ErrNoError then Some (Z.of_nat partitions) else m !! name
  | None => m !! name
  end.
Proof.
  induction ds as [|[[nm n] [[code fatal] text]] ds IH]; [done|].
  rewrite !fmap_cons. intros [Hni Hnd]%NoDup_cons m. cbn [foldl list_find fst snd]. rewrite IH by done.
  destruct (decide (nm = name)) as [->|Hne].
  - destruct (list_find (λ d : topic_description, d.1.1 = name) ds) as [[i [[nm' n'] [[c' f'] t']]]|] eqn:Ef.
    + apply list_find_Some in Ef as (Ei & Ek & _). simpl in Ek. subst nm'. destruct Hni.
      apply list_elem_of_fmap. exists (name, n'). split; [done|]. apply list_elem_of_fmap.
      exists (name, n', (c', f', t')). split; [done|]. by eapply list_elem_of_lookup_2.
    + destruct (code =? ErrNoError); [by rewrite lookup_insert_eq|done].
  - assert ((if code =? ErrNoError then <[nm:=Z.of_nat n]> m else m) !! name = m !! name) as Hm.
    { destruct (code =? ErrNoError); [by rewrite lookup_insert_ne|done]. }
    rewrite Hm. destruct (list_find (λ d : topic_description, d.1.1 = name) ds) as [[i [[nm' n'] [[c' f'] t']]]|]; done.
Qed.
End topics.

(** With topics to ask for, an open producer answers the
    partition counts exactly when every topic was either described or unknown;
    the map then holds the topics that exist, with their counts, and an unknown
    topic is absent. *)
Theorem TopicPartitions_answer `{KfkCodes} topics cluster ds :
  topics ≠ [] → NoDup (ds.*1.*1) →
  match TopicPartitions false topics cluster (inl ds) with
  | inl found =>
      forallb description_ok ds = true ∧
      ∀ name n, found !! name = Some n ↔
                ∃ k fatal text, (name, k, (ErrNoError, fatal, text)) ∈ ds ∧ n = Z.of_nat k
  | inr _ => forallb description_ok ds = false
  end.
Proof.
  intros Ht Hnd. unfold TopicPartitions. destruct topics as [|t topics]; [done|]. cbn [length Nat.eqb].
  destruct (errors_Join (description_failures ds)) as [err|] eqn:E.
  { apply not_true_is_false. by rewrite <-description_failures_nil, E. }
  split; [by apply description_failures_nil|]. intros name n.
  unfold partition_counts. rewrite partition_counts_lookup by done. split.
  - destruct (list_find (λ d : topic_description, d.1.1 = name) ds) as [[i [[nm k] [[code fatal] text]]]|] eqn:Ef; [|by rewrite lookup_empty].
    destruct (Z.eqb_spec code ErrNoError) as [->|]; [|by rewrite lookup_empty]. intros [= <-].
    apply list_find_Some in Ef as (Ei & Ek & _). simpl in Ek. subst nm. exists k, fatal, text.
    split; [by eapply list_elem_of_lookup_2|done].
  - intros (k & fatal & text & Hin & ->).
    destruct (list_find (λ d : topic_description, d.1.1 = name) ds) as [[i d']|] eqn:Ef.
    + apply list_find_Some in Ef as (Ei & Ek & _). apply list_elem_of_lookup_1 in Hin as [j Hj].
      assert (i = j) as ->.
      { eapply (NoDup_lookup _ i j name Hnd); rewrite !list_lookup_fmap; [rewrite Ei|rewrite Hj];
          cbn; congruence. }
      rewrite Ei in Hj. injection Hj as ->. by rewrite Z.eqb_refl.
    + apply list_find_None in Ef. rewrite Forall_forall in Ef. by destruct (Ef _ Hin).
Qed.

(** ** Concrete instances *)
Module Ex_producer.
#[local] Existing Instance codes_librdkafka.
Lemma codes_distinct_librdkafka : KfkCodesDistinct.
Proof. unfold KfkCodesDistinct. apply (bool_decide_unpack _). by vm_compute. Qed.

Definition config : ProducerConfig :=
  mkProducerConfig ["kafka-1:9092"; "kafka-2:9092"]
    (<["linger.ms" := AnInt 5]> {["acks" := AString "0"]})
    false true "consistent_random" (30 * Second).

Lemma error_sentinels_witness :
  errors_Is (Some (kafka_err (TranslateError (EKfk (-192) true "timed out")))) ErrDeliveryTimeout = true ∧
  errors_Is (Some (kafka_err (TranslateError (EKfk (-192) true "timed out")))) ErrFatal = false.
Proof.
  pose proof (@error_sentinels codes_librdkafka codes_distinct_librdkafka
                (EKfk (-192) true "timed out") (-192) true "timed out" eq_refl)
    as (H1 & _ & _ & _ & H5 & _).
  split; [exact H1|exact H5].
Defined.

Lemma TopicPartitions_answer_witness :
  match TopicPartitions false ["orders"] None (inl [("orders", 3%nat, (0, false, EmptyString))]) with
  | inl found => found !! "orders" = Some 3
  | inr _ => False
  end.
Proof.
  pose proof (@TopicPartitions_answer codes_librdkafka ["orders"] None
                [("orders", 3%nat, (0, false, EmptyString))] ltac:(done)
                ltac:(apply (bool_decide_unpack _); by vm_compute)) as H.
  revert H. destruct (TopicPartitions _ _ _ _) as [found|] eqn:E; [|discriminate E].
  intros [_ H]. apply H. exists 3%nat, false, EmptyString. split; [by left|done].
Defined.

Lemma ex_producer_built :
  match @producer_ConfigMap Ex_config.config range_canonical config with inl _ => true | inr _ => false end = true.
Proof. by vm_compute. Qed.
Lemma producer_config_managed_witness :
  match @producer_ConfigMap Ex_config.config range_canonical config with
  | inl m => @config_get Ex_config.config Ex_config.laws m "acks" = Some (AString "all")
  | inr _ => False
  end.
Proof.
  pose proof ex_producer_built as Hb.
  destruct (@producer_ConfigMap Ex_config.config range_canonical config) as [m|e] eqn:E; [|discriminate Hb].
  exact (proj1 (proj2 (@producer_config_managed Ex_config.config Ex_config.laws
                         range_canonical range_canonical_laws config m E))).
Defined.
End Ex_producer.
