(* ===== verification/ProducerHandle.v ===== *)
(** * The producer driver's handle (internal/publish/publishdriver/producer.go)

    Every method of [producer] that calls confluent-kafka-go runs under the read
    lock of [handleMu]; [Close] takes the write lock to set [closed] and destroys
    the handle after it released the lock.  The model interleaves any number of
    goroutines, each inside one method, one atomic step at a time. *)
From S2P Require Import Prelude GoStrings GoErrors GoTime GoAny RWMutex Kfk PubDriver.

(** ** Calls

    What confluent-kafka-go is asked to do. *)
Definition PartitionAny : Z := -1.
Record kfk_Message (T : Type) : Type := mkMessage_ {
  km_Topic : string; km_Partition : Z; km_Key : bytes; km_Value : bytes; km_Opaque : T;
  (** [None] is the nil slice. *)
  km_Headers : option (list Header);
}.
Arguments mkMessage_ {T}. Arguments km_Topic {T}. Arguments km_Opaque {T}. Arguments km_Headers {T}.
Inductive kfk_call (T : Type) : Type :=
  | KProduce (message : kfk_Message T)
  | KFlush (ms : Z)
  | KPurge
  | KLen
  | KDescribeCluster
  | KDescribeTopics (topics : list string).
Arguments KProduce {T}. Arguments KFlush {T}. Arguments KPurge {T}. Arguments KLen {T}.
Arguments KDescribeCluster {T}. Arguments KDescribeTopics {T}.
(** What it answers: an error or none, a number, or topic descriptions. *)
Inductive answer : Type :=
  | AError (err : option goerr)
  | ACount (n : Z)
  | ADescriptions (ds : list topic_description + goerr).

(** The methods of [producer], with their arguments, and what they return. *)
Inductive call (T : Type) : Type :=
  | Produce (record : Record_) (token : T)
  | Flush (timeout : Z)
  | Purge
  | Len
  | TopicPartitions_ (topics : list string).
Arguments Produce {T}. Arguments Flush {T}. Arguments Purge {T}. Arguments Len {T}.
Arguments TopicPartitions_ {T}.
Inductive result : Type :=
  | RError (err : option goerr)
  | RCount (n : Z)
  | RPartitions (r : gmap string Z + goerr).

(** The message [Produce] builds. *)
Definition to_kfk_Message {T} (record : Record_) (token : T) : kfk_Message T :=
  {| km_Topic := r_Topic record; km_Partition := PartitionAny; km_Key := r_Key record;
     km_Value := r_Value record; km_Opaque := token;
     km_Headers := if (0 <? length (r_Headers record))%nat then Some (r_Headers record) else None |}.

(** The client call each method makes, and what the method makes of the answer;
    [None] when the answer is not one the client call can give. *)
Definition client_call {T} (c : call T) : kfk_call T :=
  match c with
  | Produce record token => KProduce (to_kfk_Message record token)
  | Flush timeout => KFlush (Milliseconds timeout)
  | Purge => KPurge
  | Len => KLen
  | TopicPartitions_ [] => KDescribeCluster
  | TopicPartitions_ topics => KDescribeTopics topics
  end.
Definition finish `{KfkCodes} {T} (c : call T) (a : answer) : option result :=
  match c, a with
  | Produce _ _, AError err | Purge, AError err =>
      Some (RError ((λ e, kafka_err (TranslateError e)) <$> err))
  | Flush _, ACount n | Len, ACount n => Some (RCount n)
  | TopicPartitions_ [], AError err => Some (RPartitions (TopicPartitions false [] err (inl [])))
  | TopicPartitions_ (t :: ts), ADescriptions ds =>
      Some (RPartitions (TopicPartitions false (t :: ts) None ds))
  | _, _ => None
  end.
(** What each method returns once [closed] is set. *)
Definition closed_result {T} (c : call T) : result :=
  match c with
  | Produce _ _ | Purge => RError (Some ErrClosed)
  | Flush _ | Len => RCount 0
  | TopicPartitions_ _ => RPartitions (inr ErrClosed)
  end.

(** ** Goroutines *)

(** Where a goroutine stands in its method. *)
Inductive caller_pc : Type :=
  | CStart                      (* before RLock *)
  | CLocked                     (* RLock held, closed not read *)
  | CCalling                    (* closed was false: inside the client *)
  | CReturning (r : result)     (* RLock held, the deferred RUnlock to come *)
  | CDone (r : result).
Inductive closer_pc : Type :=
  | KStart                      (* before Lock *)
  | KLocked                     (* Lock held, closed not read *)
  | KAlready                    (* closed was true: Unlock and return to come *)
  | KSet                        (* closed set: Unlock to come *)
  | KUnlocked                   (* before admin.Close *)
  | KAdminClosed                (* before kafkaProducer.Close *)
  | KDone (first : bool).
Inductive thread (T : Type) : Type :=
  | Caller (c : call T) (pc : caller_pc)
  | Closer (pc : closer_pc).
Arguments Caller {T}. Arguments Closer {T}.

Definition holds {T} (t : thread T) : holding :=
  match t with
  | Caller _ (CLocked | CCalling | CReturning _) => ReadLock
  | Closer (KLocked | KAlready | KSet) => WriteLock
  | _ => NoLock
  end.

Record handle (T : Type) : Type := mkHandle {
  threads : gmap nat (thread T);
  closed : bool;
  (** Calls of [admin.Close] and of [kafkaProducer.Close]. *)
  admin_closes : nat;
  client_closes : nat;
  (** Client calls, in the order they were entered. *)
  entered : list (kfk_call T);
}.
Arguments mkHandle {T}. Arguments threads {T}. Arguments closed {T}. Arguments admin_closes {T}.
Arguments client_closes {T}. Arguments entered {T}.

Section steps.
Context {T : Type} `{KfkCodes}.
Implicit Types s : handle T.

Definition at_ (i : nat) (t : thread T) s : handle T :=
  mkHandle (<[i := t]> (threads s)) (closed s) (admin_closes s) (client_closes s) (entered s).

(** The next step of goroutine [i]; [a] is what the client answers, if it is
    the step that returns from the client. *)
Definition advance (i : nat) (a : answer) s : option (handle T) :=
  match threads s !! i with
  | Some (Caller c CStart) => if can_rlock holds (threads s) then Some (at_ i (Caller c CLocked) s) else None
  | Some (Caller c CLocked) =>
      if closed s then Some (at_ i (Caller c (CReturning (closed_result c))) s)
      else let s := at_ i (Caller c CCalling) s in
           Some (mkHandle (threads s) (closed s) (admin_closes s) (client_closes s)
                   (entered s ++ [client_call c]))
  | Some (Caller c CCalling) =>
      match finish c a with
      | Some r => Some (at_ i (Caller c (CReturning r)) s)
      | None => None
      end
  | Some (Caller c (CReturning r)) => Some (at_ i (Caller c (CDone r)) s)
  | Some (Caller c (CDone _)) => None
  | Some (Closer KStart) => if can_lock holds (threads s) then Some (at_ i (Closer KLocked) s) else None
  | Some (Closer KLocked) =>
      if closed s then Some (at_ i (Closer KAlready) s)
      else let s := at_ i (Closer KSet) s in
           Some (mkHandle (threads s) true (admin_closes s) (client_closes s) (entered s))
  | Some (Closer KAlready) => Some (at_ i (Closer (KDone false)) s)
  | Some (Closer KSet) => Some (at_ i (Closer KUnlocked) s)
  | Some (Closer KUnlocked) =>
      let s := at_ i (Closer KAdminClosed) s in
      Some (mkHandle (threads s) (closed s) (S (admin_closes s)) (client_closes s) (entered s))
  | Some (Closer KAdminClosed) =>
      let s := at_ i (Closer (KDone true)) s in
      Some (mkHandle (threads s) (closed s) (admin_closes s) (S (client_closes s)) (entered s))
  | Some (Closer (KDone _)) => None
  | None => None
  end.

(** A schedule, and the state it leads to. *)
Fixpoint schedule (es : list (nat * answer)) s : option (handle T) :=
  match es with
  | [] => Some s
  | (i, a) :: es => s ← advance i a s; schedule es s
  end.

Definition fresh (t : thread T) : Prop :=
  match t with Caller _ CStart | Closer KStart => True | _ => False end.
Definition finished (t : thread T) : Prop :=
  match t with Caller _ (CDone _) | Closer (KDone _) => True | _ => False end.
#[export] Instance finished_dec t : Decision (finished t).
Proof. destruct t as [? []|[]]; apply _. Defined.
(** A producer just made, with goroutines about to call it. *)
Definition initial (ts : gmap nat (thread T)) : handle T := mkHandle ts false 0 0 [].
End steps.

(** ** The invariant *)

(** The one [Close] that found the producer open. *)
Definition owner {T} (t : thread T) : bool :=
  match t with Closer (KSet | KUnlocked | KAdminClosed | KDone true) => true | _ => false end.
(** How often it has closed the admin client and the producer. *)
Definition owner_closes {T} (t : thread T) : nat * nat :=
  match t with
  | Closer KAdminClosed => (1%nat, 0%nat)
  | Closer (KDone true) => (1%nat, 1%nat)
  | _ => (0%nat, 0%nat)
  end.
(** A [Close] that found it closed. *)
Definition late {T} (t : thread T) : bool :=
  match t with Closer (KAlready | KDone false) => true | _ => false end.
Definition calling {T} (t : thread T) : bool := match t with Caller _ CCalling => true | _ => false end.

Section invariant.
Context {T : Type} `{KfkCodes}.
Implicit Types s : handle T.

Record Inv s : Prop := {
  inv_lock : exclusive holds (threads s);
  inv_calling i t : threads s !! i = Some t → calling t = true → closed s = false;
  inv_owner i t : threads s !! i = Some t → owner t = true →
    closed s = true ∧ (admin_closes s, client_closes s) = owner_closes t;
  inv_late i t : threads s !! i = Some t → late t = true → closed s = true;
  inv_open : closed s = false → (admin_closes s, client_closes s) = (0%nat, 0%nat);
  inv_closed : closed s = true → ∃ i t, threads s !! i = Some t ∧ owner t = true ∧
    ∀ j u, threads s !! j = Some u → owner u = true → i = j;
}.

Lemma initial_Inv (ts : gmap nat (thread T)) : map_Forall (λ _ t, fresh t) ts → Inv (initial ts).
Proof.
  intros Hf. split; simpl; try done.
  - intros i j t u Hi _ _ Hh. specialize (Hf i t Hi). by destruct t as [c []|[]].
  - intros i t Hi Ho. specialize (Hf i t Hi). by destruct t as [c []|[]].
  - intros i t Hi Ho. specialize (Hf i t Hi). by destruct t as [c []|[| | | | | |[]]].
Qed.

(** A step that keeps the lock, [closed] and the owner as they are, for the
    goroutine that makes it. *)
Lemma Inv_at s i t t' b log :
  Inv s → threads s !! i = Some t → closed s = b →
  may_hold holds (threads s) t t' →
  (calling t' = true → closed s = false) → (late t' = true → closed s = true ∨ late t = true) →
  owner t' = owner t → owner_closes t' = owner_closes t →
  Inv (mkHandle (<[i := t']> (threads s)) b (admin_closes s) (client_closes s) log).
Proof.
  intros [Hl Hc Ho Hla Hop Hcl] Et <- Hh Hcall Hlate Hown Hcls. split; cbn [threads closed admin_closes client_closes].
  - by eapply exclusive_insert.
  - intros j u [[<- <-]|[Hij Ej]]%lookup_insert_Some Hu; eauto.
  - intros j u [[<- <-]|[Hij Ej]]%lookup_insert_Some Hu; [|eauto].
    rewrite Hcls. apply (Ho i); [done|congruence].
  - intros j u [[<- <-]|[Hij Ej]]%lookup_insert_Some Hu; [|eauto].
    destruct (Hlate Hu); eauto.
  - done.
  - intros (j & u & Ej & Hu & Huniq)%Hcl. destruct (decide (i = j)) as [<-|Hij].
    + exists i, t'. rewrite lookup_insert_eq. split_and!; [done|congruence|].
      intros k v [[<- <-]|[Hik Ek]]%lookup_insert_Some Hv; eauto.
    + exists j, u. rewrite lookup_insert_ne by done. split_and!; [done..|].
      intros k v [[<- <-]|[Hik Ek]]%lookup_insert_Some Hv; [|by eapply Huniq].
      eapply (Huniq i t); congruence.
Qed.

(** A step of the owner, or the step that makes one. *)
Lemma Inv_owner s i t t' a k :
  Inv s → threads s !! i = Some t →
  (holds t' = holds t ∨ holds t' = NoLock) → holds t = WriteLock ∨ owner t = true →
  (owner t = true ∨ closed s = false) →
  owner t' = true → calling t' = false → owner_closes t' = (a, k) →
  Inv (mkHandle (<[i := t']> (threads s)) true a k (entered s)).
Proof.
  intros [Hl Hc Ho Hla Hop Hcl] Et Hh Hw Hown Hown' Hcall' Hcls.
  assert (∀ j u, threads s !! j = Some u → owner u = true → i = j) as Huniq.
  { intros j u Ej Hu. destruct (Ho j u Ej Hu) as [Hs _].
    destruct (Hcl Hs) as (m & w & Em & Hw' & Hm).
    destruct Hown as [Hown|Hown]; [|congruence].
    rewrite <-(Hm i t), <-(Hm j u); done. }
  assert (∀ j u, threads s !! j = Some u → i ≠ j → calling u = false) as Hnc.
  { intros j u Ej Hij. apply not_true_is_false. intros Hu.
    destruct Hw as [Hw|Hw]; [|destruct (Ho i t Et Hw); specialize (Hc j u Ej Hu); congruence].
    specialize (Hl i j t u Et Ej Hij Hw). by destruct u as [c []|]. }
  split; cbn [threads closed admin_closes client_closes]; try done.
  - eapply exclusive_insert; [done..|]. destruct Hh as [Hh|Hh]; [right; by left|by left].
  - intros j u [[<- <-]|[Hij Ej]]%lookup_insert_Some Hu; [congruence|].
    rewrite (Hnc j u) in Hu; done.
  - intros j u [[<- <-]|[Hij Ej]]%lookup_insert_Some Hu; [done|]. by destruct Hij, (Huniq j u).
  - intros _. exists i, t'. rewrite lookup_insert_eq. split_and!; [done..|].
    intros j u [[<- _]|[_ Ej]]%lookup_insert_Some Hu; eauto.
Qed.

Lemma advance_Inv i a s s' : Inv s → advance i a s = Some s' → Inv s'.
Proof.
  intros HI. pose proof (inv_owner s HI) as Ho. pose proof (inv_open s HI) as Hop.
  unfold advance, at_. cbn [threads closed admin_closes client_closes entered].
  destruct (threads s !! i) as [[c []|[]]|] eqn:E; intros Hs; try done;
    repeat case_match; try done; injection Hs as <-;
    try (eapply (Inv_at s i); [done..| | | |done|done]; by unfold may_hold; auto);
    try (destruct (Ho i _ E eq_refl) as [-> [= -> ->]]);
    (eapply Inv_owner; [done..| | | | |done|]; auto; symmetry; by apply Hop).
Qed.

(** Each client is closed at most once, the admin client first. *)
Lemma Inv_closes s : Inv s → (client_closes s ≤ admin_closes s ≤ 1)%nat.
Proof.
  intros HI. destruct (closed s) eqn:Hc.
  - destruct (inv_closed s HI Hc) as (i & t & Ei & Ho & _). destruct (inv_owner s HI i t Ei Ho) as [_ Hcl].
    destruct t as [|[| | | | | |[]]]; try done; simpl in Hcl; injection Hcl as -> ->; lia.
  - pose proof (inv_open s HI Hc) as [= -> ->]. lia.
Qed.

Lemma schedule_Inv es : ∀ s s', Inv s → schedule es s = Some s' → Inv s'.
Proof.
  induction es as [|[i a] es IH]; intros s s' HI; simpl; [congruence|].
  destruct (advance i a s) as [s1|] eqn:E; [|done]. simpl. by eapply IH, advance_Inv.
Qed.
End invariant.

(** ** Progress *)

Section progress.
Context {T : Type} `{KfkCodes}.
Implicit Types s : handle T.

(** Steps a goroutine has left, at most. *)
Definition thread_left (t : thread T) : nat :=
  match t with
  | Caller _ CStart => 4 | Caller _ CLocked => 3 | Caller _ CCalling => 2
  | Caller _ (CReturning _) => 1 | Caller _ (CDone _) => 0
  | Closer KStart => 5 | Closer KLocked => 4 | Closer KAlready => 1
  | Closer KSet => 3 | Closer KUnlocked => 2 | Closer KAdminClosed => 1 | Closer (KDone _) => 0
  end.
Definition steps_left (ts : gmap nat (thread T)) : nat := total thread_left ts.

Lemma advance_left i a s s' : advance i a s = Some s' →
  (steps_left (threads s') < steps_left (threads s))%nat.
Proof.
  unfold advance, at_. destruct (threads s !! i) as [[c []|[]]|] eqn:E; intros Hs; try done;
    repeat case_match; try done; injection Hs as <-; cbn [threads];
    (match goal with |- context [<[i := ?t]> _] => pose proof (total_insert thread_left _ i _ t E) end);
    unfold steps_left; simpl in *; lia.
Qed.
Lemma schedule_left es : ∀ s s', schedule es s = Some s' →
  (length es + steps_left (threads s') ≤ steps_left (threads s))%nat.
Proof.
  induction es as [|[i a] es IH]; intros s s'; simpl; [by intros [= ->]|].
  destruct (advance i a s) as [s1|] eqn:E; [|done]. simpl. intros Hs.
  apply advance_left in E. apply IH in Hs. lia.
Qed.

(** What the client could answer a call. *)
Definition some_answer (c : call T) : answer :=
  match c with
  | Produce _ _ | Purge | TopicPartitions_ [] => AError None
  | Flush _ | Len => ACount 0
  | TopicPartitions_ _ => ADescriptions (inl [])
  end.
Lemma finish_some_answer (c : call T) : is_Some (finish c (some_answer c)).
Proof. destruct c as [| | | |[|]]; eauto. Qed.

(** A goroutine that holds a lock, or has nothing to wait for, can step. *)
Lemma advance_enabled i t s : threads s !! i = Some t → ¬ finished t →
  (holds t ≠ NoLock ∨ can_lock holds (threads s) = true) → ∃ a, is_Some (advance i a s).
Proof.
  intros E Hf Hh. unfold advance. rewrite E.
  pose proof (can_lock_rlock holds (threads s)) as Hr.
  destruct t as [c []|[]]; try (by destruct Hf);
    try (exists (AError None); destruct Hh as [Hh|Hh]; [done|rewrite ?Hh, ?Hr by done]; eauto; fail);
    try (exists (AError None); destruct (closed s); eauto; fail);
    try (by exists (AError None); eauto).
  exists (some_answer c). destruct (finish_some_answer c) as [r ->]. eauto.
Qed.

(** No deadlock: while a goroutine is not finished, one can step. *)
Lemma no_deadlock s : (∃ i t, threads s !! i = Some t ∧ ¬ finished t) →
  ∃ i a, is_Some (advance i a s).
Proof.
  intros (i & t & E & Hf). destruct (can_lock holds (threads s)) eqn:Hc.
  - destruct (advance_enabled i t s) as [a Ha]; eauto.
  - apply can_lock_false in Hc as (j & u & Ej & Hu).
    destruct (advance_enabled j u s) as [a Ha]; [done| |by left|by eauto].
    intros Hf'. destruct u as [c []|[]]; try done; by destruct Hu.
Qed.
End progress.

(** ** What a schedule keeps *)

Section kept.
Context {T : Type} `{KfkCodes}.
Implicit Types s : handle T.

(** The method a goroutine is in never changes. *)
Definition method (t : thread T) : option (call T) :=
  match t with Caller c _ => Some c | Closer _ => None end.
Lemma schedule_method es : ∀ s s', schedule es s = Some s' →
  method <$> threads s' = method <$> threads s.
Proof.
  induction es as [|[i a] es IH]; intros s s'; simpl; [by intros [= ->]|].
  destruct (advance i a s) as [s1|] eqn:E; [|done]. simpl. intros ->%IH. revert E.
  unfold advance, at_. destruct (threads s !! i) as [[c []|[]]|] eqn:E; intros Hs; try done;
    repeat case_match; try done; injection Hs as <-; cbn [threads];
    rewrite fmap_insert; apply insert_id; by rewrite lookup_fmap, E.
Qed.

(** A call kept out of the client, from before its lock to its return. *)
Definition sees_closed (c : call T) (t : thread T) : Prop :=
  t = Caller c CStart ∨ t = Caller c CLocked ∨
  t = Caller c (CReturning (closed_result c)) ∨ t = Caller c (CDone (closed_result c)).
Lemma schedule_sees_closed i c es : ∀ s s', schedule es s = Some s' → closed s = true →
  (∃ t, threads s !! i = Some t ∧ sees_closed c t) →
  closed s' = true ∧ ∃ t, threads s' !! i = Some t ∧ sees_closed c t.
Proof.
  induction es as [|[j a] es IH]; intros s s'; simpl; [by intros [= ->]|].
  destruct (advance j a s) as [s1|] eqn:E; [|done]. simpl. intros Hs Hc (t & Ei & Ht).
  apply (IH s1 s' Hs).
  - revert E. unfold advance, at_. rewrite Hc. destruct (threads s !! j) as [[? []|[]]|]; intros E;
      try done; repeat case_match; try done; by injection E as <-.
  - destruct (decide (j = i)) as [->|Hji].
    + unfold advance, at_ in E. rewrite Hc, Ei in E.
      destruct Ht as [->|[->|[->| ->]]]; try done; repeat case_match; try done; injection E as <-;
        cbn [threads]; rewrite lookup_insert_eq; eexists; (split; [done|]); unfold sees_closed; auto.
    + exists t. split; [|done]. revert E. unfold advance, at_.
      destruct (threads s !! j) as [[? []|[]]|]; intros E;
        try done; repeat case_match; try done; injection E as <-; cbn [threads];
        by rewrite lookup_insert_ne.
Qed.
End kept.

(** ** Properties *)

(** C16 (no call on a destroyed handle) Whatever the interleaving of goroutines
    that call a new producer and goroutines that close it, a goroutine is inside
    confluent-kafka-go only while neither [admin.Close] nor [kafkaProducer.Close]
    has been called, nor is about to be: no [Close] is past its unlock.  And each
    of the two is called at most once, the admin client's first. *)
Theorem handle_alive `{KfkCodes} {T} (ts : gmap nat (thread T)) es s :
  map_Forall (λ _ t, fresh t) ts → schedule es (initial ts) = Some s →
  (∀ i c, threads s !! i = Some (Caller c CCalling) →
     closed s = false ∧ admin_closes s = 0%nat ∧ client_closes s = 0%nat ∧
     ∀ j pc, threads s !! j = Some (Closer pc) → pc = KStart) ∧
  (client_closes s ≤ admin_closes s ≤ 1)%nat.
Proof.
  intros Hts Hs. apply schedule_Inv in Hs; [|by apply initial_Inv]. split.
  - intros i c Ei. pose proof (inv_calling s Hs i _ Ei eq_refl) as Hc.
    pose proof (inv_open s Hs Hc) as [= Ha Hk]. split_and!; [done..|].
    intros j pc Ej. destruct (owner (Closer (T := T) pc)) eqn:Ho.
    { destruct (inv_owner s Hs j _ Ej Ho). congruence. }
    pose proof (inv_lock s Hs j i _ _ Ej Ei) as Hl.
    assert (j ≠ i) as Hji by (intros ->; congruence). specialize (Hl Hji).
    pose proof (inv_late s Hs j _ Ej) as Hla. rewrite Hc in Hla.
    destruct pc as [| | | | | |[]]; try done;
      [by specialize (Hl eq_refl)|by specialize (Hla eq_refl)|by specialize (Hla eq_refl)].
  - by apply Inv_closes.
Qed.

(** C18 (Close completes) A new producer's goroutines never deadlock and always
    come to an end: a schedule is no longer than the steps they have between them,
    and where no goroutine can step, every one has returned.  If one of them was a
    [Close], the admin client and the producer were each closed exactly once. *)
Theorem Close_completes `{KfkCodes} {T} (ts : gmap nat (thread T)) es s :
  map_Forall (λ _ t, fresh t) ts → schedule es (initial ts) = Some s →
  (length es ≤ steps_left ts)%nat ∧
  ((∀ i a, advance i a s = None) →
   map_Forall (λ _ t, finished t) (threads s) ∧
   ((∃ i, ts !! i = Some (Closer KStart)) → admin_closes s = 1%nat ∧ client_closes s = 1%nat)).
Proof.
  intros Hts Hs. split. { apply schedule_left in Hs. simpl in Hs. lia. }
  intros Hstuck. assert (map_Forall (λ _ t, finished t) (threads s)) as Hfin.
  { intros i t Ei. destruct (decide (finished t)) as [|Hn]; [done|].
    destruct (no_deadlock s) as (j & a & [s' E]); [by eauto|]. by rewrite Hstuck in E. }
  split; [done|]. intros [i Ei].
  pose proof (schedule_method _ _ _ Hs) as Hm. apply (f_equal (lookup i)) in Hm.
  rewrite !lookup_fmap in Hm. simpl in Hm. rewrite Ei in Hm.
  destruct (threads s !! i) as [[|pc]|] eqn:Esi; try done. clear Hm.
  apply schedule_Inv in Hs; [|by apply initial_Inv].
  assert (closed s = true) as Hc.
  { pose proof (Hfin i _ Esi). destruct pc as [| | | | | |[]]; try done.
    - by destruct (inv_owner s Hs i _ Esi eq_refl).
    - by apply (inv_late s Hs i _ Esi). }
  destruct (inv_closed s Hs Hc) as (j & t & Ej & Ho & _).
  destruct (inv_owner s Hs j t Ej Ho) as [_ Hcl]. pose proof (Hfin j t Ej).
  destruct t as [|[| | | | | |[]]]; try done. simpl in Hcl. by injection Hcl as -> ->.
Qed.

(** Once [closed] is set, a call that had not started
    returns ErrClosed (Produce, Purge, TopicPartitions) or zero (Flush, Len),
    however the goroutines go on, and is never inside the client. *)
Theorem closed_calls `{KfkCodes} {T} (s s' : handle T) es i (c : call T) :
  closed s = true → threads s !! i = Some (Caller c CStart) → schedule es s = Some s' →
  ∃ pc, threads s' !! i = Some (Caller c pc) ∧ pc ≠ CCalling ∧
        ∀ r, pc = CDone r → r = closed_result c.
Proof.
  intros Hc Ei Hs.
  destruct (schedule_sees_closed i c es s s' Hs Hc) as [_ (t & Et & Ht)];
    [eexists; split; [done|by left]|].
  destruct Ht as [->|[->|[->| ->]]]; eexists; (split; [done|split; [done|]]); congruence.
Qed.

(** ** A concrete run *)
Module Ex_handle.
#[local] Existing Instance codes_librdkafka.
(** A Produce that is inside the client when a Close and a Len arrive. *)
Definition goroutines : gmap nat (thread nat) :=
  <[0%nat := Caller (Produce (mkRecord "orders" (Some "k") (Some "v") []) 7%nat) CStart]>
  (<[1%nat := Closer KStart]> {[2%nat := Caller Len CStart]}).
Definition ok : answer := AError None.
Definition run : list (nat * answer) :=
  [(0, ok); (0, ok); (0, ok); (0, ok); (1, ok); (1, ok); (1, ok); (1, ok);
   (2, ok); (2, ok); (1, ok); (2, ok)]%nat.
(** The end of the run, as data. *)
Definition end_ : bool :=
  match schedule run (initial goroutines) with
  | Some s => bool_decide (admin_closes s = 1%nat) && bool_decide (client_closes s = 1%nat)
  | None => false
  end.
Lemma end_ok : end_ = true.
Proof. by vm_compute. Qed.
Lemma goroutines_fresh : map_Forall (λ _ t, fresh t) goroutines.
Proof. repeat (apply map_Forall_insert_2; [done|]). apply map_Forall_empty. Qed.

Lemma handle_alive_witness :
  match schedule (take 2 run) (initial goroutines) with
  | Some s => closed s = false
  | None => False
  end.
Proof.
  destruct (schedule (take 2 run) (initial goroutines)) as [s|] eqn:E; [|by vm_compute in E].
  refine (proj1 (proj1 (@handle_alive codes_librdkafka nat goroutines (take 2 run) s
                          goroutines_fresh E) 0%nat
                   (Produce (mkRecord "orders" (Some "k") (Some "v") []) 7%nat) _)).
  injection E as <-. reflexivity.
Defined.

Lemma Close_completes_witness :
  match schedule run (initial goroutines) with
  | Some s => (length run ≤ steps_left goroutines)%nat
  | None => False
  end.
Proof.
  destruct (schedule run (initial goroutines)) as [s|] eqn:E;
    [exact (proj1 (@Close_completes codes_librdkafka nat goroutines run s goroutines_fresh E))
    |by vm_compute in E].
Defined.

Definition shut : handle nat := mkHandle {[0%nat := Caller Len CStart]} true 1 1 [].
Lemma closed_calls_witness : ∃ pc,
  threads (mkHandle {[0%nat := Caller Len (CDone (RCount 0))]} true 1 1 []) !! 0%nat
    = Some (Caller (T := nat) Len pc) ∧ pc ≠ CCalling ∧ ∀ r, pc = CDone r → r = RCount 0.
Proof.
  apply (@closed_calls codes_librdkafka nat shut _ [(0, ok); (0, ok); (0, ok)]%nat 0%nat Len);
    reflexivity.
Defined.
End Ex_handle.
