(* ===== verification/PubOptions.v ===== *)
(** * Publisher configuration (publish/options.go, publish/partitioner.go)

    The options of [publish.New], the checks they make alone and together, and
    what the driver is told. *)
From S2P Require Import Prelude GoStrings GoErrors GoTime GoAny Kfk PubDriver.
From Corelib Require Import SpecFloat.

(** ** Partitioners *)
Definition PartitionerDefault : string := "consistent_random".
Definition PartitionerJavaCompatible : string := "murmur2_random".
Definition PartitionerMurmur2 : string := "murmur2".
Definition PartitionerConsistent : string := "consistent".
Definition PartitionerRandom : string := "random".
Definition PartitionerFNV1A : string := "fnv1a".
Definition PartitionerFNV1ARandom : string := "fnv1a_random".
Definition partitioners : list string :=
  [PartitionerDefault; PartitionerJavaCompatible; PartitionerMurmur2; PartitionerConsistent;
   PartitionerRandom; PartitionerFNV1A; PartitionerFNV1ARandom].
Definition partitioner_valid (p : string) : bool := existsb (String.eqb p) partitioners.
Arguments partitioner_valid : simpl never.

(** ** Integers in a configuration *)

(** [fmt]'s [%v] of a [float64]; only the text of an error shows it. *)
Class FmtFloat := fmt_float : spec_float → string.
(** [fmt]'s [%T] of a value. *)
Definition type_name (raw : goany) : string :=
  match raw with
  | AInt KInt _ => "int" | AInt KInt8 _ => "int8" | AInt KInt16 _ => "int16"
  | AInt KInt32 _ => "int32" | AInt KInt64 _ => "int64" | AInt KUint _ => "uint"
  | AInt KUint8 _ => "uint8" | AInt KUint16 _ => "uint16" | AInt KUint32 _ => "uint32"
  | AInt KUint64 _ => "uint64" | AFloat64 _ => "float64" | AString _ => "string"
  | ABool _ => "bool" | AOther typ => typ
  end.
Definition integerValue `{FloatOverflow} `{FmtFloat} (raw : goany) : Z + goerr :=
  match raw with
  | AInt (KInt | KInt8 | KInt16 | KInt32 | KInt64 | KUint8 | KUint16 | KUint32) value => inl value
  | AFloat64 value =>
      if negb (float_whole value) then inr (errors_New ("must be a whole number, got " +:+ fmt_float value))
      else inl (float_to_int64 value)
  | AString value =>
      match ParseInt 64 value with
      | Some parsed => inl parsed
      | None => inr (errors_New ("must be a number, got " +:+ Quote value))
      end
  | AInt (KUint | KUint64) _ | ABool _ | AOther _ =>
      inr (errors_New ("must be a number, got " +:+ type_name raw))
  end.

Definition maxInFlightWithIdempotence : Z := 5.
Definition defaultDeliveryTimeout : Z := 30 * Second.
Definition MaxInt32 : Z := 2 ^ 31 - 1.
Definition in_flight_key : string := "max.in.flight.requests.per.connection".

Section options.
(** The callbacks of the application, and what builds a producer. *)
Context {DeliveryErrorFunc FatalFunc Factory : Type}.
(** The default of [newProducer]: [publishdriver.New]. *)
Context (driver_New : Factory).
Context `{GoRange} `{FloatOverflow} `{FmtFloat}.

(** [config].  The logger is not a field. *)
Record config : Type := mkconfig {
  brokers : list string;
  kafkaConfig : configmap;
  idempotence : bool;
  acksLeader : bool;
  partitioner : string;
  deliveryTimeout : Z;
  onDeliveryError : option DeliveryErrorFunc;
  onFatal : option FatalFunc;
  newProducer : Factory;
}.

Definition defaultConfig : config :=
  {| brokers := []; kafkaConfig := ∅; idempotence := true; acksLeader := false;
     partitioner := PartitionerDefault; deliveryTimeout := defaultDeliveryTimeout;
     onDeliveryError := None; onFatal := None; newProducer := driver_New |}.

Definition driverConfig (c : config) : ProducerConfig :=
  {| pc_Brokers := brokers c; pc_KafkaConfig := kafkaConfig c; pc_AcksLeader := acksLeader c;
     pc_Idempotence := idempotence c; pc_Partitioner := partitioner c;
     pc_DeliveryTimeout := deliveryTimeout c |}.

Definition checkInFlightForIdempotence (c : config) : option goerr :=
  match kafkaConfig c !! in_flight_key with
  | None => None
  | Some raw =>
      match integerValue raw with
      | inr err => Some (wrapf ("kafka config key " +:+ Quote in_flight_key) err)
      | inl inFlight =>
          if maxInFlightWithIdempotence <? inFlight then
            Some (errors_New (in_flight_key +:+ " must be at most " +:+
              Itoa maxInFlightWithIdempotence +:+
              " while idempotence is on (the default); librdkafka would refuse to start"))
          else None
      end
  end.

Definition validate (c : config) : option goerr :=
  if (length (brokers c) =? 0)%nat then
    Some (errors_New "at least one broker must be provided with WithBrokers")
  else if idempotence c then checkInFlightForIdempotence c
  else None.

(** *** The options *)
Inductive Option_ : Type :=
  | OptBrokers (bs : list string)
  | OptKafkaConfig (m : option configmap)
  | OptWithoutIdempotence
  | OptAcksLeader
  | OptPartitioner (p : string)
  | OptDeliveryTimeout (timeout : Z)
  | OptLogger
  | OptDeliveryErrorFunc (onError : option DeliveryErrorFunc)
  | OptFatalHandler (f : option FatalFunc)
  | OptProducerFactory (factory : option Factory).

Definition OptionFunc : Type := config → config + goerr.
Definition reject (text : string) : config + goerr := inr (errors_New text).

Definition WithBrokers (bs : list string) : OptionFunc := λ c,
  match bs with
  | [] => reject "at least one broker must be provided"
  | _ =>
      if existsb (String.eqb EmptyString) bs then reject "broker address cannot be empty"
      else inl (mkconfig bs (kafkaConfig c) (idempotence c) (acksLeader c) (partitioner c)
                  (deliveryTimeout c) (onDeliveryError c) (onFatal c) (newProducer c))
  end.
(** The keys the publisher rejects, in key order, each with the reason. *)
Definition rejected_keys (m : configmap) : list (option goerr) :=
  omap (λ key, (λ reason, Some (errors_New ("kafka config key " +:+ Quote key +:+
                                            " cannot be set: " +:+ reason))) <$> ManagedKeyReason key)
    (sorted_keys m).
Definition WithKafkaConfig (m : option configmap) : OptionFunc := λ c,
  match m with
  | None => reject "kafka config cannot be nil"
  | Some m =>
      match errors_Join (rejected_keys m) with
      | Some err => inr err
      | None => inl (mkconfig (brokers c) m (idempotence c) (acksLeader c) (partitioner c)
                       (deliveryTimeout c) (onDeliveryError c) (onFatal c) (newProducer c))
      end
  end.
Definition WithoutIdempotence : OptionFunc := λ c,
  inl (mkconfig (brokers c) (kafkaConfig c) false (acksLeader c) (partitioner c)
         (deliveryTimeout c) (onDeliveryError c) (onFatal c) (newProducer c)).
Definition WithAcksLeader : OptionFunc := λ c,
  inl (mkconfig (brokers c) (kafkaConfig c) false true (partitioner c)
         (deliveryTimeout c) (onDeliveryError c) (onFatal c) (newProducer c)).
Definition WithPartitioner (p : string) : OptionFunc := λ c,
  if negb (partitioner_valid p) then
    reject ("unknown partitioner " +:+ Quote p +:+ "; valid values are " +:+ Join partitioners ", ")
  else inl (mkconfig (brokers c) (kafkaConfig c) (idempotence c) (acksLeader c) p
              (deliveryTimeout c) (onDeliveryError c) (onFatal c) (newProducer c)).
Definition WithDeliveryTimeout (timeout : Z) : OptionFunc := λ c,
  if timeout <? Millisecond then
    reject ("delivery timeout must be at least 1ms, got " +:+ Duration_String timeout)
  else if MaxInt32 <? Milliseconds timeout then
    reject ("delivery timeout must be at most " +:+ Duration_String (wrap64 (MaxInt32 * Millisecond)) +:+
            ", got " +:+ Duration_String timeout)
  else inl (mkconfig (brokers c) (kafkaConfig c) (idempotence c) (acksLeader c) (partitioner c)
              timeout (onDeliveryError c) (onFatal c) (newProducer c)).
(** The logger is not part of the model. *)
Definition WithLogger : OptionFunc := λ c, inl c.
Definition WithDeliveryErrorFunc (onError : option DeliveryErrorFunc) : OptionFunc := λ c,
  match onError with
  | None => reject "delivery error func cannot be nil"
  | Some _ => inl (mkconfig (brokers c) (kafkaConfig c) (idempotence c) (acksLeader c) (partitioner c)
                     (deliveryTimeout c) onError (onFatal c) (newProducer c))
  end.
Definition WithFatalHandler (f : option FatalFunc) : OptionFunc := λ c,
  match f with
  | None => reject "fatal handler cannot be nil"
  | Some _ => inl (mkconfig (brokers c) (kafkaConfig c) (idempotence c) (acksLeader c) (partitioner c)
                     (deliveryTimeout c) (onDeliveryError c) f (newProducer c))
  end.
Definition WithProducerFactory (factory : option Factory) : OptionFunc := λ c,
  match factory with
  | None => reject "producer factory cannot be nil"
  | Some factory => inl (mkconfig (brokers c) (kafkaConfig c) (idempotence c) (acksLeader c)
                           (partitioner c) (deliveryTimeout c) (onDeliveryError c) (onFatal c) factory)
  end.

Definition apply_option (o : Option_) : OptionFunc :=
  match o with
  | OptBrokers bs => WithBrokers bs
  | OptKafkaConfig m => WithKafkaConfig m
  | OptWithoutIdempotence => WithoutIdempotence
  | OptAcksLeader => WithAcksLeader
  | OptPartitioner p => WithPartitioner p
  | OptDeliveryTimeout timeout => WithDeliveryTimeout timeout
  | OptLogger => WithLogger
  | OptDeliveryErrorFunc onError => WithDeliveryErrorFunc onError
  | OptFatalHandler f => WithFatalHandler f
  | OptProducerFactory factory => WithProducerFactory factory
  end.

(** The start of [publish.New]: the options in order, then [validate]. *)
Fixpoint apply_options (options : list (option Option_)) (built : config) : config + goerr :=
  match options with
  | [] => inl built
  | None :: _ => inr (errors_New "option cannot be nil")
  | Some o :: options =>
      match apply_option o built with
      | inl built => apply_options options built
      | inr err => inr err
      end
  end.
Definition build (options : list (option Option_)) : config + goerr :=
  match apply_options options defaultConfig with
  | inr err => inr err
  | inl built => match validate built with Some err => inr err | None => inl built end
  end.
End options.

Ltac unfold_pub_option :=
  unfold apply_option, WithBrokers, WithKafkaConfig, WithoutIdempotence, WithAcksLeader,
    WithPartitioner, WithDeliveryTimeout, WithLogger, WithDeliveryErrorFunc, WithFatalHandler,
    WithProducerFactory, reject in *.

(** ** What the options build *)

Section accepted.
Context {D F P : Type}.
Abbreviation option_ := (option (Option_ (DeliveryErrorFunc:=D) (FatalFunc:=F) (Factory:=P))).
Abbreviation config_ := (config (DeliveryErrorFunc:=D) (FatalFunc:=F) (Factory:=P)).
Context (driver_New : P) `{GoRangeLaws} `{FloatOverflow} `{FmtFloat}.
Implicit Types (c : config_) (options : list option_).

(** Whether an option of the list turns idempotence off, or selects acks=1. *)
Definition is_acks_leader (o : option_) : bool :=
  match o with Some OptAcksLeader => true | _ => false end.
Definition drops_idempotence (o : option_) : bool :=
  match o with Some OptAcksLeader | Some OptWithoutIdempotence => true | _ => false end.
(** The timeout of the last WithDeliveryTimeout, if there is one. *)
Definition timeout_of (options : list option_) : Z :=
  foldl (λ d o, match o with Some (OptDeliveryTimeout timeout) => timeout | _ => d end)
    defaultDeliveryTimeout options.

(** What holds of the configuration while the options are applied. *)
Record building (options : list option_) c : Prop := {
  bld_brokers : EmptyString ∉ brokers c;
  bld_partitioner : partitioner_valid (partitioner c) = true;
  bld_timeout : 1 ≤ Milliseconds (deliveryTimeout c) ≤ MaxInt32;
  bld_kafka : ∀ k, is_Some (kafkaConfig c !! k) → ManagedKeyReason k = None;
  bld_acks : acksLeader c = existsb is_acks_leader options;
  bld_idempotence : idempotence c = negb (existsb drops_idempotence options);
  bld_timeout_of : deliveryTimeout c = timeout_of options;
}.

Lemma rejected_keys_None (m : configmap) : errors_Join (rejected_keys m) = None ↔
  ∀ k, is_Some (m !! k) → ManagedKeyReason k = None.
Proof.
  assert (∀ l, errors_Join (omap (λ key, (λ reason, Some (errors_New ("kafka config key " +:+
    Quote key +:+ " cannot be set: " +:+ reason))) <$> ManagedKeyReason key) l) = None ↔
    ∀ k, k ∈ l → ManagedKeyReason k = None) as Hl.
  { intros l. rewrite errors_Join_None. induction l as [|k l IH].
    - split; [intros _ k Hk; by apply elem_of_nil in Hk|by constructor].
    - cbn [omap list_omap]. destruct (ManagedKeyReason k) as [r|] eqn:E; cbn [fmap option_fmap option_map].
      + split; [by inversion 1|]. intros Hk. specialize (Hk k ltac:(by left)). congruence.
      + rewrite IH. split; intros Hk k'.
        * intros [->|Hk']%elem_of_cons; auto.
        * intros Hk'. apply Hk. by right. }
  unfold rejected_keys. rewrite Hl. split; intros Hk k Hin; apply Hk; by apply elem_of_sorted_keys.
Qed.

Lemma Milliseconds_bounds d : Millisecond ≤ d → Milliseconds d ≤ MaxInt32 →
  1 ≤ Milliseconds d ≤ MaxInt32.
Proof. unfold Milliseconds, Millisecond. intros. split; [|done]. apply Z.quot_le_lower_bound; lia. Qed.

Lemma pub_option_building o options c c' :
  building options c → apply_option o c = inl c' → building (options ++ [Some o]) c'.
Proof.
  intros [Hb Hp Ht Hk Ha Hi Hto] E.
  assert (∀ p : option_ → bool, existsb p (options ++ [Some o]) = existsb p options || p (Some o)) as Hex.
  { intros p. rewrite existsb_app. simpl. by rewrite orb_false_r. }
  destruct o; unfold_pub_option; simpl in E; repeat case_match; simplify_eq/=;
    split; unfold timeout_of in *; rewrite ?Hex, ?foldl_app; cbn; rewrite ?orb_false_r, ?orb_true_r; try assumption; try done.
  - intros Hin. assert (existsb (String.eqb EmptyString) (s :: l) = true) as Hn; [|simpl in Hn; congruence].
    apply existsb_exists. exists EmptyString. split; [by apply list_elem_of_In|done].
  - by apply rejected_keys_None.
  - by apply negb_false_iff.
  - apply Milliseconds_bounds; lia.
Qed.
Lemma pub_options_building options' : ∀ options c c',
  building options c → apply_options options' c = inl c' → building (options ++ options') c'.
Proof.
  induction options' as [|[o|] options' IH]; intros options c c' Hb; simpl; [|..|done].
  { intros [= ->]. by rewrite app_nil_r. }
  destruct (apply_option o c) as [c1|] eqn:E; [|done]. intros Hc.
  rewrite (cons_middle (Some o) options options').
  rewrite (app_assoc options [Some o] options'). by eapply IH, Hc; eapply pub_option_building.
Qed.
Lemma default_building : building [] (defaultConfig driver_New).
Proof.
  split; try done; simpl.
  - apply not_elem_of_nil.
  - intros k. rewrite lookup_empty. by intros [].
Qed.
End accepted.

(** ** Properties *)

(** C35 (publisher configuration) A configuration [publish.New] accepts has
    brokers, none of them empty, a partitioner librdkafka knows, a delivery
    timeout of 1 ms to 2^31-1 ms, and no key the publisher manages.  It asks for
    acks=1 exactly when WithAcksLeader was given, and for idempotence exactly when
    neither WithAcksLeader nor WithoutIdempotence was, wherever they stand among
    the options.  While idempotence is on, an in-flight limit of the caller is a
    number of at most 5. *)
Theorem publisher_config_accepted {D F P : Type} (driver_New : P) `{GoRangeLaws} `{FloatOverflow} `{FmtFloat}
    (options : list (option (Option_ (DeliveryErrorFunc:=D) (FatalFunc:=F) (Factory:=P)))) c :
  build driver_New options = inl c →
  (brokers c ≠ []) ∧ (EmptyString ∉ brokers c) ∧
  partitioner c ∈ partitioners ∧
  1 ≤ Milliseconds (deliveryTimeout c) ≤ MaxInt32 ∧
  (∀ k, is_Some (kafkaConfig c !! k) → ManagedKeyReason k = None) ∧
  acksLeader c = existsb is_acks_leader options ∧
  idempotence c = negb (existsb drops_idempotence options) ∧
  (idempotence c = true → ∀ raw, kafkaConfig c !! in_flight_key = Some raw →
     ∃ n, integerValue raw = inl n ∧ n ≤ 5).
Proof.
  unfold build. destruct (apply_options options _) as [c1|] eqn:E; [|done].
  apply (pub_options_building options []) in E as [Hb Hp Ht Hk Ha Hi]; [|apply default_building].
  destruct (validate c1) eqn:Ev; [done|]. intros [= ->]. unfold validate in Ev.
  destruct (brokers c) as [|b bs] eqn:Eb; [done|]. simpl in Ev. split_and!; try done.
  - unfold partitioner_valid in Hp. apply existsb_exists in Hp as (p & Hin & ->%String.eqb_eq).
    by apply list_elem_of_In.
  - apply Ht.
  - apply Ht.
  - intros Hid raw Hraw. rewrite Hid in Ev. unfold checkInFlightForIdempotence in Ev.
    rewrite Hraw in Ev. destruct (integerValue raw) as [n|]; [|done]. exists n. split; [done|].
    destruct (Z.ltb_spec maxInFlightWithIdempotence n); [done|]. unfold maxInFlightWithIdempotence in *. lia.
Qed.

(** C21 (delivery guarantees) What librdkafka is told follows from the options
    alone: without WithAcksLeader and WithoutIdempotence every producer a
    publisher builds has acks=all and idempotence on, an idempotent producer never
    has acks=1, and the message timeout is that of the last WithDeliveryTimeout, 30
    seconds without one, in whole milliseconds, a positive 32-bit number. *)
Theorem delivery_guarantees {D F P : Type} (driver_New : P) `{GoRangeLaws} `{FloatOverflow} `{FmtFloat}
    `{KfkConfigLaws} (options : list (option (Option_ (DeliveryErrorFunc:=D) (FatalFunc:=F) (Factory:=P)))) c m :
  build driver_New options = inl c → producer_ConfigMap (driverConfig c) = inl m →
  config_get m "enable.idempotence" = Some (ABool (negb (existsb drops_idempotence options))) ∧
  config_get m "acks" = Some (AString (if existsb is_acks_leader options then "1" else "all")) ∧
  (config_get m "enable.idempotence" = Some (ABool true) → config_get m "acks" = Some (AString "all")) ∧
  config_get m "message.timeout.ms" = Some (AnInt (Milliseconds (timeout_of options))) ∧
  1 ≤ Milliseconds (timeout_of options) ≤ MaxInt32.
Proof.
  unfold build. destruct (apply_options options _) as [c1|] eqn:E; [|done].
  apply (pub_options_building options []) in E as [_ _ Ht _ Ha Hi Hto]; [|apply default_building].
  destruct (validate c1) eqn:Ev; [done|]. intros [= ->] Hm. simpl in Ha, Hi, Hto.
  pose proof (λ k v, producer_get_setting (driverConfig c) m k v Hm) as Hg.
  rewrite (Hg "enable.idempotence" (ABool (idempotence c))) by (right; right; by left).
  rewrite (Hg "acks" (AString (if acksLeader c then "1" else "all"))) by (right; by left).
  rewrite (Hg "message.timeout.ms" (AnInt (Milliseconds (deliveryTimeout c)))) by (do 4 right; by left).
  rewrite <-Hi, <-Ha, <-Hto. split_and!; [done|done| |done|apply Ht..].
  intros [= Hid]. rewrite Ha. rewrite Hi, negb_true_iff in Hid.
  destruct (existsb is_acks_leader options) eqn:Eal; [|done].
  apply existsb_exists in Eal as (o & Hin & Ho).
  assert (existsb drops_idempotence options = true) as Hdrop; [|congruence].
  apply existsb_exists. exists o. split; [done|]. by destruct o as [[]|].
Qed.

(** ** Witnesses *)
Module Ex_pub_options.
#[local] Instance overflow : FloatOverflow := float_overflow_amd64.
#[local] Instance fmt : FmtFloat := λ _, "x".
#[local] Existing Instance range_canonical.
#[local] Existing Instance Ex_config.config.
Definition options : list (option (Option_ (DeliveryErrorFunc:=unit) (FatalFunc:=unit) (Factory:=unit))) :=
  [Some (OptKafkaConfig (Some {[in_flight_key := AFloat64 (float_of_Z 5)]}));
   Some (OptBrokers ["kafka:9092"]); Some (OptDeliveryTimeout (10 * Second))].
Definition built : option (config (DeliveryErrorFunc:=unit) (FatalFunc:=unit) (Factory:=unit)) :=
  match build tt options with inl c => Some c | inr _ => None end.
Lemma built_ok : match built with
                 | Some c => match producer_ConfigMap (driverConfig c) with inl _ => true | _ => false end
                 | None => false
                 end = true.
Proof. by vm_compute. Qed.

Lemma publisher_config_accepted_witness :
  match build tt options with inl c => idempotence c = true | inr _ => False end.
Proof.
  pose proof built_ok as Hb. unfold built in Hb.
  destruct (build tt options) as [c|] eqn:E; [|discriminate Hb].
  exact (proj1 (proj2 (proj2 (proj2 (proj2 (proj2 (proj2
    (@publisher_config_accepted unit unit unit tt range_canonical range_canonical_laws overflow fmt
       options c E)))))))).
Defined.
Lemma delivery_guarantees_witness :
  match build tt options with
  | inl c => match producer_ConfigMap (driverConfig c) with
             | inl m => @config_get Ex_config.config Ex_config.laws m "message.timeout.ms" = Some (AnInt 10000)
             | inr _ => False
             end
  | inr _ => False
  end.
Proof.
  pose proof built_ok as Hb. unfold built in Hb.
  destruct (build tt options) as [c|] eqn:E; [|discriminate Hb].
  destruct (producer_ConfigMap (driverConfig c)) as [m|] eqn:Em; [|discriminate Hb].
  exact (proj1 (proj2 (proj2 (proj2 (@delivery_guarantees unit unit unit tt range_canonical range_canonical_laws
           overflow fmt Ex_config.config Ex_config.laws options c m E Em))))).
Defined.
End Ex_pub_options.
