(* ===== verification/PublisherConfig.v ===== *)
(** * The retry publisher's Kafka configuration (internal/subscribe/strategy/publisher_config.go)

    The consumer's configuration, less what only consumers use and what the
    publisher manages. *)
From S2P Require Import Prelude GoStrings GoErrors GoTime GoAny Kfk PubDriver PubOptions.

Definition consumerOnlyPrefixes : list string :=
  ["group."; "fetch."; "queued."; "auto."; "enable.auto."; "offset.store."].
Definition consumerOnlyKeys : list string :=
  ["session.timeout.ms"; "heartbeat.interval.ms"; "max.poll.interval.ms";
   "coordinator.query.interval.ms"; "partition.assignment.strategy"; "max.partition.fetch.bytes";
   "isolation.level"; "consume.callback.max.messages"; "enable.partition.eof"; "check.crcs"].

Definition isConsumerOnly (key : string) : bool :=
  existsb (String.eqb key) consumerOnlyKeys || existsb (HasPrefix key) consumerOnlyPrefixes.

(** The loop's [continue]s: whether a key is left out. *)
Definition left_out (key : string) : bool :=
  HasPrefix key "go." || isConsumerOnly key || bool_decide (is_Some (ManagedKeyReason key)).

Section publisher_config.
Context `{GoRange}.
Fixpoint copy_config (entries : list (string * goany)) (config : configmap) : configmap :=
  match entries with
  | [] => config
  | (key, value) :: entries =>
      copy_config entries (if left_out key then config else <[key := value]> config)
  end.
(** [PublisherConfig]; a nil map ranges as the empty one. *)
Definition PublisherConfig (kafkaConfig : option configmap) : configmap :=
  copy_config (go_range (default ∅ kafkaConfig)) ∅.
End publisher_config.

Lemma copy_config_lookup entries : ∀ m k, NoDup entries.*1 →
  copy_config entries m !! k =
    match list_find (λ kv, kv.1 = k) entries with
    | Some (_, kv) => if left_out k then m !! k else Some kv.2
    | None => m !! k
    end.
Proof.
  induction entries as [|[k' v] es IH]; intros m k; [done|].
  rewrite fmap_cons. intros [Hni Hnd]%NoDup_cons. cbn [copy_config list_find fst snd]. rewrite IH by done.
  destruct (decide (k' = k)) as [->|Hne].
  - destruct (list_find (λ kv, kv.1 = k) es) as [[i kv]|] eqn:Ef.
    + apply list_find_Some in Ef as (Ei & <- & _). destruct Hni. apply list_elem_of_fmap.
      exists kv. split; [done|]. by eapply list_elem_of_lookup_2.
    + simpl. destruct (left_out k); [done|]. by rewrite lookup_insert_eq.
  - assert ((if left_out k' then m else <[k':=v]> m) !! k = m !! k) as ->.
    { destruct (left_out k'); [done|]. by rewrite lookup_insert_ne. }
    by destruct (list_find (λ kv, kv.1 = k) es) as [[]|].
Qed.
Lemma PublisherConfig_lookup `{GoRangeLaws} m k :
  PublisherConfig m !! k = if left_out k then None else default ∅ m !! k.
Proof.
  unfold PublisherConfig. set (m' := default ∅ m). rewrite copy_config_lookup by apply NoDup_go_range.
  rewrite lookup_empty. destruct (list_find (λ kv, kv.1 = k) (go_range m')) as [[i [k' v]]|] eqn:Ef.
  - apply list_find_Some in Ef as (Ei & Ek & _). simpl in Ek. subst k'.
    apply list_elem_of_lookup_2, elem_of_go_range in Ei. by rewrite Ei.
  - apply list_find_None in Ef. destruct (m' !! k) as [v|] eqn:E; [|by destruct (left_out k)].
    apply elem_of_go_range in E. rewrite Forall_forall in Ef. by destruct (Ef _ E).
Qed.
Lemma PublisherConfig_unmanaged `{GoRangeLaws} m k :
  is_Some (PublisherConfig m !! k) → ManagedKeyReason k = None.
Proof.
  rewrite PublisherConfig_lookup. unfold left_out.
  destruct (ManagedKeyReason k) as [r|] eqn:E; [|done].
  rewrite (bool_decide_eq_true_2 (is_Some (Some r))) by eauto. rewrite orb_true_r. by intros [].
Qed.

(** C36 (retry publisher configuration) Whatever map the consumer was given, the
    publisher takes what [PublisherConfig] makes of it: the map has the consumer's
    value for every key but consumer-only ones, [go.] ones and those the publisher
    manages, and [publish.New] with the consumer's brokers and that map builds a
    configuration that holds both.  The one thing it can still refuse is an
    in-flight limit idempotence does not allow. *)
Theorem retry_publisher_accepted {D F P : Type} (driver_New : P) `{GoRangeLaws} `{FloatOverflow} `{FmtFloat}
    (bs : list string) (m : option configmap) :
  bs ≠ [] → EmptyString ∉ bs →
  let made := PublisherConfig m in
  let c := mkconfig (DeliveryErrorFunc:=D) (FatalFunc:=F) bs made true false PartitionerDefault
             defaultDeliveryTimeout None None driver_New in
  (∀ k, made !! k = if HasPrefix k "go." || isConsumerOnly k || bool_decide (is_Some (ManagedKeyReason k))
                    then None else default ∅ m !! k) ∧
  build driver_New [Some (OptBrokers bs); Some (OptKafkaConfig (Some made)); Some OptLogger] =
    match checkInFlightForIdempotence c with Some err => inr err | None => inl c end.
Proof.
  intros Hne Hem made c. split; [intros k; apply PublisherConfig_lookup|].
  assert (errors_Join (rejected_keys made) = None) as Hr.
  { apply rejected_keys_None. intros k. apply PublisherConfig_unmanaged. }
  destruct bs as [|b bs]; [done|].
  assert (existsb (String.eqb EmptyString) (b :: bs) = false) as Hex.
  { apply not_true_is_false. intros (x & Hin & <-%String.eqb_eq)%existsb_exists.
    by apply Hem, list_elem_of_In. }
  unfold build. cbn [apply_options]. unfold_pub_option. rewrite Hex, Hr. done.
Qed.

(** ** Witness *)
Module Ex_publisher_config.
#[local] Instance overflow : FloatOverflow := float_overflow_amd64.
#[local] Instance fmt : FmtFloat := λ _, "x".
#[local] Existing Instance range_canonical.
Definition consumer_config : configmap :=
  <["acks" := AString "0"]> (<["sasl.mechanism" := AString "PLAIN"]> {["fetch.min.bytes" := AnInt 1]}).
Lemma retry_publisher_accepted_witness :
  PublisherConfig (Some consumer_config) !! "sasl.mechanism" = Some (AString "PLAIN") ∧
  PublisherConfig (Some consumer_config) !! "acks" = None.
Proof.
  destruct (@retry_publisher_accepted unit unit unit tt range_canonical range_canonical_laws overflow fmt
              ["kafka:9092"] (Some consumer_config) ltac:(done)
              ltac:(by apply (bool_decide_unpack _); vm_compute)) as [H _].
  split; [by rewrite (H "sasl.mechanism")|by rewrite (H "acks")].
Defined.
End Ex_publisher_config.
