(* ===== verification/Delivery.v ===== *)
(** * Deliveries (publish/delivery.go, and the errors of publish/errors.go)

    The outcome of one record, the wait for it, and the wait for many. *)
From S2P Require Import Prelude GoStrings GoErrors GoTime PubDriver.

Definition ErrEncode : goerr := ENew "publish.ErrEncode" "publish: encoding failed".
Definition ErrTopicNotFound : goerr := ENew "publish.ErrTopicNotFound" "publish: topic not found".

(** [Result]. *)
Record Result_ : Type := mkResult { res_Topic : string; res_Partition : Z; res_Offset : Z }.
Definition zero_Result : Result_ := mkResult EmptyString 0 0.
(** [result] and [err] of a delivery, set together by [resolve]. *)
Definition outcome : Type := Result_ * option goerr.

(** [Delivery]: the record, and the outcome once [done] is closed. *)
Record Delivery : Type := mkDelivery { d_record : Record_; d_outcome : option outcome }.
Definition newDelivery (record : Record_) : Delivery := mkDelivery record None.
Definition resolve (o : outcome) (d : Delivery) : Delivery := mkDelivery (d_record d) (Some o).
Definition resolved (d : Delivery) : bool := bool_decide (is_Some (d_outcome d)).

(** [newDeliveryError]: the record from its delivery, the rest from its report. *)
Definition newDeliveryError (record : Record_) (partition : Z) (err : KafkaError) : goerr :=
  EDelivery (r_Topic record) partition (r_Key record) (r_Value record)
    (map (λ h, (h_Key h, h_Value h)) (r_Headers record)) (ke_Code err) (Some (kafka_err err)).

(** What one [Wait] meets: the outcome known when it is called, if any, the case
    its select takes otherwise, and [ctx.Err()] once it returned. *)
Record waiting : Type := mkWaiting {
  w_now : option outcome;
  w_select : outcome + goerr;
  w_ctx : option goerr;
}.

Definition Wait (w : waiting) : outcome :=
  match w_now w with
  | Some o => o
  | None => match w_select w with inl o => o | inr ctx_err => (zero_Result, Some ctx_err) end
  end.

(** The loop of [WaitAll]: the failures it collects. *)
Fixpoint wait_failures (ws : list waiting) : list (option goerr) :=
  match ws with
  | [] => []
  | w :: ws =>
      match (Wait w).2 with
      | None => wait_failures ws
      | Some err =>
          Some err ::
            match w_ctx w with
            | Some ctx_err => if errors_Is (Some err) ctx_err then [] else wait_failures ws
            | None => wait_failures ws
            end
      end
  end.
Definition WaitAll (ws : list waiting) : option goerr := errors_Join (wait_failures ws).

(** ** Properties *)

(** The deliveries [WaitAll] waits for: up to the one whose wait the context ended. *)
Fixpoint waited (ws : list waiting) : list waiting :=
  match ws with
  | [] => []
  | w :: ws =>
      w :: match (Wait w).2, w_ctx w with
           | Some err, Some ctx_err => if errors_Is (Some err) ctx_err then [] else waited ws
           | _, _ => waited ws
           end
  end.

Lemma errors_Is_Join_spec es t :
  errors_Is (errors_Join es) t = true ↔ ∃ e, Some e ∈ es ∧ errors_Is (Some e) t = true.
Proof.
  rewrite errors_Is_join, existsb_exists. split.
  - intros ([e|] & Hin & He); [|done]. exists e. split; [by apply list_elem_of_In|done].
  - intros (e & Hin & He). exists (Some e). split; [by apply list_elem_of_In|done].
Qed.
Lemma wait_failures_elem ws e : Some e ∈ wait_failures ws ↔ ∃ w, w ∈ waited ws ∧ (Wait w).2 = Some e.
Proof.
  induction ws as [|w ws IH]; cbn [wait_failures waited].
  { split; [intros []%elem_of_nil|intros (w & []%elem_of_nil & _)]. }
  destruct ((Wait w).2) as [err|] eqn:E.
  - assert (Some e ∈ match w_ctx w with
            | Some c => if errors_Is (Some err) c then [] else wait_failures ws
            | None => wait_failures ws end ↔
            ∃ w', w' ∈ match w_ctx w with
            | Some c => if errors_Is (Some err) c then [] else waited ws
            | None => waited ws end ∧ (Wait w').2 = Some e) as Hrest.
    { destruct (w_ctx w) as [c|]; [destruct (errors_Is (Some err) c)|]; [|exact IH|exact IH].
      split; [intros []%elem_of_nil|intros (w' & []%elem_of_nil & _)]. }
    rewrite elem_of_cons, Hrest. split.
    + intros [[= ->]|(w' & Hin & Hw')]; [by exists w; split; [left|]|by exists w'; split; [right|]].
    + intros (w' & [->|Hin]%elem_of_cons & Hw'); [left; congruence|right; eauto].
  - rewrite IH. split; intros (w' & Hin & Hw').
    + exists w'. split; [by right|done].
    + apply elem_of_cons in Hin as [->|Hin]; [congruence|eauto].
Qed.
Lemma wait_failures_None ws : Forall (λ e, e = None) (wait_failures ws) ↔
  Forall (λ w, (Wait w).2 = None) ws.
Proof.
  induction ws as [|w ws IH]; cbn [wait_failures]; [by split|].
  destruct ((Wait w).2) eqn:E.
  - split; inversion 1; congruence.
  - rewrite IH. split; [by constructor|by inversion 1].
Qed.

(** [WaitAll] returns nil exactly when every delivery was
    acknowledged.  Its error is, for [errors.Is], every failure it met and nothing
    else; and it meets every delivery's outcome unless the context ended a wait. *)
Theorem WaitAll_outcomes (ws : list waiting) :
  (WaitAll ws = None ↔ Forall (λ w, (Wait w).2 = None) ws) ∧
  (∀ target, errors_Is (WaitAll ws) target = true ↔
     ∃ w err, w ∈ waited ws ∧ (Wait w).2 = Some err ∧ errors_Is (Some err) target = true) ∧
  (Forall (λ w, w_ctx w = None) ws → waited ws = ws).
Proof.
  unfold WaitAll. split; [by rewrite errors_Join_None, wait_failures_None|]. split.
  - intros target. rewrite errors_Is_Join_spec. setoid_rewrite wait_failures_elem. split.
    + intros (e & (w & Hw & He) & Ht). eauto.
    + intros (w & err & Hw & He & Ht). eauto.
  - induction 1 as [|w ws Hw _ IH]; [done|]. simpl. rewrite Hw, IH. by destruct ((Wait w).2).
Qed.
