(* ===== verification/Writer.v ===== *)
(** * Topics, encoders and writers (publish/topic.go, codec.go, writer.go)

    A writer encodes a key and a value and hands the record to its publisher's
    [enqueue], which is an argument here: any operation on the publisher's state
    that returns a delivery or an error. *)
From S2P Require Import Prelude GoStrings GoErrors GoTime PubDriver Delivery.

(** ** Encoders *)
Definition StringKey (key : string) : bytes + goerr := inl (Some key).
Definition BytesKey (key : bytes) : bytes + goerr := inl key.
Definition Int64Key (key : Z) : bytes + goerr := inl (Some (FormatInt key)).
(** [Marshal] is [json.Marshal]; [typ] is the name of the value's type. *)
Definition JSONValue {V} (Marshal : V → bytes + goerr) (typ : string) (value : V) : bytes + goerr :=
  match Marshal value with
  | inl encoded => inl encoded
  | inr err => inr (EErrorf ("encoding " +:+ typ +:+ " as JSON: " +:+ error_text err) [err])
  end.
Definition RawValue (value : bytes) : bytes + goerr :=
  match value with
  | None => inr (errors_New "nil value: a nil value is a tombstone, write it with Delete or SendDelete")
  | Some _ => inl value
  end.

(** ** Topics *)

(** [Topic].  A nil function is [None]. *)
Record Topic (K V : Type) : Type := mkTopic {
  Name : string;
  EncodeKey : option (K → bytes + goerr);
  EncodeValue : option (V → bytes + goerr);
  Headers : list Header;
}.
Arguments mkTopic {K V}. Arguments Name {K V}. Arguments EncodeKey {K V}.
Arguments EncodeValue {K V}. Arguments Headers {K V}.

Definition topic_validate {K V} (t : Topic K V) : option goerr :=
  let required (missing : bool) (field : string) : list (option goerr) :=
    if missing then [Some (errors_New ("the " +:+ field +:+ " field is required"))] else [] in
  let problems :=
    required (String.eqb (Name t) EmptyString) "Name" ++
    required (match EncodeKey t with None => true | _ => false end) "EncodeKey" ++
    required (match EncodeValue t with None => true | _ => false end) "EncodeValue" in
  match errors_Join problems with
  | None => None
  | Some err => Some (EErrorf ("publish: invalid topic " +:+ Quote (Name t) +:+ ": " +:+ error_text err) [err])
  end.

(** ** Writers *)

(** A [Writer] is made by [Bind], which accepts only a valid topic: the encoders
    are there. *)
Record Writer (K V : Type) : Type := mkWriter {
  wr_Name : string;
  wr_EncodeKey : K → bytes + goerr;
  wr_EncodeValue : V → bytes + goerr;
  wr_Headers : list Header;
}.
Arguments mkWriter {K V}. Arguments wr_Name {K V}. Arguments wr_EncodeKey {K V}.
Arguments wr_EncodeValue {K V}. Arguments wr_Headers {K V}.

(** [Bind]'s writer, and the topics [Ping] checks; an invalid topic panics with
    the error. *)
Definition Bind {K V} (t : Topic K V) (topics : list string) :
    Writer K V * list string + goerr :=
  match topic_validate t with
  | Some err => inr err
  | None =>
      match EncodeKey t, EncodeValue t with
      | Some ek, Some ev =>
          inl (mkWriter (Name t) ek ev (Headers t),
               if existsb (String.eqb (Name t)) topics then topics else topics ++ [Name t])
      | _, _ => inr (errors_New "unreachable")
      end
  end.

Section writer.
Context {K V S D : Type} (enqueue : Record_ → S → (D + goerr) * S).
Implicit Types w : Writer K V.

(** [record]. *)
Definition record w (key value : bytes) (headers : list Header) : Record_ :=
  mkRecord (wr_Name w) key value (wr_Headers w ++ headers).

(** An [ErrEncode] with [%w: what for topic: %w]. *)
Definition encode_err w (what : string) (err : goerr) : goerr :=
  EErrorf (error_text ErrEncode +:+ ": " +:+ what +:+ " for " +:+ wr_Name w +:+ ": " +:+ error_text err)
    [ErrEncode; err].
Definition nil_value_err w : goerr :=
  EErrorf (error_text ErrEncode +:+ ": value for " +:+ wr_Name w +:+
           " encoded to nil; use SendDelete for a tombstone") [ErrEncode].

Definition Send w (key : K) (value : V) (headers : list Header) : ST S (D + goerr) :=
  match wr_EncodeKey w key with
  | inr err => mret (inr (encode_err w "key" err))
  | inl encodedKey =>
      match wr_EncodeValue w value with
      | inr err => mret (inr (encode_err w "value" err))
      | inl None => mret (inr (nil_value_err w))
      | inl encodedValue => enqueue (record w encodedKey encodedValue headers)
      end
  end.
Definition SendDelete w (key : K) (headers : list Header) : ST S (D + goerr) :=
  match wr_EncodeKey w key with
  | inr err => mret (inr (encode_err w "key" err))
  | inl encodedKey => enqueue (record w encodedKey None headers)
  end.

(** [wait] is [Delivery.Wait] under the call's context. *)
Context (wait : D → S → outcome * S).
Definition await (sent : D + goerr) : ST S (option goerr) :=
  match sent with
  | inr err => mret (Some err)
  | inl delivery => o ← wait delivery; mret o.2
  end.
Definition Publish w key value headers : ST S (option goerr) :=
  sent ← Send w key value headers; await sent.
Definition Delete w key headers : ST S (option goerr) :=
  sent ← SendDelete w key headers; await sent.
End writer.

(** ** Properties *)

(** [Send] hands [enqueue] exactly one record, on the
    writer's topic, with the encoded key, the encoded value and the topic's headers
    before the call's, and only when both encode and the value is not nil; it
    returns what [enqueue] returns.  Otherwise nothing is sent, the publisher is as
    it was, and the error is ErrEncode and wraps the encoder's error.  A tombstone
    comes from [SendDelete] alone, and always has a nil value. *)
Theorem Send_records {K V S D : Type} (w : Writer K V) (key : K) (value : V) (headers : list Header)
    (s : S) :
  (∃ k v, wr_EncodeKey w key = inl k ∧ wr_EncodeValue w value = inl (Some v) ∧
     ∀ enqueue : Record_ → S → (D + goerr) * S, Send enqueue w key value headers s =
       enqueue (mkRecord (wr_Name w) k (Some v) (wr_Headers w ++ headers)) s) ∨
  (∃ err, errors_Is (Some err) ErrEncode = true ∧
     (∀ e, wr_EncodeKey w key = inr e ∨
           (∃ k, wr_EncodeKey w key = inl k ∧ wr_EncodeValue w value = inr e) → e ∈ unwrap err) ∧
     ∀ enqueue : Record_ → S → (D + goerr) * S, Send enqueue w key value headers s = (inr err, s)).
Proof.
  unfold Send. destruct (wr_EncodeKey w key) as [k|e] eqn:Ek.
  - destruct (wr_EncodeValue w value) as [[v|]|e] eqn:Ev.
    + left. exists k, v. done.
    + right. exists (nil_value_err w). split_and!; [done|intros e [?|(? & ? & ?)]; done|done].
    + right. exists (encode_err w "value" e). split_and!; [done| |done].
      intros e' [?|(? & ? & [= ->])]; [done|right; by left].
  - right. exists (encode_err w "key" e). split_and!; [done| |done].
    intros e' [[= ->]|(? & ? & ?)]; [right; by left|done].
Qed.

(** [SendDelete] hands [enqueue] one record with a nil value and
    the encoded key, or fails with ErrEncode and sends nothing. *)
Theorem SendDelete_tombstone {K V S D : Type} (w : Writer K V) (key : K) (headers : list Header) (s : S)
    (enqueue : Record_ → S → (D + goerr) * S) :
  match wr_EncodeKey w key with
  | inl k => SendDelete enqueue w key headers s =
             enqueue (mkRecord (wr_Name w) k None (wr_Headers w ++ headers)) s
  | inr e => ∃ err, SendDelete enqueue w key headers s = (inr err, s) ∧
             errors_Is (Some err) ErrEncode = true ∧ e ∈ unwrap err
  end.
Proof.
  unfold SendDelete. destruct (wr_EncodeKey w key) as [k|e]; [done|].
  eexists. split_and!; [done|done|right; by left].
Qed.
