(* ===== verification/Publisher.v ===== *)
(** * The publisher (publish/publisher.go)

    Goroutines that enqueue records, the one report goroutine, goroutines that
    close the publisher, and librdkafka, interleaved one atomic step at a time.

    librdkafka is the [publishdriver.Producer] interface as producer.go documents
    it: a record [Produce] accepts is outstanding until its report is sent on
    [Reports]; [Len] and [Flush] count what is outstanding; [Close] drops the rest
    and closes [Reports].  What a call returns and when a report comes are inputs
    of the schedule. *)
From S2P Require Import Prelude GoStrings GoErrors GoTime GoAny RWMutex Kfk PubDriver PubOptions Delivery.

(** A report's token: the delivery [enqueue] made, by the goroutine that made it
    (each enqueues one record), or a value that is not a delivery. *)
Inductive token : Type := TDelivery (i : nat) | TForeign (typ : string).

(** Log lines and callbacks, in order.  The log lines are named by their code. *)
Inductive pevent : Type :=
  | LAccepted (i : nat)                                       (* Produce returned nil *)
  | LUnmatched (reason : string)
  | LDeliveryFailed (i : nat) (err : goerr)
  | LCallback (i : nat) (err : goerr)                         (* onDeliveryError *)
  | LCallbackPanic (recovered : string)
  | LResolved (i : nat) (o : outcome)
  | LBrokerDown
  | LStillDown
  | LBrokerRestored (suppressed : Z)
  | LKafkaError (err : KafkaError)
  | LFatal (err : goerr)
  | LFatalAgain (err : KafkaError)
  | LFatalHandler (err : goerr)                               (* onFatal *)
  | LPurging (remaining : nat)
  | LPurgeFailed (err : goerr).

(** Where a goroutine stands: in [enqueue], or in [Close]. *)
Inductive sender_pc : Type :=
  | SStart                             (* before RLock *)
  | SLocked                            (* RLock held, closed not read *)
  | SOpen                              (* closed was false; fatal not read *)
  | SReady                             (* fatal was nil; before Produce *)
  | SReturning (r : option goerr)      (* the deferred RUnlock to come; nil: the delivery *)
  | SDone (r : option goerr).
Inductive closer_pc : Type :=
  | KStart                             (* before Lock *)
  | KLocked                            (* Lock held, closed not read *)
  | KAlready                           (* closed was true: Unlock to come *)
  | KWaiting                           (* before <-p.closeDone *)
  | KSet                               (* closed set: Unlock to come *)
  | KUnlocked                          (* before drain's Len *)
  | KDrain (remaining : nat)           (* drain's loop condition *)
  | KFlush (timeout : Z)               (* drain's Flush *)
  | KPurge (remaining : nat)           (* before Purge *)
  | KFinalFlush (remaining : nat)      (* before Flush(purgeReportTimeout) *)
  | KClosing (remaining rest : nat)    (* before producer.Close; the last Flush counted [rest] *)
  | KReports (remaining rest : nat)    (* before <-p.reportsDone *)
  | KDone (first : option (nat * nat)) (err : option goerr).
Inductive thread : Type :=
  | Sender (record : Record_) (pc : sender_pc)
  | Closer (pc : closer_pc).

Definition holds (t : thread) : holding :=
  match t with
  | Sender _ (SLocked | SOpen | SReady | SReturning _) => ReadLock
  | Closer (KLocked | KAlready | KSet) => WriteLock
  | _ => NoLock
  end.

(** The report goroutine: receiving; about to call [onDeliveryError], or to
    resolve; about to call [onFatal]; at its end. *)
Inductive reporter_pc : Type :=
  | RReceive
  | RFailed (i : nat) (o : Result_) (err : goerr)
  | RResolve (i : nat) (o : Result_) (err : goerr)
  | RFatal (err : goerr)
  | RDone.

(** [Publisher], with the goroutines, what librdkafka holds, and what was logged. *)
Record pub : Type := mkPub {
  threads : gmap nat thread;
  reporter : reporter_pc;
  closed : bool;
  closeErr : option (option goerr);          (* set when closeDone is closed *)
  fatal : option goerr;
  brokerDown : bool;
  suppressed : Z;
  deliveries : gmap nat Delivery;            (* the deliveries of accepted records *)
  outstanding : gset nat;                    (* accepted, and not yet reported *)
  events : list (Event token);               (* sent on Reports, not yet received *)
  producer_closed : bool;
  dropped : gset nat;                        (* outstanding when the producer was closed *)
  log : list pevent;
  (** history: the reports librdkafka has sent on Reports, in order.  No step reads
      it: it is there to say what became of each. *)
  reported : list (Report token);
}.

(** Assignments. *)
Definition set_thread i t (s : pub) : pub :=
  mkPub (<[i := t]> (threads s)) (reporter s) (closed s) (closeErr s) (fatal s) (brokerDown s)
    (suppressed s) (deliveries s) (outstanding s) (events s) (producer_closed s) (dropped s) (log s) (reported s).
Definition set_reporter r (s : pub) : pub :=
  mkPub (threads s) r (closed s) (closeErr s) (fatal s) (brokerDown s)
    (suppressed s) (deliveries s) (outstanding s) (events s) (producer_closed s) (dropped s) (log s) (reported s).
Definition set_closed (s : pub) : pub :=
  mkPub (threads s) (reporter s) true (closeErr s) (fatal s) (brokerDown s)
    (suppressed s) (deliveries s) (outstanding s) (events s) (producer_closed s) (dropped s) (log s) (reported s).
Definition set_closeErr err (s : pub) : pub :=
  mkPub (threads s) (reporter s) (closed s) (Some err) (fatal s) (brokerDown s)
    (suppressed s) (deliveries s) (outstanding s) (events s) (producer_closed s) (dropped s) (log s) (reported s).
Definition set_fatal err (s : pub) : pub :=
  mkPub (threads s) (reporter s) (closed s) (closeErr s) (Some err) (brokerDown s)
    (suppressed s) (deliveries s) (outstanding s) (events s) (producer_closed s) (dropped s) (log s) (reported s).
Definition set_broker b n (s : pub) : pub :=
  mkPub (threads s) (reporter s) (closed s) (closeErr s) (fatal s) b
    n (deliveries s) (outstanding s) (events s) (producer_closed s) (dropped s) (log s) (reported s).
Definition set_deliveries ds (s : pub) : pub :=
  mkPub (threads s) (reporter s) (closed s) (closeErr s) (fatal s) (brokerDown s)
    (suppressed s) ds (outstanding s) (events s) (producer_closed s) (dropped s) (log s) (reported s).
Definition set_outstanding o (s : pub) : pub :=
  mkPub (threads s) (reporter s) (closed s) (closeErr s) (fatal s) (brokerDown s)
    (suppressed s) (deliveries s) o (events s) (producer_closed s) (dropped s) (log s) (reported s).
Definition set_events es (s : pub) : pub :=
  mkPub (threads s) (reporter s) (closed s) (closeErr s) (fatal s) (brokerDown s)
    (suppressed s) (deliveries s) (outstanding s) es (producer_closed s) (dropped s) (log s) (reported s).
Definition close_producer (s : pub) : pub :=
  mkPub (threads s) (reporter s) (closed s) (closeErr s) (fatal s) (brokerDown s)
    (suppressed s) (deliveries s) ∅ (events s) true (dropped s ∪ outstanding s) (log s) (reported s).
Definition say (e : pevent) (s : pub) : pub :=
  mkPub (threads s) (reporter s) (closed s) (closeErr s) (fatal s) (brokerDown s)
    (suppressed s) (deliveries s) (outstanding s) (events s) (producer_closed s) (dropped s) (log s ++ [e])
    (reported s).

(** librdkafka sends an event on Reports. *)
Definition event_report (ev : Event token) : option (Report token) :=
  match ev with EReport r => Some r | EClientError _ => None end.
Definition send_event (ev : Event token) (s : pub) : pub :=
  mkPub (threads s) (reporter s) (closed s) (closeErr s) (fatal s) (brokerDown s)
    (suppressed s) (deliveries s) (outstanding s) (events s ++ [ev]) (producer_closed s) (dropped s) (log s)
    (reported s ++ option_list (event_report ev)).

(** A publisher just made, with goroutines about to call it. *)
Definition initial (ts : gmap nat thread) : pub :=
  mkPub ts RReceive false None None false 0 ∅ ∅ [] false ∅ [] [].

(** What a step is given from outside: what the producer or the context answers. *)
Inductive input : Type :=
  | INone
  | IError (err : option goerr)                       (* Produce, Purge *)
  | ICount (n : nat)                                  (* Len, Flush *)
  | ICtx (ended : bool) (until : option Z).           (* ctx.Err() and ctx.Deadline() in drain *)

Inductive action : Type :=
  | AThread (i : nat) (x : input)
  | AReporter (panics : option string)                (* what a callback panics with *)
  (** librdkafka reports an outstanding record, or an error about the client *)
  | AReport (i : nat) (partition offset : Z) (err : option KafkaError)
  | AClientError (err : KafkaError)
  (** a report the contract excludes: of no delivery, or of a reported one *)
  | AStray (r : Report token).

Definition drainFlushTimeout : Z := 100 * Millisecond.
Definition purgeReportTimeout : Z := Second.
(** The timeout of a Flush in [drain], [until] being [time.Until] the deadline. *)
Definition drain_timeout (until : option Z) : Z :=
  match until with None => drainFlushTimeout | Some d => Z.min drainFlushTimeout d end.

(** The error of a record that was not enqueued. *)
Definition not_enqueued (record : Record_) (err : goerr) : goerr :=
  wrapf ("publish: record for " +:+ r_Topic record +:+ " not enqueued") err.
(** [Close]'s error. *)
Definition close_error (remaining : nat) (fatal : option goerr) : option goerr :=
  errors_Join
    ((if (0 <? remaining)%nat then
        [Some (EErrorf (error_text ErrNotDelivered +:+ ": " +:+ Itoa (Z.of_nat remaining) +:+ " record(s)")
                 [ErrNotDelivered])]
      else []) ++
     match fatal with Some err => [Some err] | None => [] end).

(** [noteFatal]'s error: it is ErrFatal, whatever the driver attached. *)
Definition fatal_error (err : KafkaError) : goerr :=
  let e := kafka_err err in
  if errors_Is (Some e) ErrFatal then e
  else EErrorf (error_text ErrFatal +:+ ": " +:+ error_text e) [ErrFatal; e].

Section steps.
Context {D F P : Type} (cfg : config (DeliveryErrorFunc:=D) (FatalFunc:=F) (Factory:=P)).
Implicit Types s : pub.

(** *** enqueue *)
Definition enqueue_step (i : nat) (record : Record_) (pc : sender_pc) (x : input) s : option pub :=
  let go pc s := Some (set_thread i (Sender record pc) s) in
  match pc with
  | SStart => if can_rlock holds (threads s) then go SLocked s else None
  | SLocked => if closed s then go (SReturning (Some ErrClosed)) s else go SOpen s
  | SOpen =>
      match fatal s with
      | Some err => go (SReturning (Some (not_enqueued record err))) s
      | None => go SReady s
      end
  | SReady =>
      match x with
      | IError (Some err) => go (SReturning (Some (not_enqueued record err))) s
      | IError None =>
          if producer_closed s then None
          else go (SReturning None)
                 (say (LAccepted i) (set_outstanding ({[i]} ∪ outstanding s)
                    (set_deliveries (<[i := newDelivery record]> (deliveries s)) s)))
      | _ => None
      end
  | SReturning r => go (SDone r) s
  | SDone _ => None
  end.

(** *** Close *)
(** A count of [Len] or [Flush] is zero only when nothing is outstanding. *)
Definition count_ok (n : nat) s : bool := (0 <? n)%nat || bool_decide (outstanding s = ∅).

Definition close_step (i : nat) (pc : closer_pc) (x : input) s : option pub :=
  let go pc s := Some (set_thread i (Closer pc) s) in
  match pc, x with
  | KStart, _ => if can_lock holds (threads s) then go KLocked s else None
  | KLocked, _ => if closed s then go KAlready s else go KSet (set_closed s)
  | KAlready, _ => go KWaiting s
  | KWaiting, _ => match closeErr s with Some err => go (KDone None err) s | None => None end
  | KSet, _ => go KUnlocked s
  | KUnlocked, ICount n => if count_ok n s then go (KDrain n) s else None
  | KDrain n, ICtx ended until =>
      if (0 <? n)%nat && negb ended then go (KFlush (drain_timeout until)) s
      else if (0 <? n)%nat then go (KPurge n) (say (LPurging n) s)
      else go (KClosing 0 0) s
  | KFlush _, ICount n => if count_ok n s then go (KDrain n) s else None
  | KPurge n, IError err =>
      go (KFinalFlush n) (match err with Some err => say (LPurgeFailed err) s | None => s end)
  | KFinalFlush n, ICount rest => if count_ok rest s then go (KClosing n rest) s else None
  | KClosing n rest, _ => go (KReports n rest) (close_producer s)
  | KReports n rest, _ =>
      match reporter s with
      | RDone => let err := close_error n (fatal s) in
                 go (KDone (Some (n, rest)) err) (set_closeErr err s)
      | _ => None
      end
  | _, _ => None
  end.

(** *** The report goroutine *)
Definition noteConnected s : pub :=
  if brokerDown s then set_broker false 0 (say (LBrokerRestored (suppressed s)) s) else s.

(** The handler runs in a step of its own. *)
Definition invokeFatalHandler (err : goerr) s : pub :=
  match onFatal cfg with Some _ => set_reporter (RFatal err) s | None => s end.
Definition noteFatal (err : KafkaError) s : pub :=
  match fatal s with
  | Some _ => say (LFatalAgain err) s
  | None =>
      let e := fatal_error err in
      let s := say (LFatal e) (set_fatal e s) in
      invokeFatalHandler e s
  end.
Definition noteClientError (err : KafkaError) s : pub :=
  if ke_Fatal err then noteFatal err s
  else if ke_Disconnected err then
    if brokerDown s then set_broker true (wrap64 (suppressed s + 1)) (say LStillDown s)
    else set_broker true (suppressed s) (say LBrokerDown s)
  else say (LKafkaError err) s.

(** [delivery.resolve], logged. *)
Definition resolve_delivery (i : nat) (o : outcome) s : pub :=
  say (LResolved i o) (set_deliveries (alter (resolve o) i (deliveries s)) s).

Definition logUnmatchedReport (reason : string) s : pub := say (LUnmatched reason) s.
(** [settle], up to the callback; a token of a delivery that was never made
    does not exist. *)
Definition settle (r : Report token) s : option pub :=
  match rep_Token r with
  | TForeign typ => Some (logUnmatchedReport ("its token is a " +:+ typ +:+ ", not a delivery") s)
  | TDelivery i =>
      delivery ← deliveries s !! i;
      if resolved delivery then
        Some (logUnmatchedReport ("second report for a record already resolved, topic " +:+
                                  r_Topic (d_record delivery)) s)
      else
        let result := mkResult (r_Topic (d_record delivery)) (rep_Partition r) (rep_Offset r) in
        match rep_Err r with
        | None => Some (resolve_delivery i (result, None) (noteConnected s))
        | Some e =>
            let err := newDeliveryError (d_record delivery) (rep_Partition r) e in
            let s := say (LDeliveryFailed i err) s in
            Some (set_reporter
                    match onDeliveryError cfg with
                    | Some _ => RFailed i result err
                    | None => RResolve i result err
                    end s)
        end
  end.

Definition say_panic (panics : option string) s : pub :=
  match panics with Some v => say (LCallbackPanic v) s | None => s end.

Definition report_step (panics : option string) s : option pub :=
  match reporter s with
  | RReceive =>
      match events s with
      | EReport r :: es => settle r (set_events es s)
      | EClientError err :: es => Some (noteClientError err (set_events es s))
      | [] => if producer_closed s then Some (set_reporter RDone s) else None
      end
  | RFailed i result err =>
      Some (set_reporter (RResolve i result err) (say_panic panics (say (LCallback i err) s)))
  | RResolve i result err =>
      Some (set_reporter RReceive (resolve_delivery i (result, Some err) s))
  | RFatal err => Some (set_reporter RReceive (say_panic panics (say (LFatalHandler err) s)))
  | RDone => None
  end.

(** *** All of it *)
Definition stray_ok (r : Report token) s : bool :=
  match rep_Token r with
  | TForeign _ => true
  | TDelivery i => bool_decide (is_Some (deliveries s !! i)) && bool_decide (i ∉ outstanding s)
  end.
Definition step (a : action) s : option pub :=
  match a with
  | AThread i x =>
      match threads s !! i with
      | Some (Sender record pc) => enqueue_step i record pc x s
      | Some (Closer pc) => close_step i pc x s
      | None => None
      end
  | AReporter panics => report_step panics s
  | AReport i partition offset err =>
      if negb (producer_closed s) && bool_decide (i ∈ outstanding s) then
        Some (set_outstanding (outstanding s ∖ {[i]})
                (send_event (EReport (mkReport (TDelivery i) partition offset err)) s))
      else None
  | AClientError err =>
      if producer_closed s then None else Some (send_event (EClientError err) s)
  | AStray r =>
      if negb (producer_closed s) && stray_ok r s then Some (send_event (EReport r) s)
      else None
  end.
Fixpoint run (actions : list action) s : option pub :=
  match actions with
  | [] => Some s
  | a :: actions => s ← step a s; run actions s
  end.

Definition fresh (t : thread) : Prop :=
  match t with Sender _ SStart | Closer KStart => True | _ => False end.
(** What a publisher with these goroutines can come to. *)
Inductive reachable (ts : gmap nat thread) : pub → Prop :=
  | reach_initial : map_Forall (λ _ t, fresh t) ts → reachable ts (initial ts)
  | reach_step a s s' : reachable ts s → step a s = Some s' → reachable ts s'.

(** [Err]. *)
Definition Err s : option goerr := fatal s.

Lemma run_reachable ts actions : ∀ s s', reachable ts s → run actions s = Some s' → reachable ts s'.
Proof.
  induction actions as [|a actions IH]; intros s s' Hs; simpl; [by intros [= ->]|].
  destruct (step a s) as [s1|] eqn:E; [|done]. simpl. by eapply IH, reach_step.
Qed.
End steps.

(** Unfold what the report goroutine does in a step. *)
Tactic Notation "unfold_report" :=
  unfold report_step, settle, logUnmatchedReport, noteClientError, noteFatal, invokeFatalHandler,
    noteConnected, say_panic, resolve_delivery.
Tactic Notation "unfold_report" "in" hyp(H) :=
  unfold report_step, settle, logUnmatchedReport, noteClientError, noteFatal, invokeFatalHandler,
    noteConnected, say_panic, resolve_delivery in H.
Tactic Notation "unfold_report" "in" "*" :=
  unfold report_step, settle, logUnmatchedReport, noteClientError, noteFatal, invokeFatalHandler,
    noteConnected, say_panic, resolve_delivery in *.
