(* ===== verification/PubInvariants.v ===== *)
(** * Invariants of the publisher

    What holds in every state a publisher can come to: of the lock and the
    shutdown ([Shutdown]), and of the deliveries and the log about them
    ([Accepted], [Settled]). *)
From S2P Require Import Prelude GoStrings GoErrors GoTime GoAny RWMutex Kfk PubDriver PubOptions Delivery Publisher.

(** ** Locks and shutdown *)

(** The one [Close] that found the publisher open, and how far it is. *)
Definition owner (t : thread) : bool :=
  match t with
  | Closer (KSet | KUnlocked | KDrain _ | KFlush _ | KPurge _ | KFinalFlush _ | KClosing _ _ |
            KReports _ _ | KDone (Some _) _) => true
  | _ => false
  end.
Definition owner_past (t : thread) : bool :=
  match t with Closer (KReports _ _ | KDone (Some _) _) => true | _ => false end.
Definition late (t : thread) : bool :=
  match t with Closer (KAlready | KWaiting | KDone None _) => true | _ => false end.
Definition enqueuing (t : thread) : bool :=
  match t with Sender _ (SOpen | SReady) => true | _ => false end.

Section shutdown.
Context {D F P : Type} (cfg : config (DeliveryErrorFunc:=D) (FatalFunc:=F) (Factory:=P)).
Implicit Types s : pub.

Record Shutdown s : Prop := {
  sd_lock : exclusive holds (threads s);
  sd_open i t : threads s !! i = Some t → enqueuing t = true → closed s = false;
  sd_owner i t : threads s !! i = Some t → owner t = true →
    closed s = true ∧ producer_closed s = owner_past t;
  sd_unique i j t u : threads s !! i = Some t → threads s !! j = Some u →
    owner t = true → owner u = true → i = j;
  sd_late i t : threads s !! i = Some t → late t = true → closed s = true;
  sd_closed : closed s = true → ∃ i t, threads s !! i = Some t ∧ owner t = true;
  sd_producer : producer_closed s = true → closed s = true;
  sd_done i first err : threads s !! i = Some (Closer (KDone first err)) → closeErr s = Some err;
  sd_closeErr err : closeErr s = Some err → reporter s = RDone ∧
    ∀ i t, threads s !! i = Some t → owner t = true → ∃ nr, t = Closer (KDone (Some nr) err);
  sd_reporter : reporter s = RDone → producer_closed s = true ∧ events s = [];
}.

Lemma initial_Shutdown ts : map_Forall (λ _ t, fresh t) ts → Shutdown (initial ts).
Proof.
  intros Hf. split; simpl; try done.
  - intros i j t u Hi _ _ Hh. specialize (Hf i t Hi). by destruct t as [? []|[]].
  - intros i t Hi Ho. specialize (Hf i t Hi). by destruct t as [? []|[]].
  - intros i j t u Hi _ Ho. specialize (Hf i t Hi). by destruct t as [? []|[]].
  - intros i t Hi Ho. specialize (Hf i t Hi). by destruct t as [? []|[]].
  - intros i first err Hi. by specialize (Hf i _ Hi).
Qed.

(** A step of a goroutine other than the one that sets [closed]. *)
Lemma Shutdown_thread s s' i t t' :
  Shutdown s → threads s !! i = Some t →
  threads s' = <[i := t']> (threads s) ∧ reporter s' = reporter s ∧ events s' = events s ∧
    closed s' = closed s →
  may_hold holds (threads s) t t' →
  (enqueuing t' = true → closed s = false) → (late t' = true → closed s = true) →
  owner t' = owner t →
  producer_closed s' = (if owner t then owner_past t' else producer_closed s) →
  (owner_past t = true → owner_past t' = true) →
  match t' with
  | Closer (KDone (Some _) err) => closeErr s' = Some err ∧ reporter s = RDone ∧ owner_past t = true ∧
                                   closeErr s = None
  | Closer (KDone None err) => closeErr s = Some err ∧ closeErr s' = closeErr s
  | _ => closeErr s' = closeErr s
  end →
  (∀ first err, t ≠ Closer (KDone first err)) →
  Shutdown s'.
Proof.
  intros Hsd Et (Hth & Hrep & Hev & Hcl) Hh Henq Hlate Hown Hpc Hpast Herr Hnd.
  pose proof Hsd as [Hl Ho Hw Hu Hla Hc Hp Hd Hce Hr].
  assert (producer_closed s = true → producer_closed s' = true) as Hmono.
  { rewrite Hpc. destruct (owner t) eqn:Eo; [|done]. destruct (Hw i t Et Eo) as [_ ->]. done. }
  split; rewrite ?Hth, ?Hrep, ?Hev, ?Hcl.
  - by eapply exclusive_insert.
  - intros j u [[<- <-]|[Hij Ej]]%lookup_insert_Some Hu'; eauto.
  - intros j u [[<- <-]|[Hij Ej]]%lookup_insert_Some Hu'.
    + rewrite Hown in Hu'. split; [by eapply Hw|]. by rewrite Hpc, Hu'.
    + destruct (Hw j u Ej Hu') as [Hc' Hpj]. split; [done|]. rewrite Hpc.
      destruct (owner t) eqn:Eo; [by destruct Hij, (Hu i j t u)|done].
  - intros j k u v [[<- <-]|[Hij Ej]]%lookup_insert_Some [[<- <-]|[Hik Ek]]%lookup_insert_Some Hou Hov;
      try done.
    + eapply (Hu i k); [done..|congruence|done].
    + eapply (Hu j i); [done..|congruence].
    + by eapply (Hu j k).
  - intros j u [[<- <-]|[Hij Ej]]%lookup_insert_Some Hu'; eauto.
  - intros (j & u & Ej & Hou)%Hc. destruct (decide (i = j)) as [<-|Hij].
    + exists i, t'. rewrite lookup_insert_eq. split; [done|congruence].
    + exists j, u. by rewrite lookup_insert_ne.
  - rewrite Hpc. destruct (owner t) eqn:Eo; [|done]. intros _. by destruct (Hw i t Et Eo).
  - intros j first err [[<- ->]|[Hij Ej]]%lookup_insert_Some.
    + destruct first; destruct Herr; congruence.
    + specialize (Hd j first err Ej). destruct t' as [|[]]; try congruence.
      destruct first0 as [nr|]; [|destruct Herr; congruence].
      destruct Herr as (_ & _ & _ & Hn). congruence.
  - intros err He.
    assert (closeErr s = Some err ∨ closeErr s = None ∧ ∃ nr, t' = Closer (KDone (Some nr) err)) as [Hs|[Hn [nr ->]]].
    { destruct t' as [|[]]; try (left; congruence). destruct first as [nr|]; [|left; destruct Herr; congruence].
      right. destruct Herr as (He' & _ & _ & Hn). split; [done|]. exists nr. congruence. }
    + destruct (Hce err Hs) as [Hrd Hcew]. split; [done|].
      intros j u [[<- <-]|[Hij Ej]]%lookup_insert_Some Hou; [|eauto].
      destruct (Hcew i t Et) as [nr ->]; [congruence|]. by destruct (Hnd (Some nr) err).
    + destruct Herr as (_ & Hrd & Hop & _). split; [done|].
      intros j u [[<- <-]|[Hij Ej]]%lookup_insert_Some Hou; [eauto|].
      destruct Hij. apply (Hu i j t u Et Ej); [|done].
      by destruct t as [|[]].
  - intros Hrd. destruct (Hr Hrd). auto.
Qed.

(** A step of the report goroutine or of librdkafka. *)
Lemma Shutdown_frame s s' :
  Shutdown s → threads s' = threads s ∧ closed s' = closed s ∧ closeErr s' = closeErr s ∧
    producer_closed s' = producer_closed s →
  reporter s ≠ RDone →
  (reporter s' = RDone → producer_closed s = true ∧ events s' = []) →
  Shutdown s'.
Proof.
  intros [Hl Ho Hw Hu Hla Hc Hp Hd Hce Hr] (Hth & Hcl & Hcle & Hpc) Hrep Hrep'.
  split; rewrite ?Hth, ?Hcl, ?Hcle, ?Hpc; try done.
  intros err [Hrd _]%Hce. done.
Qed.

(** The step that sets [closed]. *)
Lemma Shutdown_set s i :
  Shutdown s → threads s !! i = Some (Closer KLocked) → closed s = false →
  Shutdown (set_thread i (Closer KSet) (set_closed s)).
Proof.
  intros [Hl Ho Hw Hu Hla Hc Hp Hd Hce Hr] Et Hcl.
  assert (∀ j u, threads s !! j = Some u → owner u = true → False) as Hno.
  { intros j u Ej Hou. destruct (Hw j u Ej Hou). congruence. }
  split; cbn [threads reporter closed closeErr producer_closed events set_thread set_closed]; try done.
  - eapply exclusive_insert; [done..|]. right; by left.
  - intros j u [[<- <-]|[Hij Ej]]%lookup_insert_Some Hu'; [done|].
    pose proof (Hl i j _ u Et Ej Hij eq_refl) as Hh. by destruct u as [? []|].
  - intros j u [[<- <-]|[Hij Ej]]%lookup_insert_Some Hu'; [|by destruct (Hno j u)].
    split; [done|]. simpl. apply not_true_is_false. intros Epc%Hp. congruence.
  - intros j k u v [[<- <-]|[Hij Ej]]%lookup_insert_Some [[<- <-]|[Hik Ek]]%lookup_insert_Some Hou Hov;
      try done; [by destruct (Hno k v)|by destruct (Hno j u)..].
  - intros _. exists i, (Closer KSet). by rewrite lookup_insert_eq.
  - intros j first err [[_ ?]|[Hij Ej]]%lookup_insert_Some; [done|eauto].
  - intros err [Hrd Hce']%Hce. destruct (Hr Hrd) as [Hpc _]. specialize (Hp Hpc). congruence.
Qed.

Lemma step_Shutdown a s s' : Shutdown s → step cfg a s = Some s' → Shutdown s'.
Proof.
  intros HS Hstep. pose proof (sd_reporter s HS) as Hr.
  destruct a as [i x|panics|i p o err|err|r]; unfold step in Hstep.
  - destruct (threads s !! i) as [t|] eqn:Et; [|done].
    pose proof (sd_owner s HS i t Et) as Hw. pose proof (sd_closeErr s HS) as Hce.
    pose proof (sd_open s HS i t Et) as Ho. pose proof (sd_late s HS i t Et) as Hla.
    destruct t as [record pc|pc].
    + unfold enqueue_step in Hstep. destruct pc; repeat (case_match; try done); simplify_eq;
        (eapply (Shutdown_thread s); [done|exact Et|by split_and!|by unfold may_hold; auto|..]); by auto.
    + unfold close_step in Hstep. destruct pc; repeat (case_match; try done); simplify_eq;
        try (by apply Shutdown_set);
        (eapply (Shutdown_thread s); [done|exact Et|by split_and!|by unfold may_hold; auto|..]);
        try (by auto); simpl; try (by destruct (Hw eq_refl) as [_ ->]).
      split_and!; try done. destruct (closeErr s) as [err|] eqn:Eerr; [|done].
      destruct (Hce err eq_refl) as [_ Hcw]. by destruct (Hcw i _ Et eq_refl).
  - assert (reporter s ≠ RDone) as Hnd.
    { intros Hrd. unfold report_step in Hstep. by rewrite Hrd in Hstep. }
    apply (Shutdown_frame s); [done| |done|];
      unfold_report in Hstep;
      repeat (case_match; try done); simplify_option_eq; repeat (case_match; try done);
      simplify_eq; split_and?; try done; cbn; by auto with congruence.
  - destruct (_ && _) eqn:Eb; [|done]. injection Hstep as <-.
    apply (Shutdown_frame s); [done|by split_and!| |]; intros Hrd; destruct (Hr Hrd) as [Hpc _];
      by rewrite Hpc in Eb.
  - destruct (producer_closed s) eqn:Eb; [done|]. injection Hstep as <-.
    apply (Shutdown_frame s); [done|by split_and!| |]; intros Hrd; destruct (Hr Hrd) as [Hpc _];
      congruence.
  - destruct (_ && _) eqn:Eb; [|done]. injection Hstep as <-.
    apply (Shutdown_frame s); [done|by split_and!| |]; intros Hrd; destruct (Hr Hrd) as [Hpc _];
      by rewrite Hpc in Eb.
Qed.
Lemma reachable_Shutdown ts s : reachable cfg ts s → Shutdown s.
Proof. induction 1; [by apply initial_Shutdown|by eapply step_Shutdown]. Qed.
End shutdown.

(** ** Settlement

    What a step does to the deliveries, seen apart from locks and goroutines. *)

Definition report_token (r : Report token) : option nat :=
  match rep_Token r with TDelivery i => Some i | TForeign _ => None end.
Definition event_token (ev : Event token) : option nat := event_report ev ≫= report_token.
(** The delivery the report goroutine is settling. *)
Definition settling (r : reporter_pc) : option nat :=
  match r with RFailed i _ _ | RResolve i _ _ => Some i | _ => None end.
Definition resolved_token (e : pevent) : option nat :=
  match e with LResolved i _ => Some i | _ => None end.
Definition callback_token (e : pevent) : option nat :=
  match e with LCallback i _ => Some i | _ => None end.
Definition neutral (e : pevent) : bool :=
  match e with LResolved _ _ | LCallback _ _ => false | _ => true end.

(** The outcome a report of the record stands for. *)
Definition outcome_of (record : Record_) (r : Report token) : outcome :=
  (mkResult (r_Topic record) (rep_Partition r) (rep_Offset r),
   newDeliveryError record (rep_Partition r) <$> rep_Err r).

(** *** The reports sent, and those received *)

Definition first_report (i : nat) (rs : list (Report token)) : option (Report token) :=
  find (λ r, bool_decide (report_token r = Some i)) rs.

Lemma first_report_app i l k :
  first_report i (l ++ k) = match first_report i l with Some r => Some r | None => first_report i k end.
Proof. unfold first_report. induction l as [|r l IH]; [done|]. simpl. by destruct (bool_decide _). Qed.
Lemma first_report_None i rs : first_report i rs = None ↔ i ∉ omap report_token rs.
Proof.
  unfold first_report. induction rs as [|r rs IH]; cbn [find omap list_omap]; [split; [by intros _ ?%elem_of_nil|done]|].
  case_bool_decide as Er.
  - rewrite Er, not_elem_of_cons. by split; [|intros [? _]].
  - rewrite IH. destruct (report_token r) as [j|]; [|done]. rewrite not_elem_of_cons.
    split; [|by intros [_ ?]]. intros Hr. split; [congruence|done].
Qed.
Lemma first_report_token i rs r : first_report i rs = Some r → report_token r = Some i.
Proof. unfold first_report. by intros [_ ?%bool_decide_eq_true_1]%find_some. Qed.
Lemma first_report_keep i l k r : first_report i l = Some r → first_report i (l ++ k) = Some r.
Proof. intros E. by rewrite first_report_app, E. Qed.
(** A report of another delivery, or of none, is not the first. *)
Lemma first_report_other i l r : report_token r ≠ Some i → first_report i (l ++ [r]) = first_report i l.
Proof.
  intros Hr. rewrite first_report_app. destruct (first_report i l); [done|].
  unfold first_report. simpl. by rewrite bool_decide_eq_false_2.
Qed.

(** Those the report goroutine has taken: all but the ones it has yet to receive. *)
Definition received (s : pub) : list (Report token) :=
  take (length (reported s) - length (omap event_report (events s))) (reported s).
Definition History (s : pub) : Prop := reported s = received s ++ omap event_report (events s).
Lemma received_unique s l : reported s = l ++ omap event_report (events s) → received s = l ∧ History s.
Proof.
  intros E. assert (received s = l) as El.
  { unfold received. rewrite E, length_app. apply take_app_length'. lia. }
  split; [done|]. unfold History. by rewrite El.
Qed.
Lemma received_same s s' : History s → events s' = events s → reported s' = reported s →
  received s' = received s ∧ History s'.
Proof. intros Hh Hev Hrep. apply received_unique. by rewrite Hev, Hrep. Qed.
Lemma received_sent s s' ev : History s → events s' = events s ++ [ev] →
  reported s' = reported s ++ option_list (event_report ev) → received s' = received s ∧ History s'.
Proof.
  unfold History at 1. intros Hh Hev Hrep. apply received_unique. rewrite Hev, Hrep, Hh at 1. rewrite omap_app, app_assoc.
  simpl. by destruct (event_report ev).
Qed.
Lemma received_take s s' ev : History s → events s = ev :: events s' → reported s' = reported s →
  received s' = received s ++ option_list (event_report ev) ∧ History s'.
Proof.
  unfold History at 1. intros Hh Hev Hrep. apply received_unique. rewrite Hrep, Hh at 1. rewrite Hev. simpl.
  destruct (event_report ev); simpl; by rewrite <-?app_assoc, ?app_nil_r.
Qed.
Lemma tokens_of_events (es : list (Event token)) : omap event_token es = omap report_token (omap event_report es).
Proof.
  induction es as [|e es IH]; [done|]. cbn [omap list_omap]. rewrite IH.
  unfold event_token. by destruct (event_report e).
Qed.

Section settlement.
Context {D F P : Type} (cfg : config (DeliveryErrorFunc:=D) (FatalFunc:=F) (Factory:=P)).
Implicit Types s : pub.

Inductive effect s s' : Prop :=
  | eff_quiet l :
      deliveries s' = deliveries s → outstanding s' = outstanding s → dropped s' = dropped s →
      events s' = events s → reported s' = reported s →
      settling (reporter s) = None → settling (reporter s') = None →
      log s' = log s ++ l → forallb neutral l = true → effect s s'
  | eff_threads l :
      deliveries s' = deliveries s → outstanding s' = outstanding s → dropped s' = dropped s →
      events s' = events s → reported s' = reported s → reporter s' = reporter s →
      log s' = log s ++ l → forallb neutral l = true → effect s s'
  | eff_accept i record l :
      deliveries s !! i = None → deliveries s' = <[i := newDelivery record]> (deliveries s) →
      outstanding s' = {[i]} ∪ outstanding s → dropped s' = dropped s →
      events s' = events s → reported s' = reported s → reporter s' = reporter s →
      log s' = log s ++ l → forallb neutral l = true → effect s s'
  | eff_drop :
      deliveries s' = deliveries s → outstanding s' = ∅ → dropped s' = dropped s ∪ outstanding s →
      events s' = events s → reported s' = reported s → reporter s' = reporter s → log s' = log s → effect s s'
  | eff_sent ev :
      deliveries s' = deliveries s → dropped s' = dropped s →
      events s' = events s ++ [ev] → reported s' = reported s ++ option_list (event_report ev) →
      reporter s' = reporter s → log s' = log s →
      match event_token ev with
      | Some i => is_Some (deliveries s !! i) ∧ outstanding s' = outstanding s ∖ {[i]}
      | None => outstanding s' = outstanding s
      end → effect s s'
  | eff_skip ev l :
      deliveries s' = deliveries s → outstanding s' = outstanding s → dropped s' = dropped s →
      events s = ev :: events s' → reported s' = reported s →
      settling (reporter s) = None → settling (reporter s') = None →
      log s' = log s ++ l → forallb neutral l = true →
      (∀ i, event_token ev = Some i → ∃ d, deliveries s !! i = Some d ∧ resolved d = true) → effect s s'
  | eff_hold r i d o err l :
      deliveries s' = deliveries s → outstanding s' = outstanding s → dropped s' = dropped s →
      events s = EReport r :: events s' → reported s' = reported s → rep_Token r = TDelivery i →
      deliveries s !! i = Some d → d_outcome d = None → outcome_of (d_record d) r = (o, Some err) →
      settling (reporter s) = None →
      reporter s' = match onDeliveryError cfg with Some _ => RFailed i o err | None => RResolve i o err end →
      log s' = log s ++ l → forallb neutral l = true → effect s s'
  | eff_success r i d o l :
      deliveries s' = alter (resolve (o, None)) i (deliveries s) → outstanding s' = outstanding s →
      dropped s' = dropped s → events s = EReport r :: events s' → reported s' = reported s →
      rep_Token r = TDelivery i →
      deliveries s !! i = Some d → d_outcome d = None → outcome_of (d_record d) r = (o, None) →
      settling (reporter s) = None → settling (reporter s') = None →
      log s' = log s ++ l ++ [LResolved i (o, None)] → forallb neutral l = true → effect s s'
  | eff_callback i o err l :
      deliveries s' = deliveries s → outstanding s' = outstanding s → dropped s' = dropped s →
      events s' = events s → reported s' = reported s → reporter s = RFailed i o err → reporter s' = RResolve i o err →
      log s' = log s ++ LCallback i err :: l → forallb neutral l = true → effect s s'
  | eff_failure i o err :
      deliveries s' = alter (resolve (o, Some err)) i (deliveries s) → outstanding s' = outstanding s →
      dropped s' = dropped s → events s' = events s → reported s' = reported s →
      reporter s = RResolve i o err → settling (reporter s') = None →
      log s' = log s ++ [LResolved i (o, Some err)] → effect s s'.

(** A record is accepted exactly for the sender that gets the delivery. *)
Definition Accepted s : Prop := ∀ i record pc, threads s !! i = Some (Sender record pc) →
  match pc with
  | SReturning None | SDone None => ∃ d, deliveries s !! i = Some d ∧ d_record d = record
  | _ => deliveries s !! i = None
  end.

Lemma initial_Accepted ts : map_Forall (λ _ t, fresh t) ts → Accepted (initial ts).
Proof. intros Hf i record pc E. specialize (Hf i _ E). by destruct pc. Qed.

Lemma Accepted_thread s i t t' ds : Accepted s → threads s !! i = Some t →
  match t' with
  | Sender record (SReturning None | SDone None) => ∃ d, ds !! i = Some d ∧ d_record d = record
  | Sender _ _ => ds !! i = None
  | Closer _ => True
  end →
  (∀ j, j ≠ i → ds !! j = deliveries s !! j) →
  ∀ s', threads s' = <[i := t']> (threads s) → deliveries s' = ds → Accepted s'.
Proof.
  intros Ha Et Ht' Hds s' Hth Hd j record pc. rewrite Hth, Hd.
  intros [[<- ->]|[Hij Ej]]%lookup_insert_Some.
  - by destruct pc as [| | | |[]|[]].
  - specialize (Ha j record pc Ej). rewrite <-Hds in Ha by done. exact Ha.
Qed.
Lemma Accepted_resolve s s' i o : Accepted s →
  threads s' = threads s → deliveries s' = alter (resolve o) i (deliveries s) → Accepted s'.
Proof.
  intros Ha Hth Hd j record pc. rewrite Hth, Hd. intros E. specialize (Ha j record pc E).
  assert ((∃ d, deliveries s !! j = Some d ∧ d_record d = record) →
          ∃ d, alter (resolve o) i (deliveries s) !! j = Some d ∧ d_record d = record) as Hsome.
  { intros (d & Ed & Hr). destruct (decide (i = j)) as [->|Hne].
    - exists (resolve o d). by rewrite lookup_alter_eq, Ed.
    - exists d. by rewrite lookup_alter_ne. }
  assert (deliveries s !! j = None → alter (resolve o) i (deliveries s) !! j = None) as Hnone.
  { intros En. by rewrite lookup_alter_None. }
  destruct pc as [| | | |[]|[]]; auto.
Qed.
Lemma Accepted_same s s' : Accepted s → threads s' = threads s → deliveries s' = deliveries s →
  Accepted s'.
Proof. intros Ha Hth Hd j record pc. rewrite Hth, Hd. apply Ha. Qed.

Lemma step_Accepted a s s' : Accepted s → step cfg a s = Some s' → Accepted s'.
Proof.
  intros Ha Hstep. destruct a as [i x|panics|i p o err|err|r]; unfold step in Hstep.
  - destruct (threads s !! i) as [[record pc|pc]|] eqn:Et; [| |done].
    + pose proof (Ha i record pc Et) as Hpc.
      unfold enqueue_step in Hstep. destruct pc; repeat (case_match; try done); simplify_eq;
        (eapply Accepted_thread; [done|exact Et| | |done|done]); try done.
      * exists (newDelivery record). cbn. by rewrite lookup_insert_eq.
      * intros j Hj. cbn. by rewrite lookup_insert_ne.
    + unfold close_step in Hstep. destruct pc; repeat (case_match; try done); simplify_eq;
        (eapply Accepted_thread; [done|exact Et| | |done|done]); done.
  - unfold_report in Hstep.
    repeat (case_match; try done); simplify_option_eq; repeat (case_match; try done); simplify_eq;
      first [by eapply Accepted_same|by eapply Accepted_resolve].
  - case_match; simplify_eq. by eapply Accepted_same.
  - case_match; simplify_eq. by eapply Accepted_same.
  - case_match; simplify_eq. by eapply Accepted_same.
Qed.

(** The log's part of an effect: what was said. *)
Ltac said := first [ done | symmetry; apply app_nil_r | by rewrite <-(app_assoc (log _)) ].
Ltac effect_by lem := eapply lem; cbn; try said; try done.

Lemma settle_effect s s' r es : reporter s = RReceive → events s = EReport r :: es →
  settle cfg r (set_events es s) = Some s' → effect s s'.
Proof.
  intros Er Ees Hs. unfold settle, logUnmatchedReport in Hs. cbn in Hs.
  destruct (rep_Token r) as [i|typ] eqn:Et; [|simplify_eq].
  2:{ effect_by eff_skip; [by rewrite Er..|]. unfold event_token, report_token. cbn. by rewrite Et. }
  destruct (deliveries s !! i) as [d|] eqn:Ed; [|done]. cbn in Hs.
  destruct (resolved d) eqn:Erd; simplify_eq.
  { effect_by eff_skip; [by rewrite Er..|]. unfold event_token, report_token. cbn. rewrite Et.
    intros j [= <-]. eauto. }
  assert (d_outcome d = None) as Hnone.
  { unfold resolved in Erd. apply bool_decide_eq_false_1 in Erd. by apply eq_None_not_Some. }
  destruct (rep_Err r) as [e|] eqn:Ee; simplify_eq.
  - effect_by eff_hold; [|by rewrite Er]. unfold outcome_of. by rewrite Ee.
  - assert (outcome_of (d_record d) r =
      (mkResult (r_Topic (d_record d)) (rep_Partition r) (rep_Offset r), None)) as Ho.
    { unfold outcome_of. by rewrite Ee. }
    unfold noteConnected, resolve_delivery. cbn. destruct (brokerDown s).
    + eapply (eff_success _ _ r i d _ [LBrokerRestored (suppressed s)]); cbn; rewrite ?Er, ?Et; try done.
      by rewrite <-app_assoc.
    + eapply (eff_success _ _ r i d _ []); cbn; rewrite ?Er, ?Et; done.
Qed.

Lemma step_effect a s s' : Accepted s → (∀ i, i ∈ outstanding s → is_Some (deliveries s !! i)) →
  step cfg a s = Some s' → effect s s'.
Proof.
  intros Ha Hout Hstep. destruct a as [i x|panics|i p o err|err|r]; unfold step in Hstep.
  - destruct (threads s !! i) as [[record pc|pc]|] eqn:Et; [| |done].
    + pose proof (Ha i record pc Et) as Hpc.
      unfold enqueue_step in Hstep. destruct pc; repeat (case_match; try done); simplify_eq;
        first [effect_by eff_threads; fail|effect_by eff_accept].
    + unfold close_step in Hstep. destruct pc; repeat (case_match; try done); simplify_eq;
        first [effect_by eff_threads; fail|effect_by eff_drop].
  - unfold report_step in Hstep. destruct (reporter s) as [|j o e|j o e|e|] eqn:Er; [|..|done].
    + destruct (events s) as [|[r|e] es] eqn:Ees.
      * destruct (producer_closed s); simplify_eq. effect_by eff_quiet. by rewrite Er.
      * by eapply settle_effect.
      * simplify_eq. unfold noteClientError, noteFatal, invokeFatalHandler.
        repeat case_match; effect_by eff_skip; by rewrite Er.
    + destruct panics; simplify_eq; effect_by eff_callback.
    + simplify_eq. effect_by eff_failure.
    + destruct panics; simplify_eq; effect_by eff_quiet; by rewrite Er.
  - destruct (_ && _) eqn:E; [|done]. simplify_eq. apply andb_true_iff in E as [_ E%bool_decide_eq_true_1].
    effect_by eff_sent. split; [by apply Hout|done].
  - case_match; simplify_eq. effect_by eff_sent.
  - destruct (_ && _) eqn:E; [|done]. simplify_eq. apply andb_true_iff in E as [_ E].
    effect_by eff_sent. unfold stray_ok in E. unfold event_token, report_token. cbn.
    destruct (rep_Token r) as [i|]; [|done].
    apply andb_true_iff in E as [E1%bool_decide_eq_true_1 E2%bool_decide_eq_true_1].
    split; [done|]. symmetry. apply difference_disjoint_L, disjoint_singleton_r. done.
Qed.

(** What holds of the deliveries, of the reports of them, and of the log. *)
Record Settled s : Prop := {
  st_history : History s;
  st_out i : i ∈ outstanding s → ∃ d, deliveries s !! i = Some d ∧ d_outcome d = None;
  (** a report is of a record that is not outstanding any more *)
  st_reported i : i ∈ omap report_token (reported s) → is_Some (deliveries s !! i) ∧ (i ∉ outstanding s);
  st_settling i o err : reporter s = RFailed i o err ∨ reporter s = RResolve i o err →
    ∃ d r, deliveries s !! i = Some d ∧ d_outcome d = None ∧
      first_report i (received s) = Some r ∧ outcome_of (d_record d) r = (o, Some err);
  (** no record is lost: one without an outcome is still on its way *)
  st_account i d : deliveries s !! i = Some d → d_outcome d = None →
    i ∈ outstanding s ∨ i ∈ dropped s ∨ i ∈ omap event_token (events s) ∨ settling (reporter s) = Some i;
  (** an outcome is that of the first report *)
  st_outcome i d o : deliveries s !! i = Some d → d_outcome d = Some o →
    ∃ r, first_report i (received s) = Some r ∧ o = outcome_of (d_record d) r;
  (** and the first report is settled when it is received *)
  st_first i d : deliveries s !! i = Some d → d_outcome d = None → settling (reporter s) ≠ Some i →
    first_report i (received s) = None;
  st_log i o : LResolved i o ∈ log s ↔ ∃ d, deliveries s !! i = Some d ∧ d_outcome d = Some o;
  st_once : NoDup (omap resolved_token (log s));
  st_callback i err : LCallback i err ∈ log s →
    (∃ o, reporter s = RResolve i o err) ∨
    ∃ d o, deliveries s !! i = Some d ∧ d_outcome d = Some (o, Some err);
  st_callback_once : NoDup (omap callback_token (log s));
  (** the callback comes before the outcome *)
  st_called : is_Some (onDeliveryError cfg) →
    (∀ i o err, reporter s = RResolve i o err → LCallback i err ∈ log s) ∧
    ∀ l1 l2 i o err, log s = l1 ++ LResolved i (o, Some err) :: l2 → LCallback i err ∈ l1;
}.

Lemma initial_Settled ts : Settled (initial ts).
Proof.
  split; simpl.
  - done.
  - intros i Hi. by apply elem_of_empty in Hi.
  - intros i Hi. by apply elem_of_nil in Hi.
  - by intros i o err [?|?].
  - intros i d. by rewrite lookup_empty.
  - intros i d o. by rewrite lookup_empty.
  - intros i d. by rewrite lookup_empty.
  - intros i o. split; [by intros []%elem_of_nil|]. intros (d & E & _). by rewrite lookup_empty in E.
  - constructor.
  - by intros i err []%elem_of_nil.
  - constructor.
  - intros _. split; [done|]. intros l1 l2 i o err E. by destruct l1.
Qed.
(** What is received was reported, and what is on its way. *)
Lemma received_reported s i : Settled s → i ∈ omap report_token (received s) → i ∈ omap report_token (reported s).
Proof. intros HS Hi. rewrite (st_history s HS), omap_app. apply elem_of_app. by left. Qed.
Lemma pending_reported s i : Settled s → i ∈ omap event_token (events s) → i ∈ omap report_token (reported s).
Proof.
  intros HS Hi. rewrite (st_history s HS), omap_app. apply elem_of_app. right. by rewrite <-tokens_of_events.
Qed.
Lemma st_events s i : Settled s → i ∈ omap event_token (events s) →
  is_Some (deliveries s !! i) ∧ (i ∉ outstanding s).
Proof. intros HS Hi. by apply (st_reported s HS), pending_reported. Qed.
Lemma first_reported s i r : Settled s → first_report i (received s) = Some r →
  is_Some (deliveries s !! i) ∧ (i ∉ outstanding s).
Proof.
  intros HS Hi. apply (st_reported s HS), received_reported; [done|]. apply dec_stable.
  intros Hn%first_report_None. congruence.
Qed.

(** *** What is said *)
Lemma neutral_not_in l e : forallb neutral l = true → neutral e = false → e ∉ l.
Proof.
  intros Hl He Hin. rewrite forallb_forall in Hl. rewrite Hl in He by by apply list_elem_of_In.
  done.
Qed.
Lemma neutral_tokens l : forallb neutral l = true →
  omap resolved_token l = [] ∧ omap callback_token l = [].
Proof.
  induction l as [|e l IH]; [done|]. simpl. intros [He Hl]%andb_true_iff.
  destruct (IH Hl) as [IH1 IH2]. by destruct e.
Qed.
Lemma log_split (k l l1 l2 : list pevent) e : k ++ l = l1 ++ e :: l2 →
  (∃ l2', k = l1 ++ e :: l2') ∨ ∃ l1', l1 = k ++ l1' ∧ e ∈ l.
Proof.
  intros [(m & -> & E)|(m & -> & E)]%app_eq_inv.
  - destruct m as [|x m]; simpl in E.
    + right. exists []. rewrite !app_nil_r. split; [done|]. rewrite <-E. by left.
    + injection E as -> ->. left. by exists m.
  - right. exists m. split; [done|]. rewrite E. apply elem_of_app. right. by left.
Qed.

(** A step that resolves nothing and calls nothing. *)
Lemma Settled_same s s' l :
  Settled s → deliveries s' = deliveries s → log s' = log s ++ l → forallb neutral l = true →
  History s' →
  (∀ i, i ∈ outstanding s' → i ∈ outstanding s) →
  (∀ i, i ∈ omap report_token (reported s') → is_Some (deliveries s !! i) ∧ (i ∉ outstanding s')) →
  (∀ i d, deliveries s !! i = Some d → first_report i (received s') = first_report i (received s) ∨
    d_outcome d = None ∧ settling (reporter s') = Some i) →
  (∀ i o err, reporter s' = RFailed i o err ∨ reporter s' = RResolve i o err →
    ∃ d r, deliveries s !! i = Some d ∧ d_outcome d = None ∧
      first_report i (received s') = Some r ∧ outcome_of (d_record d) r = (o, Some err)) →
  (∀ i d, deliveries s !! i = Some d → d_outcome d = None →
    i ∈ outstanding s ∨ i ∈ dropped s ∨ i ∈ omap event_token (events s) ∨ settling (reporter s) = Some i →
    i ∈ outstanding s' ∨ i ∈ dropped s' ∨ i ∈ omap event_token (events s') ∨ settling (reporter s') = Some i) →
  (∀ i, settling (reporter s) = Some i → settling (reporter s') = Some i) →
  (∀ i o err, reporter s = RResolve i o err → reporter s' = RResolve i o err) →
  (∀ i o err, reporter s' = RResolve i o err → reporter s = RResolve i o err ∨ onDeliveryError cfg = None) →
  Settled s'.
Proof.
  intros [_ Ho Hrt Hs Ha Hoc Hfi Hl Hon Hcb Hcbo Hcall] Hd Hlog Hneu Hh Hout Hev Hfst Hset Hacc Hkeep Hres Hres'.
  destruct (neutral_tokens l Hneu) as [Ht1 Ht2].
  split; rewrite ?Hd, ?Hlog; try done.
  - intros i Hi%Hout. by apply Ho.
  - intros i d E Hn. apply (Hacc i d E Hn). by apply (Ha i d).
  - intros i d o E Eo. destruct (Hoc i d o E Eo) as (r & Er & ->). exists r. split; [|done].
    destruct (Hfst i d E) as [->|[? _]]; [done|congruence].
  - intros i d E Eo Hns. destruct (Hfst i d E) as [->|[_ ?]]; [|done]. apply (Hfi i d E Eo). by intros ?%Hkeep.
  - intros i o. rewrite elem_of_app, <-Hl. split; [|by left].
    intros [?|Hin]; [done|]. by apply neutral_not_in in Hin.
  - by rewrite omap_app, Ht1, app_nil_r.
  - intros i err. rewrite elem_of_app. intros [Hin|Hin]; [|by apply neutral_not_in in Hin].
    destruct (Hcb i err Hin) as [[o Ho']|?]; [left; eauto|by right].
  - by rewrite omap_app, Ht2, app_nil_r.
  - intros Hc. destruct (Hcall Hc) as [Hc1 Hc2]. split.
    + intros i o err [Hr|Hr]%Hres'; [|rewrite Hr in Hc; by destruct Hc].
      apply elem_of_app. left. by eapply Hc1.
    + intros l1 l2 i o err [(l2' & E)|(l1' & -> & Hin)]%log_split; [by eapply Hc2|].
      by apply neutral_not_in in Hin.
Qed.

Lemma lookup_resolve (ds : gmap nat Delivery) i d o j d' : ds !! i = Some d →
  alter (resolve o) i ds !! j = Some d' ↔ (j = i ∧ d' = resolve o d) ∨ (j ≠ i ∧ ds !! j = Some d').
Proof.
  intros Ed. destruct (decide (j = i)) as [->|Hne].
  - rewrite lookup_alter_eq, Ed. cbn. split; [intros [= <-]; by left|by intros [[_ ->]|[]]].
  - rewrite lookup_alter_ne by done. split; [by right|by intros [[]|[]]].
Qed.
(** A delivery resolved, from the report goroutine's hands or on success. *)
Lemma Settled_resolve s s' i d r o l :
  Settled s → deliveries s !! i = Some d → d_outcome d = None → o = outcome_of (d_record d) r →
  i ∉ outstanding s → History s' → reported s' = reported s →
  first_report i (received s') = Some r →
  (∀ j, j ≠ i → first_report j (received s') = first_report j (received s) ∧ settling (reporter s) ≠ Some j) →
  deliveries s' = alter (resolve o) i (deliveries s) → outstanding s' = outstanding s →
  dropped s' = dropped s → log s' = log s ++ l ++ [LResolved i o] → forallb neutral l = true →
  settling (reporter s') = None →
  (∀ j, j ≠ i → j ∈ omap event_token (events s) → j ∈ omap event_token (events s')) →
  (∀ j o' err, reporter s = RResolve j o' err → j = i ∧ o = (o', Some err)) →
  (is_Some (onDeliveryError cfg) → ∀ o' err, o = (o', Some err) → LCallback i err ∈ log s) →
  Settled s'.
Proof.
  intros [_ Ho Hrt Hs Ha Hoc Hfi Hl Hon Hcb Hcbo Hcall] Ed Hn Hof Hni Hh Hrp Hfst Hoth Hd Hout Hdr Hlog Hneu
    Hset Hev Hrep Hord.
  destruct (neutral_tokens l Hneu) as [Ht1 Ht2].
  pose proof (λ j d', lookup_resolve (deliveries s) i d o j d' Ed) as Hres. setoid_rewrite <-Hd in Hres.
  assert (∀ j d', deliveries s' !! j = Some d' →
    (j = i ∧ d' = resolve o d) ∨ (j ≠ i ∧ deliveries s !! j = Some d')) as Hlook by (intros; by apply Hres).
  assert (∀ j d', j ≠ i → deliveries s !! j = Some d' → deliveries s' !! j = Some d') as Hlook'
    by (intros; apply Hres; by right).
  assert (deliveries s' !! i = Some (resolve o d)) as Hi by (apply Hres; by left).
  assert (∀ err, ∀ j, LCallback j err ∈ log s → ∃ d' o', deliveries s' !! j = Some d' ∧
    d_outcome d' = Some (o', Some err)) as Hcb'.
  { intros err j [[o' Hr]|(d' & o' & E & Eo)]%Hcb.
    - destruct (Hrep _ _ _ Hr) as [-> ->]. eauto.
    - exists d', o'. split; [|done]. apply Hlook'; [|done]. intros ->. congruence. }
  split; rewrite ?Hout, ?Hdr, ?Hset, ?Hrp; try done.
  - intros j Hj. destruct (Ho j Hj) as (d' & E & En). exists d'.
    split; [|done]. apply Hlook'; [|done]. by intros ->.
  - intros j Hj. destruct (Hrt j Hj) as [[d' E] Hnj]. split; [|done].
    rewrite Hd. by apply lookup_alter_is_Some.
  - intros j o' err [Hr|Hr]; by rewrite Hr in Hset.
  - intros j d' E En. destruct (Hlook j d' E) as [[-> ->]|[Hne E']]; [done|]. destruct (Hoth j Hne) as [_ Hns].
    destruct (Ha j d' E' En) as [?|[?|[Hj|?]]]; [tauto..| |done]. right; right; left. by apply Hev.
  - intros j d' o' E Eo. destruct (Hlook j d' E) as [[-> ->]|[Hne E']].
    + injection Eo as <-. by exists r.
    + destruct (Hoth j Hne) as [-> _]. by apply Hoc.
  - intros j d' E En _. destruct (Hlook j d' E) as [[-> ->]|[Hne E']]; [done|].
    destruct (Hoth j Hne) as [-> Hns]. by apply (Hfi j d').
  - intros j o'. rewrite Hlog, !elem_of_app, list_elem_of_singleton, Hl. split.
    + intros [(d' & E & Eo)|[Hin|[= -> ->]]]; [|by apply neutral_not_in in Hin|by eauto].
      exists d'. split; [|done]. apply Hlook'; [|done]. intros ->. congruence.
    + intros (d' & E & Eo). destruct (Hlook j d' E) as [[-> ->]|[Hne E']]; [|by eauto].
      injection Eo as <-. by right; right.
  - rewrite Hlog, !omap_app, Ht1. simpl. apply NoDup_app. split_and!; [done| |apply NoDup_singleton].
    intros j Hj Hji%list_elem_of_singleton. subst j. apply list_elem_of_omap in Hj as (e & Hin & Ee).
    destruct e; try done. injection Ee as ->. apply Hl in Hin as (d' & E & Eo). congruence.
  - intros j err. rewrite Hlog, !elem_of_app, list_elem_of_singleton.
    intros [Hin|[Hin|?]]; [right; by apply Hcb'|by apply neutral_not_in in Hin|done].
  - rewrite Hlog, !omap_app, Ht2. simpl. by rewrite app_nil_r.
  - intros Hc. destruct (Hcall Hc) as [_ Hc2]. split.
    + intros j o' err Hr. by rewrite Hr in Hset.
    + intros l1 l2 j o' err. rewrite Hlog.
      intros [(l2' & E)|(l1' & -> & [Hin|[= -> Hoo]%list_elem_of_singleton]%elem_of_app)]%log_split.
      * by eapply Hc2.
      * by apply neutral_not_in in Hin.
      * apply elem_of_app. left. by eapply Hord.
Qed.

(** A record accepted. *)
Lemma Settled_accept s s' i record l :
  Settled s → deliveries s !! i = None → deliveries s' = <[i := newDelivery record]> (deliveries s) →
  outstanding s' = {[i]} ∪ outstanding s → dropped s' = dropped s → events s' = events s →
  reported s' = reported s → reporter s' = reporter s → log s' = log s ++ l → forallb neutral l = true → Settled s'.
Proof.
  intros HS En Hd Hout Hdr Hev Hrp Hrep Hlog Hneu. pose proof HS as [Hh Ho Hrt Hs Ha Hoc Hfi Hl Hon Hcb Hcbo Hcall].
  destruct (received_same s s' Hh Hev Hrp) as [Hrc Hh'].
  destruct (neutral_tokens l Hneu) as [Ht1 Ht2].
  assert (∀ j d, deliveries s !! j = Some d → deliveries s' !! j = Some d) as Hkeep.
  { intros j d E. rewrite Hd, lookup_insert_ne; [done|]. intros ->. congruence. }
  assert (∀ j d, deliveries s' !! j = Some d →
    j = i ∧ d = newDelivery record ∨ deliveries s !! j = Some d) as Hlook.
  { intros j d. rewrite Hd. intros [[<- <-]|[_ E]]%lookup_insert_Some; auto. }
  split; rewrite ?Hrep, ?Hev, ?Hdr, ?Hlog, ?Hrp, ?Hrc; try done.
  - intros j. rewrite Hout. intros [->%elem_of_singleton|Hj]%elem_of_union.
    + exists (newDelivery record). by rewrite Hd, lookup_insert_eq.
    + destruct (Ho j Hj) as (d & E & Eo). eauto.
  - intros j Hj. destruct (Hrt j Hj) as [[d E] Hnj]. split; [eauto|]. rewrite Hout.
    intros [->%elem_of_singleton|?]%elem_of_union; [congruence|done].
  - intros j o err Hj. destruct (Hs j o err Hj) as (d & r & E & Hr). eauto.
  - intros j d E Eo. rewrite Hout. destruct (Hlook j d E) as [[-> ->]|E'].
    + left. apply elem_of_union_l. by apply elem_of_singleton.
    + destruct (Ha j d E' Eo) as [?|?]; [|by right]. left. by apply elem_of_union_r.
  - intros j d o E Eo. destruct (Hlook j d E) as [[-> ->]|E']; [done|by eapply Hoc].
  - intros j d E Eo Hns. destruct (Hlook j d E) as [[-> ->]|E']; [|by eapply Hfi].
    destruct (first_report i (received s)) as [r|] eqn:Er; [|done].
    destruct (first_reported s i r HS Er) as [[? ?] _]. congruence.
  - intros j o. rewrite elem_of_app, Hl. split.
    + intros [(d & E & Eo)|Hin]; [by eauto|by apply neutral_not_in in Hin].
    + intros (d & E & Eo). left. destruct (Hlook j d E) as [[-> ->]|E']; [done|by eauto].
  - by rewrite omap_app, Ht1, app_nil_r.
  - intros j err. rewrite elem_of_app. intros [Hin|Hin]; [|by apply neutral_not_in in Hin].
    destruct (Hcb j err Hin) as [?|(d & o & E & Eo)]; [by left|right; by eauto].
  - by rewrite omap_app, Ht2, app_nil_r.
  - intros Hc. destruct (Hcall Hc) as [Hc1 Hc2]. split.
    + intros j o err Hr. apply elem_of_app. left. by eapply Hc1.
    + intros l1 l2 j o err [(l2' & E)|(l1' & -> & Hin)]%log_split; [by eapply Hc2|].
      by apply neutral_not_in in Hin.
Qed.

(** The callback of a failed record. *)
Lemma Settled_callback s s' i o err l :
  Settled s → deliveries s' = deliveries s → outstanding s' = outstanding s → dropped s' = dropped s →
  events s' = events s → reported s' = reported s → reporter s = RFailed i o err → reporter s' = RResolve i o err →
  log s' = log s ++ LCallback i err :: l → forallb neutral l = true → Settled s'.
Proof.
  intros [Hh Ho Hrt Hs Ha Hoc Hfi Hl Hon Hcb Hcbo Hcall] Hd Hout Hdr Hev Hrp Hrep Hrep' Hlog Hneu.
  destruct (received_same s s' Hh Hev Hrp) as [Hrc Hh'].
  destruct (neutral_tokens l Hneu) as [Ht1 Ht2].
  destruct (Hs i o err (or_introl Hrep)) as (d & r & Ed & En & Hof).
  split; rewrite ?Hd, ?Hout, ?Hdr, ?Hev, ?Hrep', ?Hlog, ?Hrp, ?Hrc; try done.
  - intros j o' err' [?|[= <- <- <-]]; [done|]. eauto.
  - intros j d' E Eo. destruct (Ha j d' E Eo) as [?|[?|[?|Hj]]]; try tauto.
    rewrite Hrep in Hj. simpl in *. tauto.
  - intros j d' E Eo Hns. apply (Hfi j d' E Eo). by rewrite Hrep.
  - intros j o'. rewrite elem_of_app, elem_of_cons, Hl. split; [|by left].
    intros [?|[?|Hin]]; [done..|]. by apply neutral_not_in in Hin.
  - assert (omap resolved_token (LCallback i err :: l) = []) as Ht by exact Ht1.
    by rewrite omap_app, Ht, app_nil_r.
  - intros j err'. rewrite elem_of_app, elem_of_cons. intros [Hin|[[= -> ->]|Hin]].
    + right. destruct (Hcb j err' Hin) as [[? ?]|?]; [congruence|done].
    + left. by exists o.
    + by apply neutral_not_in in Hin.
  - assert (omap callback_token (LCallback i err :: l) = [i]) as Ht by exact (f_equal (cons i) Ht2).
    rewrite omap_app, Ht. apply NoDup_app. split_and!; [done| |apply NoDup_singleton].
    intros j Hj Hji%list_elem_of_singleton. subst j. apply list_elem_of_omap in Hj as (e & Hin & Ee).
    destruct e; try done. injection Ee as ->. destruct (Hcb _ _ Hin) as [[? ?]|(d' & ? & E & Eo)]; congruence.
  - intros Hc. destruct (Hcall Hc) as [Hc1 Hc2]. split.
    + intros j o' err' [= <- <- <-]. apply elem_of_app. right. by left.
    + intros l1 l2 j o' err' [(l2' & E)|(l1' & -> & Hin)]%log_split; [by eapply Hc2|].
      apply elem_of_cons in Hin as [?|Hin]; [done|]. by apply neutral_not_in in Hin.
Qed.

Lemma settling_spec s i : settling (reporter s) = Some i ↔
  ∃ o err, reporter s = RFailed i o err ∨ reporter s = RResolve i o err.
Proof.
  split.
  - destruct (reporter s); simpl; intros [= ->]; eauto.
  - by intros (o & err & [->| ->]).
Qed.
Lemma settling_None s i o err : settling (reporter s) = None →
  reporter s = RFailed i o err ∨ reporter s = RResolve i o err → False.
Proof. intros Hn Hr. assert (settling (reporter s) = Some i) by (apply settling_spec; eauto). congruence. Qed.

(** A step that leaves the report goroutine, the records and the events alone. *)
Lemma Settled_frame s s' l :
  Settled s → deliveries s' = deliveries s → log s' = log s ++ l → forallb neutral l = true →
  History s' → received s' = received s → reporter s' = reporter s →
  (∀ i, i ∈ outstanding s' → i ∈ outstanding s) →
  (∀ i, i ∈ omap report_token (reported s') → is_Some (deliveries s !! i) ∧ (i ∉ outstanding s')) →
  (∀ i, i ∈ dropped s → i ∈ dropped s') →
  (∀ i, i ∈ omap event_token (events s) → i ∈ omap event_token (events s')) →
  (∀ i, i ∈ outstanding s → i ∈ outstanding s' ∨ i ∈ dropped s' ∨ i ∈ omap event_token (events s')) →
  Settled s'.
Proof.
  intros HS Hd Hlog Hneu Hh Hrc Hr Hout Hrt Hdr Hev Hacc.
  apply (Settled_same s s' l); rewrite ?Hr, ?Hrc; try done.
  - by left.
  - apply (st_settling s HS).
  - intros i d _ _ [Hi%Hacc|[Hi%Hdr|[Hi%Hev|Hi]]]; tauto.
  - by left.
Qed.
(** librdkafka drops what is left. *)
Lemma Settled_drop s s' : Settled s → deliveries s' = deliveries s → outstanding s' = ∅ →
  dropped s' = dropped s ∪ outstanding s → events s' = events s → reported s' = reported s →
  reporter s' = reporter s → log s' = log s → Settled s'.
Proof.
  intros HS Hd Hout Hdr Hev Hrp Hr Hlog.
  destruct (received_same s s' (st_history s HS) Hev Hrp) as [Hrc Hh'].
  apply (Settled_frame s s' []); rewrite ?Hout, ?Hdr, ?Hev, ?Hrp; try done.
  - by rewrite app_nil_r.
  - intros i []%(st_reported s HS). split; [done|]. apply not_elem_of_empty.
  - intros i Hi. by apply elem_of_union_l.
  - intros i Hi. right; left. by apply elem_of_union_r.
Qed.
(** librdkafka sends an event. *)
Lemma Settled_sent s s' ev : Settled s → deliveries s' = deliveries s → dropped s' = dropped s →
  events s' = events s ++ [ev] → reported s' = reported s ++ option_list (event_report ev) →
  reporter s' = reporter s → log s' = log s →
  match event_token ev with
  | Some i => is_Some (deliveries s !! i) ∧ outstanding s' = outstanding s ∖ {[i]}
  | None => outstanding s' = outstanding s
  end → Settled s'.
Proof.
  intros HS Hd Hdr Hev Hrp Hr Hlog Htok.
  destruct (received_sent s s' ev (st_history s HS) Hev Hrp) as [Hrc Hh'].
  assert (∀ i, i ∈ outstanding s' → i ∈ outstanding s) as Hsub.
  { intros i. destruct (event_token ev); [destruct Htok as [_ ->]; by intros []%elem_of_difference|by rewrite Htok]. }
  assert (omap report_token (option_list (event_report ev)) = option_list (event_token ev)) as Et.
  { unfold event_token. destruct (event_report ev) as [r|]; [|done]. simpl. by destruct (report_token r). }
  apply (Settled_frame s s' []); rewrite ?Hdr; try done.
  - by rewrite app_nil_r.
  - intros i. rewrite Hrp, omap_app, Et, elem_of_app. intros [[? Hn]%(st_reported s HS)|Hi].
    + split; [done|]. by intros ?%Hsub.
    + destruct (event_token ev) as [j|]; [|by apply elem_of_nil in Hi]. apply list_elem_of_singleton in Hi as ->.
      destruct Htok as [? ->]. split; [done|]. intros [_ Hi]%elem_of_difference. by apply Hi, elem_of_singleton.
  - intros i Hi. rewrite Hev, omap_app. apply elem_of_app. by left.
  - intros i Hi. destruct (decide (event_token ev = Some i)) as [Ei|Ei].
    { right; right. rewrite Hev, omap_app. apply elem_of_app. right.
      apply list_elem_of_omap. exists ev. split; [by left|done]. }
    left. destruct (event_token ev) as [j|]; [|by rewrite Htok].
    destruct Htok as [_ ->]. apply elem_of_difference. split; [done|].
    intros ->%elem_of_singleton. done.
Qed.
(** The report goroutine takes the report of a record. *)
Lemma report_taken s s' r i d : Settled s → events s = EReport r :: events s' → reported s' = reported s →
  rep_Token r = TDelivery i → deliveries s !! i = Some d → d_outcome d = None → settling (reporter s) = None →
  History s' ∧ first_report i (received s') = Some r ∧ (i ∉ outstanding s) ∧
  ∀ j, j ≠ i → first_report j (received s') = first_report j (received s).
Proof.
  intros HS Hev Hrp Htok Ed En Hr.
  destruct (received_take s s' _ (st_history s HS) Hev Hrp) as [Hrc Hh']. cbn in Hrc.
  assert (report_token r = Some i) as Et by (unfold report_token; by rewrite Htok).
  assert (first_report i (received s) = None) as Hf by (apply (st_first s HS i d); [done..|congruence]).
  split_and!; [done| | |].
  - rewrite Hrc, first_report_app, Hf. unfold first_report. simpl. by rewrite bool_decide_eq_true_2.
  - apply (st_events s i HS). rewrite Hev. unfold event_token. simpl. rewrite Et. by left.
  - intros j Hj. rewrite Hrc. apply first_report_other. congruence.
Qed.
Lemma Settled_hold s s' r i d o err l : Settled s → deliveries s' = deliveries s →
  outstanding s' = outstanding s → dropped s' = dropped s → events s = EReport r :: events s' →
  reported s' = reported s → rep_Token r = TDelivery i → deliveries s !! i = Some d → d_outcome d = None →
  outcome_of (d_record d) r = (o, Some err) → settling (reporter s) = None →
  reporter s' = match onDeliveryError cfg with Some _ => RFailed i o err | None => RResolve i o err end →
  log s' = log s ++ l → forallb neutral l = true → Settled s'.
Proof.
  intros HS Hd Hout Hdr Hev Hrp Htok Ed En Hof Hr Hr' Hlog Hneu.
  destruct (report_taken s s' r i d HS Hev Hrp Htok Ed En Hr) as (Hh' & Hf & Hni & Hoth).
  assert (settling (reporter s') = Some i) as Hset by (rewrite Hr'; by destruct (onDeliveryError cfg)).
  assert (event_token (EReport r) = Some i) as Et by (unfold event_token, report_token; cbn; by rewrite Htok).
  apply (Settled_same s s' l); rewrite ?Hout, ?Hdr, ?Hrp; try done.
  - apply (st_reported s HS).
  - intros j d' Ed'. destruct (decide (j = i)) as [->|Hj]; [right; by simplify_eq|left; by apply Hoth].
  - intros j o' err' Hx. assert (j = i ∧ o' = o ∧ err' = err) as (-> & -> & ->).
    { rewrite Hr' in Hx. by destruct (onDeliveryError cfg), Hx as [[= -> -> ->]|[= -> -> ->]]. }
    by exists d, r.
  - intros j d' Ed' En'. rewrite Hev, Hr, Hset. simpl. rewrite Et.
    intros [?|[?|[[->|?]%elem_of_cons|?]]]; auto; done.
  - intros j Hj. congruence.
  - intros j o' err' Hx. edestruct settling_None; [exact Hr|by right].
  - intros j o' err'. rewrite Hr'. destruct (onDeliveryError cfg); [done|by right].
Qed.
(** A report of a record already resolved, of none, or an error of the client. *)
Lemma Settled_skip s s' ev l : Settled s → deliveries s' = deliveries s →
  outstanding s' = outstanding s → dropped s' = dropped s → events s = ev :: events s' →
  reported s' = reported s → settling (reporter s) = None → settling (reporter s') = None →
  log s' = log s ++ l → forallb neutral l = true →
  (∀ i, event_token ev = Some i → ∃ d, deliveries s !! i = Some d ∧ resolved d = true) → Settled s'.
Proof.
  intros HS Hd Hout Hdr Hev Hrp Hr Hr' Hlog Hneu Htok.
  destruct (received_take s s' _ (st_history s HS) Hev Hrp) as [Hrc Hh'].
  assert (∀ i d, event_token ev = Some i → deliveries s !! i = Some d → d_outcome d = None → False) as Hno.
  { intros i d Et Ed En. destruct (Htok i Et) as (d' & Ed' & Hrd). assert (d' = d) as -> by congruence.
    unfold resolved in Hrd. apply bool_decide_eq_true_1 in Hrd. rewrite En in Hrd. by destruct Hrd. }
  apply (Settled_same s s' l); rewrite ?Hout, ?Hdr, ?Hrp; try done.
  - apply (st_reported s HS).
  - intros i d Ed. left. rewrite Hrc. destruct (decide (event_token ev = Some i)) as [Et|Et].
    + destruct (d_outcome d) as [o|] eqn:Eo; [|by destruct (Hno i d)].
      destruct (st_outcome s HS i d o Ed Eo) as (r & Er & _). by rewrite Er, (first_report_keep _ _ _ _ Er).
    + unfold event_token in Et. destruct (event_report ev) as [r|]; [|by rewrite app_nil_r].
      by apply first_report_other.
  - intros i o err Hx. by edestruct settling_None.
  - intros i d Ed En. rewrite Hev, Hr, Hr'. simpl. intros [?|[?|[Hi|?]]]; try tauto.
    destruct (event_token ev) as [j|] eqn:Et; [|tauto].
    apply elem_of_cons in Hi as [->|?]; [by destruct (Hno j d)|tauto].
  - congruence.
  - intros i o err Hx. edestruct settling_None; [exact Hr|by right].
  - intros i o err Hx. edestruct settling_None; [exact Hr'|by right].
Qed.
Lemma effect_Settled s s' : Settled s → effect s s' → Settled s'.
Proof.
  intros HS Heff. pose proof HS as [Hh Ho Hrt Hs _ _ _ _ _ _ _ Hcall].
  destruct Heff as [l Hd Hout Hdr Hev Hrp Hr Hr' Hlog Hneu|l Hd Hout Hdr Hev Hrp Hr Hlog Hneu
    | | | | | |r i d o l Hd Hout Hdr Hev Hrp Htok Ed En Hof Hr Hr' Hlog Hneu
    | |i o err Hd Hout Hdr Hev Hrp Hr Hr' Hlog].
  - destruct (received_same s s' Hh Hev Hrp) as [Hrc Hh'].
    apply (Settled_same s s' l); rewrite ?Hout, ?Hdr, ?Hev, ?Hrp, ?Hrc; try done.
    + by left.
    + intros i o err Hx. by edestruct settling_None.
    + rewrite Hr, Hr'. auto.
    + congruence.
    + intros i o err Hx. edestruct settling_None; [exact Hr|by right].
    + intros i o err Hx. edestruct settling_None; [exact Hr'|by right].
  - destruct (received_same s s' Hh Hev Hrp) as [Hrc Hh'].
    apply (Settled_frame s s' l); rewrite ?Hout, ?Hdr, ?Hev, ?Hrp; try done. auto.
  - by eapply Settled_accept.
  - by eapply Settled_drop.
  - by eapply Settled_sent.
  - by eapply Settled_skip.
  - by eapply Settled_hold.
  - destruct (report_taken s s' r i d HS Hev Hrp Htok Ed En Hr) as (Hh' & Hf & Hni & Hoth).
    eapply (Settled_resolve s s' i d r); try done.
    + intros j Hj. split; [by apply Hoth|congruence].
    + intros j Hj. rewrite Hev. unfold event_token, report_token. simpl. rewrite Htok. by intros [->|?]%elem_of_cons.
    + intros j o' err Hx. edestruct settling_None; [exact Hr|by right].
  - by eapply Settled_callback.
  - destruct (Hs i o err (or_intror Hr)) as (d & r & Ed & En & Hf & Hof).
    destruct (received_same s s' Hh Hev Hrp) as [Hrc Hh'].
    eapply (Settled_resolve s s' i d r _ []); try done.
    + by destruct (first_reported s i r HS Hf).
    + by rewrite Hrc.
    + intros j Hj. rewrite Hrc, Hr. split; [done|]. by intros [= ->].
    + by rewrite Hev.
    + intros j o' err' Hx. rewrite Hr in Hx. by injection Hx as -> -> ->.
    + intros Hc o' err' [= <- <-]. destruct (Hcall Hc) as [Hc1 _]. by eapply Hc1.
Qed.

(** *** What is reported and what is settled *)

(** An outcome is that of the first report librdkafka sent of the record. *)
Lemma outcome_reported s i d o : Settled s → deliveries s !! i = Some d → d_outcome d = Some o →
  ∃ r, first_report i (reported s) = Some r ∧ o = outcome_of (d_record d) r.
Proof.
  intros HS Ed (r & Er & ->)%(st_outcome s HS i d o Ed). exists r. split; [|done].
  rewrite (st_history s HS). by apply first_report_keep.
Qed.
(** Once all that was sent is received, each has its outcome. *)
Lemma reported_settled s i r : Settled s → events s = [] → settling (reporter s) = None →
  first_report i (reported s) = Some r →
  ∃ d, deliveries s !! i = Some d ∧ d_outcome d = Some (outcome_of (d_record d) r).
Proof.
  intros HS He Hs Er. pose proof (st_history s HS) as Hh. unfold History in Hh. rewrite He, app_nil_r in Hh.
  rewrite Hh in Er. destruct (first_reported s i r HS Er) as [[d Ed] _]. exists d. split; [done|].
  destruct (d_outcome d) as [o|] eqn:Eo.
  - destruct (st_outcome s HS i d o Ed Eo) as (r' & Er' & ->). congruence.
  - rewrite (st_first s HS i d Ed Eo) in Er; [done|congruence].
Qed.
(** What the callback is told is what the report says. *)
Lemma callback_reported s i err : Settled s → LCallback i err ∈ log s →
  ∃ d r e, deliveries s !! i = Some d ∧ first_report i (reported s) = Some r ∧ rep_Err r = Some e ∧
    err = newDeliveryError (d_record d) (rep_Partition r) e.
Proof.
  intros HS Hin. assert (∃ d r o, deliveries s !! i = Some d ∧ first_report i (received s) = Some r ∧
    outcome_of (d_record d) r = (o, Some err)) as (d & r & o & Ed & Er & Ho).
  { destruct (st_callback s HS i err Hin) as [[o Hr]|(d & o & Ed & Eo)].
    - destruct (st_settling s HS i o err (or_intror Hr)) as (d & r & Ed & _ & Er & Ho). eauto 10.
    - destruct (st_outcome s HS i d _ Ed Eo) as (r & Er & Ho). eauto 10. }
  unfold outcome_of in Ho. destruct (rep_Err r) as [e|] eqn:Ee; [|done]. injection Ho as _ <-.
  exists d, r, e. split_and!; try done. rewrite (st_history s HS). by apply first_report_keep.
Qed.

Lemma reachable_Settled ts s : reachable cfg ts s → Accepted s ∧ Settled s.
Proof.
  induction 1 as [Hf|a s s' _ [Ha HS] Hstep]; [by split; [apply initial_Accepted|apply initial_Settled]|].
  split; [by eapply step_Accepted|]. eapply effect_Settled; [done|]. eapply step_effect; [done| |done].
  intros i Hi. destruct (st_out s HS i Hi) as (d & -> & _). eauto.
Qed.
End settlement.
