(* ===== verification/PubSafety.v ===== *)
(** * What the publisher guarantees

    Every accepted record is settled exactly once, and before [Close] returns;
    nothing is accepted once shutdown has begun; a fatal error is permanent; and the
    log tells outages from recoveries. *)
From S2P Require Import Prelude GoStrings GoErrors GoTime GoAny RWMutex Kfk PubDriver PubOptions Delivery Publisher.
From S2P Require Import PubInvariants.

Section counts.
Context {D F P : Type} (cfg : config (DeliveryErrorFunc:=D) (FatalFunc:=F) (Factory:=P)).
Implicit Types s : pub.

(** Once [closed] is set, no step accepts a record. *)
Lemma closed_step a s s' : Shutdown s → closed s = true → step cfg a s = Some s' →
  closed s' = true ∧ outstanding s' ⊆ outstanding s ∧
  ∀ k, is_Some (deliveries s' !! k) → is_Some (deliveries s !! k).
Proof.
  intros HS Hc Hstep. destruct a as [i x|panics|i p o err|err|r]; unfold step in Hstep.
  - destruct (threads s !! i) as [[record pc|pc]|] eqn:Et; [| |done].
    + pose proof (sd_open s HS i _ Et) as Ho. rewrite Hc in Ho.
      unfold enqueue_step in Hstep. destruct pc; repeat (case_match; try done); simplify_eq;
        first [by split_and!|by specialize (Ho eq_refl)].
    + unfold close_step in Hstep. destruct pc; repeat (case_match; try done); simplify_eq; cbn;
        by split_and!.
  - unfold_report in Hstep.
    repeat (case_match; try done); simplify_option_eq; repeat (case_match; try done); simplify_eq;
      cbn; (split_and!; [done|done|]); intros j; try done; by rewrite lookup_alter_is_Some.
  - case_match; simplify_eq. split_and!; [done| |done]. cbn. apply subseteq_difference_l. done.
  - case_match; by simplify_eq.
  - case_match; by simplify_eq.
Qed.
Lemma closed_run actions : ∀ s s', Shutdown s → closed s = true → run cfg actions s = Some s' →
  closed s' = true ∧ outstanding s' ⊆ outstanding s ∧
  ∀ k, is_Some (deliveries s' !! k) → is_Some (deliveries s !! k).
Proof.
  induction actions as [|a actions IH]; intros s s' HS Hc; simpl; [by intros [= ->]|].
  destruct (step cfg a s) as [s1|] eqn:E; [|done]. simpl. intros Hr.
  destruct (closed_step a s s1 HS Hc E) as (Hc1 & Ho1 & Hd1).
  destruct (IH s1 s') as (Hc2 & Ho2 & Hd2); [by eapply step_Shutdown|done|done|].
  split_and!; [done|by etrans|]. auto.
Qed.

(** What [Close] knows of what is left, as it goes. *)
Definition counted (pc : closer_pc) s : Prop :=
  match pc with
  | KDrain n => n = 0%nat → outstanding s = ∅
  | KPurge n | KFinalFlush n => (0 < n)%nat
  | KClosing n rest => (rest = 0%nat → outstanding s = ∅) ∧ (n = 0%nat → rest = 0%nat)
  | KReports n rest => (rest = 0%nat → dropped s = ∅) ∧ (n = 0%nat → rest = 0%nat)
  | KDone (Some (n, rest)) err =>
      (rest = 0%nat → dropped s = ∅) ∧ (n = 0%nat → rest = 0%nat) ∧ err = close_error n (fatal s)
  | _ => True
  end.
Record Counts s : Prop := {
  ct_closer i pc : threads s !! i = Some (Closer pc) → counted pc s;
  ct_dropped : producer_closed s = false → dropped s = ∅;
  ct_out : producer_closed s = true → outstanding s = ∅;
}.

Lemma counted_owner pc s : owner (Closer pc) = false → counted pc s.
Proof. by destruct pc as [| | | | | | | | | | | |[] ]. Qed.
Lemma counted_keep s s' pc :
  (outstanding s = ∅ → outstanding s' = ∅) → (dropped s = ∅ → dropped s' = ∅) →
  (reporter s = RDone → fatal s' = fatal s) → (∀ nr err, pc = KDone (Some nr) err → reporter s = RDone) →
  counted pc s → counted pc s'.
Proof.
  intros Ho Hd Hf Hr. destruct pc as [| | | | | | | | | | | |[[n rest]|] err]; simpl; try tauto.
  intros (H1 & H2 & ->). rewrite Hf by (by eapply Hr). tauto.
Qed.

(** What the steps of goroutines do to what [counted] reads. *)
Lemma sender_frame i record pc x s s' : enqueue_step i record pc x s = Some s' →
  (∃ pc', threads s' = <[i := Sender record pc']> (threads s)) ∧
  dropped s' = dropped s ∧ fatal s' = fatal s ∧ producer_closed s' = producer_closed s.
Proof. unfold enqueue_step. intros E. destruct pc; repeat (case_match; try done); simplify_eq; eauto. Qed.
Lemma count_ok_zero n s : count_ok n s = true → n = 0%nat → outstanding s = ∅.
Proof. intros Hc ->. unfold count_ok in Hc. by apply bool_decide_eq_true_1 in Hc. Qed.
Lemma closer_counted i pc x s s' : close_step i pc x s = Some s' →
  counted pc s → (∀ n rest, pc = KClosing n rest → dropped s = ∅) →
  ∃ pc', threads s' = <[i := Closer pc']> (threads s) ∧ counted pc' s'.
Proof.
  intros E Hc Hd. unfold close_step in E.
  destruct pc; repeat (case_match; try done); simplify_eq; (eexists; split; [done|]); simpl in *;
    try done; try (by intros; eapply count_ok_zero); try lia.
  - by apply Nat.ltb_lt.
  - split; [|done]. intros _. apply Hc. repeat match goal with H : (0 <? _)%nat = false |- _ => apply Nat.ltb_ge in H end. lia.
  - split; [by eapply count_ok_zero|lia].
  - rewrite (Hd _ _ eq_refl). split; [|tauto]. intros Hr. destruct Hc as [Ho _]. rewrite (Ho Hr). apply union_empty_l_L.
  - by destruct Hc.
Qed.
Lemma closer_frame i pc x s s' : close_step i pc x s = Some s' →
  fatal s' = fatal s ∧
  (owner (Closer pc) = false → outstanding s' = outstanding s ∧ dropped s' = dropped s) ∧
  (producer_closed s' = false → producer_closed s = false ∧ dropped s' = dropped s).
Proof.
  intros E. unfold close_step in E.
  destruct pc; repeat (case_match; try done); by simplify_eq.
Qed.
Lemma report_frame panics s s' : report_step cfg panics s = Some s' →
  threads s' = threads s ∧ dropped s' = dropped s ∧ outstanding s' = outstanding s ∧
  producer_closed s' = producer_closed s ∧ reporter s ≠ RDone.
Proof.
  unfold_report.
  intros E. repeat (case_match; try done); simplify_option_eq; repeat (case_match; try done); simplify_eq;
    split_and!; done.
Qed.

Lemma closes_empty a s s' : step cfg a s = Some s' → producer_closed s = false →
  producer_closed s' = true → outstanding s' = ∅.
Proof.
  intros Hstep Hp Hp'. destruct a as [i x|panics|i p o err|err|r]; unfold step in Hstep.
  - destruct (threads s !! i) as [[record pc|pc]|]; [| |done].
    + destruct (sender_frame _ _ _ _ _ _ Hstep) as (_ & _ & _ & Hpc). congruence.
    + unfold close_step in Hstep. destruct pc; repeat (case_match; try done); simplify_eq; simpl in *; congruence.
  - destruct (report_frame _ _ _ Hstep) as (_ & _ & _ & Hpc & _). congruence.
  - case_match; simplify_eq. simpl in Hp'. congruence.
  - case_match; simplify_eq. simpl in Hp'. congruence.
  - case_match; simplify_eq. simpl in Hp'. congruence.
Qed.

Lemma step_Counts a s s' : Shutdown s → Counts s → step cfg a s = Some s' → Counts s'.
Proof.
  intros HS [Hc Hd Hz] Hstep.
  assert (producer_closed s' = true → outstanding s' = ∅) as Hz'.
  { intros Hp'. destruct (producer_closed s) eqn:Hp; [|by eapply closes_empty].
    destruct (closed_step a s s' HS (sd_producer s HS Hp) Hstep) as (_ & Hsub & _).
    rewrite Hz in Hsub by done. apply set_eq. intros k. split; [apply Hsub|by intros ?%elem_of_empty]. }
  assert (∀ j pc, threads s !! j = Some (Closer pc) → ∀ nr err, pc = KDone (Some nr) err → reporter s = RDone)
    as Hdone.
  { intros j pc Ej nr err ->. by destruct (sd_closeErr s HS err (sd_done s HS j _ _ Ej)). }
  destruct a as [i x|panics|i p o err|err|r]; unfold step in Hstep.
  - destruct (threads s !! i) as [[record pc|pc]|] eqn:Et; [| |done].
    + destruct (sender_frame _ _ _ _ _ _ Hstep) as ([pc' Hth] & Hdr & Hf & Hp). split; [| |done].
      * intros j pcj. rewrite Hth. intros [[<- ?]|[Hij Ej]]%lookup_insert_Some; [done|].
        destruct (owner (Closer pcj)) eqn:Ho; [|by apply counted_owner].
        destruct (sd_owner s HS j _ Ej Ho) as [Hcl _].
        destruct (closed_step (AThread i x) s s' HS Hcl) as (_ & Hsub & _); [by unfold step; rewrite Et|].
        apply (counted_keep s); [|by rewrite Hdr|done|by eapply Hdone|by eapply Hc].
        intros Hem. rewrite Hem in Hsub. apply set_eq. intros k. split; [apply Hsub|by intros ?%elem_of_empty].
      * rewrite Hp, Hdr. done.
    + assert (∀ n rest, pc = KClosing n rest → dropped s = ∅) as Hdcl.
      { intros n rest ->. apply Hd. by destruct (sd_owner s HS i _ Et eq_refl) as [_ ->]. }
      destruct (closer_counted _ _ _ _ _ Hstep (Hc i pc Et) Hdcl) as (pc' & Hth & Hpc').
      destruct (closer_frame _ _ _ _ _ Hstep) as (Hf & Hno & Hp). split; [| |done].
      * intros j pcj. rewrite Hth. intros [[<- [= <-]]|[Hij Ej]]%lookup_insert_Some; [done|].
        destruct (owner (Closer pcj)) eqn:Ho; [|by apply counted_owner].
        destruct (owner (Closer pc)) eqn:Hoi; [by destruct Hij, (sd_unique s HS i j _ _ Et Ej Hoi Ho)|].
        destruct (Hno eq_refl) as [Hout Hdr].
        apply (counted_keep s); [by rewrite Hout|by rewrite Hdr|done|by eapply Hdone|by eapply Hc].
      * intros Hpf. destruct (Hp Hpf) as [? ->]. auto.
  - destruct (report_frame _ _ _ Hstep) as (Hth & Hdr & Hout & Hp & Hr). split; [|by rewrite Hp, Hdr|done].
    intros j pcj. rewrite Hth. intros Ej.
    apply (counted_keep s); [by rewrite Hout|by rewrite Hdr|done|by eapply Hdone|by eapply Hc].
  - case_match; simplify_eq. split; [|done|done]. intros j pcj Ej.
    apply (counted_keep s); [|done|done|by eapply Hdone|by eapply Hc]. cbn. intros ->. apply set_eq. intros k. split; [by intros []%elem_of_difference|by intros ?%elem_of_empty].
  - case_match; simplify_eq. split; [|by auto|done]. intros j pcj Ej. by apply Hc in Ej.
  - case_match; simplify_eq. split; [|by auto|done]. intros j pcj Ej. by apply Hc in Ej.
Qed.
Lemma reachable_Counts ts s : reachable cfg ts s → Counts s.
Proof.
  induction 1 as [Hf|a s s' Hr IH Hstep].
  - split; [|done|done]. intros i pc Ei. specialize (Hf i _ Ei). by destruct pc.
  - eapply step_Counts; [by eapply reachable_Shutdown|done..].
Qed.
End counts.

(** ** What [Close] says of the records it gives up *)

Lemma omap_snoc {A} (f : pevent → option A) (l : list pevent) e :
  omap f (l ++ [e]) = omap f l ++ option_list (f e).
Proof. rewrite omap_app. simpl. by destruct (f e). Qed.

Definition purging_line (e : pevent) : option nat := match e with LPurging n => Some n | _ => None end.
(** The count a [Close] has announced as lost, by how far it is. *)
Definition announced (t : thread) : list nat :=
  match t with
  | Closer (KPurge n | KFinalFlush n) => [n]
  | Closer (KClosing n _ | KReports n _ | KDone (Some (n, _)) _) => if (0 <? n)%nat then [n] else []
  | _ => []
  end.

Section purges.
Context {D F P : Type} (cfg : config (DeliveryErrorFunc:=D) (FatalFunc:=F) (Factory:=P)).
Implicit Types s : pub.

Record Purges s : Prop := {
  pg_open : closed s = false → omap purging_line (log s) = [];
  pg_owner i t : threads s !! i = Some t → owner t = true → omap purging_line (log s) = announced t;
}.

Lemma sender_purging i record pc x s s' : enqueue_step i record pc x s = Some s' →
  omap purging_line (log s') = omap purging_line (log s) ∧ closed s' = closed s.
Proof.
  unfold enqueue_step. intros E. destruct pc; repeat (case_match; try done); simplify_eq; cbn;
    by rewrite ?omap_snoc, ?app_nil_r.
Qed.
Lemma report_purging panics s s' : report_step cfg panics s = Some s' →
  omap purging_line (log s') = omap purging_line (log s) ∧ closed s' = closed s.
Proof.
  unfold_report.
  intros E. repeat (case_match; try done); simplify_option_eq; repeat (case_match; try done); simplify_eq;
    cbn; by rewrite ?omap_snoc, ?app_nil_r.
Qed.
(** The step of a [Close]: what it has said is what it knows. *)
Lemma closer_purging i pc x s s' : close_step i pc x s = Some s' → Purges s → counted pc s →
  threads s !! i = Some (Closer pc) → (owner (Closer pc) = true → closed s = true) →
  ∃ pc', threads s' = <[i := Closer pc']> (threads s) ∧
    (owner (Closer pc') = true → omap purging_line (log s') = announced (Closer pc')) ∧
    (owner (Closer pc) = false → log s' = log s) ∧
    (closed s' = false → closed s = false ∧ log s' = log s).
Proof.
  intros E [Ho Hw] Hc Et Hcl. pose proof (Hw i _ Et) as Hl. unfold close_step in E.
  destruct pc; repeat (case_match; try done); simplify_eq; (eexists; split; [done|]); simpl in *;
    (split_and!; [|done|try done; intros ?; try specialize (Hcl eq_refl); congruence]); try done; intros _;
    rewrite ?omap_snoc, ?Hl, ?app_nil_r by done; try done; try (by apply Ho);
    try (by apply Nat.ltb_lt in Hc as ->).
Qed.
Lemma step_Purges a s s' : Shutdown s → Counts s → Purges s → step cfg a s = Some s' → Purges s'.
Proof.
  intros HS HC HP Hstep. pose proof HP as [Ho Hw].
  destruct a as [i x|panics|i p o err|err|r]; unfold step in Hstep.
  - destruct (threads s !! i) as [[record pc|pc]|] eqn:Et; [| |done].
    + destruct (sender_frame _ _ _ _ _ _ Hstep) as ([pc' Hth] & _).
      destruct (sender_purging _ _ _ _ _ _ Hstep) as [Hl Hc]. split; rewrite Hl; [by rewrite Hc|].
      intros j t. rewrite Hth. intros [[<- <-]|[_ Ej]]%lookup_insert_Some; [done|]. by eapply Hw.
    + destruct (closer_purging _ _ _ _ _ Hstep HP (ct_closer s HC i pc Et) Et) as (pc' & Hth & Hl & Hno & Hc).
      { intros Hi. by destruct (sd_owner s HS i _ Et Hi). }
      split.
      * intros [? ->]%Hc. auto.
      * intros j t. rewrite Hth. intros [[<- <-]|[Hij Ej]]%lookup_insert_Some Hj; [auto|].
        destruct (owner (Closer pc)) eqn:Hoi; [by destruct Hij, (sd_unique s HS i j _ _ Et Ej Hoi Hj)|].
        rewrite (Hno eq_refl). by eapply Hw.
  - destruct (report_purging _ _ _ Hstep) as [Hl Hc]. destruct (report_frame _ _ _ _ Hstep) as (Hth & _).
    split; rewrite ?Hl, ?Hc, ?Hth; done.
  - case_match; simplify_eq. by split.
  - case_match; simplify_eq. by split.
  - case_match; simplify_eq. by split.
Qed.
Lemma reachable_Purges ts s : reachable cfg ts s → Purges s.
Proof.
  induction 1 as [Hf|a s s' Hr IH Hstep].
  - split; [done|]. intros i t Ei. specialize (Hf i _ Ei). by destruct t as [|[]].
  - eapply step_Purges; [by eapply reachable_Shutdown|by eapply reachable_Counts|done..].
Qed.
End purges.

(** ** What the report goroutine notes: fatal errors and the connection *)

Definition fatal_line (e : pevent) : option goerr := match e with LFatal err => Some err | _ => None end.
Definition handler_line (e : pevent) : option goerr :=
  match e with LFatalHandler err => Some err | _ => None end.

(** The log read as a report of the connection: whether it is down, and how many
    errors were not logged since; [None] when the lines do not fit together. *)
Definition link_step (link : option (bool * Z)) (e : pevent) : option (bool * Z) :=
  match link with
  | None => None
  | Some (down, n) =>
      match e with
      | LBrokerDown => if down then None else Some (true, 0)
      | LStillDown => if down then Some (true, wrap64 (n + 1)) else None
      | LBrokerRestored k => if down && (k =? n) then Some (false, 0) else None
      | _ => link
      end
  end.
Definition link_log (log : list pevent) : option (bool * Z) := foldl link_step (Some (false, 0)) log.
Definition unrelated (e : pevent) : bool :=
  match e with
  | LFatal _ | LFatalHandler _ | LBrokerDown | LStillDown | LBrokerRestored _ => false
  | _ => true
  end.

Section noted.
Context {D F P : Type} (cfg : config (DeliveryErrorFunc:=D) (FatalFunc:=F) (Factory:=P)).
Implicit Types s : pub.

Definition handled s : list goerr :=
  match onFatal cfg, reporter s with
  | Some _, RFatal _ | None, _ => []
  | Some _, _ => option_list (fatal s)
  end.
Record Noted s : Prop := {
  nt_fatal e : fatal s = Some e → errors_Is (Some e) ErrFatal = true;
  nt_line : omap fatal_line (log s) = option_list (fatal s);
  nt_handler : omap handler_line (log s) = handled s;
  nt_pending e : reporter s = RFatal e → fatal s = Some e ∧ is_Some (onFatal cfg);
  nt_link : link_log (log s) = Some (brokerDown s, suppressed s);
  nt_up : brokerDown s = false → suppressed s = 0;
}.

Lemma fatal_error_Is e : errors_Is (Some (fatal_error e)) ErrFatal = true.
Proof. unfold fatal_error. by destruct (errors_Is (Some (kafka_err e)) ErrFatal) eqn:E. Qed.

Lemma unrelated_lines l : forallb unrelated l = true →
  omap fatal_line l = [] ∧ omap handler_line l = [] ∧ ∀ k, foldl link_step k l = k.
Proof.
  induction l as [|e l IH]; [done|]. simpl. intros [He Hl]%andb_true_iff.
  destruct (IH Hl) as (IH1 & IH2 & IH3).
  destruct e; try done; (split_and!; [done|done|]); intros [[? ?]|]; apply IH3.
Qed.
Lemma Noted_frame s s' l : Noted s → log s' = log s ++ l → forallb unrelated l = true →
  fatal s' = fatal s → brokerDown s' = brokerDown s → suppressed s' = suppressed s →
  handled s' = handled s → (∀ e, reporter s' = RFatal e → reporter s = RFatal e) → Noted s'.
Proof.
  intros [Hf Hl Hh Hp Hk Hu] Hlog Hun Hfa Hb Hs Hhd Hr.
  destruct (unrelated_lines l Hun) as (H1 & H2 & H3).
  split; rewrite ?Hlog, ?Hfa, ?Hb, ?Hs, ?Hhd; try done.
  - by rewrite omap_app, H1, app_nil_r.
  - by rewrite omap_app, H2, app_nil_r.
  - intros e He. by apply Hp, Hr.
  - unfold link_log. rewrite foldl_app, H3. done.
Qed.
(** One line said. *)
Lemma link_snoc l e : link_log (l ++ [e]) = link_step (link_log l) e.
Proof. unfold link_log. by rewrite foldl_app. Qed.

Lemma noteConnected_Noted s : Noted s → Noted (noteConnected s).
Proof.
  intros [Hf Hl Hh Hp Hk Hu]. unfold noteConnected. destruct (brokerDown s) eqn:Eb; [|by split; rewrite ?Eb].
  split; cbn; rewrite ?omap_snoc, ?link_snoc, ?app_nil_r; try done.
  rewrite Hk. simpl. by rewrite Z.eqb_refl.
Qed.
Lemma noteClientError_Noted err s : reporter s = RReceive → Noted s → Noted (noteClientError cfg err s).
Proof.
  intros Hr [Hf Hl Hh Hp Hk Hu]. unfold noteClientError, noteFatal, invokeFatalHandler. unfold handled in *.
  destruct (ke_Fatal err).
  - destruct (fatal s) as [e|] eqn:Ef.
    + split; unfold handled; cbn; rewrite ?omap_snoc, ?link_snoc, ?app_nil_r, ?Ef; try done. by rewrite Hk.
    + assert (∀ e, Some (fatal_error err) = Some e → errors_Is (Some e) ErrFatal = true) as Hfe.
      { intros e [= <-]. apply fatal_error_Is. }
      rewrite Hr in Hh.
      destruct (onFatal cfg) as [f|] eqn:Eo; split; unfold handled; cbn;
        rewrite ?omap_snoc, ?link_snoc, ?app_nil_r, ?Eo, ?Hl, ?Hk, ?Hr; try done.
      intros e [= ->]. by eauto.
  - destruct (ke_Disconnected err).
    + destruct (brokerDown s) eqn:Eb.
      * split; unfold handled; cbn; rewrite ?omap_snoc, ?link_snoc, ?app_nil_r, ?Hk; done.
      * split; unfold handled; cbn; rewrite ?omap_snoc, ?link_snoc, ?app_nil_r, ?Hk, ?Hu by done; done.
    + split; unfold handled; cbn; rewrite ?omap_snoc, ?link_snoc, ?app_nil_r, ?Hk; done.
Qed.

Ltac framed l := eapply (Noted_frame _ _ l); [done|cbn|done|done|done|done| |];
  [first [done|by rewrite app_nil_r|by rewrite <-app_assoc]| |];
  unfold handled; cbn; try done.

Lemma settle_Noted r s s' : reporter s = RReceive → Noted s → settle cfg r s = Some s' → Noted s'.
Proof.
  intros Hr Hn Hs. unfold settle, logUnmatchedReport in Hs. destruct (rep_Token r) as [i|typ]; [|simplify_eq; framed [LUnmatched ("its token is a " +:+ typ +:+ ", not a delivery")]].
  destruct (deliveries s !! i) as [d|]; [|done]. cbn in Hs.
  destruct (resolved d); simplify_eq.
  { by framed [LUnmatched ("second report for a record already resolved, topic " +:+ r_Topic (d_record d))]. }
  destruct (rep_Err r) as [e|]; simplify_eq.
  - framed [LDeliveryFailed i (newDeliveryError (d_record d) (rep_Partition r) e)]; rewrite Hr;
      by destruct (onDeliveryError cfg).
  - apply noteConnected_Noted in Hn. unfold resolve_delivery.
    by framed [LResolved i (mkResult (r_Topic (d_record d)) (rep_Partition r) (rep_Offset r), None)].
Qed.
Lemma report_Noted panics s s' : Noted s → report_step cfg panics s = Some s' → Noted s'.
Proof.
  intros Hn Hs. pose proof Hn as [Hf Hl Hh Hp Hk Hu]. unfold report_step in Hs.
  destruct (reporter s) as [|i o err|i o err|err|] eqn:Er; [| | | |done].
  - assert (∀ es, Noted (set_events es s)) as Hes by (intros es; by framed (@nil pevent)).
    destruct (events s) as [|[r|e] es]; simplify_eq.
    + destruct (producer_closed s); simplify_eq. framed (@nil pevent). by rewrite Er.
    + by eapply settle_Noted, Hs.
    + by apply noteClientError_Noted.
  - destruct panics as [v|]; simplify_eq; unfold say_panic.
    + framed [LCallback i err; LCallbackPanic v]. by rewrite Er.
    + framed [LCallback i err]. by rewrite Er.
  - simplify_eq. unfold resolve_delivery. framed [LResolved i (o, Some err)]. by rewrite Er.
  - destruct (Hp err eq_refl) as [Hfa [f Hf']]. unfold handled in Hh. rewrite Er, Hf' in Hh.
    destruct panics as [v|]; simplify_eq; unfold say_panic;
      (split; unfold handled; cbn; rewrite ?omap_snoc, ?link_snoc, ?app_nil_r, ?Hh, ?Hk, ?Hl, ?Hf', ?Hfa;
       try done; by rewrite <-Hfa).
Qed.

Lemma step_Noted a s s' : Noted s → step cfg a s = Some s' → Noted s'.
Proof.
  intros Hn Hstep. destruct a as [i x|panics|i p o err|err|r]; unfold step in Hstep.
  - destruct (threads s !! i) as [[record pc|pc]|]; [| |done].
    + unfold enqueue_step in Hstep. destruct pc; repeat (case_match; try done); simplify_eq;
        first [by framed (@nil pevent)|by framed [LAccepted i]].
    + unfold close_step in Hstep. destruct pc; repeat (case_match; try done); simplify_eq;
        first [by framed (@nil pevent)|by eapply Noted_frame with (l := [_])].
  - by eapply report_Noted.
  - case_match; simplify_eq. by framed (@nil pevent).
  - case_match; simplify_eq. by framed (@nil pevent).
  - case_match; simplify_eq. by framed (@nil pevent).
Qed.
Lemma reachable_Noted ts s : reachable cfg ts s → Noted s.
Proof.
  induction 1; [|by eapply step_Noted]. split; try done. unfold handled. simpl. by destruct (onFatal cfg).
Qed.
End noted.

(** ** After a fatal error *)

Section fatal.
Context {D F P : Type} (cfg : config (DeliveryErrorFunc:=D) (FatalFunc:=F) (Factory:=P)).
Implicit Types s : pub.

Lemma step_fatal a s s' e : step cfg a s = Some s' → fatal s = Some e → fatal s' = Some e.
Proof.
  intros Hstep Hf. destruct a as [i x|panics|i p o err|err|r]; unfold step in Hstep.
  - destruct (threads s !! i) as [[record pc|pc]|]; [| |done].
    + destruct (sender_frame _ _ _ _ _ _ Hstep) as (_ & _ & -> & _). done.
    + destruct (closer_frame _ _ _ _ _ Hstep) as (-> & _). done.
  - unfold_report in Hstep.
    cbn in Hstep; rewrite ?Hf in Hstep.
    repeat (case_match; try done); simplify_option_eq; repeat (case_match; try done); by simplify_eq.
  - case_match; by simplify_eq.
  - case_match; by simplify_eq.
  - case_match; by simplify_eq.
Qed.

(** A send that starts after the error: it gets the error, or ErrClosed. *)
Definition refused (e : goerr) (record : Record_) (t : thread) : Prop :=
  match t with
  | Sender r (SStart | SLocked | SOpen) => r = record
  | Sender r (SReturning (Some err) | SDone (Some err)) =>
      r = record ∧ (err = ErrClosed ∨ err = not_enqueued record e)
  | _ => False
  end.
Lemma step_refused a s s' i t e record : step cfg a s = Some s' → fatal s = Some e →
  threads s !! i = Some t → refused e record t →
  ∃ t', threads s' !! i = Some t' ∧ refused e record t'.
Proof.
  intros Hstep Hf Et Ht. destruct a as [j x|panics|j p o err|err|r]; unfold step in Hstep.
  - destruct (decide (j = i)) as [->|Hij].
    + rewrite Et in Hstep. destruct t as [r pc|]; [|done]. simpl in Hstep. unfold enqueue_step in Hstep.
      rewrite Hf in Hstep.
      destruct pc as [| | | |[err|]|[err|]]; simpl in Ht; try done; repeat (case_match; try done);
        simplify_eq; cbn; rewrite lookup_insert_eq; eexists; (split; [done|]); simpl; auto.
    + exists t. split; [|done]. destruct (threads s !! j) as [[record' pc|pc]|]; [| |done].
      * destruct (sender_frame _ _ _ _ _ _ Hstep) as ([pc' ->] & _). by rewrite lookup_insert_ne.
      * assert (∃ t', threads s' = <[j := t']> (threads s)) as [t' ->]; [|by rewrite lookup_insert_ne].
        unfold close_step in Hstep. destruct pc; repeat (case_match; try done); simplify_eq; by eexists.
  - destruct (report_frame _ _ _ _ Hstep) as (-> & _). eauto.
  - case_match; simplify_eq. eauto.
  - case_match; simplify_eq. eauto.
  - case_match; simplify_eq. eauto.
Qed.
Lemma run_refused actions e record i : ∀ s s' t, run cfg actions s = Some s' → fatal s = Some e →
  threads s !! i = Some t → refused e record t →
  fatal s' = Some e ∧ ∃ t', threads s' !! i = Some t' ∧ refused e record t'.
Proof.
  induction actions as [|a actions IH]; intros s s' t; simpl; [intros [= ->]; eauto|].
  destruct (step cfg a s) as [s1|] eqn:E; [|done]. simpl. intros Hr Hf Et Ht.
  destruct (step_refused a s s1 i t e record E Hf Et Ht) as (t1 & Et1 & Ht1).
  eapply IH; [done|by eapply step_fatal|done|done].
Qed.
Lemma run_fatal actions e : ∀ s s', run cfg actions s = Some s' → fatal s = Some e → fatal s' = Some e.
Proof.
  induction actions as [|a actions IH]; intros s s'; simpl; [by intros [= ->]|].
  destruct (step cfg a s) as [s1|] eqn:E; [|done]. simpl. intros Hr Hf.
  eapply IH; [done|by eapply step_fatal].
Qed.
End fatal.

(** ** Properties *)

(** C5 (settled once) In every state a publisher can come to, whatever the
    interleaving and whatever reports librdkafka sends, of a record it has reported
    already or of none: each accepted record is resolved at most once and its failure
    told to the callback at most once.  The outcome of a record, which is the one
    logged, is that of the first report librdkafka sent of it: the record's topic
    with the report's partition and offset, no error if the report has none, and
    a DeliveryError with the record's own data and the report's error if it has.  So
    is the error the callback is told.  When all that was sent has been read, every
    record reported has its outcome.  When a callback is set, it has run with the
    error before the delivery of a failed record is resolved. *)
Theorem records_settled_once {D F P : Type} (cfg : config (DeliveryErrorFunc:=D) (FatalFunc:=F) (Factory:=P))
    ts s :
  reachable cfg ts s →
  NoDup (omap resolved_token (log s)) ∧ NoDup (omap callback_token (log s)) ∧
  (∀ i o, LResolved i o ∈ log s ↔ ∃ d, deliveries s !! i = Some d ∧ d_outcome d = Some o) ∧
  (∀ i d o, deliveries s !! i = Some d → d_outcome d = Some o →
     ∃ r, first_report i (reported s) = Some r ∧ o = outcome_of (d_record d) r) ∧
  (events s = [] → settling (reporter s) = None → ∀ i r, first_report i (reported s) = Some r →
     ∃ d, deliveries s !! i = Some d ∧ d_outcome d = Some (outcome_of (d_record d) r)) ∧
  (∀ i err, LCallback i err ∈ log s → ∃ d r e, deliveries s !! i = Some d ∧
     first_report i (reported s) = Some r ∧ rep_Err r = Some e ∧
     err = newDeliveryError (d_record d) (rep_Partition r) e) ∧
  (is_Some (onDeliveryError cfg) → ∀ l1 l2 i o err,
     log s = l1 ++ LResolved i (o, Some err) :: l2 → LCallback i err ∈ l1).
Proof.
  intros Hr. destruct (reachable_Settled cfg ts s Hr) as [_ HS].
  split_and!; [by eapply st_once|by eapply st_callback_once|by eapply st_log|..].
  - intros i d o. by eapply outcome_reported.
  - intros He Hs i r. by eapply reported_settled.
  - intros i err. by eapply callback_reported.
  - intros Hc. by apply (st_called cfg s HS Hc).
Qed.

(** What became of a record, when the report goroutine is at its end: it has the
    outcome of its first report, and if that is a failure the callback has run with
    it; or librdkafka was closed before it reported it. *)
Definition settled_or_dropped {D F P : Type} (cfg : config (DeliveryErrorFunc:=D) (FatalFunc:=F) (Factory:=P))
    (s : pub) (k : nat) (record : Record_) : Prop :=
  ∃ d, deliveries s !! k = Some d ∧ d_record d = record ∧
    match first_report k (reported s) with
    | Some r => d_outcome d = Some (outcome_of record r) ∧
        (is_Some (onDeliveryError cfg) → ∀ e, (outcome_of record r).2 = Some e → LCallback k e ∈ log s)
    | None => d_outcome d = None ∧ k ∈ dropped s
    end.
Lemma done_settled {D F P : Type} (cfg : config (DeliveryErrorFunc:=D) (FatalFunc:=F) (Factory:=P)) ts s k record :
  reachable cfg ts s → reporter s = RDone → threads s !! k = Some (Sender record (SDone None)) →
  settled_or_dropped cfg s k record.
Proof.
  intros Hr Hrd Ek. destruct (reachable_Settled cfg ts s Hr) as [HA HSt].
  destruct (sd_reporter s (reachable_Shutdown cfg ts s Hr) Hrd) as [Hp Hev].
  assert (settling (reporter s) = None) as Hset by (by rewrite Hrd).
  destruct (HA k record _ Ek) as (d & Ed & Hrec). exists d. split; [done|]. split; [done|].
  destruct (first_report k (reported s)) as [r|] eqn:Er.
  - destruct (reported_settled cfg s k r HSt Hev Hset Er) as (d' & Ed' & Eo).
    assert (d' = d) as -> by congruence. subst record. split; [done|].
    intros Hc e He. assert (∃ res, outcome_of (d_record d) r = (res, Some e)) as [res Ho].
    { exists (outcome_of (d_record d) r).1. by rewrite <-He, <-surjective_pairing. }
    assert (LResolved k (res, Some e) ∈ log s) as Hin by (apply (st_log cfg s HSt); rewrite <-Ho; eauto).
    apply list_elem_of_split in Hin as (l1 & l2 & Hl). rewrite Hl. apply elem_of_app. left.
    by eapply (proj2 (st_called cfg s HSt Hc)).
  - destruct (d_outcome d) as [o|] eqn:Eo.
    { destruct (outcome_reported cfg s k d o HSt Ed Eo) as (r & ? & _). congruence. }
    split; [done|]. destruct (st_account cfg s HSt k d Ed Eo) as [Hk|[Hk|[Hk|Hk]]].
    + by rewrite (ct_out s (reachable_Counts cfg ts s Hr) Hp) in Hk.
    + done.
    + rewrite Hev in Hk. by apply elem_of_nil in Hk.
    + congruence.
Qed.

(** C6 (Close reports all) When a [Close] has returned, the first one had counted
    [n] records left at the end of its drain and [rest] after the flush that
    follows a purge; it said so, once, if [n] is not zero, and purged nothing
    otherwise; and the report goroutine is at its end.  Each record the publisher
    ever accepted has then the outcome of the first report librdkafka sent of it,
    and if that is a failure the callback has run with its error; only a record
    librdkafka never reported, which it held when it was closed, has none.  If [rest]
    is zero there is no such record, and [rest] is zero if [n] is.  Every [Close]
    returns the same error, nil exactly when [n] is zero and there was no fatal
    error; it is ErrNotDelivered when records were purged, and wraps the fatal
    error. *)
Theorem Close_reports_all {D F P : Type} (cfg : config (DeliveryErrorFunc:=D) (FatalFunc:=F) (Factory:=P))
    ts s i first err :
  reachable cfg ts s → threads s !! i = Some (Closer (KDone first err)) →
  ∃ j n rest, threads s !! j = Some (Closer (KDone (Some (n, rest)) err)) ∧
    reporter s = RDone ∧ omap purging_line (log s) = (if (0 <? n)%nat then [n] else []) ∧
    (∀ k record, threads s !! k = Some (Sender record (SDone None)) → settled_or_dropped cfg s k record) ∧
    (rest = 0%nat → dropped s = ∅) ∧
    (n = 0%nat → rest = 0%nat) ∧
    (err = None ↔ n = 0%nat ∧ fatal s = None) ∧
    ((0 < n)%nat → errors_Is err ErrNotDelivered = true) ∧
    (∀ e, fatal s = Some e → errors_Is err ErrFatal = true).
Proof.
  intros Hr Ei. pose proof (reachable_Shutdown cfg ts s Hr) as HSd.
  pose proof (reachable_Noted cfg ts s Hr) as HN.
  pose proof (sd_done s HSd i _ _ Ei) as Hce. destruct (sd_closeErr s HSd err Hce) as [Hrd Hown].
  destruct (sd_reporter s HSd Hrd) as [Hp Hev].
  destruct (sd_closed s HSd (sd_producer s HSd Hp)) as (j & t & Ej & Ho).
  destruct (Hown j t Ej Ho) as [[n rest] ->]. exists j, n, rest.
  destruct (ct_closer s (reachable_Counts cfg ts s Hr) j _ Ej) as (Hdrop & Hn0 & Herr).
  split_and!; try done.
  - apply (pg_owner s (reachable_Purges cfg ts s Hr) j _ Ej eq_refl).
  - intros k record. by eapply done_settled.
  - rewrite Herr. unfold close_error. rewrite errors_Join_None, Forall_app.
    destruct (Nat.ltb_spec 0 n), (fatal s); split; intros H'; try done; try lia;
      destruct H' as [H1 H2]; try lia; try (by inversion H1); try (by inversion H2); split; [lia|done].
  - intros Hn. rewrite Herr. unfold close_error. apply Nat.ltb_lt in Hn. rewrite Hn.
    rewrite errors_Is_join. done.
  - intros e He. rewrite Herr. unfold close_error. rewrite He, errors_Is_join, existsb_app.
    apply orb_true_iff. right. cbn [existsb]. by rewrite (nt_fatal cfg s HN e He).
Qed.

(** C17 (nothing after shutdown) In every state a publisher can come to, the producer
    is closed only if [closed] was set before, and then librdkafka holds nothing; and
    no goroutine stands before [Produce] once [closed] is set.  From a state in which
    a [Close] has set [closed], no record is accepted any more, however the
    goroutines go on: what librdkafka holds only shrinks, and no delivery is made.  So
    no record is ever given to a closed producer. *)
Theorem nothing_after_shutdown {D F P : Type} (cfg : config (DeliveryErrorFunc:=D) (FatalFunc:=F) (Factory:=P))
    ts s :
  reachable cfg ts s →
  (producer_closed s = true → closed s = true ∧ outstanding s = ∅) ∧
  (∀ k record, threads s !! k = Some (Sender record SReady) → closed s = false ∧ producer_closed s = false) ∧
  (closed s = true → ∀ actions s', run cfg actions s = Some s' →
     closed s' = true ∧ outstanding s' ⊆ outstanding s ∧
     ∀ k, is_Some (deliveries s' !! k) → is_Some (deliveries s !! k)).
Proof.
  intros Hr. pose proof (reachable_Shutdown cfg ts s Hr) as HSd. split_and!.
  - intros Hp. split; [by apply (sd_producer s HSd)|by apply (ct_out s (reachable_Counts cfg ts s Hr))].
  - intros k record Ek. pose proof (sd_open s HSd k _ Ek eq_refl) as Hc. split; [done|].
    apply not_true_is_false. intros Hp%(sd_producer s HSd). congruence.
  - intros Hc actions s' Hrun. by apply (closed_run cfg actions).
Qed.

(** C23 (fatal errors) The first fatal error is permanent: [Err] is ErrFatal and
    never changes, it was logged exactly once, and the fatal handler is called with
    it at most once.  A send that starts after it fails with it, or with ErrClosed,
    and enqueues nothing. *)
Theorem fatal_is_permanent {D F P : Type} (cfg : config (DeliveryErrorFunc:=D) (FatalFunc:=F) (Factory:=P))
    ts s e actions s' :
  reachable cfg ts s → Err s = Some e → run cfg actions s = Some s' →
  errors_Is (Some e) ErrFatal = true ∧ Err s' = Some e ∧
  omap fatal_line (log s') = [e] ∧
  (omap handler_line (log s') = [e] ∨ omap handler_line (log s') = []) ∧
  (∀ i record r, threads s !! i = Some (Sender record SStart) →
     threads s' !! i = Some (Sender record (SDone r)) →
     ∃ err, r = Some err ∧ (err = ErrClosed ∨ errors_Is (Some err) ErrFatal = true)).
Proof.
  intros Hr Hf Hrun. pose proof (run_reachable cfg ts actions s s' Hr Hrun) as Hr'.
  pose proof (reachable_Noted cfg ts s' Hr') as HN.
  pose proof (nt_fatal cfg s (reachable_Noted cfg ts s Hr) e Hf) as Hef.
  pose proof (run_fatal cfg actions e s s' Hrun Hf) as Hf'.
  split_and!; [done|done|by rewrite (nt_line cfg s' HN), Hf'| |].
  - rewrite (nt_handler cfg s' HN). unfold handled. rewrite Hf'.
    destruct (onFatal cfg), (reporter s'); auto.
  - intros i record r Ei Ei'.
    destruct (run_refused cfg actions e record i s s' _ Hrun Hf Ei eq_refl) as (_ & t' & Et' & Ht').
    rewrite Ei' in Et'. injection Et' as <-. destruct r as [err|]; [|done].
    exists err. split; [done|]. destruct Ht' as [_ [->| ->]]; [by left|right].
    unfold not_enqueued, wrapf. rewrite errors_Is_errorf. cbn [existsb]. by rewrite Hef.
Qed.

(** The log tells outages from recoveries: a loss and a
    recovery alternate, starting with a loss, an error repeated during an outage
    never appears as a loss, and each recovery line carries the number of errors
    that were not logged since the loss. *)
Theorem connection_log {D F P : Type} (cfg : config (DeliveryErrorFunc:=D) (FatalFunc:=F) (Factory:=P)) ts s :
  reachable cfg ts s →
  link_log (log s) = Some (brokerDown s, suppressed s) ∧
  ∀ l1 l2 k, log s = l1 ++ LBrokerRestored k :: l2 → link_log l1 = Some (true, k).
Proof.
  intros Hr. pose proof (nt_link cfg s (reachable_Noted cfg ts s Hr)) as Hk. split; [done|].
  intros l1 l2 k Hl. rewrite Hl in Hk. unfold link_log in *. rewrite foldl_app in Hk. simpl in Hk.
  assert (∀ l, foldl link_step None l = None) as Hnone by (induction l; [done|exact IHl]).
  destruct (foldl link_step _ l1) as [[down n]|]; [|by rewrite Hnone in Hk].
  simpl in Hk. destruct (down && (k =? n)) eqn:E; [|by rewrite Hnone in Hk].
  apply andb_true_iff in E as [-> ->%Z.eqb_eq]. done.
Qed.

(** ** A concrete run *)
Module Ex_publisher.
Definition cfg : config (DeliveryErrorFunc:=unit) (FatalFunc:=unit) (Factory:=unit) :=
  mkconfig ["kafka:9092"] ∅ true false PartitionerDefault defaultDeliveryTimeout (Some tt) (Some tt) tt.
Definition order (k : string) : Record_ := mkRecord "orders" (Some k) (Some "v") [].
(** Two sends and a Close. *)
Definition goroutines : gmap nat thread :=
  <[0%nat := Sender (order "a") SStart]>
  (<[1%nat := Sender (order "b") SStart]> {[2%nat := Closer KStart]}).
Definition down : KafkaError := mkKafkaError "_TRANSPORT" "connection refused" None false true.
Definition timed_out : KafkaError :=
  mkKafkaError "_MSG_TIMED_OUT" "timed out" (Some ErrDeliveryTimeout) false false.
Definition broken : KafkaError := mkKafkaError "_FATAL" "out of order" (Some ErrFatal) true false.
Definition go (i : nat) : action := AThread i INone.
(** The brokers are lost; the first record is accepted and times out, the second
    is acknowledged. *)
Definition sent : list action :=
  [AClientError down; AReporter None; AClientError down; AReporter None;
   go 0; go 0; go 0; AThread 0 (IError None); go 0;
   go 1; go 1; go 1; AThread 1 (IError None); go 1;
   AReport 0 (-1) 0 (Some timed_out); AReporter None; AReporter (Some "boom"); AReporter None;
   AReport 1 3 42 None; AReporter None].
Definition shutdown : list action :=
  [go 2; go 2; go 2; AThread 2 (ICount 0); AThread 2 (ICtx false None); go 2; AReporter None; go 2].
Definition fatal_failure : list action := [AClientError broken; AReporter None; AReporter None].

Lemma fresh_goroutines : map_Forall (λ _ t, fresh t) goroutines.
Proof. repeat (apply map_Forall_insert_2; [done|]). apply map_Forall_empty. Qed.
(** A run that ends in a state that passes a test. *)
Definition ran (actions : list action) (test : pub → bool) (s : pub) : bool :=
  match run cfg actions s with Some s => test s | None => false end.
Lemma ran_spec actions test s : ran actions test s = true →
  ∃ s', run cfg actions s = Some s' ∧ test s' = true.
Proof. unfold ran. destruct (run cfg actions s) as [s'|]; [eauto|done]. Qed.
Lemma reached actions s : run cfg actions (initial goroutines) = Some s → reachable cfg goroutines s.
Proof. apply run_reachable, reach_initial, fresh_goroutines. Qed.

(** The end of a run: whether [Close] returned nil, and what was logged. *)
Definition final : option (bool * list pevent) :=
  s ← run cfg (sent ++ shutdown) (initial goroutines);
  Some (match threads s !! 2%nat with Some (Closer (KDone (Some (0%nat, 0%nat)) None)) => true | _ => false end,
        log s).
Example final_log : final = Some (true,
  [LBrokerDown; LStillDown; LAccepted 0; LAccepted 1;
   LDeliveryFailed 0 (newDeliveryError (order "a") (-1) timed_out);
   LCallback 0 (newDeliveryError (order "a") (-1) timed_out); LCallbackPanic "boom";
   LResolved 0 (mkResult "orders" (-1) 0, Some (newDeliveryError (order "a") (-1) timed_out));
   LBrokerRestored 1; LResolved 1 (mkResult "orders" 3 42, None)]).
Proof. by vm_compute. Qed.

Definition closed_clean (s : pub) : bool :=
  match threads s !! 2%nat with Some (Closer (KDone (Some (0%nat, 0%nat)) None)) => true | _ => false end.
Lemma ran_all : ran (sent ++ shutdown) closed_clean (initial goroutines) = true.
Proof. by vm_compute. Qed.
Lemma closed_clean_spec s : closed_clean s = true →
  threads s !! 2%nat = Some (Closer (KDone (Some (0%nat, 0%nat)) None)).
Proof.
  unfold closed_clean.
  destruct (threads s !! 2%nat) as [[|[| | | | | | | | | | | |[[[] []]|] []]]|]; done.
Qed.
Definition shut (s : pub) : bool := closed s && ran (drop 3 shutdown) (λ _, true) s.
Lemma ran_shut : ran (sent ++ take 3 shutdown) shut (initial goroutines) = true.
Proof. by vm_compute. Qed.
Definition failed (s : pub) : bool :=
  match fatal s with
  | Some (EKafka "_FATAL" "out of order" (Some (ENew id text)) true false) =>
      String.eqb id "publishdriver.ErrFatal" && String.eqb text "publish: producer failed fatally" &&
      ran [go 0; go 0; go 0; go 0] (λ _, true) s
  | _ => false
  end.
Lemma ran_failed : ran fatal_failure failed (initial goroutines) = true.
Proof. by vm_compute. Qed.
Lemma failed_spec s : failed s = true →
  fatal s = Some (kafka_err broken) ∧ ∃ s', run cfg [go 0; go 0; go 0; go 0] s = Some s'.
Proof.
  unfold failed. intros Hs. repeat (case_match; try done). simplify_eq.
  apply andb_true_iff in Hs as [[->%String.eqb_eq ->%String.eqb_eq]%andb_true_iff Hr].
  split; [done|]. apply ran_spec in Hr as (s' & Hr & _). eauto.
Qed.

(** The first report of the first record was a failure; its outcome says so. *)
Definition reported_failure (s : pub) : bool :=
  match deliveries s !! 0%nat with Some d => bool_decide (is_Some (d_outcome d)) | None => false end.
Lemma ran_failure : ran (sent ++ shutdown) reported_failure (initial goroutines) = true.
Proof. by vm_compute. Qed.
Lemma records_settled_once_witness : ∃ s d o r, run cfg (sent ++ shutdown) (initial goroutines) = Some s ∧
  deliveries s !! 0%nat = Some d ∧ d_outcome d = Some o ∧
  first_report 0 (reported s) = Some r ∧ o = outcome_of (d_record d) r.
Proof.
  destruct (ran_spec _ _ _ ran_failure) as (s & E & Ht). unfold reported_failure in Ht.
  destruct (deliveries s !! 0%nat) as [d|] eqn:Ed; [|discriminate Ht]. apply bool_decide_eq_true_1 in Ht as [o Eo].
  destruct (proj1 (proj2 (proj2 (proj2 (records_settled_once cfg goroutines s (reached _ s E))))) 0%nat d o Ed Eo)
    as (r & Er & Ho).
  exists s, d, o, r. split; [exact E|]. split; [exact Ed|]. split; [exact Eo|]. split; [exact Er|exact Ho].
Defined.
Lemma Close_reports_all_witness : ∃ s, run cfg (sent ++ shutdown) (initial goroutines) = Some s ∧
  reporter s = RDone ∧ dropped s = ∅ ∧
  ∀ k record, threads s !! k = Some (Sender record (SDone None)) → settled_or_dropped cfg s k record.
Proof.
  destruct (ran_spec _ _ _ ran_all) as (s & E & Ht%closed_clean_spec). exists s. split; [exact E|].
  destruct (Close_reports_all cfg goroutines s 2%nat _ _ (reached _ s E) Ht)
    as (j & n & rest & Ej & Hrd & _ & Hall & Hdrop & Hn & Hnil & _).
  split; [exact Hrd|]. split; [exact (Hdrop (Hn (proj1 (proj1 Hnil eq_refl))))|exact Hall].
Defined.
Lemma nothing_after_shutdown_witness : ∃ s s',
  run cfg (sent ++ take 3 shutdown) (initial goroutines) = Some s ∧ closed s = true ∧
  run cfg (drop 3 shutdown) s = Some s' ∧ outstanding s' ⊆ outstanding s.
Proof.
  destruct (ran_spec _ _ _ ran_shut) as (s & E & [Hc Hr]%andb_true_iff).
  destruct (ran_spec _ _ _ Hr) as (s' & E' & _). exists s, s'. split; [exact E|]. split; [exact Hc|].
  split; [exact E'|].
  exact (proj1 (proj2 (proj2 (proj2 (nothing_after_shutdown cfg goroutines s (reached _ s E))) Hc _ s' E'))).
Defined.
Lemma fatal_is_permanent_witness : ∃ s s', run cfg fatal_failure (initial goroutines) = Some s ∧
  run cfg [go 0; go 0; go 0; go 0] s = Some s' ∧ Err s' = Some (kafka_err broken).
Proof.
  destruct (ran_spec _ _ _ ran_failed) as (s & E & [Hf [s' E']]%failed_spec).
  exists s, s'. split; [exact E|]. split; [exact E'|].
  exact (proj1 (proj2 (fatal_is_permanent cfg goroutines s (kafka_err broken) _ s' (reached _ s E) Hf E'))).
Defined.
Lemma connection_log_witness : ∃ s, run cfg (sent ++ shutdown) (initial goroutines) = Some s ∧
  link_log (log s) = Some (brokerDown s, suppressed s).
Proof.
  destruct (ran_spec _ _ _ ran_all) as (s & E & _). exists s. split; [exact E|].
  exact (proj1 (connection_log cfg goroutines s (reached _ s E))).
Defined.
End Ex_publisher.
