(* ===== verification/PubProgress.v ===== *)
(** * The publisher comes to rest

    No goroutine waits for one that does not come, and what the publisher does by
    itself ends: every send and every [Close] returns. *)
From S2P Require Import Prelude GoStrings GoErrors GoTime GoAny RWMutex Kfk PubDriver PubOptions Delivery Publisher.
From S2P Require Import PubInvariants PubSafety.

Section progress.
Context {D F P : Type} (cfg : config (DeliveryErrorFunc:=D) (FatalFunc:=F) (Factory:=P)).
Implicit Types s : pub.

Definition finished (t : thread) : bool :=
  match t with Sender _ (SDone _) | Closer (KDone _ _) => true | _ => false end.
(** A step of the program: a goroutine's or the report goroutine's, not librdkafka's;
    and the context of a [Close] in its drain has ended. *)
Definition prompt (a : action) : bool :=
  match a with
  | AThread _ (ICtx false _) => false
  | AThread _ _ | AReporter _ => true
  | _ => false
  end.
Definition own_step s : Prop := ∃ a, prompt a = true ∧ is_Some (step cfg a s).

(** A goroutine that waits for nobody can step. *)
Lemma thread_enabled s i t : threads s !! i = Some t → finished t = false →
  match t with
  | Sender _ SStart => can_rlock holds (threads s) = true
  | Closer KStart => can_lock holds (threads s) = true
  | Closer KWaiting => is_Some (closeErr s)
  | Closer (KReports _ _) => reporter s = RDone
  | _ => True
  end → own_step s.
Proof.
  intros Et Hf Hw. assert ((∃ x, prompt (AThread i x) = true ∧ is_Some (step cfg (AThread i x) s)) → own_step s)
    as Hown by (intros [x Hx]; by exists (AThread i x)).
  apply Hown. unfold step. rewrite Et. clear Hown.
  destruct t as [record pc|pc]; [destruct pc|destruct pc]; simpl in *; try done; rewrite ?Hw;
    try (by exists INone; eauto);
    try (exists INone; by case_match; eauto);
    try (by exists (IError None); eauto);
    try (by exists (ICount 1); eauto);
    try (exists (ICtx true None); by repeat case_match; eauto).
  - exists (IError (Some ErrClosed)). eauto.
Qed.

(** The report goroutine steps while the producer is closed, or it holds a report. *)
Lemma reporter_enabled s : Settled cfg s → producer_closed s = true → reporter s ≠ RDone → own_step s.
Proof.
  intros HS Hp Hr. exists (AReporter None). split; [done|]. unfold step, report_step.
  destruct (reporter s); try done; try (by eexists).
  destruct (events s) as [|[r|e] es] eqn:Ee; [by rewrite Hp; eexists| |by eexists].
  unfold settle. destruct (rep_Token r) as [i|] eqn:Et; [|by eexists].
  destruct (st_events cfg s i HS) as [[d Ed] _].
  { rewrite Ee. unfold event_token, report_token. simpl. rewrite Et. by left. }
  cbn. rewrite Ed. cbn. destruct (resolved d); [by eexists|]. destruct (rep_Err r); by eexists.
Qed.
(** Whoever holds the lock can step. *)
Lemma holder_enabled s i t : threads s !! i = Some t → holds t ≠ NoLock → own_step s.
Proof.
  intros Et Hh. eapply (thread_enabled s i t Et); destruct t as [? []|[]]; try done; by destruct Hh.
Qed.
Lemma publisher_no_deadlock s i t : Shutdown s → Settled cfg s → threads s !! i = Some t → finished t = false →
  own_step s.
Proof.
  intros HSd HSt Et Hf.
  assert (∀ j u, threads s !! j = Some u → owner u = true → finished u = false → own_step s) as Howner.
  { intros j u Ej Ho Hfu. destruct (sd_owner s HSd j u Ej Ho) as [_ Hp].
    assert (own_step s ∨ reporter s = RDone) as [?|Hrd]; [|done|].
    { destruct (decide (owner_past u = true)) as [Hpast|Hpast]; [|left].
      - rewrite Hpast in Hp. destruct (reporter s) eqn:Er; try (by right);
          left; apply reporter_enabled; congruence.
      - eapply (thread_enabled s j u Ej Hfu). by destruct u as [|[]]. }
    eapply (thread_enabled s j u Ej Hfu). by destruct u as [|[]]. }
  destruct (can_lock holds (threads s)) eqn:Hc.
  2:{ apply can_lock_false in Hc as (j & u & Ej & Hu). by eapply holder_enabled. }
  pose proof (can_lock_rlock holds (threads s) Hc) as Hrl.
  destruct (decide (owner t = true)) as [Ho|Ho]; [by eapply Howner|].
  assert (t = Closer KWaiting ∨ t ≠ Closer KWaiting) as [->|Hw] by (destruct t as [|[]]; auto).
  - destruct (closeErr s) as [err|] eqn:Ee; [eapply (thread_enabled s i _ Et Hf); by eauto|].
    pose proof (sd_late s HSd i _ Et eq_refl) as Hcl. destruct (sd_closed s HSd Hcl) as (j & u & Ej & Hou).
    eapply Howner; [done..|]. destruct u as [? []|[]]; try done.
    by rewrite (sd_done s HSd j _ _ Ej) in Ee.
  - eapply (thread_enabled s i t Et Hf). by destruct t as [? []|[]].
Qed.

(** *** The steps left *)

Definition thread_left (t : thread) : nat :=
  match t with
  | Sender _ SStart => 5 | Sender _ SLocked => 4 | Sender _ SOpen => 3
  | Sender _ SReady => 2 | Sender _ (SReturning _) => 1 | Sender _ (SDone _) => 0
  | Closer KStart => 9 | Closer KLocked => 8 | Closer KAlready => 2 | Closer KWaiting => 1
  | Closer KSet => 7 | Closer KUnlocked => 6 | Closer (KFlush _) => 6 | Closer (KDrain _) => 5
  | Closer (KPurge _) => 4 | Closer (KFinalFlush _) => 3 | Closer (KClosing _ _) => 2
  | Closer (KReports _ _) => 1 | Closer (KDone _ _) => 0
  end.
Definition reporter_left (r : reporter_pc) : nat :=
  match r with
  | RDone => 0 | RReceive => 1 | RResolve _ _ _ | RFatal _ => 2 | RFailed _ _ _ => 3
  end.
Definition steps_left s : nat :=
  total thread_left (threads s) + 3 * length (events s) + reporter_left (reporter s).

Lemma thread_steps i t t' s s' : threads s !! i = Some t → threads s' = <[i := t']> (threads s) →
  events s' = events s → reporter s' = reporter s → (thread_left t' < thread_left t)%nat →
  (steps_left s' < steps_left s)%nat.
Proof.
  intros Et Hth Hev Hr Hlt. unfold steps_left. rewrite Hth, Hev, Hr.
  pose proof (total_insert thread_left (threads s) i t t' Et). lia.
Qed.
Lemma report_steps panics s s' : report_step cfg panics s = Some s' → (steps_left s' < steps_left s)%nat.
Proof.
  unfold_report.
  intros E. unfold steps_left.
  repeat (case_match; try done); simplify_option_eq; repeat (case_match; try done); simplify_eq; cbn;
    repeat match goal with Hr : _ s = _ |- _ => rewrite Hr; clear Hr end; cbn; lia.
Qed.
Lemma step_left a s s' : prompt a = true → step cfg a s = Some s' → (steps_left s' < steps_left s)%nat.
Proof.
  intros Hp Hstep. destruct a as [i x|panics|i p o err|err|r]; unfold step in Hstep; try done.
  2: by eapply report_steps.
  destruct (threads s !! i) as [[record pc|pc]|] eqn:Et; [| |done].
  - unfold enqueue_step in Hstep.
    destruct pc; repeat (case_match; try done); simplify_eq; eapply thread_steps; try done; simpl; lia.
  - unfold close_step in Hstep. destruct pc, x as [| | |[]]; try done;
      repeat (case_match; try done); simplify_eq; try (by rewrite andb_false_r in *);
      eapply thread_steps; try done; simpl; lia.
Qed.
Lemma run_left actions : ∀ s s', Forall (λ a, prompt a = true) actions → run cfg actions s = Some s' →
  (length actions + steps_left s' ≤ steps_left s)%nat.
Proof.
  induction actions as [|a actions IH]; intros s s' Hp; simpl; [by intros [= ->]|].
  destruct (step cfg a s) as [s1|] eqn:E; [|done]. simpl. intros Hr. apply Forall_cons in Hp as [Ha Hp].
  pose proof (step_left a s s1 Ha E). pose proof (IH s1 s' Hp Hr). lia.
Qed.

(** Every goroutine has returned, or one can step. *)
Lemma finished_or_step ts s : reachable cfg ts s →
  map_Forall (λ _ t, finished t = true) (threads s) ∨ own_step s.
Proof.
  intros Hr. destruct (decide (map_Forall (λ _ t, finished t = true) (threads s))) as [|Hn]; [by left|right].
  apply map_not_Forall in Hn as (i & t & Et & Hf); [|apply _]. apply not_true_is_false in Hf.
  eapply publisher_no_deadlock; [by eapply reachable_Shutdown|by eapply reachable_Settled|done..].
Qed.
Lemma comes_to_rest ts n : ∀ s, (steps_left s < n)%nat → reachable cfg ts s →
  ∃ actions s', Forall (λ a, prompt a = true) actions ∧ run cfg actions s = Some s' ∧
    map_Forall (λ _ t, finished t = true) (threads s').
Proof.
  induction n as [|n IH]; intros s Hn Hr; [lia|].
  destruct (finished_or_step ts s Hr) as [Hf|(a & Ha & s1 & E)]; [by exists [], s|].
  destruct (IH s1) as (actions & s' & Hp & Hrun & Hf); [|by eapply reach_step|].
  { pose proof (step_left a s s1 Ha E). lia. }
  exists (a :: actions), s'. split; [by constructor|]. split; [|done]. simpl. by rewrite E.
Qed.
End progress.

(** While a goroutine that sends or closes has not returned, the publisher's own
    goroutines can make a step: nobody waits for a lock, for [closeDone] or for
    [reportsDone] that will not come. *)
Theorem publisher_never_stuck {D F P : Type} (cfg : config (DeliveryErrorFunc:=D) (FatalFunc:=F) (Factory:=P))
    ts s i t :
  reachable cfg ts s → threads s !! i = Some t →
  match t with Sender _ (SDone _) | Closer (KDone _ _) => False | _ => True end →
  ∃ a, prompt a = true ∧ is_Some (step cfg a s).
Proof.
  intros Hr Et Hf. eapply (publisher_no_deadlock cfg s i t); [by eapply reachable_Shutdown| |done|].
  - by eapply reachable_Settled.
  - by destruct t as [? []|[]].
Qed.

(** Without librdkafka sending more, and once the contexts of
    the [Close] calls have ended, the publisher comes to rest: however its
    goroutines are interleaved they take no more than [steps_left] steps; where
    none of them can step, every send and every [Close] has returned; and from
    every state it can come to there is such an end. *)
Theorem publisher_comes_to_rest {D F P : Type} (cfg : config (DeliveryErrorFunc:=D) (FatalFunc:=F) (Factory:=P))
    ts s :
  reachable cfg ts s →
  (∀ actions s', Forall (λ a, prompt a = true) actions → run cfg actions s = Some s' →
     (length actions ≤ steps_left s)%nat ∧
     ((∀ a, prompt a = true → step cfg a s' = None) → map_Forall (λ _ t, finished t = true) (threads s'))) ∧
  ∃ actions s', Forall (λ a, prompt a = true) actions ∧ run cfg actions s = Some s' ∧
    map_Forall (λ _ t, finished t = true) (threads s').
Proof.
  intros Hr. split; [|by eapply (comes_to_rest cfg ts (S (steps_left s))); [lia|]].
  intros actions s' Hp Hrun. pose proof (run_left cfg actions s s' Hp Hrun). split; [lia|].
  intros Hstuck. destruct (finished_or_step cfg ts s') as [|(a & Ha & s1 & E)]; [|done|].
  - by eapply run_reachable.
  - by rewrite Hstuck in E.
Qed.

(** ** Witness: the run of [Ex_publisher], two sends and a [Close] *)
Module Ex_progress.
Import Ex_publisher.
Lemma publisher_comes_to_rest_witness :
  ∃ actions s, Forall (λ a, prompt a = true) actions ∧ run cfg actions (initial goroutines) = Some s ∧
    map_Forall (λ _ t, finished t = true) (threads s).
Proof.
  apply (publisher_comes_to_rest cfg goroutines (initial goroutines)), (reached []). reflexivity.
Defined.
End Ex_progress.
