(* ===== verification/PubStack.v ===== *)
(** * The publisher on its producer

    The publisher of publish/publisher.go on the producer of
    internal/publish/publishdriver/producer.go, which Publisher.v stands in for by the
    interface it documents: each call of the publisher is the driver's method, under
    the driver's own lock, and each event of confluent-kafka-go goes through the
    goroutine [translate] and the unbuffered channel [Reports].  All of it is
    interleaved one atomic step at a time. *)
From S2P Require Import Prelude GoStrings GoErrors GoTime GoAny RWMutex Kfk PubDriver PubOptions Delivery.
From S2P Require Import ProducerHandle.
From S2P Require Import Publisher.

(** The goroutine [translate]: receiving from the client's channel, sending on
    [Reports], or at its end, [Reports] closed. *)
Inductive translator : Type :=
  | TReceive
  | TSend (ev : Event token)
  | TDone.

(** The delivery an event of the client is about, and the first event about it: what
    librdkafka said of the record. *)
Definition message_token (e : kfk_ProducerEvent token) : option nat :=
  match e with PMessage (TDelivery i) _ _ _ => Some i | _ => None end.
Definition first_message (i : nat) (es : list (kfk_ProducerEvent token)) : option (kfk_ProducerEvent token) :=
  find (λ e, bool_decide (message_token e = Some i)) es.

Abbreviation hthread := (ProducerHandle.thread token).
Abbreviation HCloser := (ProducerHandle.Closer (T:=token)).

(** [stack]: the publisher, with what librdkafka holds; the producer's lock and the
    calls on it, by the goroutine of the publisher that makes them; the client's
    events channel; and [translate].  The channels of [own], its history, and whether
    its producer is closed, are not used here. *)
Record stack : Type := mkStack {
  own : pub;
  driver : handle token;
  channel : list (kfk_ProducerEvent token);
  translating : translator;
  (** history: the events the client has put on its channel, in order.  No step
      reads it. *)
  emitted : list (kfk_ProducerEvent token);
}.
Definition set_own own (k : stack) : stack := mkStack own (driver k) (channel k) (translating k) (emitted k).
Definition set_driver d (k : stack) : stack := mkStack (own k) d (channel k) (translating k) (emitted k).
Definition set_calls (f : gmap nat hthread → gmap nat hthread) (d : handle token) : handle token :=
  mkHandle (f (ProducerHandle.threads d)) (ProducerHandle.closed d) (admin_closes d) (client_closes d) (entered d).
(** A stack just made. *)
Definition stack_initial (ts : gmap nat thread) : stack :=
  mkStack (initial ts) (ProducerHandle.initial ∅) [] TReceive [].

(** [kafkaProducer.Close] has closed the channel. *)
Definition channel_closed (k : stack) : bool := (0 <? client_closes (driver k))%nat.

Inductive stack_action : Type :=
  (** goroutine [i] of the publisher, given what Publisher.v gives it and what the
      client answers *)
  | SThread (i : nat) (x : input) (a : answer)
  | SReporter (panics : option string)
  | STranslate
  (** an event of the client *)
  | SEvent (e : kfk_ProducerEvent token).

(** ** Calls *)

(** The method of the producer that goroutine [i] stands before. *)
Definition call_at (i : nat) (t : thread) : option hthread :=
  match t with
  | Sender record SReady => Some (Caller (Produce record (TDelivery i)) CStart)
  | Closer KUnlocked => Some (Caller Len CStart)
  | Closer (KFlush timeout) => Some (Caller (Flush timeout) CStart)
  | Closer (KPurge _) => Some (Caller Purge CStart)
  | Closer (KFinalFlush _) => Some (Caller (Flush purgeReportTimeout) CStart)
  | Closer (KClosing _ _) => Some (HCloser ProducerHandle.KStart)
  | _ => None
  end.
(** Where it stands with the method's result. *)
Definition resume (t : thread) (r : result) : thread :=
  match t, r with
  | Sender record SReady, RError err => Sender record (SReturning (not_enqueued record <$> err))
  | Closer KUnlocked, RCount n => Closer (KDrain (Z.to_nat n))
  | Closer (KFlush _), RCount n => Closer (KDrain (Z.to_nat n))
  | Closer (KPurge n), RError _ => Closer (KFinalFlush n)
  | Closer (KFinalFlush n), RCount rest => Closer (KClosing n (Z.to_nat rest))
  | _, _ => t
  end.
Definition resume_closed (t : thread) : thread :=
  match t with Closer (KClosing n rest) => Closer (KReports n rest) | _ => t end.
(** [Close] logs when [Purge] returns an error. *)
Definition note_purge (t : thread) (r : result) (s : pub) : pub :=
  match t, r with Closer (KPurge _), RError (Some err) => say (LPurgeFailed err) s | _, _ => s end.

(** What confluent-kafka-go may answer: a count is zero only when no record is
    outstanding. *)
Definition client_answers (a : answer) (s : pub) : bool :=
  match a with ACount n => (0 <=? n) && ((0 <? n) || bool_decide (outstanding s = ∅)) | _ => true end.
(** What its answer to a call leaves: an accepted record is outstanding. *)
Definition client_effect (c : call token) (a : answer) (s : pub) : pub :=
  match c, a with
  | Produce record (TDelivery i), AError None =>
      say (LAccepted i) (set_outstanding ({[i]} ∪ outstanding s)
        (set_deliveries (<[i := newDelivery record]> (deliveries s)) s))
  | _, _ => s
  end.
(** [kafkaProducer.Close] drops the records it holds. *)
Definition client_drop (s : pub) : pub :=
  mkPub (threads s) (reporter s) (closed s) (closeErr s) (fatal s) (brokerDown s)
    (suppressed s) (deliveries s) ∅ (events s) (producer_closed s) (dropped s ∪ outstanding s) (log s)
    (reported s).
(** An event of the client: a delivery report is of a record that was accepted, and
    takes it off those outstanding. *)
Definition event_possible (e : kfk_ProducerEvent token) (s : pub) : bool :=
  match e with PMessage (TDelivery i) _ _ _ => bool_decide (is_Some (deliveries s !! i)) | _ => true end.
Definition event_effect (e : kfk_ProducerEvent token) (s : pub) : pub :=
  match e with PMessage (TDelivery i) _ _ _ => set_outstanding (outstanding s ∖ {[i]}) s | _ => s end.

Section steps.
Context {D F P : Type} (cfg : config (DeliveryErrorFunc:=D) (FatalFunc:=F) (Factory:=P)) `{KfkCodes}.
Implicit Types k : stack.

(** A step inside the method goroutine [i] has called. *)
Definition call_step (i : nat) (a : answer) k : option stack :=
  d ← advance i a (driver k);
  match ProducerHandle.threads (driver k) !! i with
  | Some (Caller c CCalling) =>
      if client_answers a (own k) then Some (set_own (client_effect c a (own k)) (set_driver d k)) else None
  | Some (ProducerHandle.Closer ProducerHandle.KAdminClosed) =>
      Some (set_own (client_drop (own k)) (set_driver d k))
  | _ => Some (set_driver d k)
  end.
Definition thread_step (i : nat) (x : input) (a : answer) k : option stack :=
  t ← threads (own k) !! i;
  match call_at i t with
  | None => s ← step cfg (AThread i x) (own k); Some (set_own s k)
  | Some c =>
      match ProducerHandle.threads (driver k) !! i with
      | None => Some (set_driver (set_calls <[i := c]> (driver k)) k)
      | Some (Caller _ (CDone r)) =>
          Some (set_own (set_thread i (resume t r) (note_purge t r (own k)))
                  (set_driver (set_calls (delete i) (driver k)) k))
      | Some (ProducerHandle.Closer (ProducerHandle.KDone _)) =>
          Some (set_own (set_thread i (resume_closed t) (own k)) k)
      | Some _ => call_step i a k
      end
  end.

(** [translate]: what it receives it sends, if it is a report or a client error. *)
Definition translate_step k : option stack :=
  match translating k with
  | TReceive =>
      match channel k with
      | e :: es =>
          Some (mkStack (own k) (driver k) es
                  match TranslateEvent e with Some ev => TSend ev | None => TReceive end (emitted k))
      | [] => if channel_closed k then Some (mkStack (own k) (driver k) [] TDone (emitted k)) else None
      end
  | _ => None
  end.
(** [readReports]: it takes an event from [translate], or sees [Reports] closed. *)
Definition read_step (panics : option string) k : option stack :=
  match reporter (own k), translating k with
  | RReceive, TSend ev =>
      s ← report_step cfg panics (set_events [ev] (own k)); Some (mkStack s (driver k) (channel k) TReceive (emitted k))
  | RReceive, TReceive => None
  | RReceive, TDone => Some (set_own (set_reporter RDone (own k)) k)
  | _, _ => s ← report_step cfg panics (own k); Some (set_own s k)
  end.
Definition stack_step (act : stack_action) k : option stack :=
  match act with
  | SThread i x a => thread_step i x a k
  | SReporter panics => read_step panics k
  | STranslate => translate_step k
  | SEvent e =>
      if negb (channel_closed k) && event_possible e (own k) then
        Some (mkStack (event_effect e (own k)) (driver k) (channel k ++ [e]) (translating k) (emitted k ++ [e]))
      else None
  end.
Fixpoint stack_run (acts : list stack_action) k : option stack :=
  match acts with
  | [] => Some k
  | act :: acts => k ← stack_step act k; stack_run acts k
  end.
Inductive stack_reachable (ts : gmap nat thread) : stack → Prop :=
  | sreach_initial : map_Forall (λ _ t, fresh t) ts → stack_reachable ts (stack_initial ts)
  | sreach_step act k k' : stack_reachable ts k → stack_step act k = Some k' → stack_reachable ts k'.
Lemma stack_run_reachable ts acts : ∀ k k', stack_reachable ts k → stack_run acts k = Some k' →
  stack_reachable ts k'.
Proof.
  induction acts as [|act acts IH]; intros k k' Hk; simpl; [by intros [= ->]|].
  destruct (stack_step act k) as [k1|] eqn:E; [|done]. simpl. by eapply IH, sreach_step.
Qed.
End steps.
