(* ===== verification/StackRefines.v ===== *)
(** * The publisher on its producer is the publisher

    The stack of PubStack.v goes through the states of Publisher.v: each of its steps
    is a step there, or none.  A call takes effect when the client answers it. *)
From S2P Require Import Prelude GoStrings GoErrors GoTime GoAny RWMutex Kfk PubDriver PubOptions Delivery.
From S2P Require Import ProducerHandle.
From S2P Require Import Publisher PubInvariants PubStack.

(** ** The publisher it implements *)

(** What a goroutine is about to see, once the client has answered.  The answer of
    [Purge] has no effect but on what [Close] logs when it has returned. *)
Definition view (t : thread) (h : option hthread) : thread :=
  match t, h with
  | Closer (KPurge _), _ => t
  | _, Some (Caller _ (CReturning r | CDone r)) => resume t r
  | _, Some (ProducerHandle.Closer (ProducerHandle.KDone _)) => resume_closed t
  | _, _ => t
  end.
Definition views (ts : gmap nat thread) (hs : gmap nat hthread) : gmap nat thread :=
  map_imap (λ i t, Some (view t (hs !! i))) ts.
Definition over ts es pc rs (s : pub) : pub :=
  mkPub ts (reporter s) (closed s) (closeErr s) (fatal s) (brokerDown s)
    (suppressed s) (deliveries s) (outstanding s) es pc (dropped s) (log s) rs.

Section abstraction.
Context {D F P : Type} (cfg : config (DeliveryErrorFunc:=D) (FatalFunc:=F) (Factory:=P)) `{KfkCodes}.
Implicit Types k : stack.

(** What is on its way to the report goroutine. *)
Definition pending k : list (Event token) :=
  match translating k with TSend ev => [ev] | _ => [] end ++ translate_events (channel k).
(** The client's events, as the reports that have come of them. *)
Definition reports_emitted k : list (Report token) := omap event_report (translate_events (emitted k)).
Definition abs k : pub :=
  over (views (threads (own k)) (ProducerHandle.threads (driver k))) (pending k) (channel_closed k)
    (reports_emitted k) (own k).

(** *** Views *)

Lemma lookup_views ts hs i : views ts hs !! i = (λ t, view t (hs !! i)) <$> ts !! i.
Proof. unfold views. rewrite map_lookup_imap. by destruct (ts !! i). Qed.
Lemma view_None t : view t None = t.
Proof. by destruct t as [? []|[]]. Qed.
Lemma views_insert ts hs hs' i t' : (∀ j, i ≠ j → hs' !! j = hs !! j) →
  views (<[i := t']> ts) hs' = <[i := view t' (hs' !! i)]> (views ts hs).
Proof.
  intros Hhs. apply map_eq. intros j. rewrite lookup_views. destruct (decide (i = j)) as [<-|Hij].
  - by rewrite !lookup_insert_eq.
  - by rewrite !lookup_insert_ne, lookup_views, (Hhs j Hij) by done.
Qed.
(** A call that goes on without an answer. *)
Lemma views_same ts hs hs' i : (∀ j, i ≠ j → hs' !! j = hs !! j) →
  (∀ t, ts !! i = Some t → view t (hs' !! i) = view t (hs !! i)) → views ts hs' = views ts hs.
Proof.
  intros Hhs Hi. apply map_eq. intros j. rewrite !lookup_views. destruct (decide (i = j)) as [<-|Hij].
  - destruct (ts !! i) as [t|]; [|done]. cbn. by rewrite Hi.
  - by rewrite (Hhs j Hij).
Qed.
Lemma holds_view t h : holds (view t h) = holds t.
Proof.
  destruct t as [? []|[]], h as [[? []|[]]|]; try done; cbn; by destruct r.
Qed.
Lemma views_all ts hs (Q : holding → Prop) :
  map_Forall (λ _ t, Q (holds t)) (views ts hs) ↔ map_Forall (λ _ t, Q (holds t)) ts.
Proof.
  split; intros Hq i t.
  - intros Et. specialize (Hq i (view t (hs !! i))). rewrite lookup_views, Et, holds_view in Hq. by apply Hq.
  - rewrite lookup_views. intros (u & Eu & ->)%fmap_Some. rewrite holds_view. by apply (Hq i).
Qed.
Lemma views_rlock ts hs : can_rlock holds (views ts hs) = can_rlock holds ts.
Proof. apply bool_decide_ext, (views_all ts hs (λ h, h ≠ WriteLock)). Qed.
Lemma views_lock ts hs : can_lock holds (views ts hs) = can_lock holds ts.
Proof. apply bool_decide_ext, (views_all ts hs (λ h, h = NoLock)). Qed.

(** *** Steps that call nothing *)

Lemma local_step i x t s s' ts es pc rs : threads s !! i = Some t → call_at i t = None → ts !! i = Some t →
  can_rlock holds ts = can_rlock holds (threads s) → can_lock holds ts = can_lock holds (threads s) →
  step cfg (AThread i x) s = Some s' →
  ∃ t', threads s' = <[i := t']> (threads s) ∧
    step cfg (AThread i x) (over ts es pc rs s) = Some (over (<[i := t']> ts) es pc rs s') ∧
    match t, t' with
    | Closer (KReports _ _ | KDone _ _), Closer (KDone (Some _) _) => True
    | Closer (KReports _ _ | KDone _ _), _ => False
    | _, _ => True
    end.
Proof.
  intros Et Hc Ev Hr Hl. unfold step. cbn [threads over]. rewrite Et, Ev.
  destruct t as [record pc0|pc0]; unfold enqueue_step, close_step; cbn [threads over closed fatal closeErr reporter];
    destruct pc0; try discriminate Hc; rewrite ?Hr, ?Hl; intros E;
    repeat (case_match; try done); simplify_eq; eexists; (split; [reflexivity|split; [reflexivity|done]]).
Qed.

(** *** The report goroutine *)
Lemma report_over panics s s' ts es pc rs : reporter s ≠ RReceive → report_step cfg panics s = Some s' →
  threads s' = threads s ∧ report_step cfg panics (over ts es pc rs s) = Some (over ts es pc rs s').
Proof.
  intros Hr. unfold report_step. cbn [reporter over]. destruct (reporter s) eqn:E; [done|..]; intros [= <-];
    unfold say_panic; destruct panics; by split.
Qed.
Lemma receive_over panics ev s s' ts es pc rs : reporter s = RReceive →
  report_step cfg panics (set_events [ev] s) = Some s' →
  threads s' = threads s ∧ report_step cfg panics (over ts (ev :: es) pc rs s) = Some (over ts es pc rs s').
Proof.
  intros Hr. unfold report_step. cbn [reporter over set_events events]. rewrite Hr.
  destruct ev as [r|err]; cbn; unfold settle, logUnmatchedReport, noteClientError, noteFatal, invokeFatalHandler,
    noteConnected, resolve_delivery; cbn [deliveries set_events over brokerDown fatal suppressed];
    intros E; repeat (case_match; try done); simplify_option_eq; repeat (case_match; try done); simplify_eq; by split.
Qed.

(** *** The invariant

    Whose call a call on the producer is, and that its result is one of its method. *)
Definition fits (c : call token) (r : result) : Prop :=
  match c, r with
  | (Produce _ _ | Purge), RError _ | (Flush _ | Len), RCount _ | TopicPartitions_ _, RPartitions _ => True
  | _, _ => False
  end.
Lemma fits_finish c a r : finish c a = Some r → fits c r.
Proof. by destruct c as [| | | |[]], a; intros [= <-]. Qed.
Lemma fits_closed (c : call token) : fits c (closed_result c).
Proof. by destruct c. Qed.
Definition linked (i : nat) (t : thread) (h : hthread) : Prop :=
  match h with
  | Caller c pc => call_at i t = Some (Caller c CStart) ∧
      match pc with CReturning r | CDone r => fits c r | _ => True end
  | ProducerHandle.Closer (ProducerHandle.KDone _) =>
      match t with Closer (KClosing _ _ | KReports _ _ | KDone (Some _) _) => True | _ => False end
  | ProducerHandle.Closer _ => match t with Closer (KClosing _ _) => True | _ => False end
  end.
Record Linked k : Prop := {
  lk_inv : Inv (driver k);
  lk_call i h : ProducerHandle.threads (driver k) !! i = Some h →
    ∃ t, threads (own k) !! i = Some t ∧ linked i t h;
  lk_done : translating k = TDone → channel k = [] ∧ channel_closed k = true;
}.

Lemma stack_initial_Linked ts : Linked (stack_initial ts).
Proof.
  constructor; [apply initial_Inv, map_Forall_empty| |done]. intros i h. cbn. by rewrite lookup_empty.
Qed.

(** A call comes, and goes. *)
Lemma Inv_begin s i (t : hthread) : Inv s → ProducerHandle.threads s !! i = None → ProducerHandle.fresh t →
  Inv (set_calls <[i := t]> s).
Proof.
  intros [Hl Hc Ho Hla Hop Hcl] Ei Hf. unfold set_calls.
  assert (ProducerHandle.holds t = NoLock ∧ calling t = false ∧ ProducerHandle.owner t = false ∧
          ProducerHandle.late t = false) as (Eh & Ec & Eo & El) by (by destruct t as [? []|[]]).
  split; cbn [ProducerHandle.threads ProducerHandle.closed admin_closes client_closes]; try done.
  - intros j k t1 t2 [[<- <-]|[Hj Ej]]%lookup_insert_Some [[<- <-]|[Hk Ek]]%lookup_insert_Some Hjk Hw;
      try done; [congruence|by eapply (Hl j k)].
  - intros j u [[<- <-]|[Hj Ej]]%lookup_insert_Some; [congruence|eauto].
  - intros j u [[<- <-]|[Hj Ej]]%lookup_insert_Some; [congruence|eauto].
  - intros j u [[<- <-]|[Hj Ej]]%lookup_insert_Some; [congruence|eauto].
  - intros (j & u & Ej & Hu & Huniq)%Hcl. exists j, u.
    rewrite lookup_insert_ne by (intros ->; congruence). split_and!; [done..|].
    intros m v [[<- <-]|[Hm Em]]%lookup_insert_Some; [congruence|eauto].
Qed.
Lemma Inv_end s i c pc : Inv s → ProducerHandle.threads s !! i = Some (Caller (T:=token) c pc) →
  Inv (set_calls (delete i) s).
Proof.
  intros [Hl Hc Ho Hla Hop Hcl] Ei. unfold set_calls.
  split; cbn [ProducerHandle.threads ProducerHandle.closed admin_closes client_closes]; try done.
  - intros j k t1 t2 [Hj Ej]%lookup_delete_Some [Hk Ek]%lookup_delete_Some. by eapply (Hl j k).
  - intros j u [Hj Ej]%lookup_delete_Some. eauto.
  - intros j u [Hj Ej]%lookup_delete_Some. eauto.
  - intros j u [Hj Ej]%lookup_delete_Some. eauto.
  - intros (j & u & Ej & Hu & Huniq)%Hcl. exists j, u.
    rewrite lookup_delete_ne by (intros ->; rewrite Ei in Ej; by injection Ej as <-). split_and!; [done..|].
    intros m v [Hm Em]%lookup_delete_Some. eauto.
Qed.

(** The driver is closed by the one [Close] that shuts the publisher down. *)
Lemma closed_by k i t h : Linked k → Shutdown (abs k) →
  ProducerHandle.closed (driver k) = true → ProducerHandle.threads (driver k) !! i = Some h →
  threads (own k) !! i = Some t → owner (view t (Some h)) = true → ProducerHandle.owner h = true.
Proof.
  intros HL HS Hc Eh Et Hv. destruct (inv_closed _ (lk_inv k HL) Hc) as (j & u & Ej & Hu & _).
  destruct (lk_call k HL j u Ej) as (t' & Et' & Hl).
  assert (owner (view t' (Some u)) = true) as Hv'.
  { destruct u as [|[| | | | | |[]]]; try done; cbn in Hl; by destruct t' as [? []|[]]; try done; destruct first. }
  enough (i = j) as -> by congruence.
  eapply (sd_unique _ HS i j); [| |exact Hv|exact Hv']; cbn [abs threads over]; rewrite lookup_views.
  - by rewrite Et, Eh.
  - by rewrite Et', Ej.
Qed.

(** *** Steps of a call *)

Definition call_next (a : answer) (closed : bool) (h h' : hthread) : Prop :=
  match h with
  | Caller c CStart => h' = Caller c CLocked
  | Caller c CLocked => h' = Caller c (if closed then CReturning (closed_result c) else CCalling)
  | Caller c CCalling => ∃ r, finish c a = Some r ∧ h' = Caller c (CReturning r)
  | Caller c (CReturning r) => h' = Caller c (CDone r)
  | Caller c (CDone _) => False
  | ProducerHandle.Closer ProducerHandle.KStart => h' = HCloser ProducerHandle.KLocked
  | ProducerHandle.Closer ProducerHandle.KLocked =>
      h' = HCloser (if closed then ProducerHandle.KAlready else ProducerHandle.KSet)
  | ProducerHandle.Closer ProducerHandle.KAlready => h' = HCloser (ProducerHandle.KDone false)
  | ProducerHandle.Closer ProducerHandle.KSet => h' = HCloser ProducerHandle.KUnlocked
  | ProducerHandle.Closer ProducerHandle.KUnlocked => h' = HCloser KAdminClosed
  | ProducerHandle.Closer KAdminClosed => h' = HCloser (ProducerHandle.KDone true)
  | ProducerHandle.Closer (ProducerHandle.KDone _) => False
  end.
(** The step that closes the client. *)
Definition closes (h : hthread) : bool :=
  match h with ProducerHandle.Closer KAdminClosed => true | _ => false end.
Lemma advance_spec i a d d' h : advance i a d = Some d' → ProducerHandle.threads d !! i = Some h →
  ∃ h', ProducerHandle.threads d' = <[i := h']> (ProducerHandle.threads d) ∧
    client_closes d' = (if closes h then S (client_closes d) else client_closes d) ∧
    call_next a (ProducerHandle.closed d) h h'.
Proof.
  unfold advance, at_. intros E Eh. rewrite Eh in E.
  destruct h as [c []|[]]; repeat case_match; try done; simplify_eq; eexists;
    (split; [reflexivity|split; [done|]]); cbn; eauto.
Qed.
Lemma linked_next a b i t h h' : linked i t h → call_next a b h h' → linked i t h'.
Proof.
  destruct h as [c []|[]]; cbn; try (intros [Hl Hf]); try intros Hl; try done; try (by intros ->).
  - intros ->. split; [done|]. destruct b; [apply fits_closed|done].
  - intros (r & Hr & ->). split; [done|]. by eapply fits_finish.
  - destruct b; by intros ->.
  - intros ->. by destruct t as [|[]].
  - intros ->. by destruct t as [|[]].
Qed.
(** The steps of a call that the publisher will see: its answer, or that it is
    closed. *)
Definition visible (closed : bool) (h : hthread) : bool :=
  match h with
  | Caller _ CCalling => true
  | Caller _ CLocked => closed
  | ProducerHandle.Closer (ProducerHandle.KAlready | KAdminClosed) => true
  | _ => false
  end.
Lemma view_next a b t h h' : call_next a b h h' → visible b h = false → view t (Some h') = view t (Some h).
Proof.
  destruct h as [c []|[]]; cbn; intros Hn Hb; try done; subst; try done; try (by destruct t as [? []|[]]).
  by destruct b, t as [? []|[]].
Qed.

(** A step of a call keeps the links. *)
Lemma Linked_call k k' i t (h : hthread) a : Linked k → advance i a (driver k) = Some (driver k') →
  ProducerHandle.threads (driver k) !! i = Some h → threads (own k) !! i = Some t →
  threads (own k') = threads (own k) → channel k' = channel k → translating k' = translating k → Linked k'.
Proof.
  intros HL E Eh Et Hth Hch Htr. destruct (advance_spec i a _ _ h E Eh) as (h' & Ehs & Hcl & Hn).
  destruct (lk_call k HL i h Eh) as (t0 & Et0 & Hl). simplify_eq. constructor.
  - eapply advance_Inv; [apply (lk_inv k HL)|exact E].
  - intros j u. rewrite Ehs, Hth. intros [[<- <-]|[Hij Ej]]%lookup_insert_Some.
    + exists t. split; [done|]. by eapply linked_next.
    + by apply (lk_call k HL).
  - rewrite Htr, Hch. intros Hd%(lk_done k HL). unfold channel_closed in *. rewrite Hcl.
    destruct Hd as [-> Hd]. split; [done|]. by destruct (closes h).
Qed.

(** [k'] is where [k] was for the publisher of Publisher.v, or one step on. *)
Definition simulated k k' : Prop := abs k' = abs k ∨ ∃ b, step cfg b (abs k) = Some (abs k').

(** The publisher's step for a call that has been answered. *)
Lemma abs_call k k' i t h : threads (own k) !! i = Some t →
  ProducerHandle.threads (driver k') = <[i := h]> (ProducerHandle.threads (driver k)) →
  threads (own k') = threads (own k) → channel k' = channel k → translating k' = translating k →
  emitted k' = emitted k →
  abs k' = over (<[i := view t (Some h)]> (threads (abs k))) (pending k) (channel_closed k') (reports_emitted k) (own k').
Proof.
  intros Et Ehs Hth Hch Htr Hem. unfold abs at 1. rewrite Hth, Ehs. unfold pending, reports_emitted. rewrite Hch, Htr, Hem.
  f_equal. rewrite <-(insert_id (threads (own k)) i t Et) at 1.
  rewrite (views_insert _ (ProducerHandle.threads (driver k))), lookup_insert_eq; [done|].
  intros j Hij. by rewrite lookup_insert_ne.
Qed.
Lemma abs_same k k' i t h h' : threads (own k) !! i = Some t →
  ProducerHandle.threads (driver k) !! i = Some h →
  ProducerHandle.threads (driver k') = <[i := h']> (ProducerHandle.threads (driver k)) →
  own k' = own k → channel k' = channel k → translating k' = translating k → emitted k' = emitted k →
  channel_closed k' = channel_closed k → view t (Some h') = view t (Some h) → abs k' = abs k.
Proof.
  intros Et Eh Ehs Hown Hch Htr Hem Hcl Hv.
  rewrite (abs_call k k' i t h' Et Ehs), Hown, Hcl, Hv by (by rewrite ?Hown). unfold abs. f_equal. cbn [threads over].
  apply insert_id. by rewrite lookup_views, Et, Eh.
Qed.

(** A call that finds the producer closed: only a send can, not a [Close]. *)
Lemma closed_simulated k k' i t c : Linked k → Shutdown (abs k) → ProducerHandle.closed (driver k) = true →
  threads (own k) !! i = Some t → ProducerHandle.threads (driver k) !! i = Some (Caller c CLocked) →
  ProducerHandle.threads (driver k') =
    <[i := Caller c (CReturning (closed_result c))]> (ProducerHandle.threads (driver k)) →
  own k' = own k → channel k' = channel k → translating k' = translating k → emitted k' = emitted k →
  channel_closed k' = channel_closed k → simulated k k'.
Proof.
  intros HL HS Hc Et Eh Ehs Hown Hch Htr Hem Hcl.
  destruct (lk_call k HL i _ Eh) as (t0 & Et0 & Hl). simplify_eq.
  pose proof (closed_by k i t _ HL HS Hc Eh Et) as Hno. destruct Hl as [Hl _].
  destruct t as [record []|[]]; try discriminate Hl; injection Hl as <-; try (by specialize (Hno eq_refl)).
  right. exists (AThread i (IError (Some ErrClosed))).
  rewrite (abs_call k k' i _ _ Et Ehs), Hown, Hcl by (by rewrite ?Hown).
  unfold step. unfold abs at 1. cbn [threads over]. by rewrite lookup_views, Et, Eh.
Qed.

(** A call the client answers. *)
Lemma answered_simulated k k' i t c a r : Linked k → ProducerHandle.threads (driver k) !! i = Some (Caller c CCalling) →
  threads (own k) !! i = Some t → finish c a = Some r → client_answers a (own k) = true →
  ProducerHandle.threads (driver k') = <[i := Caller c (CReturning r)]> (ProducerHandle.threads (driver k)) →
  own k' = client_effect c a (own k) → channel k' = channel k → translating k' = translating k →
  emitted k' = emitted k →
  channel_closed k' = channel_closed k → simulated k k'.
Proof.
  intros HL Eh Et Hf Ha Ehs Hown Hch Htr Hem Hcl. destruct (lk_call k HL i _ Eh) as (t0 & Et0 & Hl). simplify_eq.
  pose proof (inv_calling _ (lk_inv k HL) i _ Eh eq_refl) as Hc. pose proof (inv_open _ (lk_inv k HL) Hc) as [= _ Ho].
  assert (producer_closed (abs k) = false) as Hopen by (cbn; unfold channel_closed; by rewrite Ho).
  assert (threads (own k') = threads (own k)) as Hth.
  { rewrite Hown. unfold client_effect. by repeat case_match. }
  assert (threads (abs k) !! i = Some t) as Ev.
  { cbn [abs threads over]. rewrite lookup_views, Et, Eh. cbn. by destruct t as [? []|[]]. }
  pose proof (abs_call k k' i t _ Et Ehs Hth Hch Htr Hem) as Eabs.
  assert (∀ n, a = ACount n → count_ok (Z.to_nat n) (abs k) = true) as Hn.
  { intros n ->. unfold client_answers in Ha. apply andb_true_iff in Ha as [?%Z.leb_le Ha].
    unfold count_ok. cbn [abs over outstanding]. apply orb_true_iff in Ha as [?%Z.ltb_lt| ->]; [|by rewrite orb_true_r].
    by rewrite (proj2 (Nat.ltb_lt _ _)) by lia. }
  destruct Hl as [Hl _]. destruct t as [record []|[]]; try discriminate Hl; injection Hl as <-;
    destruct a as [err|n|ds]; try discriminate Hf; injection Hf as <-.
  - right. exists (AThread i (IError ((λ e, kafka_err (TranslateError e)) <$> err))).
    rewrite Eabs, Hcl, Hown. unfold step. rewrite Ev. unfold enqueue_step.
    destruct err as [err|]; [done|]. cbn [fmap option_fmap option_map]. by rewrite Hopen.
  - right. exists (AThread i (ICount (Z.to_nat n))). rewrite Eabs, Hown, Hcl.
    unfold step. rewrite Ev. unfold close_step. by rewrite (Hn n eq_refl).
  - right. exists (AThread i (ICount (Z.to_nat n))). rewrite Eabs, Hown, Hcl.
    unfold step. rewrite Ev. unfold close_step. by rewrite (Hn n eq_refl).
  - left. by eapply abs_same.
  - right. exists (AThread i (ICount (Z.to_nat n))). rewrite Eabs, Hown, Hcl.
    unfold step. rewrite Ev. unfold close_step. by rewrite (Hn n eq_refl).
Qed.

Lemma call_simulated k k' i a : Linked k → Shutdown (abs k) →
  (∃ h, ProducerHandle.threads (driver k) !! i = Some h) →
  call_step i a k = Some k' → Linked k' ∧ simulated k k'.
Proof.
  intros HL HS [h Eh]. destruct (lk_call k HL i h Eh) as (t & Et & Hl).
  unfold call_step. destruct (advance i a (driver k)) as [d|] eqn:E; [|done]. cbn. rewrite Eh. intros Hk.
  destruct (advance_spec i a _ _ h E Eh) as (h' & Ehs & Hcl & Hn).
  assert (driver k' = d ∧ channel k' = channel k ∧ translating k' = translating k ∧
          threads (own k') = threads (own k) ∧ emitted k' = emitted k) as (Hd & Hch & Htr & Hth & Hem).
  { repeat case_match; simplify_eq; split_and!; try done. cbn. unfold client_effect. by repeat case_match. }
  split; [by eapply (Linked_call k k' i t h a); rewrite ?Hd|].
  assert (closes h = false → channel_closed k' = channel_closed k) as Hcc.
  { intros Hc. unfold channel_closed. by rewrite Hd, Hcl, Hc. }
  rewrite <-Hd in Ehs.
  destruct (visible (ProducerHandle.closed (driver k)) h) eqn:Hvis.
  - destruct h as [c []|[]]; try done.
    + injection Hk as <-. cbn in Hvis, Hn. rewrite Hvis in Hn. subst h'.
      by eapply closed_simulated; try done; apply Hcc.
    + destruct (client_answers a (own k)) eqn:Ha; [|done]. injection Hk as <-.
      destruct Hn as (r & Hf & ->). by eapply answered_simulated; try done; apply Hcc.
    + pose proof (inv_late _ (lk_inv k HL) i _ Eh eq_refl) as Hcd.
      cbn in Hl. destruct t as [|[]]; try done. by pose proof (closed_by k i _ _ HL HS Hcd Eh Et eq_refl).
    + injection Hk as <-. cbn in Hl. destruct t as [|[]]; try done. cbn in Hn. subst h'.
      right. exists (AThread i INone). rewrite (abs_call k _ i _ _ Et Ehs) by done.
      unfold step. unfold abs at 1. cbn [threads over]. rewrite lookup_views, Et, Eh. cbn [fmap option_fmap option_map view].
      unfold close_step. unfold channel_closed at 1. cbn [set_own set_driver driver]. by rewrite Hcl.
  - left. eapply (abs_same k k' i t h h'); try done; try (by apply (view_next _ _ t _ _ Hn)); try apply Hcc;
      destruct h as [c []|[]]; try done; by injection Hk as <-.
Qed.

(** *** Before and after a call *)

Lemma begin_simulated k i t c : Linked k → threads (own k) !! i = Some t → call_at i t = Some c →
  ProducerHandle.threads (driver k) !! i = None →
  let k' := set_driver (set_calls <[i := c]> (driver k)) k in Linked k' ∧ abs k' = abs k.
Proof.
  intros HL Et Hc Eh. split.
  - constructor; [|intros j h; cbn [set_driver driver set_calls ProducerHandle.threads own]|exact (lk_done k HL)].
    + apply Inv_begin; [apply (lk_inv k HL)|done|]. by destruct t as [? []|[]]; simplify_eq/=.
    + intros [[<- <-]|[Hij Ej]]%lookup_insert_Some; [|by apply (lk_call k HL)].
      exists t. split; [done|]. by destruct t as [? []|[]]; simplify_eq/=; try split.
  - unfold abs. cbn [own set_driver driver set_calls ProducerHandle.threads]. f_equal.
    apply (views_same _ _ _ i); [intros j Hij; by rewrite lookup_insert_ne|].
    intros t' Et'. simplify_eq. rewrite lookup_insert_eq, Eh. by destruct t as [? []|[]]; simplify_eq/=.
Qed.

(** A goroutine moves on in the publisher's code; its call, if any, is over. *)
Lemma Linked_moved k s' d i t' : Linked k → threads s' = <[i := t']> (threads (own k)) →
  Inv d → (∀ j, i ≠ j → ProducerHandle.threads d !! j = ProducerHandle.threads (driver k) !! j) →
  (∀ h, ProducerHandle.threads d !! i = Some h → linked i t' h) → client_closes d = client_closes (driver k) →
  Linked (set_own s' (set_driver d k)).
Proof.
  intros HL Hth Hd Hoff Hi Hcl. constructor; [done| |].
  - intros j h. cbn [set_own set_driver driver own]. rewrite Hth. destruct (decide (i = j)) as [<-|Hij].
    + intros Eh. exists t'. rewrite lookup_insert_eq. split; [done|by apply Hi].
    + rewrite Hoff, lookup_insert_ne by done. apply (lk_call k HL).
  - cbn [set_own set_driver translating channel]. unfold channel_closed. cbn [set_own set_driver driver]. rewrite Hcl.
    apply (lk_done k HL).
Qed.
Lemma abs_moved k s' d i t' : threads s' = <[i := t']> (threads (own k)) →
  (∀ j, i ≠ j → ProducerHandle.threads d !! j = ProducerHandle.threads (driver k) !! j) →
  client_closes d = client_closes (driver k) →
  abs (set_own s' (set_driver d k)) =
  over (<[i := view t' (ProducerHandle.threads d !! i)]> (threads (abs k))) (pending k) (channel_closed k) (reports_emitted k) s'.
Proof.
  intros Hth Hoff Hcl. unfold abs at 1. cbn [set_own set_driver driver own]. rewrite Hth.
  rewrite (views_insert _ (ProducerHandle.threads (driver k))) by (by intros; rewrite Hoff).
  f_equal. unfold channel_closed. cbn [set_own set_driver driver]. by rewrite Hcl.
Qed.

Lemma return_simulated k i t c r : Linked k → threads (own k) !! i = Some t →
  ProducerHandle.threads (driver k) !! i = Some (Caller c (CDone r)) →
  let k' := set_own (set_thread i (resume t r) (note_purge t r (own k)))
              (set_driver (set_calls (delete i) (driver k)) k) in
  Linked k' ∧ simulated k k'.
Proof.
  intros HL Et Eh. destruct (lk_call k HL i _ Eh) as (t0 & Et0 & Hl). simplify_eq.
  assert (threads (note_purge t r (own k)) = threads (own k)) as Hth.
  { unfold note_purge. by repeat case_match. }
  assert (∀ j, i ≠ j → delete i (ProducerHandle.threads (driver k)) !! j = ProducerHandle.threads (driver k) !! j) as Hoff.
  { intros j Hij. by rewrite lookup_delete_ne. }
  split.
  - eapply Linked_moved; [done|cbn [threads set_thread]; by rewrite Hth| |exact Hoff| |done].
    + eapply Inv_end; [apply (lk_inv k HL)|exact Eh].
    + intros h. cbn. by rewrite lookup_delete_eq.
  - assert (threads (abs k) !! i = Some (view t (Some (Caller c (CDone r))))) as Ev.
    { cbn [abs threads over]. by rewrite lookup_views, Et, Eh. }
    unfold simulated. rewrite (abs_moved k _ _ i (resume t r)); [|cbn [threads set_thread]; by rewrite Hth|exact Hoff|done].
    cbn [set_calls ProducerHandle.threads]. rewrite lookup_delete_eq, view_None.
    destruct t as [record pc|pc]; [|destruct pc as [| | | | | | |timeout|n| | | |]].
    all: try (left; cbn [note_purge] in *; unfold abs, over; f_equal; cbn [threads over abs] in Ev; by apply insert_id).
    destruct r as [err|m|ps]; try (left; unfold abs, over; f_equal; cbn [threads over abs] in Ev; by apply insert_id).
    right. exists (AThread i (IError err)). unfold step. rewrite Ev. by destruct err.
Qed.
Lemma closed_return_simulated k i t b : Linked k → threads (own k) !! i = Some t →
  ProducerHandle.threads (driver k) !! i = Some (HCloser (ProducerHandle.KDone b)) →
  let k' := set_own (set_thread i (resume_closed t) (own k)) k in Linked k' ∧ abs k' = abs k.
Proof.
  intros HL Et Eh. destruct (lk_call k HL i _ Eh) as (t0 & Et0 & Hl). simplify_eq. cbn zeta.
  assert (set_own (set_thread i (resume_closed t) (own k)) k =
          set_own (set_thread i (resume_closed t) (own k)) (set_driver (driver k) k)) as ->
    by (by destruct k).
  split.
  - eapply Linked_moved; [done|done|apply (lk_inv k HL)|done| |done].
    intros h. rewrite Eh. intros [= <-]. cbn in Hl |- *. by destruct t as [|[]].
  - rewrite (abs_moved k _ _ i (resume_closed t)) by done. unfold abs, over. f_equal. cbn [threads].
    apply insert_id. rewrite lookup_views, Et, Eh. cbn. cbn in Hl. by destruct t as [|[]].
Qed.

(** *** The simulation *)

(** A goroutine that calls nothing has no call, or its client closed. *)
Lemma no_call k i t : Linked k → threads (own k) !! i = Some t → call_at i t = None →
  ProducerHandle.threads (driver k) !! i = None ∨
  ∃ b, ProducerHandle.threads (driver k) !! i = Some (HCloser (ProducerHandle.KDone b)) ∧
    match t with Closer (KReports _ _ | KDone (Some _) _) => True | _ => False end.
Proof.
  intros HL Et Hc. destruct (ProducerHandle.threads (driver k) !! i) as [h|] eqn:Eh; [right|by left].
  destruct (lk_call k HL i h Eh) as (t' & Et' & Hl). simplify_eq.
  destruct h as [c pc|[]]; cbn in Hl; [destruct Hl; congruence|..]; destruct t as [|[]]; try done; by eexists.
Qed.
Lemma local_simulated k s' i t x : Linked k → threads (own k) !! i = Some t → call_at i t = None →
  step cfg (AThread i x) (own k) = Some s' → Linked (set_own s' k) ∧ simulated k (set_own s' k).
Proof.
  intros HL Et Hc E. pose proof (no_call k i t HL Et Hc) as Hno.
  assert (threads (abs k) !! i = Some t) as Ev.
  { cbn [abs threads over]. rewrite lookup_views, Et. cbn. destruct Hno as [->|(b & -> & Hd)]; [by rewrite view_None|].
    cbn. by destruct t as [|[]]. }
  destruct (local_step i x t (own k) s' (threads (abs k)) (pending k) (channel_closed k) (reports_emitted k) Et Hc Ev)
    as (t' & Hth & Hs & Hdone); [apply views_rlock|apply views_lock|done|].
  assert (set_own s' k = set_own s' (set_driver (driver k) k)) as -> by (by destruct k).
  split.
  - eapply Linked_moved; [done|exact Hth|apply (lk_inv k HL)|done| |done].
    intros h Eh. destruct Hno as [Hno|(b & Hno & Hd)]; rewrite Hno in Eh; [done|]. injection Eh as <-.
    cbn. destruct t as [|[]]; try done; destruct t' as [|[]]; try done; by destruct first0 || destruct first.
  - right. exists (AThread i x). rewrite (abs_moved k s' (driver k) i t') by done.
    change (over (threads (abs k)) (pending k) (channel_closed k) (reports_emitted k) (own k)) with (abs k) in Hs.
    rewrite Hs. do 2 f_equal. symmetry. destruct Hno as [->|(b & -> & Hd)]; [by rewrite view_None|].
    destruct t as [|[]]; try done; by destruct t' as [|[]].
Qed.
Lemma thread_simulated k k' i x a : Linked k → Shutdown (abs k) → thread_step cfg i x a k = Some k' →
  Linked k' ∧ simulated k k'.
Proof.
  intros HL HS. unfold thread_step. destruct (threads (own k) !! i) as [t|] eqn:Et; [|done]. cbn -[step].
  destruct (call_at i t) as [c|] eqn:Hc.
  - destruct (ProducerHandle.threads (driver k) !! i) as [h|] eqn:Eh.
    + assert (call_step i a k = Some k' → Linked k' ∧ simulated k k') as Hcall.
      { apply call_simulated; [done..|]. by exists h. }
      destruct h as [c' []|[]]; try done.
      * intros [= <-]. by apply (return_simulated k i t c').
      * intros [= <-]. destruct (closed_return_simulated k i t first HL Et Eh) as [? ?]. split; [done|by left].
    + intros [= <-]. destruct (begin_simulated k i t c HL Et Hc Eh) as [? ?]. split; [done|by left].
  - destruct (step cfg (AThread i x) (own k)) as [s'|] eqn:E; [|done]. intros [= <-]. by eapply local_simulated.
Qed.

(** The report goroutine, [translate] and the client leave the calls alone. *)
Lemma Linked_rest k s' ch tr em : Linked k → threads s' = threads (own k) →
  (tr = TDone → ch = [] ∧ channel_closed k = true) → Linked (mkStack s' (driver k) ch tr em).
Proof. intros HL Hth Htr. constructor; cbn; [apply (lk_inv k HL)|rewrite Hth; apply (lk_call k HL)|done]. Qed.
Lemma read_simulated k k' panics : Linked k → read_step cfg panics k = Some k' → Linked k' ∧ simulated k k'.
Proof.
  intros HL. unfold read_step.
  assert (reporter (own k) ≠ RReceive → (s ← report_step cfg panics (own k); Some (set_own s k)) = Some k' →
          Linked k' ∧ simulated k k') as Hother.
  { intros Hr. destruct (report_step cfg panics (own k)) as [s'|] eqn:E; [|done]. intros [= <-].
    destruct (report_over panics (own k) s' (threads (abs k)) (pending k) (channel_closed k) (reports_emitted k) Hr E) as [Hth Hs].
    split; [apply Linked_rest; [done..|apply (lk_done k HL)]|]. right. exists (AReporter panics).
    change (over (threads (abs k)) (pending k) (channel_closed k) (reports_emitted k) (own k)) with (abs k) in Hs.
    cbn [step]. rewrite Hs. unfold abs. cbn [set_own own driver]. by rewrite Hth. }
  destruct (reporter (own k)) eqn:Er; try (by apply Hother). clear Hother.
  destruct (translating k) as [|ev|] eqn:Et; [done| |].
  - destruct (report_step cfg panics (set_events [ev] (own k))) as [s'|] eqn:E; [|done]. intros [= <-].
    destruct (receive_over panics ev (own k) s' (threads (abs k)) (translate_events (channel k))
                (channel_closed k) (reports_emitted k) Er E) as [Hth Hs].
    split; [by apply Linked_rest|]. right. exists (AReporter panics). cbn [step].
    assert (pending k = ev :: translate_events (channel k)) as Ep by (unfold pending; by rewrite Et).
    rewrite <-Ep in Hs. change (over (threads (abs k)) (pending k) (channel_closed k) (reports_emitted k) (own k)) with (abs k) in Hs.
    rewrite Hs. unfold abs. cbn [own driver]. by rewrite Hth.
  - intros [= <-]. destruct (lk_done k HL Et) as [Hch Hcl].
    assert (pending k = []) as Ep by (unfold pending; by rewrite Et, Hch).
    split; [apply Linked_rest; [done..|apply (lk_done k HL)]|]. right. exists (AReporter panics).
    cbn [step]. unfold report_step. cbn [abs over reporter events producer_closed]. by rewrite Er, Ep, Hcl.
Qed.
Lemma translate_simulated k k' : Linked k → translate_step k = Some k' → Linked k' ∧ abs k' = abs k.
Proof.
  intros HL. unfold translate_step. destruct (translating k) eqn:Et; [|done..].
  assert (∀ tr ch, match tr with TSend ev => [ev] | _ => [] end ++ translate_events ch = pending k →
          abs (mkStack (own k) (driver k) ch tr (emitted k)) = abs k) as Habs.
  { intros tr ch Hp. unfold abs. cbn [own driver]. by rewrite <-Hp. }
  destruct (channel k) as [|e es] eqn:Ec.
  - destruct (channel_closed k) eqn:Hcl; [|done]. intros [= <-].
    split; [by apply Linked_rest|]. apply Habs. unfold pending. by rewrite Et, Ec.
  - intros [= <-]. split; [apply Linked_rest; try done; by destruct (TranslateEvent e)|].
    apply Habs. unfold pending. rewrite Et, Ec. cbn. by destruct (TranslateEvent e).
Qed.
Lemma event_simulated k e : Linked k → channel_closed k = false → event_possible e (own k) = true →
  let k' := mkStack (event_effect e (own k)) (driver k) (channel k ++ [e]) (translating k) (emitted k ++ [e]) in
  Linked k' ∧ simulated k k'.
Proof.
  intros HL Hcl He. split.
  { apply Linked_rest; [done| |].
    - unfold event_effect. by repeat case_match.
    - intros Hd%(lk_done k HL). destruct Hd. congruence. }
  assert (pending (mkStack (event_effect e (own k)) (driver k) (channel k ++ [e]) (translating k) (emitted k ++ [e])) =
          pending k ++ translate_events [e]) as Ep.
  { unfold pending, translate_events. cbn [channel translating]. by rewrite omap_app, app_assoc. }
  assert (reports_emitted (mkStack (event_effect e (own k)) (driver k) (channel k ++ [e]) (translating k) (emitted k ++ [e])) =
          reports_emitted k ++ omap event_report (translate_events [e])) as Er.
  { unfold reports_emitted, translate_events. cbn [emitted]. by rewrite !omap_app. }
  assert (producer_closed (abs k) = false) as Hpc by exact Hcl.
  unfold simulated. unfold abs at 1 4. rewrite Ep, Er. cbn [own driver].
  destruct e as [[i|typ] p o err|code f text|]; cbn [event_effect event_possible translate_events omap list_omap TranslateEvent] in *.
  - destruct (decide (i ∈ outstanding (own k))) as [Hi|Hi].
    + right. exists (AReport i p o (TranslateError <$> err)). cbn [step]. rewrite Hpc.
      cbn [negb andb]. by rewrite bool_decide_eq_true_2.
    + right. exists (AStray (mkReport (TDelivery i) p o (TranslateError <$> err))). cbn [step]. rewrite Hpc.
      unfold stray_ok. cbn [rep_Token negb andb abs over deliveries outstanding]. rewrite He, bool_decide_eq_true_2 by done.
      by rewrite difference_disjoint_L by (by apply disjoint_singleton_r).
  - right. exists (AStray (mkReport (TForeign typ) p o (TranslateError <$> err))). cbn [step]. by rewrite Hpc.
  - right. exists (AClientError (TranslateError (EKfk code f text))). cbn [step]. by rewrite Hpc.
  - left. by rewrite !app_nil_r.
Qed.

Lemma step_simulated k k' act : Linked k → Shutdown (abs k) → stack_step cfg act k = Some k' →
  Linked k' ∧ simulated k k'.
Proof.
  intros HL HS. destruct act as [i x a|panics| |e]; cbn [stack_step].
  - by apply thread_simulated.
  - by apply read_simulated.
  - intros E. destruct (translate_simulated k k' HL E). split; [done|by left].
  - destruct (_ && _) eqn:Eb; [|done]. apply andb_true_iff in Eb as [Hcl%negb_true_iff He].
    intros [= <-]. by apply event_simulated.
Qed.

(** A state a publisher on its producer can come to, seen through what it does. *)
Definition sound ts k : Prop := Linked k ∧ reachable cfg ts (abs k).
Lemma sound_step ts k act k' : sound ts k → stack_step cfg act k = Some k' →
  sound ts k' ∧ (abs k' = abs k ∨ ∃ a, step cfg a (abs k) = Some (abs k')).
Proof.
  intros [HL Hr] E. destruct (step_simulated k k' act HL (reachable_Shutdown cfg ts _ Hr) E) as [HL' Hs].
  split; [|exact Hs]. split; [done|]. destruct Hs as [->|[a Ha]]; [done|by eapply reach_step].
Qed.
Lemma sound_run ts acts : ∀ k k', sound ts k → stack_run cfg acts k = Some k' → sound ts k'.
Proof.
  induction acts as [|act acts IH]; intros k k' Hk; simpl; [by intros [= ->]|].
  destruct (stack_step cfg act k) as [k1|] eqn:E; [|done]. simpl. apply IH. by eapply sound_step.
Qed.
Lemma stack_reaches ts k : stack_reachable cfg ts k → sound ts k.
Proof.
  induction 1 as [Hf|act k k' Hk IH E]; [|by eapply sound_step].
  split; [apply stack_initial_Linked|].
  assert (abs (stack_initial ts) = initial ts) as ->; [|by apply reach_initial].
  unfold abs, over, initial. cbn. f_equal. apply map_eq. intros i. rewrite lookup_views, lookup_empty.
  destruct (ts !! i); [|done]. cbn. by rewrite view_None.
Qed.
Lemma sound_initial : sound ∅ (stack_initial ∅).
Proof. apply stack_reaches, sreach_initial, map_Forall_empty. Qed.

(** *** What the client said *)

Lemma first_message_app i l m :
  first_message i (l ++ m) = match first_message i l with Some e => Some e | None => first_message i m end.
Proof. unfold first_message. induction l as [|e l IH]; [done|]. simpl. by destruct (bool_decide _). Qed.
Lemma first_emitted i es :
  first_report i (omap event_report (translate_events es)) =
  first_message i es ≫= (λ e, TranslateEvent e ≫= event_report).
Proof.
  unfold first_report, first_message, translate_events. induction es as [|e es IH]; [done|].
  destruct e as [[j|typ] p o err|code f text|]; [|exact IH..]. cbn. unfold report_token. cbn.
  destruct (decide (j = i)) as [->|Hj].
  - by rewrite !bool_decide_eq_true_2.
  - rewrite !bool_decide_eq_false_2 by congruence. exact IH.
Qed.
Lemma first_report_message i k r : first_report i (reports_emitted k) = Some r →
  ∃ p o err, first_message i (emitted k) = Some (PMessage (TDelivery i) p o err) ∧
    r = mkReport (TDelivery i) p o (TranslateError <$> err).
Proof.
  unfold reports_emitted. rewrite first_emitted. destruct (first_message i (emitted k)) as [e|] eqn:E; [|done].
  unfold first_message in E. apply find_some in E as [_ E%bool_decide_eq_true_1].
  destruct e as [[j|typ] p o err| |]; try done. injection E as ->. cbn. intros [= <-]. eauto.
Qed.
(** An outcome is what the client's first event about the record says. *)
Lemma outcome_of_client ts k i d o : sound ts k → deliveries (own k) !! i = Some d → d_outcome d = Some o →
  ∃ p offset err, first_message i (emitted k) = Some (PMessage (TDelivery i) p offset err) ∧
    o = (mkResult (r_Topic (d_record d)) p offset, newDeliveryError (d_record d) p ∘ TranslateError <$> err).
Proof.
  intros [_ Hr] Ed Eo. destruct (reachable_Settled cfg ts _ Hr) as [_ HS].
  destruct (outcome_reported cfg (abs k) i d o HS Ed Eo) as (r & (p & off & err & Em & ->)%first_report_message & ->).
  exists p, off, err. split; [done|]. unfold outcome_of. by destruct err.
Qed.
(** Events come after those before. *)
Lemma step_emits k act k' : stack_step cfg act k = Some k' → emitted k `prefix_of` emitted k'.
Proof.
  destruct act as [i x a|panics| |e]; cbn [stack_step].
  - unfold thread_step, call_step. intros E.
    repeat (case_match || simplify_option_eq); done.
  - unfold read_step. intros E. repeat (case_match; try done); simplify_option_eq; by simplify_eq.
  - unfold translate_step. intros E. repeat (case_match; try done); by simplify_eq.
  - case_match; [|done]. intros [= <-]. by eexists.
Qed.
End abstraction.

(** ** Property *)

(** C9 (producer.go implements its interface) Whatever the interleaving of the
    goroutines of a publisher, the methods they call on the producer with its lock,
    the goroutine [translate] and the events of librdkafka: the publisher goes
    through states of Publisher.v, so all that is shown of those is shown of it.
    Goroutines that are in no call stand where they do there, and what is logged is
    what is logged there.  Nobody is inside a client that is closed; a call that
    finds the producer closed is a send, so no count is zero for that reason; the
    admin client and the producer are each closed at most once. *)
Theorem producer_implements_interface {D F P : Type}
    (cfg : config (DeliveryErrorFunc:=D) (FatalFunc:=F) (Factory:=P)) `{KfkCodes} ts k :
  stack_reachable cfg ts k →
  reachable cfg ts (abs k) ∧ log (abs k) = log (own k) ∧
  (∀ i t, threads (own k) !! i = Some t → ProducerHandle.threads (driver k) !! i = None →
     threads (abs k) !! i = Some t) ∧
  (∀ i c, ProducerHandle.threads (driver k) !! i = Some (Caller c CCalling) →
     ProducerHandle.closed (driver k) = false ∧ client_closes (driver k) = 0%nat) ∧
  (∀ i c pc, ProducerHandle.threads (driver k) !! i = Some (Caller c pc) →
     ProducerHandle.closed (driver k) = true → ∃ record, c = Produce record (TDelivery i)) ∧
  (client_closes (driver k) ≤ admin_closes (driver k) ≤ 1)%nat.
Proof.
  intros [HL Hr]%stack_reaches. pose proof (reachable_Shutdown cfg ts _ Hr) as HS.
  pose proof (lk_inv k HL) as HI. split_and!; try done.
  - intros i t Et Eh. cbn [abs threads over]. rewrite lookup_views, Et, Eh. cbn. by rewrite view_None.
  - intros i c Eh. pose proof (inv_calling _ HI i _ Eh eq_refl) as Hc. split; [done|].
    by injection (inv_open _ HI Hc) as _ ->.
  - intros i c pc Eh Hc. destruct (lk_call k HL i _ Eh) as (t & Et & Hl & _).
    pose proof (closed_by k i t _ HL HS Hc Eh Et) as Hno.
    destruct t as [record []|[]]; try discriminate Hl; injection Hl as <-; [by exists record|..];
      destruct pc as [| | |[]|[]]; by specialize (Hno eq_refl).
  - by apply Inv_closes.
  - by apply Inv_closes.
Qed.

(** ** Witness: a send and a [Close]

    The record is reported between two events that are not forwarded or not about
    it. *)
Module Ex_stack.
#[local] Existing Instance codes_librdkafka.
Definition cfg : config (DeliveryErrorFunc:=unit) (FatalFunc:=unit) (Factory:=unit) :=
  mkconfig ["kafka:9092"] ∅ true false PartitionerDefault defaultDeliveryTimeout (Some tt) (Some tt) tt.
Definition order : Record_ := mkRecord "orders" (Some "a") (Some "v") [].
Definition goroutines : gmap nat thread := <[0%nat := Sender order SStart]> {[1%nat := Closer KStart]}.
Lemma pair_fresh : map_Forall (λ _ t, fresh t) goroutines.
Proof. repeat (apply map_Forall_insert_2; [done|]). apply map_Forall_empty. Qed.
Definition at_ (i : nat) (x : input) (a : answer) : stack_action := SThread i x a.
Definition go (i : nat) : stack_action := at_ i INone (AError None).
Definition count (i : nat) (n : Z) : stack_action := at_ i INone (ACount n).
Definition sending : list stack_action :=
  (* RLock, closed, fatal; the call, RLock, closed *)
  [go 0; go 0; go 0; go 0; go 0; go 0;
   (* inside the client: accepted *)
   go 0].
Definition reported : list stack_action :=
  [SEvent POther; SEvent (PError (-195) false "down"); SEvent (PMessage (TDelivery 0) 3 41 None);
   STranslate; STranslate; SReporter None; STranslate; SReporter None;
   (* RUnlock, the result, the deferred RUnlock *)
   go 0; go 0; go 0].
Definition closing : list stack_action :=
  [go 1; go 1; go 1;
   (* Len *)
   go 1; go 1; go 1; count 1 0; go 1; go 1;
   at_ 1 (ICtx false None) (AError None);
   (* Close, and its return *)
   go 1; go 1; go 1; go 1; go 1; go 1; go 1;
   STranslate; SReporter None; go 1].
Definition ran (acts : list stack_action) (test : stack → bool) : bool :=
  match stack_run cfg acts (stack_initial goroutines) with Some k => test k | None => false end.
Lemma stack_ran_spec acts test : ran acts test = true →
  ∃ k, stack_run cfg acts (stack_initial goroutines) = Some k ∧ test k = true.
Proof. unfold ran. destruct (stack_run _ _ _) as [k|]; [eauto|done]. Qed.
(** Both have returned, without an error, and the client is closed. *)
Definition over_ (k : stack) : bool :=
  match threads (own k) !! 0%nat, threads (own k) !! 1%nat with
  | Some (Sender _ (SDone None)), Some (Closer (KDone (Some (0%nat, 0%nat)) None)) =>
      (client_closes (driver k) =? 1)%nat
  | _, _ => false
  end.
Lemma stack_ran_all : ran (sending ++ reported ++ closing) over_ = true.
Proof. by vm_compute. Qed.
Example what_was_logged :
  (k ← stack_run cfg (sending ++ reported) (stack_initial goroutines); Some (log (own k))) =
  Some [LAccepted 0; LBrokerDown; LBrokerRestored 0; LResolved 0 (mkResult "orders" 3 41, None)].
Proof. by vm_compute. Qed.

Lemma producer_implements_interface_witness : ∃ k,
  stack_run cfg (sending ++ reported ++ closing) (stack_initial goroutines) = Some k ∧ over_ k = true ∧
  reachable cfg goroutines (abs k).
Proof.
  destruct (stack_ran_spec _ _ stack_ran_all) as (k & E & Ht). exists k. split; [exact E|]. split; [exact Ht|].
  refine (proj1 (producer_implements_interface cfg goroutines k _)).
  eapply (stack_run_reachable cfg); [apply sreach_initial, pair_fresh|exact E].
Defined.
End Ex_stack.
