(* ===== verification/StackProgress.v ===== *)
(** * The publisher on its producer comes to rest

    Two locks, one in the publisher and one in its driver, two channels, and the
    goroutines that wait for each other through them: none waits for ever. *)
From S2P Require Import Prelude GoStrings GoErrors GoTime GoAny RWMutex Kfk PubDriver PubOptions Delivery.
From S2P Require Import ProducerHandle.
From S2P Require Import Publisher PubInvariants PubSafety PubProgress PubStack StackRefines.

Section progress.
Context {D F P : Type} (cfg : config (DeliveryErrorFunc:=D) (FatalFunc:=F) (Factory:=P)) `{KfkCodes}.
Implicit Types k : stack.

(** A step of the program: a goroutine's, the report goroutine's or [translate]'s,
    not an event of librdkafka; and the context of a [Close] in its drain has ended. *)
Definition stack_prompt (act : stack_action) : bool :=
  match act with
  | SThread _ (ICtx false _) _ | SEvent _ => false
  | _ => true
  end.
Definition stack_own_step k : Prop := ∃ act, stack_prompt act = true ∧ is_Some (stack_step cfg act k).

(** *** A call goes on *)

(** An answer the client can give. *)
Definition good_answer (c : call token) : answer :=
  match c with Flush _ | Len => ACount 1 | _ => AError None end.
Lemma advance_other i a (d d' : handle token) h : advance i a d = Some d' → ProducerHandle.threads d !! i = Some h →
  calling h = false → ∀ a', is_Some (advance i a' d).
Proof.
  intros E Eh Hc a'. revert E. unfold advance. rewrite Eh. destruct h as [c []|[]]; try done; repeat case_match; eauto.
Qed.
Lemma call_goes_on k i h : Linked k → ProducerHandle.threads (driver k) !! i = Some h →
  (∃ a, is_Some (advance i a (driver k))) → stack_own_step k.
Proof.
  intros HL Eh (a & d & E). destruct (lk_call k HL i h Eh) as (t & Et & Hl).
  destruct (advance_spec i a _ _ h E Eh) as (h' & _ & _ & Hn).
  set (a' := match h with Caller c CCalling => good_answer c | _ => a end).
  assert (is_Some (call_step i a' k)) as Hstep.
  { unfold call_step. destruct (calling h) eqn:Hc.
    - destruct h as [c []|]; try done. destruct Hl as [Hl _]. subst a'.
      destruct t as [record []|[]]; try discriminate Hl; injection Hl as <-;
        unfold advance; rewrite Eh; cbn; by eexists.
    - destruct (advance_other i a (driver k) d h E Eh Hc a') as [d' ->]. cbn. rewrite Eh.
      destruct h as [c []|[]]; try done; by eexists. }
  exists (SThread i INone a'). split; [done|]. cbn [stack_step]. unfold thread_step. rewrite Et. cbn -[step].
  assert (∃ c, call_at i t = Some c) as [c ->].
  { destruct h as [c []|[]]; try done; cbn in Hl; try (destruct Hl as [Hl _]; by eauto); destruct t as [|[]]; try done; by eexists. }
  rewrite Eh. by destruct h as [c' []|[]].
Qed.

(** *** Nobody is in a call *)

Lemma over_own k : over (threads (own k)) (events (own k)) (producer_closed (own k)) (reported (own k)) (abs k) = own k.
Proof. by destruct k as [[] ? ? ? ?]. Qed.
Lemma views_id k : (∀ i t, threads (own k) !! i = Some t → call_at i t = None) → threads (abs k) = threads (own k).
Proof.
  intros Hno. cbn [abs threads over]. apply map_eq. intros i. rewrite lookup_views.
  destruct (threads (own k) !! i) as [t|] eqn:Et; [|done]. specialize (Hno i t Et). cbn. f_equal.
  destruct t as [? []|[]]; try discriminate Hno; destruct (ProducerHandle.threads (driver k) !! i) as [[? []|[]]|]; done.
Qed.
Lemma receive_again panics ev es ts pc rs s : reporter s = RReceive →
  is_Some (report_step cfg panics (over ts (ev :: es) pc rs s)) → is_Some (report_step cfg panics (set_events [ev] s)).
Proof.
  intros Hr. unfold report_step. cbn [reporter over set_events events]. rewrite Hr.
  destruct ev as [r|err]; [|by eexists]. unfold settle, logUnmatchedReport.
  cbn [deliveries set_events over]. destruct (rep_Token r) as [i|]; [|by eexists].
  destruct (deliveries s !! i) as [d|]; [|by intros [? [=]]]. cbn.
  destruct (resolved d); [by eexists|]. destruct (rep_Err r); by eexists.
Qed.
Lemma reporter_goes_on k panics : is_Some (report_step cfg panics (abs k)) → stack_own_step k.
Proof.
  intros [s' E]. assert (reporter (own k) = RReceive ∨ reporter (own k) ≠ RReceive) as [Er|Er]
    by (destruct (reporter (own k)); auto).
  - destruct (translating k) as [|ev|] eqn:Et.
    + exists STranslate. split; [done|]. cbn [stack_step]. unfold translate_step. rewrite Et.
      destruct (channel k) as [|e es] eqn:Ec; [|by eexists].
      assert (pending k = []) as Ep by (unfold pending; by rewrite Et, Ec).
      destruct (channel_closed k) eqn:Hcl; [by eexists|].
      unfold report_step in E. cbn [abs over reporter events producer_closed] in E. by rewrite Er, Ep, Hcl in E.
    + exists (SReporter panics). split; [done|]. cbn [stack_step]. unfold read_step. rewrite Er, Et.
      destruct (receive_again panics ev (translate_events (channel k)) (threads (abs k)) (channel_closed k) (reports_emitted k) (own k) Er)
        as [s1 ->]; [|by eexists].
      assert (pending k = ev :: translate_events (channel k)) as <- by (unfold pending; by rewrite Et). by exists s'.
    + exists (SReporter panics). split; [done|]. cbn [stack_step]. unfold read_step. rewrite Er, Et. by eexists.
  - exists (SReporter panics). split; [done|]. cbn [stack_step]. unfold read_step.
    destruct (report_over cfg panics (abs k) s' (threads (own k)) (events (own k)) (producer_closed (own k)) (reported (own k)) Er E) as [_ Hs].
    rewrite over_own in Hs. rewrite Hs. destruct (reporter (own k)); try done; by eexists.
Qed.
Lemma calls_or_step k : Linked k →
  (∀ i t, threads (own k) !! i = Some t → call_at i t = None) ∨ stack_own_step k.
Proof.
  intros HL.
  destruct (decide (map_Forall (λ _ h, ProducerHandle.finished h) (ProducerHandle.threads (driver k)))) as [Hf|Hf].
  2:{ right. apply map_not_Forall in Hf as (i & h & Eh & Hf); [|apply _].
      destruct (no_deadlock (driver k)) as (j & a & d & E); [by eauto|].
      destruct (ProducerHandle.threads (driver k) !! j) as [u|] eqn:Ej; [by eapply call_goes_on; eauto|].
      unfold advance in E. by rewrite Ej in E. }
  destruct (decide (map_Forall (λ i t, call_at i t = None) (threads (own k)))) as [Hn|Hn]; [by left|right].
  apply map_not_Forall in Hn as (i & t & Et & Hc); [|apply _].
  exists (SThread i INone (AError None)). split; [done|]. cbn [stack_step]. unfold thread_step. rewrite Et. cbn -[step].
  destruct (call_at i t) as [c|]; [|done].
  destruct (ProducerHandle.threads (driver k) !! i) as [h|] eqn:Eh; [|by eexists].
  specialize (Hf i h Eh). destruct h as [c' []|[]]; try done; by eexists.
Qed.

(** While a goroutine that sends or closes has not returned, something can step. *)
Lemma stack_no_deadlock ts k i t : sound cfg ts k →
  threads (own k) !! i = Some t → finished t = false → stack_own_step k.
Proof.
  intros [HL Hr] Et Hf. destruct (calls_or_step k HL) as [Hno|]; [|done].
  assert (∀ j, threads (abs k) !! j = threads (own k) !! j) as Habs by (by rewrite views_id).
  destruct (publisher_no_deadlock cfg (abs k) i t) as (b & Hp & s' & E); [|by eapply reachable_Settled|by rewrite Habs|done|].
  { by eapply reachable_Shutdown. }
  destruct b as [j x|panics| | |]; try discriminate Hp; [|by apply (reporter_goes_on k panics); exists s'].
  destruct (threads (own k) !! j) as [u|] eqn:Ej.
  2:{ unfold step in E. by rewrite Habs, Ej in E. }
  pose proof (Hno j u Ej) as Hc. assert (threads (abs k) !! j = Some u) as Ej' by (by rewrite Habs).
  destruct (local_step cfg j x u (abs k) s' (threads (own k)) (events (own k)) (producer_closed (own k)) (reported (own k)) Ej' Hc Ej)
    as (t' & _ & Hs & _); [by rewrite views_id by done..|done|].
  rewrite over_own in Hs. exists (SThread j x (AError None)). split; [by destruct x as [| | |[]]|].
  cbn [stack_step]. unfold thread_step. rewrite Ej. cbn -[step]. rewrite Hc, Hs. by eexists.
Qed.

(** *** The steps left *)

(** A goroutine's: those of the publisher's code, each with a call, and of the call
    it is in. *)
Definition pair_left (th : thread * option hthread) : nat :=
  8 * thread_left th.1 +
  match th.2, call_at 0 th.1 with
  | Some h, _ => ProducerHandle.thread_left h
  | None, Some _ => 6
  | None, None => 0
  end.
Definition pairs k : gmap nat (thread * option hthread) :=
  map_imap (λ i t, Some (t, ProducerHandle.threads (driver k) !! i)) (threads (own k)).
Definition translator_left (tr : translator) : nat := match tr with TReceive => 1 | TSend _ => 4 | TDone => 0 end.
Definition stack_left k : nat :=
  total pair_left (pairs k) + 4 * length (channel k) + translator_left (translating k) + reporter_left (reporter (own k)).

Lemma call_at_any i j t : call_at i t = None ↔ call_at j t = None.
Proof. by destruct t as [? []|[]]. Qed.
Lemma pairs_insert k k' i t t' : threads (own k) !! i = Some t →
  threads (own k') = <[i := t']> (threads (own k)) →
  (∀ j, i ≠ j → ProducerHandle.threads (driver k') !! j = ProducerHandle.threads (driver k) !! j) →
  channel k' = channel k → translating k' = translating k → reporter (own k') = reporter (own k) →
  (pair_left (t', ProducerHandle.threads (driver k') !! i) < pair_left (t, ProducerHandle.threads (driver k) !! i))%nat →
  (stack_left k' < stack_left k)%nat.
Proof.
  intros Et Hth Hoff Hch Htr Hrep Hlt.
  assert (pairs k' = <[i := (t', ProducerHandle.threads (driver k') !! i)]> (pairs k)) as Ep.
  { apply map_eq. intros j. unfold pairs. rewrite map_lookup_imap, Hth. destruct (decide (i = j)) as [<-|Hij].
    - by rewrite !lookup_insert_eq.
    - by rewrite !lookup_insert_ne, map_lookup_imap, Hoff by done. }
  assert (pairs k !! i = Some (t, ProducerHandle.threads (driver k) !! i)) as Ek.
  { unfold pairs. by rewrite map_lookup_imap, Et. }
  unfold stack_left. rewrite Ep, Hch, Htr, Hrep.
  pose proof (total_insert pair_left (pairs k) i _ (t', ProducerHandle.threads (driver k') !! i) Ek). lia.
Qed.
Lemma pairs_same k k' : threads (own k') = threads (own k) → driver k' = driver k → pairs k' = pairs k.
Proof. unfold pairs. by intros -> ->. Qed.

(** A step of a goroutine in the publisher's code. *)
Lemma local_left i x s s' t t' : threads s !! i = Some t → threads s' = <[i := t']> (threads s) → call_at i t = None →
  stack_prompt (SThread i x (AError None)) = true → step cfg (AThread i x) s = Some s' →
  (8 * thread_left t' + 6 < 8 * thread_left t)%nat ∧ reporter s' = reporter s.
Proof.
  intros Et Hth Hc Hp. unfold step. rewrite Et.
  assert (threads s' !! i = Some t') as Et' by (by rewrite Hth, lookup_insert_eq).
  destruct x as [| | |[] until]; try discriminate Hp; clear Hp;
  destruct t as [record pc|pc]; unfold enqueue_step, close_step; destruct pc; try discriminate Hc; intros E;
    repeat (case_match; try done); simplify_eq; cbn [threads set_thread] in Et'; rewrite lookup_insert_eq in Et';
    injection Et' as <-; cbn [thread_left]; try (split; [lia|done]).
  all: try (by rewrite andb_false_r in *).
Qed.
Lemma call_left k k' i a t : Linked k → threads (own k) !! i = Some t →
  (∃ h, ProducerHandle.threads (driver k) !! i = Some h) → call_step i a k = Some k' → (stack_left k' < stack_left k)%nat.
Proof.
  intros HL Et [h Eh]. unfold call_step. destruct (advance i a (driver k)) as [d|] eqn:E; [|done]. cbn. rewrite Eh.
  intros Hk. destruct (advance_spec i a _ _ h E Eh) as (h' & Ehs & _ & Hn).
  assert (driver k' = d ∧ channel k' = channel k ∧ translating k' = translating k ∧
          threads (own k') = threads (own k) ∧ reporter (own k') = reporter (own k)) as (Hd & Hch & Htr & Hth & Hrep).
  { repeat case_match; simplify_eq; split_and!; try done; cbn; unfold client_effect; by repeat case_match. }
  eapply (pairs_insert k k' i t t); [done|by rewrite Hth, insert_id| |done..|].
  - intros j Hij. by rewrite Hd, Ehs, lookup_insert_ne.
  - rewrite Hd, Ehs, lookup_insert_eq, Eh. unfold pair_left. cbn [fst snd].
    enough (ProducerHandle.thread_left h' < ProducerHandle.thread_left h)%nat by lia.
    destruct h as [c []|[]]; cbn in Hn; try done; subst; try (by destruct Hn as (r & _ & ->); cbn; lia);
      repeat case_match; cbn; lia.
Qed.
Lemma thread_step_left k k' i x a : Linked k → stack_prompt (SThread i x a) = true →
  thread_step cfg i x a k = Some k' → (stack_left k' < stack_left k)%nat.
Proof.
  intros HL Hp. unfold thread_step. destruct (threads (own k) !! i) as [t|] eqn:Et; [|done]. cbn -[step].
  destruct (call_at i t) as [c|] eqn:Hc.
  - destruct (ProducerHandle.threads (driver k) !! i) as [h|] eqn:Eh.
    + destruct (lk_call k HL i h Eh) as (t0 & Et0 & Hl). simplify_eq.
      assert (call_step i a k = Some k' → (stack_left k' < stack_left k)%nat) as Hcall by (eapply call_left; eauto).
      destruct h as [c' []|[]]; try done.
      * intros [= <-]. destruct Hl as [Hl Hf].
        eapply (pairs_insert k _ i t (resume t r)); cbn [set_own set_driver set_calls own driver ProducerHandle.threads channel translating];
          [done| |by intros; rewrite lookup_delete_ne|done|done| |].
        -- unfold note_purge. by repeat case_match.
        -- unfold note_purge. by repeat case_match.
        -- rewrite lookup_delete_eq, Eh. unfold pair_left. cbn [fst snd ProducerHandle.thread_left].
           destruct t as [record []|[]]; try discriminate Hl; injection Hl as <-; destruct r; try done; cbn; lia.
      * intros [= <-]. eapply (pairs_insert k _ i t (resume_closed t)); try done. cbn [set_own driver]. rewrite Eh.
        unfold pair_left. cbn [fst snd]. destruct t as [|[]]; try done; cbn; lia.
    + intros [= <-]. eapply (pairs_insert k _ i t t); try done; cbn [set_own set_driver set_calls own driver ProducerHandle.threads].
      * by rewrite insert_id.
      * intros j Hij. by rewrite lookup_insert_ne.
      * rewrite lookup_insert_eq, Eh. unfold pair_left. cbn [fst snd].
        destruct t as [record []|[]]; simplify_eq/=; lia.
  - destruct (step cfg (AThread i x) (own k)) as [s'|] eqn:E; [|done]. intros [= <-].
    destruct (local_step cfg i x t (own k) s' (threads (own k)) [] false [] Et Hc Et) as (t' & Hth & _ & _); [done..|].
    destruct (local_left i x (own k) s' t t' Et Hth Hc Hp E) as [Hlt Hrep].
    eapply (pairs_insert k _ i t t'); try done. cbn [set_own driver]. unfold pair_left. cbn [fst snd].
    destruct (ProducerHandle.threads (driver k) !! i); [lia|]. destruct (call_at 0 t'), (call_at 0 t); lia.
Qed.
Lemma read_left k k' panics : read_step cfg panics k = Some k' → (stack_left k' < stack_left k)%nat.
Proof.
  unfold read_step.
  assert (reporter (own k) ≠ RReceive → (s ← report_step cfg panics (own k); Some (set_own s k)) = Some k' →
          (stack_left k' < stack_left k)%nat) as Hother.
  { intros Hr. destruct (report_step cfg panics (own k)) as [s'|] eqn:E; [|done]. intros [= <-].
    destruct (report_over cfg panics (own k) s' ∅ [] false [] Hr E) as [Hth _].
    unfold stack_left. rewrite (pairs_same k (set_own s' k) Hth eq_refl). cbn [set_own channel translating own].
    unfold report_step in E. destruct (reporter (own k)) eqn:Er; try done; injection E as <-;
      unfold say_panic; destruct panics; cbn; lia. }
  destruct (reporter (own k)) eqn:Er; try (by apply Hother). clear Hother.
  destruct (translating k) as [|ev|] eqn:Et; [done| |].
  - destruct (report_step cfg panics (set_events [ev] (own k))) as [s'|] eqn:E; [|done]. intros [= <-].
    destruct (receive_over cfg panics ev (own k) s' ∅ [] false [] Er E) as [Hth _].
    pose proof (report_steps cfg panics _ _ E) as Hlt. unfold steps_left in Hlt. rewrite Hth in Hlt.
    cbn [set_events events threads reporter length] in Hlt. rewrite Er in Hlt.
    unfold stack_left. rewrite (pairs_same k (mkStack s' _ _ _ _) Hth eq_refl). cbn [channel translating own].
    rewrite Et, Er. cbn in *. lia.
  - intros [= <-]. unfold stack_left. rewrite (pairs_same k) by done. cbn. rewrite Er. cbn. lia.
Qed.
Lemma translate_left k k' : translate_step k = Some k' → (stack_left k' < stack_left k)%nat.
Proof.
  unfold translate_step. destruct (translating k) eqn:Et; [|done..].
  destruct (channel k) as [|e es] eqn:Ec; [destruct (channel_closed k); [|done]|]; intros [= <-];
    unfold stack_left; rewrite (pairs_same k) by done; cbn [channel translating own]; rewrite Et, ?Ec; cbn; [lia|].
  destruct (TranslateEvent e); cbn; lia.
Qed.
Lemma stack_step_left k k' act : Linked k → stack_prompt act = true → stack_step cfg act k = Some k' →
  (stack_left k' < stack_left k)%nat.
Proof.
  intros HL Hp. destruct act; cbn [stack_step]; [by apply thread_step_left|apply read_left|apply translate_left|done].
Qed.

(** *** At rest *)

Definition at_rest k : Prop :=
  map_Forall (λ _ t, finished t = true) (threads (own k)) ∧
  map_Forall (λ _ h, ProducerHandle.finished h) (ProducerHandle.threads (driver k)) ∧
  ((∃ i pc, threads (own k) !! i = Some (Closer pc)) →
   admin_closes (driver k) = 1%nat ∧ client_closes (driver k) = 1%nat).

Lemma all_returned ts k : sound cfg ts k →
  map_Forall (λ _ t, finished t = true) (threads (own k)) → at_rest k.
Proof.
  intros [HL Hr] Hf. split; [done|]. split.
  - intros i h Eh. destruct (lk_call k HL i h Eh) as (t & Et & Hl). specialize (Hf i t Et). cbn in Hf.
    destruct h as [c pc|[]]; cbn in Hl |- *; try done; [destruct Hl as [Hl _]|..]; by destruct t as [? []|[]].
  - intros (i & pc & Et). pose proof (reachable_Shutdown cfg ts _ Hr) as HS.
    pose proof (Inv_closes _ (lk_inv k HL)) as Hle. enough (producer_closed (abs k) = true) as Hp.
    { change (channel_closed k = true) in Hp. unfold channel_closed in Hp. apply Nat.ltb_lt in Hp. lia. }
    pose proof (Hf i _ Et) as Hfi. destruct pc; try discriminate Hfi.
    assert (threads (abs k) !! i = Some (Closer (KDone first err))) as Ev.
    { cbn [abs threads over]. rewrite lookup_views, Et. cbn. f_equal.
      by destruct (ProducerHandle.threads (driver k) !! i) as [[? []|[]]|]. }
    pose proof (sd_done _ HS i _ _ Ev) as Hce. destruct (sd_closeErr _ HS err Hce) as [Hrd _].
    by destruct (sd_reporter _ HS Hrd).
Qed.
Lemma rest_or_step ts k : sound cfg ts k → at_rest k ∨ stack_own_step k.
Proof.
  intros Hk.
  destruct (decide (map_Forall (λ _ t, finished t = true) (threads (own k)))) as [Hf|Hf].
  { left. by eapply all_returned. }
  right. apply map_not_Forall in Hf as (i & t & Et & Hf); [|apply _]. apply not_true_is_false in Hf.
  by eapply stack_no_deadlock.
Qed.
Lemma stack_run_left ts acts : ∀ k k', sound cfg ts k → Forall (λ act, stack_prompt act = true) acts →
  stack_run cfg acts k = Some k' → (length acts + stack_left k' ≤ stack_left k)%nat.
Proof.
  induction acts as [|act acts IH]; intros k k' Hk Hp; simpl; [by intros [= ->]|].
  destruct (stack_step cfg act k) as [k1|] eqn:E; [|done]. simpl. intros Hr. apply Forall_cons in Hp as [Ha Hp].
  pose proof (stack_step_left k k1 act (proj1 Hk) Ha E).
  pose proof (IH k1 k' (proj1 (sound_step cfg ts k act k1 Hk E)) Hp Hr). lia.
Qed.
Lemma stack_rests ts n : ∀ k, (stack_left k < n)%nat → sound cfg ts k →
  ∃ acts k', Forall (λ act, stack_prompt act = true) acts ∧ stack_run cfg acts k = Some k' ∧ at_rest k'.
Proof.
  induction n as [|n IH]; intros k Hn Hk; [lia|].
  destruct (rest_or_step ts k Hk) as [Hf|(act & Ha & k1 & E)]; [by exists [], k|].
  pose proof (stack_step_left k k1 act (proj1 Hk) Ha E).
  destruct (IH k1) as (acts & k' & Hp & Hrun & Hf); [lia|by eapply sound_step|].
  exists (act :: acts), k'. split; [by constructor|]. split; [|done]. simpl. by rewrite E.
Qed.

(** *** What is reported is settled *)

Definition drained k : Prop := pending k = [] ∧ settling (reporter (own k)) = None.
#[export] Instance drained_decision k : Decision (drained k).
Proof.
  unfold drained. assert (Decision (pending k = [])) by (destruct (pending k); [by left|by right]). apply _.
Defined.
Lemma pending_goes_on ts k : sound cfg ts k → drained k ∨ stack_own_step k.
Proof.
  intros [HL Hr]. destruct (reachable_Settled cfg ts _ Hr) as [_ HS].
  pose proof (sd_reporter _ (reachable_Shutdown cfg ts _ Hr)) as Hdone. cbn [abs over reporter events] in Hdone.
  destruct (decide (drained k)) as [|Hd]; [by left|right]. apply (reporter_goes_on k None). unfold report_step.
  cbn [abs over reporter events]. destruct (reporter (own k)) eqn:Er; try (by eexists).
  - destruct (pending k) as [|[r|e] es] eqn:Ep; [|clear Hd|by eexists].
    { destruct Hd. split; [done|]. by rewrite Er. }
    unfold settle. destruct (rep_Token r) as [i|] eqn:Et; [|by eexists].
    destruct (st_events cfg _ i HS) as [[d Ed] _].
    { cbn [abs over events]. rewrite Ep. unfold event_token, report_token. simpl. rewrite Et. by left. }
    change (deliveries (abs k)) with (deliveries (own k)) in Ed. cbn. rewrite Ed. cbn.
    destruct (Delivery.resolved d); [by eexists|]. destruct (rep_Err r); by eexists.
  - destruct Hd. split; [by apply Hdone|]. by rewrite Er.
Qed.
Lemma stack_drains ts n : ∀ k, (stack_left k < n)%nat → sound cfg ts k →
  ∃ acts k', Forall (λ act, stack_prompt act = true) acts ∧ stack_run cfg acts k = Some k' ∧ drained k'.
Proof.
  induction n as [|n IH]; intros k Hn Hk; [lia|].
  destruct (pending_goes_on ts k Hk) as [Hd|(act & Ha & k1 & E)]; [by exists [], k|].
  pose proof (stack_step_left k k1 act (proj1 Hk) Ha E).
  destruct (IH k1) as (acts & k' & Hp & Hrun & Hf); [lia|by eapply sound_step|].
  exists (act :: acts), k'. split; [by constructor|]. split; [|done]. simpl. by rewrite E.
Qed.

Lemma run_emits acts : ∀ k k', stack_run cfg acts k = Some k' → emitted k `prefix_of` emitted k'.
Proof.
  induction acts as [|act acts IH]; intros k k'; simpl; [by intros [= ->]|].
  destruct (stack_step cfg act k) as [k1|] eqn:E; [|done]. simpl. intros Hr.
  etrans; [by eapply (step_emits cfg)|by apply IH].
Qed.
Lemma reported_settles ts k i r : sound cfg ts k → first_report i (reports_emitted k) = Some r →
  ∃ acts k' d o, stack_run cfg acts k = Some k' ∧ deliveries (own k') !! i = Some d ∧ d_outcome d = Some o.
Proof.
  intros Hk Er. destruct (stack_drains ts (S (stack_left k)) k ltac:(lia) Hk) as (acts & k' & _ & Hrun & Hp & Hs).
  destruct (reachable_Settled cfg ts _ (proj2 (sound_run cfg ts acts k k' Hk Hrun))) as [_ HS].
  destruct (reported_settled cfg (abs k') i r HS Hp Hs) as (d & Ed & Eo); [|by exists acts, k', d, (outcome_of (d_record d) r)].
  destruct (run_emits acts k k' Hrun) as [es He]. cbn [abs over reported]. unfold reports_emitted, translate_events in *.
  rewrite He, !omap_app. by apply first_report_keep.
Qed.
(** A record that is not lost in a [Close] has its outcome once it is reported. *)
Lemma delivery_settles ts k i d : sound cfg ts k → deliveries (own k) !! i = Some d → i ∉ dropped (own k) →
  ∃ acts k' d' o, stack_run cfg acts k = Some k' ∧ deliveries (own k') !! i = Some d' ∧ d_outcome d' = Some o.
Proof.
  intros Hk Ed Hnd. destruct (first_report i (reports_emitted k)) as [r|] eqn:Er; [by eapply reported_settles|].
  destruct (reachable_Settled cfg ts _ (proj2 Hk)) as [_ HS]. pose proof (proj1 (first_report_None _ _) Er) as Hn.
  destruct (d_outcome d) as [o|] eqn:Eo; [by exists [], k, d, o|].
  assert (i ∈ outstanding (own k)) as Hi.
  { destruct (st_account cfg (abs k) HS i d Ed Eo) as [|[|[Hi|Hi]]]; [done..| |].
    - by destruct Hn; apply (pending_reported cfg (abs k) i HS).
    - apply settling_spec in Hi as (o & err & Hr). destruct (st_settling cfg (abs k) HS i o err Hr) as (? & r & _ & _ & Hf & _).
      destruct Hn. apply (received_reported cfg (abs k) i HS). apply dec_stable. intros Hn'%first_report_None. congruence. }
  assert (channel_closed k = false) as Hc.
  { apply not_true_is_false. intros Hc. pose proof (ct_out _ (reachable_Counts cfg ts _ (proj2 Hk)) Hc) as Ho.
    cbn [abs over outstanding] in Ho. rewrite Ho in Hi. by apply elem_of_empty in Hi. }
  destruct (stack_step cfg (SEvent (PMessage (TDelivery i) 0 0 None)) k) as [k1|] eqn:E.
  2:{ cbn [stack_step event_possible] in E. by rewrite Hc, Ed in E. }
  destruct (reported_settles ts k1 i (mkReport (TDelivery i) 0 0 None)) as (acts & k' & d' & o & Hrun & Ed' & Eo').
  - by eapply sound_step.
  - cbn [stack_step event_possible] in E. rewrite Hc, Ed in E. injection E as <-.
    unfold reports_emitted, translate_events in *. cbn [emitted]. rewrite !omap_app, first_report_app, Er. cbn.
    unfold report_token. cbn. by rewrite bool_decide_eq_true_2.
  - exists (SEvent (PMessage (TDelivery i) 0 0 None) :: acts), k', d', o. split; [|done]. cbn [stack_run]. by rewrite E.
Qed.
End progress.

(** C15 (publisher and producer come to rest) Once librdkafka sends no more events
    and the contexts of the [Close] calls have ended, a publisher on its producer
    comes to rest: however the goroutines, the calls under the driver's lock,
    [translate] and the report goroutine are interleaved, they take no more than
    [stack_left] steps; where none of them can step, every send and every [Close]
    has returned, no call is left on the producer, and if there was a [Close] the
    admin client and the producer have each been closed once; and from every state
    there is such an end. *)
Theorem stack_comes_to_rest {D F P : Type} (cfg : config (DeliveryErrorFunc:=D) (FatalFunc:=F) (Factory:=P))
    `{KfkCodes} ts k :
  stack_reachable cfg ts k →
  (∀ acts k', Forall (λ act, stack_prompt act = true) acts → stack_run cfg acts k = Some k' →
     (length acts ≤ stack_left k)%nat ∧
     ((∀ act, stack_prompt act = true → stack_step cfg act k' = None) → at_rest k')) ∧
  ∃ acts k', Forall (λ act, stack_prompt act = true) acts ∧ stack_run cfg acts k = Some k' ∧ at_rest k'.
Proof.
  intros Hk%stack_reaches. split; [|by eapply (stack_rests cfg ts (S (stack_left k))); [lia|]].
  intros acts k' Hp Hrun. pose proof (stack_run_left cfg ts acts k k' Hk Hp Hrun). split; [lia|].
  intros Hstuck. destruct (rest_or_step cfg ts k') as [|(act & Ha & k1 & E)]; [|done|].
  - by eapply sound_run.
  - by rewrite Hstuck in E.
Qed.

(** ** Witness: the send and the [Close] of [Ex_stack], with the record accepted *)
Module Ex_rest.
Import Ex_stack.
#[local] Existing Instance codes_librdkafka.
Lemma ran_sending : ran sending (λ k, bool_decide (outstanding (own k) = {[0%nat]})) = true.
Proof. by vm_compute. Qed.
Lemma stack_comes_to_rest_witness : ∃ k acts k',
  stack_run cfg sending (stack_initial goroutines) = Some k ∧
  stack_run cfg acts k = Some k' ∧ map_Forall (λ _ t, finished t = true) (threads (own k')).
Proof.
  destruct (stack_ran_spec _ _ ran_sending) as (k & E & _).
  destruct (stack_comes_to_rest cfg goroutines k) as [_ (acts & k' & _ & Hrun & Hf & _)].
  { eapply (stack_run_reachable cfg); [apply sreach_initial, pair_fresh|exact E]. }
  exists k, acts, k'. split; [exact E|]. split; [exact Hrun|exact Hf].
Defined.
End Ex_rest.
