(* ===== verification/PubNew.v ===== *)
(** * Making and pinging a publisher

    [New] of internal/publish/publishdriver/producer.go, and [New] and [Ping] of
    publish/publisher.go. *)
From S2P Require Import Prelude GoStrings GoErrors GoTime GoAny Kfk PubDriver PubOptions Delivery Writer.
From S2P Require Import Publisher.

Definition defaultPingTimeout : Z := 5 * Second.

(** ** The producer *)

(** confluent-kafka-go's constructors, and [Close] of the producer just made. *)
Class KfkProducer (W : Type) `{KfkConfig} := {
  kfk_NewProducer : ConfigMap → W → option goerr * W;
  kfk_NewAdminClientFromProducer : W → option goerr * W;
  kfk_CloseProducer : W → W;
}.

Section producer.
Context {W : Type} `{KfkConfig} `{!KfkProducer W} `{GoRange}.
(** [go created.translate]. *)
Context (translating : W → W).

(** [publishdriver.New]. *)
Definition producer_New (config : ProducerConfig) (w : W) : option goerr * W :=
  match producer_ConfigMap config with
  | inr err => (Some err, w)
  | inl configMap =>
      let '(err, w) := kfk_NewProducer configMap w in
      match err with
      | Some err => (Some (wrapf "creating kafka producer" err), w)
      | None =>
          let '(err, w) := kfk_NewAdminClientFromProducer w in
          match err with
          | Some err => (Some (wrapf "creating the metadata client" err), kfk_CloseProducer w)
          | None => (None, translating w)
          end
      end
  end.
End producer.

(** ** The publisher *)

Section new.
Context {W D F : Type} `{GoRange} `{FloatOverflow} `{FmtFloat}.
(** What builds the producer: the client it makes is part of the world. *)
Abbreviation Factory := (ProducerConfig → W → option goerr * W).
Abbreviation config_ := (config (DeliveryErrorFunc:=D) (FatalFunc:=F) (Factory:=Factory)).
Context (driver_New : Factory).
(** The new [Publisher] and [go publisher.readReports]. *)
Context (start : config_ → W → W).

(** [publish.New]. *)
Definition New (options : list (option Option_)) : ST W (option goerr) := λ w,
  match build driver_New options with
  | inr err => (Some err, w)
  | inl built =>
      let '(err, w) := newProducer built (driverConfig built) w in
      match err with
      | Some err => (Some (wrapf "publish: creating the producer" err), w)
      | None => (None, start built w)
      end
  end.
End new.

(** ** Nothing is leaked *)

(** Without [WithProducerFactory] the producer is made by the default. *)
Definition no_factory {D F P} (o : option (Option_ (DeliveryErrorFunc:=D) (FatalFunc:=F) (Factory:=P))) : bool :=
  match o with Some (OptProducerFactory _) => false | _ => true end.

Section factory.
Context {D F P : Type} `{GoRange} `{FloatOverflow} `{FmtFloat}.
Implicit Types (c : config (DeliveryErrorFunc:=D) (FatalFunc:=F) (Factory:=P)).

Lemma apply_option_factory o c c' : apply_option o c = inl c' →
  newProducer c' = newProducer c ∨ o = OptProducerFactory (Some (newProducer c')).
Proof.
  destruct o as [[|b bs]|[m|]| | |p|t| |[d|]|[f|]|[p|]]; unfold_pub_option; repeat case_match;
    intros [= <-]; by auto.
Qed.
Lemma apply_options_factory options : ∀ c c', apply_options options c = inl c' →
  newProducer c' = newProducer c ∨ Some (OptProducerFactory (Some (newProducer c'))) ∈ options.
Proof.
  induction options as [|[o|] options IH]; intros c c'; cbn [apply_options]; [intros [= <-]; by left| |done].
  destruct (apply_option o c) as [c1|] eqn:E; [|done]. intros Hc.
  destruct (IH _ _ Hc) as [->|Hin]; [|right; by right].
  destruct (apply_option_factory _ _ _ E) as [Ef|Eo]; [by left|right]. rewrite Eo. by left.
Qed.
Lemma build_factory (driver_New : P) options c : build driver_New options = inl c →
  newProducer c = driver_New ∨ Some (OptProducerFactory (Some (newProducer c))) ∈ options.
Proof.
  unfold build. destruct (apply_options options _) as [c'|] eqn:E; [|done].
  destruct (validate c'); [done|]. intros [= <-]. by destruct (apply_options_factory _ _ _ E); [left|right].
Qed.
End factory.

(** The clients alive in a world, as the constructors and [Close] document it. *)
Class KfkProducerLaws {W} `{KfkConfig} `{!KfkProducer W} (alive : W → nat) : Prop := {
  law_NewProducer m w :
    alive (kfk_NewProducer m w).2 =
      match (kfk_NewProducer m w).1 with None => S (alive w) | Some _ => alive w end;
  law_NewAdminClient w : alive (kfk_NewAdminClientFromProducer w).2 = alive w;
  law_CloseProducer w : alive (kfk_CloseProducer w) = pred (alive w);
}.

Lemma producer_New_alive {W} `{KfkConfig} `{!KfkProducer W} `{GoRange} (alive : W → nat)
    `{!KfkProducerLaws alive} (translating : W → W) config w :
  (∀ w, alive (translating w) = alive w) →
  match producer_New translating config w with
  | (None, w') => alive w' = S (alive w) ∧
      ∃ m, producer_ConfigMap config = inl m ∧ (kfk_NewProducer m w).1 = None
  | (Some _, w') => alive w' = alive w
  end.
Proof.
  intros Ht. unfold producer_New. destruct (producer_ConfigMap config) as [m|err]; [|done].
  pose proof (law_NewProducer m w) as Hn.
  destruct (kfk_NewProducer m w) as [[err|] w1] eqn:En; cbn [fst snd] in Hn; [done|].
  pose proof (law_NewAdminClient w1) as Ha.
  destruct (kfk_NewAdminClientFromProducer w1) as [[err|] w2]; cbn [snd] in Ha.
  - by rewrite law_CloseProducer, Ha, Hn.
  - rewrite Ht, Ha, Hn. split; [done|]. exists m. by rewrite En.
Qed.

(** C27 (no leak) [publish.New] makes one client or none: if it returns an error,
    whether from an option, the configuration, librdkafka or the metadata client,
    no client it made is left alive, and if it returns nil exactly one is, built
    from the configuration the options describe.  An error of the driver is kept
    for [errors.Is]. *)
Theorem New_no_leak {W D F} `{KfkConfig} `{!KfkProducer W} `{GoRange} `{FloatOverflow} `{FmtFloat}
    (alive : W → nat) `{!KfkProducerLaws alive} (translating : W → W)
    (start : config (DeliveryErrorFunc:=D) (FatalFunc:=F) (Factory:=ProducerConfig → W → option goerr * W) → W → W)
    (options : list (option Option_)) (w : W) :
  (∀ w, alive (translating w) = alive w) → (∀ c w, alive (start c w) = alive w) →
  forallb no_factory options = true →
  match New (producer_New translating) start options w with
  | (None, w') => alive w' = S (alive w) ∧
      ∃ built m, build (producer_New translating) options = inl built ∧
        producer_ConfigMap (driverConfig built) = inl m ∧ (kfk_NewProducer m w).1 = None
  | (Some err, w') => alive w' = alive w ∧
      ∀ built e, build (producer_New translating) options = inl built →
        (producer_New translating (driverConfig built) w).1 = Some e →
        ∀ target, errors_Is (Some err) target = errors_Is (Some e) target
  end.
Proof.
  intros Ht Hs Hno. unfold New. destruct (build _ options) as [built|err] eqn:Eb; [|split; [done|intros b e Hb; congruence]].
  assert (newProducer built = producer_New translating) as Ef.
  { destruct (build_factory _ _ _ Eb) as [?|Hin]; [done|]. rewrite forallb_forall in Hno.
    apply list_elem_of_In in Hin. discriminate (Hno _ Hin). }
  rewrite Ef. pose proof (producer_New_alive alive translating (driverConfig built) w Ht) as Hp.
  destruct (producer_New translating (driverConfig built) w) as [[e|] w1] eqn:Er.
  - split; [done|]. intros b e' [= <-] He target. rewrite Er in He. injection He as <-.
    unfold wrapf. rewrite errors_Is_errorf. simpl. by rewrite orb_false_r.
  - rewrite Hs. destruct Hp as (Hp & m & Hm). split; [done|]. by exists built, m.
Qed.

(** ** Ping *)

(** The bound topics that are not in the answer, quoted. *)
Definition missing (topics : list string) (partitions : gmap string Z) : list string :=
  omap (λ topic, match partitions !! topic with Some _ => None | None => Some (Quote topic) end) topics.

(** [Ping].  [deadline] is how long the context has left, if it has a deadline;
    [query] is the producer's [TopicPartitions] within a time. *)
Definition Ping (s : pub) (topics : list string) (deadline : option Z)
    (query : Z → list string → gmap string Z + goerr) : option goerr :=
  match Err s with
  | Some err => Some (wrapf "publish: ping" err)
  | None =>
      match query (default defaultPingTimeout deadline) topics with
      | inr err => Some (wrapf "publish: ping" err)
      | inl partitions =>
          match missing topics partitions with
          | [] => None
          | names => Some (EErrorf (error_text ErrTopicNotFound +:+ ": " +:+ Join names ", ") [ErrTopicNotFound])
          end
      end
  end.

(** The topics of a publisher: what a sequence of [Bind]s leaves. *)
Inductive bound : list string → Prop :=
  | bound_none : bound []
  | bound_bind {K V} (t : Topic K V) topics w topics' :
      bound topics → Bind t topics = inl (w, topics') → bound topics'.

Lemma Bind_topics {K V} (t : Topic K V) topics w topics' : Bind t topics = inl (w, topics') →
  topics' = if existsb (String.eqb (Name t)) topics then topics else topics ++ [Name t].
Proof.
  unfold Bind. destruct (topic_validate t); [done|].
  destruct (EncodeKey t), (EncodeValue t); try done. by intros [= _ <-].
Qed.
Lemma existsb_name name topics : existsb (String.eqb name) topics = true ↔ name ∈ topics.
Proof.
  rewrite existsb_exists, list_elem_of_In. split.
  - by intros (x & Hx & ->%String.eqb_eq).
  - intros Hx. exists name. by rewrite String.eqb_refl.
Qed.
Lemma bound_NoDup topics : bound topics → NoDup topics.
Proof.
  induction 1 as [|K V t topics w topics' _ IH Hb]; [constructor|].
  apply Bind_topics in Hb as ->. destruct (existsb _ _) eqn:E; [done|].
  apply NoDup_app. split_and!; [done| |apply NoDup_singleton].
  intros x Hx ->%list_elem_of_singleton. apply not_true_iff_false in E. by apply E, existsb_name.
Qed.
Lemma missing_nil topics partitions :
  missing topics partitions = [] ↔ ∀ t, t ∈ topics → is_Some (partitions !! t).
Proof.
  induction topics as [|t topics IH]; cbn [missing omap list_omap].
  - split; [by intros _ t []%elem_of_nil|done].
  - fold (missing topics partitions). destruct (partitions !! t) as [n|] eqn:E.
    + rewrite IH. split; [intros Hm t' [->|Ht']%elem_of_cons; eauto|intros Hm t' Ht'; apply Hm; by right].
    + split; [done|]. intros Hm. specialize (Hm t ltac:(by left)). rewrite E in Hm. by destruct Hm.
Qed.

(** What [DescribeTopics] says of a topic that exists. *)
Definition described `{KfkCodes} (ds : list topic_description) (name : string) : Prop :=
  ∃ partitions fatal text, (name, partitions, (ErrNoError, fatal, text)) ∈ ds.

Section described.
Context `{KfkCodes}.
Lemma described_ok (ds : list topic_description) (topics : list string) :
  NoDup topics → ds.*1.*1 = topics → (∀ name, name ∈ topics → described ds name) →
  forallb description_ok ds = true.
Proof.
  intros Hnd <- Hall. apply forallb_forall. intros [[name n] [[code fatal] text]] Hin.
  apply list_elem_of_In in Hin.
  assert (name ∈ ds.*1.*1) as Hname.
  { apply list_elem_of_fmap. exists (name, n). split; [done|]. apply list_elem_of_fmap.
    by exists (name, n, (code, fatal, text)). }
  destruct (Hall _ Hname) as (n' & fatal' & text' & Hin').
  apply list_elem_of_lookup_1 in Hin as [i Hi]. apply list_elem_of_lookup_1 in Hin' as [j Hj].
  assert (i = j) as ->.
  { eapply (NoDup_lookup _ i j name Hnd); by rewrite !list_lookup_fmap, ?Hi, ?Hj. }
  rewrite Hi in Hj. simplify_eq. unfold description_ok. cbn. by rewrite Z.eqb_refl.
Qed.
(** The answer to a question about topics holds exactly those described. *)
Lemma TopicPartitions_described topics cluster ds :
  topics ≠ [] → NoDup topics → ds.*1.*1 = topics →
  match TopicPartitions false topics cluster (inl ds) with
  | inl found => forallb description_ok ds = true ∧ ∀ name, is_Some (found !! name) ↔ described ds name
  | inr _ => forallb description_ok ds = false
  end.
Proof.
  intros Hne Hnd Heq. pose proof (TopicPartitions_answer topics cluster ds Hne ltac:(by rewrite Heq)) as Ha.
  destruct (TopicPartitions _ _ _ _) as [found|]; [|done]. destruct Ha as [Hok Ha]. split; [done|].
  intros name. unfold described. split.
  - intros [n (k & fatal & text & Hin & _)%Ha]. by exists k, fatal, text.
  - intros (k & fatal & text & Hin). exists (Z.of_nat k). apply Ha. by exists k, fatal, text.
Qed.
End described.

(** C33 (Ping) [Ping] returns nil exactly when no fatal error was recorded, the
    producer is open and, within the context's deadline or five seconds, a broker
    answered and described every topic bound so far.  After a fatal error it
    returns that error and asks nobody; a bound topic that does not exist is
    ErrTopicNotFound.  [DescribeTopics] describes the topics it is asked for, each
    once. *)
Theorem Ping_ready `{KfkCodes} s topics deadline closed cluster
    (describe : Z → list string → list topic_description + goerr) :
  bound topics →
  (∀ t ds, describe t topics = inl ds → ds.*1.*1 = topics) →
  let timeout := default defaultPingTimeout deadline in
  let answer := Ping s topics deadline
    (λ t topics, TopicPartitions closed topics (cluster t) (describe t topics)) in
  (answer = None ↔
     Err s = None ∧ closed = false ∧
     match topics with
     | [] => cluster timeout = None
     | _ => ∃ ds, describe timeout topics = inl ds ∧ ∀ name, name ∈ topics → described ds name
     end) ∧
  (∀ err target, Err s = Some err → errors_Is answer target = errors_Is (Some err) target) ∧
  (∀ ds, Err s = None → closed = false → topics ≠ [] → describe timeout topics = inl ds →
     forallb description_ok ds = true → (∃ name, name ∈ topics ∧ ¬ described ds name) →
     errors_Is answer ErrTopicNotFound = true).
Proof.
  intros Hb Hd timeout answer. subst answer. unfold Ping. destruct (Err s) as [e|] eqn:Ee.
  { split_and!; [by split; [|intros [? _]]| |done].
    intros err target [= <-]. unfold wrapf. rewrite errors_Is_errorf. simpl. by rewrite orb_false_r. }
  fold timeout. split; [|split; [done|]].
  - destruct closed; [by split; [|intros (_ & ? & _)]|].
    destruct topics as [|t0 ts].
    { cbn. destruct (cluster timeout); [by split; [|intros (_ & _ & ?)]|done]. }
    set (topics := t0 :: ts) in *. assert (topics ≠ []) as Hne by done.
    destruct (describe timeout topics) as [ds|err] eqn:Ed.
    + pose proof (TopicPartitions_described _ (cluster timeout) ds Hne (bound_NoDup _ Hb) (Hd _ _ Ed)) as Ha.
      destruct (TopicPartitions _ _ _ _) as [found|err].
      * destruct Ha as [_ Ha]. transitivity (missing topics found = []).
        { by destruct (missing topics found). }
        rewrite missing_nil. setoid_rewrite Ha. split; [intros ?; eauto|].
        by intros (_ & _ & ds' & [= <-] & ?).
      * split; [done|]. intros (_ & _ & ds' & [= <-] & Hall).
        rewrite (described_ok ds topics) in Ha; try done; [by apply bound_NoDup|by eapply Hd].
    + subst topics. cbn. split; [done|]. by intros (_ & _ & ds' & ? & _).
  - intros ds _ -> Hne Ed Hok (name & Hin & Hno). rewrite Ed.
    pose proof (TopicPartitions_described topics (cluster timeout) ds Hne (bound_NoDup _ Hb) (Hd _ _ Ed)) as Ha.
    destruct (TopicPartitions _ _ _ _) as [found|err]; [|congruence]. destruct Ha as [_ Ha].
    destruct (missing topics found) as [|x xs] eqn:Em; [|done].
    rewrite missing_nil in Em. by destruct Hno; apply Ha, Em.
Qed.

(** ** Witness *)
Module Ex_ping.
#[local] Existing Instance codes_librdkafka.
Definition orders : Topic bytes bytes := mkTopic "orders" (Some BytesKey) (Some RawValue) [].
Definition absent : Topic bytes bytes := mkTopic "absent" (Some BytesKey) (Some RawValue) [].
Definition topics : list string := ["orders"; "absent"].
Definition describe (_ : Z) (topics : list string) : list topic_description + goerr :=
  inl (map (λ t, (t, 3%nat, (if String.eqb t "orders" then 0 else 3, false, EmptyString))) topics).
Lemma bound_topics : bound topics.
Proof.
  eapply (bound_bind absent ["orders"]); [|reflexivity].
  eapply (bound_bind orders []); [|reflexivity]. apply bound_none.
Qed.
Lemma Ping_ready_witness :
  errors_Is (Ping (initial ∅) topics None (λ t topics, TopicPartitions false topics None (describe t topics)))
    ErrTopicNotFound = true.
Proof.
  apply (proj2 (proj2 (@Ping_ready codes_librdkafka (initial ∅) topics None false (λ _, None) describe
    bound_topics ltac:(by intros t ds [= <-]))) _ eq_refl eq_refl ltac:(done) eq_refl eq_refl).
  exists "absent". split; [by right; left|].
  intros (n & fatal & text & [[= ]|[[= ]|[]%elem_of_nil]%elem_of_cons]%elem_of_cons).
Defined.
End Ex_ping.
Module Ex_new.
#[local] Existing Instance range_canonical.
#[local] Existing Instance Ex_config.config.
#[local] Instance overflow : FloatOverflow := float_overflow_amd64.
#[local] Instance fmt : FmtFloat := λ _, "x".
(** A library whose metadata client cannot be made; the world counts the clients. *)
#[local] Instance broken : KfkProducer nat :=
  {| kfk_NewProducer := λ _ n, (None, S n);
     kfk_NewAdminClientFromProducer := λ n, (Some (errors_New "no metadata client"), n);
     kfk_CloseProducer := pred |}.
#[local] Instance laws : KfkProducerLaws id.
Proof. constructor; done. Defined.
Abbreviation options := [Some (OptBrokers (DeliveryErrorFunc:=unit) (FatalFunc:=unit)
  (Factory:=ProducerConfig → nat → option goerr * nat) ["kafka:9092"])].
Lemma New_no_leak_witness :
  ∃ err, New (producer_New id) (λ _ n, n) options 4%nat = (Some err, 4%nat).
Proof.
  pose proof (New_no_leak id id (λ _ n, n) options 4%nat (λ _, eq_refl) (λ _ _, eq_refl) eq_refl) as Hn.
  destruct (New (producer_New id) (λ _ n, n) options 4%nat) as [[err|] w] eqn:E.
  - exists err. destruct Hn as [Hn _]. change (w = 4%nat) in Hn. by rewrite Hn.
  - exfalso. vm_compute in E. discriminate E.
Defined.
End Ex_new.
