(* ===== verification/Retry.v ===== *)
(** * The retry strategy (internal/subscribe/strategy/retry.go)

    A message whose handling failed is written to the retry topic, with its
    attempt count and the time it is due in headers, or to the dead-letter topic.

    [W] holds the publisher the strategy has made, with its client and broker, the
    clock, the log and the application's callbacks; a strategy is a [RetryState]
    next to it. *)
From S2P Require Import Prelude GoStrings GoErrors GoTime LogCode GoAny GoMath Types Headers ConsumerApi.
From S2P Require Import Kfk PubDriver PubOptions PublisherConfig Delivery Writer PubNew.
From Corelib Require Import SpecFloat.

Definition closeTimeout : Z := 10 * Second.

Definition ErrStrategyInUse : goerr :=
  ENew "strategy.ErrStrategyInUse"
    "retry strategy is already in use by another consumer; give each consumer its own NewRetryStrategy".

(** The fields of [RetryStrategy] that change: whether [publisher] is set, and
    with it the two writers, [inUse] and [logger]. *)
Record RetryState : Type := mkRetryState { publisher : bool; inUse : bool; logger : Logger }.
(** As [NewRetryStrategy] leaves it. *)
Definition unused : RetryState := mkRetryState false false Nop.

(** What the strategy calls on its publisher, and the rest of the world.  [D] is
    the application's delivery error callback, [Del] a [*Delivery]. *)
Record RetryEnv (W Del D : Type) : Type := {
  (** [publishdriver.New], and [publish.New]'s report goroutine *)
  re_driver_New : ProducerConfig → W → option goerr * W;
  re_start : config (DeliveryErrorFunc:=D) (FatalFunc:=unit)
                    (Factory:=ProducerConfig → W → option goerr * W) → W → W;
  (** [Publisher.enqueue], [Delivery.Wait] under a context that does not end, and
      [Publisher.Close] with a timeout *)
  re_enqueue : Record_ → W → (Del + goerr) * W;
  re_Wait : Del → W → outcome * W;
  re_Close : Z → W → option goerr * W;
  re_now : W → Time * W;
  re_log : log_line → W → W;
}.
Arguments re_driver_New {W Del D}. Arguments re_start {W Del D}. Arguments re_enqueue {W Del D}.
Arguments re_Wait {W Del D}. Arguments re_Close {W Del D}. Arguments re_now {W Del D}.
Arguments re_log {W Del D}.

(** ** Configuration *)

Section config.
Context {W D : Type}.

(** [BackoffFunc]: application code. *)
Definition BackoffFunc : Type := Z → W → Z * W.
Definition ProducerFactory : Type := ProducerConfig → W → option goerr * W.

(** [RetryConfig].  A nil function is [None]. *)
Record RetryConfig : Type := mkRetryConfig {
  RetryTopic : string;
  DLQTopic : string;
  MaxAttempts : Z;
  InitialDelay : Z;
  MaxDelay : Z;
  Multiplier : spec_float;
  CustomBackoff : option BackoffFunc;
  OnDeliveryError : option D;
  rc_newProducer : option ProducerFactory;
}.

Inductive RetryOption : Type :=
  | OptRetryTopic (topic : string)
  | OptDLQTopic (topic : string)
  | OptMaxAttempts (attempts : Z)
  | OptInitialDelay (delay : Z)
  | OptMaxDelay (delay : Z)
  | OptBackoffMultiplier (multiplier : spec_float)
  | OptCustomBackoff (fn : option BackoffFunc)
  | OptRetryDeliveryErrorFunc (fn : option D)
  | OptRetryProducerFactory (factory : option ProducerFactory).

Definition RetryOptionFunc : Type := RetryConfig → RetryConfig + goerr.
Definition refuse (text : string) : RetryConfig + goerr := inr (errors_New text).

Definition WithRetryTopic (topic : string) : RetryOptionFunc := λ c,
  if String.eqb topic EmptyString then refuse "retry topic cannot be empty"
  else inl (mkRetryConfig topic (DLQTopic c) (MaxAttempts c) (InitialDelay c) (MaxDelay c)
              (Multiplier c) (CustomBackoff c) (OnDeliveryError c) (rc_newProducer c)).
Definition WithDLQTopic (topic : string) : RetryOptionFunc := λ c,
  if String.eqb topic EmptyString then refuse "DLQ topic cannot be empty"
  else inl (mkRetryConfig (RetryTopic c) topic (MaxAttempts c) (InitialDelay c) (MaxDelay c)
              (Multiplier c) (CustomBackoff c) (OnDeliveryError c) (rc_newProducer c)).
Definition WithMaxAttempts (attempts : Z) : RetryOptionFunc := λ c,
  if attempts <=? 0 then refuse "max attempts must be positive"
  else inl (mkRetryConfig (RetryTopic c) (DLQTopic c) attempts (InitialDelay c) (MaxDelay c)
              (Multiplier c) (CustomBackoff c) (OnDeliveryError c) (rc_newProducer c)).
Definition WithInitialDelay (delay : Z) : RetryOptionFunc := λ c,
  if delay <=? 0 then refuse "initial delay must be positive"
  else inl (mkRetryConfig (RetryTopic c) (DLQTopic c) (MaxAttempts c) delay (MaxDelay c)
              (Multiplier c) (CustomBackoff c) (OnDeliveryError c) (rc_newProducer c)).
Definition WithMaxDelay (delay : Z) : RetryOptionFunc := λ c,
  if delay <=? 0 then refuse "max delay must be positive"
  else inl (mkRetryConfig (RetryTopic c) (DLQTopic c) (MaxAttempts c) (InitialDelay c) delay
              (Multiplier c) (CustomBackoff c) (OnDeliveryError c) (rc_newProducer c)).
(** The comparison is Go's: it is false for NaN. *)
Definition WithBackoffMultiplier (multiplier : spec_float) : RetryOptionFunc := λ c,
  if float_ltb multiplier float_one then refuse "backoff multiplier must be >= 1.0"
  else inl (mkRetryConfig (RetryTopic c) (DLQTopic c) (MaxAttempts c) (InitialDelay c) (MaxDelay c)
              multiplier (CustomBackoff c) (OnDeliveryError c) (rc_newProducer c)).
Definition WithCustomBackoff (fn : option BackoffFunc) : RetryOptionFunc := λ c,
  match fn with
  | None => refuse "custom backoff function cannot be nil"
  | Some _ => inl (mkRetryConfig (RetryTopic c) (DLQTopic c) (MaxAttempts c) (InitialDelay c)
                     (MaxDelay c) (Multiplier c) fn (OnDeliveryError c) (rc_newProducer c))
  end.
Definition WithDeliveryErrorFunc (fn : option D) : RetryOptionFunc := λ c,
  match fn with
  | None => refuse "delivery error function cannot be nil"
  | Some _ => inl (mkRetryConfig (RetryTopic c) (DLQTopic c) (MaxAttempts c) (InitialDelay c)
                     (MaxDelay c) (Multiplier c) (CustomBackoff c) fn (rc_newProducer c))
  end.
Definition WithProducerFactory (factory : option ProducerFactory) : RetryOptionFunc := λ c,
  match factory with
  | None => refuse "producer factory cannot be nil"
  | Some _ => inl (mkRetryConfig (RetryTopic c) (DLQTopic c) (MaxAttempts c) (InitialDelay c)
                     (MaxDelay c) (Multiplier c) (CustomBackoff c) (OnDeliveryError c) factory)
  end.
Definition apply_retry_option (o : RetryOption) : RetryOptionFunc :=
  match o with
  | OptRetryTopic topic => WithRetryTopic topic
  | OptDLQTopic topic => WithDLQTopic topic
  | OptMaxAttempts attempts => WithMaxAttempts attempts
  | OptInitialDelay delay => WithInitialDelay delay
  | OptMaxDelay delay => WithMaxDelay delay
  | OptBackoffMultiplier multiplier => WithBackoffMultiplier multiplier
  | OptCustomBackoff fn => WithCustomBackoff fn
  | OptRetryDeliveryErrorFunc fn => WithDeliveryErrorFunc fn
  | OptRetryProducerFactory factory => WithProducerFactory factory
  end.

(** The defaults. *)
Definition defaultRetryConfig : RetryConfig :=
  mkRetryConfig EmptyString EmptyString 3 (1 * Second) (30 * Second) (float_of_Z 2) None None None.

Fixpoint apply_retry_options (opts : list RetryOption) (cfg : RetryConfig) : RetryConfig + goerr :=
  match opts with
  | [] => inl cfg
  | opt :: opts =>
      match apply_retry_option opt cfg with
      | inl cfg => apply_retry_options opts cfg
      | inr err => inr (wrapf "invalid retry option" err)
      end
  end.
(** [NewRetryStrategy]: the configuration of the strategy, which is [unused]. *)
Definition NewRetryStrategy (opts : list RetryOption) : RetryConfig + goerr :=
  match apply_retry_options opts defaultRetryConfig with
  | inr err => inr err
  | inl cfg =>
      if String.eqb (RetryTopic cfg) EmptyString then
        refuse "retry topic is required (use WithRetryTopic)"
      else if String.eqb (DLQTopic cfg) EmptyString then
        refuse "DLQ topic is required (use WithDLQTopic)"
      else inl cfg
  end.
End config.
Arguments RetryConfig : clear implicits.
Arguments RetryOption : clear implicits.

(** ** Records *)

(** [sortedHeaders]. *)
Definition sortedHeaders `{GoRange} (headers : gmap string string) : list Header :=
  map (λ key, mkHeader key (Some (default EmptyString (headers !! key)))) (sorted_keys headers).

(** [publisher.Bind] of a topic that is named, with [BytesKey] and [RawValue]; the
    topics of a strategy are named ([new_strategy]). *)
Definition topic_writer (name : string) : Writer bytes bytes := mkWriter name BytesKey RawValue [].
Lemma Bind_topic_writer name topics : name ≠ EmptyString →
  ∃ topics', Bind (mkTopic name (Some BytesKey) (Some RawValue) []) topics = inl (topic_writer name, topics').
Proof.
  intros Hn. unfold Bind, topic_validate. cbn. destruct (String.eqb_spec name EmptyString); [done|]. eauto.
Qed.

(** ** The strategy *)

Section strategy.
Context {W Del D : Type} `{GoRange} `{FloatOverflow} `{FmtFloat}.
Context (env : RetryEnv W Del D) (cfg : RetryConfig W D).

Definition log (l : level) (c : option logcode) : ST W unit := modify (re_log env (LogLine l c)).

(** *** Writing *)

(** [send]. *)
Definition send (writer : Writer bytes bytes) (msg : Message) (headers : gmap string string) :
    ST W (Del + goerr) :=
  let recordHeaders := sortedHeaders headers in
  match msg_Payload msg with
  | None => SendDelete (re_enqueue env) writer (msg_Key msg) recordHeaders
  | Some _ => Send (re_enqueue env) writer (msg_Key msg) (msg_Payload msg) recordHeaders
  end.

Definition computeBackoff (attempt : Z) : ST W Z :=
  match CustomBackoff cfg with
  | Some fn => fn attempt
  | None =>
      let delay := float_mul (float_of_Z (InitialDelay cfg))
                     (Pow (Multiplier cfg) (float_of_Z (wrap64 (attempt - 1)))) in
      mret (if float_geb delay (float_of_Z (MaxDelay cfg)) then MaxDelay cfg
            else float_to_int64 delay)
  end.

Definition sendToRetryQueue (msg : Message) (f : Failure) (attempt : Z) : ST W (Del + goerr) :=
  delay ← computeBackoff attempt;
  now ← re_now env;
  let retryTime := Add now delay in
  failed ← re_now env;
  send (topic_writer (RetryTopic cfg)) msg (BuildRetryHeaders failed msg attempt retryTime f).

Definition sendToDLQ (msg : Message) (f : Failure) (attempt : Z) : ST W (Del + goerr) :=
  failed ← re_now env;
  send (topic_writer (DLQTopic cfg)) msg (BuildDLQHeaders failed msg attempt f).

(** [write]. *)
Record write : Type := mkWrite {
  wt_delivery : Del; wt_msg : Message; wt_attempt : Z; wt_toDLQ : bool;
}.

(** [GetRetryAttempt(msg)], incremented for this failure. *)
Definition next_attempt (msg : Message) : Z := wrap64 (GetRetryAttempt (Some msg) + 1).
(** Whether a message goes to the DLQ. *)
Definition to_DLQ (permanent : bool) (attempt : Z) : bool := permanent || (MaxAttempts cfg <=? attempt).

(** One message of [HandleError]'s loop. *)
Definition write_message (f : Failure) (msg : Message) : ST W (write + goerr) :=
  let permanent := errors_Is (f_Err f) ErrPermanent in
  let attempt := next_attempt msg in
  log Warn_ None ;;
  if to_DLQ permanent attempt then
    log Error_ (Some (if permanent then DLQPermanent else DLQMaxAttempts)) ;;
    sent ← sendToDLQ msg f attempt;
    match sent with
    | inr err => log Error_ (Some DLQWriteFailed) ;; mret (inr (wrapf "DLQ write failed" err))
    | inl delivery => mret (inl (mkWrite delivery msg attempt true))
    end
  else
    sent ← sendToRetryQueue msg f attempt;
    match sent with
    | inr err => log Error_ (Some RetryWriteFailed) ;; mret (inr (wrapf "retry queue write failed" err))
    | inl delivery => mret (inl (mkWrite delivery msg attempt false))
    end.
Fixpoint write_messages (f : Failure) (msgs : list Message) : ST W (list write + goerr) :=
  match msgs with
  | [] => mret (inl [])
  | msg :: msgs =>
      r ← write_message f msg;
      match r with
      | inr err => mret (inr err)
      | inl written =>
          rs ← write_messages f msgs;
          match rs with inr err => mret (inr err) | inl writes => mret (inl (written :: writes)) end
      end
  end.

(** *** Waiting *)

(** The failures [awaitWrites] collects. *)
Fixpoint await_failures (writes : list write) : ST W (list (option goerr)) :=
  match writes with
  | [] => mret []
  | written :: writes =>
      o ← re_Wait env (wt_delivery written);
      match o.2 with
      | Some err =>
          log Error_ (Some (if wt_toDLQ written then DLQWriteFailed else RetryWriteFailed)) ;;
          failures ← await_failures writes; mret (Some err :: failures)
      | None => log Info_ None ;; await_failures writes
      end
  end.
Definition awaitWrites (writes : list write) : ST W (option goerr) :=
  failures ← await_failures writes;
  mret (wrapf "retry or DLQ write not acknowledged" <$> errors_Join failures).

(** [HandleError], once the strategy is initialized. *)
Definition handle_messages (msgs : list Message) (f : Failure) : ST W (option goerr) :=
  rs ← write_messages f msgs;
  match rs with inr err => mret (Some err) | inl writes => awaitWrites writes end.

(** *** As an [ErrorStrategy] *)

Abbreviation RW := (RetryState * W)%type.

Definition retry_HandleError (msgs : list Message) (f : Failure) : ST RW (option goerr) := λ s,
  let '(r, w) := s in
  if negb (publisher r) then
    (Some (errors_New "retry strategy not initialized; call Initialize() first"), (r, w))
  else let '(err, w) := handle_messages msgs f w in (err, (r, w)).

(** The options of the publisher. *)
Definition publisher_options (config : InitConfig) :
    list (option (Option_ (DeliveryErrorFunc:=D) (FatalFunc:=unit) (Factory:=ProducerFactory))) :=
  [Some (OptBrokers (ic_Brokers config));
   Some (OptKafkaConfig (Some (PublisherConfig (Some (ic_KafkaConfig config)))));
   Some OptLogger] ++
  match OnDeliveryError cfg with Some fn => [Some (OptDeliveryErrorFunc (Some fn))] | None => [] end ++
  match rc_newProducer cfg with Some factory => [Some (OptProducerFactory (Some factory))] | None => [] end.

Definition Initialize (config : InitConfig) : ST RW (option goerr) := λ s,
  let '(r, w) := s in
  if inUse r then (Some ErrStrategyInUse, (r, w))
  else
    let '(err, w) := New (re_driver_New env) (re_start env) (publisher_options config) w in
    match err with
    | Some err =>
        (Some (wrapf "failed to create the retry/DLQ publisher" err), (mkRetryState (publisher r) false (ic_Logger config), w))
    | None => (None, (mkRetryState true true (ic_Logger config), re_log env (LogLine Info_ None) w))
    end.

Definition Close : ST RW (option goerr) := λ s,
  let '(r, w) := s in
  let '(err, w) := if publisher r then re_Close env closeTimeout w else (None, w) in
  (err, (mkRetryState (publisher r) false (logger r), w)).

Definition SetLogger (l : Logger) : ST RW unit := λ s,
  (tt, (mkRetryState (publisher s.1) (inUse s.1) l, s.2)).

Definition RetryStrategy : ErrorStrategy RW :=
  {| es_Name := "retry"; es_HandleError := retry_HandleError;
     es_Initializable := Some (Initialize, Close); es_LoggerAware := Some (λ l, snd ∘ SetLogger l) |}.
End strategy.

(** ** What is written *)

(** The publisher as the strategy relies on it: [sent w] is the records it has
    accepted, each with its delivery, and [acked w d] that the broker has
    acknowledged the record of [d].  A [Wait] that ends in nil says so; nothing
    else accepts a record or takes an acknowledgement back. *)
Class PublisherLaws {W Del D} (env : RetryEnv W Del D) (cfg : RetryConfig W D)
    (sent : W → list (Del * Record_)) (acked : W → Del → Prop) : Prop := {
  pl_enqueue r w : ∀ x w', re_enqueue env r w = (x, w') →
    sent w' = sent w ++ match x with inl d => [(d, r)] | inr _ => [] end ∧
    ∀ d, acked w d → acked w' d;
  pl_Wait d w : ∀ o w', re_Wait env d w = (o, w') →
    sent w' = sent w ∧ (∀ d, acked w d → acked w' d) ∧ (o.2 = None → acked w' d);
  pl_now w : sent (re_now env w).2 = sent w ∧ ∀ d, acked w d → acked (re_now env w).2 d;
  pl_log l w : sent (re_log env l w) = sent w ∧ ∀ d, acked w d → acked (re_log env l w) d;
  pl_backoff fn a w : CustomBackoff cfg = Some fn →
    sent (fn a w).2 = sent w ∧ ∀ d, acked w d → acked (fn a w).2 d;
  pl_producer factory c w : factory = re_driver_New env ∨ rc_newProducer cfg = Some factory →
    sent (factory c w).2 = sent w ∧ ∀ d, acked w d → acked (factory c w).2 d;
  pl_start c w : sent (re_start env c w) = sent w ∧ ∀ d, acked w d → acked (re_start env c w) d;
  pl_Close t w : sent (re_Close env t w).2 = sent w ∧ ∀ d, acked w d → acked (re_Close env t w).2 d;
}.

Section written.
Context {W Del D : Type} `{GoRangeLaws} `{FloatOverflow} `{FmtFloat}.
Context (env : RetryEnv W Del D) (cfg : RetryConfig W D).

(** The record of a message: its topic, the key and payload as consumed, and the
    headers of the failure, sorted.  It is due the backoff after it was written. *)
Definition written_record (f : Failure) (msg : Message) (rec : Record_) : Prop :=
  let attempt := next_attempt msg in
  if to_DLQ cfg (errors_Is (f_Err f) ErrPermanent) attempt then
    ∃ failed, rec = mkRecord (DLQTopic cfg) (msg_Key msg) (msg_Payload msg)
                      (sortedHeaders (BuildDLQHeaders failed msg attempt f))
  else
    ∃ w1 w2 failed, rec = mkRecord (RetryTopic cfg) (msg_Key msg) (msg_Payload msg)
      (sortedHeaders (BuildRetryHeaders failed msg attempt
         (Add (re_now env w2).1 (computeBackoff cfg attempt w1).1) f)).

Context (sent : W → list (Del * Record_)) (acked : W → Del → Prop).
Context `{!PublisherLaws env cfg sent acked}.

(** From [w] to [w'] the records [rs] were accepted, and no acknowledgement lost. *)
Definition adds (rs : list (Del * Record_)) (w w' : W) : Prop :=
  sent w' = sent w ++ rs ∧ ∀ d, acked w d → acked w' d.
(** What refuses a record, and what fails one. *)
Definition refuses : Prop := ∃ rec w err, (re_enqueue env rec w).1 = inr err.
Definition fails (d : Del) : Prop := ∃ w err, (re_Wait env d w).1.2 = Some err.

Lemma adds_refl w : adds [] w w.
Proof. split; [by rewrite app_nil_r|done]. Qed.
Lemma adds_trans rs rs' w1 w2 w3 : adds rs w1 w2 → adds rs' w2 w3 → adds (rs ++ rs') w1 w3.
Proof. intros [E1 A1] [E2 A2]. split; [by rewrite E2, E1, app_assoc|eauto]. Qed.
Lemma adds_nil_l rs w1 w2 w3 : adds [] w1 w2 → adds rs w2 w3 → adds rs w1 w3.
Proof. apply adds_trans. Qed.
Lemma adds_nil_r rs w1 w2 w3 : adds rs w1 w2 → adds [] w2 w3 → adds rs w1 w3.
Proof. intros K1 K2. rewrite <-(app_nil_r rs). by eapply adds_trans. Qed.
Lemma same_adds w w' : sent w' = sent w ∧ (∀ d, acked w d → acked w' d) → adds [] w w'.
Proof. intros [E A]. split; [by rewrite E, app_nil_r|done]. Qed.

(** A step that adds nothing. *)
Lemma post_retry_log l c Q w : (∀ w', adds [] w w' → Q tt w') → post (log env l c) Q w.
Proof. intros HQ. apply HQ, same_adds, pl_log. Qed.
Lemma post_now Q w : (∀ w', adds [] w w' → Q (re_now env w).1 w') → post (re_now env) Q w.
Proof. intros HQ. apply HQ, same_adds, pl_now. Qed.
Lemma post_backoff a Q w :
  (∀ w', adds [] w w' → Q (computeBackoff cfg a w).1 w') → post (computeBackoff cfg a) Q w.
Proof.
  intros HQ. apply HQ. unfold computeBackoff. destruct (CustomBackoff cfg) as [fn|] eqn:E.
  - by apply same_adds, pl_backoff.
  - apply adds_refl.
Qed.

(** What [send] does, and what one message comes to. *)
Definition accepts (Q : Record_ → Prop) (w : W) (x : Del + goerr) (w' : W) : Prop :=
  match x with
  | inl d => ∃ rec, Q rec ∧ adds [(d, rec)] w w'
  | inr _ => refuses ∧ adds [] w w'
  end.
Lemma post_send name msg h w :
  post (send env (topic_writer name) msg h)
    (accepts (λ rec, rec = mkRecord name (msg_Key msg) (msg_Payload msg) (sortedHeaders h)) w) w.
Proof.
  assert (∀ rec, post (re_enqueue env rec) (accepts (λ r, r = rec) w) w) as He.
  { intros rec. unfold post, accepts. destruct (re_enqueue env rec w) as [[d|err] w'] eqn:E;
      pose proof (pl_enqueue rec w _ _ E) as [E' A]; cbn.
    - exists rec. by split.
    - split; [exists rec, w, err; by rewrite E|by split]. }
  unfold send, SendDelete, Send, topic_writer. cbn. destruct (msg_Payload msg) as [p|]; apply He.
Qed.
Lemma accepts_from Q Q' w0 w x w' :
  adds [] w0 w → (∀ rec, Q rec → Q' rec) → accepts Q w x w' → accepts Q' w0 x w'.
Proof.
  intros K0 HQ. destruct x as [d|err]; cbn.
  - intros (rec & ? & Ha). exists rec. split; [auto|]. by eapply adds_nil_l.
  - intros [? Ha]. split; [done|]. by eapply adds_nil_l.
Qed.

Lemma post_write_message f msg w :
  post (write_message env cfg f msg)
    (λ x w', match x with
             | inl wt => wt_msg wt = msg ∧
                 accepts (written_record f msg) w (inl (wt_delivery wt)) w'
             | inr err => accepts (written_record f msg) w (inr err) w'
             end) w.
Proof.
  unfold write_message. apply post_bind, post_retry_log. intros w1 K1.
  destruct (to_DLQ _ _ _) eqn:Ed.
  - apply post_bind, post_retry_log. intros w2 K2. unfold sendToDLQ. do 2 apply post_bind.
    apply post_now. intros w3 K3. eapply post_mono; [apply post_send|]. intros x w4 Hx.
    assert (accepts (written_record f msg) w x w4) as Hx'.
    { eapply accepts_from; [|intros rec Hr|exact Hx].
      - eapply adds_nil_l; [done|]. by eapply adds_nil_l.
      - unfold written_record. cbn in Hr |- *. rewrite Ed, Hr. eauto. }
    destruct x as [d|err]; [by apply post_ret|]. apply post_bind, post_retry_log. intros w5 K5.
    apply post_ret. destruct Hx' as [? Ha]. split; [done|]. by eapply adds_nil_r.
  - unfold sendToRetryQueue. do 2 apply post_bind. apply post_backoff. intros w2 K2.
    apply post_bind, post_now. intros w3 K3. apply post_bind, post_now. intros w4 K4.
    eapply post_mono; [apply post_send|]. intros x w5 Hx.
    assert (accepts (written_record f msg) w x w5) as Hx'.
    { eapply accepts_from; [|intros rec Hr|exact Hx].
      - do 3 (eapply adds_nil_l; [eassumption|]). done.
      - unfold written_record. cbn in Hr |- *. rewrite Ed, Hr. eauto. }
    destruct x as [d|err]; [by apply post_ret|]. apply post_bind, post_retry_log. intros w6 K6.
    apply post_ret. destruct Hx' as [? Ha]. split; [done|]. by eapply adds_nil_r.
Qed.

(** The records written for a list of messages. *)
Lemma post_write_messages f msgs : ∀ w,
  post (write_messages env cfg f msgs)
    (λ x w', ∃ records, adds records w w' ∧
       Forall2 (written_record f) (take (length records) msgs) records.*2 ∧
       match x with
       | inl writes => length records = length msgs ∧ map wt_delivery writes = records.*1
       | inr _ => refuses
       end) w.
Proof.
  induction msgs as [|m msgs IH]; intros w; cbn [write_messages].
  { apply post_ret. exists []. split_and!; [apply adds_refl|constructor|done|done]. }
  apply post_bind. eapply post_mono; [apply post_write_message|]. intros [wt|err] w1.
  - intros (_ & rec & Hrec & Ha1). apply post_bind. eapply post_mono; [apply IH|].
    intros x w2 (records & Ha2 & Hf & Hx).
    assert (adds ((wt_delivery wt, rec) :: records) w w2) as Ha by (by eapply (adds_trans [_])).
    assert (Forall2 (written_record f) (take (S (length records)) (m :: msgs))
              (((wt_delivery wt, rec) :: records).*2)) as Hf' by (by constructor).
    destruct x as [writes|err]; apply post_ret; exists ((wt_delivery wt, rec) :: records);
      (split; [done|split; [done|]]); [|done].
    destruct Hx as [Hl Hd]. cbn. by rewrite Hl, Hd.
  - intros [Hr Ha]. apply post_ret. exists []. split_and!; [done|constructor|done].
Qed.

(** Every delivery waited for is acknowledged, or its failure is collected. *)
Lemma post_await_failures (writes : list write) : ∀ w,
  post (await_failures env writes)
    (λ errs w', adds [] w w' ∧
       (errs = [] → ∀ d, d ∈ map wt_delivery writes → acked w' d) ∧
       Forall (λ e, is_Some e) errs ∧
       (errs ≠ [] → ∃ d, d ∈ map wt_delivery writes ∧ fails d)) w.
Proof.
  induction writes as [|wt writes IH]; intros w; cbn [await_failures map].
  { apply post_ret. split_and!; [apply adds_refl|by intros _ d []%elem_of_nil|done|done]. }
  apply post_bind. unfold post at 1. destruct (re_Wait env (wt_delivery wt) w) as [o w1] eqn:Ew. cbn [fst snd].
  destruct (pl_Wait _ _ _ _ Ew) as (Es & Am & Aa).
  assert (adds [] w w1) as K1 by (by apply same_adds).
  destruct (o.2) as [err|] eqn:Eo.
  - apply post_bind, post_retry_log. intros w2 K2. apply post_bind. eapply post_mono; [apply IH|].
    intros errs w3 (K3 & _ & Hs & _). apply post_ret. split_and!.
    + eapply adds_nil_l; [done|]. by eapply adds_nil_l.
    + done.
    + constructor; [done|exact Hs].
    + intros _. exists (wt_delivery wt). split; [by left|]. exists w, err. by rewrite Ew.
  - apply post_bind, post_retry_log. intros w2 K2. eapply post_mono; [apply IH|].
    intros errs w3 (K3 & Ha & Hs & Hf). split_and!.
    + eapply adds_nil_l; [done|]. by eapply adds_nil_l.
    + intros -> d [->|Hd]%elem_of_cons; [|auto].
      destruct K2 as [_ M2], K3 as [_ M3]. auto.
    + done.
    + intros Hne. destruct (Hf Hne) as (d & ? & ?). exists d. split; [by right|done].
Qed.
(** The records of a list of messages, and what the answer says of them. *)
Lemma handle_messages_acked msgs f w :
  post (handle_messages env cfg msgs f) (λ err w', ∃ records,
    adds records w w' ∧ Forall2 (written_record f) (take (length records) msgs) records.*2 ∧
    match err with
    | None => length records = length msgs ∧ ∀ d, d ∈ records.*1 → acked w' d
    | Some _ => refuses ∨ ∃ d, d ∈ records.*1 ∧ fails d
    end) w.
Proof.
  unfold handle_messages. apply post_bind. eapply post_mono; [apply post_write_messages|].
  intros [writes|e] w1 (records & Ha & Hf & Hx); [|apply post_ret; eauto].
  destruct Hx as [Hl Hd]. unfold awaitWrites. apply post_bind.
  eapply post_mono; [apply post_await_failures|].
  intros errs w2 (Ha2 & Hack & Hs & Hfail). apply post_ret. exists records.
  split; [by eapply adds_nil_r|split; [done|]]. rewrite Hd in *.
  destruct errs as [|e errs]; [by split; [|auto]|].
  destruct (errors_Join (e :: errs)) eqn:Ej; [right; by apply Hfail|].
  apply errors_Join_None in Ej. inversion Hs as [|? ? [? ?]]; inversion Ej; congruence.
Qed.
End written.

(** C7 (retry acknowledged) Whatever a batch of failed messages, [HandleError]
    writes one record per message, in order, until the publisher refuses one:
    a message goes to the DLQ if its failure is permanent or this was its last
    attempt, and to the retry topic, due the backoff from now, otherwise, with
    the key and payload it was consumed with.  It returns nil only when every
    message was written and the broker has acknowledged every record, and an
    error only when the publisher refused a record or reported one as failed. *)
Theorem HandleError_acked {W Del D} `{GoRangeLaws} `{FloatOverflow} `{FmtFloat}
    (env : RetryEnv W Del D) (cfg : RetryConfig W D) sent acked
    `{!PublisherLaws env cfg sent acked} msgs f r w err r' w' :
  publisher r = true → retry_HandleError env cfg msgs f (r, w) = (err, (r', w')) →
  r' = r ∧ ∃ records,
    sent w' = sent w ++ records ∧
    Forall2 (written_record env cfg f) (take (length records) msgs) records.*2 ∧
    match err with
    | None => length records = length msgs ∧ ∀ d, d ∈ records.*1 → acked w' d
    | Some _ => refuses env ∨ ∃ d, d ∈ records.*1 ∧ fails env d
    end.
Proof.
  intros Hp. unfold retry_HandleError. rewrite Hp. cbn [negb].
  destruct (handle_messages env cfg msgs f w) as [err0 w0] eqn:E. intros [= <- <- <-]. split; [done|].
  pose proof (handle_messages_acked env cfg sent acked msgs f w) as Hpost.
  unfold post in Hpost. rewrite E in Hpost. destruct Hpost as (records & [Hs _] & ?). eauto.
Qed.
