(* ===== verification/RetryWalk.v ===== *)
(** * Walking through the retry strategy

    A relation on the strategy's world that every operation of its environment
    keeps to, the publisher's calls, the clock, the log and the application's
    functions, is kept by the strategy's own operations. *)
From S2P Require Import Prelude GoStrings GoErrors GoTime LogCode GoAny GoMath Types Headers ConsumerApi.
From S2P Require Import Kfk PubDriver PubOptions Delivery Writer PubNew Retry.

Section moves.
Context {W Del D : Type} `{GoRange} `{FloatOverflow} `{FmtFloat}.
Context (renv : RetryEnv W Del D) (rcfg : RetryConfig W D) (R : W → W → Prop) `{!PreOrder R}.

Record env_moves : Prop := {
  em_enqueue r w : R w (re_enqueue renv r w).2;
  em_Wait d w : R w (re_Wait renv d w).2;
  em_now w : R w (re_now renv w).2;
  em_log l w : R w (re_log renv l w);
  em_backoff fn a w : CustomBackoff rcfg = Some fn → R w (fn a w).2;
  em_producer factory c w : factory = re_driver_New renv ∨ rc_newProducer rcfg = Some factory →
    R w (factory c w).2;
  em_start c w : R w (re_start renv c w);
  em_Close t w : R w (re_Close renv t w).2;
}.
Context (Hmoves : env_moves).

Definition moves {A} (c : ST W A) : Prop := ∀ w, R w (c w).2.
Lemma moves_ret {A} (x : A) : moves (mret x).
Proof. intros w. cbn. reflexivity. Qed.
Lemma moves_bind {A B} (c : ST W A) (f : A → ST W B) : moves c → (∀ x, moves (f x)) → moves (c ≫= f).
Proof.
  intros Hc Hf w. unfold mbind, ST_bind. specialize (Hc w). destruct (c w) as [x w'].
  etrans; [exact Hc|apply Hf].
Qed.
Lemma moves_log l c : moves (log renv l c).
Proof. intros w. apply (em_log Hmoves). Qed.
Lemma moves_now : moves (re_now renv).
Proof. exact (em_now Hmoves). Qed.
Lemma moves_send name msg headers : moves (send renv (topic_writer name) msg headers).
Proof.
  intros w. unfold send, SendDelete, Send, topic_writer. cbn.
  destruct (msg_Payload msg); apply (em_enqueue Hmoves).
Qed.
Lemma moves_backoff a : moves (computeBackoff rcfg a).
Proof.
  unfold computeBackoff. destruct (CustomBackoff rcfg) as [fn|] eqn:E; [|apply moves_ret].
  intros w. by apply (em_backoff Hmoves).
Qed.
Hint Resolve moves_ret moves_log moves_now moves_send moves_backoff : core.

Ltac moves_step :=
  repeat (intros; first
    [ solve [auto] | apply moves_bind
    | match goal with |- moves (match ?x with _ => _ end) => destruct x eqn:? end ]).

Lemma moves_write_message f msg : moves (write_message renv rcfg f msg).
Proof. unfold write_message, sendToDLQ, sendToRetryQueue. cbn zeta. moves_step. Qed.
Lemma moves_write_messages f msgs : moves (write_messages renv rcfg f msgs).
Proof. induction msgs as [|msg msgs IH]; cbn [write_messages]; [auto|]. pose proof moves_write_message. moves_step. Qed.
Lemma moves_await writes : moves (await_failures renv writes).
Proof.
  induction writes as [|x writes IH]; cbn [await_failures]; [auto|].
  assert (∀ d, moves (re_Wait renv d)) by (intros d w; apply (em_Wait Hmoves)). moves_step.
Qed.
Lemma handle_messages_moves msgs f : moves (handle_messages renv rcfg msgs f).
Proof. unfold handle_messages, awaitWrites. pose proof moves_write_messages. pose proof moves_await. moves_step. Qed.

Lemma HandleError_moves msgs f s : R s.2 (retry_HandleError renv rcfg msgs f s).2.2.
Proof.
  destruct s as [r w]. unfold retry_HandleError. destruct (negb (publisher r)); [reflexivity|].
  pose proof (handle_messages_moves msgs f w) as Hm. by destruct (handle_messages renv rcfg msgs f w).
Qed.
Lemma New_moves config w : R w (New (re_driver_New renv) (re_start renv) (publisher_options rcfg config) w).2.
Proof.
  unfold New. destruct (build _ _) as [built|err] eqn:E; [|reflexivity].
  assert (newProducer built = re_driver_New renv ∨ rc_newProducer rcfg = Some (newProducer built)) as Hf.
  { destruct (build_factory _ _ _ E) as [?|Hin]; [by left|right].
    unfold publisher_options in Hin. destruct (OnDeliveryError rcfg), (rc_newProducer rcfg); cbn in Hin;
      rewrite !elem_of_cons, elem_of_nil in Hin; by intuition congruence. }
  pose proof (em_producer Hmoves _ (PubOptions.driverConfig built) w Hf) as Hp.
  destruct (newProducer built _ w) as [[err|] w1]; [exact Hp|]. etrans; [exact Hp|apply (em_start Hmoves)].
Qed.
Lemma Initialize_moves config s : R s.2 (Initialize renv rcfg config s).2.2.
Proof.
  destruct s as [r w]. unfold Initialize. destruct (inUse r); [reflexivity|].
  pose proof (New_moves config w) as Hn. destruct (New _ _ _ w) as [[err|] w1]; [exact Hn|].
  etrans; [exact Hn|apply (em_log Hmoves)].
Qed.
Lemma Close_moves s : R s.2 (Retry.Close renv s).2.2.
Proof.
  destruct s as [r w]. unfold Retry.Close. destruct (publisher r); [|reflexivity].
  pose proof (em_Close Hmoves closeTimeout w) as Hc. by destruct (re_Close renv closeTimeout w).
Qed.
End moves.
