(* ===== verification/RetrySafety.v ===== *)
(** * The retry strategy: configuration, exclusive use, and the retry ladder *)
From S2P Require Import Prelude GoStrings GoErrors GoTime LogCode GoAny GoMath Types Headers ConsumerApi.
From S2P Require Import ConsumerDriver PubDriver PubOptions PublisherConfig Delivery Writer PubNew Retry.
From Corelib Require Import SpecFloat.

(** ** What the options build *)

Section options.
Context {W D : Type}.
Implicit Types (cfg : RetryConfig W D) (opts : list (RetryOption W D)).

(** The checks of an option, alone. *)
Definition option_valid (o : RetryOption W D) : bool :=
  match o with
  | OptRetryTopic topic | OptDLQTopic topic => negb (String.eqb topic EmptyString)
  | OptMaxAttempts attempts => 0 <? attempts
  | OptInitialDelay delay | OptMaxDelay delay => 0 <? delay
  | OptBackoffMultiplier multiplier => negb (float_ltb multiplier float_one)
  | OptCustomBackoff fn => bool_decide (is_Some fn)
  | OptRetryDeliveryErrorFunc fn => bool_decide (is_Some fn)
  | OptRetryProducerFactory factory => bool_decide (is_Some factory)
  end.
Definition sets_retry_topic (o : RetryOption W D) : bool :=
  match o with OptRetryTopic _ => true | _ => false end.
Definition sets_DLQ_topic (o : RetryOption W D) : bool :=
  match o with OptDLQTopic _ => true | _ => false end.

(** What every configuration the options lead to satisfies. *)
Record config_valid cfg : Prop := {
  cv_attempts : 1 ≤ MaxAttempts cfg;
  cv_initial : 1 ≤ InitialDelay cfg;
  cv_max : 1 ≤ MaxDelay cfg;
  cv_multiplier : float_ltb (Multiplier cfg) float_one = false;
}.

Lemma apply_retry_option_spec o cfg : config_valid cfg →
  match apply_retry_option o cfg with
  | inl cfg' => option_valid o = true ∧ config_valid cfg' ∧
      (RetryTopic cfg' ≠ EmptyString ↔ sets_retry_topic o = true ∨ RetryTopic cfg ≠ EmptyString) ∧
      (DLQTopic cfg' ≠ EmptyString ↔ sets_DLQ_topic o = true ∨ DLQTopic cfg ≠ EmptyString)
  | inr _ => option_valid o = false
  end.
Proof.
  intros [Ha Hi Hm Hx].
  destruct o as [t|t|n|d|d|x|[fn|]|[fn|]|[fn|]]; cbn -[float_ltb float_one];
    unfold WithRetryTopic, WithDLQTopic, WithMaxAttempts, WithInitialDelay, WithMaxDelay,
      WithBackoffMultiplier, WithCustomBackoff, WithDeliveryErrorFunc, WithProducerFactory, refuse;
    try done;
    try (destruct (String.eqb_spec t EmptyString) as [->|]; [done|]);
    try (destruct (Z.leb_spec n 0); [lia|]); try (destruct (Z.leb_spec d 0); [lia|]);
    try (destruct (float_ltb x float_one) eqn:E; [done|]);
    (split; [try done; lia|]); (split; [constructor; cbn; first [done|lia]|]); cbn; intuition congruence.
Qed.
Lemma apply_retry_options_spec opts : ∀ cfg, config_valid cfg →
  match apply_retry_options opts cfg with
  | inl cfg' => forallb option_valid opts = true ∧ config_valid cfg' ∧
      (RetryTopic cfg' ≠ EmptyString ↔ existsb sets_retry_topic opts = true ∨ RetryTopic cfg ≠ EmptyString) ∧
      (DLQTopic cfg' ≠ EmptyString ↔ existsb sets_DLQ_topic opts = true ∨ DLQTopic cfg ≠ EmptyString)
  | inr _ => forallb option_valid opts = false
  end.
Proof.
  induction opts as [|o opts IH]; intros cfg Hv; cbn [apply_retry_options forallb existsb].
  { split; [done|split; [done|]]. split; (split; [by right|by intros [|]]). }
  pose proof (apply_retry_option_spec o cfg Hv) as Ho.
  destruct (apply_retry_option o cfg) as [cfg1|err]; [|by rewrite Ho].
  destruct Ho as (-> & Hv1 & Hr & Hd). specialize (IH cfg1 Hv1).
  destruct (apply_retry_options opts cfg1) as [cfg'|err]; [|done].
  destruct IH as (-> & Hv' & Hr' & Hd'). rewrite !orb_true_iff, Hr', Hr, Hd', Hd.
  split; [done|]. split; [done|]. clear. split; tauto.
Qed.
Lemma default_valid : config_valid defaultRetryConfig.
Proof. constructor; vm_compute; done. Qed.
End options.

(** [NewRetryStrategy] accepts exactly the option lists
    in which every option is valid on its own and both topics are set; the
    strategy then has two named topics, at least one attempt, positive delays and
    a multiplier that is not below one. *)
Theorem new_strategy {W D} (opts : list (RetryOption W D)) :
  match NewRetryStrategy opts with
  | inl cfg => config_valid cfg ∧ RetryTopic cfg ≠ EmptyString ∧ DLQTopic cfg ≠ EmptyString
  | inr _ => True
  end ∧
  ((∃ cfg, NewRetryStrategy opts = inl cfg) ↔
   forallb option_valid opts = true ∧ existsb sets_retry_topic opts = true ∧
   existsb sets_DLQ_topic opts = true).
Proof.
  unfold NewRetryStrategy, refuse. pose proof (apply_retry_options_spec opts _ default_valid) as Ho.
  destruct (apply_retry_options opts _) as [cfg|err].
  - destruct Ho as (-> & Hv & Hr & Hd). cbn in Hr, Hd.
    destruct (String.eqb_spec (RetryTopic cfg) EmptyString) as [E|E].
    { split; [done|]. split; [by intros (? & ?)|]. intros (_ & ? & _). tauto. }
    destruct (String.eqb_spec (DLQTopic cfg) EmptyString) as [E'|E'].
    { split; [done|]. split; [by intros (? & ?)|]. intros (_ & _ & ?). tauto. }
    split; [done|]. split; [|eauto]. intros _. split; [done|]. tauto.
  - split; [done|]. rewrite Ho. split; [by intros (? & ?)|by intros (? & _)].
Qed.

(** ** Exclusive use *)

Inductive call : Type :=
  | CInitialize (config : InitConfig)
  | CHandle (msgs : list Message) (f : Failure)
  | CClose.
Definition is_Initialize (c : call) : bool := match c with CInitialize _ => true | _ => false end.
Definition is_Close (c : call) : bool := match c with CClose => true | _ => false end.

Section exclusive.
Context {W Del D : Type} `{GoRange} `{FloatOverflow} `{FmtFloat}.
Context (env : RetryEnv W Del D) (cfg : RetryConfig W D).

Definition perform (c : call) : ST (RetryState * W) (option goerr) :=
  match c with
  | CInitialize config => Initialize env cfg config
  | CHandle msgs f => retry_HandleError env cfg msgs f
  | CClose => Close env
  end.
Fixpoint perform_all (calls : list call) : ST (RetryState * W) (list (option goerr)) :=
  match calls with
  | [] => mret []
  | c :: calls => answer ← perform c; answers ← perform_all calls; mret (answer :: answers)
  end.

Lemma HandleError_state msgs f s : (retry_HandleError env cfg msgs f s).2.1 = s.1.
Proof.
  destruct s as [r w]. unfold retry_HandleError. destruct (publisher r); [|done]. cbn.
  by destruct (handle_messages env cfg msgs f w).
Qed.
Lemma held_calls calls : ∀ s, inUse s.1 = true → existsb is_Close calls = false →
  let '(answers, s') := perform_all calls s in
  s'.1 = s.1 ∧ (perform_all (filter (λ c, is_Initialize c = false) calls) s).2 = s' ∧
  Forall2 (λ c answer, is_Initialize c = true → answer = Some ErrStrategyInUse) calls answers.
Proof.
  induction calls as [|c calls IH]; intros s Hu Hc; [done|].
  cbn [existsb] in Hc. apply orb_false_iff in Hc as [Hc Hcs]. cbn [perform_all].
  unfold mbind, ST_bind. destruct c as [config|msgs f|]; [| |done]; cbn [perform].
  - rewrite filter_cons_False by done. destruct s as [r w]. unfold Initialize at 1. cbn in Hu. rewrite Hu.
    specialize (IH (r, w) Hu Hcs). destruct (perform_all calls (r, w)) as [answers s'].
    destruct IH as (E1 & E2 & Hf). split_and!; [done|done|]. by constructor.
  - rewrite filter_cons_True by done. cbn [perform_all perform]. unfold mbind, ST_bind.
    pose proof (HandleError_state msgs f s) as Es.
    destruct (retry_HandleError env cfg msgs f s) as [answer s1]. cbn in Es.
    specialize (IH s1 ltac:(by rewrite Es) Hcs). destruct (perform_all calls s1) as [answers s'].
    destruct IH as (E1 & E2 & Hf). split_and!; [congruence| |by constructor].
    by destruct (perform_all _ s1).
Qed.
End exclusive.

(** C26 (exclusive use) A strategy that a consumer has initialized belongs to it
    until [Close]: every further [Initialize] answers ErrStrategyInUse and touches
    nothing, neither the strategy's fields nor the world, so the publisher, the logger
    and the failures handled are exactly what they would be without it.  [Close]
    releases the strategy.  An [Initialize] that fails because [publish.New] does leaves
    the strategy free, with the publisher it had and the logger of that consumer, and
    the world as [publish.New] left it. *)
Theorem strategy_exclusive {W Del D} `{GoRange} `{FloatOverflow} `{FmtFloat}
    (env : RetryEnv W Del D) (cfg : RetryConfig W D) s config :
  let '(err, s1) := Initialize env cfg config s in
  (inUse s.1 = true → err = Some ErrStrategyInUse ∧ s1 = s) ∧
  (inUse s.1 = false → err ≠ None →
   publisher s1.1 = publisher s.1 ∧ inUse s1.1 = false ∧ logger s1.1 = ic_Logger config ∧
   s1.2 = (New (re_driver_New env) (re_start env) (publisher_options cfg config) s.2).2) ∧
  (err = None →
   inUse s.1 = false ∧ publisher s1.1 = true ∧ inUse s1.1 = true ∧ logger s1.1 = ic_Logger config ∧
   ∀ calls, existsb is_Close calls = false →
   let '(answers, s2) := perform_all env cfg calls s1 in
   s2.1 = s1.1 ∧
   (perform_all env cfg (filter (λ c, is_Initialize c = false) calls) s1).2 = s2 ∧
   Forall2 (λ c answer, is_Initialize c = true → answer = Some ErrStrategyInUse) calls answers ∧
   inUse (Close env s2).2.1 = false).
Proof.
  destruct s as [[p u l] w]. unfold Initialize at 1. cbn [inUse publisher logger fst snd].
  destruct u; [by split_and!|].
  destruct (New _ _ _ w) as [[err|] w1]; [by split_and!|]. split; [done|]. split; [done|]. intros _.
  split_and!; [done..|]. intros calls Hc.
  pose proof (held_calls env cfg calls
    (mkRetryState true true (ic_Logger config), re_log env (LogLine Info_ None) w1) eq_refl Hc) as Hh.
  destruct (perform_all env cfg calls _) as [answers s2]. destruct Hh as (E1 & E2 & Hf).
  split_and!; [done..|]. destruct s2 as [r2 w2]. unfold Close.
  by destruct (if publisher r2 then _ else _).
Qed.

(** ** Headers on the wire *)

(** A record as a consumer's client receives it, at a position of its topic. *)
Definition received (rec : Record_) (partition offset : Z) (timestamp : Time) : kfk_Message :=
  {| km_Topic := r_Topic rec; km_Partition := partition; km_Offset := offset; km_Error := None;
     km_Timestamp := timestamp; km_Key := r_Key rec; km_Value := r_Value rec;
     km_Headers := map (λ h, (h_Key h, h_Value h)) (r_Headers rec) |}.

Section headers.
Context `{GoRangeLaws}.
Implicit Types h : gmap string string.

Lemma last_header_map h keys k : NoDup keys → (∀ key, key ∈ keys → is_Some (h !! key)) →
  last_header (map (λ key, (key, Some (default EmptyString (h !! key)))) keys) k =
    if bool_decide (k ∈ keys) then h !! k else None.
Proof.
  induction keys as [|key keys IH]; intros Hnd Hs; [done|]. apply NoDup_cons in Hnd as [Hni Hnd].
  cbn [map last_header]. rewrite IH by (try done; intros; apply Hs; by right).
  destruct (decide (k ∈ keys)) as [Hin|Hin].
  - rewrite !bool_decide_eq_true_2 by (try done; by right). destruct (h !! k) eqn:E; [done|].
    destruct (Hs k) as [? E']; [by right|congruence].
  - rewrite (bool_decide_eq_false_2 (k ∈ keys)) by done. destruct (String.eqb_spec key k) as [->|Hne].
    + rewrite bool_decide_eq_true_2 by (by left). by destruct (Hs k ltac:(by left)) as [x ->].
    + rewrite bool_decide_eq_false_2; [done|]. by intros [->|?]%elem_of_cons.
Qed.
Lemma header_map_sorted h : header_map (map (λ x, (h_Key x, h_Value x)) (sortedHeaders h)) = h.
Proof.
  apply map_eq. intros k. rewrite header_map_last. unfold sortedHeaders. rewrite map_map. cbn.
  rewrite last_header_map by (try apply NoDup_sorted_keys; intros; by apply elem_of_sorted_keys).
  case_bool_decide as Hk; [done|]. rewrite elem_of_sorted_keys in Hk. symmetry.
  by apply eq_None_not_Some.
Qed.
End headers.

(** The headers of a record are sorted by key and do not
    depend on the order a map is ranged over, so two records with the same headers
    carry them in the same order; and a consumer reads back exactly the map. *)
Theorem sorted_headers (R R' : GoRange) : @GoRangeLaws R → @GoRangeLaws R' → ∀ headers,
  @sortedHeaders R headers = @sortedHeaders R' headers ∧
  StronglySorted String.le (h_Key <$> @sortedHeaders R headers) ∧
  ∀ topic key value partition offset t,
    msg_Headers (to_Message (received (mkRecord topic key value (@sortedHeaders R headers)) partition offset t)) =
      Some headers.
Proof.
  intros L L' headers.
  assert (h_Key <$> @sortedHeaders R headers = @sorted_keys R _ headers) as Ek.
  { unfold sortedHeaders. rewrite <-list_fmap_id. generalize (@sorted_keys R _ headers) as l.
    induction l; [done|]. cbn. by f_equal. }
  split_and!.
  - unfold sortedHeaders. f_equal. apply (@sorted_keys_unique R' L'); [apply sorted_keys_sorted|
      apply NoDup_sorted_keys|intros k; apply elem_of_sorted_keys].
  - rewrite Ek. apply sorted_keys_sorted.
  - intros topic key value partition offset t. cbn. by rewrite header_map_sorted.
Qed.

(** ** The retry ladder *)

Section ladder.
Context {W Del D : Type} `{GoRangeLaws} `{FloatOverflow} `{FmtFloat}.
Context (env : RetryEnv W Del D) (cfg : RetryConfig W D).

(** [m] failed with [f], went to the retry topic, and was consumed from there as [m']. *)
Definition hop_with (f : Failure) (m m' : Message) : Prop :=
  ∃ rec partition offset t,
    to_DLQ cfg (errors_Is (f_Err f) ErrPermanent) (next_attempt m) = false ∧
    written_record env cfg f m rec ∧ m' = to_Message (received rec partition offset t).
Definition hop (m m' : Message) : Prop := ∃ f, hop_with f m m'.

Lemma to_DLQ_false permanent a : to_DLQ cfg permanent a = false ↔ permanent = false ∧ a < MaxAttempts cfg.
Proof. unfold to_DLQ. rewrite orb_false_iff, Z.leb_gt. done. Qed.

Lemma hop_spec m m' : hop m m' →
  next_attempt m < MaxAttempts cfg ∧ GetRetryAttempt (Some m') = next_attempt m ∧
  msg_Key m' = msg_Key m ∧ msg_Payload m' = msg_Payload m ∧
  header_lookup m' HeaderOriginalTopic = Some (resolveOriginalTopic m).
Proof.
  intros (f & rec & p & o & t & Hd & Hw & ->). unfold written_record in Hw. rewrite Hd in Hw.
  apply to_DLQ_false in Hd as [_ Hlt]. destruct Hw as (w1 & w2 & failed & ->).
  split; [done|]. unfold GetRetryAttempt, header_lookup, received, to_Message. cbn [km_Headers r_Headers km_Key
    r_Key km_Value r_Value msg_Headers msg_Key msg_Payload mbind option_bind].
  rewrite header_map_sorted, !lookup_retry_time by done. autorewrite with ek. cbn [mbind option_bind].
  by rewrite Atoi_Itoa by apply wrap64_range.
Qed.
Lemma hop_failure f m m' : hop_with f m m' → - 2 ^ 31 ≤ f_Step f < 2 ^ 31 →
  GetRetryStep (Some m') = resolveStep m f ∧ GetErrorCode (Some m') = resolveErrorCode f.
Proof.
  intros (rec & p & o & t & Hd & Hw & ->) Hf. unfold written_record in Hw. rewrite Hd in Hw.
  destruct Hw as (w1 & w2 & failed & ->). unfold GetRetryStep, GetErrorCode, header_lookup, received, to_Message.
  cbn [km_Headers r_Headers msg_Headers mbind option_bind].
  rewrite header_map_sorted, !lookup_retry_time by done. autorewrite with ek. cbn [mbind option_bind from_option id].
  split; [|done]. destruct (Z.eqb_spec (resolveStep m f) 0) as [->|]; [done|]. cbn [mbind option_bind].
  unfold Itoa. by rewrite ParseInt_FormatInt by (by apply (resolveStep_range m)).
Qed.
Lemma resolve_step m m' : hop m m' → msg_Topic m ≠ EmptyString →
  resolveOriginalTopic m' = resolveOriginalTopic m.
Proof.
  intros (_ & _ & _ & _ & Ho)%hop_spec Hne. unfold resolveOriginalTopic at 1.
  apply resolveOriginalHeader_present; [done|]. by apply resolveOriginalHeader_nonempty.
Qed.
Lemma hop_topic m m' : hop m m' → msg_Topic m' = RetryTopic cfg.
Proof.
  intros (f & rec & p & o & t & Hd & Hw & ->). unfold written_record in Hw. rewrite Hd in Hw.
  by destruct Hw as (w1 & w2 & failed & ->).
Qed.
Lemma ladder_spec (k : nat) m0 m : 1 ≤ MaxAttempts cfg < 2 ^ 63 → RetryTopic cfg ≠ EmptyString →
  msg_Topic m0 ≠ EmptyString → GetRetryAttempt (Some m0) = 0 → nsteps hop k m0 m →
  GetRetryAttempt (Some m) = Z.of_nat k ∧ Z.of_nat k < MaxAttempts cfg ∧
  msg_Key m = msg_Key m0 ∧ msg_Payload m = msg_Payload m0 ∧
  resolveOriginalTopic m = resolveOriginalTopic m0 ∧ msg_Topic m ≠ EmptyString.
Proof.
  intros HM HR Ht Hfirst. revert m. induction k as [|k IH]; intros m Hk.
  - inversion Hk; subst. split_and!; try done; lia.
  - apply nsteps_inv_r in Hk as (m1 & Hk & Hh). destruct (IH m1 Hk) as (Ha & Hlt & Hkey & Hp & Ho & Htm).
    pose proof (hop_spec m1 m Hh) as (Hlt' & Ha' & Hkey' & Hp' & _).
    assert (next_attempt m1 = Z.of_nat (S k)) as En.
    { unfold next_attempt. rewrite Ha, wrap64_id by lia. lia. }
    rewrite En in *. split_and!; try congruence.
    + rewrite <-Ho. by eapply resolve_step.
    + by rewrite (hop_topic m1 m Hh).
Qed.
End ladder.

(** C10 (retry ladder) A message first consumed without an attempt header, failing
    and coming back from the retry topic [k] times, carries attempt [k], the key
    and payload it started with and the topic it came from.  It comes back fewer
    than [MaxAttempts] times; its next failure goes to the DLQ if it is permanent,
    and otherwise exactly if that was attempt [MaxAttempts]: a message is handled
    at most [MaxAttempts] times, and never dead-lettered before for a failure
    that is not permanent. *)
Theorem retry_ladder {W Del D} `{GoRangeLaws} `{FloatOverflow} `{FmtFloat}
    (env : RetryEnv W Del D) (cfg : RetryConfig W D) (k : nat) m0 m :
  1 ≤ MaxAttempts cfg < 2 ^ 63 → RetryTopic cfg ≠ EmptyString → msg_Topic m0 ≠ EmptyString →
  GetRetryAttempt (Some m0) = 0 → nsteps (hop env cfg) k m0 m →
  GetRetryAttempt (Some m) = Z.of_nat k ∧ Z.of_nat k < MaxAttempts cfg ∧
  msg_Key m = msg_Key m0 ∧ msg_Payload m = msg_Payload m0 ∧
  resolveOriginalTopic m = resolveOriginalTopic m0 ∧
  to_DLQ cfg true (next_attempt m) = true ∧
  (to_DLQ cfg false (next_attempt m) = true ↔ Z.of_nat k + 1 = MaxAttempts cfg).
Proof.
  intros HM HR Ht Hfirst Hk.
  destruct (ladder_spec env cfg k m0 m) as (Ha & Hlt & Hkey & Hp & Ho & _); [done..|].
  split_and!; try done. unfold to_DLQ, next_attempt. cbn [orb]. rewrite Ha, wrap64_id, Z.leb_le by lia. lia.
Qed.

(** ** Witnesses *)
Module Ex_retry.
#[local] Existing Instance range_canonical.
#[local] Existing Instance range_canonical_laws.
#[local] Instance overflow : FloatOverflow := float_overflow_amd64.
#[local] Instance fmt : FmtFloat := λ _, "x".

(** A publisher whose broker acknowledges every record; the records accepted, each
    with its number, and the numbers of those acknowledged. *)
Definition broker : Type := list (nat * Record_) * list nat.
Definition env : RetryEnv broker nat unit :=
  {| re_driver_New := λ _ w, (None, w); re_start := λ _ w, w;
     re_enqueue := λ r w, (inl (length w.1), (w.1 ++ [(length w.1, r)], w.2));
     re_Wait := λ d w, ((zero_Result, None), (w.1, d :: w.2));
     re_Close := λ _ w, (None, w); re_now := λ w, (zero_Time, w); re_log := λ _ w, w |}.
Definition options : list (RetryOption broker unit) :=
  [OptRetryTopic "orders.retry"; OptDLQTopic "orders.dlq"].
Definition cfg : RetryConfig broker unit :=
  mkRetryConfig "orders.retry" "orders.dlq" 3 (1 * Second) (30 * Second) (float_of_Z 2) None None None.
Lemma retry_cfg_accepted : NewRetryStrategy options = inl cfg.
Proof. done. Qed.
Definition message (offset : Z) : Message :=
  {| msg_Topic := "orders"; msg_Partition := 0; msg_Offset := offset; msg_Timestamp := zero_Time;
     msg_Key := Some "k"; msg_Headers := None; msg_Payload := Some "order" |}.
Definition failure : Failure :=
  {| f_Err := Some (errors_New "database down"); f_Step := 0; f_Code := EmptyString |}.

Definition init_config (lg : Logger) : InitConfig :=
  {| ic_Brokers := ["broker:9092"]; ic_ConsumerGroup := "billing"; ic_KafkaConfig := ∅; ic_Logger := lg |}.
(** A second consumer, with another logger, while the first holds the strategy. *)
Lemma strategy_exclusive_witness :
  let '(err, s1) := Initialize env cfg (init_config 1%nat) (unused, ([], [])) in
  err = None ∧ logger s1.1 = 1%nat ∧ Initialize env cfg (init_config 2%nat) s1 = (Some ErrStrategyInUse, s1) ∧
  inUse (Close env s1).2.1 = false.
Proof.
  pose proof (strategy_exclusive env cfg (unused, ([], [])) (init_config 1%nat)) as Hx.
  destruct (Initialize env cfg (init_config 1%nat) (unused, ([], []))) as [err s1] eqn:E.
  assert (err = None) as -> by (vm_compute in E; congruence).
  destruct Hx as (_ & _ & Hx). destruct (Hx eq_refl) as (_ & _ & Hu & Hl & Hcalls).
  destruct (Hcalls [] eq_refl) as (_ & _ & _ & Hclose).
  pose proof (strategy_exclusive env cfg s1 (init_config 2%nat)) as Hy.
  destruct (Initialize env cfg (init_config 2%nat) s1) as [err2 s2].
  destruct Hy as [Hy _]. destruct (Hy Hu) as [-> ->]. split_and!; [reflexivity|exact Hl|reflexivity|exact Hclose].
Defined.
(** No broker: [publish.New] fails, and the strategy has the logger of that consumer. *)
Example failed_takes_logger :
  let '(err, s1) := Initialize env cfg
    {| ic_Brokers := []; ic_ConsumerGroup := "billing"; ic_KafkaConfig := ∅; ic_Logger := 1%nat |} (unused, ([], [])) in
  bool_decide (is_Some err) = true ∧ s1 = (mkRetryState false false 1%nat, ([], [])).
Proof. by vm_compute. Qed.

(** The message after it failed once more and came back. *)
Definition next (m : Message) : Message :=
  to_Message (received (mkRecord (RetryTopic cfg) (msg_Key m) (msg_Payload m)
    (sortedHeaders (BuildRetryHeaders zero_Time m (next_attempt m)
       (Add zero_Time (computeBackoff cfg (next_attempt m) ([], [])).1) failure))) 0 7 zero_Time).
Lemma hop_next m : next_attempt m < 3 → hop env cfg m (next m).
Proof.
  intros Hlt. assert (to_DLQ cfg false (next_attempt m) = false) as Hd by (by apply to_DLQ_false).
  exists failure. eexists _, 0, 7, zero_Time. split_and!; [exact Hd| |reflexivity].
  unfold written_record. change (errors_Is (f_Err failure) ErrPermanent) with false. rewrite Hd.
  exists ([], []), ([], []), zero_Time. reflexivity.
Qed.
(** The default of three attempts: the first, and two retries. *)
Lemma retry_ladder_witness :
  GetRetryAttempt (Some (next (next (message 4)))) = 2 ∧
  to_DLQ cfg false (next_attempt (next (next (message 4)))) = true.
Proof.
  assert (hop env cfg (message 4) (next (message 4))) as Hop1 by (apply hop_next; by vm_compute).
  assert (next_attempt (next (message 4)) = 2) as En.
  { unfold next_attempt. by rewrite (proj1 (proj2 (hop_spec env cfg _ _ Hop1))). }
  assert (hop env cfg (next (message 4)) (next (next (message 4)))) as Hop2 by (apply hop_next; by rewrite En).
  destruct (retry_ladder env cfg 2 (message 4) (next (next (message 4)))) as (Ha & _ & _ & _ & _ & _ & Hd).
  - split; by vm_compute.
  - done.
  - done.
  - done.
  - eapply nsteps_l; [exact Hop1|]. eapply nsteps_l; [exact Hop2|]. apply nsteps_O.
  - split; [exact Ha|]. by apply Hd.
Defined.

Lemma sorted_headers_witness :
  msg_Headers (to_Message (received (mkRecord "orders.retry" None None
    (sortedHeaders {["b" := "2"; "a" := "1"]})) 0 7 zero_Time)) = Some {["b" := "2"; "a" := "1"]}.
Proof.
  apply (sorted_headers range_canonical range_canonical range_canonical_laws range_canonical_laws).
Defined.
End Ex_retry.
