(* ===== verification/Backoff.v ===== *)
(** * The retry delay ([computeBackoff] of internal/subscribe/strategy/retry.go)

    The delay is computed in float64 and cut to a [time.Duration]: its bounds, its
    exact values under the default multiplier, and what a NaN does. *)
From S2P Require Import Prelude GoErrors GoTime GoAny GoMath GoFloat Retry RetrySafety.
From Corelib Require Import SpecFloat.

(** ** [Pow] of a base that is not negative *)

Lemma half_compare m e : normal m → e = -53 ∨ e = -54 →
  float_ltb (S754_finite false m e) float_half = (e =? -54).
Proof.
  assert (∀ h, Z.pos h = 2 ^ 52 → normal m → e = -53 ∨ e = -54 →
            float_ltb (S754_finite false m e) (S754_finite false h (-53)) = (e =? -54)) as Hh; [|by apply Hh].
  intros h Eh [Hl _] [-> | ->]; [|done].
  change (match Pos.compare m h with Lt => true | _ => false end = false).
  destruct (Pos.compare_spec m h); try done. lia.
Qed.
(** The loop multiplies normal floats: its fraction is one throughout. *)
Lemma pow_loop_finite fuel : ∀ i m xe ma ea ae,
  normal m → normal ma → -52 - 2 * (100 - Z.of_nat fuel) ≤ ea ≤ -52 + 2 * (100 - Z.of_nat fuel) →
  Z.of_nat fuel ≤ 100 →
  ∃ m' e' ae', pow_loop fuel i (S754_finite false m (-53)) xe (S754_finite false ma ea) ae =
    (S754_finite false m' e', ae').
Proof.
  induction fuel as [|fuel IH]; intros i m xe ma ea ae Hm Hma Hea Hf; cbn [pow_loop]; [by eauto|].
  destruct (i =? 0); [by eauto|]. destruct (_ || _); [by eauto|].
  assert (∃ ma' ea' ae', (if Z.odd i then (float_mul (S754_finite false ma ea) (S754_finite false m (-53)), ae + xe)
            else (S754_finite false ma ea, ae)) = (S754_finite false ma' ea', ae') ∧ normal ma' ∧
            -52 - 2 * (100 - Z.of_nat fuel) ≤ ea' ≤ -52 + 2 * (100 - Z.of_nat fuel))
    as (ma' & ea' & ae' & -> & Hma' & Hea').
  { destruct (Z.odd i).
    - destruct (mul_normal ma m ea (-53) Hma Hm) as (m2 & e2 & Hm2 & -> & He2); [lia|].
      exists m2, e2. eexists. split; [done|]. split; [done|lia].
    - do 3 eexists. split; [done|]. split; [done|lia]. }
  destruct (square_normal m Hm) as (m2 & Hm2 & [E|E]); rewrite E, half_compare by auto.
  - change (-53 =? -54) with false. cbn iota. apply IH; try done; lia.
  - change (-54 =? -54) with true. cbn iota. rewrite double_exact by done. apply IH; try done; lia.
Qed.
Lemma Frexp_normal m e : Z.pos m < 2 ^ 53 →
  ∃ m' e', Frexp (S754_finite false m e) = (S754_finite false m' (-53), e') ∧ normal m'.
Proof.
  intros Hm. unfold Frexp, SFfrexp, prec64. change (Z.pos (digits2_pos m)) with (digits m).
  pose proof (digits_spec m) as [Dl _].
  assert (digits m ≤ 53).
  { destruct (Z.le_gt_cases (digits m) 53); [done|].
    assert (2 ^ 53 ≤ 2 ^ (digits m - 1)) by (apply Z.pow_le_mono_r; lia). lia. }
  destruct (Z.leb_spec 53 (digits m)).
  - do 2 eexists. split; [done|]. apply digits_normal. lia.
  - do 2 eexists. split; [done|]. apply digits_normal. rewrite (digits_mul_pow m _ (53 - digits m)); [lia..|].
    rewrite pos_iter_xO, Z2Pos.id by lia. done.
Qed.
Lemma Pow_canon x n : canon x → 0 ≤ n < 2 ^ 53 → canon (Pow x (float_of_Z n)).
Proof.
  intros Hx Hn. unfold Pow. rewrite float_trunc_of_Z by done.
  destruct ((n =? 0) || float_eqb x float_one).
  { vm_compute. split; [done|]. split; [done|]. left. done. }
  destruct (n =? 1); [done|]. assert ((n <? 0) = false) as -> by lia.
  destruct x as [s|s| |s m e]; [done|done|done|]. cbn in Hx. destruct Hx as (-> & Hm & _).
  destruct (2 ^ 63 <=? Z.abs n); [by destruct (Bool.eqb _ _)|].
  destruct (Frexp_normal m e Hm) as (m' & e' & -> & Hm').
  change float_one with (S754_finite false (2 ^ 52)%positive (-52)).
  destruct (pow_loop_finite 64 (Z.abs n) m' e' (2 ^ 52) (-52) 0) as (m2 & e2 & ae & ->); [done|done|lia|lia|].
  apply round_canon.
Qed.

(** A float64 that is not below one, and not NaN. *)
Lemma multiplier_canon x : valid_binary prec64 emax64 x = true → x ≠ S754_nan →
  float_ltb x float_one = false → canon x.
Proof.
  intros Hv Hnan Hlt. destruct x as [s|[]| |[] m e]; try done. cbn in Hv |- *.
  apply andb_true_iff in Hv as [Hc _]. apply Z.eqb_eq in Hc.
  change (Z.max (digits m + e - 53) (-1074) = e) in Hc.
  pose proof (digits_spec m) as [Dl Du].
  assert (Z.pos m < 2 ^ 53).
  { eapply Z.lt_le_trans; [done|]. apply Z.pow_le_mono_r; lia. }
  split; [done|]. split; [done|]. destruct (Z.eq_dec e (-1074)); [by right|left]. split; [|lia].
  replace 52 with (digits m - 1) by lia. done.
Qed.

(** ** The delay *)

Section backoff.
Context {W D : Type} `{FloatOverflow} (cfg : RetryConfig W D).
Context (Hcfg : config_valid cfg) (Hcustom : CustomBackoff cfg = None).

(** A delay below the cap is cut to an integer from zero up to it. *)
Lemma cut_delay x cap : canon x → 0 < cap < 2 ^ 53 → float_geb x (float_of_Z cap) = false →
  0 ≤ float_to_int64 x < cap.
Proof.
  intros Hx Hcap Hgeb. destruct (float_of_Z_exact cap Hcap) as (mk & ek & Ek & [Lk Uk] & Hek & Hmk).
  assert (∀ t, float_trunc x = Some t → 0 ≤ t < cap → 0 ≤ float_to_int64 x < cap) as Ht.
  { intros t E ?. unfold float_to_int64, in_int64. rewrite E, bool_decide_eq_true_2; lia. }
  rewrite Ek in Hgeb. destruct x as [s|s| |s m e]; cbn in Hx; [|by subst|done|].
  { apply (Ht 0); [done|lia]. }
  destruct Hx as (-> & Hm & _). unfold float_geb, SFleb, SFcompare in Hgeb.
  assert (e < ek ∨ e = ek ∧ Z.pos m < Z.pos mk) as Hlex.
  { destruct (Z.compare_spec ek e) as [E|?|?]; [|done|lia].
    change (match Pos.compare mk m with Gt => false | _ => true end = false) in Hgeb.
    destruct (Pos.compare_spec mk m); [done|done|]. right. lia. }
  apply (Ht (if 0 <=? e then Z.pos m * 2 ^ e else Z.pos m / 2 ^ (- e))); [done|].
  destruct (Z.leb_spec 0 e).
  { assert (e = 0 ∧ ek = 0) as [-> ->] by lia. rewrite Z.mul_1_r in *. cbn in Hmk. lia. }
  split; [apply Z.div_pos; lia|]. apply Z.div_lt_upper_bound; [lia|].
  destruct Hlex as [Hlt|[-> ?]]; [|lia].
  replace (- e) with (1 + (- e - 1)) by lia. rewrite Z.pow_add_r by lia.
  assert (2 ^ (- ek) ≤ 2 ^ (- e - 1)) as Hp by (apply Z.pow_le_mono_r; lia).
  assert (cap * 2 ^ (- ek) ≤ cap * 2 ^ (- e - 1)) by (apply Z.mul_le_mono_nonneg_l; lia). lia.
Qed.

Lemma delay_canon n : valid_binary prec64 emax64 (Multiplier cfg) = true → Multiplier cfg ≠ S754_nan →
  InitialDelay cfg < 2 ^ 53 → 0 ≤ n < 2 ^ 53 →
  canon (float_mul (float_of_Z (InitialDelay cfg)) (Pow (Multiplier cfg) (float_of_Z n))).
Proof.
  intros Hv Hnan Hi Hn. destruct Hcfg as [_ Hi1 _ Hm].
  destruct (float_of_Z_exact (InitialDelay cfg)) as (m & e & -> & Hnorm & _); [lia|].
  apply mul_canon; [done|]. apply Pow_canon; [|done]. by apply multiplier_canon.
Qed.

(** A normal float times a power of two, against the cap. *)
Lemma scaled_delay cap d n : 0 < cap < 2 ^ 53 → 0 < d < 2 ^ 53 → 0 ≤ n ≤ 900 →
  let x := float_mul (float_of_Z d) (S754_finite false (2 ^ 52)%positive (n - 52)) in
  (if float_geb x (float_of_Z cap) then cap else float_to_int64 x) = Z.min cap (d * 2 ^ n).
Proof.
  intros Hcap Hd Hn x. subst x.
  destruct (float_of_Z_exact cap Hcap) as (mk & ek & -> & Nk & Hek & Hmk).
  destruct (float_of_Z_exact d Hd) as (m & e & -> & Nm & He & Hm).
  assert (float_mul (S754_finite false m e) (S754_finite false (2 ^ 52)%positive (n - 52)) =
          S754_finite false m (e + n)) as ->.
  { unfold float_mul, SFmul. replace (e + n) with (e + (n - 52) + 52) by lia. cbn [xorb].
    apply round_aux_exact; try done; lia. }
  rewrite geb_normal by (try done; lia).
  assert (Z.pos mk * 2 ^ (ek + 52) = cap * 2 ^ 52) as ->.
  { rewrite Hmk, <-Z.mul_assoc, <-Z.pow_add_r by lia. by replace (- ek + (ek + 52)) with 52 by lia. }
  assert (Z.pos m * 2 ^ (e + n + 52) = d * 2 ^ n * 2 ^ 52) as ->.
  { rewrite Hm, <-!Z.mul_assoc, <-!Z.pow_add_r by lia. by replace (- e + (e + n + 52)) with (n + 52) by lia. }
  destruct (Z.leb_spec (cap * 2 ^ 52) (d * 2 ^ n * 2 ^ 52)); [lia|].
  assert (d * 2 ^ n < cap) as Hlt by lia. rewrite Z.min_r by lia.
  unfold float_to_int64, float_trunc. set (t := if 0 <=? e + n then _ else _).
  assert (t = d * 2 ^ n) as ->.
  { subst t. destruct (Z.leb_spec 0 (e + n)).
    - rewrite Hm, <-Z.mul_assoc, <-Z.pow_add_r by lia. by replace (- e + (e + n)) with n by lia.
    - rewrite Hm. replace (- e) with (n + - (e + n)) by lia.
      rewrite Z.pow_add_r, Z.mul_assoc, Z.div_mul by lia. done. }
  unfold in_int64. rewrite bool_decide_eq_true_2; [done|].
  assert (0 < d * 2 ^ n) by (apply Z.mul_pos_pos; lia). lia.
Qed.

Lemma Pow_two n : 0 ≤ n ≤ 900 →
  Pow (float_of_Z 2) (float_of_Z n) = S754_finite false (2 ^ 52)%positive (n - 52).
Proof.
  intros Hn.
  assert (forallb (λ k, match Pow (float_of_Z 2) (float_of_Z (Z.of_nat k)) with
                        | S754_finite false m e => (Pos.eqb m (2 ^ 52)) && (e =? Z.of_nat k - 52)
                        | _ => false end) (seq 0 901) = true) as Hall by (by vm_compute).
  rewrite forallb_forall in Hall. specialize (Hall (Z.to_nat n)). rewrite Z2Nat.id in Hall by lia.
  destruct (Pow (float_of_Z 2) (float_of_Z n)) as [| | |[] m e];
    (assert (In (Z.to_nat n) (seq 0 901)) as Hin by (apply in_seq; lia)); try by apply Hall in Hin.
  apply Hall, andb_true_iff in Hin as [->%Pos.eqb_eq ->%Z.eqb_eq]. done.
Qed.
End backoff.

(** C24 (backoff bounds) Without a custom backoff, with delays below 2^53 ns (104 days)
    and a multiplier that is a number, an infinite one included, the delay before every
    attempt from 1 to 2^53 is an integer from 0 to MaxDelay: the float never overflows
    into a negative duration; and the first retry waits for InitialDelay, or MaxDelay
    if that is less. *)
Theorem backoff_bounds {W D} `{FloatOverflow} (cfg : RetryConfig W D) (attempt : Z) (w : W) :
  config_valid cfg → CustomBackoff cfg = None →
  valid_binary prec64 emax64 (Multiplier cfg) = true → Multiplier cfg ≠ S754_nan →
  InitialDelay cfg < 2 ^ 53 → MaxDelay cfg < 2 ^ 53 → 1 ≤ attempt ≤ 2 ^ 53 →
  0 ≤ (computeBackoff cfg attempt w).1 ≤ MaxDelay cfg ∧
  (computeBackoff cfg 1 w).1 = Z.min (MaxDelay cfg) (InitialDelay cfg).
Proof.
  intros Hc Hcu Hv Hnan Hi Hm Ha. pose proof (cv_initial _ Hc) as Hi1. pose proof (cv_max _ Hc) as Hm1.
  unfold computeBackoff. rewrite Hcu. cbn [mret ST_ret fst]. split.
  - rewrite wrap64_id by lia.
    pose proof (delay_canon cfg Hc (attempt - 1) Hv Hnan Hi ltac:(lia)) as Hd.
    destruct (float_geb _ _) eqn:E; [lia|].
    pose proof (cut_delay _ (MaxDelay cfg) Hd ltac:(lia) E). lia.
  - change (wrap64 (1 - 1)) with 0.
    assert (Pow (Multiplier cfg) (float_of_Z 0) = S754_finite false (2 ^ 52)%positive (0 - 52)) as -> by done.
    rewrite scaled_delay by lia. by rewrite Z.mul_1_r.
Qed.

(** C25 (default backoff) Under the default multiplier the delay before attempt
    [n + 1] is exactly InitialDelay doubled [n] times, until it reaches MaxDelay:
    the float arithmetic loses nothing. *)
Theorem default_backoff {W D} `{FloatOverflow} (cfg : RetryConfig W D) (n : Z) (w : W) :
  config_valid cfg → CustomBackoff cfg = None → Multiplier cfg = Multiplier (defaultRetryConfig (W:=W) (D:=D)) →
  InitialDelay cfg < 2 ^ 53 → MaxDelay cfg < 2 ^ 53 → 0 ≤ n ≤ 900 →
  (computeBackoff cfg (n + 1) w).1 = Z.min (MaxDelay cfg) (InitialDelay cfg * 2 ^ n).
Proof.
  intros Hc Hcu Hx Hi Hm Hn. pose proof (cv_initial _ Hc). pose proof (cv_max _ Hc).
  unfold computeBackoff. rewrite Hcu, Hx. cbn [mret ST_ret fst]. rewrite wrap64_id by lia.
  replace (n + 1 - 1) with n by lia. change (Multiplier defaultRetryConfig) with (float_of_Z 2).
  rewrite Pow_two by lia. apply scaled_delay; lia.
Qed.

(** C40 (NaN multiplier) [WithBackoffMultiplier] accepts a NaN.  Every delay but the
    first is then NaN, which the comparison with MaxDelay lets through, and is
    converted to whatever the platform makes of it; on amd64 that is negative, so
    the message is due at once, and again, without any delay. *)
Theorem nan_multiplier {W D} `{FloatOverflow} (retry dlq : string) (attempt : Z) (w : W) :
  retry ≠ EmptyString → dlq ≠ EmptyString → 2 ≤ attempt < 2 ^ 53 →
  ∃ cfg : RetryConfig W D,
    NewRetryStrategy [OptRetryTopic retry; OptDLQTopic dlq; OptBackoffMultiplier S754_nan] = inl cfg ∧
    (computeBackoff cfg attempt w).1 = float_overflow S754_nan ∧
    (@computeBackoff W D float_overflow_amd64 cfg attempt w).1 < 0.
Proof.
  intros Hr Hd Ha. exists (mkRetryConfig retry dlq 3 (1 * Second) (30 * Second) S754_nan None None None).
  split.
  - unfold NewRetryStrategy. cbn [apply_retry_options apply_retry_option]. unfold WithRetryTopic, WithDLQTopic.
    rewrite (proj2 (String.eqb_neq _ _) Hr), (proj2 (String.eqb_neq _ _) Hd).
    change (float_ltb S754_nan float_one) with false. cbn.
    by rewrite (proj2 (String.eqb_neq _ _) Hr), (proj2 (String.eqb_neq _ _) Hd).
  - assert (∀ overflow : FloatOverflow, (@computeBackoff W D overflow
      (mkRetryConfig (W:=W) (D:=D) retry dlq 3 (1 * Second) (30 * Second) S754_nan None None None) attempt w).1 =
      @float_overflow overflow S754_nan) as Hnan; [|by rewrite !Hnan].
    intros overflow. unfold computeBackoff. cbn [CustomBackoff Multiplier InitialDelay MaxDelay mret ST_ret fst].
    rewrite wrap64_id by lia.
    assert (Pow S754_nan (float_of_Z (attempt - 1)) = S754_nan) as ->.
    { unfold Pow. rewrite float_trunc_of_Z by lia. assert ((attempt - 1 =? 0) = false) as -> by lia.
      change (float_eqb S754_nan float_one) with false. cbn [orb]. by destruct (attempt - 1 =? 1). }
    by destruct (float_of_Z (1 * Second)).
Qed.

(** ** Witnesses *)
Module Ex_backoff.
#[local] Instance overflow : FloatOverflow := float_overflow_amd64.
Import Ex_retry.
Lemma cfg_valid : config_valid cfg.
Proof. constructor; by vm_compute. Qed.
Lemma backoff_bounds_witness :
  0 ≤ (computeBackoff cfg 5000 ([], [])).1 ≤ 30 * Second ∧ (computeBackoff cfg 1 ([], [])).1 = 1 * Second.
Proof.
  exact (backoff_bounds cfg 5000 ([], []) cfg_valid eq_refl eq_refl ltac:(done) ltac:(done) ltac:(done)
           ltac:(lia)).
Defined.
Lemma default_backoff_witness : (computeBackoff cfg (2 + 1) ([], [])).1 = 4 * Second.
Proof.
  exact (default_backoff cfg 2 ([], []) cfg_valid eq_refl eq_refl ltac:(done) ltac:(done) ltac:(lia)).
Defined.
Lemma nan_multiplier_witness :
  ∃ cfg : RetryConfig broker unit,
    NewRetryStrategy [OptRetryTopic "orders.retry"; OptDLQTopic "orders.dlq"; OptBackoffMultiplier S754_nan] = inl cfg ∧
    (computeBackoff cfg 2 ([], [])).1 < 0.
Proof.
  destruct (nan_multiplier (W:=broker) (D:=unit) "orders.retry" "orders.dlq" 2 ([], [])) as (cfg & H1 & _ & H2);
    [done..|]. by exists cfg.
Defined.
End Ex_backoff.
