(* ===== verification/PubSession.v ===== *)
(** * A publisher as its clients call it

    The publisher on its producer, with its goroutines interleaved (PubStack.v),
    behind the calls the retry strategy makes one after the other: [publish.New]'s
    goroutines, [enqueue], [Wait] and [Close].  What the other goroutines and
    librdkafka do during a call is the call's part of a script.  The publisher
    keeps the promises of [PublisherLaws]. *)
From S2P Require Import Prelude GoStrings GoErrors GoTime LogCode GoAny GoMath RWMutex Types Headers ConsumerApi Kfk.
From S2P Require Import PubDriver PubOptions PublisherConfig Delivery.
From S2P Require Import ProducerHandle.
From S2P Require Import Publisher PubInvariants PubStack StackRefines StackProgress PubNew Retry RetrySafety.
From Corelib Require Import SpecFloat.

(** ** A goroutine that comes later

    A goroutine that has not started holds nothing and is in nobody's way, so it
    may as well have been there from the beginning. *)

Lemma fresh_holds t : fresh t → holds t = NoLock.
Proof. by destruct t as [? []|[]]. Qed.
Lemma can_rlock_fresh ts i t : ts !! i = None → fresh t →
  can_rlock holds (<[i := t]> ts) = can_rlock holds ts.
Proof.
  intros Ei Hf. unfold can_rlock. apply bool_decide_ext. rewrite map_Forall_insert by done.
  rewrite fresh_holds by done. by split; [intros [_ ?]|split].
Qed.
Lemma can_lock_fresh ts i t : ts !! i = None → fresh t →
  can_lock holds (<[i := t]> ts) = can_lock holds ts.
Proof.
  intros Ei Hf. unfold can_lock. apply bool_decide_ext. rewrite map_Forall_insert by done.
  rewrite fresh_holds by done. by split; [intros [_ ?]|split].
Qed.

Section spawn.
Context {D F P : Type} (cfg : config (DeliveryErrorFunc:=D) (FatalFunc:=F) (Factory:=P)).
Implicit Types s : pub.

Lemma set_thread_swap i j t u s : i ≠ j → set_thread i t (set_thread j u s) = set_thread j u (set_thread i t s).
Proof. intros Hij. unfold set_thread. cbn. by rewrite insert_insert_ne. Qed.

Lemma step_spawn a i t s s' : threads s !! i = None → fresh t → step cfg a s = Some s' →
  step cfg a (set_thread i t s) = Some (set_thread i t s').
Proof.
  intros Ei Hf Hstep. destruct a as [j x|panics|j p o err|err|r]; unfold step in *.
  - destruct (threads s !! j) as [u|] eqn:Ej; [|done].
    assert (i ≠ j) as Hij by congruence. cbn. rewrite lookup_insert_ne, Ej by done.
    destruct u as [record pc|pc].
    + unfold enqueue_step in *. cbn. rewrite can_rlock_fresh by done.
      destruct pc; repeat (case_match; try done); simplify_eq; by rewrite (set_thread_swap i j).
    + unfold close_step in *. cbn. rewrite can_lock_fresh by done. revert Hstep.
      assert (∀ n, count_ok n (set_thread i t s) = count_ok n s) as Hcount by done.
      destruct pc, x; try done; rewrite ?Hcount; repeat (case_match; try done); intros [= <-];
        first [by rewrite (set_thread_swap i j)|simpl in *; congruence].
  - unfold_report in *. cbn.
    repeat (case_match; try done); simplify_option_eq; repeat (case_match; try done); simplify_eq; first [done|congruence].
  - cbn. case_match; [|done]. by simplify_eq.
  - cbn. case_match; [done|]. by simplify_eq.
  - cbn. change (stray_ok r (set_thread i t s)) with (stray_ok r s). case_match; [|done]. by simplify_eq.
Qed.
Lemma step_dom a s s' : step cfg a s = Some s' → dom (threads s') = dom (threads s).
Proof.
  intros Hstep. destruct a as [i x|panics|i p o err|err|r]; unfold step in *.
  - destruct (threads s !! i) as [[record pc|pc]|] eqn:Ei; [| |done].
    + unfold enqueue_step in Hstep. destruct pc; repeat (case_match; try done); simplify_eq; cbn;
        by rewrite dom_insert_lookup_L.
    + unfold close_step in Hstep. destruct pc; repeat (case_match; try done); simplify_eq; cbn;
        by rewrite dom_insert_lookup_L.
  - unfold_report in *.
    repeat (case_match; try done); simplify_option_eq; repeat (case_match; try done); by simplify_eq.
  - case_match; [|done]. by simplify_eq.
  - case_match; [done|]. by simplify_eq.
  - case_match; [|done]. by simplify_eq.
Qed.
Lemma reachable_dom ts s : reachable cfg ts s → dom (threads s) = dom ts.
Proof. induction 1 as [|a s s' _ IH Hstep]; [done|]. by rewrite (step_dom a s s' Hstep). Qed.
Lemma spawn_reachable ts i t s : reachable cfg ts s → fresh t → threads s !! i = None →
  reachable cfg (<[i := t]> ts) (set_thread i t s).
Proof.
  intros Hr Hf. induction Hr as [Hi|a s s' Hr IH Hstep]; intros Ei.
  - change (set_thread i t (initial ts)) with (initial (<[i := t]> ts)). apply reach_initial.
    by apply map_Forall_insert_2.
  - assert (threads s !! i = None) as Ei0.
    { apply not_elem_of_dom. rewrite <-(step_dom a s s' Hstep). by apply not_elem_of_dom. }
    eapply reach_step; [by apply IH|]. by apply step_spawn.
Qed.
End spawn.

Section stack_spawn.
Context {D F P : Type} (cfg : config (DeliveryErrorFunc:=D) (FatalFunc:=F) (Factory:=P)) `{KfkCodes}.
Implicit Types k : stack.

Definition spawn i t k : stack := set_own (set_thread i t (own k)) k.

Lemma sound_spawn ts k i t : sound cfg ts k → threads (own k) !! i = None → Publisher.fresh t →
  sound cfg (<[i := t]> ts) (spawn i t k).
Proof.
  intros [HL Hr] Ei Hf.
  assert (ProducerHandle.threads (driver k) !! i = None) as Eh.
  { destruct (ProducerHandle.threads (driver k) !! i) as [h|] eqn:E; [|done].
    destruct (lk_call k HL i h E) as (t' & Et & _). congruence. }
  unfold sound. assert (abs (spawn i t k) = set_thread i t (abs k)) as ->.
  2:{ split; [|apply spawn_reachable; [done..|]; cbn [abs threads over]; by rewrite lookup_views, Ei].
      constructor; [apply (lk_inv k HL)| |apply (lk_done k HL)].
      intros j h Ej. destruct (lk_call k HL j h Ej) as (u & Eu & Hl). exists u. split; [|done].
      cbn. by rewrite lookup_insert_ne by congruence. }
  unfold abs at 1. cbn [spawn set_own own driver set_thread threads].
  rewrite (views_insert _ (ProducerHandle.threads (driver k))), Eh, view_None by done. done.
Qed.

(** A sender is one in either view. *)
Lemma view_kind t h : match t with
  | Sender record _ => ∃ pc, view t h = Sender record pc
  | Closer _ => ∃ pc, view t h = Closer pc
  end.
Proof.
  destruct t as [record pc|pc], pc, h as [[c []|[]]|]; cbn; try (by eexists);
    match goal with r : result |- _ => destruct r end; by eexists.
Qed.
Lemma abs_sender k i record : (∃ pc, threads (abs k) !! i = Some (Sender record pc)) ↔
  ∃ pc, threads (own k) !! i = Some (Sender record pc).
Proof.
  cbn [abs threads over]. rewrite lookup_views. destruct (threads (own k) !! i) as [t|]; [|by split; intros [? [=]]].
  pose proof (view_kind t (ProducerHandle.threads (driver k) !! i)) as Hv. cbn.
  destruct t as [r pc|pc]; destruct Hv as [pc' ->]; split; intros [pc'' [= E]]; simplify_eq; by eexists.
Qed.
End stack_spawn.

(** ** Sessions *)

(** What a publisher is given of its configuration when it runs. *)
Definition running {D F P} (c : config (DeliveryErrorFunc:=D) (FatalFunc:=F) (Factory:=P)) :
    config (DeliveryErrorFunc:=D) (FatalFunc:=F) (Factory:=unit) :=
  mkconfig (brokers c) (kafkaConfig c) (idempotence c) (acksLeader c) (partitioner c)
    (deliveryTimeout c) (onDeliveryError c) (onFatal c) tt.

(** The answer of a call the script does not let return: the code gives none. *)
Definition blocked : goerr := errors_New "the call has not returned".

(** A [*Delivery]: its publisher, and the goroutine it was made by. *)
Definition delivery_ref : Type := nat * nat.

Section session.
Context {D : Type} `{KfkCodes}.
Local Abbreviation running_config := (config (DeliveryErrorFunc:=D) (FatalFunc:=unit) (Factory:=unit)).

(** The publishers made, the last one in use; the deliveries [enqueue] returned,
    with their records; and for each call to come, the steps taken meanwhile. *)
Record session : Type := mkSession {
  publishers : list (running_config * stack);
  enqueued : list (delivery_ref * Record_);
  script : list (list stack_action);
}.
Definition current (w : session) : nat := pred (length (publishers w)).

(** The steps of a script: one that cannot be taken is skipped. *)
Definition play (c : running_config) (actions : list stack_action) (s : stack) : stack :=
  fold_left (λ s a, default s (stack_step c a s)) actions s.
Definition meanwhile (c : running_config) (w : session) (s : stack) : stack := play c (hd [] (script w)) s.
(** The state publisher [n] is left in, and the rest of the script. *)
Definition leave (n : nat) (s : stack) (w : session) : session :=
  mkSession (alter (λ cp, (cp.1, s)) n (publishers w)) (enqueued w) (tl (script w)).

Definition start_ (c : running_config) (w : session) : session :=
  mkSession (publishers w ++ [(c, stack_initial ∅)]) (enqueued w) (script w).

(** [Publisher.enqueue] on a goroutine of its own. *)
Definition enqueue (record : Record_) (w : session) : (delivery_ref + goerr) * session :=
  match publishers w !! current w with
  | None => (inr blocked, w)
  | Some (c, s) =>
      let i := base.fresh (dom (threads (own s))) in
      let s' := meanwhile c w (spawn i (Sender record SStart) s) in
      let w' := leave (current w) s' w in
      match threads (own s') !! i with
      | Some (Sender _ (SDone None)) =>
          (inl (current w, i), mkSession (publishers w') (enqueued w' ++ [((current w, i), record)]) (script w'))
      | Some (Sender _ (SDone (Some err))) => (inr err, w')
      | _ => (inr blocked, w')
      end
  end.

(** What is known of a delivery. *)
Definition delivery_of (w : session) (d : delivery_ref) : option Delivery :=
  '(_, s) ← publishers w !! d.1; deliveries (own s) !! d.2.
Definition outcome_now (w : session) (d : delivery_ref) : option outcome := delivery_of w d ≫= d_outcome.

(** [Delivery.Wait] under a context that does not end. *)
Definition Wait_ (d : delivery_ref) (w : session) : outcome * session :=
  match publishers w !! d.1 with
  | None => ((zero_Result, Some blocked), w)
  | Some (c, s) =>
      let w' := leave d.1 (meanwhile c w s) w in
      (Wait {| w_now := outcome_now w d;
               w_select := match outcome_now w' d with Some o => inl o | None => inr blocked end;
               w_ctx := None |}, w')
  end.

(** [Publisher.Close] on a goroutine of its own. *)
Definition Close_ (w : session) : option goerr * session :=
  match publishers w !! current w with
  | None => (Some blocked, w)
  | Some (c, s) =>
      let i := base.fresh (dom (threads (own s))) in
      let s' := meanwhile c w (spawn i (Closer KStart) s) in
      let w' := leave (current w) s' w in
      match threads (own s') !! i with
      | Some (Closer (KDone _ err)) => (err, w')
      | _ => (Some blocked, w')
      end
  end.

(** Every publisher is in a state it can come to, and the deliveries returned are
    those of the records. *)
Definition session_ok (w : session) : Prop :=
  (∀ n c s, publishers w !! n = Some (c, s) → ∃ ts, sound c ts s) ∧
  ∀ d record, (d, record) ∈ enqueued w → ∃ dl, delivery_of w d = Some dl ∧ d_record dl = record.

(** The broker has acknowledged the record of [d]: what librdkafka's client said of it
    is a delivery report without an error. *)
Definition acknowledged (w : session) (d : delivery_ref) : Prop :=
  ∃ c k partition offset, publishers w !! d.1 = Some (c, k) ∧
    first_message d.2 (emitted k) = Some (PMessage (TDelivery d.2) partition offset None).
(** The same session with [acts] taken during the next call. *)
Definition with_steps (acts : list stack_action) (w : session) : session :=
  mkSession (publishers w) (enqueued w) (acts :: script w).
End session.
Arguments session : clear implicits.

(** ** What a call keeps *)

(** A delivery stays, with its record, and with its outcome once it has one. *)
Definition kept (d d' : Delivery) : Prop :=
  d_record d' = d_record d ∧ ∀ o, d_outcome d = Some o → d_outcome d' = Some o.
Definition grows (s s' : pub) : Prop :=
  ∀ i d, deliveries s !! i = Some d → ∃ d', deliveries s' !! i = Some d' ∧ kept d d'.

#[export] Instance kept_refl : Reflexive kept.
Proof. by intros d. Qed.
#[export] Instance grows_preorder : PreOrder grows.
Proof.
  split.
  - intros s i d Ed. by exists d.
  - intros s1 s2 s3 H12 H23 i d Ed. destruct (H12 i d Ed) as (d2 & Ed2 & Hr2 & Ho2).
    destruct (H23 i d2 Ed2) as (d3 & Ed3 & Hr3 & Ho3). exists d3. split; [done|].
    split; [congruence|]. auto.
Qed.
Lemma grows_same s s' : deliveries s' = deliveries s → grows s s'.
Proof. intros Hd i d Ed. exists d. by rewrite Hd. Qed.
Lemma grows_alter s s' i d o : deliveries s !! i = Some d → d_outcome d = None →
  deliveries s' = alter (resolve o) i (deliveries s) → grows s s'.
Proof.
  intros Ed En Hd j dj Ej. rewrite Hd. destruct (decide (i = j)) as [<-|Hij].
  - exists (resolve o d). rewrite lookup_alter_eq, Ed. split; [done|]. simplify_eq. split; [done|].
    intros o' Eo. congruence.
  - exists dj. by rewrite lookup_alter_ne.
Qed.

(** And the client says no less. *)
Definition stack_grows (k k' : stack) : Prop := grows (own k) (own k') ∧ emitted k `prefix_of` emitted k'.
#[export] Instance stack_grows_preorder : PreOrder stack_grows.
Proof.
  split; [by intros k|]. intros k1 k2 k3 [H12 E12] [H23 E23]. split; by etrans.
Qed.

Section keeps.
Context {D F P : Type} (c : config (DeliveryErrorFunc:=D) (FatalFunc:=F) (Factory:=P)).

Lemma step_grows ts a s s' : reachable c ts s → step c a s = Some s' → grows s s'.
Proof.
  intros Hr Hstep. destruct (reachable_Settled c ts s Hr) as [HA HS].
  assert (∀ i, i ∈ outstanding s → is_Some (deliveries s !! i)) as Hout.
  { intros i (d & Ed & _)%(st_out c s HS). eauto. }
  destruct (step_effect c a s s' HA Hout Hstep)
    as [l Hd|l Hd|i record l En Hd|Hd|ev Hd|ev l Hd|r i d o err l Hd|r i d o l Hd _ _ _ _ _ Ed En
       |i o err l Hd|i o err Hd _ _ _ _ Hres]; try by apply grows_same.
  - intros j d Ej. rewrite Hd. exists d. rewrite lookup_insert_ne; [done|congruence].
  - by eapply grows_alter.
  - destruct (st_settling c s HS i o err (or_intror Hres)) as (d & r & Ed & En & _). by eapply grows_alter.
Qed.
Lemma play_grows `{KfkCodes} ts actions : ∀ k, sound c ts k →
  sound c ts (fold_left (λ k a, default k (stack_step c a k)) actions k) ∧
  stack_grows k (fold_left (λ k a, default k (stack_step c a k)) actions k).
Proof.
  induction actions as [|a actions IH]; intros k Hk; [done|]. cbn [fold_left].
  destruct (stack_step c a k) as [k1|] eqn:E; [|by apply IH]. cbn [default from_option].
  destruct (sound_step c ts k a k1 Hk E) as [Hk1 Hs]. destruct (IH k1 Hk1) as [Hk' Hg]. split; [done|].
  transitivity k1; [|done]. split; [|by eapply step_emits]. destruct Hs as [Ha|[b Hb]].
  - apply grows_same. exact (f_equal deliveries Ha).
  - exact (step_grows ts b (abs k) (abs k1) (proj2 Hk) Hb).
Qed.

(** A sender sends the record it was made for. *)
Lemma step_sender a i record pc s s' : threads s !! i = Some (Sender record pc) → step c a s = Some s' →
  ∃ pc', threads s' !! i = Some (Sender record pc').
Proof.
  intros Ei Hstep. destruct a as [j x|panics|j p o err|err|r]; unfold step in *.
  - destruct (decide (j = i)) as [->|Hij].
    + rewrite Ei in Hstep. unfold enqueue_step in Hstep.
      destruct pc; repeat (case_match; try done); simplify_eq; cbn; rewrite lookup_insert_eq; eauto.
    + destruct (threads s !! j) as [[record' pcj|pcj]|] eqn:Ej; [| |done].
      * unfold enqueue_step in Hstep.
        destruct pcj; repeat (case_match; try done); simplify_eq; cbn; rewrite lookup_insert_ne by done; eauto.
      * unfold close_step in Hstep.
        destruct pcj; repeat (case_match; try done); simplify_eq; cbn; rewrite lookup_insert_ne by done; eauto.
  - unfold_report in *.
    repeat (case_match; try done); simplify_option_eq; repeat (case_match; try done); simplify_eq; eauto.
  - case_match; [|done]. simplify_eq. eauto.
  - case_match; [done|]. simplify_eq. eauto.
  - case_match; [|done]. simplify_eq. eauto.
Qed.
Lemma play_sender `{KfkCodes} ts i record actions : ∀ k, sound c ts k →
  (∃ pc, threads (own k) !! i = Some (Sender record pc)) →
  ∃ pc, threads (own (fold_left (λ k a, default k (stack_step c a k)) actions k)) !! i = Some (Sender record pc).
Proof.
  induction actions as [|a actions IH]; intros k Hk Ei; [done|]. cbn [fold_left].
  destruct (stack_step c a k) as [k1|] eqn:E; cbn [default from_option]; [|by eapply IH].
  destruct (sound_step c ts k a k1 Hk E) as [Hk1 Hs]. apply IH; [done|]. apply (proj1 (abs_sender k1 i record)).
  apply (proj2 (abs_sender k i record)) in Ei as [pc Ei].
  destruct Hs as [->|[b Hb]]; [by eexists|]. by eapply step_sender.
Qed.
End keeps.

Section calls.
Context {D : Type} `{KfkCodes}.
Implicit Types w : session D.

(** A script of steps that can all be taken. *)
Lemma play_run c acts : ∀ k k', stack_run c acts k = Some k' → play (D:=D) c acts k = k'.
Proof.
  unfold play. induction acts as [|act acts IH]; intros k k'; simpl; [by intros [= ->]|].
  destruct (stack_step c act k) as [k1|]; [|done]. apply IH.
Qed.
(** Every call can return: some script takes the publisher, with the goroutine of the
    call, to rest. *)
Lemma call_returns w n c s t : session_ok w → publishers w !! n = Some (c, s) → Publisher.fresh t →
  ∃ acts, at_rest (play c acts (spawn (base.fresh (dom (threads (own s)))) t s)).
Proof.
  intros Hok En Hf. destruct (proj1 Hok n c s En) as [ts Hk].
  assert (threads (own s) !! base.fresh (dom (threads (own s))) = None) as Ei by (apply not_elem_of_dom, is_fresh).
  destruct (stack_rests c _ _ _ (Nat.lt_succ_diag_r _) (sound_spawn c ts s _ t Hk Ei Hf)) as (acts & k & _ & Hrun & Hr).
  exists acts. by rewrite (play_run _ _ _ _ Hrun).
Qed.

(** From one call to the next the publishers grow. *)
Definition session_grows w w' : Prop :=
  ∀ n c k, publishers w !! n = Some (c, k) → ∃ k', publishers w' !! n = Some (c, k') ∧ stack_grows k k'.

#[export] Instance session_grows_preorder : PreOrder session_grows.
Proof.
  split.
  - intros w n c k En. by exists k.
  - intros w1 w2 w3 H12 H23 n c k En. destruct (H12 n c k En) as (k2 & En2 & Hk2).
    destruct (H23 n c k2 En2) as (k3 & En3 & Hk3). exists k3. split; [done|]. by etrans.
Qed.
Lemma delivery_grows w w' d dl : session_grows w w' → delivery_of w d = Some dl →
  ∃ dl', delivery_of w' d = Some dl' ∧ kept dl dl'.
Proof.
  unfold delivery_of. intros Hg. destruct (publishers w !! d.1) as [[c k]|] eqn:En; [|done]. cbn. intros Ed.
  destruct (Hg _ c k En) as (k' & -> & Hk & _). cbn. by apply Hk.
Qed.
Lemma acknowledged_grows w w' d : session_grows w w' → acknowledged w d → acknowledged w' d.
Proof.
  intros Hg (c & k & p & o & En & Em). destruct (Hg _ c k En) as (k' & En' & _ & [es He]).
  exists c, k', p, o. split; [done|]. by rewrite He, first_message_app, Em.
Qed.
(** An outcome without an error is an acknowledgement. *)
Lemma outcome_acknowledged w d res : session_ok w → outcome_now w d = Some (res, None) → acknowledged w d.
Proof.
  unfold outcome_now, delivery_of. intros Hok. destruct (publishers w !! d.1) as [[c k]|] eqn:En; [|done]. cbn.
  destruct (deliveries (own k) !! d.2) as [dl|] eqn:Ed; [|done]. cbn. intros Eo.
  destruct (proj1 Hok _ c k En) as [ts Hk].
  destruct (outcome_of_client c ts k d.2 dl _ Hk Ed Eo) as (p & o & [err|] & Em & [=]).
  by exists c, k, p, o.
Qed.

(** The publisher's goroutines have run. *)
Lemma leave_grows n c s s' w : publishers w !! n = Some (c, s) → stack_grows s s' →
  session_grows w (leave n s' w).
Proof.
  intros En Hg m c' k Em. cbn. destruct (decide (n = m)) as [<-|Hnm].
  - rewrite list_lookup_alter_eq, En. simplify_eq. by exists s'.
  - rewrite list_lookup_alter_ne by done. by exists k.
Qed.
Lemma enqueued_ok w w' : session_ok w → session_grows w w' →
  ∀ d record, (d, record) ∈ enqueued w → ∃ dl, delivery_of w' d = Some dl ∧ d_record dl = record.
Proof.
  intros [_ Ha] Hg d record (dl & Ed & Hd)%Ha. destruct (delivery_grows w w' d dl Hg Ed) as (dl' & Ed' & Hk & _).
  exists dl'. split; [done|congruence].
Qed.
Lemma leave_ok n c s s' ts w : session_ok w → publishers w !! n = Some (c, s) → stack_grows s s' →
  sound c ts s' → session_ok (leave n s' w).
Proof.
  intros Hok En Hg Hr'. split.
  - intros m c' s2. cbn. destruct (decide (n = m)) as [<-|Hnm].
    + rewrite list_lookup_alter_eq, En. intros [= <- <-]. eauto.
    + rewrite list_lookup_alter_ne by done. apply (proj1 Hok).
  - apply (enqueued_ok w); [done|by eapply leave_grows].
Qed.
Lemma meanwhile_ok n c s t w : session_ok w → publishers w !! n = Some (c, s) → Publisher.fresh t →
  let i := base.fresh (dom (threads (own s))) in
  let s' := meanwhile c w (spawn i t s) in
  session_ok (leave n s' w) ∧ session_grows w (leave n s' w) ∧
  (∃ ts, sound c ts s') ∧ ∃ ts, sound c ts (spawn i t s).
Proof.
  intros Hok En Hf. destruct (proj1 Hok n c s En) as [ts Hr].
  assert (threads (own s) !! base.fresh (dom (threads (own s))) = None) as Ei by (apply not_elem_of_dom, is_fresh).
  pose proof (sound_spawn c ts s _ t Hr Ei Hf) as Hr1.
  destruct (play_grows c _ (hd [] (script w)) _ Hr1) as [Hr2 Hg].
  assert (stack_grows s (spawn (base.fresh (dom (threads (own s)))) t s)) as Hg0 by (split; [by apply grows_same|done]).
  split_and!; [|eapply leave_grows; [done|by etrans]|by eexists|by eexists]. eapply leave_ok; [done..| |exact Hr2]. by etrans.
Qed.

Lemma start_ok c w : session_ok w → session_ok (start_ c w) ∧ session_grows w (start_ c w).
Proof.
  intros Hok. assert (session_grows w (start_ c w)) as Hg.
  { intros n c' k E. exists k. cbn. by rewrite (lookup_app_l_Some _ _ _ _ E). }
  split; [|done]. split; [|by apply (enqueued_ok w)].
  intros n c' s. cbn. intros [E|[_ E]]%lookup_app_Some; [by eapply (proj1 Hok)|].
  apply list_lookup_singleton_Some in E as [_ [= <- <-]]. exists ∅. apply sound_initial.
Qed.
Lemma enqueue_ok record w : session_ok w → let '(x, w') := enqueue record w in
  session_ok w' ∧ session_grows w w' ∧
  enqueued w' = enqueued w ++ match x with inl d => [(d, record)] | inr _ => [] end.
Proof.
  intros Hok. unfold enqueue. destruct (publishers w !! current w) as [[c s]|] eqn:En.
  2:{ split_and!; [done..|by rewrite app_nil_r]. }
  destruct (meanwhile_ok _ c s (Sender record SStart) w Hok En I) as (Hok' & Hg & (ts & Hr) & ts0 & Hr0). cbn zeta.
  set (i := base.fresh (dom (threads (own s)))) in *. set (s' := meanwhile c w _) in *.
  destruct (play_sender c ts0 i record (hd [] (script w)) (spawn i (Sender record SStart) s) Hr0) as [pc Ei].
  { exists SStart. apply lookup_insert_eq. }
  change (threads (own s') !! i = Some (Sender record pc)) in Ei. rewrite Ei. destruct pc as [| | | | |[err|]]; try (split_and!; [done..|by rewrite app_nil_r]).
  split_and!; [|done|done]. destruct Hok' as [Hr' Ha']. split; [done|].
  intros d rec [Hin|[= -> ->]%list_elem_of_singleton]%elem_of_app; [by apply Ha'|].
  destruct (proj1 (reachable_Settled c ts _ (proj2 Hr)) i record (SDone None)) as (dl & Ed & Hd).
  { cbn [abs threads over]. by rewrite lookup_views, Ei; destruct (ProducerHandle.threads (driver s') !! i) as [[? []|[]]|]. }
  exists dl. split; [|done]. unfold delivery_of. cbn. by rewrite list_lookup_alter_eq, En.
Qed.
(** [Wait] gives the outcome, if there is one when it returns. *)
Lemma Wait_ok d w : session_ok w → let '(o, w') := Wait_ d w in
  session_ok w' ∧ session_grows w w' ∧ enqueued w' = enqueued w ∧
  (o.2 = None → acknowledged w' d) ∧ ∀ o', outcome_now w' d = Some o' → o = o'.
Proof.
  intros Hok. unfold Wait_. destruct (publishers w !! d.1) as [[c s]|] eqn:En.
  2:{ split_and!; try done. unfold outcome_now, delivery_of. by rewrite En. }
  destruct (proj1 Hok _ c s En) as [ts Hr].
  destruct (play_grows c ts (hd [] (script w)) s Hr) as [Hr' Hg]. fold (meanwhile c w s) in *.
  assert (session_grows w (leave d.1 (meanwhile c w s) w)) as Hgw by by eapply leave_grows.
  assert (session_ok (leave d.1 (meanwhile c w s) w)) as Hok' by by eapply leave_ok.
  assert (∀ o, outcome_now w d = Some o → outcome_now (leave d.1 (meanwhile c w s) w) d = Some o) as Hkeep.
  { unfold outcome_now. intros o. destruct (delivery_of w d) as [dl|] eqn:Ed; [|done].
    destruct (delivery_grows _ _ d dl Hgw Ed) as (dl' & -> & _ & Hk). by apply Hk. }
  split_and!; [done..| |]; unfold Wait; cbn [w_now w_select].
  - destruct (outcome_now w d) as [[res err]|] eqn:Eo.
    + cbn. intros ->. eapply outcome_acknowledged; [done|by apply Hkeep].
    + destruct (outcome_now (leave d.1 _ w) d) as [[res err]|] eqn:Eo'; [|done].
      cbn. intros ->. by eapply outcome_acknowledged.
  - intros o' Eo'. destruct (outcome_now w d) as [o|] eqn:Eo; [|by rewrite Eo'].
    rewrite (Hkeep o eq_refl) in Eo'. by injection Eo'.
Qed.
Lemma Close_ok w : session_ok w →
  session_ok (Close_ w).2 ∧ session_grows w (Close_ w).2 ∧ enqueued (Close_ w).2 = enqueued w.
Proof.
  intros Hok. unfold Close_. destruct (publishers w !! current w) as [[c s]|] eqn:En; [|done].
  destruct (meanwhile_ok _ c s (Closer KStart) w Hok En I) as (Hok' & Hg & _).
  destruct (threads (own _) !! _) as [[|[]]|]; by split_and!.
Qed.
(** A [Wait] can return: the steps meanwhile bring the outcome of the record, unless
    librdkafka was closed before it reported it. *)
Lemma wait_returns w d c k dl : session_ok w → publishers w !! d.1 = Some (c, k) →
  deliveries (own k) !! d.2 = Some dl → d.2 ∉ dropped (own k) →
  ∃ acts o, (Wait_ d (with_steps acts w)).1 = o ∧ outcome_now (Wait_ d (with_steps acts w)).2 d = Some o.
Proof.
  intros Hok En Ed Hnd. destruct (proj1 Hok _ c k En) as [ts Hk].
  destruct (delivery_settles c ts k d.2 dl Hk Ed Hnd) as (acts & k' & dl' & o & Hrun & Ed' & Eo).
  assert (outcome_now (Wait_ d (with_steps acts w)).2 d = Some o) as Ho.
  { unfold Wait_. cbn [with_steps publishers]. rewrite En. cbn [snd]. unfold outcome_now, delivery_of, leave.
    cbn [publishers with_steps]. rewrite list_lookup_alter_eq, En. unfold meanwhile. cbn [with_steps script hd fmap option_fmap option_map].
    rewrite (play_run _ _ _ _ Hrun). cbn. by rewrite Ed'. }
  exists acts, o. split; [|done].
  assert (session_ok (with_steps acts w)) as Hok' by exact Hok.
  pose proof (Wait_ok d _ Hok') as Hw. destruct (Wait_ d (with_steps acts w)) as [o' w']. by apply Hw.
Qed.
End calls.

(** ** The strategy's environment *)

(** A session in a state it can come to: no other exists. *)
Definition open_session (D : Type) `{KfkCodes} : Type := {w : session D | session_ok w}.
Definition keep {D A} `{KfkCodes} (f : session D → A * session D) (Hf : ∀ w, session_ok w → session_ok (f w).2)
    (w : open_session D) : A * open_session D :=
  ((f (proj1_sig w)).1, exist _ (f (proj1_sig w)).2 (Hf _ (proj2_sig w))).

Section env.
Context {D R : Type} `{KfkCodes}.

Lemma enqueue_keeps record (w : session D) : session_ok w → session_ok (enqueue record w).2.
Proof. intros Hok. pose proof (enqueue_ok record w Hok) as Hx. destruct (enqueue record w). apply Hx. Qed.
Lemma Wait_keeps d (w : session D) : session_ok w → session_ok (Wait_ d w).2.
Proof. intros Hok. pose proof (Wait_ok d w Hok) as Hx. destruct (Wait_ d w). apply Hx. Qed.
Lemma Close_keeps (w : session D) : session_ok w → session_ok (Close_ w).2.
Proof. intros Hok. apply (Close_ok w Hok). Qed.

(** The rest of the world: librdkafka's client as [publishdriver.New] makes it,
    the clock and the log. *)
Context (driver_New : ProducerConfig → R → option goerr * R) (now : R → Time * R) (say : log_line → R → R).
Local Abbreviation W := (open_session D * R)%type.

(** [f] on the rest of the world. *)
Definition outside {A} (f : R → A * R) (w : W) : A * W := let '(x, r) := f w.2 in (x, (w.1, r)).
(** [f] on the session. *)
Definition inside {A} (f : open_session D → A * open_session D) (w : W) : A * W :=
  let '(x, s) := f w.1 in (x, (s, w.2)).

Definition session_env : RetryEnv W delivery_ref D :=
  {| re_driver_New := λ c, outside (driver_New c);
     re_start := λ c w, (exist _ (start_ (running c) (proj1_sig w.1)) (proj1 (start_ok _ _ (proj2_sig w.1))), w.2);
     re_enqueue := λ record, inside (keep (enqueue record) (enqueue_keeps record));
     re_Wait := λ d, inside (keep (Wait_ d) (Wait_keeps d));
     re_Close := λ _, inside (keep Close_ Close_keeps);
     re_now := outside now;
     re_log := λ l w, (w.1, say l w.2) |}.

Definition session_sent (w : W) : list (delivery_ref * Record_) := enqueued (proj1_sig w.1).
Definition session_acked (w : W) (d : delivery_ref) : Prop := acknowledged (proj1_sig w.1) d.

(** Application code that leaves the publisher alone. *)
Definition apart (cfg : RetryConfig W D) : Prop :=
  (∀ fn a w, CustomBackoff cfg = Some fn → (fn a w).2.1 = w.1) ∧
  (∀ factory c w, rc_newProducer cfg = Some factory → (factory c w).2.1 = w.1).

Lemma session_laws cfg : apart cfg → PublisherLaws session_env cfg session_sent session_acked.
Proof.
  intros [Hb Hp]. unfold session_sent, session_acked. constructor; cbn.
  - intros r w x w' [= <- <-]. cbn. pose proof (enqueue_ok r (proj1_sig w.1) (proj2_sig w.1)) as Hx.
    destruct (enqueue r (proj1_sig w.1)) as [x s']. cbn. destruct Hx as (_ & Hg & Ha).
    split; [done|]. intros d. by apply acknowledged_grows.
  - intros d w o w' [= <- <-]. cbn. pose proof (Wait_ok d (proj1_sig w.1) (proj2_sig w.1)) as Hx.
    destruct (Wait_ d (proj1_sig w.1)) as [o s']. cbn. destruct Hx as (_ & Hg & Ha & Hack & _).
    split_and!; [done| |done]. intros d'. by apply acknowledged_grows.
  - intros w. unfold outside. by destruct (now w.2).
  - done.
  - intros fn a w Hfn. by rewrite (Hb fn a w Hfn).
  - intros factory c w [->|Hf]; [|by rewrite (Hp factory c w Hf)]. unfold outside. by destruct (driver_New c w.2).
  - intros c w. split; [done|]. intros d. apply acknowledged_grows, start_ok, (proj2_sig w.1).
  - intros t w. destruct (Close_ok (proj1_sig w.1) (proj2_sig w.1)) as (_ & Hg & Ha). split; [done|].
    intros d. by apply acknowledged_grows.
Qed.
End env.

(** C8 (publisher keeps its promises) Behind the calls of the retry strategy, and
    whatever its goroutines, those of its producer and librdkafka do meanwhile, the
    publisher on its producer keeps what [PublisherLaws] asks: a record is sent exactly
    when [enqueue] returns a delivery; a nil [Wait] means that the broker has
    acknowledged the record, that is, that the first event librdkafka's client emitted
    about it is a delivery report without an error; and no call takes an
    acknowledgement back.  The delivery returned is the record's.  An outcome, whether
    or not it is nil, is the one logged, and is what that first event says: its
    partition and offset, and a DeliveryError with its error if it has one.  From
    every state a send or a [Close] can return: some steps meanwhile bring every
    goroutine to its end; and so can a [Wait], with the outcome of the record, unless
    librdkafka held the record when it was closed. *)
Theorem publisher_keeps_promises {D R} `{KfkCodes} (driver_New : ProducerConfig → R → option goerr * R) now say
    (cfg : RetryConfig (open_session D * R) D) :
  apart cfg →
  PublisherLaws (session_env driver_New now say) cfg session_sent session_acked ∧
  ∀ w : open_session D * R,
    (∀ d record, (d, record) ∈ session_sent w →
       ∃ dl, delivery_of (proj1_sig w.1) d = Some dl ∧ d_record dl = record) ∧
    (∀ d c k dl o, publishers (proj1_sig w.1) !! d.1 = Some (c, k) → deliveries (own k) !! d.2 = Some dl →
       d_outcome dl = Some o →
       LResolved d.2 o ∈ Publisher.log (own k) ∧
       ∃ p offset err, first_message d.2 (emitted k) = Some (PMessage (TDelivery d.2) p offset err) ∧
         o = (mkResult (r_Topic (d_record dl)) p offset, newDeliveryError (d_record dl) p ∘ TranslateError <$> err)) ∧
    (∀ n c k t, publishers (proj1_sig w.1) !! n = Some (c, k) → Publisher.fresh t →
       ∃ acts, at_rest (play c acts (spawn (base.fresh (dom (threads (own k)))) t k))) ∧
    (∀ d c k dl, publishers (proj1_sig w.1) !! d.1 = Some (c, k) → deliveries (own k) !! d.2 = Some dl →
       d.2 ∉ dropped (own k) → ∃ acts o,
         (Wait_ d (with_steps acts (proj1_sig w.1))).1 = o ∧
         outcome_now (Wait_ d (with_steps acts (proj1_sig w.1))).2 d = Some o).
Proof.
  intros Hap. split; [by apply session_laws|]. intros [[w Hok] r]. cbn. split_and!.
  - apply (proj2 Hok).
  - intros d c k dl o En Ed Eo. destruct (proj1 Hok _ c k En) as [ts Hk]. split; [|by eapply outcome_of_client].
    apply (st_log c _ (proj2 (reachable_Settled c ts _ (proj2 Hk)))). by exists dl.
  - intros n c k t. by apply call_returns.
  - intros d c k dl. by apply wait_returns.
Qed.

(** ** Witnesses: two records, acknowledged while the strategy writes and waits *)
Module Ex_session.
#[local] Existing Instance range_canonical.
#[local] Existing Instance range_canonical_laws.
#[local] Instance overflow : FloatOverflow := float_overflow_amd64.
#[local] Instance fmt : FmtFloat := λ _, "x".
#[local] Existing Instance codes_librdkafka.

Definition env : RetryEnv (open_session unit * unit) delivery_ref unit :=
  session_env (λ _ r, (None, r)) (λ r, (zero_Time, r)) (λ _ r, r).
Definition cfg : RetryConfig (open_session unit * unit) unit :=
  mkRetryConfig "orders.retry" "orders.dlq" 3 (1 * Second) (30 * Second) (float_of_Z 2) None None None.
Lemma cfg_apart : apart cfg.
Proof. by split. Qed.
Definition go (i : nat) : stack_action := SThread i INone (AError None).
(** The locks of the publisher and of the producer, and the client in between. *)
Definition send (i : nat) : list stack_action := replicate 10 (go i).
Definition report (i : nat) (offset : Z) : list stack_action :=
  [SEvent (PMessage (TDelivery i) 3 offset None); STranslate; SReporter None].
(** Two goroutines enqueue; the first report comes during the second call. *)
Definition calls : list (list stack_action) :=
  [send 0; take 4 (send 1) ++ take 2 (report 0 41) ++ drop 4 (send 1); [SReporter None]; report 1 42].
(** A session before its first publisher. *)
Lemma empty_ok calls : session_ok (D:=unit) (mkSession [] [] calls).
Proof. split; [intros n c s; cbn; by rewrite lookup_nil|]. by intros d r []%elem_of_nil. Qed.
Definition opened (calls : list (list stack_action)) : open_session unit := exist _ _ (empty_ok calls).
Definition start : open_session unit * unit := (opened calls, ()).
Definition config : InitConfig :=
  {| ic_Brokers := ["broker:9092"]; ic_ConsumerGroup := "billing"; ic_KafkaConfig := ∅; ic_Logger := Nop |}.
Definition started : RetryState * (open_session unit * unit) := (Initialize env cfg config (unused, start)).2.
Definition handled : option goerr * (RetryState * (open_session unit * unit)) :=
  retry_HandleError env cfg [Ex_retry.message 4; Ex_retry.message 5] Ex_retry.failure started.
Definition succeeded : bool := publisher started.1 && match handled.1 with None => true | Some _ => false end.
Lemma succeeds : succeeded = true.
Proof. by vm_compute. Qed.

Lemma succeeded_spec : publisher started.1 = true ∧ ∃ r w,
  retry_HandleError env cfg [Ex_retry.message 4; Ex_retry.message 5] Ex_retry.failure (started.1, started.2) =
    (None, (r, w)).
Proof.
  pose proof succeeds as Hs. apply andb_true_iff in Hs as [Hp Hs]. split; [exact Hp|].
  unfold handled in Hs. rewrite (surjective_pairing started) in Hs.
  destruct (retry_HandleError env cfg _ _ (started.1, started.2)) as [[err|] [r w]]; [discriminate Hs|].
  exists r, w. reflexivity.
Qed.

(** Two failed messages: both are written, and both acknowledged. *)
Lemma HandleError_acked_witness : ∃ w records,
  retry_HandleError env cfg [Ex_retry.message 4; Ex_retry.message 5] Ex_retry.failure (started.1, started.2) =
    (None, (started.1, w)) ∧
  session_sent w = session_sent started.2 ++ records ∧ length records = 2%nat ∧ ∀ d, d ∈ records.*1 → session_acked w d.
Proof.
  destruct succeeded_spec as (Hp & r & w & E).
  destruct (@HandleError_acked _ _ _ _ _ _ _ env cfg session_sent session_acked (session_laws _ _ _ cfg cfg_apart)
              [Ex_retry.message 4; Ex_retry.message 5] Ex_retry.failure started.1 started.2 None r w Hp)
    as (-> & records & Hr & _ & Hl & Ha).
  { exact E. }
  exists w, records. split; [exact E|]. split; [exact Hr|]. split; [exact Hl|exact Ha].
Defined.
Lemma publisher_keeps_promises_witness : PublisherLaws env cfg session_sent session_acked.
Proof. exact (proj1 (publisher_keeps_promises (λ _ r, (None, r)) (λ r, (zero_Time, r)) (λ _ r, r) cfg cfg_apart)). Defined.
End Ex_session.
