(* ===== verification/RetryEnd.v ===== *)
(** * A subscriber with the retry strategy

    What the at-least-once guarantee of the subscriber amounts to when failures go
    to the retry strategy: no offset is stored past a failed message unless the
    broker has acknowledged its copy on the retry or the dead-letter topic. *)
From S2P Require Import Prelude GoStrings GoErrors GoTime LogCode GoAny GoMath Types Headers ConsumerApi.
From S2P Require Import SubscribeOptions Subscriber Walk AtLeastOnce Accounts Kfk PubDriver PubOptions PublisherConfig.
From S2P Require Import Delivery Writer Publisher PubStack PubNew Retry RetryWalk RetrySafety PubSession.
From stdpp Require Import gmultiset.
#[local] Open Scope Z_scope.

Section composition.
Context {W Del D : Type} `{GoRangeLaws} `{FloatOverflow} `{FmtFloat}.
Context (renv : RetryEnv W Del D) (rcfg : RetryConfig W D).
Context (sent : W → list (Del * Record_)) (acked : W → Del → Prop).
Context `{!PublisherLaws renv rcfg sent acked}.
Abbreviation RW := (RetryState * W)%type.

(** Records are only added, and acknowledgements stay. *)
Definition grows (w w' : W) : Prop :=
  (∀ x, x ∈ sent w → x ∈ sent w') ∧ ∀ d, acked w d → acked w' d.
#[local] Instance sent_grows_preorder : PreOrder grows.
Proof. split; [by intros w|]. intros w1 w2 w3 [S1 A1] [S2 A2]. split; eauto. Qed.
Lemma same_grows w w' : sent w' = sent w ∧ (∀ d, acked w d → acked w' d) → grows w w'.
Proof. intros [E A]. split; [by rewrite E|done]. Qed.
Lemma env_grows : env_moves renv rcfg grows.
Proof.
  constructor; try (intros; apply same_grows; by eauto using pl_now, pl_log, pl_backoff, pl_producer, pl_start, pl_Close).
  - intros r w. destruct (re_enqueue renv r w) as [x w'] eqn:E. destruct (pl_enqueue r w x w' E) as [Hs Ha].
    cbn [snd]. split; [|done]. rewrite Hs. intros y Hy. apply elem_of_app. by left.
  - intros d w. destruct (re_Wait renv d w) as [o w'] eqn:E. destruct (pl_Wait d w o w' E) as (Hs & Ha & _).
    by apply same_grows.
Qed.

(** An acknowledged copy of [m], failed with [f], on the retry or the DLQ topic. *)
Definition copy_acked (f : Failure) (m : Message) (w : W) : Prop :=
  ∃ d rec, (d, rec) ∈ sent w ∧ acked w d ∧ written_record renv rcfg f m rec.
Lemma copy_grows f m w w' : grows w w' → copy_acked f m w → copy_acked f m w'.
Proof. intros [Hs Ha] (d & rec & ? & ? & ?). exists d, rec. split_and!; auto. Qed.

(** Every message the strategy has answered nil for has one. *)
Definition copies (tr : list event) (s : RW) : Prop :=
  ∀ ms f, EvStrategy ms f None ∈ tr → ∀ m, m ∈ ms → copy_acked f m s.2.

(** The rest of the application does not take records or acknowledgements away. *)
Record bystander (env : Env RW) (cfg : Config (W:=RW)) : Prop := {
  bs_done s : grows s.2 (ctx_Done env s).2.2;
  bs_now s : grows s.2 (time_Now env s).2.2;
  bs_handler h m p s : cfg_Handler cfg = Some h → grows s.2 (h m p s).2.2;
  bs_batch h b s : cfg_BatchHandler cfg = Some h → grows s.2 (h b s).2.2;
  bs_new n dc s : cfg_newConsumer cfg = Some n → grows s.2 (n dc s).2.2 ∧
    ∀ d, (n dc s).1 = inl d →
      (∀ s, grows s.2 (Connect d s).2.2) ∧ (∀ s, grows s.2 (SubscribeToTopic d s).2.2) ∧
      (∀ t s, grows s.2 (Poll d t s).2.2) ∧ (∀ t p o s, grows s.2 (StoreOffset d t p o s).2.2) ∧
      (∀ s, grows s.2 (CommitStored d s).2.2) ∧ (∀ s, grows s.2 (MaybeCommitStored d s).2.2) ∧
      (∀ s, grows s.2 (SetOnRevoke d s).2) ∧ (∀ s, grows s.2 (ConsumerApi.Close d s).2.2);
}.

Lemma copies_steady s s' : grows s.2 s'.2 → steady copies s s'.
Proof. intros Hg tr Htr ms f Hin m Hm. eapply copy_grows; [done|]. by eapply Htr. Qed.
Lemma copies_emit e tr s : (∀ ms f, e ≠ EvStrategy ms f None) → copies tr s → copies (tr ++ [e]) s.
Proof.
  intros He Htr ms f [Hin|Hin%list_elem_of_singleton]%elem_of_app; [by eapply Htr|]. by destruct (He ms f).
Qed.

(** What the strategy's answer means. *)
Lemma HandleError_copies ms f s tr : copies tr s →
  copies (tr ++ [EvStrategy ms f (retry_HandleError renv rcfg ms f s).1]) (retry_HandleError renv rcfg ms f s).2.
Proof.
  intros Htr. destruct s as [r w]. unfold retry_HandleError. destruct (publisher r) eqn:Hp; cbn [negb].
  2: { apply copies_emit; [done|exact Htr]. }
  pose proof (handle_messages_acked renv rcfg sent acked ms f w) as Hh. unfold post in Hh.
  destruct (handle_messages renv rcfg ms f w) as [err w'].
  destruct Hh as (records & [Hs Ha] & Hf & Hx). cbn [fst snd] in *.
  assert (grows w w') as Hg by (split; [rewrite Hs; intros; apply elem_of_app; by left|done]).
  assert (copies tr (r, w')) as Htr' by exact (copies_steady (r, w) (r, w') Hg tr Htr).
  destruct err as [err|]; [by apply copies_emit|]. destruct Hx as [Hl Hack].
  intros ms' f' [Hin|Hin%list_elem_of_singleton]%elem_of_app m Hm; [by eapply Htr'|]. simplify_eq.
  rewrite take_ge in Hf by lia. apply list_elem_of_lookup_1 in Hm as [i Hi].
  destruct (Forall2_lookup_l _ _ _ _ _ Hf Hi) as (rec & Hrec & Hw).
  rewrite list_lookup_fmap in Hrec. destruct (records !! i) as [[d rec']|] eqn:Er; simplify_eq/=.
  apply list_elem_of_lookup_2 in Er. exists d, rec. split_and!; [|by apply Hack, list_elem_of_fmap; exists (d, rec)|done].
  rewrite Hs. apply elem_of_app. by right.
Qed.

Lemma copies_Start env cfg fuel s :
  cfg_ErrorStrategy cfg = Some (RetryStrategy renv rcfg) → bystander env cfg →
  copies (st_trace (Start env cfg fuel (created s)).2) (st_world (Start env cfg fuel (created s)).2).
Proof.
  intros Hst Hby. apply (pres_Start copies).
  - destruct Hby as [Hdone Hnow Hh Hb _]. destruct (handlers_steady copies cfg) as (He & Hh' & Hb');
      [|intros; apply copies_steady; by eauto..|].
    { intros e tr w He. apply copies_emit. by intros ms f ->. }
    constructor; try done; try (intros; apply copies_steady; by eauto).
    + intros s' ms f w tr [= <-]%(eq_trans (eq_sym Hst)). apply HandleError_copies.
    + intros s' i c [= <-]%(eq_trans (eq_sym Hst)) [= <- <-].
      split; intros; apply copies_steady; [apply (Initialize_moves renv rcfg grows env_grows)|apply (Close_moves renv rcfg grows env_grows)].
    + intros s' l lg w [= <-]%(eq_trans (eq_sym Hst)) [= <-]. by intros tr.
  - intros n w Hn. destruct (bs_new _ _ Hby n (Subscriber.driverConfig cfg) w Hn) as [Hg Hd].
    split; [by apply copies_steady|]. intros d Ed. destruct (Hd d Ed) as (H1' & H2' & H3' & H4' & H5' & H6' & H7' & H8').
    constructor; try (intros; by apply copies_steady).
    intros t p o s' tr Htr. apply copies_emit; [done|]. by eapply copies_steady; [apply H4'|].
  - intros ms f Hin. by apply elem_of_nil in Hin.
Qed.
End composition.

(** A handler's own verdict. *)
Definition by_handler (e : event) : bool :=
  match e with EvHandled _ _ | EvBatchHandled _ _ => true | _ => false end.

(** What became of the record at [q]: the handler accepted it before, or a copy of it is
    acknowledged. *)
Definition handler_accepted (q : position) (pre : list event) : Prop :=
  ∃ e m, e ∈ pre ∧ by_handler e = true ∧ m ∈ resolves e ∧ pos m = q.
Definition copied {W Del D} `{GoRangeLaws} `{FloatOverflow} `{FmtFloat} (renv : RetryEnv W Del D)
    (rcfg : RetryConfig W D) sent acked (q : position) (w : W) : Prop :=
  ∃ f m, pos m = q ∧ copy_acked renv rcfg sent acked f m w.

(** What a store covers: what was delivered since the last revocation, and, where the
    broker hands over again what was not stored, what was ever polled. *)
Lemma store_covered {W Del D} `{GoRangeLaws} `{FloatOverflow} `{FmtFloat}
    (renv : RetryEnv W Del D) (rcfg : RetryConfig W D) sent acked
    `{!PublisherLaws renv rcfg sent acked} env cfg fuel s pre topic partition offset err suf :
  cfg_ErrorStrategy cfg = Some (RetryStrategy renv rcfg) → bystander sent acked env cfg →
  let final := (Start env cfg fuel (created s)).2 in
  st_trace final = pre ++ EvStore topic partition offset err :: suf →
  let covered q := handler_accepted q pre ∨ copied renv rcfg sent acked q (st_world final).2 in
  (∀ off, off ≤ offset → (0 < delivered (topic, partition, off) pre)%nat → covered (topic, partition, off)) ∧
  (∀ elsewhere, redelivers elsewhere (st_trace final) → ∀ off, off ≤ offset →
     polled (topic, partition, off) pre → covered (topic, partition, off) ∨ elsewhere (topic, partition, off)).
Proof.
  intros Hst Hby final Htr covered. assert (∀ q, settled q pre → covered q) as Hset.
  { intros q (e & m & He & Hm & Hpos). destruct (by_handler e) eqn:Eh; [left; by exists e, m|right].
    destruct e as [| | | | | |ms f [err'|]| | | | | | | |]; try done; try by apply elem_of_nil in Hm.
    exists f, m. split; [done|]. eapply (copies_Start renv rcfg sent acked env cfg fuel s Hst Hby ms f); [|exact Hm].
    fold final. rewrite Htr. apply elem_of_app. by left. }
  destruct (store_is_resolved env cfg fuel s _ _ _ _ _ _ Htr) as [_ Hres]. split.
  - intros off Hoff Hdel. rewrite <-(Hres off Hoff) in Hdel. by apply Hset, resolved_settled.
  - intros elsewhere Hre off Hoff Hpo.
    destruct (Start_settles env cfg fuel s elsewhere _ _ _ _ _ _ off Hre Htr Hoff Hpo); [left; by apply Hset|by right].
Qed.

(** With the retry strategy, at every store in any run, in
    either mode: each record delivered at or below the stored offset was accepted
    by the application's handler, or an acknowledged copy of it, with the key and
    payload the handler left and the failure in its headers, is on the retry topic
    or, if the failure was permanent or the last attempt, on the dead-letter
    topic.  Nothing is asked of the handlers, the clock or the broker but that
    they do not take back what the broker acknowledged. *)
Theorem no_failure_lost {W Del D} `{GoRangeLaws} `{FloatOverflow} `{FmtFloat}
    (renv : RetryEnv W Del D) (rcfg : RetryConfig W D) sent acked
    `{!PublisherLaws renv rcfg sent acked} env cfg fuel s pre topic partition offset err suf :
  cfg_ErrorStrategy cfg = Some (RetryStrategy renv rcfg) → bystander sent acked env cfg →
  let final := (Start env cfg fuel (created s)).2 in
  st_trace final = pre ++ EvStore topic partition offset err :: suf →
  ∀ off, off ≤ offset → (0 < delivered (topic, partition, off) pre)%nat →
    (∃ e m, e ∈ pre ∧ by_handler e = true ∧ m ∈ resolves e ∧ pos m = (topic, partition, off)) ∨
    (∃ f m, pos m = (topic, partition, off) ∧ copy_acked renv rcfg sent acked f m (st_world final).2).
Proof. intros Hst Hby final Htr. apply (store_covered renv rcfg sent acked env cfg fuel s pre _ _ _ err suf Hst Hby Htr). Qed.

(** ** Witness: a handler that fails every message, and the publisher of publisher.go *)
Module Ex_end.
#[local] Existing Instance range_canonical.
#[local] Existing Instance range_canonical_laws.
#[local] Instance overflow : FloatOverflow := float_overflow_amd64.
#[local] Instance fmt : FmtFloat := λ _, "x".
#[local] Existing Instance codes_librdkafka.
(** How often the context stays open, and the polls to come. *)
Definition rest : Type := nat * list (nat * option Message * option goerr).
Definition W : Type := open_session unit * rest.
Definition renv : RetryEnv W delivery_ref unit :=
  session_env (λ _ r, (None, r)) (λ r, (zero_Time, r)) (λ _ r, r).
Definition rcfg : RetryConfig W unit :=
  mkRetryConfig "orders.retry" "orders.dlq" 3 (1 * Second) (30 * Second) (float_of_Z 2) None None None.
Lemma laws : PublisherLaws renv rcfg session_sent session_acked.
Proof. apply session_laws. by split. Qed.
Definition env : Env (RetryState * W) :=
  {| ctx_Done := λ '(r, (p, (n, ps))),
       match n with O => (true, (r, (p, (O, ps)))) | S n => (false, (r, (p, (n, ps)))) end;
     time_Now := λ s, (zero_Time, s) |}.
Definition consumer : Consumer (RetryState * W) :=
  {| Connect := λ s, (None, s); SubscribeToTopic := λ s, (None, s);
     Poll := λ _ '(r, (p, (n, ps))), match ps with [] => ((0%nat, None, None), (r, (p, (n, ps))))
                                   | m :: ps => (m, (r, (p, (n, ps)))) end;
     StoreOffset := λ _ _ _ s, (None, s); CommitStored := λ s, (None, s);
     MaybeCommitStored := λ s, (None, s); SetOnRevoke := λ s, s; ConsumerApi.Close := λ s, (None, s) |}.
Definition handler : Handler (RetryState * W) := λ _ _ s,
  ({| hc_outcome := Returned (Some Ex_retry.failure); hc_writes := None |}, s).
Definition cfg : Config (W:=RetryState * W) :=
  mkConfig "orders" ["broker:9092"] "billing" (Some handler) None ModeSingleMessage 0 0
    (100 * Millisecond) 0 (Some (RetryStrategy renv rcfg)) (Some ∅) (Some (λ _ s, (inl consumer, s))) Nop.
(** The record is sent, reported, and the publisher closed. *)
Definition calls : list (list stack_action) := [Ex_session.send 0; Ex_session.report 0 41].
Definition start : RetryState * W :=
  (unused, (Ex_session.opened calls, (3%nat, [(0%nat, Some (Ex_retry.message 6), None)]))).
Lemma by_ : bystander session_sent session_acked env cfg.
Proof.
  constructor.
  - by intros [r [p [[|n] ps]]].
  - done.
  - by intros h m p s [= <-].
  - done.
  - intros n dc s [= <-]. split; [done|]. intros d [= <-]. split_and!; try done.
    by intros t [r [p [n [|m ps]]]].
Qed.
Definition is_store (e : event) : bool :=
  match e with EvStore t p o _ => String.eqb t "orders" && (p =? 0) && (o =? 6) | _ => false end.
Lemma stores_it : existsb is_store (st_trace (Start env cfg 8 (created start)).2) = true.
Proof. by vm_compute. Qed.
Lemma store_split : ∃ pre err suf,
  st_trace (Start env cfg 8 (created start)).2 = pre ++ EvStore "orders" 0 6 err :: suf.
Proof.
  pose proof stores_it as Hs. apply existsb_exists in Hs as (e & Hin & He).
  destruct e as [| | | | | | |t p o err| | | | | | |]; try discriminate He.
  apply andb_true_iff in He as [[->%String.eqb_eq ->%Z.eqb_eq]%andb_true_iff ->%Z.eqb_eq].
  apply list_elem_of_In, list_elem_of_split in Hin as (pre & suf & Htr). eauto.
Qed.
Lemma no_failure_lost_witness : ∃ pre err suf,
  st_trace (Start env cfg 8 (created start)).2 = pre ++ EvStore "orders" 0 6 err :: suf ∧
  ((∃ e m, e ∈ pre ∧ by_handler e = true ∧ m ∈ resolves e ∧ pos m = ("orders", 0, 6)) ∨
   (∃ f m, pos m = ("orders", 0, 6) ∧
      copy_acked renv rcfg session_sent session_acked f m (st_world (Start env cfg 8 (created start)).2).2)).
Proof.
  destruct store_split as (pre & err & suf & Htr). exists pre, err, suf. split; [exact Htr|].
  destruct (store_is_resolved env cfg 8 start _ _ _ _ _ _ Htr) as [Hdel _].
  exact (@no_failure_lost _ _ _ _ _ _ _ renv rcfg session_sent session_acked laws env cfg 8 start pre "orders" 0 6 err suf eq_refl by_ Htr 6
           (Z.le_refl 6) Hdel).
Defined.
End Ex_end.
