(* ===== verification/EndToEnd.v ===== *)
(** * The whole consumer

    The subscriber, the Kafka consumer of the library and the retry strategy with
    the library's publisher and producer, in one world: from an offset the group has committed
    back to the application's handler or a record the broker has acknowledged.
    Only librdkafka, the clock and application code are left open. *)
From S2P Require Import Prelude GoStrings GoErrors GoTime LogCode GoAny GoMath Types Headers ConsumerApi.
From S2P Require Import SubscribeOptions Subscriber Walk AtLeastOnce Accounts Kfk ConsumerDriver OffsetSafety.
From S2P Require Import PubDriver PubOptions PublisherConfig Delivery Publisher PubStack PubNew Retry RetryWalk RetrySafety.
From S2P Require Import PubSession RetryEnd.
#[local] Open Scope Z_scope.

(** ** One world

    The strategy, its publisher's session, whatever else there is, and the
    consumer with its Kafka client. *)
Section world.
Context {W D R : Type} `{KfkCodes}.

Definition below : Type := open_session D * (R * DW (W:=W)).
Definition whole : Type := RetryState * below.
Definition client_of (s : whole) : DW (W:=W) := s.2.2.2.
(** What the library keeps to itself: the publisher's session and the consumer. *)
Definition private (w : below) : open_session D * DW (W:=W) := (w.1, w.2.2).

(** An operation of the consumer. *)
Definition on_consumer {A} (f : DW (W:=W) → A * DW (W:=W)) (s : whole) : A * whole :=
  let '(x, dw) := f (client_of s) in (x, (s.1, (s.2.1, (s.2.2.1, dw)))).
Definition in_world (c : Consumer (DW (W:=W))) : Consumer whole :=
  {| Connect := on_consumer (Connect c); SubscribeToTopic := on_consumer (SubscribeToTopic c);
     Poll := λ t, on_consumer (Poll c t); StoreOffset := λ t p o, on_consumer (StoreOffset c t p o);
     CommitStored := on_consumer (CommitStored c); MaybeCommitStored := on_consumer (MaybeCommitStored c);
     SetOnRevoke := λ s, (on_consumer (λ dw, (tt, SetOnRevoke c dw)) s).2;
     ConsumerApi.Close := on_consumer (ConsumerApi.Close c) |}.
Definition newConsumer_in_world (new : DriverConfig → DW (W:=W) → (Consumer (DW (W:=W)) + goerr) * DW (W:=W))
    (dc : DriverConfig) (s : whole) : (Consumer whole + goerr) * whole :=
  let '(r, s) := on_consumer (new dc) s in
  (match r with inl c => inl (in_world c) | inr err => inr err end, s).

(** An operation of the rest of the world. *)
Definition on_rest {A} (f : R → A * R) (s : R * DW (W:=W)) : A * (R * DW (W:=W)) :=
  let '(x, r) := f s.1 in (x, (r, s.2)).

(** Application code, the context and the clock leave the library's state alone. *)
Record leaves_alone (env : Env whole) (cfg : Config (W:=whole)) (rcfg : RetryConfig below D) : Prop := {
  la_done s : private (ctx_Done env s).2.2 = private s.2;
  la_now s : private (time_Now env s).2.2 = private s.2;
  la_handler h m p s : cfg_Handler cfg = Some h → private (h m p s).2.2 = private s.2;
  la_batch h b s : cfg_BatchHandler cfg = Some h → private (h b s).2.2 = private s.2;
  la_backoff fn a w : CustomBackoff rcfg = Some fn → private (fn a w).2 = private w;
  la_producer factory c w : rc_newProducer rcfg = Some factory → private (factory c w).2 = private w;
}.
End world.
Arguments below W D R {_}. Arguments whole W D R {_}.

Section end_to_end.
Context {W D R : Type} `{KfkCodes} `{KfkConsumer W} `{!KfkConfigLaws} `{GoRangeLaws} `{FloatOverflow} `{FmtFloat}.
Context (log : log_line → W → W) (offsets : W → string * Z → Z → Prop) `{!KfkOffsetLaws log offsets}.
Context (pnew : ProducerConfig → R → option goerr * R) (now : R → Time * R) (say : log_line → R → R).
Context (rcfg : RetryConfig (below W D R) D).

(** The strategy's environment: the session, and the rest of the world. *)
Definition renv : RetryEnv (below W D R) delivery_ref D :=
  session_env (λ c, on_rest (pnew c)) (on_rest now) (λ l s, (say l s.1, s.2)).
Abbreviation sent := (session_sent (D:=D) (R:=R * DW (W:=W))).
Abbreviation acked := (session_acked (D:=D) (R:=R * DW (W:=W))).

Definition held (s : whole W D R) : string * Z → Z → Prop := driver_offsets offsets (client_of s).
Definition whole_inv (s : whole W D R) : Prop := driver_inv log offsets (client_of s).

Lemma quiet_on_consumer {A} (f : DW (W:=W) → A * DW (W:=W)) s :
  quiet (driver_offsets offsets) (driver_inv log offsets) (client_of s) (f (client_of s)).2 →
  quiet held whole_inv s (on_consumer f s).2.
Proof. unfold quiet, held, whole_inv, on_consumer. by destruct (f (client_of s)). Qed.
Lemma quiet_same (s s' : whole W D R) : client_of s' = client_of s → quiet held whole_inv s s'.
Proof. intros E. unfold quiet, held, whole_inv. rewrite E. by intros ?. Qed.

Lemma in_world_keeps c : OffsetLaws (driver_offsets offsets) (driver_inv log offsets) c →
  OffsetLaws held whole_inv (in_world c).
Proof.
  intros Hc. constructor; try (intros; apply quiet_on_consumer, Hc).
  - intros t p o w Hi. cbn [in_world StoreOffset]. unfold held, whole_inv, on_consumer in *.
    pose proof (StoreOffset_stores _ _ t p o (client_of w) Hi) as Hs.
    by destruct (StoreOffset c t p o (client_of w)) as [x dw].
Qed.

(** The strategy leaves the consumer alone. *)
Definition same_consumer (w w' : below W D R) : Prop := w'.2.2 = w.2.2.
#[local] Instance same_consumer_preorder : PreOrder same_consumer.
Proof. unfold same_consumer. split; [done|]. intros w1 w2 w3 ? ?. congruence. Qed.
Lemma consumer_alone env cfg : leaves_alone env cfg rcfg →
  env_moves renv rcfg same_consumer.
Proof.
  intros Hla. assert (∀ w w' : below W D R, private w' = private w → w'.2.2 = w.2.2) as Hp.
  { unfold private. by intros w w' [= _ ?]. }
  constructor; cbn; unfold same_consumer, outside, inside, on_rest.
  - intros r w. done.
  - intros d w. done.
  - intros w. by destruct (now w.2.1).
  - done.
  - intros fn a w Hfn. by eapply Hp, la_backoff.
  - intros factory c w [->|Hf]; [|by eapply Hp, la_producer]. by destruct (pnew c w.2.1).
  - done.
  - intros t w. done.
Qed.
Lemma strategy_apart env cfg : leaves_alone env cfg rcfg → apart rcfg.
Proof.
  intros Hla. split.
  - intros fn a w Hfn. pose proof (la_backoff _ _ _ Hla fn a w Hfn) as Hp. by injection Hp.
  - intros factory c w Hf. pose proof (la_producer _ _ _ Hla factory c w Hf) as Hp. by injection Hp.
Qed.

(** Nothing but the driver touches the client's offsets. *)
Lemma whole_quiet env cfg : leaves_alone env cfg rcfg →
  cfg_ErrorStrategy cfg = Some (RetryStrategy renv rcfg) →
  application_quiet held whole_inv env cfg.
Proof.
  intros Hla Hst. pose proof (consumer_alone env cfg Hla) as Hm.
  assert (∀ s s' : whole W D R, private s'.2 = private s.2 → quiet held whole_inv s s') as Hp.
  { unfold private. intros s s' [= _ ?]. by apply quiet_same. }
  assert (∀ s s' : whole W D R, s'.2.2.2 = s.2.2.2 → quiet held whole_inv s s') as Hc.
  { intros s s'. apply quiet_same. }
  destruct Hla. constructor; try (intros; by eauto).
  - intros s ms f w [= <-]%(eq_trans (eq_sym Hst)). apply Hc.
    apply (HandleError_moves renv rcfg same_consumer Hm).
  - intros s i c ic w [= <-]%(eq_trans (eq_sym Hst)) [= <- <-]. split; apply Hc.
    + apply (Initialize_moves renv rcfg same_consumer Hm).
    + apply (Close_moves renv rcfg same_consumer Hm).
  - intros s l lg w [= <-]%(eq_trans (eq_sym Hst)) [= <-]. by apply Hc.
Qed.
Lemma whole_factory cfg : accepted cfg →
  cfg_newConsumer cfg = Some (newConsumer_in_world (driver_New log)) → factory_keeps held whole_inv cfg.
Proof.
  intros Hacc Hnew n s Hn. rewrite Hnew in Hn. injection Hn as <-.
  destruct (driver_New_keeps log offsets (Subscriber.driverConfig cfg) (client_of s) (accepted_offset_store cfg Hacc))
    as [Hq Hd].
  unfold newConsumer_in_world.
  pose proof (quiet_on_consumer (driver_New log (Subscriber.driverConfig cfg)) s Hq) as Hq'.
  assert ((on_consumer (driver_New log (Subscriber.driverConfig cfg)) s).1 =
          (driver_New log (Subscriber.driverConfig cfg) (client_of s)).1) as E.
  { unfold on_consumer. by destruct (driver_New _ _ _). }
  destruct (on_consumer _ s) as [x s']. cbn [fst snd] in *. subst x. split; [exact Hq'|].
  destruct (driver_New _ _ _) as [[c|err] dw]; [|done]. cbn in *. intros d [= <-]. by apply in_world_keeps, Hd.
Qed.

(** Nothing but the strategy touches the publisher. *)
Lemma whole_bystander env cfg : leaves_alone env cfg rcfg →
  cfg_newConsumer cfg = Some (newConsumer_in_world (driver_New log)) → bystander sent acked env cfg.
Proof.
  intros Hla Hnew.
  assert (∀ w w' : below W D R, w'.1 = w.1 → grows sent acked w w') as Hs.
  { intros w w' E. unfold grows, session_sent, session_acked. by rewrite E. }
  assert (∀ w w' : below W D R, private w' = private w → grows sent acked w w') as Hp.
  { unfold private. intros w w' [= ? _]. by apply Hs. }
  assert (∀ A (f : DW (W:=W) → A * DW (W:=W)) s, grows sent acked s.2 (on_consumer f s).2.2) as Hc.
  { intros A f s. apply Hs. unfold on_consumer. by destruct (f (client_of s)). }
  destruct Hla. constructor; try (intros; by eauto).
  intros n dc s Hn. assert (n = newConsumer_in_world (driver_New log)) as -> by (destruct cfg; simpl in *; congruence).
  unfold newConsumer_in_world.
  pose proof (Hc _ (driver_New log dc) s) as Hg.
  destruct (on_consumer (driver_New log dc) s) as [[c|err] s']; cbn [fst snd] in *; (split; [exact Hg|]); [|done].
  intros d [= <-]. split_and!; intros; apply Hc.
Qed.
End end_to_end.

(** From a committed offset back to the handler or the broker. *)
Lemma committed_covered {W D R} `{KfkCodes} `{KfkConsumer W} `{!KfkConfigLaws} `{GoRangeLaws}
    `{FloatOverflow} `{FmtFloat} (log : log_line → W → W) (offsets : W → string * Z → Z → Prop)
    `{!KfkOffsetLaws log offsets} (pnew : ProducerConfig → R → option goerr * R) now say
    (rcfg : RetryConfig (below W D R) D) (env : Env (whole W D R)) cfg fuel r session rest w t p x :
  accepted cfg → cfg_newConsumer cfg = Some (newConsumer_in_world (driver_New log)) →
  cfg_ErrorStrategy cfg = Some (RetryStrategy (renv pnew now say) rcfg) →
  leaves_alone env cfg rcfg → (∀ tp o, ¬ offsets w tp o) →
  let s := (Start env cfg fuel (created (r, (session, (rest, (new_consumer, w)))))).2 in
  offsets (client_of (st_world s)).2 (t, p) x →
  ∃ o err pre suf,
    x = wrap64 (o + 1) ∧ st_trace s = pre ++ EvStore t p o err :: suf ∧
    (0 < delivered (t, p, o) pre)%nat ∧
    let safe q := handler_accepted q pre ∨
                  copied (renv pnew now say) rcfg session_sent session_acked q (st_world s).2 in
    (∀ off, off ≤ o → (0 < delivered (t, p, off) pre)%nat → safe (t, p, off)) ∧
    (∀ elsewhere, redelivers elsewhere (st_trace s) → ∀ off, off ≤ o → polled (t, p, off) pre →
       safe (t, p, off) ∨ elsewhere (t, p, off)).
Proof.
  intros Hacc Hnew Hst Hla Hnone s Hx.
  destruct (offsets_accounted (held offsets) (whole_inv log offsets) env cfg fuel
              (r, (session, (rest, (new_consumer, w)))) t p x) as (o & err & pre & suf & -> & Htr & Hd & _).
  - by apply (whole_quiet log offsets pnew now say rcfg).
  - by apply whole_factory.
  - by intros [=].
  - exact Hnone.
  - exact Hx.
  - exists o, err, pre, suf. split; [done|]. split; [done|]. split; [done|]. cbn zeta.
    pose proof (session_laws (λ c, on_rest (pnew c)) (on_rest now) (λ l s, (say l s.1, s.2)) rcfg
                  (strategy_apart rcfg env cfg Hla)) as Hl.
    apply (store_covered (renv pnew now say) rcfg session_sent session_acked env cfg fuel _ pre t p o err suf Hst).
    + by apply (whole_bystander log rcfg).
    + exact Htr.
Qed.

(** C1 (end to end) The whole consumer, from a configuration the subscriber's [New]
    accepts, with the library's Kafka consumer, its retry strategy, its publisher and
    the producer below that: whatever librdkafka holds as an offset for the group, or
    has committed, in the state a run leaves it in, is one past a record that was
    delivered; and each record of that partition at or below it that was delivered
    since the last revocation was accepted by the application's handler, or has a copy,
    with its key, payload and failure, on the retry or the dead-letter topic, which the
    broker has acknowledged: the client has emitted a delivery report without an error
    for it, before anything else about it.  So is each record of the partition at or
    below it that was ever polled before, a batch dropped at a revocation included,
    where the broker hands over again what was revoked unstored ([redelivers]), unless
    another member of the group has committed past it; then a restart from the
    committed offset loses nothing.  The application's code and the clock are only kept
    from the library's own state; of librdkafka, its documented offset store and
    delivery reports are used. *)
Theorem committed_not_lost {W D R} `{KfkCodes} `{KfkConsumer W} `{!KfkConfigLaws} `{GoRangeLaws}
    `{FloatOverflow} `{FmtFloat} (log : log_line → W → W) (offsets : W → string * Z → Z → Prop)
    `{!KfkOffsetLaws log offsets} (pnew : ProducerConfig → R → option goerr * R) now say
    (rcfg : RetryConfig (below W D R) D) (env : Env (whole W D R)) cfg fuel r session rest w t p x :
  accepted cfg → cfg_newConsumer cfg = Some (newConsumer_in_world (driver_New log)) →
  cfg_ErrorStrategy cfg = Some (RetryStrategy (renv pnew now say) rcfg) →
  leaves_alone env cfg rcfg → (∀ tp o, ¬ offsets w tp o) →
  let s := (Start env cfg fuel (created (r, (session, (rest, (new_consumer, w)))))).2 in
  offsets (client_of (st_world s)).2 (t, p) x →
  ∃ o err pre suf,
    x = wrap64 (o + 1) ∧ st_trace s = pre ++ EvStore t p o err :: suf ∧
    (0 < delivered (t, p, o) pre)%nat ∧
    let safe q := handler_accepted q pre ∨
                  copied (renv pnew now say) rcfg session_sent session_acked q (st_world s).2 in
    (∀ off, off ≤ o → (0 < delivered (t, p, off) pre)%nat → safe (t, p, off)) ∧
    (∀ elsewhere, redelivers elsewhere (st_trace s) → ∀ off, off ≤ o → polled (t, p, off) pre →
       safe (t, p, off) ∨ elsewhere (t, p, off)).
Proof. exact (committed_covered log offsets pnew now say rcfg env cfg fuel r session rest w t p x). Qed.

(** ** Witness: a handler that fails its one record

    The context is open for four checks; the record of offset 4 fails, is written
    to the retry topic and acknowledged, and offset 5 is committed. *)
Module Ex_whole.
#[local] Existing Instance range_canonical.
#[local] Existing Instance range_canonical_laws.
#[local] Existing Instances Ex_kafka.codes Ex_kafka.config_ Ex_kafka.client Ex_kafka.config_laws Ex_offsets.laws.
#[local] Instance overflow : FloatOverflow := float_overflow_amd64.
#[local] Instance fmt : FmtFloat := λ _, "x".

Definition world : Type := whole Ex_kafka.kafka unit nat.
Definition pnew (c : ProducerConfig) (r : nat) : option goerr * nat := (None, r).
Definition clock (r : nat) : Time * nat := (zero_Time, r).
Definition nolog (l : log_line) (r : nat) : nat := r.
Definition rcfg : RetryConfig (below Ex_kafka.kafka unit nat) unit :=
  mkRetryConfig "orders.retry" "orders.dlq" 3 (1 * Second) (30 * Second) (float_of_Z 2) None None None.
Definition env : Env world :=
  {| ctx_Done := λ '(r, (p, (ticks, dw))),
       match ticks with O => (true, (r, (p, (O, dw)))) | S n => (false, (r, (p, (n, dw)))) end;
     time_Now := λ s, (zero_Time, s) |}.
Definition handler : Handler world := λ _ _ s,
  ({| hc_outcome := Returned (Some Ex_retry.failure); hc_writes := None |}, s).
Definition cfg : Config (W:=world) :=
  mkConfig "orders" ["broker:9092"] "billing" (Some handler) None ModeSingleMessage 0 0
    (100 * Millisecond) 0 (Some (RetryStrategy (renv pnew clock nolog) rcfg)) (Some ∅)
    (Some (newConsumer_in_world (driver_New Ex_offsets.nolog))) Nop.
Lemma whole_accepted : accepted cfg.
Proof.
  constructor; simpl; try done; try (by eexists); unfold Millisecond; try lia.
  - split; [done|]. by intros ?%list_elem_of_singleton.
  - left. by split_and!.
  - exists ∅. split; [done|]. intros k. rewrite lookup_empty. by intros [].
Qed.
Lemma alone : leaves_alone env cfg rcfg.
Proof.
  constructor; try done.
  - by intros [r [p [[|n] dw]]].
  - by intros h m p s [= <-].
Qed.
Definition calls : list (list stack_action) := [Ex_session.send 0; Ex_session.report 0 41].
Definition final : world :=
  st_world (Start env cfg 6
    (created (unused, (Ex_session.opened calls, (4%nat, (new_consumer, Ex_kafka.k0)))))).2.
Lemma committed : bool_decide (Ex_kafka.k_committed (client_of final).2 !! ("orders", 0) = Some 5) = true.
Proof. by vm_compute. Qed.

Lemma handed_over_again : redelivers (λ _, False) (st_trace (Start env cfg 6
  (created (unused, (Ex_session.opened calls, (4%nat, (new_consumer, Ex_kafka.k0)))))).2).
Proof. apply redelivers_check. vm_compute. reflexivity. Qed.

Lemma committed_not_lost_witness : ∃ o err pre suf,
  5 = wrap64 (o + 1) ∧
  st_trace (Start env cfg 6
    (created (unused, (Ex_session.opened calls, (4%nat, (new_consumer, Ex_kafka.k0)))))).2 =
    pre ++ EvStore "orders" 0 o err :: suf ∧
  (0 < delivered ("orders", 0%Z, o) pre)%nat ∧
  ∀ off, off ≤ o → polled ("orders", 0, off) pre →
    (handler_accepted ("orders", 0, off) pre ∨
     copied (renv pnew clock nolog) rcfg session_sent session_acked ("orders", 0, off) final.2) ∨ False.
Proof.
  destruct (committed_not_lost Ex_offsets.nolog Ex_offsets.offsets pnew clock nolog rcfg env cfg 6 unused
           (Ex_session.opened calls) 4%nat Ex_kafka.k0 "orders" 0 5
           whole_accepted eq_refl eq_refl alone Ex_offsets.k0_empty (or_intror (bool_decide_eq_true_1 _ committed)))
    as (o & err & pre & suf & Hx & Htr & Hd & _ & Hall).
  exists o, err, pre, suf. split; [exact Hx|]. split; [exact Htr|]. split; [exact Hd|].
  exact (Hall (λ _, False) handed_over_again).
Defined.
End Ex_whole.
