(* ===== verification/Facade.v ===== *)
(** * The public names of the subscribe package

    subscribe/metadata.go, handler.go and strategy.go: what an application calls,
    one call each into the packages under internal/. *)
From S2P Require Import Prelude GoStrings GoErrors GoTime LogCode GoAny Types Headers ConsumerApi.
From S2P Require Import Strategies Retry.

(** ** metadata.go *)
Definition MessageFromContext (ctx : Context_) : option Message := Headers.MessageFromContext ctx.
(** The values are spelled out in the source, not aliased. *)
Definition public_headers : list string :=
  ["easykafka.retry.attempt"; "easykafka.retry.time"; "easykafka.retry.step"; "easykafka.error.code";
   "easykafka.error.message"; "easykafka.original.topic"; "easykafka.original.partition";
   "easykafka.original.offset"; "easykafka.failed.at"].
Definition GetRetryAttempt (msg : option Message) : Z := Headers.GetRetryAttempt msg.
Definition GetRetryTime (msg : option Message) : Time := Headers.GetRetryTime msg.
Definition WaitUntilRetryTime (now : Time) (race : Z → option goerr) (msg : option Message) :
    option Z * option goerr := Headers.WaitUntilRetryTime now race msg.
Definition GetRetryStep (msg : option Message) : Z := Headers.GetRetryStep msg.
Definition GetErrorCode (msg : option Message) : string := Headers.GetErrorCode msg.
Definition GetOriginalTopic (msg : option Message) : string := Headers.GetOriginalTopic msg.

(** ** handler.go *)
Definition NewBatch (msgs : list Message) : Batch := Types.NewBatch msgs.
Definition ErrPermanent : goerr := Types.ErrPermanent.
Definition ErrUnspecified : goerr := Types.ErrUnspecified.

(** ** strategy.go *)
Definition ErrStrategyInUse : goerr := Retry.ErrStrategyInUse.
Definition NewSkipStrategy {W} (log : log_line → W → W) : ErrorStrategy W := Strategies.NewSkipStrategy log.
Definition NewFailFastStrategy {W} (log : log_line → W → W) : ErrorStrategy W :=
  Strategies.NewFailFastStrategy log.
(** A value of the interface [ErrorStrategy]: nil, or one that holds a
    [*RetryStrategy], which may be a nil pointer; the interface is then not nil. *)
Inductive interface_value (W D : Type) : Type :=
  | INil
  | IRetry (pointer : option (RetryConfig W D)).
Arguments INil {W D}. Arguments IRetry {W D}.
(** The pointer the internal constructor returns becomes an interface, on an
    error too. *)
Definition NewRetryStrategy {W D} (options : list (RetryOption W D)) :
    interface_value W D * option goerr :=
  match Retry.NewRetryStrategy options with
  | inl cfg => (IRetry (Some cfg), None)
  | inr err => (IRetry None, Some err)
  end.

(** ** Facts *)

(** The public header names are the ones the library writes. *)
Lemma public_headers_internal : public_headers = library_headers.
Proof. reflexivity. Qed.
(** What [NewRetryStrategy] returns along with an error is not a nil interface. *)
Lemma failed_strategy_not_nil {W D} (options : list (RetryOption W D)) err :
  (NewRetryStrategy options).2 = Some err → (NewRetryStrategy options).1 ≠ INil.
Proof. unfold NewRetryStrategy. by destruct (Retry.NewRetryStrategy options). Qed.
