(* ===== verification/PlayHandler.v ===== *)
(** * The playground's handler (examples/playground/cmd/consumer/handler.go)

    Both handlers of the demonstration consumer.  Each carries out the script in a
    message's payload, through the library's public names. *)
From stdpp Require Import sorting.
From S2P Require Import Prelude GoStrings GoTime GoText GoErrors Types Headers ConsumerApi Facade Script.

(** What the handlers call in the [time] and [fmt] packages: the clock, the select
    of [WaitUntilRetryTime], [time.Sleep], and a write to standard output. *)
Record PlayEnv (W : Type) : Type := {
  pe_now : ST W Time;
  pe_select : Z → ST W (option goerr);
  pe_Sleep : Z → W → W;
  pe_stdout : string → W → W;
}.
Arguments pe_now {W}. Arguments pe_select {W}. Arguments pe_Sleep {W}. Arguments pe_stdout {W}.

(** [handler].  The printer is the environment's [pe_stdout]; its mutex makes a
    line one write. *)
Record handler : Type := mkHandler { h_name : string; h_processingDelay : Z }.
(** [resolved]; a failed one has the zero outcome. *)
Record resolved : Type := mkResolved { r_msg : Message; r_outcome : Outcome; r_err : option goerr }.
Definition zero_Outcome : Outcome := mkOutcome EmptyString 0 EmptyString EmptyString.

(** [resolve]: the index of [At] can be out of range, and panics. *)
Definition resolve (msg : Message) : resolved + string :=
  match Parse (msg_Payload msg) with
  | inr err => inl (mkResolved msg zero_Outcome (Some err))
  | inl s =>
      match At s (Facade.GetRetryAttempt (Some msg)) with
      | inl outcome => inl (mkResolved msg outcome None)
      | inr text => inr text
      end
  end.
Definition tokenOf (r : resolved) : string :=
  match r_err r with Some _ => "<malformed>" | None => Token (r_outcome r) end.
Definition is_kind_of (r : resolved) (k : Kind) : bool := String.eqb (Kind_ (r_outcome r)) k.

(** [%s] of a byte slice. *)
Definition verb_s (b : bytes) : string := default EmptyString b.

(** The failure [carryOut] reports. *)
Definition verdict_of (r : resolved) : option Failure :=
  let o := r_outcome r in
  match r_err r with
  | Some err =>
      Some {| f_Err := Some (EErrorf (error_text Facade.ErrPermanent +:+ ": malformed payload: " +:+
                                      error_text err) [Facade.ErrPermanent]);
              f_Step := 0; f_Code := EmptyString |}
  | None =>
      if is_kind_of r Ok then None
      else if is_kind_of r Perm then
        Some {| f_Err := Some (EErrorf (error_text Facade.ErrPermanent +:+ ": scripted permanent failure")
                                 [Facade.ErrPermanent]);
                f_Step := Step o; f_Code := Code o |}
      else if is_kind_of r Nil then Some {| f_Err := None; f_Step := Step o; f_Code := Code o |}
      else Some {| f_Err := Some (errors_New "scripted failure"); f_Step := Step o; f_Code := Code o |}
  end.
(** The token and the result [carryOut] logs. *)
Definition result_of (r : resolved) : string :=
  match r_err r with
  | Some err => "perm (" +:+ error_text err +:+ ")"
  | None =>
      if is_kind_of r Ok then "ok"
      else if is_kind_of r Perm then "perm"
      else if is_kind_of r Nil then "nil (failure without an error)"
      else if is_kind_of r BatchKo then "ko (batchko acts as ko outside batch mode)"
      else "ko"
  end.

(** [slices.Contains] and [append]. *)
Definition add_partition (partitions : list Z) (p : Z) : list Z :=
  if bool_decide (p ∈ partitions) then partitions else partitions ++ [p].
Definition partitions_of (its : list BatchItem) : list Z :=
  merge_sort Z.le (foldl (λ ps it, add_partition ps (msg_Partition (item_Message it))) [] its).
(** [%v] of a slice of numbers. *)
Definition verb_v (l : list Z) : string := "[" +:+ Join (Itoa <$> l) " " +:+ "]".

(** [now]: [time.Time.Format] with the layout "15:04:05.000". *)
Definition Format_clock (t : Time) : string :=
  let sec := (unix_ns t / Second + zone t) mod 86400 in
  appendInt (sec / 3600) 2 +:+ ":" +:+ appendInt (sec / 60 mod 60) 2 +:+ ":" +:+
  appendInt (sec mod 60) 2 +:+ "." +:+ appendInt (unix_ns t mod Second / Millisecond) 3.

Section handler.
Context {W : Type} (env : PlayEnv W) (h : handler).

(** *** Output *)

Definition print (text : string → string) : ST W unit :=
  t ← pe_now env; modify (pe_stdout env (text (Format_clock t))).
Definition line (msg : Message) (token result : string) : ST W unit :=
  let code := match Facade.GetErrorCode (Some msg) with EmptyString => "-" | code => code end in
  print (λ now, now +:+ " [" +:+ h_name h +:+ "] key=" +:+ verb_s (msg_Key msg) +:+
    " topic=" +:+ msg_Topic msg +:+ " partition=" +:+ Itoa (msg_Partition msg) +:+
    " offset=" +:+ Itoa (msg_Offset msg) +:+
    " attempt=" +:+ Itoa (Facade.GetRetryAttempt (Some msg)) +:+
    " step=" +:+ Itoa (Facade.GetRetryStep (Some msg)) +:+ " code=" +:+ code +:+
    " token=" +:+ token +:+ " -> " +:+ result +:+ newline).
Definition batchLine (its : list BatchItem) : ST W unit :=
  print (λ now, now +:+ " [" +:+ h_name h +:+ "] batch size=" +:+ Itoa (Z.of_nat (length its)) +:+
    " partitions=" +:+ verb_v (partitions_of its) +:+ newline).

(** *** Waiting *)

(** [subscribe.WaitUntilRetryTime(ctx, msg)]: the clock is read if the message has
    a retry time, and the select entered if that is to come. *)
Definition wait_from (msg : Message) (now : Time) : ST W (option goerr) := λ w,
  let '(waited, err) := Facade.WaitUntilRetryTime now (λ d, (pe_select env d w).1) (Some msg) in
  (err, match waited with Some d => (pe_select env d w).2 | None => w end).
Definition wait_until (msg : Message) : ST W (option goerr) :=
  if IsZero (Facade.GetRetryTime (Some msg)) then mret None
  else now ← pe_now env; wait_from msg now.
Definition delay : ST W unit :=
  if 0 <? h_processingDelay h then modify (pe_Sleep env (h_processingDelay h)) else mret tt.

(** *** The handlers *)

Definition carryOut (r : resolved) : ST W (option Failure) :=
  line (r_msg r) (match r_err r with Some _ => "<malformed>" | None => Token (r_outcome r) end) (result_of r) ;;
  mret (verdict_of r).

Definition scripted_panic (msg : Message) : string := "scripted panic for key " +:+ verb_s (msg_Key msg).

(** How a call ends; neither handler writes into a message. *)
Definition returns (f : option Failure) : handler_call :=
  {| hc_outcome := Returned f; hc_writes := None |}.
Definition panics (text : string) : handler_call :=
  {| hc_outcome := Panicked text; hc_writes := None |}.

Definition handle (msg : option Message) (_ : bytes) : ST W handler_call :=
  match Facade.MessageFromContext {| ctx_message := msg |} with
  | None =>
      mret (returns (Some {| f_Err := Some (errors_New "no message on the handler context");
                             f_Step := 0; f_Code := EmptyString |}))
  | Some msg =>
      err ← wait_until msg;
      match err with
      | Some err =>
          line msg "-" "interrupted while waiting for its retry time" ;;
          mret (returns (Some {| f_Err := Some err; f_Step := 0; f_Code := EmptyString |}))
      | None =>
          delay ;;
          match resolve msg with
          | inr text => mret (panics text)
          | inl r =>
              if negb (bool_decide (is_Some (r_err r))) && is_kind_of r Panic then
                line (r_msg r) (Token (r_outcome r)) "panic" ;;
                mret (panics (scripted_panic (r_msg r)))
              else f ← carryOut r; mret (returns f)
          end
      end
  end.

(** The first loop of [handleBatch]. *)
Fixpoint wait_all (its : list BatchItem) : ST W (option goerr) :=
  match its with
  | [] => mret None
  | item :: its =>
      err ← wait_until (item_Message item);
      match err with Some err => mret (Some err) | None => wait_all its end
  end.
(** The second: every item, or the panic of the first that cannot be resolved. *)
Fixpoint resolve_all (its : list BatchItem) : list resolved + string :=
  match its with
  | [] => inl []
  | item :: its =>
      match resolve (item_Message item) with
      | inr text => inr text
      | inl r => match resolve_all its with inr text => inr text | inl rs => inl (r :: rs) end
      end
  end.
(** The item that decides the whole batch: the first [BatchKo] or [Panic]. *)
Definition decides (r : resolved) : bool :=
  negb (bool_decide (is_Some (r_err r))) && (is_kind_of r BatchKo || is_kind_of r Panic).
Definition all_lines (all : list resolved) (why : string) : ST W unit :=
  st_iter (λ each, line (r_msg each) (tokenOf each) ("batch failed (" +:+ why +:+ ")")) all.

Definition batch_returns (fails : list (nat * Failure)) (f : option Failure) : batch_call :=
  {| bc_fails := fails; bc_writes := []; bc_outcome := Returned f |}.
Definition batch_panics (text : string) : batch_call :=
  {| bc_fails := []; bc_writes := []; bc_outcome := Panicked text |}.

(** The last loop: the [item.Fail] calls, by item. *)
Fixpoint carry_all (i : nat) (all : list resolved) : ST W (list (nat * Failure)) :=
  match all with
  | [] => mret []
  | r :: all =>
      f ← carryOut r;
      fails ← carry_all (S i) all;
      mret (match f with Some f => (i, f) :: fails | None => fails end)
  end.

Definition handleBatch (batch : Batch) : ST W batch_call :=
  let its := Items batch in
  batchLine its ;;
  err ← wait_all its;
  match err with
  | Some err =>
      print (λ now, now +:+ " [" +:+ h_name h +:+ "] batch interrupted while waiting for a retry time" +:+ newline) ;;
      mret (batch_returns [] (Some {| f_Err := Some err; f_Step := 0; f_Code := EmptyString |}))
  | None =>
      delay ;;
      match resolve_all its with
      | inr text => mret (batch_panics text)
      | inl all =>
          match find decides all with
          | Some r =>
              if is_kind_of r BatchKo then
                all_lines all ("batchko on " +:+ verb_s (msg_Key (r_msg r))) ;;
                mret (batch_returns [] (Some
                  {| f_Err := Some (EErrorf ("scripted batch failure (batchko on " +:+
                                             verb_s (msg_Key (r_msg r)) +:+ ")") []);
                     f_Step := Step (r_outcome r); f_Code := Code (r_outcome r) |}))
              else
                all_lines all ("panic on " +:+ verb_s (msg_Key (r_msg r))) ;;
                mret (batch_panics (scripted_panic (r_msg r)))
          | None => fails ← carry_all 0 all; mret (batch_returns fails None)
          end
      end
  end.
End handler.

(** ** Lemmas *)

(** What a message resolves to. *)
Lemma resolve_spec m :
  match resolve m with
  | inl r => r_msg r = m ∧
      match Parse (msg_Payload m) with
      | inr err => r_err r = Some err
      | inl s => r_err r = None ∧ At s (Facade.GetRetryAttempt (Some m)) = inl (r_outcome r)
      end
  | inr text => ∃ s, Parse (msg_Payload m) = inl s ∧ At s (Facade.GetRetryAttempt (Some m)) = inr text
  end.
Proof. unfold resolve. destruct (Parse _) as [s|err]; [|done]. destruct (At s _) eqn:E; [done|eauto]. Qed.
Lemma resolve_attempt m : 0 ≤ Facade.GetRetryAttempt (Some m) → ∃ r, resolve m = inl r.
Proof.
  intros Ha. unfold resolve. destruct (Parse _) as [s|err] eqn:E; [|eauto].
  apply Parse_spec in E as (Hne & _ & _). destruct (At_spec s _ Hne Ha) as (o & -> & _). eauto.
Qed.
(** A negative attempt finds no outcome. *)
Lemma resolve_negative m s : Parse (msg_Payload m) = inl s → Facade.GetRetryAttempt (Some m) < 0 →
  resolve m = inr (index_panic (Facade.GetRetryAttempt (Some m))).
Proof. intros E Ha. unfold resolve. rewrite E, At_negative; [done| |done]. by apply Parse_spec in E as (? & _). Qed.

Lemma permanent_scripted err msg : errors_Is (Some (EErrorf msg [Facade.ErrPermanent])) Types.ErrPermanent = true ∧
  errors_Is (Some (errors_New err)) Types.ErrPermanent = false.
Proof. done. Qed.
(** What the verdict of an outcome says. *)
Lemma verdict_spec r : r_err r = None →
  (Kind_ (r_outcome r) = Ok → verdict_of r = None) ∧
  (Kind_ (r_outcome r) ≠ Ok → ∃ f, verdict_of r = Some f ∧
     f_Step f = Step (r_outcome r) ∧ f_Code f = Code (r_outcome r) ∧
     (errors_Is (f_Err f) Types.ErrPermanent = true ↔ Kind_ (r_outcome r) = Perm) ∧
     (f_Err f = None ↔ Kind_ (r_outcome r) = Nil)).
Proof.
  intros E. unfold verdict_of, is_kind_of. rewrite E. generalize (Kind_ (r_outcome r)). intros k.
  split; [by intros ->|]. intros Hne. rewrite (proj2 (String.eqb_neq _ _) Hne).
  destruct (String.eqb_spec k Perm) as [->|]; [eexists; by split_and!|].
  destruct (String.eqb_spec k Nil) as [->|]; [eexists; by split_and!|]. eexists. split_and!; by try split.
Qed.
Lemma verdict_malformed r err : r_err r = Some err →
  ∃ f, verdict_of r = Some f ∧ errors_Is (f_Err f) Types.ErrPermanent = true.
Proof. intros E. unfold verdict_of. rewrite E. by eexists. Qed.

Section handled.
Context {W : Type} (env : PlayEnv W) (h : handler).

(** The call a message that need not wait any longer comes to. *)
Definition scripted_call (m : Message) : handler_call :=
  match resolve m with
  | inr text => panics text
  | inl r => if negb (bool_decide (is_Some (r_err r))) && is_kind_of r Panic then panics (scripted_panic m)
             else returns (verdict_of r)
  end.
Lemma handle_spec m p w : (handle env h (Some m) p w).1 =
  match (wait_until env m w).1 with
  | Some err => returns (Some {| f_Err := Some err; f_Step := 0; f_Code := EmptyString |})
  | None => scripted_call m
  end.
Proof.
  unfold handle, scripted_call, MessageFromContext, Headers.MessageFromContext. cbn [ctx_message].
  unfold mbind at 1, ST_bind at 1. destruct (wait_until env m w) as [[err|] w1]; cbn [fst].
  { unfold mbind, ST_bind. by destruct (line _ _ _ _ _ w1). }
  unfold mbind at 1, ST_bind at 1. destruct (delay env h w1) as [[] w2].
  pose proof (resolve_spec m) as Hr. destruct (resolve m) as [r|text]; [|done].
  destruct Hr as [<- _]. destruct (_ && _).
  - unfold mbind, ST_bind. by destruct (line _ _ _ _ _ w2).
  - unfold carryOut, mbind, ST_bind. by destruct (line _ _ _ _ _ w2).
Qed.

(** The [item.Fail] calls of the last loop. *)
Fixpoint fails_from (i : nat) (all : list resolved) : list (nat * Failure) :=
  match all with
  | [] => []
  | r :: all => match verdict_of r with Some f => (i, f) :: fails_from (S i) all | None => fails_from (S i) all end
  end.
Lemma carry_all_spec all : ∀ i w, (carry_all env h i all w).1 = fails_from i all.
Proof.
  induction all as [|r all IH]; intros i w; [done|]. cbn [carry_all fails_from].
  unfold carryOut, mbind, ST_bind. destruct (line _ _ _ _ _ w) as [[] w1].
  cbn. specialize (IH (S i) w1). destruct (carry_all _ _ _ _ w1) as [fails w2]. cbn in *. subst fails.
  by destruct (verdict_of r).
Qed.
(** The verdict they leave on each item. *)
Lemma verdict_before j all : ∀ i v, (j < i)%nat → verdict j (fails_from i all) v = v.
Proof.
  induction all as [|r all IH]; intros i v Hi; [done|]. cbn [fails_from].
  destruct (verdict_of r); [|apply IH; lia]. cbn [verdict foldl].
  destruct (Nat.eqb_spec i j); [lia|]. apply IH. lia.
Qed.
Lemma verdict_fails all : ∀ i j, verdict (i + j) (fails_from i all) None = r ← all !! j; verdict_of r.
Proof.
  induction all as [|r all IH]; intros i j; [done|]. cbn [fails_from]. destruct j as [|j]; cbn [lookup list_lookup].
  - rewrite Nat.add_0_r. cbn [mbind option_bind]. destruct (verdict_of r); [|by apply verdict_before; lia].
    cbn [verdict foldl]. rewrite Nat.eqb_refl. apply verdict_before. lia.
  - specialize (IH (S i) j). rewrite Nat.add_succ_comm in IH. destruct (verdict_of r); [|exact IH].
    cbn [verdict foldl]. destruct (Nat.eqb_spec i (i + S j)); [lia|]. exact IH.
Qed.

Lemma resolve_all_spec msgs : Forall (λ m, 0 ≤ Facade.GetRetryAttempt (Some m)) msgs →
  ∃ all, resolve_all (fresh_item <$> msgs) = inl all ∧ Forall2 (λ m r, resolve m = inl r) msgs all.
Proof.
  induction 1 as [|m msgs Hm _ (all & E & Hall)]; [by exists []|]. cbn [fmap list_fmap resolve_all].
  destruct (resolve_attempt m Hm) as [r Hr]. change (item_Message (fresh_item m)) with m. rewrite Hr, E. eauto.
Qed.

(** What a batch whose items all resolve, and need not wait, comes to. *)
Lemma handleBatch_spec msgs all w :
  Forall2 (λ m r, resolve m = inl r) msgs all →
  let w1 := (batchLine env h (fresh_item <$> msgs) w).2 in
  (wait_all env (fresh_item <$> msgs) w1).1 = None →
  (handleBatch env h (NewBatchFromBuffer msgs) w).1 =
  match find decides all with
  | None => batch_returns (fails_from 0 all) None
  | Some r =>
      if is_kind_of r BatchKo then
        batch_returns [] (Some {| f_Err := Some (EErrorf ("scripted batch failure (batchko on " +:+
                                             verb_s (msg_Key (r_msg r)) +:+ ")") []);
                     f_Step := Step (r_outcome r); f_Code := Code (r_outcome r) |})
      else batch_panics (scripted_panic (r_msg r))
  end.
Proof.
  intros Hall w1 Hw. unfold handleBatch, NewBatchFromBuffer.
  assert (Items (Types.NewBatch msgs) = fresh_item <$> msgs) as -> by (by rewrite Items_ok, NewBatch_spec by apply NewBatch_ok).
  assert (resolve_all (fresh_item <$> msgs) = inl all) as ->.
  { clear -Hall. induction Hall as [|m r msgs all Hr _ IH]; [done|]. cbn [fmap list_fmap resolve_all].
    change (item_Message (fresh_item m)) with m. by rewrite Hr, IH. }
  subst w1. unfold mbind at 1, ST_bind at 1. destruct (batchLine _ _ _ w) as [[] w1]. cbn [snd] in Hw.
  unfold mbind at 1, ST_bind at 1. destruct (wait_all _ _ w1) as [err w2]. cbn [fst] in Hw. subst err.
  unfold mbind at 1, ST_bind at 1. destruct (delay env h w2) as [[] w3].
  destruct (find decides all) as [r|].
  - destruct (is_kind_of r BatchKo); unfold mbind, ST_bind; by destruct (all_lines _ _ _ _ w3).
  - unfold mbind, ST_bind. pose proof (carry_all_spec all 0 w3) as Hc. destruct (carry_all _ _ _ _ w3). cbn in Hc. by rewrite Hc.
Qed.
End handled.

(** What the script of a message says for the attempt it is on. *)
Definition current (m : Message) : option Outcome :=
  match Parse (msg_Payload m) with
  | inl s => match At s (Facade.GetRetryAttempt (Some m)) with inl o => Some o | inr _ => None end
  | inr _ => None
  end.
(** It concerns the whole of a batch. *)
Definition whole_batch (m : Message) : bool :=
  match current m with Some o => is_kind (Kind_ o) [BatchKo; Panic] | None => false end.

Lemma decides_resolved m r : resolve m = inl r → decides r = whole_batch m.
Proof.
  intros E. pose proof (resolve_spec m) as Hr. rewrite E in Hr. destruct Hr as [_ Hr].
  unfold decides, whole_batch, current, is_kind_of, is_kind. destruct (Parse _) as [s|err].
  - destruct Hr as [-> ->]. cbn. by rewrite orb_false_r.
  - by rewrite Hr.
Qed.
Lemma whole_batch_current m o r : current m = Some o → resolve m = inl r → r = mkResolved m o None.
Proof.
  unfold current, resolve. destruct (Parse _) as [s|]; [|done]. destruct (At s _); [|done]. by intros [= ->] [= <-].
Qed.
Lemma scripted_alone m r : resolve m = inl r → whole_batch m = false → scripted_call m = returns (verdict_of r).
Proof.
  intros E Hm. unfold scripted_call. rewrite E. rewrite <-(decides_resolved m r E) in Hm. unfold decides in Hm.
  destruct (bool_decide _); [done|]. cbn [negb andb] in *. apply orb_false_iff in Hm as [_ ->]. done.
Qed.
Lemma find_first msgs all pre m suf : Forall2 (λ m r, resolve m = inl r) msgs all → msgs = pre ++ m :: suf →
  Forall (λ m, whole_batch m = false) pre → whole_batch m = true → ∃ r, resolve m = inl r ∧ find decides all = Some r.
Proof.
  intros Hall -> Hpre Hm. apply Forall2_app_inv_l in Hall as (apre & asuf & Hp & Hs & ->).
  apply Forall2_cons_inv_l in Hs as (r & asuf' & Hr & _ & ->). exists r. split; [done|].
  induction Hp as [|m' r' pre apre Hr' _ IH]; cbn.
  - by rewrite (decides_resolved m r Hr), Hm.
  - apply Forall_cons in Hpre as [Hm' Hpre]. rewrite (decides_resolved m' r' Hr'), Hm'. by apply IH.
Qed.
Lemma find_none msgs all : Forall2 (λ m r, resolve m = inl r) msgs all →
  Forall (λ m, whole_batch m = false) msgs → find decides all = None.
Proof.
  induction 1 as [|m r msgs all Hr _ IH]; [done|]. intros [Hm Hms]%Forall_cons. cbn.
  by rewrite (decides_resolved m r Hr), Hm, IH.
Qed.

(** ** Properties *)

(** The single-message handler carries out the token of the
    attempt its message is on: it accepts on ok, panics on panic, and otherwise
    reports the token's step and code, with the library's permanent error exactly
    for perm and without an error exactly for nil.  A payload that is no script is
    a permanent failure, an interrupted wait the context's error; a negative
    attempt makes it panic.  It never writes into the message. *)
Theorem play_handle {W} (env : PlayEnv W) h m p w :
  let call := (handle env h (Some m) p w).1 in
  hc_writes call = None ∧
  match (wait_until env m w).1, Parse (msg_Payload m) with
  | Some err, _ =>
      hc_outcome call = Returned (Some {| f_Err := Some err; f_Step := 0; f_Code := EmptyString |})
  | None, inr _ => ∃ f, hc_outcome call = Returned (Some f) ∧ errors_Is (f_Err f) Types.ErrPermanent = true
  | None, inl s =>
      let attempt := Facade.GetRetryAttempt (Some m) in
      (attempt < 0 → hc_outcome call = Panicked (index_panic attempt)) ∧
      (0 ≤ attempt → ∃ o, At s attempt = inl o ∧
         (Kind_ o = Ok → hc_outcome call = Returned None) ∧
         (Kind_ o = Panic → hc_outcome call = Panicked (scripted_panic m)) ∧
         (Kind_ o ≠ Ok → Kind_ o ≠ Panic → ∃ f, hc_outcome call = Returned (Some f) ∧
            f_Step f = Step o ∧ f_Code f = Code o ∧
            (errors_Is (f_Err f) Types.ErrPermanent = true ↔ Kind_ o = Perm) ∧
            (f_Err f = None ↔ Kind_ o = Nil)))
  end.
Proof.
  cbn zeta. rewrite handle_spec. destruct (wait_until env m w).1 as [err|]; [done|]. unfold scripted_call.
  pose proof (resolve_spec m) as Hr. pose proof (resolve_attempt m) as Ha. pose proof (resolve_negative m) as Hn.
  destruct (Parse _) as [s|err].
  - destruct (resolve m) as [r|text].
    + destruct Hr as (_ & He & Hat). rewrite He. cbn [is_Some bool_decide negb andb].
      rewrite bool_decide_eq_false_2 by (by intros []). cbn [negb andb].
      split; [by destruct (is_kind_of r Panic)|]. split; [by intros ?%(Hn s eq_refl)|]. intros _. exists (r_outcome r).
      destruct (verdict_spec r He) as [Hok Hko]. unfold is_kind_of. split; [done|]. split_and!.
      * intros E. rewrite E. cbn. by rewrite Hok.
      * intros ->. done.
      * intros Hnok Hnp. rewrite (proj2 (String.eqb_neq _ _) Hnp). destruct (Hko Hnok) as (f & -> & Hf).
        by exists f.
    + split; [done|]. split; [by intros H%(Hn s eq_refl); simplify_eq|]. intros [r ?]%Ha. done.
  - destruct (resolve m) as [r|text]; [|by destruct Hr as (s & ? & _)]. destruct Hr as [_ He].
    rewrite bool_decide_eq_true_2 by (rewrite He; eauto). split; [done|]. cbn.
    destruct (verdict_malformed r err He) as (f & -> & Hf). by exists f.
Qed.

(** C28 (batch verdicts) In batch mode each item gets the verdict the single-message
    handler would return for it, unless a token concerns the whole batch: the
    first batchko or panic then decides for all of it, batchko as a failure with
    its step and code, panic as a panic, and no item gets a verdict of its own. *)
Theorem play_batch {W} (env : PlayEnv W) h msgs w :
  Forall (λ m, 0 ≤ Facade.GetRetryAttempt (Some m)) msgs →
  (wait_all env (fresh_item <$> msgs) (batchLine env h (fresh_item <$> msgs) w).2).1 = None →
  let call := (handleBatch env h (NewBatchFromBuffer msgs) w).1 in
  (Forall (λ m, whole_batch m = false) msgs →
     bc_outcome call = Returned None ∧
     ∀ i m p w', msgs !! i = Some m → (wait_until env m w').1 = None →
       hc_outcome (handle env h (Some m) p w').1 = Returned (verdict i (bc_fails call) None)) ∧
  (∀ pre m suf o, msgs = pre ++ m :: suf → Forall (λ m, whole_batch m = false) pre → current m = Some o →
     (Kind_ o = BatchKo → bc_fails call = [] ∧ ∃ f, bc_outcome call = Returned (Some f) ∧
        f_Step f = Step o ∧ f_Code f = Code o ∧ errors_Is (f_Err f) Types.ErrPermanent = false) ∧
     (Kind_ o = Panic → bc_fails call = [] ∧ bc_outcome call = Panicked (scripted_panic m))).
Proof.
  intros Ha Hw. destruct (resolve_all_spec msgs Ha) as (all & _ & Hall). cbn zeta.
  rewrite (handleBatch_spec env h msgs all w Hall Hw). split.
  - intros Hm. rewrite (find_none msgs all Hall Hm). split; [done|]. intros i m p w' Hi Hwait.
    rewrite handle_spec, Hwait. destruct (Forall2_lookup_l _ _ _ _ _ Hall Hi) as (r & Hr & Er).
    rewrite (scripted_alone m r Er) by (by eapply Forall_lookup_1 in Hm).
    cbn [hc_outcome returns bc_fails batch_returns].
    pose proof (verdict_fails all 0 i) as Hv. cbn [Nat.add] in Hv. by rewrite Hv, Hr.
  - intros pre m suf o E Hpre Ho.
    assert (is_kind (Kind_ o) [BatchKo; Panic] = true → ∃ r, r = mkResolved m o None ∧ find decides all = Some r) as Hf.
    { intros Hk. destruct (find_first msgs all pre m suf Hall E Hpre) as (r & Hr & Hf).
      { unfold whole_batch. by rewrite Ho. }
      exists r. split; [|done]. by eapply whole_batch_current. }
    split; intros Hk; rewrite Hk in Hf; destruct (Hf eq_refl) as (r & -> & ->); unfold is_kind_of; cbn [r_outcome];
      rewrite Hk; [|done]. split; [done|]. by eexists.
Qed.

(** ** Witnesses *)
Module Ex_handler.
(** A terminal, and a timer that fires or a context that ends. *)
Definition penv (selected : option goerr) : PlayEnv (list string) :=
  {| pe_now := λ w, (zero_Time, w); pe_select := λ _ w, (selected, w);
     pe_Sleep := λ _ w, w; pe_stdout := λ text w, w ++ [text] |}.
Definition h : handler := mkHandler "retry" 0.
Definition message (payload : string) : Message :=
  {| msg_Topic := "orders"; msg_Partition := 0; msg_Offset := 4; msg_Timestamp := zero_Time;
     msg_Key := Some "k"; msg_Headers := None; msg_Payload := Some payload |}.

Lemma play_handle_witness :
  hc_outcome (handle (penv None) h (Some (message "perm")) None []).1 ≠ Returned None.
Proof.
  pose proof (play_handle (penv None) h (message "perm") None []) as Hh.
  cbn zeta in Hh. destruct Hh as [_ Hh].
  assert ((wait_until (penv None) (message "perm") []).1 = None) as Ew by (by vm_compute). rewrite Ew in Hh.
  destruct (Parse (msg_Payload (message "perm"))) as [s|] eqn:Es; [|vm_compute in Es; discriminate Es].
  destruct Hh as [_ Hh]. destruct (Hh ltac:(by vm_compute)) as (o & Ho & _ & _ & Hf).
  vm_compute in Es. injection Es as <-. vm_compute in Ho. injection Ho as <-.
  destruct Hf as (f & -> & _); done.
Defined.

Lemma play_batch_witness :
  let call := (handleBatch (penv None) h (NewBatchFromBuffer [message "ok"; message "batchko:step=3"; message "panic"]) []).1 in
  bc_fails call = [] ∧ ∃ f, bc_outcome call = Returned (Some f) ∧ f_Step f = 3.
Proof.
  cbn zeta.
  destruct (play_batch (penv None) h [message "ok"; message "batchko:step=3"; message "panic"] []) as [_ Hb];
    [repeat (apply Forall_cons_2; [by vm_compute|]); apply Forall_nil_2|by vm_compute|].
  destruct (current (message "batchko:step=3")) as [o|] eqn:Eo; [|vm_compute in Eo; discriminate Eo].
  destruct (Hb [message "ok"] (message "batchko:step=3") [message "panic"] o eq_refl) as [Hk _];
    [apply Forall_cons_2; [by vm_compute|apply Forall_nil_2]|exact Eo|].
  vm_compute in Eo. injection Eo as <-. destruct (Hk eq_refl) as (E & f & Ef & Hs & _).
  split; [exact E|]. exists f. by split.
Defined.
End Ex_handler.
