(* ===== verification/PlayFate.v ===== *)
(** * A script on the retry ladder

    The playground's handler in a consumer with the retry strategy: which tokens of
    a script are carried out, and what the records in between carry. *)
From S2P Require Import Prelude GoStrings GoErrors GoTime LogCode GoAny GoMath Facade Types Headers ConsumerApi.
From S2P Require Import ConsumerDriver Subscriber Lifecycle PubDriver PubOptions PublisherConfig Delivery Writer PubNew Retry RetrySafety Script PlayHandler.

Section fate.
Context {W Del D P : Type} `{GoRangeLaws} `{FloatOverflow} `{FmtFloat}.
Context (renv : RetryEnv W Del D) (rcfg : RetryConfig W D) (penv : PlayEnv P) (h : handler).

(** The handler was given [m] and not interrupted; [f] is what the subscriber hands
    to the strategy. *)
Definition turn (m : Message) (f : option Failure) : Prop :=
  ∃ p w, (wait_until penv m w).1 = None ∧ failure_of (hc_outcome (handle penv h (Some m) p w).1) = f.
(** [m] failed, and came back from the retry topic as [m']. *)
Definition retried (m m' : Message) : Prop :=
  ∃ f, turn m (Some f) ∧ hop_with renv rcfg f m m'.

(** The step a message arrives with after [k] tokens: the last one named. *)
Fixpoint carried_step (s : Script) (first : Z) (k : nat) : Z :=
  match k with
  | O => first
  | S k => match At s (Z.of_nat k) with
           | inl o => if Step o =? 0 then carried_step s first k else Step o
           | inr _ => first
           end
  end.
(** The code: the last token's, or the library's. *)
Definition carried_code (s : Script) (k : nat) : string :=
  match k with
  | O => EmptyString
  | S k => match At s (Z.of_nat k) with
           | inl o => match Code o with EmptyString => "HANDLER_ERROR" | code => code end
           | inr _ => EmptyString
           end
  end.

(** What the strategy is handed for a message whose token is [o]. *)
Lemma turn_failure m o f : current m = Some o → well_typed o → turn m f →
  (f = None ↔ Kind_ o = Ok) ∧
  ∀ f', f = Some f' → f_Step f' = Step o ∧ f_Code f' = Code o ∧ is_Some (f_Err f') ∧
    (errors_Is (f_Err f') Types.ErrPermanent = true ↔ Kind_ o = Perm).
Proof.
  intros Ho (_ & _ & Hnone & _) (p & w & Hw & <-). rewrite handle_spec, Hw. unfold scripted_call.
  destruct (resolve m) as [r|text] eqn:Er.
  2: { unfold current in Ho. unfold resolve in Er. destruct (Parse _); [|done]. by destruct (At _ _). }
  rewrite (whole_batch_current m o r Ho Er). cbn [r_err r_outcome is_kind_of].
  rewrite bool_decide_eq_false_2 by (by intros []). cbn [negb andb]. unfold is_kind_of. cbn [r_outcome].
  destruct (String.eqb_spec (Kind_ o) Panic) as [E|Hnp].
  - rewrite E in Hnone |- *. destruct (Hnone eq_refl) as [-> ->]. cbn [hc_outcome panics failure_of].
    split; [done|]. by intros f' [= <-].
  - destruct (verdict_spec (mkResolved m o None) eq_refl) as [Hok Hko]. cbn [r_outcome] in Hok, Hko.
    destruct (decide (Kind_ o = Ok)) as [E|Hne]; [by rewrite (Hok E)|].
    destruct (Hko Hne) as (f & -> & Hs & Hc & Hp & Hn). cbn [hc_outcome returns failure_of].
    split; [done|]. intros f' [= <-]. cbn [f_Step f_Code f_Err]. split_and!; [done..|].
    rewrite <-Hp. destruct (f_Err f); [done|]. by split; [|intros ?].
Qed.

(** The token of the next turn. *)
Lemma current_at m0 m s k : Parse (msg_Payload m0) = inl s → msg_Payload m = msg_Payload m0 →
  GetRetryAttempt (Some m) = Z.of_nat k → ∃ o, At s (Z.of_nat k) = inl o ∧ current m = Some o ∧ well_typed o.
Proof.
  intros Hs Hp Ha. pose proof (Parse_spec _ _ Hs) as (Hne & _ & Hw).
  destruct (At_spec s (Z.of_nat k) Hne ltac:(lia)) as (o & Ho & Hin & _). exists o. split; [done|].
  unfold current, Facade.GetRetryAttempt. rewrite Hp, Hs, Ha, Ho. split; [done|].
  rewrite Forall_forall in Hw. by apply Hw.
Qed.
Lemma retried_hop m m' : retried m m' → hop renv rcfg m m'.
Proof. intros (f & _ & Hh). by exists f. Qed.
Lemma retried_hops k m m' : nsteps retried k m m' → nsteps (hop renv rcfg) k m m'.
Proof. induction 1; [constructor|]. econstructor; [by apply retried_hop|done]. Qed.

(** One token carried out: what it was, and what the record then carries. *)
Lemma retried_token m m' o : current m = Some o → well_typed o → retried m m' →
  Kind_ o ≠ Ok ∧ Kind_ o ≠ Perm ∧
  GetRetryStep (Some m') = (if Step o =? 0 then GetRetryStep (Some m) else Step o) ∧
  GetErrorCode (Some m') = match Code o with EmptyString => "HANDLER_ERROR" | code => code end.
Proof.
  intros Ho Hw (f & Ht & Hh). destruct (turn_failure m o (Some f) Ho Hw Ht) as [Hok Hf].
  destruct (Hf f eq_refl) as (Hs & Hc & [e He] & Hp). destruct Hw as (_ & Hrange & _).
  destruct (hop_failure renv rcfg f m m' Hh) as [Es Ec]; [rewrite Hs; lia|].
  destruct Hh as (rec & p & off & t & Hd & _). apply to_DLQ_false in Hd as [Hnp _].
  split; [by intros E; apply Hok in E|]. split; [by intros E; apply Hp in E; congruence|].
  rewrite Es, Ec. unfold resolveStep, resolveErrorCode, classifyError. rewrite Hs, Hc, He.
  split; [done|]. by destruct (Code o).
Qed.

Lemma carried_spec (k : nat) m0 m s : 1 ≤ MaxAttempts rcfg < 2 ^ 63 → RetryTopic rcfg ≠ EmptyString →
  msg_Topic m0 ≠ EmptyString → GetRetryAttempt (Some m0) = 0 → Parse (msg_Payload m0) = inl s →
  nsteps retried k m0 m →
  (∀ i, (i < k)%nat → ∃ o, At s (Z.of_nat i) = inl o ∧ Kind_ o ≠ Ok ∧ Kind_ o ≠ Perm) ∧
  GetRetryStep (Some m) = carried_step s (GetRetryStep (Some m0)) k ∧
  ((0 < k)%nat → GetErrorCode (Some m) = carried_code s k).
Proof.
  intros HM HR Ht Ha Hs. revert m. induction k as [|k IH]; intros m Hk.
  { inversion Hk; subst. split_and!; [lia|done|lia]. }
  apply nsteps_inv_r in Hk as (m1 & Hk & Hr). destruct (IH m1 Hk) as (Hi & Hst & _).
  destruct (ladder_spec renv rcfg k m0 m1 HM HR Ht Ha (retried_hops _ _ _ Hk)) as (Ha1 & _ & _ & Hp & _).
  destruct (current_at m0 m1 s k Hs Hp Ha1) as (o & Ho & Hc & Hw).
  destruct (retried_token m1 m o Hc Hw Hr) as (Hnok & Hnp & Es & Ec). split_and!.
  - intros i Hik. destruct (decide (i = k)) as [->|]; [by exists o|]. apply Hi. lia.
  - cbn [carried_step]. by rewrite Ho, Es, Hst.
  - intros _. cbn [carried_code]. by rewrite Ho, Ec.
Qed.
End fate.

(** ** Properties *)

(** C11 (scripts are carried out) A message with a script, first consumed without an
    attempt header, that has failed and come back from the retry topic [k] times
    is next treated as its [k]-th token says, the last one repeating; no token
    before was ok or perm.  It carries the last step a token named and the code of
    the last token, or the library's where that has none.  Its failure goes to
    the dead-letter topic for perm or on the last attempt, and to the retry topic
    again otherwise; ok, and nothing else, ends it without a failure. *)
Theorem script_carried_out {W Del D P} `{GoRangeLaws} `{FloatOverflow} `{FmtFloat}
    (renv : RetryEnv W Del D) (rcfg : RetryConfig W D) (penv : PlayEnv P) h (k : nat) m0 m s :
  1 ≤ MaxAttempts rcfg < 2 ^ 63 → RetryTopic rcfg ≠ EmptyString →
  msg_Topic m0 ≠ EmptyString → GetRetryAttempt (Some m0) = 0 → Parse (msg_Payload m0) = inl s →
  nsteps (retried renv rcfg penv h) k m0 m →
  (∀ i, (i < k)%nat → ∃ o, At s (Z.of_nat i) = inl o ∧ Kind_ o ≠ Ok ∧ Kind_ o ≠ Perm) ∧
  GetRetryStep (Some m) = carried_step s (GetRetryStep (Some m0)) k ∧
  ((0 < k)%nat → GetErrorCode (Some m) = carried_code s k) ∧
  ∃ o, At s (Z.of_nat k) = inl o ∧ ∀ f, turn penv h m f →
    (f = None ↔ Kind_ o = Ok) ∧
    ∀ f', f = Some f' →
      (to_DLQ rcfg (errors_Is (f_Err f') Types.ErrPermanent) (next_attempt m) = true ↔
       Kind_ o = Perm ∨ Z.of_nat k + 1 = MaxAttempts rcfg).
Proof.
  intros HM HR Ht Ha Hs Hk.
  destruct (carried_spec renv rcfg penv h k m0 m s HM HR Ht Ha Hs Hk) as (Hi & Hst & Hc). split_and!; [done..|].
  pose proof (retried_hops renv rcfg penv h _ _ _ Hk) as Hh.
  destruct (ladder_spec renv rcfg k m0 m HM HR Ht Ha Hh) as (Ha1 & Hlt & _ & Hp & _).
  destruct (current_at m0 m s k Hs Hp Ha1) as (o & Ho & Hcur & Hw). exists o. split; [done|]. intros f Hf.
  destruct (turn_failure penv h m o f Hcur Hw Hf) as [Hok Hfail]. split; [done|]. intros f' Ef.
  destruct (Hfail f' Ef) as (_ & _ & _ & Hperm). unfold to_DLQ, next_attempt.
  rewrite Ha1, wrap64_id, orb_true_iff, Z.leb_le, Hperm by lia. split; (intros [?|?]; [by left|right; lia]).
Qed.

(** C13 (interrupted waits use an attempt) A message whose wait for its retry time is
    interrupted is failed with the context's error before its token is carried
    out: unless that was the last attempt it goes back to the retry topic with
    the next attempt, so its script goes on with the token after the one that was
    skipped; on the last attempt it goes to the dead-letter topic. *)
Theorem interrupted_uses_attempt {W Del D P} `{GoRangeLaws} `{FloatOverflow} `{FmtFloat}
    (renv : RetryEnv W Del D) (rcfg : RetryConfig W D) (penv : PlayEnv P) h m p w err s :
  Parse (msg_Payload m) = inl s → 0 ≤ GetRetryAttempt (Some m) < 2 ^ 63 - 1 →
  (wait_until penv m w).1 = Some err → errors_Is (Some err) Types.ErrPermanent = false →
  ∃ f, failure_of (hc_outcome (handle penv h (Some m) p w).1) = Some f ∧ f_Err f = Some err ∧
    (to_DLQ rcfg (errors_Is (f_Err f) Types.ErrPermanent) (next_attempt m) = true ↔
     MaxAttempts rcfg ≤ GetRetryAttempt (Some m) + 1) ∧
    ∀ m', hop_with renv rcfg f m m' →
      GetRetryAttempt (Some m') = GetRetryAttempt (Some m) + 1 ∧
      ∃ o, At s (GetRetryAttempt (Some m) + 1) = inl o ∧ current m' = Some o.
Proof.
  intros Hs Ha Hw Hnp. rewrite handle_spec, Hw. eexists. split; [reflexivity|]. cbn [f_Err].
  assert (next_attempt m = GetRetryAttempt (Some m) + 1) as En by (unfold next_attempt; rewrite wrap64_id; lia).
  split; [done|]. rewrite En. split.
  { unfold to_DLQ. rewrite orb_true_iff, Z.leb_le. cbn [default from_option id]. rewrite Hnp. split; [by intros [|]|by right]. }
  intros m' Hh. destruct (hop_spec renv rcfg m m') as (_ & Ha' & _ & Hp & _); [by eexists|].
  split; [by rewrite Ha'|].
  destruct (current_at m m' s (Z.to_nat (GetRetryAttempt (Some m) + 1)) Hs Hp) as (o & Ho & Hc & _).
  { rewrite Ha', En. lia. }
  exists o. split; [|done]. rewrite <-Ho. f_equal. lia.
Qed.

(** ** Witnesses *)
Module Ex_fate.
#[local] Existing Instance range_canonical.
#[local] Existing Instance range_canonical_laws.
#[local] Instance overflow : FloatOverflow := float_overflow_amd64.
#[local] Instance fmt : FmtFloat := λ _, "x".
Abbreviation rcfg := Ex_retry.cfg.
Abbreviation renv := Ex_retry.env.
Import Ex_handler.
Definition m0 : Message := message "ko:step=2,code=DB/nil/ok".

(** The failure of a turn, and the message it comes back as. *)
Definition failed (m : Message) : Failure :=
  default Ex_retry.failure (failure_of (hc_outcome (handle (penv None) h (Some m) (msg_Payload m) []).1)).
Definition next (f : Failure) (m : Message) : Message :=
  to_Message (received (mkRecord (RetryTopic rcfg) (msg_Key m) (msg_Payload m)
    (sortedHeaders (BuildRetryHeaders zero_Time m (next_attempt m)
       (Add zero_Time (computeBackoff rcfg (next_attempt m) ([], [])).1) f))) 0 7 zero_Time).
Lemma retry_hop f m : errors_Is (f_Err f) Types.ErrPermanent = false → next_attempt m < 3 →
  hop_with renv rcfg f m (next f m).
Proof.
  intros Hp Hlt. assert (to_DLQ rcfg (errors_Is (f_Err f) Types.ErrPermanent) (next_attempt m) = false) as Hd.
  { rewrite Hp. by apply to_DLQ_false. }
  eexists _, 0, 7, zero_Time. split_and!; [exact Hd| |reflexivity].
  unfold written_record. rewrite Hd. exists ([], []), ([], []), zero_Time. reflexivity.
Qed.
Definition m1 : Message := next (failed m0) m0.
Definition m2 : Message := next (failed m1) m1.
Lemma retried_01 : retried renv rcfg (penv None) h m0 m1.
Proof.
  exists (failed m0). split; [exists (msg_Payload m0), []; by vm_compute|]. apply retry_hop; by vm_compute.
Qed.
Lemma retried_12 : retried renv rcfg (penv None) h m1 m2.
Proof.
  exists (failed m1). split; [exists (msg_Payload m1), []; by vm_compute|]. apply retry_hop; by vm_compute.
Qed.

(** Failed with a code, failed without an error, and the last of three attempts ok. *)
Lemma script_carried_out_witness :
  GetRetryStep (Some m2) = 2 ∧ GetErrorCode (Some m2) = "HANDLER_ERROR" ∧
  turn (penv None) h m2 None.
Proof.
  destruct (Parse (msg_Payload m0)) as [s|] eqn:Es; [|vm_compute in Es; discriminate Es].
  destruct (script_carried_out renv rcfg (penv None) h 2 m0 m2 s) as (_ & Hst & Hc & _);
    [by split; vm_compute|done|done|by vm_compute|exact Es| |].
  { eapply nsteps_l; [exact retried_01|]. eapply nsteps_l; [exact retried_12|]. apply nsteps_O. }
  specialize (Hc ltac:(lia)). rewrite Hst, Hc. clear Hst Hc.
  vm_compute in Es. injection Es as <-. split_and!; [by vm_compute..|].
  exists (msg_Payload m2), []. by vm_compute.
Defined.

Lemma interrupted_uses_attempt_witness : ∃ f,
  failure_of (hc_outcome (handle (penv (Some Canceled)) h (Some m1) None []).1) = Some f ∧
  f_Err f = Some Canceled ∧ GetRetryAttempt (Some (next f m1)) = 2.
Proof.
  destruct (Parse (msg_Payload m1)) as [s|] eqn:Es; [|vm_compute in Es; discriminate Es].
  destruct (interrupted_uses_attempt renv rcfg (penv (Some Canceled)) h m1 None [] Canceled s)
    as (f & Hf & He & _ & Hhop); [exact Es|by split; vm_compute|by vm_compute|done|].
  exists f. split; [done|]. split; [done|].
  destruct (Hhop (next f m1)) as [-> _]; [|by vm_compute].
  apply retry_hop; [by rewrite He|by vm_compute].
Defined.

End Ex_fate.
