(* ===== verification/PlayConsumer.v ===== *)
(** * The playground's consumer (examples/playground/cmd/consumer/main.go)

    The command line, the two consumers it makes, and how they stop together. *)
From S2P Require Import Prelude GoStrings GoErrors GoTime GoText LogCode GoAny GoMath Types Headers ConsumerApi.
From S2P Require Import Strategies SubscribeOptions Subscriber Lifecycle Kfk PubDriver PubOptions PublisherConfig Delivery Writer PubNew.
From S2P Require Import Retry Facade Script PlayHandler.
From Stdlib Require Import Ascii.

Definition modeSingle : string := "single".
Definition modeBatch : string := "batch".
Definition strategyRetry : string := "retry".
Definition strategySkip : string := "skip".
Definition strategyFailFast : string := "fail-fast".
Definition defaultBatchSize : Z := 10.
Definition defaultBatchTimeout : Z := 2 * Second.
Definition defaultMaxAttempts : Z := 3.
Definition defaultInitialDelay : Z := 2 * Second.
Definition defaultMaxDelay : Z := 30 * Second.
Definition pollTimeout : Z := 100 * Millisecond.
Definition exitUsage : Z := 2.

(** [config]. *)
Record config : Type := mkCliConfig {
  brokers : list string;
  topic : string;
  group : string;
  mode : string;
  batchSize : Z;
  batchTimeout : Z;
  strategy : string;
  maxAttempts : Z;
  initialDelay : Z;
  maxDelay : Z;
  noRetryConsumer : bool;
  processingDelay : Z;
}.
(** What the flags hold when none is given. *)
Definition default_flags : config :=
  mkCliConfig [] "demo.orders" "demo" modeSingle defaultBatchSize defaultBatchTimeout strategyRetry
    defaultMaxAttempts defaultInitialDelay defaultMaxDelay false 0.

(** [parseFlags], given what [flag.Parse] leaves: the broker list as text, the
    other flags in the configuration, and the remaining arguments. *)
Definition parseFlags (brokers_flag : string) (cfg : config) (args : list string) : config + goerr :=
  let cfg := mkCliConfig (Split "," brokers_flag) (topic cfg) (group cfg) (mode cfg) (batchSize cfg)
    (batchTimeout cfg) (strategy cfg) (maxAttempts cfg) (initialDelay cfg) (maxDelay cfg)
    (noRetryConsumer cfg) (processingDelay cfg) in
  if (0 <? length args)%nat then inr (EErrorf ("unexpected arguments: [" +:+ Join args " " +:+ "]") [])
  else if negb (String.eqb (mode cfg) modeSingle) && negb (String.eqb (mode cfg) modeBatch) then
    inr (EErrorf ("--mode must be " +:+ modeSingle +:+ " or " +:+ modeBatch +:+ ", not " +:+ Quote (mode cfg)) [])
  else if existsb (String.eqb (strategy cfg)) [strategyRetry; strategySkip; strategyFailFast] then inl cfg
  else inr (EErrorf ("--strategy must be " +:+ strategyRetry +:+ ", " +:+ strategySkip +:+ " or " +:+
                     strategyFailFast +:+ ", not " +:+ Quote (strategy cfg)) []).

(** ** The consumers *)

Section consumer.
Context {W Del D : Type} `{GoRange} `{FloatOverflow} `{FmtFloat}.
(** A consumer's world: the state of its strategy, and what its strategy writes
    through, the handler uses and its Kafka client is made of. *)
Abbreviation RW := (RetryState * W)%type.
Context (renv : RetryEnv W Del D) (penv : PlayEnv RW).
Context (driver_New : DriverConfig → RW → (Consumer RW + goerr) * RW).

Definition strategy_log (l : log_line) (s : RW) : RW := (s.1, re_log renv l s.2).

Definition retry_options (cfg : config) : list (RetryOption W D) :=
  [OptRetryTopic (topic cfg +:+ ".retry"); OptDLQTopic (topic cfg +:+ ".dlq");
   OptMaxAttempts (maxAttempts cfg); OptInitialDelay (initialDelay cfg); OptMaxDelay (maxDelay cfg)].
(** The strategy behind a value of the interface, if there is one. *)
Definition strategy_value (s : interface_value W D) : option (ErrorStrategy RW) :=
  match s with IRetry (Some rcfg) => Some (RetryStrategy renv rcfg) | IRetry None | INil => None end.
Definition newStrategy (cfg : config) : option (ErrorStrategy RW) + goerr :=
  if String.eqb (strategy cfg) strategySkip then inl (Some (Facade.NewSkipStrategy strategy_log))
  else if String.eqb (strategy cfg) strategyFailFast then inl (Some (Facade.NewFailFastStrategy strategy_log))
  else
    match Facade.NewRetryStrategy (retry_options cfg) with
    | (_, Some err) => inr (wrapf "retry strategy" err)
    | (s, None) => inl (strategy_value s)
    end.

(** The logger of [main], on the standard error. *)
Definition theLogger : Logger := 1%nat.
Definition consumer_options (name topic group : string) (cfg : config) (strategy : option (ErrorStrategy RW)) :
    list (SubscribeOptions.Option_ (W:=RW)) :=
  let h := mkHandler name (processingDelay cfg) in
  [SubscribeOptions.OptTopic topic; SubscribeOptions.OptBrokers (brokers cfg); OptConsumerGroup group;
   OptErrorStrategy strategy; SubscribeOptions.OptLogger theLogger; OptPollTimeout pollTimeout] ++
  if String.eqb (mode cfg) modeBatch then
    [OptBatchHandler (Some (handleBatch penv h)); OptBatchSize (batchSize cfg); OptBatchTimeout (batchTimeout cfg)]
  else [OptHandler (Some (handle penv h))].
Definition newConsumer (name topic group : string) (cfg : config) : Config (W:=RW) + goerr :=
  match newStrategy cfg with
  | inr err => inr err
  | inl strategy =>
      match SubscribeOptions.New driver_New (Facade.NewSkipStrategy strategy_log)
              (consumer_options name topic group cfg strategy) with
      | inr err => inr (wrapf (name +:+ " consumer") err)
      | inl consumer => inl consumer
      end
  end.
(** The consumers [run] starts. *)
Definition consumers (cfg : config) : list (string * Config (W:=RW)) + goerr :=
  match newConsumer "source" (topic cfg) (group cfg) cfg with
  | inr err => inr err
  | inl source =>
      if noRetryConsumer cfg then inl [("source", source)]
      else
        match newConsumer "retry" (topic cfg +:+ ".retry") (group cfg +:+ "-retry") cfg with
        | inr err => inr err
        | inl retry => inl [("source", source); ("retry", retry)]
        end
  end.
End consumer.

(** ** Running *)

(** What a consumer that stops does to the errors collected, under the mutex, and
    whether it cancels the context. *)
Definition finish (s : list goerr * bool) (c : string * option goerr) : list goerr * bool :=
  match c.2 with
  | Some err => (s.1 ++ [wrapf (c.1 +:+ " consumer") err], true)
  | None => s
  end.
(** [run]: the error it returns, whether [cancel] was called before the end, and
    the lines it prints.  [Start] is what each consumer's returns, and [schedule]
    puts the consumers in the order in which they do; the group waits for all. *)
Definition run {C} (cfg : config) (consumers : list (string * C) + goerr)
    (schedule : list (string * C) → list (string * C)) (Start : string * C → option goerr) :
    option goerr * bool * list string :=
  match consumers with
  | inr err => (Some err, false, [])
  | inl consumers =>
      let '(errs, cancelled) :=
        foldl finish ([], false) ((λ c, (c.1, Start c)) <$> schedule consumers) in
      (errors_Join (Some <$> errs), cancelled,
       ["consumer: mode=" +:+ mode cfg +:+ " strategy=" +:+ strategy cfg +:+
        " max-attempts=" +:+ Itoa (maxAttempts cfg) +:+ " initial-delay=" +:+ Duration_String (initialDelay cfg) +:+
        " processing-delay=" +:+ Duration_String (processingDelay cfg) +:+
        " retry-consumer=" +:+ (if noRetryConsumer cfg then "false" else "true") +:+ newline;
        "consumer: stopped" +:+ newline])
  end.
(** [main]: the exit status, and the line on standard error. *)
Definition main (parsed : config + goerr) (ran : config → option goerr) : Z * option string :=
  match parsed with
  | inr err => (exitUsage, Some ("consumer: " +:+ error_text err +:+ newline))
  | inl cfg =>
      match ran cfg with
      | Some err => (1, Some ("consumer: " +:+ error_text err +:+ newline))
      | None => (0, None)
      end
  end.

(** ** What the flags build *)

Section wiring.
Context {W Del D : Type} `{GoRangeLaws} `{FloatOverflow} `{FmtFloat}.
Abbreviation RW := (RetryState * W)%type.
Context (renv : RetryEnv W Del D) (penv : PlayEnv RW).
Context (driver_New : DriverConfig → RW → (Consumer RW + goerr) * RW).

(** The strategy's configuration, and when the library takes it. *)
Definition retry_config (cfg : config) : RetryConfig W D :=
  mkRetryConfig (topic cfg +:+ ".retry") (topic cfg +:+ ".dlq") (maxAttempts cfg) (initialDelay cfg)
    (maxDelay cfg) (float_of_Z 2) None None None.
Definition is_retry (cfg : config) : bool :=
  negb (String.eqb (strategy cfg) strategySkip) && negb (String.eqb (strategy cfg) strategyFailFast).
Definition the_strategy (cfg : config) : ErrorStrategy RW :=
  if is_retry cfg then RetryStrategy renv (retry_config cfg)
  else if String.eqb (strategy cfg) strategySkip then Facade.NewSkipStrategy (strategy_log renv)
  else Facade.NewFailFastStrategy (strategy_log renv).
Definition strategy_flags (cfg : config) : bool :=
  negb (is_retry cfg) || ((0 <? maxAttempts cfg) && (0 <? initialDelay cfg) && (0 <? maxDelay cfg)).

Lemma app_nonempty_l s t : s ≠ EmptyString → s +:+ t ≠ EmptyString.
Proof. by destruct s. Qed.
Lemma app_nonempty_r s c t : s +:+ String c t ≠ EmptyString.
Proof. by destruct s. Qed.
Lemma newStrategy_spec cfg :
  if strategy_flags cfg then newStrategy renv cfg = inl (Some (the_strategy cfg))
  else ∃ err, newStrategy renv cfg = inr err.
Proof.
  unfold newStrategy, the_strategy, strategy_flags, is_retry.
  destruct (String.eqb_spec (strategy cfg) strategySkip) as [_|Hs]; [done|].
  destruct (String.eqb_spec (strategy cfg) strategyFailFast) as [_|Hf]; [done|]. cbn [negb orb andb].
  unfold Facade.NewRetryStrategy, Retry.NewRetryStrategy, retry_options. cbn [apply_retry_options apply_retry_option].
  unfold WithRetryTopic, WithDLQTopic, WithMaxAttempts, WithInitialDelay, WithMaxDelay.
  rewrite !(proj2 (String.eqb_neq _ _) (app_nonempty_r _ _ _)). cbn.
  destruct (Z.leb_spec (maxAttempts cfg) 0), (Z.ltb_spec 0 (maxAttempts cfg)); try lia; [by eexists|]. cbn.
  destruct (Z.leb_spec (initialDelay cfg) 0), (Z.ltb_spec 0 (initialDelay cfg)); try lia; [by eexists|]. cbn.
  destruct (Z.leb_spec (maxDelay cfg) 0), (Z.ltb_spec 0 (maxDelay cfg)); try lia; [by eexists|]. cbn.
  by rewrite !(proj2 (String.eqb_neq _ _) (app_nonempty_r _ _ _)).
Qed.

(** A consumer of the playground, wired. *)
Definition wired (name topic group : string) (cfg : config) : Config (W:=RW) :=
  let h := mkHandler name (processingDelay cfg) in
  if String.eqb (mode cfg) modeBatch then
    mkConfig topic (brokers cfg) group None (Some (handleBatch penv h)) ModeBatch (batchSize cfg)
      (batchTimeout cfg) pollTimeout 0 (Some (the_strategy cfg)) (Some ∅) (Some driver_New) theLogger
  else
    mkConfig topic (brokers cfg) group (Some (handle penv h)) None ModeSingleMessage 0 0 pollTimeout 0
      (Some (the_strategy cfg)) (Some ∅) (Some driver_New) theLogger.
(** When the library takes its options. *)
Definition consumer_flags (topic group : string) (cfg : config) : bool :=
  negb (String.eqb topic EmptyString) && negb (length (brokers cfg) =? 0)%nat &&
  negb (existsb (String.eqb EmptyString) (brokers cfg)) && negb (String.eqb group EmptyString) &&
  (negb (String.eqb (mode cfg) modeBatch) || ((0 <? batchSize cfg) && (0 <? batchTimeout cfg))).

Lemma newConsumer_spec name t g cfg :
  if strategy_flags cfg && consumer_flags t g cfg
  then newConsumer renv penv driver_New name t g cfg = inl (wired name t g cfg)
  else ∃ err, newConsumer renv penv driver_New name t g cfg = inr err.
Proof.
  unfold newConsumer, consumer_flags. pose proof (newStrategy_spec cfg) as Hs. destruct (strategy_flags cfg); cbn [andb].
  2: { destruct Hs as [err ->]. by eexists. }
  rewrite Hs. unfold SubscribeOptions.New, consumer_options, wired.
  destruct (mode cfg =? modeBatch)%string; cbn [app SubscribeOptions.apply_options SubscribeOptions.apply_option]; unfold_option;
    (destruct (String.eqb t EmptyString) eqn:Et; [by eexists|]);
    (destruct (brokers cfg) as [|b bs]; [by eexists|]);
    (destruct (existsb (String.eqb EmptyString) (b :: bs)); [by eexists|]);
    (destruct (String.eqb g EmptyString) eqn:Eg; [by eexists|]);
    change (pollTimeout <? 10 * Millisecond) with false; cbn [negb andb orb length existsb Nat.eqb].
  2: { unfold Validate, ApplyDefaults. cbn. by rewrite Et, Eg. }
  destruct (Z.leb_spec (batchSize cfg) 0), (Z.ltb_spec 0 (batchSize cfg)); try lia; [by eexists|]. cbn [andb].
  destruct (Z.leb_spec (batchTimeout cfg) 0), (Z.ltb_spec 0 (batchTimeout cfg)); try lia; [by eexists|].
  unfold Validate, ApplyDefaults. cbn. rewrite Et, Eg. cbn. by rewrite !(proj2 (Z.leb_gt _ _)) by done.
Qed.

(** Both consumers need the same of the flags. *)
Definition flags_ok (cfg : config) : bool := strategy_flags cfg && consumer_flags (topic cfg) (group cfg) cfg.
Lemma retry_consumer_flags cfg : consumer_flags (topic cfg) (group cfg) cfg = true →
  consumer_flags (topic cfg +:+ ".retry") (group cfg +:+ "-retry") cfg = true.
Proof.
  unfold consumer_flags. rewrite !andb_true_iff. intros ((((_ & ->) & ->) & _) & ->).
  by rewrite !(proj2 (String.eqb_neq _ _) (app_nonempty_r _ _ _)).
Qed.
Lemma consumers_spec cfg :
  if flags_ok cfg
  then consumers renv penv driver_New cfg =
    inl (("source", wired "source" (topic cfg) (group cfg) cfg) ::
         if noRetryConsumer cfg then []
         else [("retry", wired "retry" (topic cfg +:+ ".retry") (group cfg +:+ "-retry") cfg)])
  else ∃ err, consumers renv penv driver_New cfg = inr err.
Proof.
  unfold consumers, flags_ok. pose proof (newConsumer_spec "source" (topic cfg) (group cfg) cfg) as Hs.
  pose proof (newConsumer_spec "retry" (topic cfg +:+ ".retry") (group cfg +:+ "-retry") cfg) as Hr.
  destruct (strategy_flags cfg && consumer_flags (topic cfg) (group cfg) cfg) eqn:E.
  - apply andb_true_iff in E as [E1 E2]. rewrite E1, (retry_consumer_flags cfg E2) in Hr. cbn [andb] in Hr.
    rewrite Hs. destruct (noRetryConsumer cfg); [done|]. by rewrite Hr.
  - destruct Hs as [err ->]. eauto.
Qed.
Lemma wired_accepted name t g cfg c : newConsumer renv penv driver_New name t g cfg = inl c → accepted c.
Proof.
  unfold newConsumer. destruct (newStrategy renv cfg); [|done].
  destruct (SubscribeOptions.New _ _ _) eqn:E; [|done]. intros [= <-]. by eapply SubscribeOptions.New_accepts.
Qed.
Lemma consumers_accepted cfg cs : consumers renv penv driver_New cfg = inl cs → Forall (λ c, accepted c.2) cs.
Proof.
  unfold consumers. destruct (newConsumer _ _ _ "source" _ _ _) eqn:Es; [|done].
  destruct (noRetryConsumer cfg); [|destruct (newConsumer _ _ _ "retry" _ _ _) eqn:Er; [|done]];
    intros [= <-]; repeat apply Forall_cons_2; try apply Forall_nil_2; by eapply wired_accepted.
Qed.

(** Each is in the mode asked for, with the strategy named. *)
Lemma wired_asked brokers_flag flags args cfg n t g : parseFlags brokers_flag flags args = inl cfg →
  cfg_Mode (wired n t g cfg) = mode cfg ∧
  (if String.eqb (strategy cfg) strategyRetry
   then cfg_ErrorStrategy (wired n t g cfg) = Some (RetryStrategy renv (retry_config cfg))
   else es_Name <$> cfg_ErrorStrategy (wired n t g cfg) = Some (strategy cfg)).
Proof.
  unfold parseFlags. destruct (0 <? length args)%nat; [done|]. cbn [mode strategy].
  destruct (negb (mode flags =? modeSingle)%string && negb (mode flags =? modeBatch)%string) eqn:Em; [done|].
  destruct (existsb _ _) eqn:Est; [|done]. intros [= <-]. unfold wired, the_strategy, is_retry. cbn [mode strategy].
  apply andb_false_iff in Em. rewrite !negb_false_iff, !String.eqb_eq in Em.
  apply existsb_exists in Est as (x & Hx & ->%String.eqb_eq).
  split; [by destruct Em as [-> | ->]|]. destruct Hx as [<-|[<-|[<-|[]]]]; cbn; by destruct (_ =? _)%string.
Qed.
End wiring.

(** The errors of the consumers that failed. *)
Definition failures (completions : list (string * option goerr)) : list goerr :=
  omap (λ c, wrapf (c.1 +:+ " consumer") <$> c.2) completions.
Lemma finish_spec completions : ∀ s,
  foldl finish s completions =
  (s.1 ++ failures completions,
   s.2 || existsb (λ c, bool_decide (is_Some c.2)) completions).
Proof.
  induction completions as [|[n [e|]] l IH]; intros [errs b]; cbn.
  - by rewrite app_nil_r, orb_false_r.
  - rewrite IH. cbn. rewrite <-app_assoc. by rewrite orb_true_r.
  - by rewrite IH.
Qed.
Lemma joined_spec {C} (Start : string * C → option goerr) l :
  let completions := (λ c, (c.1, Start c)) <$> l in
  let err := errors_Join (Some <$> failures completions) in
  (err = None ↔ ∀ c, c ∈ l → Start c = None) ∧
  (existsb (λ c, bool_decide (is_Some c.2)) completions = true ↔ ¬ ∀ c, c ∈ l → Start c = None) ∧
  ∀ target, errors_Is err target = true ↔ ∃ c, c ∈ l ∧ errors_Is (Start c) target = true.
Proof.
  cbn zeta. rewrite errors_Join_None. setoid_rewrite errors_Is_join. setoid_rewrite <-Forall_forall. split_and!.
  - unfold failures. induction l as [|c l IH]; [done|]. rewrite Forall_cons, <-IH. cbn.
    destruct (Start c); cbn; [|by split; [|intros []]]. split; [by inversion 1|by intros []].
  - induction l as [|c l IH]; [by split; [|intros []]|]. rewrite Forall_cons. cbn. rewrite orb_true_iff, IH, bool_decide_eq_true.
    destruct (Start c); [split; [by intros _ []|by left]|]. split; [intros [[]|Hn] [_ ?]; [done|by apply Hn]|].
    intros Hn. right. intros ?. by apply Hn.
  - intros target. unfold failures. induction l as [|c l IH]; [by split; [|intros (? & ?%elem_of_nil & _)]|].
    setoid_rewrite elem_of_cons. cbn. destruct (Start c) as [e|] eqn:E; cbn [option_fmap option_map fmap list_fmap existsb].
    + rewrite orb_true_iff, IH. unfold wrapf. rewrite errors_Is_errorf. cbn [existsb]. rewrite orb_false_r.
      split; [intros [?|(c' & ? & ?)]; [exists c; rewrite E; auto|eauto]|].
      intros (c' & [->|?] & Hc'); [left; by rewrite <-E|eauto].
    + rewrite IH. split; [intros (c' & ? & ?); eauto|]. intros (c' & [->|?] & Hc'); [by rewrite E in Hc'|eauto].
Qed.
Lemma suffix_ne s c t : s ≠ s +:+ String c t.
Proof. induction s as [|d s IH]; [done|]. rewrite app_cons. intros [= E]. by apply IH. Qed.

(** ** Properties *)

(** C31 (the playground wired) From the flags [parseFlags] accepts the playground
    makes its consumers exactly if the topic, the group and every broker are
    named, a batch has a size and a timeout, and the retry strategy its attempts
    and delays; each is then a consumer the library accepts, in the mode asked for
    and with the strategy named.  The retry consumer, unless switched off, reads
    the topic the strategy of the source consumer retries to, in a group of its
    own. *)
Theorem playground_wired {W Del D} `{GoRangeLaws} `{FloatOverflow} `{FmtFloat} (renv : RetryEnv W Del D)
    penv driver_New brokers_flag flags args cfg : parseFlags brokers_flag flags args = inl cfg →
  ((∃ cs, consumers renv penv driver_New cfg = inl cs) ↔ flags_ok cfg = true) ∧
  ∀ cs, consumers renv penv driver_New cfg = inl cs →
    Forall (λ c, accepted c.2 ∧ cfg_Mode c.2 = mode cfg ∧
      (if String.eqb (strategy cfg) strategyRetry
       then cfg_ErrorStrategy c.2 = Some (RetryStrategy renv (retry_config cfg))
       else es_Name <$> cfg_ErrorStrategy c.2 = Some (strategy cfg))) cs ∧
    NoDup (cfg_ConsumerGroup <$> cs.*2) ∧
    cfg_Topic <$> cs.*2 =
      topic cfg :: if noRetryConsumer cfg then [] else [RetryTopic (retry_config (W:=W) (D:=D) cfg)].
Proof.
  intros Hflags. pose proof (consumers_spec renv penv driver_New cfg) as Hs.
  pose proof (consumers_accepted renv penv driver_New cfg) as Hacc. split.
  { destruct (flags_ok cfg); [rewrite Hs; by split; eauto|]. destruct Hs as [err ->]. split; [by intros [? ?]|done]. }
  intros cs E. specialize (Hacc cs E). destruct (flags_ok cfg); [|destruct Hs as [err Hs]; congruence].
  rewrite Hs in E. injection E as <-.
  pose proof (λ n t g, wired_asked renv penv driver_New brokers_flag flags args cfg n t g Hflags) as Hw.
  split; [|split].
  - apply Forall_cons in Hacc as [Hs1 Hs2]. apply Forall_cons_2; [split; [done|apply Hw]|].
    destruct (noRetryConsumer cfg); [done|]. apply Forall_cons in Hs2 as [Hs2 _].
    apply Forall_cons_2; [split; [done|apply Hw]|apply Forall_nil_2].
  - assert (∀ n t g, cfg_ConsumerGroup (wired renv penv driver_New n t g cfg) = g) as Hg.
    { intros n t g. unfold wired. by destruct (String.eqb (mode cfg) modeBatch). }
    destruct (noRetryConsumer cfg); cbn [fmap list_fmap snd]; rewrite !Hg; [by apply NoDup_singleton|].
    apply NoDup_cons. split; [|by apply NoDup_singleton]. intros Hin%list_elem_of_singleton.
    by apply suffix_ne in Hin.
  - assert (∀ n t g, cfg_Topic (wired renv penv driver_New n t g cfg) = t) as Ht.
    { intros n t g. unfold wired. by destruct (String.eqb (mode cfg) modeBatch). }
    destruct (noRetryConsumer cfg); cbn [fmap list_fmap snd]; by rewrite !Ht.
Qed.

(** C32 (the playground stops) Once the contexts of the consumers are cancelled, by a
    signal or by a consumer that fails, every [Start] returns, and [run] with them,
    in whatever order: with nil exactly if no consumer failed, and otherwise with
    an error in which [errors.Is] finds what it finds in one of theirs; [cancel]
    was called before the end exactly if there was such a failure. *)
Theorem playground_stops {W Del D} `{GoRangeLaws} `{FloatOverflow} `{FmtFloat} (renv : RetryEnv W Del D)
    penv driver_New cfg cs (ctx : string → Env (RetryState * W)) (m : string → RetryState * W → nat)
    (w : string → RetryState * W) fuel :
  consumers renv penv driver_New cfg = inl cs →
  (∀ c, c ∈ cs → cancelled_within (ctx c.1) c.2 (m c.1) ∧ (m c.1 (w c.1) + 2 ≤ fuel)%nat) →
  ∃ returned : string * Config (W:=RetryState * W) → option goerr,
    (∀ c, c ∈ cs → (Start (ctx c.1) c.2 fuel (created (w c.1))).1 = Some (returned c)) ∧
    ∀ schedule, schedule cs ≡ₚ cs →
      let '(err, cancelled, lines) := run cfg (consumers renv penv driver_New cfg) schedule returned in
      (err = None ↔ ∀ c, c ∈ cs → returned c = None) ∧ (cancelled = true ↔ err ≠ None) ∧
      ∀ target, errors_Is err target = true ↔ ∃ c, c ∈ cs ∧ errors_Is (returned c) target = true.
Proof.
  intros Hcs Hcan. pose proof (consumers_accepted _ _ _ _ _ Hcs) as Hacc. rewrite Forall_forall in Hacc.
  assert (∃ returned : string * Config (W:=RetryState * W) → option goerr,
    ∀ c, c ∈ cs → (Start (ctx c.1) c.2 fuel (created (w c.1))).1 = Some (returned c)) as [returned Hret].
  { exists (λ c, default None (Start (ctx c.1) c.2 fuel (created (w c.1))).1).
    intros c Hc. destruct (Hcan c Hc) as [Hm Hf]. specialize (Hacc c Hc).
    by destruct (Start_total (ctx c.1) c.2 (m c.1) fuel (w c.1) Hm (acc_strategy _ Hacc) (acc_factory _ Hacc) Hf)
      as [err ->]. }
  exists returned. split; [exact Hret|]. intros schedule Hperm. unfold run.
  rewrite Hcs, finish_spec. cbn [app orb fst snd].
  destruct (joined_spec returned (schedule cs)) as (Hn & Hc & Ht). 
  assert (∀ c, c ∈ schedule cs ↔ c ∈ cs) as Hin by (intros; by rewrite Hperm).
  setoid_rewrite Hin in Hn. setoid_rewrite Hin in Hc. setoid_rewrite Hin in Ht. split; [exact Hn|]. split; [|exact Ht]. by rewrite Hc, Hn.
Qed.

(** ** Witnesses *)
Module Ex_consumer.
#[local] Existing Instance range_canonical.
#[local] Existing Instance range_canonical_laws.
#[local] Instance overflow : FloatOverflow := float_overflow_amd64.
#[local] Instance fmt : FmtFloat := λ _, "x".
(** Records that are refused, a clock that stands still, and no Kafka client. *)
Definition renv : RetryEnv unit unit unit :=
  {| re_driver_New := λ _ w, (None, w); re_start := λ _ w, w;
     re_enqueue := λ _ w, (inr (errors_New "closed"), w); re_Wait := λ _ w, ((zero_Result, None), w);
     re_Close := λ _ w, (None, w); re_now := λ w, (zero_Time, w); re_log := λ _ w, w |}.
Definition penv : PlayEnv (RetryState * unit) :=
  {| pe_now := λ w, (zero_Time, w); pe_select := λ _ w, (None, w);
     pe_Sleep := λ _ w, w; pe_stdout := λ _ w, w |}.
Definition driver_New : DriverConfig → RetryState * unit → (Consumer (RetryState * unit) + goerr) * (RetryState * unit) :=
  λ _ w, (inr (errors_New "no broker"), w).
Definition cfg : config :=
  mkCliConfig ["localhost:9092"; "localhost:9093"] "demo.orders" "demo" modeSingle 10 (2 * Second) strategyRetry
    3 (2 * Second) (30 * Second) false 0.
Lemma parsed : parseFlags "localhost:9092,localhost:9093" default_flags [] = inl cfg.
Proof. by vm_compute. Qed.
Lemma made : ∃ cs, consumers renv penv driver_New cfg = inl cs ∧ length cs = 2%nat.
Proof.
  pose proof (consumers_spec renv penv driver_New cfg) as Hs.
  assert (flags_ok cfg = true) as E by (by vm_compute). rewrite E in Hs. eexists. split; [exact Hs|done].
Qed.
Lemma playground_wired_witness : ∃ cs, consumers renv penv driver_New cfg = inl cs ∧
  cfg_Topic <$> cs.*2 = ["demo.orders"; "demo.orders.retry"].
Proof.
  destruct (playground_wired renv penv driver_New _ _ _ cfg parsed) as [_ Hw].
  destruct made as (cs & E & _). exists cs. split; [exact E|]. by destruct (Hw cs E) as (_ & _ & ->).
Defined.
(** Ctrl+C before they start. *)
Definition env : Env (RetryState * unit) := {| ctx_Done := λ w, (true, w); time_Now := λ w, (zero_Time, w) |}.
Lemma playground_stops_witness : ∃ cs returned, consumers renv penv driver_New cfg = inl cs ∧
  (∀ c, c ∈ cs → (Start env c.2 2 (created (unused, tt))).1 = Some (returned c)) ∧
  ((run cfg (consumers renv penv driver_New cfg) reverse returned).1.1 = None ↔ ∀ c, c ∈ cs → returned c = None).
Proof.
  destruct made as (cs & E & _).
  destruct (playground_stops renv penv driver_New cfg cs (λ _, env) (λ _ _, 0%nat) (λ _, (unused, tt)) 2 E)
    as (returned & Hr & Hrun).
  - intros c _. split; [|lia]. constructor; try (intros; cbn; lia); intros; repeat (split; intros); cbn; lia.
  - exists cs, returned. split; [exact E|]. split; [exact Hr|].
    specialize (Hrun reverse (reverse_Permutation cs)). destruct (run _ _ _ _) as [[err b] lines]. exact (proj1 Hrun).
Defined.
End Ex_consumer.
