(* ===== verification/PlayProducer.v ===== *)
(** * The playground's producer (examples/playground/cmd/producer/main.go)

    The arguments of the command as payloads, and the records sent for them. *)
From S2P Require Import Prelude GoStrings GoTime GoText GoErrors Kfk Script.
From Stdlib Require Import Ascii.

Definition exitUsage : Z := 2.
Definition binWord : string := "bin".
(** Bytes that are not valid UTF-8. *)
Definition binPayload : string :=
  String.string_of_list_ascii (ascii_of_N <$> [255; 254; 0; 128; 98; 105; 110; 195; 40]%N).

(** ** Payloads *)

(** [repeatPrefix], the pattern [^(\d+)x(.+)$]: the digits, which are all there are
    before the x, and the rest, which is not empty and holds no newline. *)
Fixpoint digits_of (s : string) : string * string :=
  match s with
  | String c s' => if is_digit c then let '(d, rest) := digits_of s' in (String c d, rest) else (EmptyString, s)
  | EmptyString => (EmptyString, EmptyString)
  end.
Definition newline_char : ascii := "010".
Definition repeatPrefix (arg : string) : option (string * string) :=
  match digits_of arg with
  | (EmptyString, _) => None
  | (digits, String "x" rest) =>
      if negb (String.eqb rest EmptyString) && lacks newline_char rest then Some (digits, rest) else None
  | _ => None
  end.

Definition payload_of (text : string) : bytes :=
  Some (if String.eqb text binWord then binPayload else text).
(** One argument of [expand]'s loop. *)
Definition expand_arg (arg : string) : list bytes + goerr :=
  match repeatPrefix arg with
  | Some (digits, text) =>
      match Atoi digits with
      | Some n =>
          if n <? 1 then inr (errors_New (Quote arg +:+ ": repeat count must be a positive number"))
          else inl (replicate (Z.to_nat n) (payload_of text))
      | None => inr (errors_New (Quote arg +:+ ": repeat count must be a positive number"))
      end
  | None => inl [payload_of arg]
  end.
Fixpoint expand_args (args : list string) : list bytes + goerr :=
  match args with
  | [] => inl []
  | arg :: args =>
      match expand_arg arg with
      | inr err => inr err
      | inl payloads =>
          match expand_args args with inr err => inr err | inl rest => inl (payloads ++ rest) end
      end
  end.
Definition expand (args : list string) : list bytes + goerr :=
  if (length args =? 0)%nat then inr (errors_New "no messages given") else expand_args args.

Definition describe (payload : bytes) : string :=
  let payload := default EmptyString payload in
  if String.eqb payload binPayload then "<binary, " +:+ Itoa (Z.of_nat (String.length payload)) +:+ " bytes>"
  else payload.

(** ** Sending *)

(** The record given to [Produce]. *)
Record sent_record : Type := mkSent {
  s_topic : string; s_partition : Z; s_key : string; s_value : bytes;
}.
(** What comes back on the delivery channel: a message with its position and
    error, or another event. *)
Inductive delivery_event : Type :=
  | Report (partition offset : Z) (err : option goerr)
  | OtherEvent.
(** kfk.PartitionAny *)
Definition PartitionAny : Z := -1.

(** What [send] and [main] call: the client, by the brokers it is given, standard
    output and standard error, and the flag package's usage text. *)
Record SendEnv (W : Type) : Type := {
  sn_NewProducer : string → ST W (option goerr);
  sn_Produce : sent_record → ST W (option goerr);
  sn_delivery : ST W delivery_event;
  sn_Close : W → W;
  sn_stdout : string → W → W;
  sn_stderr : string → W → W;
  sn_Usage : W → W;
}.
Arguments sn_NewProducer {W}. Arguments sn_Produce {W}. Arguments sn_delivery {W}. Arguments sn_Close {W}.
Arguments sn_stdout {W}. Arguments sn_stderr {W}. Arguments sn_Usage {W}.

(** [fmt.Sprintf("%s-%04d", keyPrefix, i+1)] *)
Definition key_of (keyPrefix : string) (i : Z) : string := keyPrefix +:+ "-" +:+ appendInt (i + 1) 4.

Section send.
Context {W : Type} (env : SendEnv W).

Fixpoint send_all (topic keyPrefix : string) (partition i : Z) (payloads : list bytes) : ST W (option goerr) :=
  match payloads with
  | [] => mret None
  | payload :: payloads =>
      let key := key_of keyPrefix i in
      err ← sn_Produce env (mkSent topic partition key payload);
      match err with
      | Some err => mret (Some (wrapf ("producing " +:+ key) err))
      | None =>
          event ← sn_delivery env;
          match event with
          | OtherEvent => mret (Some (EErrorf ("producing " +:+ key +:+ ": unexpected delivery event") []))
          | Report _ _ (Some err) => mret (Some (wrapf ("delivering " +:+ key) err))
          | Report p o None =>
              modify (sn_stdout env ("sent key=" +:+ key +:+ " partition=" +:+ Itoa p +:+ " offset=" +:+ Itoa o +:+
                                     " payload=" +:+ describe payload +:+ newline)) ;;
              send_all topic keyPrefix partition (i + 1) payloads
          end
      end
  end.
Definition send (brokers topic keyPrefix : string) (partition : Z) (payloads : list bytes) : ST W (option goerr) :=
  err ← sn_NewProducer env brokers;
  match err with
  | Some err => mret (Some (wrapf "creating producer" err))
  | None =>
      let partition := if partition <? 0 then PartitionAny else partition in
      err ← send_all topic keyPrefix partition 0 payloads;
      modify (sn_Close env) ;; mret err
  end.

(** [main], given the values [flag.Parse] leaves: the exit status. *)
Definition main (brokers topic keyPrefix : string) (partition : Z) (args : list string) : ST W Z :=
  match expand args with
  | inr err =>
      modify (sn_stderr env ("producer: " +:+ error_text err +:+ newline)) ;; modify (sn_Usage env) ;; mret exitUsage
  | inl payloads =>
      err ← send brokers topic keyPrefix (wrap32 partition) payloads;
      match err with
      | Some err => modify (sn_stderr env ("producer: " +:+ error_text err +:+ newline)) ;; mret 1
      | None => mret 0
      end
  end.
End send.

(** ** Lemmas *)

Lemma digits_of_app d s : all_bytes is_digit d = true →
  match s with String c _ => is_digit c = false | EmptyString => True end → digits_of (d +:+ s) = (d, s).
Proof.
  intros Hd Hs. induction d as [|c d IH].
  - rewrite app_nil. destruct s as [|c s]; [done|]. cbn. by rewrite Hs.
  - cbn in Hd. apply andb_true_iff in Hd as [Hc Hd]. rewrite app_cons. cbn. by rewrite Hc, IH.
Qed.

(** A request for messages: a script, and how often, if that is written. *)
Definition request : Type := option Z * string.
Definition show_request (r : request) : string :=
  match r with (Some n, text) => Itoa n +:+ String "x" text | (None, text) => text end.
Definition request_ok (r : request) : Prop :=
  match r with
  | (Some n, text) => 1 ≤ n < 2 ^ 63 ∧ text ≠ EmptyString ∧ lacks newline_char text = true
  | (None, text) => repeatPrefix text = None
  end.
Definition request_payloads (r : request) : list bytes :=
  replicate (Z.to_nat (default 1 r.1)) (payload_of r.2).

Lemma expand_request r : request_ok r → expand_arg (show_request r) = inl (request_payloads r).
Proof.
  destruct r as [[n|] text]; cbn [request_ok show_request]; unfold expand_arg, request_payloads.
  - intros (Hn & Hne & Hl). unfold repeatPrefix, Itoa.
    rewrite (digits_of_app (FormatInt n) (String "x" text)) by (by first [apply FormatInt_digits; lia|vm_compute]).
    destruct (FormatInt n) as [|c d] eqn:E; [by destruct (FormatInt_nonempty n)|].
    rewrite (proj2 (String.eqb_neq _ _) Hne), Hl. cbn [negb andb]. rewrite <-E.
    change (FormatInt n) with (Itoa n). rewrite Atoi_Itoa by lia.
    assert ((n <? 1) = false) as -> by lia. done.
  - by intros ->.
Qed.
Lemma expand_requests l : Forall request_ok l →
  expand_args (show_request <$> l) = inl (concat (request_payloads <$> l)).
Proof.
  induction 1 as [|r l Hr _ IH]; [done|]. cbn [fmap list_fmap expand_args]. by rewrite expand_request, IH.
Qed.

Section sending.
Context {W : Type} (env : SendEnv W).

(** The calls of the client, with their results. *)
Inductive call : Type :=
  | CNew (brokers : string) (err : option goerr)
  | CProduce (r : sent_record) (err : option goerr)
  | CDelivery (e : delivery_event)
  | CClose.
(** [calls w]: the calls made so far, in order. *)
Context (calls : W → list call).
Record recorded : Prop := {
  rec_New b w : calls (sn_NewProducer env b w).2 = calls w ++ [CNew b (sn_NewProducer env b w).1];
  rec_Produce r w : calls (sn_Produce env r w).2 = calls w ++ [CProduce r (sn_Produce env r w).1];
  rec_delivery w : calls (sn_delivery env w).2 = calls w ++ [CDelivery (sn_delivery env w).1];
  rec_Close w : calls (sn_Close env w) = calls w ++ [CClose];
  rec_stdout t w : calls (sn_stdout env t w) = calls w;
}.
Context (Hrec : recorded).

(** A record sent and delivered. *)
Definition delivered_calls (r : sent_record) (cs : list call) : Prop :=
  ∃ p o, cs = [CProduce r None; CDelivery (Report p o None)].
(** A record that was not: the error of [Produce], or what came back. *)
Definition failed_calls (r : sent_record) (cs : list call) : Prop :=
  (∃ err, cs = [CProduce r (Some err)]) ∨
  (∃ e, cs = [CProduce r None; CDelivery e] ∧ match e with Report _ _ None => False | _ => True end).
(** The records, the [i]-th payload being the first. *)
Definition records_from (topic keyPrefix : string) (partition i : Z) (payloads : list bytes) : list sent_record :=
  imap (λ j, mkSent topic partition (key_of keyPrefix (i + Z.of_nat j))) payloads.
Lemma records_cons topic keyPrefix partition i p ps :
  records_from topic keyPrefix partition i (p :: ps) =
  mkSent topic partition (key_of keyPrefix i) p :: records_from topic keyPrefix partition (i + 1) ps.
Proof.
  unfold records_from. cbn [imap]. rewrite Z.add_0_r. f_equal. apply imap_ext. intros j x _. cbn. do 2 f_equal. lia.
Qed.

(** How far the records got: all of them, or to the first that failed. *)
Definition sent_upto (rs : list sent_record) (err : option goerr) (cs : list call) : Prop :=
  match err with
  | None => ∃ css, Forall2 delivered_calls rs css ∧ cs = concat css
  | Some _ => ∃ pre r suf css last, rs = pre ++ r :: suf ∧ Forall2 delivered_calls pre css ∧
      failed_calls r last ∧ cs = concat css ++ last
  end.
Lemma sent_upto_cons r rs err d cs : delivered_calls r d → sent_upto rs err cs → sent_upto (r :: rs) err (d ++ cs).
Proof.
  intros Hd. destruct err as [e|]; cbn.
  - intros (pre & r' & suf & css & last & -> & Hf & Hl & ->).
    exists (r :: pre), r', suf, (d :: css), last. cbn. rewrite <-app_assoc. split_and!; try done. by constructor.
  - intros (css & Hf & ->). exists (d :: css). split; [by constructor|done].
Qed.
Lemma sent_upto_failed r rs e cs : failed_calls r cs → sent_upto (r :: rs) (Some e) cs.
Proof. intros Hf. exists [], r, rs, [], cs. by split_and!; [| |done|]. Qed.

Lemma send_all_spec topic keyPrefix partition payloads : ∀ i w,
  let '(err, w') := send_all env topic keyPrefix partition i payloads w in
  ∃ cs, calls w' = calls w ++ cs ∧ sent_upto (records_from topic keyPrefix partition i payloads) err cs.
Proof.
  induction payloads as [|p ps IH]; intros i w; cbn [send_all].
  { exists []. rewrite app_nil_r. split; [done|]. by exists []. }
  rewrite records_cons. set (r := mkSent _ _ _ p).
  unfold mbind at 1, ST_bind at 1. pose proof (rec_Produce Hrec r w) as Hp.
  destruct (sn_Produce env r w) as [[err|] w1]; cbn [fst snd] in Hp.
  { eexists. split; [exact Hp|]. apply sent_upto_failed. left. eauto. }
  unfold mbind at 1, ST_bind at 1. pose proof (rec_delivery Hrec w1) as Hd.
  destruct (sn_delivery env w1) as [[pt o [err|]|] w2]; cbn [fst snd] in Hd; rewrite Hp, <-app_assoc in Hd; cbn [app] in Hd.
  1,3: eexists; (split; [exact Hd|]); apply sent_upto_failed; right; by eexists.
  unfold mbind, ST_bind, modify. set (w3 := sn_stdout env _ w2). specialize (IH (i + 1) w3).
  destruct (send_all env topic keyPrefix partition (i + 1) ps w3) as [err w4]. destruct IH as (cs & Hc & Hs).
  exists ([CProduce r None; CDelivery (Report pt o None)] ++ cs). split.
  - rewrite Hc. unfold w3. by rewrite (rec_stdout Hrec), Hd, <-app_assoc.
  - apply sent_upto_cons; [by exists pt, o|done].
Qed.
End sending.

(** ** What is typed *)

(** A message as the README has it: a script, or the word bin. *)
Inductive typed : Type := TScript (l : list instruction) | TBin.
Definition typed_text (t : typed) : string :=
  match t with TScript l => Join (show <$> l) "/" | TBin => binWord end.
Definition typed_ok (t : typed) : Prop :=
  match t with TScript l => l ≠ [] ∧ Forall writable l | TBin => True end.
(** How a consumer reads it. *)
Definition reading (t : typed) : Script + goerr :=
  match t with
  | TScript l => inl (outcome_of <$> l)
  | TBin => inr (errors_New "payload is not valid UTF-8")
  end.

(** No text that a kind starts is a repeat. *)
Lemma no_repeat k s : is_kind k [Ok; Panic; Ko; Perm; BatchKo; Nil] = true → repeatPrefix (k +:+ s) = None.
Proof.
  intros Hk%is_kind_spec. rewrite !elem_of_cons, elem_of_nil in Hk.
  by destruct Hk as [->|[->|[->|[->|[->|[->|[]]]]]]].
Qed.
Lemma app_empty s : s +:+ EmptyString = s.
Proof. induction s as [|c s IH]; [done|]. by rewrite app_cons, IH. Qed.
Lemma show_head i : ∃ s, show i = i_kind i +:+ s.
Proof. unfold show. destruct (modifiers_of i); [exists EmptyString; by rewrite app_empty|by eexists]. Qed.
Lemma script_head l : l ≠ [] → Forall writable l →
  ∃ k s, is_kind k [Ok; Panic; Ko; Perm; BatchKo; Nil] = true ∧ Join (show <$> l) "/" = k +:+ s.
Proof.
  intros Hne Hl. destruct l as [|i l]; [done|]. apply Forall_cons in Hl as [Hi _].
  destruct (show_head i) as [s E]. exists (i_kind i). rewrite fmap_cons, E.
  destruct l as [|j l]; [exists s|rewrite fmap_cons, Join_cons, app_assoc_str; eexists];
    (split; [by apply writable_kind|reflexivity]).
Qed.
Lemma plain_newline s : plain s = true → lacks newline_char s = true.
Proof.
  rewrite plain_bytes, lacks_bytes. apply all_bytes_impl. intros c Hc.
  destruct (Ascii.eqb_spec c newline_char) as [->|]; [by vm_compute in Hc|done].
Qed.
Lemma typed_spec t : typed_ok t →
  Script.Parse (payload_of (typed_text t)) = reading t ∧ repeatPrefix (typed_text t) = None ∧
  lacks newline_char (typed_text t) = true ∧ typed_text t ≠ EmptyString.
Proof.
  destruct t as [l|]; [|by vm_compute]. cbn [typed_ok typed_text reading]. intros [Hne Hl].
  pose proof (Parse_show l Hne Hl) as Hp. pose proof (script_text l Hl) as [_ Hplain].
  destruct (script_head l Hne Hl) as (k & s & Hk & E). unfold payload_of. split_and!.
  - destruct (String.eqb_spec (Join (show <$> l) "/") binWord) as [Eb|_]; [|done].
    rewrite Eb in Hp. vm_compute in Hp. discriminate Hp.
  - rewrite E. by apply no_repeat.
  - by apply plain_newline.
  - intros Ee. rewrite Ee in Hp. vm_compute in Hp. discriminate Hp.
Qed.

(** ** Properties *)

Definition typed_request (r : option Z * typed) : request := (r.1, typed_text r.2).

(** C29 (typed scripts arrive) The payloads the producer sends for its arguments,
    scripts and the word bin, each with or without a repeat count, are read by the
    consumer as what was typed, in the order typed and as often as asked: a script
    as its outcomes, bin as a payload that is not valid UTF-8. *)
Theorem typed_scripts_arrive (l : list (option Z * typed)) : l ≠ [] →
  Forall (λ r, typed_ok r.2 ∧ 1 ≤ default 1 r.1 < 2 ^ 63) l →
  ∃ payloads, expand (show_request <$> (typed_request <$> l)) = inl payloads ∧
    Script.Parse <$> payloads =
      concat ((λ r, replicate (Z.to_nat (default 1 r.1)) (reading r.2)) <$> l).
Proof.
  intros Hne Hl. exists (concat (request_payloads <$> (typed_request <$> l))). split.
  - unfold expand. rewrite !length_fmap. destruct l as [|r0 l0]; [done|]. cbn [length Nat.eqb].
    apply expand_requests. apply Forall_fmap. eapply Forall_impl; [exact Hl|].
    intros [[n|] t] [Ht Hn]; destruct (typed_spec t Ht) as (_ & Hr & Hnl & Hte); cbn; [|done].
    cbn in Hn. by split_and!; try lia.
  - clear Hne. induction Hl as [|r l [Ht _] _ IH]; [done|]. cbn [fmap list_fmap concat].
    rewrite fmap_app, <-IH. f_equal. unfold request_payloads, typed_request. cbn [fst snd].
    rewrite fmap_replicate. f_equal. by apply typed_spec.
Qed.

(** Whatever the client and the broker do, the producer hands
    over its payloads one at a time and in order, each with its key and only after
    the one before it was delivered; it stops at the first that is refused or not
    delivered, and returns nil exactly if there was none.  Once created, the client
    is closed exactly once, after everything else. *)
Theorem records_in_order {W} (env : SendEnv W) (calls : W → list call) brokers topic keyPrefix partition payloads w :
  recorded env calls →
  let records := records_from topic keyPrefix (if partition <? 0 then PartitionAny else partition) 0 payloads in
  let '(err, w') := send env brokers topic keyPrefix partition payloads w in
  (∃ e, calls w' = calls w ++ [CNew brokers (Some e)] ∧ err ≠ None) ∨
  (∃ sent, calls w' = calls w ++ [CNew brokers None] ++ sent ++ [CClose] ∧ sent_upto records err sent).
Proof.
  intros Hrec records. unfold send. unfold mbind at 1, ST_bind at 1.
  pose proof (rec_New env calls Hrec brokers w) as Hn.
  destruct (sn_NewProducer env brokers w) as [[e|] w1]; cbn [fst snd] in Hn; [left; by exists e|].
  unfold mbind at 1, ST_bind at 1.
  pose proof (send_all_spec env calls Hrec topic keyPrefix (if partition <? 0 then PartitionAny else partition) payloads 0 w1) as Hs.
  destruct (send_all _ _ _ _ _ _ w1) as [err w2]. destruct Hs as (cs & Hc & Hs). right. exists cs.
  unfold mbind, ST_bind, modify. cbn. split; [|done].
  by rewrite (rec_Close env calls Hrec), Hc, Hn, <-!app_assoc.
Qed.

(** ** Witnesses *)
Module Ex_producer.
Definition lines : list (option Z * typed) :=
  [(Some 2, TScript [mkInstruction Ok None None]); (None, TBin);
   (None, TScript [mkInstruction Ko (Some 1) None; mkInstruction Ok None None])].
Lemma typed_scripts_arrive_witness : ∃ payloads,
  expand ["2xok"; "bin"; "ko:step=1/ok"] = inl payloads ∧ length (Script.Parse <$> payloads) = 4%nat.
Proof.
  destruct (typed_scripts_arrive lines) as (payloads & E & Hp); [done| |exists payloads; split; [exact E|by rewrite Hp]].
  assert (∀ i, i ∈ [mkInstruction Ok None None; mkInstruction Ko (Some 1) None] → writable i) as Hw.
  { intros i. rewrite !elem_of_cons, elem_of_nil. intros [->|[->|[]]];
      (split; [by (right + left)|]); split; intros x; cbn; intros [= <-]; done. }
  repeat apply Forall_cons_2; [..|apply Forall_nil_2]; (split; [|by vm_compute]); try exact I;
    (split; [done|]); repeat apply Forall_cons_2; try apply Forall_nil_2;
    apply Hw; rewrite !elem_of_cons; tauto.
Defined.

(** A client that takes every record and cannot deliver the second. *)
Definition client : SendEnv (list call) :=
  {| sn_NewProducer := λ b w, (None, w ++ [CNew b None]);
     sn_Produce := λ r w, (None, w ++ [CProduce r None]);
     sn_delivery := λ w,
       let e := Report 0 (Z.of_nat (length w)) (if (length w <=? 3)%nat then None else Some (errors_New "broker down")) in
       (e, w ++ [CDelivery e]);
     sn_Close := λ w, w ++ [CClose]; sn_stdout := λ _ w, w; sn_stderr := λ _ w, w; sn_Usage := λ w, w |}.
Lemma client_recorded : recorded client id.
Proof. constructor; done. Qed.
Lemma records_in_order_witness : ∃ err,
  (send client "broker:9092" "demo.orders" "msg" (-5) [Some "ok"; Some "ko"; Some "ok"] []).1 = Some err ∧
  ∃ sent, (send client "broker:9092" "demo.orders" "msg" (-5) [Some "ok"; Some "ko"; Some "ok"] []).2 =
    [CNew "broker:9092" None] ++ sent ++ [CClose] ∧
  sent_upto (records_from "demo.orders" "msg" PartitionAny 0 [Some "ok"; Some "ko"; Some "ok"]) (Some err) sent.
Proof.
  pose proof (records_in_order client id "broker:9092" "demo.orders" "msg" (-5) [Some "ok"; Some "ko"; Some "ok"] []
    client_recorded) as Hr.
  destruct (send client _ _ _ _ _ []) as [err w'] eqn:E. cbn [fst snd]. cbn zeta in Hr.
  assert (is_Some err ∧ head w' = Some (CNew "broker:9092" None)) as [[e He] Hh].
  { apply (f_equal (λ x, (x.1, head x.2))) in E. vm_compute in E. injection E as <- Eh. split; [by eexists|by symmetry]. }
  destruct Hr as [(e' & Hc & _)|(sent & Hc & Hs)].
  - change (id w') with w' in Hc. rewrite Hc in Hh. discriminate Hh.
  - subst err. exists e. split; [done|]. exists sent. by split.
Defined.
End Ex_producer.
