(* ===== verification/PlayEnd.v ===== *)
(** * The playground, end to end

    Its consumers with the retry strategy, on the library's Kafka consumer and
    publisher: from an offset the group has committed back to what the scripts said
    of the records. *)
From S2P Require Import Prelude GoStrings GoErrors GoTime GoText LogCode GoAny GoMath Types Headers ConsumerApi.
From S2P Require Import SubscribeOptions Subscriber Walk AtLeastOnce Accounts Kfk ConsumerDriver OffsetSafety.
From S2P Require Import PubDriver PubOptions PublisherConfig Delivery Publisher PubStack PubNew Retry RetryWalk RetrySafety.
From S2P Require Import PubSession RetryEnd EndToEnd Script PlayHandler PlayConsumer.
#[local] Open Scope Z_scope.

(** ** What a handler accepts

    The script of the message says ok for the attempt it is on. *)
Definition says_ok (m : Message) : Prop := ∃ o, current m = Some o ∧ Kind_ o = Ok.

Lemma accepted_ok m r : resolve m = inl r → verdict_of r = None → says_ok m.
Proof.
  intros E Hv. pose proof (resolve_spec m) as Hr. rewrite E in Hr. destruct Hr as [_ Hr].
  unfold says_ok, current. destruct (Parse _) as [s|err].
  - destruct Hr as [He ->]. exists (r_outcome r). split; [done|].
    destruct (decide (Kind_ (r_outcome r) = Ok)) as [|Hn]; [done|].
    destruct (verdict_spec r He) as [_ Hko]. destruct (Hko Hn) as (f & Hf & _). congruence.
  - destruct (verdict_malformed r err Hr) as (f & Hf & _). congruence.
Qed.

Section handlers.
Context {W : Type} (env : PlayEnv W) (h : handler).

Lemma handle_accepts m p w : hc_outcome (handle env h (Some m) p w).1 = Returned None → says_ok m.
Proof.
  rewrite handle_spec. destruct (wait_until env m w).1 as [err|]; [done|]. unfold scripted_call.
  destruct (resolve m) as [r|text] eqn:E; [|by intros [=]]. destruct (_ && _); [by intros [=]|]. cbn. intros [= Hv].
  by eapply accepted_ok.
Qed.

Lemma resolve_all_inl msgs : ∀ all, resolve_all (fresh_item <$> msgs) = inl all →
  Forall2 (λ m r, resolve m = inl r) msgs all.
Proof.
  induction msgs as [|m msgs IH]; cbn [fmap list_fmap resolve_all]; intros all; [by intros [= <-]|].
  change (item_Message (fresh_item m)) with m. destruct (resolve m) as [r|] eqn:Er; [|done].
  destruct (resolve_all _) as [rs|]; [|done]. intros [= <-]. constructor; [done|by apply IH].
Qed.
(** A batch that is not failed as a whole. *)
Lemma handleBatch_accepts msgs w call : (handleBatch env h (NewBatchFromBuffer msgs) w).1 = call →
  bc_outcome call = Returned None →
  ∃ all, Forall2 (λ m r, resolve m = inl r) msgs all ∧ bc_fails call = fails_from 0 all.
Proof.
  unfold handleBatch, NewBatchFromBuffer.
  assert (Items (Types.NewBatch msgs) = fresh_item <$> msgs) as -> by (by rewrite Items_ok, NewBatch_spec by apply NewBatch_ok).
  unfold mbind at 1, ST_bind at 1. destruct (batchLine _ _ _ w) as [[] w1].
  unfold mbind at 1, ST_bind at 1. destruct (wait_all _ _ w1) as [[err|] w2].
  { unfold mbind, ST_bind. destruct (print _ _ w2). by intros <- [=]. }
  unfold mbind at 1, ST_bind at 1. destruct (delay env h w2) as [[] w3].
  destruct (resolve_all _) as [all|text] eqn:E; [|by intros <- [=]]. apply resolve_all_inl in E.
  destruct (find decides all) as [r|].
  - destruct (is_kind_of r BatchKo); unfold mbind, ST_bind; destruct (all_lines _ _ _ _ w3); by intros <- [=].
  - unfold mbind, ST_bind. pose proof (carry_all_spec env h all 0 w3) as Ha. destruct (carry_all _ _ _ _ w3).
    intros <- _. exists all. split; [done|exact Ha].
Qed.
Lemma succeeded_lookup fs ms : ∀ i m, m ∈ succeeded_from i ms fs →
  ∃ j, ms !! j = Some m ∧ verdict (i + j) fs None = None.
Proof.
  induction ms as [|m' ms IH]; intros i m; cbn [succeeded_from]; [by intros ?%elem_of_nil|].
  assert (m ∈ succeeded_from (S i) ms fs → ∃ j, (m' :: ms) !! j = Some m ∧ verdict (i + j) fs None = None) as Hr.
  { intros (j & Ej & Hv)%IH. exists (S j). split; [done|]. by rewrite <-Nat.add_succ_comm. }
  destruct (existsb _ fs) eqn:E; [exact Hr|]. intros [<-|Hin]%elem_of_cons; [|by apply Hr].
  exists 0%nat. split; [done|]. rewrite Nat.add_0_r. pose proof (verdict_existsb i fs None) as Hv. rewrite E in Hv.
  destruct (verdict i fs None); [|done]. exfalso. destruct (proj1 Hv); [by eexists|by destruct H|done].
Qed.
Lemma batch_accepts msgs w m :
  let call := (handleBatch env h (NewBatchFromBuffer msgs) w).1 in
  bc_outcome call = Returned None → m ∈ succeeded_from 0 msgs (bc_fails call) → says_ok m.
Proof.
  cbn zeta. intros (all & Hall & ->)%(handleBatch_accepts msgs w _ eq_refl) (j & Ej & Hv)%succeeded_lookup.
  rewrite (verdict_fails all 0 j) in Hv. destruct (Forall2_lookup_l _ _ _ _ _ Hall Ej) as (r & Er & Hr).
  rewrite Er in Hv. by eapply accepted_ok.
Qed.
End handlers.

(** ** The playground's consumers *)

Section playground.
Context {W D R : Type} `{KfkCodes} `{KfkConsumer W} `{!KfkConfigLaws} `{GoRangeLaws} `{FloatOverflow} `{FmtFloat}.
Context (log : log_line → W → W) (pnew : ProducerConfig → R → option goerr * R) (now : R → Time * R) (say : log_line → R → R).
Context (penv : PlayEnv (whole W D R)).

(** The consumer driver they are made with. *)
Definition driver_of : DriverConfig → whole W D R → (Consumer (whole W D R) + goerr) * whole W D R :=
  newConsumer_in_world (driver_New log).
Abbreviation renv := (EndToEnd.renv pnew now say).

(** The clock, the sleeps and the standard output of the handlers are not the
    library's own state. *)
Record play_alone : Prop := {
  pl_now s : private (pe_now penv s).2.2 = private s.2;
  pl_select d s : private (pe_select penv d s).2.2 = private s.2;
  pl_Sleep d s : private (pe_Sleep penv d s).2 = private s.2;
  pl_stdout t s : private (pe_stdout penv t s).2 = private s.2;
}.
(** Neither are the context and the clock of a consumer. *)
Record ctx_alone (env : Env (whole W D R)) : Prop := {
  cx_done s : private (ctx_Done env s).2.2 = private s.2;
  cx_now s : private (time_Now env s).2.2 = private s.2;
}.

(** A computation of a handler that leaves it alone. *)
Definition alone {A} (c : ST (whole W D R) A) : Prop := ∀ s, private (c s).2.2 = private s.2.
Lemma alone_ret {A} (x : A) : alone (mret x).
Proof. by intros s. Qed.
Lemma alone_bind {A B} (c : ST (whole W D R) A) (f : A → ST (whole W D R) B) :
  alone c → (∀ x, alone (f x)) → alone (c ≫= f).
Proof.
  intros Hc Hf s. unfold mbind, ST_bind. specialize (Hc s). destruct (c s) as [x s']. by rewrite (Hf x s').
Qed.
Lemma alone_modify f : (∀ s, private (f s).2 = private s.2) → alone (modify f).
Proof. intros Hf s. apply Hf. Qed.

Context (Hplay : play_alone) (h : handler).
Lemma alone_print text : alone (print penv text).
Proof.
  apply alone_bind; [intros s; apply (pl_now Hplay)|]. intros t. apply alone_modify. intros s. apply (pl_stdout Hplay).
Qed.
Lemma alone_line m token r : alone (line penv h m token r).
Proof. apply alone_print. Qed.
Lemma alone_wait m : alone (wait_until penv m).
Proof.
  unfold wait_until. destruct (IsZero _); [apply alone_ret|]. apply alone_bind; [intros s; apply (pl_now Hplay)|].
  intros t s. unfold wait_from. destruct (Facade.WaitUntilRetryTime _ _ _) as [[d|] err]; [apply (pl_select Hplay)|done].
Qed.
Lemma alone_delay : alone (delay penv h).
Proof. unfold delay. destruct (_ <? _); [|apply alone_ret]. apply alone_modify. intros s. apply (pl_Sleep Hplay). Qed.
Lemma alone_wait_all its : alone (wait_all penv its).
Proof.
  induction its as [|it its IH]; [apply alone_ret|]. apply alone_bind; [apply alone_wait|]. intros [err|]; [apply alone_ret|done].
Qed.
Lemma alone_carry_all all : ∀ i, alone (carry_all penv h i all).
Proof.
  induction all as [|r all IH]; intros i; [apply alone_ret|]. apply alone_bind.
  { apply alone_bind; [apply alone_line|]. intros _. apply alone_ret. }
  intros f. apply alone_bind; [apply IH|]. intros fails. apply alone_ret.
Qed.
Lemma alone_all_lines all why : alone (all_lines penv h all why).
Proof.
  unfold all_lines. induction all as [|r all IH]; [apply alone_ret|].
  cbn [st_iter]. apply alone_bind; [apply alone_line|]. by intros _.
Qed.
Hint Resolve alone_ret alone_bind alone_print alone_line alone_wait alone_delay alone_wait_all alone_carry_all
  alone_all_lines : core.
Lemma alone_handle m p : alone (handle penv h m p).
Proof.
  unfold handle. destruct (Facade.MessageFromContext _) as [msg|]; [|auto]. apply alone_bind; [auto|]. intros [err|]; [auto|].
  apply alone_bind; [auto|]. intros _. destruct (resolve msg) as [r|text]; [|auto].
  destruct (_ && _); [auto|]. unfold carryOut. auto.
Qed.
Lemma alone_handleBatch b : alone (handleBatch penv h b).
Proof.
  unfold handleBatch, batchLine. apply alone_bind; [auto|]. intros _. apply alone_bind; [auto|]. intros [err|]; [auto|].
  apply alone_bind; [auto|]. intros _. destruct (resolve_all _) as [all|text]; [|auto].
  destruct (find decides all) as [r|]; [destruct (is_kind_of r BatchKo)|]; auto.
Qed.
End playground.

Section committed.
Context {W D R : Type} `{KfkCodes} `{KfkConsumer W} `{!KfkConfigLaws} `{GoRangeLaws} `{FloatOverflow} `{FmtFloat}.
Context (log : log_line → W → W) (pnew : ProducerConfig → R → option goerr * R) (now : R → Time * R) (say : log_line → R → R).
Context (penv : PlayEnv (whole W D R)).
Abbreviation renv := (EndToEnd.renv pnew now say).

(** What there is to know of a consumer [consumers] makes for the retry strategy. *)
Lemma consumers_retry cfg cs c : consumers renv penv (driver_of log) cfg = inl cs → strategy cfg = strategyRetry →
  c ∈ cs →
  accepted c.2 ∧ cfg_newConsumer c.2 = Some (driver_of log) ∧
  cfg_ErrorStrategy c.2 = Some (RetryStrategy renv (retry_config cfg)) ∧
  (∀ hd, cfg_Handler c.2 = Some hd → ∃ h, hd = handle penv h) ∧
  (∀ hd, cfg_BatchHandler c.2 = Some hd → ∃ h, hd = handleBatch penv h).
Proof.
  intros E Hs Hc. pose proof (consumers_accepted renv penv (driver_of log) cfg cs E) as Hacc.
  rewrite Forall_forall in Hacc. split; [by apply Hacc|].
  pose proof (consumers_spec renv penv (driver_of log) cfg) as Hspec.
  destruct (flags_ok cfg); [|destruct Hspec as [err Hspec]; congruence]. rewrite Hspec in E. injection E as <-.
  assert (∀ n t g, let c := wired renv penv (driver_of log) n t g cfg in
    cfg_newConsumer c = Some (driver_of log) ∧
    cfg_ErrorStrategy c = Some (RetryStrategy renv (retry_config cfg)) ∧
    (∀ hd, cfg_Handler c = Some hd → ∃ h, hd = handle penv h) ∧
    (∀ hd, cfg_BatchHandler c = Some hd → ∃ h, hd = handleBatch penv h)) as Hw.
  { intros n t g. unfold wired, the_strategy, is_retry. rewrite Hs. cbn zeta.
    destruct (String.eqb (mode cfg) modeBatch); split_and!; try done; intros hd [= <-]; by eexists. }
  apply elem_of_cons in Hc as [->|Hc]; [apply Hw|].
  destruct (noRetryConsumer cfg); [by apply elem_of_nil in Hc|]. apply list_elem_of_singleton in Hc as ->. apply Hw.
Qed.
Lemma accepted_says_ok (c : Config (W:=whole W D R)) e m :
  (∀ hd, cfg_Handler c = Some hd → ∃ h, hd = handle penv h) →
  (∀ hd, cfg_BatchHandler c = Some hd → ∃ h, hd = handleBatch penv h) →
  from_handler c e → by_handler e = true → m ∈ resolves e → says_ok m.
Proof.
  intros Hh Hb Hf He Hm. destruct e as [| | | |msg call|ms call| | | | | | | | |]; try discriminate He; cbn in Hf, Hm.
  - destruct Hf as [w ->]. unfold handler_called in Hm. destruct (cfg_Handler c) as [hd|] eqn:E; [|by apply elem_of_nil in Hm].
    destruct (Hh hd eq_refl) as [h ->]. pose proof (handle_accepts penv h msg (msg_Payload msg) w) as Ha.
    destruct (hc_outcome _) as [[f|]|]; try (by apply elem_of_nil in Hm). apply list_elem_of_singleton in Hm as ->. by apply Ha.
  - destruct Hf as [w ->]. unfold batch_called in Hm. destruct (cfg_BatchHandler c) as [hd|] eqn:E; [|by apply elem_of_nil in Hm].
    destruct (Hb hd eq_refl) as [h ->]. pose proof (batch_accepts penv h ms w m) as Ha. cbn zeta in Ha.
    destruct (bc_outcome _) as [[f|]|]; try (by apply elem_of_nil in Hm). by apply Ha.
Qed.
Lemma playground_leaves_alone cfg c env : ctx_alone env → play_alone penv →
  (∀ hd, cfg_Handler c = Some hd → ∃ h, hd = handle penv h) →
  (∀ hd, cfg_BatchHandler c = Some hd → ∃ h, hd = handleBatch penv h) →
  leaves_alone env c (retry_config cfg).
Proof.
  intros [] Hp Hh Hb. constructor; try done.
  - intros hd m p s E. destruct (Hh hd E) as [h ->]. by apply alone_handle.
  - intros hd b s E. destruct (Hb hd E) as [h ->]. by apply alone_handleBatch.
Qed.
End committed.

(** ** Property *)

(** The script said ok for the attempt the record at [q] was on, in the handler's call
    that accepted it. *)
Definition script_accepted (q : position) (pre : list event) : Prop :=
  ∃ e m, e ∈ pre ∧ by_handler e = true ∧ m ∈ resolves e ∧ pos m = q ∧ says_ok m.

(** C12 (the playground loses nothing) Either consumer the playground makes from its
    flags with the retry strategy, in either mode: an offset the group has committed
    after a run is one past a record that was delivered, and of each record of that
    partition at or below it delivered since the last revocation either the script said
    ok for the attempt it was on, in the handler's call that accepted it, or the broker
    has acknowledged a copy on the retry or the dead-letter topic.  The same goes for
    each record of the partition at or below it that was ever polled before, where the
    broker hands over again what was revoked unstored, unless another member of the
    group has committed past it. *)
Theorem playground_loses_nothing {W D R} `{KfkCodes} `{KfkConsumer W} `{!KfkConfigLaws} `{GoRangeLaws}
    `{FloatOverflow} `{FmtFloat} (log : log_line → W → W) (offsets : W → string * Z → Z → Prop)
    `{!KfkOffsetLaws log offsets} (pnew : ProducerConfig → R → option goerr * R) now say
    (penv : PlayEnv (whole W D R)) cfg cs c (env : Env (whole W D R)) fuel r session rest w t p x :
  strategy cfg = strategyRetry →
  consumers (renv pnew now say) penv (driver_of log) cfg = inl cs → c ∈ cs →
  play_alone penv → ctx_alone env → (∀ tp o, ¬ offsets w tp o) →
  let s := (Start env c.2 fuel (created (r, (session, (rest, (new_consumer, w)))))).2 in
  offsets (client_of (st_world s)).2 (t, p) x →
  ∃ o err pre suf,
    x = wrap64 (o + 1) ∧ st_trace s = pre ++ EvStore t p o err :: suf ∧
    (0 < delivered (t, p, o) pre)%nat ∧
    let safe q := script_accepted q pre ∨
                  copied (renv pnew now say) (retry_config cfg) session_sent session_acked q (st_world s).2 in
    (∀ off, off ≤ o → (0 < delivered (t, p, off) pre)%nat → safe (t, p, off)) ∧
    (∀ elsewhere, redelivers elsewhere (st_trace s) → ∀ off, off ≤ o → polled (t, p, off) pre →
       safe (t, p, off) ∨ elsewhere (t, p, off)).
Proof.
  intros Hs Ecs Hc Hplay Hctx Hnone s Hx.
  destruct (consumers_retry log pnew now say penv cfg cs c Ecs Hs Hc) as (Hacc & Hnew & Hst & Hh & Hb).
  pose proof (playground_leaves_alone penv cfg c.2 env Hctx Hplay Hh Hb) as Hla.
  destruct (committed_covered log offsets pnew now say (retry_config cfg) env c.2 fuel r session rest w t p x
              Hacc Hnew Hst Hla Hnone Hx) as (o & err & pre & suf & Hxo & Htr & Hd & Hcov & Hcov').
  assert (∀ q, handler_accepted q pre → script_accepted q pre) as Hok.
  { intros q (e & m & He & Hbh & Hm & Hpos). exists e, m. split_and!; [done..|].
    eapply accepted_says_ok; [exact Hh|exact Hb| |exact Hbh|exact Hm].
    pose proof (Start_from_handlers env c.2 fuel (r, (session, (rest, (new_consumer, w))))) as Hall.
    apply (eq_ind _ (Forall (from_handler c.2)) Hall) in Htr. rewrite Forall_forall in Htr.
    apply Htr, elem_of_app. by left. }
  exists o, err, pre, suf. split; [done|]. split; [done|]. split; [done|]. split.
  - intros off Hoff Hdel. destruct (Hcov off Hoff Hdel); [left; by apply Hok|by right].
  - intros elsewhere Hre off Hoff Hpo.
    destruct (Hcov' elsewhere Hre off Hoff Hpo) as [[Ha|Hc']|He]; [left; left; by apply Hok|left; by right|by right].
Qed.

(** ** Witness: a payload that is no script

    The handler fails the record of offset 4 for good; it is written to the
    dead-letter topic and acknowledged, and offset 5 is committed. *)
Module Ex_play_whole.
#[local] Existing Instance range_canonical.
#[local] Existing Instance range_canonical_laws.
#[local] Existing Instances Ex_kafka.codes Ex_kafka.config_ Ex_kafka.client Ex_kafka.config_laws Ex_offsets.laws.
#[local] Instance overflow : FloatOverflow := float_overflow_amd64.
#[local] Instance fmt : FmtFloat := λ _, "x".
Abbreviation world := Ex_whole.world.
Abbreviation renv := (EndToEnd.renv Ex_whole.pnew Ex_whole.clock Ex_whole.nolog).
Abbreviation driver_New_ := (driver_of (D:=unit) (R:=nat) Ex_offsets.nolog).
Definition penv : PlayEnv world :=
  {| pe_now := λ w, (zero_Time, w); pe_select := λ _ w, (None, w);
     pe_Sleep := λ _ w, w; pe_stdout := λ _ w, w |}.
Definition cfg : config :=
  mkCliConfig ["broker:9092"] "orders" "billing" modeSingle 10 (2 * Second) strategyRetry
    3 (2 * Second) (30 * Second) true 0.
Definition source : Config (W:=world) := wired renv penv driver_New_ "source" "orders" "billing" cfg.
Lemma play_made : consumers renv penv driver_New_ cfg = inl [("source", source)].
Proof.
  pose proof (consumers_spec renv penv driver_New_ cfg) as Hs.
  assert (flags_ok cfg = true) as E by (by vm_compute). by rewrite E in Hs.
Qed.
Definition start : world := (unused, (Ex_session.opened Ex_whole.calls, (4%nat, (new_consumer, Ex_kafka.k0)))).
Definition final : world := st_world (Start Ex_whole.env source 6 (created start)).2.
Lemma play_committed : bool_decide (Ex_kafka.k_committed (client_of final).2 !! ("orders", 0) = Some 5) = true.
Proof. by vm_compute. Qed.
Lemma play_alone_ : play_alone penv.
Proof. by constructor. Qed.
Lemma ctx_alone_ : ctx_alone Ex_whole.env.
Proof. constructor; [|done]. by intros [r [p [[|n] dw]]]. Qed.

Lemma play_handed_over : redelivers (λ _, False) (st_trace (Start Ex_whole.env source 6 (created start)).2).
Proof. apply redelivers_check. vm_compute. reflexivity. Qed.

Lemma playground_loses_nothing_witness : ∃ o err pre suf,
  5 = wrap64 (o + 1) ∧
  st_trace (Start Ex_whole.env source 6 (created start)).2 = pre ++ EvStore "orders" 0 o err :: suf ∧
  (0 < delivered ("orders", 0%Z, o) pre)%nat ∧
  ∀ off, off ≤ o → polled ("orders", 0, off) pre →
    (script_accepted ("orders", 0, off) pre ∨
     copied renv (retry_config cfg) session_sent session_acked ("orders", 0, off) final.2) ∨ False.
Proof.
  destruct (playground_loses_nothing Ex_offsets.nolog Ex_offsets.offsets Ex_whole.pnew Ex_whole.clock Ex_whole.nolog
           penv cfg [("source", source)] ("source", source) Ex_whole.env 6 unused (Ex_session.opened Ex_whole.calls) 4%nat
           Ex_kafka.k0 "orders" 0 5 eq_refl play_made (list_elem_of_here _ _) play_alone_ ctx_alone_ Ex_offsets.k0_empty
           (or_intror (bool_decide_eq_true_1 _ play_committed)))
    as (o & err & pre & suf & Hx & Htr & Hd & _ & Hall).
  exists o, err, pre, suf. split; [exact Hx|]. split; [exact Htr|]. split; [exact Hd|].
  exact (Hall (λ _, False) play_handed_over).
Defined.
End Ex_play_whole.
